(* ===== verification/_CoqProject ===== *)
-Q . S2P
Prelude.v
RustStd.v
Crates.v
Domain.v
Parser.v
InlineFacts.v
RespFacts.v
ParserProps.v
ParserBorrowed.v
BorrowedProps.v
Metrics.v
World.v
Engine.v
EngineFacts.v
EvictFacts.v
StoreSpec.v
EngineProps.v
Response.v
ResponseProps.v
Dispatcher.v
DispatcherProps.v
CommandEnds.v
Aof.v
AofFacts.v
RestoreFacts.v
AofProps.v
CommandSpec.v
AofLocks.v
Config.v
Snapshot.v
SnapshotProps.v
Disk.v
Boot.v
Session.v
SessionProps.v
BatchEnds.v
InlineSession.v
ParserTests.v
EngineTests.v
StorageTests.v
Server.v
ServerProps.v
EndToEnd.v
DiskProps.v
FastInline.v
Concurrent.v
ConcurrentProps.v
LoneSession.v
Linearizable.v
LogRecovery.v
ServerTests.v
BenchNet.v
BenchClients.v
BenchPipeline.v
BenchRedis.v
BenchFacts.v
BenchProps.v
BenchRedisProps.v
Main.v
