(* ===== verification/Prelude.v ===== *)
(** * ZetDB: a verification library

    ZetDB is an in-memory key-value store with a Redis-like protocol: a Tokio server that
    parses inline or RESP commands, runs them on a concurrent hash map whose entries may
    expire, and persists to an append-only file (AOF) and to snapshots.  This library models
    the program as executable definitions that follow the Rust sources function by function,
    and proves what makes each part correct.

    ** The program and its model

    Bytes flow through a session ([server/session.rs]): the read buffer is cut into frames by
    a parser ([protocol/parser.rs] for RESP, [protocol/parser_borrowed.rs] for inline lines),
    each command is dispatched to the engine ([application/*.rs] on
    [storage/dashmap_engine.rs]), counted ([observability/metrics.rs]), logged
    ([storage/aof.rs]) and answered ([protocol/response.rs]).  [server/tcp.rs] accepts
    connections up to a limit and drains them; [main.rs] restores a snapshot
    ([storage/snapshot.rs]) and replays the log at start-up; tickers sweep expired keys,
    fsync and rewrite the log, and take snapshots.

    - [Prelude]: results, panics, the error notations, list lemmas, hint databases.
    - [RustStd]: what the sources use of Rust's standard library: bytes, machine integers
      with their wrap-around, little-endian codecs, [Display] and [FromStr] of integers,
      UTF-8 validation and lossy decoding, slices that panic, [Instant] and [Duration] in
      nanoseconds, the monotone clock.
    - [Crates]: the third-party crates as type classes with their documented laws
      ([memchr], [itoa], [crc32fast], [dashmap], Tokio's intervals) and one concrete instance of each.  DashMap's
      iteration order is arbitrary; whether its whole-map calls may be made while an entry
      guard is held is the flag [dm_reentrant].
    - [Domain]: [domain/*.rs] and [CommandType].
    - [Parser], [InlineFacts], [RespFacts], [ParserProps]: [protocol/parser.rs].
    - [ParserBorrowed], [BorrowedProps]: [protocol/parser_borrowed.rs].
    - [Metrics]: [observability/metrics.rs] as one running thread sees it.
    - [World]: the state monad of the server (engine, position in the clock's readings,
      metrics, thread-local counters), the [KvEngine] trait as a class, and [KvEngineOk], what
      its clients rely on.
    - [Engine], [EngineFacts], [EvictFacts], [StoreSpec], [EngineProps]:
      [storage/dashmap_engine.rs], [storage/engine.rs], [storage/ttl.rs]; [StoreSpec] is the
      abstract expiring map and its step relation.
    - [Response], [ResponseProps]: [protocol/response.rs], with a client-side decoder.
    - [Dispatcher], [DispatcherProps]: the four dispatchers of [application/]; [CommandEnds]: every
      command on the engine [main] builds returns or panics.
    - [Aof], [AofFacts], [RestoreFacts], [AofProps]: [storage/aof.rs]; [CommandSpec] is the
      reference semantics of single commands on the data alone.
    - [AofLocks]: the methods of [AofWriter] as steps on its three mutexes, for any number of
      tasks and any schedule.
    - [Config]: [config/mod.rs] and [observability/cpu_affinity.rs].
    - [Snapshot], [SnapshotProps]: [storage/snapshot.rs].
    - [Disk], [DiskProps]: a file system with names, inodes, handles, calls that fail part of the
      way and halts; on it the writer of the log, the rewriter's turn and the atomic write of
      snapshots once more, with their error paths.
    - [Boot]: the restore phase of [main.rs].
    - [Session], [SessionProps], [BatchEnds], [InlineSession], [FastInline]: [server/session.rs] as
      one task runs it.
    - [Server], [ServerProps]: [server/tcp.rs] and one tick of each background task.
    - [EndToEnd]: session, log, shutdown or crash, and start-up composed.
    - [Concurrent], [ConcurrentProps], [LoneSession], [Linearizable], [LogRecovery]: the server
      with all its tasks interleaved, a schedule being a sequence of steps of any of them: accepting,
      opening, reading, a frame, a step on the log's mutexes, writing, closing, the tickers.
    - [Main]: the rest of [main.rs]: start-up to shutdown under a configuration.
    - [ParserTests], [EngineTests], [StorageTests], [ServerTests]: the repository's tests, as
      programs over the model; [ServerTests] runs the integration tests on [Concurrent].
    - [BenchNet], [BenchClients], [BenchPipeline], [BenchRedis], [BenchFacts], [BenchProps],
      [BenchRedisProps]: the six load generators under [bin/], as clients of a connection given by a
      script of what arrives and of which writes fail, with tasks that add to a shared counter and
      figures in IEEE doubles.

    Strings are byte lists (keys are built with [from_utf8_unchecked], so any bytes can occur);
    records, enums and functions keep the source's names where Rocq allows it.  A
    computation returns [Val], [Panic] (an unwinding panic) or [Stuck] (it does not end: the thread
    waits for a lock it holds, or a loop runs out of turns), and the state reached, because only the task is lost.  Every
    [Instant::now()] consumes one reading of a monotone clock, so a call that reads it twice can
    see two instants.  Integer arithmetic is that of a release build (wrapping).

    ** What is proved

    - Parsers: no panic and progress on any buffer; answers stable under more input; RESP and
      inline round trips; the inline scanner equals a token grammar; the zero-copy parser
      agrees with the owned one on CRLF lines.
    - Engine: refinement of the abstract expiring map for every sequence of calls; the key
      limit as an invariant and the choice of the evicted key; counters; the invisible sweeper.
    - Dispatch and responses: the dispatchers agree; get/set/del/TTL/MSET behaviour through
      [dispatch], for any engine that satisfies [KvEngineOk] where no clock is involved; pipelined
      RESP replies decode to what was written, for error texts without a carriage return.
    - Persistence: replaying the log is running the writes it records through the dispatcher again,
      for lifetimes of whole milliseconds; torn
      tails; rewriting; durability of flushes; snapshot round trip, rejection of damaged files and
      totality of loading; start-up from both files.
    - The disk: snapshots are replaced atomically whatever call fails and wherever the machine
      halts; the log's writer on a working disk is the one of file Aof; calls that fail without
      writing lose nothing.
    - Sessions: answers do not depend on how the network cuts the stream, for RESP clients and for
      inline clients whose lines end in CRLF and are not blank, on the full path and, for lines
      that hold a command, on the fast one; the fast and full paths agree on RESP; batch loops
      terminate ([batch_loops_terminate]).
    - The interleaved server: linearizability of single-key commands with every background task
      running; the connection limit and the buffer bounds under every schedule; a session on the
      full path that is not interrupted is the session of file Session ([lone_session]), so that its
      theorems hold of the interleaved server; the drain's bound.
    - The log's mutexes: entries stay whole and none is lost under every schedule of appends,
      flushes and ticks; calls all end unless the policy is [Everysec], under which they can
      deadlock.
    - The whole path: a restart finds what a client wrote ([restart_finds_writes]), and what
      concurrent clients wrote to keys of their own while the log is not rewritten
      ([concurrent_recovery]); a crash leaves the data after a first part of the writes, all but
      the last 4096 bytes of log ([crash_recovery]); a clean stop and start with snapshots keep
      every visible entry that has a millisecond left, its value and its whole milliseconds of
      life ([clean_restart]).
    - The load generators: a round of any client and the server fit together, requests and
      replies, however both are cut ([bench_round], [redis_round]); what is reported is what was done
      ([bench_reports], [redis_reports]), except where stated; percentiles have their rank.
    - The model against the code's own expectations: of the repository's 169 tests all but
      [test_pin_thread], which only calls the operating system, hold of the model
      ([repository_tests_pass]).
    - Behaviour that departs from the intent is stated and proved as such: entries written
      twice when the log's batch fills, counters counted twice after a restart from both files,
      entries lost in the rewrite window, lifetimes below a millisecond that are lost in a snapshot or
      log, data run as commands after a torn MSET, [INCR]
      blocking on its own lock, bare line feeds that panic a session and leak its slot, the
      deadlock of the log's mutexes, a log in another order than the commands ran, a torn write
      repeated from its start, a writer left on a file without a name, operations a load generator
      does not report or counts without a reply, and smaller ones stated beside the component they
      concern.

    ** Bounds and fuel

    Loops that are not structural take fuel: the inline MGET/MSET scanners, the replay loop
    and the batch loops run with the length of their input (plus one for the batch loops), since
    every turn consumes a byte.  Out of fuel the replay loop and the batch loops are [Stuck], as no
    run of theirs that ends is; [replay_ends] and [batch_loops_terminate] show that the fuel of
    the replay and of the batches is enough.  A call on the log takes at most eight steps ([rank]).  The tests
    let a connection take 200 steps per write, more than any of them needs.  The drain loop
    needs 102 turns (50 ms polls against a 5 s timeout).  A load generator's client runs as many
    turns as it reads [running] as true, and its loop over arriving bytes has one turn for each of
    them ([read_responses_good], [redis_prepopulates] show that the fuel is enough).  Buffers are
    assumed to fit in memory ([in_memory]: below 2^63 - 1 bytes), and restored lifetimes not to overflow [Instant] ([clock_ok]).

    ** What is not modelled

    In the interleaved server a command is one step.  That is exact for commands that make one
    call on the map ([single_call]); [KEYS], [DBSIZE], [FLUSHDB], [MGET], [MSET] and [INFO] visit
    the map shard by shard or key by key, and other tasks may run in between.  The fast path is
    modelled for one task at a time only.  Outside of [Disk], file operations succeed, and the
    interleaved server uses the log's writer of [Aof]; network reads and writes are events.  Not
    modelled at all: how clap fills the configuration, log lines, the installation of the signal
    handler, and of the load generators the layout of what they print, the choice of a free port
    and the start of the server they drive.

    ** Plan

    Next: the fast path interleaved; multi-key commands as several steps of a task, with what
    clients can then observe; recovery with lifetimes, as bounds on the restored deadlines. *)

From stdpp Require Export prelude list gmap strings.
From Stdlib Require Export ZArith Lia.
From Stdlib Require Strings.Byte Strings.String.

#[global] Open Scope Z_scope.

(** * Results of Rust code *)

(** A Rust [Result<A, E>]. *)
Inductive result (A E : Type) : Type :=
| Ok (a : A)
| Err (e : E).
Arguments Ok {A E} a.
Arguments Err {A E} e.

(** The exit of a Rust call: a value, an unwinding panic (an index out of
    range, [Buf::advance] past the end, [Instant + Duration] overflow, ...), or no exit
    at all, the thread waiting for a lock it holds itself. *)
Inductive outcome (A : Type) : Type :=
| Val (a : A)
| Panic
| Stuck.
Arguments Val {A} a.
Arguments Panic {A}.
Arguments Stuck {A}.

#[export] Instance result_eq_dec {A E} `{EqDecision A, EqDecision E} :
  EqDecision (result A E).
Proof. solve_decision. Defined.

#[export] Instance outcome_eq_dec {A} `{EqDecision A} : EqDecision (outcome A).
Proof. solve_decision. Defined.

#[export] Instance outcome_ret : MRet outcome := λ A a, Val a.
#[export] Instance outcome_bind : MBind outcome :=
  λ A B k m, match m with Val a => k a | Panic => Panic | Stuck => Stuck end.

(** [let x = c?; k] in a function that may panic. *)
Definition try_bind {A B E : Type} (c : outcome (result A E))
    (k : A → outcome (result B E)) : outcome (result B E) :=
  match c with
  | Val (Ok a) => k a
  | Val (Err e) => Val (Err e)
  | Panic => Panic
  | Stuck => Stuck
  end.

(** [r.map_err(..)?] / [r?] in a function that cannot panic. *)
Definition result_bind {A B E : Type} (c : result A E)
    (k : A → result B E) : result B E :=
  match c with Ok a => k a | Err e => Err e end.

Declare Scope rust_scope.
Delimit Scope rust_scope with rust.
Notation "'try' x := c 'in' k" := (try_bind c (λ x, k))
  (at level 60, x binder, c at level 59, k at level 60, right associativity) : rust_scope.
Notation "'let?' x := c 'in' k" := (result_bind c (λ x, k))
  (at level 60, x binder, c at level 59, k at level 60, right associativity) : rust_scope.
#[global] Open Scope rust_scope.

(** * Tactics *)

Create HintDb zet.

(** Case analysis on the scrutinee of a [match] or [if] of the goal or of a
    hypothesis, and clean up. *)
Ltac crush_match :=
  repeat (case_match; simplify_eq/=; try done).

(** Destruct the boolean comparisons of [Z] and [nat] met in the goal. *)
Ltac zcases :=
  repeat match goal with
  | |- context [Z.ltb ?a ?b] => destruct (Z.ltb_spec a b)
  | |- context [Z.leb ?a ?b] => destruct (Z.leb_spec a b)
  | |- context [Z.eqb ?a ?b] => destruct (Z.eqb_spec a b)
  | |- context [Nat.ltb ?a ?b] => destruct (Nat.ltb_spec a b)
  | |- context [Nat.leb ?a ?b] => destruct (Nat.leb_spec a b)
  | |- context [Nat.eqb ?a ?b] => destruct (Nat.eqb_spec a b)
  end.

(** * Lists *)

Lemma take_app_exact {A} (l k : list A) : take (length l) (l ++ k) = l.
Proof. by rewrite take_app_length. Qed.

Lemma drop_app_exact {A} (l k : list A) : drop (length l) (l ++ k) = k.
Proof. by rewrite drop_app_length. Qed.

Lemma take_app_ge_l {A} n (l k : list A) :
  (n ≤ length l)%nat → take n (l ++ k) = take n l.
Proof. intros. by rewrite take_app_le. Qed.

Lemma drop_app_le_l {A} n (l k : list A) :
  (n ≤ length l)%nat → drop n (l ++ k) = drop n l ++ k.
Proof. intros. by rewrite drop_app_le. Qed.

Lemma pair_first {A B} (r : A * B) a : r.1 = a → r = (a, r.2).
Proof. by destruct r; intros <-. Qed.

Lemma filter_Forall_id {A} (P : A → Prop) `{∀ x, Decision (P x)} (l : list A) :
  Forall P l → filter P l = l.
Proof.
  induction 1 as [|x l Hx _ IH]; [done|]. rewrite filter_cons, decide_True by done. by f_equal.
Qed.
