(* ===== verification/RustStd.v ===== *)
(** The parts of the Rust language and standard library the sources use:
    bytes and machine-width integers (release profile: arithmetic wraps),
    little-endian codecs, decimal printing and [str::parse], UTF-8 checking
    and [String::from_utf8_lossy], slices that panic out of range,
    [Duration]/[Instant] and a monotone clock. *)

From S2P Require Import Prelude.
From Stdlib Require Strings.Byte Strings.String.

(** * Bytes *)

Abbreviation byte := Init.Byte.byte.
Abbreviation bytes := (list byte).

#[export] Instance byte_eq_decision : EqDecision byte := Byte.byte_eq_dec.

#[export] Program Instance byte_countable : Countable byte :=
  inj_countable Byte.to_N Byte.of_N _.
Next Obligation. intros b. apply Byte.of_to_N. Qed.

(** The unsigned value of a [u8]. *)
Definition bval (b : byte) : Z := Z.of_N (Byte.to_N b).

(** [z as u8]. *)
Definition byte_of_Z (z : Z) : byte :=
  match Byte.of_N (Z.to_N (z mod 256)) with Some b => b | None => Byte.x00 end.

(** A byte-string literal [b"..."]; the control bytes are named. *)
Definition str (s : String.string) : bytes := String.list_byte_of_string s.
Definition LF : byte := Byte.x0a.
Definition CR : byte := Byte.x0d.
Definition SP : byte := Byte.x20.
Definition TAB : byte := Byte.x09.
Definition crlf : bytes := [CR; LF].

(** [u8::is_ascii_digit], [u8::to_ascii_lowercase], [u8::eq_ignore_ascii_case]. *)
Definition is_ascii_digit (b : byte) : bool := (48 <=? bval b) && (bval b <=? 57).
Definition to_ascii_lowercase (b : byte) : byte :=
  if (65 <=? bval b) && (bval b <=? 90) then byte_of_Z (bval b + 32) else b.
Definition u8_eq_ignore_ascii_case (a b : byte) : bool :=
  Byte.eqb (to_ascii_lowercase a) (to_ascii_lowercase b).

(** * Machine widths *)

Definition u16 (z : Z) : Z := z mod 2 ^ 16.
Definition u32 (z : Z) : Z := z mod 2 ^ 32.
Definition u64 (z : Z) : Z := z mod 2 ^ 64.
Definition i64 (z : Z) : Z := (z + 2 ^ 63) mod 2 ^ 64 - 2 ^ 63.
(** [usize] is 64 bits wide on the supported targets. *)
Definition usize (z : Z) : Z := z mod 2 ^ 64.

Definition in_u64 (z : Z) : Prop := 0 ≤ z < 2 ^ 64.
Definition in_i64 (z : Z) : Prop := - 2 ^ 63 ≤ z < 2 ^ 63.

(** [to_le_bytes] of an [n]-byte integer and its inverse. *)
Fixpoint le_bytes (n : nat) (z : Z) : bytes :=
  match n with
  | O => []
  | S n => byte_of_Z z :: le_bytes n (z / 256)
  end.

Fixpoint le_val (l : bytes) : Z :=
  match l with
  | [] => 0
  | b :: l => bval b + 256 * le_val l
  end.

(** * Decimal integers *)

Definition digit (d : Z) : byte := byte_of_Z (48 + d).

Fixpoint dec_digits (fuel : nat) (n : Z) : bytes :=
  match fuel with
  | O => []
  | S fuel =>
      if n <? 10 then [digit n] else dec_digits fuel (n / 10) ++ [digit (n mod 10)]
  end.

(** [Display] of an unsigned and of a signed integer. *)
Definition display_u (n : Z) : bytes := dec_digits (S (Z.to_nat (Z.log2 n))) n.
Definition display_i (n : Z) : bytes :=
  if n <? 0 then Byte.x2d :: display_u (- n) else display_u n.

(** The value of a run of digits, [None] if a byte is not a digit. *)
Fixpoint digits_val (acc : Z) (l : bytes) : option Z :=
  match l with
  | [] => Some acc
  | b :: l =>
      if is_ascii_digit b then digits_val (acc * 10 + (bval b - 48)) l else None
  end.

(** [str::parse::<u64>]: an optional plus sign, at least one digit, only digits, no
    overflow. *)
Definition parse_u64 (s : bytes) : option Z :=
  let ds := match s with
            | b :: _ :: _ => if Byte.eqb b Byte.x2b then tail s else s
            | _ => s
            end in
  match ds with
  | [] => None
  | _ => v ← digits_val 0 ds; if v <? 2 ^ 64 then Some v else None
  end.

(** [str::parse::<i64>]: the same with an optional minus sign. *)
Definition parse_i64 (s : bytes) : option Z :=
  let '(neg, ds) :=
    match s with
    | b :: _ :: _ =>
        if Byte.eqb b Byte.x2b then (false, tail s)
        else if Byte.eqb b Byte.x2d then (true, tail s)
        else (false, s)
    | _ => (false, s)
    end in
  match ds with
  | [] => None
  | _ =>
      v ← digits_val 0 ds;
      let r := if neg then - v else v in
      if (- 2 ^ 63 <=? r) && (r <? 2 ^ 63) then Some r else None
  end.

(** * UTF-8 *)

Definition in_range (lo hi : Z) (b : byte) : bool := (lo <=? bval b) && (bval b <=? hi).

(** Byte [i] of the slice, zero past its end. *)
Definition safe_get (l : bytes) (i : nat) : byte := default Byte.x00 (l !! i).
Definition is_cont (b : byte) : bool := in_range 128 191 b.

(** One step of the standard library's UTF-8 scanner on a non-empty slice:
    whether a well-formed character starts here, and how many bytes the scanner
    inspected (the character's, or the maximal ill-formed prefix). *)
Definition utf8_step (l : bytes) : bool * nat :=
  let b := safe_get l 0 in
  let b1 := safe_get l 1 in
  let b2 := safe_get l 2 in
  let b3 := safe_get l 3 in
  if bval b <? 128 then (true, 1%nat)
  else if in_range 194 223 b then
    if is_cont b1 then (true, 2%nat) else (false, 1%nat)
  else if in_range 224 239 b then
    let lo := if bval b =? 224 then 160 else 128 in
    let hi := if bval b =? 237 then 159 else 191 in
    if in_range lo hi b1 then
      if is_cont b2 then (true, 3%nat) else (false, 2%nat)
    else (false, 1%nat)
  else if in_range 240 244 b then
    let lo := if bval b =? 240 then 144 else 128 in
    let hi := if bval b =? 244 then 143 else 191 in
    if in_range lo hi b1 then
      if is_cont b2 then
        if is_cont b3 then (true, 4%nat) else (false, 3%nat)
      else (false, 2%nat)
    else (false, 1%nat)
  else (false, 1%nat).

(** U+FFFD in UTF-8. *)
Definition replacement : bytes := [Byte.xef; Byte.xbf; Byte.xbd].

Fixpoint utf8_lossy_fuel (fuel : nat) (l : bytes) : bytes :=
  match fuel, l with
  | S fuel, _ :: _ =>
      let '(ok, n) := utf8_step l in
      (if ok then take n l else replacement) ++ utf8_lossy_fuel fuel (drop n l)
  | _, _ => []
  end.

(** [String::from_utf8_lossy]: every step inspects at least one byte, so
    the length of the slice is enough fuel. *)
Definition from_utf8_lossy (l : bytes) : bytes := utf8_lossy_fuel (length l) l.

Fixpoint utf8_valid_fuel (fuel : nat) (l : bytes) : bool :=
  match fuel, l with
  | S fuel, _ :: _ =>
      let '(ok, n) := utf8_step l in ok && utf8_valid_fuel fuel (drop n l)
  | _, _ => true
  end.

Definition utf8_valid (l : bytes) : bool := utf8_valid_fuel (length l) l.

(** [str::from_utf8(b).unwrap_or("")]. *)
Definition from_utf8_or_empty (l : bytes) : bytes := if utf8_valid l then l else [].

(** [b as char] printed by [Display]: Latin-1 to UTF-8. *)
Definition char_display (b : byte) : bytes :=
  if bval b <? 128 then [b]
  else [byte_of_Z (192 + bval b / 64); byte_of_Z (128 + bval b mod 64)].

(** * Slices *)

(** [&l[a..b]]. *)
Definition slice (l : bytes) (a b : nat) : outcome bytes :=
  if (a <=? b)%nat && (b <=? length l)%nat then Val (take (b - a) (drop a l)) else Panic.

(** [&l[a..]] and [BytesMut::advance(a)] on the remaining bytes. *)
Definition slice_from (l : bytes) (a : nat) : outcome bytes :=
  if (a <=? length l)%nat then Val (drop a l) else Panic.

(** [l.iter().position(p)]. *)
Fixpoint position (p : byte → bool) (l : bytes) : option nat :=
  match l with
  | [] => None
  | b :: l => if p b then Some 0%nat else S <$> position p l
  end.

(** * Time *)

(** [Duration] and [Instant] in nanoseconds. *)
Abbreviation Duration := Z.
Abbreviation Instant := Z.

Definition from_secs (s : Z) : Duration := s * 1000000000.
Definition from_millis (ms : Z) : Duration := ms * 1000000.
Definition as_millis (d : Duration) : Z := d / 1000000.
Definition as_secs (d : Duration) : Z := d / 1000000000.

(** The last representable [Instant]: a Unix [timespec] holds [i64] seconds. *)
Definition instant_max : Instant := 2 ^ 63 * 1000000000 - 1.

(** [Instant + Duration] panics when the sum is not representable. *)
Definition instant_add (t : Instant) (d : Duration) : outcome Instant :=
  if t + d <=? instant_max then Val (t + d) else Panic.

(** [Instant - Instant] saturates at zero. *)
Definition instant_sub (a b : Instant) : Duration := Z.max 0 (a - b).

(** [Instant::now()]: the readings of a monotonic clock, in program order. *)
Class Clock : Type := {
  clk : nat → Instant;
  clk_mono : ∀ i j : nat, (i ≤ j)%nat → clk i ≤ clk j
}.

(** * Facts *)

Lemma byte_eqb_eq a b : Byte.eqb a b = true ↔ a = b.
Proof.
  split; [apply Byte.byte_dec_bl | apply Byte.byte_dec_lb].
Qed.

Lemma byte_eqb_refl a : Byte.eqb a a = true.
Proof. by apply byte_eqb_eq. Qed.

Lemma byte_eqb_neq a b : Byte.eqb a b = false ↔ a ≠ b.
Proof. rewrite <- byte_eqb_eq. by destruct (Byte.eqb a b). Qed.

Lemma bval_range b : 0 ≤ bval b < 256.
Proof. unfold bval. pose proof (Byte.to_N_bounded b). lia. Qed.

Lemma bval_byte_of_Z z : bval (byte_of_Z z) = z mod 256.
Proof.
  unfold bval, byte_of_Z.
  pose proof (Z.mod_pos_bound z 256 eq_refl).
  destruct (Byte.of_N _) as [b|] eqn:E.
  - apply Byte.to_of_N in E. rewrite E. lia.
  - apply Byte.of_N_None_iff in E. lia.
Qed.

Lemma bval_inj a b : bval a = bval b → a = b.
Proof.
  unfold bval. intros H%N2Z.inj.
  pose proof (Byte.of_to_N a) as Ha. pose proof (Byte.of_to_N b) as Hb. congruence.
Qed.

Lemma byte_of_Z_bval b : byte_of_Z (bval b) = b.
Proof.
  apply bval_inj. rewrite bval_byte_of_Z. apply Z.mod_small, bval_range.
Qed.

Lemma length_le_bytes n z : length (le_bytes n z) = n.
Proof. revert z; induction n; intros; simpl; auto. Qed.

Lemma le_val_le_bytes n z : le_val (le_bytes n z) = z mod 256 ^ Z.of_nat n.
Proof.
  revert z; induction n as [|n IH]; intros z.
  - by rewrite Z.mod_1_r.
  - cbn [le_bytes le_val]. rewrite IH, bval_byte_of_Z, Nat2Z.inj_succ, Z.pow_succ_r by lia.
    rewrite (Z.rem_mul_r z 256 (256 ^ Z.of_nat n)) by lia. lia.
Qed.

Lemma le_val_range l : 0 ≤ le_val l < 256 ^ Z.of_nat (length l).
Proof.
  induction l as [|b l IH]; [done|].
  cbn [le_val length]. rewrite Nat2Z.inj_succ, Z.pow_succ_r by lia.
  pose proof (bval_range b). lia.
Qed.

Lemma i64_range z : in_i64 (i64 z).
Proof. unfold in_i64, i64. pose proof (Z.mod_pos_bound (z + 2 ^ 63) (2 ^ 64)). lia. Qed.

Lemma i64_id z : in_i64 z → i64 z = z.
Proof. unfold in_i64, i64. intros. rewrite Z.mod_small; lia. Qed.

Lemma i64_mod z : i64 (z mod 2 ^ 64) = i64 z.
Proof. unfold i64. by rewrite Zplus_mod_idemp_l. Qed.

Lemma u64_id z : in_u64 z → u64 z = z.
Proof. intros. by apply Z.mod_small. Qed.

(** ** Decimal *)

Lemma bval_digit d : 0 ≤ d < 10 → bval (digit d) = 48 + d.
Proof. intros. unfold digit. rewrite bval_byte_of_Z, Z.mod_small; lia. Qed.

Lemma digit_is_digit d : 0 ≤ d < 10 → is_ascii_digit (digit d) = true.
Proof. intros. unfold is_ascii_digit. rewrite bval_digit by done. lia. Qed.

Lemma digits_val_app acc l k :
  digits_val acc (l ++ k) = v ← digits_val acc l; digits_val v k.
Proof.
  revert acc; induction l as [|b l IH]; intros acc; [done|].
  simpl. destruct (is_ascii_digit b); [apply IH | done].
Qed.

Lemma digits_val_forall acc l v :
  digits_val acc l = Some v → Forall (λ b, is_ascii_digit b = true) l.
Proof.
  revert acc; induction l as [|b l IH]; intros acc; simpl; [done|].
  destruct (is_ascii_digit b) eqn:E; [|done]. eauto.
Qed.

Lemma dec_digits_val fuel n :
  0 ≤ n < 2 ^ Z.of_nat fuel → digits_val 0 (dec_digits fuel n) = Some n.
Proof.
  revert n; induction fuel as [|fuel IH]; intros n Hn.
  - simpl in *. f_equal. lia.
  - cbn [dec_digits]. rewrite Nat2Z.inj_succ, Z.pow_succ_r in Hn by lia.
    destruct (Z.ltb_spec n 10).
    + cbn. rewrite digit_is_digit, bval_digit by lia. f_equal; lia.
    + rewrite digits_val_app, IH by (split; [apply Z.div_pos | apply Z.div_lt_upper_bound]; lia).
      pose proof (Z.mod_pos_bound n 10). pose proof (Z.div_mod n 10).
      cbn. rewrite digit_is_digit, bval_digit by lia. f_equal; lia.
Qed.

Lemma display_u_val n : 0 ≤ n → digits_val 0 (display_u n) = Some n.
Proof.
  intros. unfold display_u. apply dec_digits_val. split; [done|].
  rewrite Nat2Z.inj_succ, Z2Nat.id by apply Z.log2_nonneg.
  destruct (decide (n = 0)) as [->|]; [done|]. apply Z.log2_spec. lia.
Qed.

Lemma display_u_digits n : 0 ≤ n → Forall (λ b, is_ascii_digit b = true) (display_u n).
Proof. intros. eapply digits_val_forall. by apply display_u_val. Qed.

Lemma display_u_cons n : ∃ b l, display_u n = b :: l.
Proof.
  unfold display_u. cbn [dec_digits]. destruct (n <? 10); [eauto|].
  destruct (dec_digits _ _); simpl; eauto.
Qed.

Lemma digit_not_sign b :
  is_ascii_digit b = true → Byte.eqb b Byte.x2b = false ∧ Byte.eqb b Byte.x2d = false.
Proof.
  unfold is_ascii_digit. intros H.
  split; apply byte_eqb_neq; intros ->; vm_compute in H; discriminate.
Qed.

Lemma parse_u64_display n : in_u64 n → parse_u64 (display_u n) = Some n.
Proof.
  intros [H0 H1]. pose proof (display_u_val n H0) as Hv.
  pose proof (display_u_digits n H0) as Hd.
  destruct (display_u_cons n) as (b & l & E). rewrite E in *.
  inversion Hd as [|?? Hb Hl]; subst.
  destruct (digit_not_sign b Hb) as [Hs _].
  assert (parse_u64 (b :: l) = (v ← digits_val 0 (b :: l); if v <? 2 ^ 64 then Some v else None))
    as ->.
  { unfold parse_u64. destruct l; [done|]. by rewrite Hs. }
  rewrite Hv. simpl. by destruct (Z.ltb_spec n (2 ^ 64)); [|lia].
Qed.

Lemma display_i_nonneg n : 0 ≤ n → display_i n = display_u n.
Proof. intros. unfold display_i. by rewrite (proj2 (Z.ltb_ge n 0)). Qed.

Lemma parse_i64_display n : in_i64 n → parse_i64 (display_i n) = Some n.
Proof.
  intros [H0 H1]. unfold display_i. destruct (Z.ltb_spec n 0).
  - pose proof (display_u_val (- n)) as Hv.
    destruct (display_u_cons (- n)) as (b & l & E). rewrite E in *.
    unfold parse_i64. cbn [tail].
    replace (Byte.eqb Byte.x2d Byte.x2b) with false by done. rewrite byte_eqb_refl.
    rewrite Hv by lia. cbn [mbind option_bind]. rewrite Z.opp_involutive.
    destruct (Z.leb_spec (- 2 ^ 63) n), (Z.ltb_spec n (2 ^ 63)); [done | lia..].
  - pose proof (display_u_val n) as Hv. pose proof (display_u_digits n ltac:(lia)) as Hd.
    destruct (display_u_cons n) as (b & l & E). rewrite E in *.
    inversion Hd as [|?? Hb Hl]; subst.
    destruct (digit_not_sign b Hb) as [Hs Hm].
    assert (∀ A (x y z : A), match (b :: l : bytes) with
      | b :: _ :: _ => if Byte.eqb b Byte.x2b then x else if Byte.eqb b Byte.x2d then y else z
      | _ => z end = z) as Hz.
    { intros. destruct l; [done|]. by rewrite Hs, Hm. }
    unfold parse_i64. rewrite Hz, Hv by lia. cbn [mbind option_bind].
    destruct (Z.leb_spec (- 2 ^ 63) n), (Z.ltb_spec n (2 ^ 63)); [done | lia..].
Qed.

(** ** UTF-8 *)

Lemma utf8_step_pos l : (0 < (utf8_step l).2)%nat.
Proof. unfold utf8_step. repeat case_match; simpl; lia. Qed.

Lemma utf8_lossy_valid_fuel fuel l :
  (length l ≤ fuel)%nat → utf8_valid_fuel fuel l = true → utf8_lossy_fuel fuel l = l.
Proof.
  revert l; induction fuel as [|fuel IH]; intros [|b l] Hl Hv; try done.
  { simpl in Hl. lia. }
  cbn [utf8_valid_fuel utf8_lossy_fuel] in *.
  pose proof (utf8_step_pos (b :: l)) as Hp.
  destruct (utf8_step (b :: l)) as [ok n]. simpl in Hp.
  apply andb_true_iff in Hv as [-> Hv].
  rewrite IH, take_drop; [done| |done].
  rewrite length_drop. simpl in *. lia.
Qed.

Lemma from_utf8_lossy_valid l : utf8_valid l = true → from_utf8_lossy l = l.
Proof. intros. by apply utf8_lossy_valid_fuel. Qed.

Lemma utf8_valid_ascii l : Forall (λ b, bval b < 128) l → utf8_valid l = true.
Proof.
  unfold utf8_valid. induction 1 as [|b l Hb Hl IH]; [done|].
  cbn [length utf8_valid_fuel]. unfold utf8_step, safe_get.
  cbn [lookup list_lookup default from_option id].
  destruct (Z.ltb_spec (bval b) 128); [|lia]. exact IH.
Qed.

(** ** Slices *)

Lemma slice_val l a b :
  (a ≤ b ≤ length l)%nat → slice l a b = Val (take (b - a) (drop a l)).
Proof. intros. unfold slice. by destruct (Nat.leb_spec a b), (Nat.leb_spec b (length l)); try lia. Qed.

Lemma slice_from_val l a : (a ≤ length l)%nat → slice_from l a = Val (drop a l).
Proof. intros. unfold slice_from. by destruct (Nat.leb_spec a (length l)); [|lia]. Qed.

Lemma position_Some p l i :
  position p l = Some i →
  (i < length l)%nat ∧ Forall (λ b, p b = false) (take i l) ∧
  ∃ b, l !! i = Some b ∧ p b = true.
Proof.
  revert i; induction l as [|b l IH]; intros i; simpl; [done|].
  destruct (p b) eqn:E; intros H.
  - simplify_eq. simpl. split_and!; [lia | constructor | eauto].
  - destruct (position p l) as [j|] eqn:Ej; simplify_eq/=.
    destruct (IH j eq_refl) as (? & ? & c & ? & ?).
    split_and!; [lia | by constructor | eauto].
Qed.

Lemma position_None p l : position p l = None ↔ Forall (λ b, p b = false) l.
Proof.
  induction l as [|b l IH]; simpl; [by split|].
  destruct (p b) eqn:E.
  - split; [done|]. inversion 1; congruence.
  - rewrite fmap_None, IH. split; [by constructor | by inversion 1].
Qed.

Lemma position_app_Some p l k i : position p l = Some i → position p (l ++ k) = Some i.
Proof.
  revert i; induction l as [|b l IH]; intros i; simpl; [done|].
  destruct (p b); [done|]. destruct (position p l) as [j|]; [|done].
  intros [= <-]. by rewrite (IH j).
Qed.

Lemma position_app_None p l k :
  position p l = None → position p (l ++ k) = Nat.add (length l) <$> position p k.
Proof.
  induction l as [|b l IH]; simpl; intros H.
  - by destruct (position p k).
  - destruct (p b); [done|]. apply fmap_None in H. rewrite (IH H).
    by destruct (position p k).
Qed.
