(* ===== verification/Crates.v ===== *)
(** Interfaces of the third-party crates the sources call, each a class with
    the operations used and the documented behaviour the code relies on:
    [memchr], [itoa], [crc32fast], [tokio::time] and [dashmap].  The components are written and
    verified against these classes; the instances at the end show that each
    class can be met and let concrete inputs be evaluated.  They are plain
    definitions: nothing picks them up unless it names them. *)

From S2P Require Import Prelude RustStd.

(** * The interfaces *)

(** [memchr::memchr] and [memchr::memchr2]: the index of the first occurrence. *)
Class Memchr : Type := {
  memchr : byte → bytes → option nat;
  memchr2 : byte → byte → bytes → option nat;
  memchr_Some n l i : memchr n l = Some i → (l !! i = Some n) ∧ (n ∉ take i l);
  memchr_None n l : memchr n l = None → (n ∉ l);
  memchr2_Some n1 n2 l i :
    memchr2 n1 n2 l = Some i →
    (l !! i = Some n1 ∨ l !! i = Some n2) ∧ n1 ∉ take i l ∧ n2 ∉ take i l;
  memchr2_None n1 n2 l : memchr2 n1 n2 l = None → n1 ∉ l ∧ n2 ∉ l
}.

(** [itoa::Buffer::format]: the text [Display] prints. *)
Class Itoa : Type := {
  itoa_format : Z → bytes;
  itoa_format_display n : itoa_format n = display_i n
}.

(** [crc32fast::hash] returns a [u32]. *)
Class Crc32 : Type := {
  crc32_hash : bytes → Z;
  crc32_hash_range l : 0 ≤ crc32_hash l < 2 ^ 32
}.

(** [tokio::time::interval] panics when the period is zero. *)
Class TokioTime : Type := {
  interval_new : Duration → outcome ();
  interval_new_zero : interval_new 0 = Panic;
  interval_new_pos d : 0 < d → interval_new d = Val tt
}.

(** [dashmap::DashMap<K, V>] used by one thread at a time: lookups after
    [insert] and [remove], and iteration over every entry once, in an order the
    crate does not fix.  The crate documents that [len], [iter] and [remove] may
    deadlock when the caller holds a reference into the map; [dm_reentrant] says
    whether they return then. *)
Class DashMap (K V M : Type) `{EqDecision K} : Type := {
  dm_new : M;
  dm_get : M → K → option V;
  dm_insert : M → K → V → M;
  dm_remove : M → K → M;
  dm_iter : M → list (K * V);
  dm_reentrant : bool;
  dm_get_new k : dm_get dm_new k = None;
  dm_get_insert m k v k' :
    dm_get (dm_insert m k v) k' = if decide (k = k') then Some v else dm_get m k';
  dm_get_remove m k k' :
    dm_get (dm_remove m k) k' = if decide (k = k') then None else dm_get m k';
  dm_iter_get m k v : (k, v) ∈ dm_iter m ↔ dm_get m k = Some v;
  dm_iter_nodup m : NoDup (dm_iter m).*1
}.

Section dashmap.
Context {K V M : Type} `{HD : DashMap K V M}.
Implicit Types (m : M) (k : K) (v : V).

(** [len], [contains_key] and [clear] through the operations above. *)
Definition dm_len m : Z := Z.of_nat (length (dm_iter m)).
Definition dm_contains_key m k : bool := bool_decide (is_Some (dm_get m k)).
Definition dm_keys m : list K := (dm_iter m).*1.

(** Same content, whatever the iteration order. *)
Definition dm_equiv m1 m2 : Prop := ∀ k, dm_get m1 k = dm_get m2 k.

#[global] Instance dm_equiv_equivalence : Equivalence dm_equiv.
Proof.
  split; unfold dm_equiv.
  - by intros m k.
  - by intros m1 m2 H k.
  - intros m1 m2 m3 H1 H2 k. by rewrite H1.
Qed.

#[global] Instance dm_get_proper : Proper (dm_equiv ==> eq ==> eq) dm_get.
Proof. by intros m1 m2 H k ? <-. Qed.

#[global] Instance dm_insert_proper :
  Proper (dm_equiv ==> eq ==> eq ==> dm_equiv) dm_insert.
Proof. intros m1 m2 H k ? <- v ? <- k'. by rewrite !dm_get_insert, H. Qed.

#[global] Instance dm_remove_proper : Proper (dm_equiv ==> eq ==> dm_equiv) dm_remove.
Proof. intros m1 m2 H k ? <- k'. by rewrite !dm_get_remove, H. Qed.

Lemma dm_keys_elem m k : k ∈ dm_keys m ↔ is_Some (dm_get m k).
Proof.
  unfold dm_keys. rewrite list_elem_of_fmap. split.
  - intros ([k' v] & -> & H%dm_iter_get). eauto.
  - intros [v H%dm_iter_get]. by exists (k, v).
Qed.

Lemma dm_keys_perm m1 m2 :
  (∀ k, is_Some (dm_get m1 k) ↔ is_Some (dm_get m2 k)) → dm_keys m1 ≡ₚ dm_keys m2.
Proof.
  intros H. apply NoDup_Permutation; [apply dm_iter_nodup..|].
  intros k. by rewrite !dm_keys_elem.
Qed.

Lemma dm_len_keys m : dm_len m = Z.of_nat (length (dm_keys m)).
Proof. unfold dm_len, dm_keys. by rewrite length_fmap. Qed.

#[global] Instance dm_len_proper : Proper (dm_equiv ==> eq) dm_len.
Proof.
  intros m1 m2 H. rewrite !dm_len_keys. f_equal. apply Permutation_length, dm_keys_perm.
  intros k. by rewrite H.
Qed.

#[global] Instance dm_contains_key_proper : Proper (dm_equiv ==> eq ==> eq) dm_contains_key.
Proof. intros m1 m2 H k ? <-. unfold dm_contains_key. by rewrite H. Qed.

Lemma dm_get_insert_eq m k v : dm_get (dm_insert m k v) k = Some v.
Proof. rewrite dm_get_insert. by case_decide. Qed.

Lemma dm_get_insert_ne m k k' v : k ≠ k' → dm_get (dm_insert m k v) k' = dm_get m k'.
Proof. intros. rewrite dm_get_insert. by case_decide. Qed.

Lemma dm_get_remove_eq m k : dm_get (dm_remove m k) k = None.
Proof. rewrite dm_get_remove. by case_decide. Qed.

Lemma dm_get_remove_ne m k k' : k ≠ k' → dm_get (dm_remove m k) k' = dm_get m k'.
Proof. intros. rewrite dm_get_remove. by case_decide. Qed.

Lemma dm_len_nonneg m : 0 ≤ dm_len m.
Proof. unfold dm_len. lia. Qed.

Lemma dm_len_new : dm_len dm_new = 0.
Proof.
  rewrite dm_len_keys. assert (dm_keys dm_new = []) as ->; [|done].
  apply elem_of_nil_inv. intros k. rewrite dm_keys_elem, dm_get_new. by intros [? ?].
Qed.

Lemma dm_len_insert m k v :
  dm_len (dm_insert m k v) = if dm_contains_key m k then dm_len m else dm_len m + 1.
Proof.
  rewrite !dm_len_keys. unfold dm_contains_key. case_bool_decide as Hk.
  - f_equal. apply Permutation_length, dm_keys_perm. intros k'.
    rewrite dm_get_insert. case_decide; [|done]. subst. split; eauto.
  - assert (dm_keys (dm_insert m k v) ≡ₚ k :: dm_keys m) as ->; [|simpl; lia].
    apply NoDup_Permutation; [apply dm_iter_nodup | constructor |].
    + by rewrite dm_keys_elem.
    + apply dm_iter_nodup.
    + intros k'. rewrite elem_of_cons, !dm_keys_elem, dm_get_insert.
      case_decide; naive_solver.
Qed.

Lemma dm_len_remove m k :
  dm_len (dm_remove m k) = if dm_contains_key m k then dm_len m - 1 else dm_len m.
Proof.
  rewrite !dm_len_keys. unfold dm_contains_key. case_bool_decide as Hk.
  - assert (dm_keys m ≡ₚ k :: dm_keys (dm_remove m k)) as ->; [|simpl; lia].
    apply NoDup_Permutation; [apply dm_iter_nodup | constructor |].
    + rewrite dm_keys_elem, dm_get_remove_eq. by intros [? ?].
    + apply dm_iter_nodup.
    + intros k'. rewrite elem_of_cons, !dm_keys_elem, dm_get_remove.
      case_decide; naive_solver.
  - f_equal. apply Permutation_length, dm_keys_perm. intros k'.
    rewrite dm_get_remove. case_decide; [|done]. subst. split; [by intros [? ?] | done].
Qed.
End dashmap.

#[export] Hint Resolve dm_len_nonneg dm_get_insert_eq dm_get_remove_eq : zet.

(** ** [memchr] is a position search *)

Lemma memchr_position `{Memchr} n l : memchr n l = position (λ b, Byte.eqb b n) l.
Proof.
  destruct (memchr n l) as [i|] eqn:E.
  - apply memchr_Some in E as [E1 E2]. symmetry.
    rewrite <- (take_drop_middle l i n E1).
    rewrite position_app_None.
    + simpl. rewrite byte_eqb_refl. simpl. f_equal. rewrite length_take.
      apply lookup_lt_Some in E1. lia.
    + apply position_None, Forall_forall. intros x Hx. apply byte_eqb_neq. by intros ->.
  - apply memchr_None in E. symmetry. apply position_None, Forall_forall.
    intros x Hx. apply byte_eqb_neq. by intros ->.
Qed.

Lemma memchr2_position `{Memchr} n1 n2 l :
  memchr2 n1 n2 l = position (λ b, Byte.eqb b n1 || Byte.eqb b n2) l.
Proof.
  destruct (memchr2 n1 n2 l) as [i|] eqn:E.
  - apply memchr2_Some in E as (E1 & E2 & E3). symmetry.
    assert (∃ b, l !! i = Some b ∧ Byte.eqb b n1 || Byte.eqb b n2 = true) as (b & Hb & Hp).
    { destruct E1 as [E1|E1]; eexists; split; eauto; rewrite byte_eqb_refl; [done|].
      apply orb_true_r. }
    rewrite <- (take_drop_middle l i b Hb).
    rewrite position_app_None.
    + simpl. rewrite Hp. simpl. f_equal. rewrite length_take.
      apply lookup_lt_Some in Hb. lia.
    + apply position_None, Forall_forall. intros x Hx. apply orb_false_iff.
      split; apply byte_eqb_neq; by intros ->.
  - apply memchr2_None in E as [E1 E2]. symmetry. apply position_None, Forall_forall.
    intros x Hx. apply orb_false_iff. split; apply byte_eqb_neq; by intros ->.
Qed.

(** * Instances *)

Lemma position_eqb_Some n l i :
  position (λ b, Byte.eqb b n) l = Some i → l !! i = Some n ∧ n ∉ take i l.
Proof.
  intros (Hi & Hf & b & Hb & ->%byte_eqb_eq)%position_Some. split; [done|].
  intros Hin. rewrite Forall_forall in Hf. specialize (Hf _ Hin).
  by rewrite byte_eqb_refl in Hf.
Qed.

Program Definition memchr_scan : Memchr := {|
  memchr := λ n, position (λ b, Byte.eqb b n);
  memchr2 := λ n1 n2, position (λ b, Byte.eqb b n1 || Byte.eqb b n2)
|}.
Next Obligation. intros n l i H. by apply position_eqb_Some. Qed.
Next Obligation.
  intros n l H Hin. apply position_None in H. rewrite Forall_forall in H.
  specialize (H _ Hin). by rewrite byte_eqb_refl in H.
Qed.
Next Obligation.
  intros n1 n2 l i (Hi & Hf & b & Hb & Hp)%position_Some.
  rewrite Forall_forall in Hf. split_and!.
  - apply orb_true_iff in Hp as [->%byte_eqb_eq | ->%byte_eqb_eq]; eauto.
  - intros Hin. specialize (Hf _ Hin). by rewrite byte_eqb_refl in Hf.
  - intros Hin. specialize (Hf _ Hin). rewrite byte_eqb_refl, orb_true_r in Hf. done.
Qed.
Next Obligation.
  intros n1 n2 l H%position_None. rewrite Forall_forall in H. split.
  - intros Hin. specialize (H _ Hin). by rewrite byte_eqb_refl in H.
  - intros Hin. specialize (H _ Hin). rewrite byte_eqb_refl, orb_true_r in H. done.
Qed.

Definition tokio_intervals : TokioTime.
Proof.
  refine {| interval_new d := if 0 <? d then Val tt else Panic |}; [done|].
  intros d Hd. by rewrite (proj2 (Z.ltb_lt 0 d)).
Defined.

Definition itoa_display : Itoa := {| itoa_format := display_i; itoa_format_display _ := eq_refl |}.

(** A checksum that meets the interface: the sum of the bytes. *)
Program Definition crc32_sum : Crc32 := {|
  crc32_hash := λ l, u32 (foldr (λ b s, bval b + s) 0 l)
|}.
Next Obligation. intros l. by apply Z.mod_pos_bound. Qed.

Program Definition gmap_dashmap `{Countable K} V : DashMap K V (gmap K V) := {|
  dm_new := ∅;
  dm_get m k := m !! k;
  dm_insert m k v := <[k := v]> m;
  dm_remove m k := delete k m;
  dm_iter := map_to_list;
  dm_reentrant := false
|}.
Next Obligation. intros. apply lookup_empty. Qed.
Next Obligation. intros. apply lookup_insert. Qed.
Next Obligation. intros. apply lookup_delete. Qed.
Next Obligation. intros. apply elem_of_map_to_list. Qed.
Next Obligation. intros. apply NoDup_fst_map_to_list. Qed.

(** A clock that ticks by one millisecond at every reading. *)
Program Definition ms_clock : Clock := {| clk := λ i, Z.of_nat i * 1000000 |}.
Next Obligation. intros. simpl. lia. Qed.

(** A clock that stands still. *)
Program Definition still_clock : Clock := {| clk := λ _, 0 |}.
Next Obligation. intros. simpl. lia. Qed.
