(* ===== verification/Domain.v ===== *)
(** [src/domain]: commands, values and errors, and the metrics index of a
    command ([src/observability/metrics.rs], [CommandType]). *)

From S2P Require Import Prelude RustStd.

(** * Errors ([src/domain/errors.rs]) *)

Inductive EngineError : Type :=
| EngStorageError (msg : bytes)
| EngNotAnInteger (key : bytes)
| EngOutOfMemory.

Inductive DomainError : Type :=
| DomKeyNotFound (key : bytes)
| DomNotAnInteger (key : bytes)
| DomEngine (e : EngineError).

(** [impl Display for EngineError] *)
Definition engine_error_display (e : EngineError) : bytes :=
  match e with
  | EngStorageError msg => str "storage error: " ++ msg
  | EngNotAnInteger key => str "value is not an integer: " ++ key
  | EngOutOfMemory => str "out of memory: max keys limit reached"
  end.

(** [impl Display for DomainError] *)
Definition domain_error_display (e : DomainError) : bytes :=
  match e with
  | DomKeyNotFound key => str "key not found: " ++ key
  | DomNotAnInteger key => str "value is not an integer: " ++ key
  | DomEngine e => str "engine error: " ++ engine_error_display e
  end.

(** * Values ([src/domain/value.rs]) *)

Record ValueEntry : Type := mkValueEntry {
  data : bytes;
  expires_at : option Instant;
  created_at : option Instant
}.

(** [ValueEntry::is_expired_at] *)
Definition is_expired_at (e : ValueEntry) (now : Instant) : bool :=
  match expires_at e with
  | Some exp => exp <=? now
  | None => false
  end.

(** [ValueEntry::new_fast] *)
Definition new_fast (d : bytes) : ValueEntry :=
  {| data := d; expires_at := None; created_at := None |}.

(** * Command types ([src/observability/metrics.rs]) *)

Inductive CommandType : Type :=
| TPing | TGet | TSet | TDel | TIncr | TInfo | TDbSize
| TExists | TTtl | TExpire | TFlushDb | TKeys | TMget | TMset.

#[export] Instance CommandType_eq_dec : EqDecision CommandType.
Proof. solve_decision. Defined.

(** The discriminant, [cmd as usize]. *)
Definition command_type_index (t : CommandType) : nat :=
  match t with
  | TPing => 0 | TGet => 1 | TSet => 2 | TDel => 3 | TIncr => 4 | TInfo => 5
  | TDbSize => 6 | TExists => 7 | TTtl => 8 | TExpire => 9 | TFlushDb => 10
  | TKeys => 11 | TMget => 12 | TMset => 13
  end%nat.

(** * Owned commands ([src/domain/command.rs]) *)

Inductive Command : Type :=
| CPing
| CGet (key : bytes)
| CSet (key : bytes) (value : bytes) (ttl : option Duration)
| CDel (key : bytes)
| CIncr (key : bytes)
| CInfo
| CDbSize
| CExists (key : bytes)
| CTtl (key : bytes)
| CExpire (key : bytes) (seconds : Z)
| CFlushDb
| CKeys
| CMget (keys : list bytes)
| CMset (pairs : list (bytes * bytes)).

#[export] Instance Command_eq_dec : EqDecision Command.
Proof. solve_decision. Defined.

(** [Command::is_write] *)
Definition is_write (c : Command) : bool :=
  match c with
  | CSet _ _ _ | CDel _ | CIncr _ | CExpire _ _ | CFlushDb | CMset _ => true
  | _ => false
  end.

(** [Command::command_type] *)
Definition command_type (c : Command) : CommandType :=
  match c with
  | CPing => TPing
  | CGet _ => TGet
  | CSet _ _ _ => TSet
  | CDel _ => TDel
  | CIncr _ => TIncr
  | CInfo => TInfo
  | CDbSize => TDbSize
  | CExists _ => TExists
  | CTtl _ => TTtl
  | CExpire _ _ => TExpire
  | CFlushDb => TFlushDb
  | CKeys => TKeys
  | CMget _ => TMget
  | CMset _ => TMset
  end.

(** A length-prefixed key ([len as u16], little-endian) and value ([len as u32]). *)
Definition aof_key (key : bytes) : bytes := le_bytes 2 (u16 (Z.of_nat (length key))) ++ key.
Definition aof_value (v : bytes) : bytes := le_bytes 4 (u32 (Z.of_nat (length v))) ++ v.

(** [Command::to_aof_entry] *)
Definition to_aof_entry (c : Command) : option bytes :=
  match c with
  | CSet key value ttl =>
      let ttl_ms := match ttl with
                    | Some d => i64 (as_millis d)
                    | None => -1
                    end in
      Some ([Byte.x01] ++ aof_key key ++ aof_value value ++ le_bytes 8 ttl_ms)
  | CDel key => Some ([Byte.x02] ++ aof_key key)
  | CIncr key => Some ([Byte.x03] ++ aof_key key)
  | CExpire key seconds => Some ([Byte.x04] ++ aof_key key ++ le_bytes 8 seconds)
  | CFlushDb => Some [Byte.x05]
  | CMset pairs =>
      Some ([Byte.x06] ++ le_bytes 2 (u16 (Z.of_nat (length pairs))) ++
            mjoin ((λ '(k, v), aof_key k ++ aof_value v) <$> pairs))
  | _ => None
  end.

(** * Borrowed commands ([src/domain/parsed_command.rs]) *)

Inductive ParsedCommand : Type :=
| PPing
| PGet (key : bytes)
| PSet (key : bytes) (value : bytes) (ttl : option Duration)
| PDel (key : bytes)
| PIncr (key : bytes)
| PInfo
| PDbSize
| PExists (key : bytes)
| PTtl (key : bytes)
| PExpire (key : bytes) (seconds : Z)
| PFlushDb
| PKeys
| PMget (keys : list bytes)
| PMset (pairs : list (bytes * bytes)).

#[export] Instance ParsedCommand_eq_dec : EqDecision ParsedCommand.
Proof. solve_decision. Defined.

(** [ParsedCommand::is_write] *)
Definition parsed_is_write (c : ParsedCommand) : bool :=
  match c with
  | PSet _ _ _ | PDel _ | PIncr _ | PExpire _ _ | PFlushDb | PMset _ => true
  | _ => false
  end.

(** [ParsedCommand::command_type] *)
Definition parsed_command_type (c : ParsedCommand) : CommandType :=
  match c with
  | PPing => TPing
  | PGet _ => TGet
  | PSet _ _ _ => TSet
  | PDel _ => TDel
  | PIncr _ => TIncr
  | PInfo => TInfo
  | PDbSize => TDbSize
  | PExists _ => TExists
  | PTtl _ => TTtl
  | PExpire _ _ => TExpire
  | PFlushDb => TFlushDb
  | PKeys => TKeys
  | PMget _ => TMget
  | PMset _ => TMset
  end.

(** [bytes_to_string]: [String::from_utf8_unchecked] keeps the bytes. *)
Definition bytes_to_string (b : bytes) : bytes := b.

(** [ParsedCommand::to_owned] *)
Definition to_owned (c : ParsedCommand) : Command :=
  match c with
  | PPing => CPing
  | PGet key => CGet (bytes_to_string key)
  | PSet key value ttl => CSet (bytes_to_string key) value ttl
  | PDel key => CDel (bytes_to_string key)
  | PIncr key => CIncr (bytes_to_string key)
  | PInfo => CInfo
  | PDbSize => CDbSize
  | PExists key => CExists (bytes_to_string key)
  | PTtl key => CTtl (bytes_to_string key)
  | PExpire key seconds => CExpire (bytes_to_string key) seconds
  | PFlushDb => CFlushDb
  | PKeys => CKeys
  | PMget keys => CMget (bytes_to_string <$> keys)
  | PMset pairs => CMset ((λ '(k, v), (bytes_to_string k, v)) <$> pairs)
  end.

(** [ParsedCommand::to_aof_entry] *)
Definition parsed_to_aof_entry (c : ParsedCommand) : option bytes :=
  to_aof_entry (to_owned c).

(** * Facts *)

Lemma to_owned_is_write c : is_write (to_owned c) = parsed_is_write c.
Proof. by destruct c. Qed.

Lemma to_owned_command_type c : command_type (to_owned c) = parsed_command_type c.
Proof. by destruct c. Qed.

Lemma length_aof_key k : length (aof_key k) = (2 + length k)%nat.
Proof. unfold aof_key. by rewrite length_app, length_le_bytes. Qed.

Lemma length_aof_value v : length (aof_value v) = (4 + length v)%nat.
Proof. unfold aof_value. by rewrite length_app, length_le_bytes. Qed.

(** Exactly the writes are logged. *)
Lemma to_aof_entry_is_write c : is_Some (to_aof_entry c) ↔ is_write c = true.
Proof. destruct c; simpl; split; intros H; try done; try (by destruct H); eauto. Qed.
