(* ===== verification/Parser.v ===== *)
(** [src/protocol/parser.rs]: the inline and RESP parsers that produce owned
    commands. *)

From S2P Require Import Prelude RustStd Crates Domain.

Inductive ParseError : Type :=
| EmptyCommand
| UnknownCommand (cmd : bytes)
| SyntaxError (msg : bytes).

#[export] Instance ParseError_eq_dec : EqDecision ParseError.
Proof. solve_decision. Defined.

Inductive FrameResult : Type :=
| Complete (consumed : nat) (command : Command)
| Incomplete
| Skip (consumed : nat).

#[export] Instance FrameResult_eq_dec : EqDecision FrameResult.
Proof. solve_decision. Defined.

(** * Byte helpers *)

Definition is_whitespace (b : byte) : bool :=
  Byte.eqb b SP || Byte.eqb b TAB || Byte.eqb b CR || Byte.eqb b LF.

(** The two index loops of [trim]. *)
Fixpoint trim_start_loop (buf : bytes) : nat :=
  match buf with
  | b :: buf => if is_whitespace b then S (trim_start_loop buf) else 0%nat
  | [] => 0%nat
  end.

Fixpoint trim_end_loop (buf : bytes) (start stop : nat) : nat :=
  match stop with
  | S e =>
      if (start <? stop)%nat && is_whitespace (safe_get buf e)
      then trim_end_loop buf start e else stop
  | O => 0%nat
  end.

Definition trim (buf : bytes) : bytes :=
  let start := trim_start_loop buf in
  let stop := trim_end_loop buf start (length buf) in
  take (stop - start) (drop start buf).

Definition split_first_word (buf : bytes) : bytes * bytes :=
  match position is_whitespace buf with
  | Some i => (take i buf, drop i buf)
  | None => (buf, [])
  end.

Definition eq_ignore_ascii_case (a b : bytes) : bool :=
  (length a =? length b)%nat &&
  forallb (λ '(x, y), u8_eq_ignore_ascii_case x y) (zip a b).

Definition is_empty (l : bytes) : bool := match l with [] => true | _ => false end.

(** * Inline commands *)

Definition parse_get_bytes (rest : bytes) : result Command ParseError :=
  let rest := trim rest in
  if is_empty rest then
    Err (SyntaxError (str "GET requires exactly 1 argument: GET <key>"))
  else
    let '(key, trailing) := split_first_word rest in
    let trailing := trim trailing in
    if negb (is_empty trailing) then
      Err (SyntaxError (str "GET requires exactly 1 argument: GET <key>"))
    else Ok (CGet (bytes_to_string key)).

(** Parse optional TTL suffix: EX <seconds> | PX <millis> *)
Definition parse_ttl_option (input : bytes) : result (option Duration) ParseError :=
  let '(opt, rest) := split_first_word input in
  let rest := trim rest in
  if eq_ignore_ascii_case opt (str "EX") then
    let '(val, trailing) := split_first_word rest in
    let trailing := trim trailing in
    if negb (is_empty trailing) then
      Err (SyntaxError (str "SET EX: unexpected extra arguments"))
    else match parse_u64 (bytes_to_string val) with
         | None => Err (SyntaxError (str "SET EX: expected integer seconds"))
         | Some secs => Ok (Some (from_secs secs))
         end
  else if eq_ignore_ascii_case opt (str "PX") then
    let '(val, trailing) := split_first_word rest in
    let trailing := trim trailing in
    if negb (is_empty trailing) then
      Err (SyntaxError (str "SET PX: unexpected extra arguments"))
    else match parse_u64 (bytes_to_string val) with
         | None => Err (SyntaxError (str "SET PX: expected integer milliseconds"))
         | Some millis => Ok (Some (from_millis millis))
         end
  else
    Err (SyntaxError (str "SET: unknown option '" ++ from_utf8_lossy opt ++ str "'")).

Definition set_usage : bytes :=
  str "SET requires at least 2 arguments: SET <key> <value> [EX seconds | PX millis]".

Definition parse_set_bytes (rest : bytes) : result Command ParseError :=
  let rest := trim rest in
  if is_empty rest then Err (SyntaxError set_usage)
  else
    let '(key, rest) := split_first_word rest in
    if is_empty key then Err (SyntaxError set_usage)
    else
      let rest := trim rest in
      if is_empty rest then Err (SyntaxError set_usage)
      else
        let '(value, rest) := split_first_word rest in
        let trailing := trim rest in
        let? ttl := (if negb (is_empty trailing) then parse_ttl_option trailing
                     else Ok None) in
        Ok (CSet (bytes_to_string key) value ttl).

Definition parse_del_bytes (rest : bytes) : result Command ParseError :=
  let rest := trim rest in
  if is_empty rest then
    Err (SyntaxError (str "DEL requires exactly 1 argument: DEL <key>"))
  else
    let '(key, trailing) := split_first_word rest in
    let trailing := trim trailing in
    if negb (is_empty trailing) then
      Err (SyntaxError (str "DEL requires exactly 1 argument: DEL <key>"))
    else Ok (CDel (bytes_to_string key)).

Definition parse_incr_bytes (rest : bytes) : result Command ParseError :=
  let rest := trim rest in
  if is_empty rest then
    Err (SyntaxError (str "INCR requires exactly 1 argument: INCR <key>"))
  else
    let '(key, trailing) := split_first_word rest in
    let trailing := trim trailing in
    if negb (is_empty trailing) then
      Err (SyntaxError (str "INCR requires exactly 1 argument: INCR <key>"))
    else Ok (CIncr (bytes_to_string key)).

(** Helper for single-key commands (EXISTS, TTL) *)
Definition parse_single_key_bytes (rest cmd_name : bytes) (constructor : bytes → Command) :
    result Command ParseError :=
  let usage := cmd_name ++ str " requires exactly 1 argument: " ++ cmd_name ++ str " <key>" in
  let rest := trim rest in
  if is_empty rest then Err (SyntaxError usage)
  else
    let '(key, trailing) := split_first_word rest in
    let trailing := trim trailing in
    if negb (is_empty trailing) then Err (SyntaxError usage)
    else Ok (constructor (bytes_to_string key)).

Definition parse_expire_bytes (rest : bytes) : result Command ParseError :=
  let usage := str "EXPIRE requires 2 arguments: EXPIRE <key> <seconds>" in
  let rest := trim rest in
  if is_empty rest then Err (SyntaxError usage)
  else
    let '(key, rest) := split_first_word rest in
    if is_empty key then Err (SyntaxError usage)
    else
      let rest := trim rest in
      if is_empty rest then Err (SyntaxError usage)
      else
        let '(secs, trailing) := split_first_word rest in
        let trailing := trim trailing in
        if negb (is_empty trailing) then
          Err (SyntaxError (str "EXPIRE requires exactly 2 arguments: EXPIRE <key> <seconds>"))
        else match parse_u64 (bytes_to_string secs) with
             | None => Err (SyntaxError (str "EXPIRE: seconds must be a positive integer"))
             | Some seconds => Ok (CExpire (bytes_to_string key) seconds)
             end.

(** The loop of [parse_mget_bytes]; every round consumes a byte, so one more
    round than bytes is enough fuel. *)
Fixpoint mget_loop (fuel : nat) (remaining : bytes) (keys : list bytes) : list bytes :=
  match fuel with
  | O => keys
  | S fuel =>
      if is_empty remaining then keys
      else
        let remaining := trim remaining in
        if is_empty remaining then keys
        else
          let '(key, rest) := split_first_word remaining in
          mget_loop fuel rest (keys ++ [bytes_to_string key])
  end.

Definition mget_usage : bytes := str "MGET requires at least 1 argument: MGET <key> [key ...]".

Definition parse_mget_bytes (rest : bytes) : result Command ParseError :=
  let rest := trim rest in
  if is_empty rest then Err (SyntaxError mget_usage)
  else
    let keys := mget_loop (S (length rest)) rest [] in
    match keys with
    | [] => Err (SyntaxError mget_usage)
    | _ => Ok (CMget keys)
    end.

Fixpoint mset_loop (fuel : nat) (remaining : bytes) (pairs : list (bytes * bytes)) :
    result (list (bytes * bytes)) ParseError :=
  match fuel with
  | O => Ok pairs
  | S fuel =>
      let remaining := trim remaining in
      if is_empty remaining then Ok pairs
      else
        let '(key, rest) := split_first_word remaining in
        if is_empty key then Ok pairs
        else
          let remaining := trim rest in
          if is_empty remaining then
            Err (SyntaxError (str "MSET requires matching key-value pairs"))
          else
            let '(value, rest) := split_first_word remaining in
            mset_loop fuel rest (pairs ++ [(bytes_to_string key, value)])
  end.

Definition mset_usage : bytes :=
  str "MSET requires at least 2 arguments: MSET <key> <value> [key value ...]".

Definition parse_mset_bytes (rest : bytes) : result Command ParseError :=
  let rest := trim rest in
  if is_empty rest then Err (SyntaxError mset_usage)
  else
    let? pairs := mset_loop (S (length rest)) rest [] in
    match pairs with
    | [] => Err (SyntaxError mset_usage)
    | _ => Ok (CMset pairs)
    end.

Definition parse_bytes (input : bytes) : result Command ParseError :=
  let input := trim input in
  if is_empty input then Err EmptyCommand
  else
    let '(verb, rest) := split_first_word input in
    if eq_ignore_ascii_case verb (str "GET") then parse_get_bytes rest
    else if eq_ignore_ascii_case verb (str "SET") then parse_set_bytes rest
    else if eq_ignore_ascii_case verb (str "PING") then Ok CPing
    else if eq_ignore_ascii_case verb (str "DEL") then parse_del_bytes rest
    else if eq_ignore_ascii_case verb (str "INCR") then parse_incr_bytes rest
    else if eq_ignore_ascii_case verb (str "INFO") then Ok CInfo
    else if eq_ignore_ascii_case verb (str "DBSIZE") then Ok CDbSize
    else if eq_ignore_ascii_case verb (str "EXISTS") then
      parse_single_key_bytes rest (str "EXISTS") CExists
    else if eq_ignore_ascii_case verb (str "TTL") then
      parse_single_key_bytes rest (str "TTL") CTtl
    else if eq_ignore_ascii_case verb (str "EXPIRE") then parse_expire_bytes rest
    else if eq_ignore_ascii_case verb (str "FLUSHDB") then
      let rest := trim rest in
      if negb (is_empty rest) then Err (SyntaxError (str "FLUSHDB takes no arguments"))
      else Ok CFlushDb
    else if eq_ignore_ascii_case verb (str "KEYS") then
      let rest := trim rest in
      if negb (is_empty rest) then Err (SyntaxError (str "KEYS takes no arguments"))
      else Ok CKeys
    else if eq_ignore_ascii_case verb (str "MGET") then parse_mget_bytes rest
    else if eq_ignore_ascii_case verb (str "MSET") then parse_mset_bytes rest
    else Err (UnknownCommand (from_utf8_lossy verb)).

(** Legacy str-based parser. *)
Definition parse (input : bytes) : result Command ParseError := parse_bytes input.

Section frames.
Context `{Memchr}.

Definition try_parse_frame_inline (buf : bytes) : outcome (result FrameResult ParseError) :=
  match memchr LF buf with
  | None => Val (Ok Incomplete)
  | Some pos =>
      line ← slice buf 0 pos;
      match parse_bytes line with
      | Ok cmd => Val (Ok (Complete (pos + 1) cmd))
      | Err EmptyCommand => Val (Ok (Skip (pos + 1)))
      | Err e => Val (Err e)
      end
  end.

(** * RESP frames *)

(** The decimal loop of [read_resp_line_int], on a wrapping [i64]. *)
Fixpoint resp_digits (n : Z) (l : bytes) : result Z ParseError :=
  match l with
  | [] => Ok n
  | b :: l =>
      if negb (is_ascii_digit b) then Err (SyntaxError (str "RESP: expected integer"))
      else resp_digits (i64 (i64 (n * 10) + (bval b - 48))) l
  end.

Definition read_resp_line_int (buf : bytes) (prefix : byte) :
    outcome (result (option (Z * nat)) ParseError) :=
  match buf with
  | [] => Val (Ok None)
  | b0 :: _ =>
      if negb (Byte.eqb b0 prefix) then
        Val (Err (SyntaxError (str "RESP: expected '" ++ char_display prefix ++
                               str "', got '" ++ char_display b0 ++ str "'")))
      else match memchr LF buf with
      | None => Val (Ok None)
      | Some pos =>
          let num_end :=
            if (0 <? pos)%nat && Byte.eqb (safe_get buf (pos - 1)) CR
            then (pos - 1)%nat else pos in
          num_slice ← slice buf 1 num_end;
          match num_slice with
          | [] => Val (Err (SyntaxError (str "RESP: empty integer")))
          | c :: ds =>
              let negative := Byte.eqb c Byte.x2d in
              if negative && is_empty ds then
                Val (Err (SyntaxError (str "RESP: invalid negative integer")))
              else
                try n := Val (resp_digits 0 (if negative then ds else c :: ds)) in
                let n := if negative then i64 (- n) else n in
                Val (Ok (Some (n, (pos + 1)%nat)))
          end
      end
  end.

Definition read_resp_bulk (buf : bytes) :
    outcome (result (option (bytes * nat)) ParseError) :=
  try v := read_resp_line_int buf Byte.x24 in
  match v with
  | None => Val (Ok None)
  | Some (len, n) =>
      let pos := n in
      if len <? 0 then
        d ← slice buf 0 0; Val (Ok (Some (d, pos)))
      else if usize (Z.of_nat (length buf)) <? usize (usize (Z.of_nat pos + len) + 2) then
        Val (Ok None)
      else
        d ← slice buf pos (pos + Z.to_nat len);
        Val (Ok (Some (d, (pos + (Z.to_nat len + 2))%nat)))
  end.

(** [match read_resp_bulk(&buf[pos..])? { Some(v) => v, None => return Ok(Incomplete) }]
    followed by the rest of the function. *)
Definition bulk_at (buf : bytes) (pos : nat)
    (k : bytes → nat → outcome (result FrameResult ParseError)) :
    outcome (result FrameResult ParseError) :=
  s ← slice_from buf pos;
  try v := read_resp_bulk s in
  match v with
  | Some (d, n) => k d (pos + n)%nat
  | None => Val (Ok Incomplete)
  end.

(** Skip [count] bulk strings. *)
Fixpoint resp_skip (count : nat) (buf : bytes) (pos : nat)
    (k : nat → outcome (result FrameResult ParseError)) :
    outcome (result FrameResult ParseError) :=
  match count with
  | O => k pos
  | S count => bulk_at buf pos (λ _ pos, resp_skip count buf pos k)
  end.

Definition resp_single_key (usage : bytes) (constructor : bytes → Command)
    (buf : bytes) (pos args_remaining : nat) : outcome (result FrameResult ParseError) :=
  if negb (args_remaining =? 1)%nat then Val (Err (SyntaxError usage))
  else bulk_at buf pos (λ key_data pos,
    Val (Ok (Complete pos (constructor (bytes_to_string key_data))))).

Definition resp_get := resp_single_key (str "GET requires exactly 1 argument: GET <key>") CGet.
Definition resp_del := resp_single_key (str "DEL requires exactly 1 argument: DEL <key>") CDel.
Definition resp_incr :=
  resp_single_key (str "INCR requires exactly 1 argument: INCR <key>") CIncr.
Definition resp_exists :=
  resp_single_key (str "EXISTS requires exactly 1 argument: EXISTS <key>") CExists.
Definition resp_ttl := resp_single_key (str "TTL requires exactly 1 argument: TTL <key>") CTtl.

(** The EX/PX option of a RESP SET. *)
Definition resp_set_ttl (opt_data int_data : bytes) : result Duration ParseError :=
  if eq_ignore_ascii_case opt_data (str "EX") then
    match parse_u64 (bytes_to_string int_data) with
    | Some secs => Ok (from_secs secs)
    | None => Err (SyntaxError (str "SET EX: expected integer"))
    end
  else if eq_ignore_ascii_case opt_data (str "PX") then
    match parse_u64 (bytes_to_string int_data) with
    | Some ms => Ok (from_millis ms)
    | None => Err (SyntaxError (str "SET PX: expected integer"))
    end
  else
    Err (SyntaxError (str "SET: unknown option '" ++ from_utf8_lossy opt_data ++ str "'")).

Definition resp_set (buf : bytes) (pos args_remaining : nat) :
    outcome (result FrameResult ParseError) :=
  if (args_remaining <? 2)%nat then
    Val (Err (SyntaxError
      (str "SET requires at least 2 arguments: SET <key> <value> [EX sec | PX ms]")))
  else
    bulk_at buf pos (λ key_data pos,
    bulk_at buf pos (λ val_data pos,
      let extra_args := (args_remaining - 2)%nat in
      let done ttl pos :=
        Val (Ok (Complete pos (CSet (bytes_to_string key_data) val_data ttl))) in
      if (2 <=? extra_args)%nat then
        bulk_at buf pos (λ opt_data pos,
        bulk_at buf pos (λ int_data pos,
          try ttl := Val (resp_set_ttl opt_data int_data) in
          resp_skip (args_remaining - 4) buf pos (done (Some ttl))))
      else
        resp_skip (args_remaining - 2) buf pos (done None))).

Definition resp_expire (buf : bytes) (pos args_remaining : nat) :
    outcome (result FrameResult ParseError) :=
  if negb (args_remaining =? 2)%nat then
    Val (Err (SyntaxError (str "EXPIRE requires 2 arguments: EXPIRE <key> <seconds>")))
  else
    bulk_at buf pos (λ key_data pos,
    bulk_at buf pos (λ secs_data pos,
      match parse_u64 (bytes_to_string secs_data) with
      | None => Val (Err (SyntaxError (str "EXPIRE: seconds must be a positive integer")))
      | Some seconds =>
          Val (Ok (Complete pos (CExpire (bytes_to_string key_data) seconds)))
      end)).

Fixpoint resp_mget_loop (count : nat) (buf : bytes) (pos : nat) (keys : list bytes) :
    outcome (result FrameResult ParseError) :=
  match count with
  | O => Val (Ok (Complete pos (CMget keys)))
  | S count =>
      bulk_at buf pos (λ key_data pos,
        resp_mget_loop count buf pos (keys ++ [bytes_to_string key_data]))
  end.

Definition resp_mget (buf : bytes) (pos args_remaining : nat) :
    outcome (result FrameResult ParseError) :=
  if (args_remaining <? 1)%nat then Val (Err (SyntaxError mget_usage))
  else resp_mget_loop args_remaining buf pos [].

Fixpoint resp_mset_loop (count : nat) (buf : bytes) (pos : nat)
    (pairs : list (bytes * bytes)) : outcome (result FrameResult ParseError) :=
  match count with
  | O => Val (Ok (Complete pos (CMset pairs)))
  | S count =>
      bulk_at buf pos (λ key_data pos,
      bulk_at buf pos (λ val_data pos,
        resp_mset_loop count buf pos (pairs ++ [(bytes_to_string key_data, val_data)])))
  end.

Definition resp_mset (buf : bytes) (pos args_remaining : nat) :
    outcome (result FrameResult ParseError) :=
  if (args_remaining <? 2)%nat || negb (args_remaining mod 2 =? 0)%nat then
    Val (Err (SyntaxError
      (str "MSET requires matching key-value pairs: MSET <key> <value> [key value ...]")))
  else resp_mset_loop (args_remaining / 2) buf pos [].

(** The switch on the verb. *)
Definition resp_dispatch_verb (buf verb : bytes) (pos args_remaining : nat) :
    outcome (result FrameResult ParseError) :=
  if eq_ignore_ascii_case verb (str "PING") then Val (Ok (Complete pos CPing))
  else if eq_ignore_ascii_case verb (str "INFO") then Val (Ok (Complete pos CInfo))
  else if eq_ignore_ascii_case verb (str "DBSIZE") then Val (Ok (Complete pos CDbSize))
  else if eq_ignore_ascii_case verb (str "GET") then resp_get buf pos args_remaining
  else if eq_ignore_ascii_case verb (str "SET") then resp_set buf pos args_remaining
  else if eq_ignore_ascii_case verb (str "DEL") then resp_del buf pos args_remaining
  else if eq_ignore_ascii_case verb (str "INCR") then resp_incr buf pos args_remaining
  else if eq_ignore_ascii_case verb (str "EXISTS") then resp_exists buf pos args_remaining
  else if eq_ignore_ascii_case verb (str "TTL") then resp_ttl buf pos args_remaining
  else if eq_ignore_ascii_case verb (str "EXPIRE") then resp_expire buf pos args_remaining
  else if eq_ignore_ascii_case verb (str "FLUSHDB") then Val (Ok (Complete pos CFlushDb))
  else if eq_ignore_ascii_case verb (str "KEYS") then Val (Ok (Complete pos CKeys))
  else if eq_ignore_ascii_case verb (str "MGET") then resp_mget buf pos args_remaining
  else if eq_ignore_ascii_case verb (str "MSET") then resp_mset buf pos args_remaining
  else Val (Err (UnknownCommand (bytes_to_string verb))).

Definition parse_resp_frame (buf : bytes) : outcome (result FrameResult ParseError) :=
  try v := read_resp_line_int buf Byte.x2a in
  match v with
  | None => Val (Ok Incomplete)
  | Some (count, n) =>
      let pos := n in
      if count <? 0 then Val (Err (SyntaxError (str "RESP: null array")))
      else if 1024 <? count then Val (Err (SyntaxError (str "RESP: array too large")))
      else if count =? 0 then Val (Err EmptyCommand)
      else
        bulk_at buf pos (λ verb pos,
          resp_dispatch_verb buf verb pos (Z.to_nat count - 1))
  end.

Definition try_parse_frame (buf : bytes) : outcome (result FrameResult ParseError) :=
  match buf with
  | [] => Val (Ok Incomplete)
  | b :: _ =>
      if Byte.eqb b Byte.x2a then parse_resp_frame buf else try_parse_frame_inline buf
  end.
End frames.
