(* ===== verification/InlineFacts.v ===== *)
(** The inline parser of [src/protocol/parser.rs] against a token-level
    grammar: [parse_bytes] splits its input into whitespace-separated words and
    matches them against the command table, and depends on nothing else. *)

From S2P Require Import Prelude RustStd Crates Domain Parser.

(** * Reference definitions *)

(** The maximal runs of non-whitespace bytes. *)
Fixpoint words (l : bytes) : list bytes :=
  match l with
  | [] => []
  | b :: l =>
      if is_whitespace b then words l
      else match l with
           | [] => [[b]]
           | c :: _ =>
               if is_whitespace c then [b] :: words l
               else match words l with
                    | w :: ws => (b :: w) :: ws
                    | [] => [[b]]
                    end
           end
  end.

Fixpoint pair_up (l : list bytes) : option (list (bytes * bytes)) :=
  match l with
  | [] => Some []
  | [_] => None
  | k :: v :: l => cons (k, v) <$> pair_up l
  end.

Definition one_key (usage : bytes) (ctor : bytes → Command) (args : list bytes) :
    result Command ParseError :=
  match args with
  | [k] => Ok (ctor k)
  | _ => Err (SyntaxError usage)
  end.

Definition no_args (usage : bytes) (c : Command) (args : list bytes) :
    result Command ParseError :=
  match args with [] => Ok c | _ => Err (SyntaxError usage) end.

Definition ttl_tokens (opts : list bytes) : result (option Duration) ParseError :=
  match opts with
  | [] => Ok None
  | opt :: args =>
      if eq_ignore_ascii_case opt (str "EX") then
        match args with
        | _ :: _ :: _ => Err (SyntaxError (str "SET EX: unexpected extra arguments"))
        | _ => match parse_u64 (default [] (head args)) with
               | Some n => Ok (Some (from_secs n))
               | None => Err (SyntaxError (str "SET EX: expected integer seconds"))
               end
        end
      else if eq_ignore_ascii_case opt (str "PX") then
        match args with
        | _ :: _ :: _ => Err (SyntaxError (str "SET PX: unexpected extra arguments"))
        | _ => match parse_u64 (default [] (head args)) with
               | Some n => Ok (Some (from_millis n))
               | None => Err (SyntaxError (str "SET PX: expected integer milliseconds"))
               end
        end
      else Err (SyntaxError (str "SET: unknown option '" ++ from_utf8_lossy opt ++ str "'"))
  end.

Definition set_tokens (args : list bytes) : result Command ParseError :=
  match args with
  | k :: v :: opts => let? ttl := ttl_tokens opts in Ok (CSet k v ttl)
  | _ => Err (SyntaxError set_usage)
  end.

Definition expire_tokens (args : list bytes) : result Command ParseError :=
  match args with
  | [k; s] =>
      match parse_u64 s with
      | Some n => Ok (CExpire k n)
      | None => Err (SyntaxError (str "EXPIRE: seconds must be a positive integer"))
      end
  | _ :: _ :: _ =>
      Err (SyntaxError (str "EXPIRE requires exactly 2 arguments: EXPIRE <key> <seconds>"))
  | _ => Err (SyntaxError (str "EXPIRE requires 2 arguments: EXPIRE <key> <seconds>"))
  end.

Definition mget_tokens (args : list bytes) : result Command ParseError :=
  match args with [] => Err (SyntaxError mget_usage) | _ => Ok (CMget args) end.

Definition mset_tokens (args : list bytes) : result Command ParseError :=
  match args with
  | [] => Err (SyntaxError mset_usage)
  | _ => match pair_up args with
         | Some pairs => Ok (CMset pairs)
         | None => Err (SyntaxError (str "MSET requires matching key-value pairs"))
         end
  end.

(** The command table: the first row whose name is the verb, in any case. *)
Definition token_table : list (bytes * (list bytes → result Command ParseError)) := [
  (str "GET", one_key (str "GET requires exactly 1 argument: GET <key>") CGet);
  (str "SET", set_tokens);
  (str "PING", λ _, Ok CPing);
  (str "DEL", one_key (str "DEL requires exactly 1 argument: DEL <key>") CDel);
  (str "INCR", one_key (str "INCR requires exactly 1 argument: INCR <key>") CIncr);
  (str "INFO", λ _, Ok CInfo);
  (str "DBSIZE", λ _, Ok CDbSize);
  (str "EXISTS", one_key (str "EXISTS requires exactly 1 argument: EXISTS <key>") CExists);
  (str "TTL", one_key (str "TTL requires exactly 1 argument: TTL <key>") CTtl);
  (str "EXPIRE", expire_tokens);
  (str "FLUSHDB", no_args (str "FLUSHDB takes no arguments") CFlushDb);
  (str "KEYS", no_args (str "KEYS takes no arguments") CKeys);
  (str "MGET", mget_tokens);
  (str "MSET", mset_tokens)].

Fixpoint table_lookup (verb : bytes)
    (t : list (bytes * (list bytes → result Command ParseError))) :
    option (list bytes → result Command ParseError) :=
  match t with
  | [] => None
  | (name, f) :: t => if eq_ignore_ascii_case verb name then Some f else table_lookup verb t
  end.

Definition parse_tokens (ws : list bytes) : result Command ParseError :=
  match ws with
  | [] => Err EmptyCommand
  | verb :: args =>
      match table_lookup verb token_table with
      | Some f => f args
      | None => Err (UnknownCommand (from_utf8_lossy verb))
      end
  end.

(** Words joined by single spaces. *)
Fixpoint unwords (ws : list bytes) : bytes :=
  match ws with
  | [] => []
  | [w] => w
  | w :: ws => w ++ [SP] ++ unwords ws
  end.

Abbreviation all_ws := (Forall (λ b, is_whitespace b = true)).
Abbreviation no_ws := (Forall (λ b, is_whitespace b = false)).

(** * Words *)

Lemma words_ws_prefix p l : all_ws p → words (p ++ l) = words l.
Proof. induction 1 as [|b p Hb Hp IH]; [done|]. simpl. by rewrite Hb. Qed.

Lemma words_nil_ws l : words l = [] ↔ all_ws l.
Proof.
  induction l as [|b l IH]; [by split|]. cbn [words].
  destruct (is_whitespace b) eqn:Hb.
  - rewrite IH. split; [by constructor | by inversion 1].
  - split; [|inversion 1; congruence].
    repeat case_match; done.
Qed.

(** What follows a word: nothing, or a separator. *)
Definition sep (r : bytes) : Prop :=
  match r with [] => True | c :: _ => is_whitespace c = true end.

Lemma words_word w r : w ≠ [] → no_ws w → sep r → words (w ++ r) = w :: words r.
Proof.
  intros Hne Hw Hr. induction Hw as [|b w Hb Hw IH]; [done|].
  destruct w as [|c w].
  - cbn [app words]. rewrite Hb. destruct r as [|c r]; [done|]. simpl in Hr. by rewrite Hr.
  - cbn [app] in *. remember (c :: w ++ r) as t eqn:Et. cbn [words]. rewrite Hb, IH by done.
    subst. inversion Hw as [|?? Hc]; subst. by rewrite Hc.
Qed.

Lemma words_ws_suffix l s : all_ws s → words (l ++ s) = words l.
Proof.
  intros Hs. induction l as [|b l IH]; [simpl; by apply words_nil_ws|].
  cbn [app]. remember (l ++ s) as t eqn:Et. cbn [words]. rewrite IH.
  destruct (is_whitespace b); [done|].
  destruct l as [|c l]; subst; cbn [app] in *; [|done].
  destruct s as [|c s]; [done|]. inversion Hs as [|?? Hc]; subst. by rewrite Hc.
Qed.

(** * [trim] *)

Lemma trim_start_loop_spec l :
  all_ws (take (trim_start_loop l) l) ∧
  (trim_start_loop l ≤ length l)%nat ∧
  (∀ b r, drop (trim_start_loop l) l = b :: r → is_whitespace b = false).
Proof.
  induction l as [|b l (IH1 & IH2 & IH3)]; [by split_and!|].
  cbn [trim_start_loop]. destruct (is_whitespace b) eqn:Hb; simpl.
  - split_and!; [by constructor | lia | done].
  - split_and!; [constructor | lia | congruence].
Qed.

Lemma trim_end_loop_spec buf start stop :
  (start ≤ stop ≤ length buf)%nat →
  (start ≤ trim_end_loop buf start stop ≤ stop)%nat ∧
  all_ws (take (stop - trim_end_loop buf start stop)
            (drop (trim_end_loop buf start stop) buf)).
Proof.
  induction stop as [|e IH]; intros H.
  - simpl. split; [lia | constructor].
  - cbn [trim_end_loop]. destruct (Nat.ltb_spec start (S e)); cbn [andb]; cycle 1.
    { rewrite Nat.sub_diag. split; [lia | constructor]. }
    destruct (is_whitespace (safe_get buf e)) eqn:Hw; cycle 1.
    { rewrite Nat.sub_diag. split; [lia | constructor]. }
    destruct IH as [IH1 IH2]; [lia|]. split; [lia|].
    set (t := trim_end_loop buf start e) in *.
    replace (S e - t)%nat with (S (e - t)) by lia.
    destruct (lookup_lt_is_Some_2 buf e) as [b Hb]; [lia|].
    rewrite (take_S_r _ _ b).
    + apply Forall_app. split; [done|]. repeat constructor.
      unfold safe_get in Hw. by rewrite Hb in Hw.
    + rewrite lookup_drop. by replace (t + (e - t))%nat with e by lia.
Qed.

(** [trim] removes whitespace at both ends and nothing else. *)
Lemma trim_decompose l :
  ∃ p s, l = p ++ trim l ++ s ∧ all_ws p ∧ all_ws s ∧
    (∀ b r, trim l = b :: r → is_whitespace b = false).
Proof.
  destruct (trim_start_loop_spec l) as (Hp & Hle & Hhd).
  unfold trim. set (start := trim_start_loop l) in *.
  destruct (trim_end_loop_spec l start (length l)) as [Hr Hs]; [lia|].
  set (stop := trim_end_loop l start (length l)) in *.
  exists (take start l), (drop stop l). split_and!; [|done| |].
  - rewrite <- (take_drop start l) at 1. f_equal.
    rewrite <- (take_drop (stop - start) (drop start l)) at 1. f_equal.
    rewrite drop_drop. f_equal. lia.
  - rewrite take_ge in Hs; [done|]. rewrite length_drop. lia.
  - intros b r E. destruct (drop start l) as [|c r'] eqn:Ed; [by rewrite take_nil in E|].
    destruct (stop - start)%nat; simplify_eq/=. by eapply Hhd.
Qed.

Lemma words_trim l : words (trim l) = words l.
Proof.
  destruct (trim_decompose l) as (p & s & E & Hp & Hs & _).
  rewrite E at 2. by rewrite words_ws_prefix, words_ws_suffix.
Qed.

Lemma length_trim l : (length (trim l) ≤ length l)%nat.
Proof.
  destruct (trim_decompose l) as (p & s & E & _).
  rewrite E at 2. rewrite !length_app. lia.
Qed.

(** [trim] then [split_first_word] takes the first word. *)
Lemma trim_split_word l w ws :
  words l = w :: ws →
  ∃ r, is_empty (trim l) = false ∧ split_first_word (trim l) = (w, r) ∧
       words r = ws ∧ is_empty w = false ∧ (length r < length l)%nat.
Proof.
  intros Hw. pose proof (words_trim l) as Ht. rewrite Hw in Ht.
  destruct (trim_decompose l) as (_ & _ & _ & _ & _ & Hhd).
  pose proof (length_trim l) as Hlen.
  destruct (trim l) as [|b t] eqn:E; [done|].
  pose proof (Hhd b t eq_refl) as Hb.
  unfold split_first_word.
  destruct (position is_whitespace (b :: t)) as [i|] eqn:Ep.
  - apply position_Some in Ep as (Hi & Hf & c & Hc & Hcw).
    assert (i ≠ 0%nat) by (intros ->; simplify_eq/=; congruence).
    assert (words (take i (b :: t) ++ drop i (b :: t)) =
            take i (b :: t) :: words (drop i (b :: t))) as Hsp.
    { apply words_word; [|done|].
      - destruct i; [done|]. discriminate.
      - rewrite (drop_S _ c) by done. done. }
    rewrite take_drop, Ht in Hsp. simplify_eq. eexists; split_and!; try done.
    + destruct i; done.
    + rewrite length_drop. simpl in *. lia.
  - apply position_None in Ep.
    assert (words ((b :: t) ++ []) = (b :: t) :: words []) as Hsp by (apply words_word; done).
    rewrite app_nil_r, Ht in Hsp. simplify_eq. eexists; split_and!; try done.
    simpl in *. lia.
Qed.

Lemma trim_words_nil l : words l = [] → trim l = [].
Proof.
  rewrite <- (words_trim l). intros H%words_nil_ws.
  destruct (trim_decompose l) as (_ & _ & _ & _ & _ & Hhd).
  destruct (trim l) as [|b t]; [done|]. inversion H; subst.
  by rewrite (Hhd b t) in *.
Qed.

(** Replace the head of a parser's [trim]/[split_first_word] cascade on [l] by a
    case analysis of [words l]. *)
Ltac take_word l :=
  let w := fresh "w" in let ws := fresh "ws" in let E := fresh "E" in
  let r := fresh "r" in let H1 := fresh in let H2 := fresh in
  let H3 := fresh "Hr" in let H4 := fresh in let H5 := fresh in
  destruct (words l) as [|w ws] eqn:E;
  [ rewrite (trim_words_nil l E); cbn [is_empty negb]
  | destruct (trim_split_word l w ws E) as (r & H1 & H2 & H3 & H4 & H5);
    rewrite ?H1, ?H2, ?H4; cbn [is_empty negb];
    clear E H1 H2 H5; subst ws ].

(** * The commands *)

Lemma parse_get_bytes_words rest :
  parse_get_bytes rest =
  one_key (str "GET requires exactly 1 argument: GET <key>") CGet (words rest).
Proof. unfold parse_get_bytes. take_word rest; [done|]. take_word r; done. Qed.

Lemma parse_del_bytes_words rest :
  parse_del_bytes rest =
  one_key (str "DEL requires exactly 1 argument: DEL <key>") CDel (words rest).
Proof. unfold parse_del_bytes. take_word rest; [done|]. take_word r; done. Qed.

Lemma parse_incr_bytes_words rest :
  parse_incr_bytes rest =
  one_key (str "INCR requires exactly 1 argument: INCR <key>") CIncr (words rest).
Proof. unfold parse_incr_bytes. take_word rest; [done|]. take_word r; done. Qed.

Lemma parse_single_key_bytes_words rest name ctor :
  parse_single_key_bytes rest name ctor =
  one_key (name ++ str " requires exactly 1 argument: " ++ name ++ str " <key>") ctor
    (words rest).
Proof. unfold parse_single_key_bytes. take_word rest; [done|]. take_word r; done. Qed.

Lemma parse_expire_bytes_words rest : parse_expire_bytes rest = expire_tokens (words rest).
Proof.
  unfold parse_expire_bytes. take_word rest; [done|]. take_word r; [done|].
  take_word r0; done.
Qed.

Lemma split_first_word_nil : split_first_word [] = ([], []).
Proof. done. Qed.

Lemma parse_ttl_option_words l :
  words l ≠ [] → parse_ttl_option (trim l) = ttl_tokens (words l).
Proof.
  intros Hne. unfold parse_ttl_option. take_word l; [done|]. cbn [ttl_tokens].
  destruct (eq_ignore_ascii_case w (str "EX")).
  - take_word r; [done|]. take_word r0; done.
  - destruct (eq_ignore_ascii_case w (str "PX")); [|done].
    take_word r; [done|]. take_word r0; done.
Qed.

Lemma is_empty_trim l : is_empty (trim l) = bool_decide (words l = []).
Proof.
  case_bool_decide as E; [by rewrite trim_words_nil|].
  destruct (words l) eqn:Ew; [done|].
  by destruct (trim_split_word l _ _ Ew) as (? & ? & _).
Qed.

Lemma parse_set_bytes_words rest : parse_set_bytes rest = set_tokens (words rest).
Proof.
  unfold parse_set_bytes. take_word rest; [done|]. take_word r; [done|].
  cbn [set_tokens]. rewrite is_empty_trim. case_bool_decide as E; simpl.
  - by rewrite E.
  - by rewrite parse_ttl_option_words.
Qed.

Lemma mget_loop_words fuel l keys :
  (length l < fuel)%nat → mget_loop fuel l keys = keys ++ words l.
Proof.
  revert l keys; induction fuel as [|fuel IH]; intros l keys Hf; [lia|].
  cbn [mget_loop]. destruct (is_empty l) eqn:El.
  { destruct l; [|done]. simpl. by rewrite app_nil_r. }
  destruct (words l) as [|w ws] eqn:E.
  { rewrite (trim_words_nil l E). simpl. by rewrite app_nil_r. }
  destruct (trim_split_word l w ws E) as (r & H1 & H2 & H3 & H4 & H5).
  rewrite H1, H2, IH by lia. unfold bytes_to_string. by rewrite <- app_assoc, H3.
Qed.

Lemma parse_mget_bytes_words rest : parse_mget_bytes rest = mget_tokens (words rest).
Proof.
  unfold parse_mget_bytes. rewrite is_empty_trim, mget_loop_words, words_trim by lia.
  case_bool_decide as E; [by rewrite E|]. simpl. by destruct (words rest).
Qed.

Lemma mset_loop_words fuel l pairs :
  (length l < fuel)%nat →
  mset_loop fuel l pairs =
  match pair_up (words l) with
  | Some q => Ok (pairs ++ q)
  | None => Err (SyntaxError (str "MSET requires matching key-value pairs"))
  end.
Proof.
  revert l pairs; induction fuel as [|fuel IH]; intros l pairs Hf; [lia|].
  cbn [mset_loop]. destruct (words l) as [|w ws] eqn:E.
  { rewrite (trim_words_nil l E). simpl. by rewrite app_nil_r. }
  destruct (trim_split_word l w ws E) as (r & H1 & H2 & H3 & H4 & H5).
  rewrite H1, H2, H4. destruct ws as [|v ws].
  { by rewrite (trim_words_nil r H3). }
  destruct (trim_split_word r v ws H3) as (r' & G1 & G2 & G3 & G4 & G5).
  rewrite G1, G2, IH, G3 by lia. cbn [pair_up].
  destruct (pair_up ws); [|done]. simpl. by rewrite <- app_assoc.
Qed.

Lemma parse_mset_bytes_words rest : parse_mset_bytes rest = mset_tokens (words rest).
Proof.
  unfold parse_mset_bytes. rewrite is_empty_trim, mset_loop_words, words_trim by lia.
  case_bool_decide as E; [by rewrite E|]. unfold mset_tokens.
  destruct (words rest) as [|k [|v ws]]; [done..|].
  cbn [pair_up]. by destruct (pair_up ws).
Qed.

Lemma no_args_trim usage c rest :
  (if negb (is_empty (trim rest)) then Err (SyntaxError usage) else Ok c) =
  no_args usage c (words rest).
Proof.
  rewrite is_empty_trim. case_bool_decide as E; simpl; [by rewrite E|].
  by destruct (words rest).
Qed.

Lemma parse_bytes_tokens input : parse_bytes input = parse_tokens (words input).
Proof.
  unfold parse_bytes. take_word input; [done|].
  rewrite parse_get_bytes_words, parse_set_bytes_words, parse_del_bytes_words,
    parse_incr_bytes_words, !parse_single_key_bytes_words, parse_expire_bytes_words,
    !no_args_trim, parse_mget_bytes_words, parse_mset_bytes_words.
  cbn [parse_tokens token_table table_lookup].
  repeat (case_match; [done|]). done.
Qed.

(** * Printing words *)

Lemma words_unwords ws :
  Forall (λ w, w ≠ [] ∧ no_ws w) ws → words (unwords ws) = ws.
Proof.
  induction 1 as [|w ws [Hne Hw] Hws IH]; [done|].
  destruct ws as [|w' ws].
  - cbn [unwords]. rewrite <- (app_nil_r w) at 1. by rewrite words_word.
  - cbn [unwords] in *. rewrite words_word; [|done..].
    f_equal. simpl. exact IH.
Qed.
