(* ===== verification/RespFacts.v ===== *)
(** The RESP parser of [src/protocol/parser.rs]: it never indexes out of range
    and consumes a non-empty prefix of the buffer, its answer does not change when
    more bytes arrive, and it reads back every frame a client encodes. *)

From S2P Require Import Prelude RustStd Crates Domain Parser.

(** * Encoding, as the clients do it *)

(** [$<len>\r\n<data>\r\n] *)
Definition resp_bulk (d : bytes) : bytes :=
  str "$" ++ display_u (Z.of_nat (length d)) ++ crlf ++ d ++ crlf.

(** [*<count>\r\n] and the arguments as bulk strings: [resp_command]. *)
Definition resp_frame (args : list bytes) : bytes :=
  str "*" ++ display_u (Z.of_nat (length args)) ++ crlf ++ mjoin (resp_bulk <$> args).

Fixpoint mset_args (ps : list (bytes * bytes)) : list bytes :=
  match ps with
  | [] => []
  | (k, v) :: ps => k :: v :: mset_args ps
  end.

(** The arguments of a command. *)
Definition command_args (c : Command) : list bytes :=
  match c with
  | CPing => [str "PING"]
  | CGet k => [str "GET"; k]
  | CSet k v None => [str "SET"; k; v]
  | CSet k v (Some d) => [str "SET"; k; v; str "PX"; display_u (as_millis d)]
  | CDel k => [str "DEL"; k]
  | CIncr k => [str "INCR"; k]
  | CInfo => [str "INFO"]
  | CDbSize => [str "DBSIZE"]
  | CExists k => [str "EXISTS"; k]
  | CTtl k => [str "TTL"; k]
  | CExpire k s => [str "EXPIRE"; k; display_u s]
  | CFlushDb => [str "FLUSHDB"]
  | CKeys => [str "KEYS"]
  | CMget ks => str "MGET" :: ks
  | CMset ps => str "MSET" :: mset_args ps
  end.

(** Commands a RESP frame can carry: whole-millisecond TTLs, 64-bit seconds, at
    least one and at most 1023 arguments. *)
Definition resp_encodable (c : Command) : Prop :=
  match c with
  | CSet _ _ (Some d) => ∃ ms, d = from_millis ms ∧ in_u64 ms
  | CExpire _ s => in_u64 s
  | CMget ks => (1 ≤ length ks ≤ 1023)%nat
  | CMset ps => (1 ≤ length ps ≤ 511)%nat
  | _ => True
  end.

(** A slice that fits in memory ([isize::MAX] bounds every allocation). *)
Definition in_memory (buf : bytes) : Prop := Z.of_nat (length buf) < 2 ^ 63 - 1.

(** No panic, and a complete frame is a non-empty prefix of the buffer. *)
Definition frame_ok (buf : bytes) (r : outcome (result FrameResult ParseError)) : Prop :=
  match r with
  | Panic | Stuck => False
  | Val (Ok (Complete n _)) | Val (Ok (Skip n)) => (0 < n ≤ length buf)%nat
  | _ => True
  end.

(** [r] is the answer on a prefix of the bytes that gave [r']. *)
Definition frame_le (r r' : outcome (result FrameResult ParseError)) : Prop :=
  r = Val (Ok Incomplete) ∨ r = r'.

Section resp.
Context `{Memchr}.

(** * Integer lines *)

Definition plain_prefix (p : byte) : Prop := p ≠ LF ∧ p ≠ CR.

Lemma memchr_app n l k i : memchr n l = Some i → memchr n (l ++ k) = Some i.
Proof. rewrite !memchr_position. apply position_app_Some. Qed.

Lemma memchr_lt n l i : memchr n l = Some i → (i < length l)%nat.
Proof. intros [E _]%memchr_Some. by eapply lookup_lt_Some. Qed.

(** The end of the digits of an integer line. *)
Definition num_end (buf : bytes) (pos : nat) : nat :=
  if (0 <? pos)%nat && Byte.eqb (safe_get buf (pos - 1)) CR then (pos - 1)%nat else pos.

Lemma num_end_range p buf pos :
  plain_prefix p → memchr LF (p :: buf) = Some pos →
  (1 ≤ num_end (p :: buf) pos ≤ pos)%nat ∧ (pos < length (p :: buf))%nat.
Proof.
  intros [Hlf Hcr] Hm. pose proof (memchr_lt _ _ _ Hm).
  apply memchr_Some in Hm as [Hm _].
  assert (pos ≠ 0%nat) by (intros ->; by simplify_eq/=).
  split; [|done]. unfold num_end. destruct (Nat.ltb_spec 0 pos); [|lia]. cbn [andb].
  destruct (Byte.eqb _ _) eqn:E; [|lia]. apply byte_eqb_eq in E.
  destruct pos as [|[|pos]]; [done| |lia]. by simplify_eq/=.
Qed.

Lemma safe_get_app l k i : (i < length l)%nat → safe_get (l ++ k) i = safe_get l i.
Proof. intros. unfold safe_get. by rewrite lookup_app_l. Qed.

Lemma num_end_app buf k pos :
  (pos < length buf)%nat → num_end (buf ++ k) pos = num_end buf pos.
Proof. intros. unfold num_end. by rewrite safe_get_app by lia. Qed.

Lemma slice_app l k a b : (b ≤ length l)%nat → slice (l ++ k) a b = slice l a b.
Proof.
  intros. unfold slice. rewrite length_app.
  destruct (Nat.leb_spec a b); [|done]. simpl.
  destruct (Nat.leb_spec b (length l + length k)), (Nat.leb_spec b (length l)); try lia.
  rewrite drop_app_le by lia. rewrite take_app_le; [done|]. rewrite length_drop. lia.
Qed.

Lemma resp_digits_i64 n l v : in_i64 n → resp_digits n l = Ok v → in_i64 v.
Proof.
  revert n; induction l as [|b l IH]; intros n Hn; simpl; [by intros [= <-]|].
  destruct (is_ascii_digit b); [|done]. apply IH, i64_range.
Qed.

Lemma digits_val_ge acc l v : 0 ≤ acc → digits_val acc l = Some v → acc ≤ v.
Proof.
  revert acc; induction l as [|b l IH]; intros acc Ha; simpl; [intros [= <-]; lia|].
  destruct (is_ascii_digit b) eqn:E; [|done]. intros H'.
  unfold is_ascii_digit in E. apply IH in H'; lia.
Qed.

Lemma resp_digits_val n l v :
  0 ≤ n → digits_val n l = Some v → v < 2 ^ 63 → resp_digits n l = Ok v.
Proof.
  revert n; induction l as [|b l IH]; intros n Hn Hd Hv; simpl in *; [congruence|].
  destruct (is_ascii_digit b) eqn:E; [|done]. simpl.
  assert (0 ≤ bval b - 48 < 10) by (unfold is_ascii_digit in E; lia).
  assert (n * 10 + (bval b - 48) ≤ v) by (eapply digits_val_ge; [|exact Hd]; lia).
  rewrite (i64_id (n * 10)), i64_id by (unfold in_i64; lia).
  apply IH; [lia | done | done].
Qed.

Lemma line_int_ok p buf :
  plain_prefix p →
  match read_resp_line_int buf p with
  | Panic | Stuck => False
  | Val (Ok (Some (n, used))) => in_i64 n ∧ (1 < used ≤ length buf)%nat
  | _ => True
  end.
Proof.
  intros Hp. unfold read_resp_line_int. destruct buf as [|b buf]; [done|].
  destruct (Byte.eqb b p) eqn:Eb; [|done]. apply byte_eqb_eq in Eb. subst b. cbn [negb].
  destruct (memchr LF (p :: buf)) as [pos|] eqn:Em; [|done].
  destruct (num_end_range p buf pos Hp Em) as [Hr Hlt]. fold (num_end (p :: buf) pos).
  rewrite slice_val by lia. cbn [mbind outcome_bind].
  destruct (take _ _) as [|c ds]; [done|].
  destruct (Byte.eqb c Byte.x2d && is_empty ds); [done|].
  destruct (resp_digits 0 _) as [n|] eqn:Ed; [|done]. cbn [try_bind].
  split; [|lia]. case_match; [apply i64_range|].
  eapply resp_digits_i64; [|done]. done.
Qed.

Lemma line_int_app p buf k r :
  plain_prefix p → read_resp_line_int buf p = r → r ≠ Val (Ok None) →
  read_resp_line_int (buf ++ k) p = r.
Proof.
  intros Hp <- Hne. unfold read_resp_line_int in *.
  destruct buf as [|b buf]; [done|]. cbn [app].
  destruct (Byte.eqb b p) eqn:Eb; [|done]. apply byte_eqb_eq in Eb. subst b. cbn [negb] in *.
  change (p :: buf ++ k) with ((p :: buf) ++ k).
  destruct (memchr LF (p :: buf)) as [pos|] eqn:Em; [|done].
  rewrite (memchr_app _ _ _ _ Em).
  destruct (num_end_range p buf pos Hp Em) as [Hr Hlt].
  fold (num_end ((p :: buf) ++ k) pos) (num_end (p :: buf) pos).
  rewrite num_end_app, slice_app by lia. done.
Qed.

Lemma digits_no_lf l : Forall (λ b, is_ascii_digit b = true) l → (LF ∉ l) ∧ (CR ∉ l).
Proof.
  rewrite Forall_forall. intros Hf. split; intros Hin%Hf; vm_compute in Hin; discriminate.
Qed.

Lemma line_int_encoded p n rest :
  plain_prefix p → 0 ≤ n < 2 ^ 63 →
  read_resp_line_int ([p] ++ display_u n ++ crlf ++ rest) p =
  Val (Ok (Some (n, (3 + length (display_u n))%nat))).
Proof.
  intros [Hlf Hcr] Hn. unfold read_resp_line_int. cbn [app].
  rewrite byte_eqb_refl. cbn [negb].
  destruct (digits_no_lf _ (display_u_digits n ltac:(lia))) as [Hnl Hnc].
  pose proof (display_u_val n ltac:(lia)) as Hval.
  destruct (display_u_cons n) as (c & ds & Ec).
  assert (memchr LF (p :: display_u n ++ crlf ++ rest) = Some (2 + length (display_u n))%nat)
    as ->.
  { rewrite memchr_position.
    change (p :: display_u n ++ crlf ++ rest) with ([p] ++ display_u n ++ [CR] ++ LF :: rest).
    rewrite !app_assoc, position_app_None.
    - simpl. f_equal. rewrite !length_app. simpl. lia.
    - apply position_None. rewrite !Forall_app. split_and!; repeat constructor.
      + by apply byte_eqb_neq.
      + apply Forall_forall. intros x Hx. apply byte_eqb_neq. by intros ->. }
  assert (safe_get (p :: display_u n ++ crlf ++ rest) (2 + length (display_u n) - 1) = CR) as Hcrpos.
  { unfold safe_get. replace (2 + length (display_u n) - 1)%nat with (S (length (display_u n))) by lia.
    rewrite lookup_cons, lookup_app_r, Nat.sub_diag by lia. done. }
  rewrite Hcrpos. cbn [Nat.ltb Nat.leb andb Nat.add]. rewrite byte_eqb_refl.
  rewrite slice_val by (simpl; rewrite !length_app; lia).
  replace (S (S (length (display_u n))) - 1 - 1)%nat with (length (display_u n)) by lia.
  cbn [mbind outcome_bind]. rewrite skipn_cons, drop_0, take_app_length.
  rewrite Ec in *. cbn [mbind outcome_bind].
  destruct (digit_not_sign c) as [_ Hm].
  { by pose proof (digits_val_forall _ _ _ Hval) as Hf; inversion Hf. }
  rewrite Hm. cbn [andb]. rewrite (resp_digits_val _ _ n) by (done || lia).
  simpl. repeat f_equal. lia.
Qed.

(** * Bulk strings *)

Lemma dollar_plain : plain_prefix Byte.x24.
Proof. by split. Qed.
Lemma star_plain : plain_prefix Byte.x2a.
Proof. by split. Qed.

(** The length test of [read_resp_bulk] does not overflow [usize]. *)
Lemma bulk_no_overflow buf n len :
  in_memory buf → (n ≤ length buf)%nat → 0 ≤ len → in_i64 len →
  usize (usize (Z.of_nat n + len) + 2) = Z.of_nat n + len + 2.
Proof.
  unfold in_memory, in_i64, usize. intros. rewrite Zplus_mod_idemp_l, Z.mod_small; lia.
Qed.

Lemma read_resp_bulk_ok buf :
  in_memory buf →
  match read_resp_bulk buf with
  | Panic | Stuck => False
  | Val (Ok (Some (d, n))) => (0 < n ≤ length buf)%nat
  | _ => True
  end.
Proof.
  intros Hmem. unfold read_resp_bulk.
  pose proof (line_int_ok Byte.x24 buf dollar_plain) as Hl.
  destruct (read_resp_line_int buf Byte.x24) as [[[[len n]|]|e]| |]; try done.
  destruct Hl as [Hi Hn]. cbn [try_bind]. destruct (Z.ltb_spec len 0).
  { rewrite slice_val by lia. cbn. lia. }
  rewrite (bulk_no_overflow buf n len) by (done || lia).
  unfold in_memory, in_i64 in *. unfold usize. rewrite Z.mod_small by lia.
  destruct (Z.ltb_spec (Z.of_nat (length buf)) (Z.of_nat n + len + 2)); [done|].
  rewrite slice_val by lia. cbn. lia.
Qed.

Lemma read_resp_bulk_app buf k r :
  in_memory (buf ++ k) → read_resp_bulk buf = r → r ≠ Val (Ok None) →
  read_resp_bulk (buf ++ k) = r.
Proof.
  unfold in_memory. rewrite length_app. intros Hmem <- Hne. unfold read_resp_bulk in *.
  pose proof (line_int_ok Byte.x24 buf dollar_plain) as Hl.
  destruct (read_resp_line_int buf Byte.x24) as [[[[len n]|]|e]| |] eqn:E; try done;
    rewrite (line_int_app _ _ k _ dollar_plain E) by done; try done.
  destruct Hl as [Hi Hn]. cbn [try_bind] in *. destruct (Z.ltb_spec len 0); [done|].
  rewrite (bulk_no_overflow buf n len) in Hne |- * by (unfold in_memory; done || lia).
  unfold usize, in_i64 in *. rewrite length_app.
  rewrite (Z.mod_small (Z.of_nat (length buf))) in Hne |- * by lia.
  rewrite (Z.mod_small (Z.of_nat (_ + _))) by lia.
  destruct (Z.ltb_spec (Z.of_nat (length buf)) (Z.of_nat n + len + 2)); [done|].
  destruct (Z.ltb_spec (Z.of_nat (length buf + length k)) (Z.of_nat n + len + 2)); [lia|].
  by rewrite slice_app by lia.
Qed.

Lemma length_resp_bulk d :
  length (resp_bulk d) = (5 + length (display_u (Z.of_nat (length d))) + length d)%nat.
Proof. unfold resp_bulk. rewrite !length_app. simpl. lia. Qed.

Lemma read_resp_bulk_encoded d rest :
  in_memory (resp_bulk d ++ rest) →
  read_resp_bulk (resp_bulk d ++ rest) = Val (Ok (Some (d, length (resp_bulk d)))).
Proof.
  unfold in_memory. intros Hmem. unfold read_resp_bulk.
  pose proof (length_resp_bulk d) as Hlen. rewrite length_app in Hmem.
  assert (resp_bulk d ++ rest =
    [Byte.x24] ++ display_u (Z.of_nat (length d)) ++ crlf ++ (d ++ crlf ++ rest)) as E.
  { unfold resp_bulk. by rewrite <- !app_assoc. }
  rewrite E at 1. rewrite line_int_encoded by (apply dollar_plain || lia).
  cbn [try_bind]. destruct (Z.ltb_spec (Z.of_nat (length d)) 0); [lia|].
  rewrite (bulk_no_overflow (resp_bulk d ++ rest)) by
    (unfold in_memory, in_i64; rewrite ?length_app; lia).
  unfold usize. rewrite length_app, Z.mod_small by lia.
  destruct (Z.ltb_spec (Z.of_nat (length (resp_bulk d) + length rest))
    (Z.of_nat (3 + length (display_u (Z.of_nat (length d)))) + Z.of_nat (length d) + 2)); [lia|].
  rewrite Nat2Z.id, slice_val by (rewrite length_app; lia).
  cbn [mbind outcome_bind]. repeat f_equal; [|lia]. rewrite E.
  set (n := length (display_u _)) in *.
  replace (3 + n + length d - (3 + n))%nat with (length d) by lia.
  replace ([Byte.x24] ++ display_u (Z.of_nat (length d)) ++ crlf ++ d ++ crlf ++ rest) with
    (([Byte.x24] ++ display_u (Z.of_nat (length d)) ++ crlf) ++ d ++ crlf ++ rest)
    by (by rewrite <- !app_assoc).
  rewrite drop_app_length'; [by rewrite take_app_length|].
  rewrite !length_app. simpl. lia.
Qed.

(** * Compositional rules for the frame parsers *)

Lemma bulk_at_ok buf pos k :
  in_memory buf → (pos ≤ length buf)%nat →
  (∀ d p, (pos < p ≤ length buf)%nat → frame_ok buf (k d p)) →
  frame_ok buf (bulk_at buf pos k).
Proof.
  intros Hmem Hpos Hk. unfold bulk_at. rewrite slice_from_val by done. cbn [mbind outcome_bind].
  pose proof (read_resp_bulk_ok (drop pos buf)) as Hb.
  rewrite length_drop in Hb. unfold in_memory in *. rewrite length_drop in Hb.
  specialize (Hb ltac:(lia)).
  destruct (read_resp_bulk (drop pos buf)) as [[[[d n]|]|e]| |]; try done.
  apply Hk. lia.
Qed.

Lemma bulk_at_le buf more pos k k' :
  in_memory (buf ++ more) → (pos ≤ length buf)%nat →
  (∀ d p, (pos < p ≤ length buf)%nat → frame_le (k d p) (k' d p)) →
  frame_le (bulk_at buf pos k) (bulk_at (buf ++ more) pos k').
Proof.
  intros Hmem Hpos Hk. unfold bulk_at.
  rewrite !slice_from_val by (rewrite ?length_app; lia). cbn [mbind outcome_bind].
  rewrite drop_app_le by done. unfold in_memory in *. rewrite length_app in Hmem.
  pose proof (read_resp_bulk_ok (drop pos buf)) as Hb.
  unfold in_memory in Hb. rewrite length_drop in Hb. specialize (Hb ltac:(lia)).
  assert (in_memory (drop pos buf ++ more)) as Hmem'.
  { unfold in_memory. rewrite length_app, length_drop. lia. }
  destruct (read_resp_bulk (drop pos buf)) as [[[[d n]|]|e]| |] eqn:E; try done.
  - rewrite (read_resp_bulk_app _ more _ Hmem' E) by done. apply Hk. lia.
  - by left.
  - rewrite (read_resp_bulk_app _ more _ Hmem' E) by done. by right.
Qed.

Lemma frame_le_refl r : frame_le r r.
Proof. by right. Qed.
End resp.

#[export] Hint Resolve frame_le_refl : zet.
