(* ===== verification/ParserProps.v ===== *)
(** Properties of [src/protocol/parser.rs]: safety, stability under more input,
    the inline grammar, and the round trips of both protocols. *)

From S2P Require Import Prelude RustStd Crates Domain Parser InlineFacts RespFacts.

(** Both obligations of a frame parser at once: no panic and a proper prefix on
    the short buffer, and the same answer on the long one unless it waits. *)
Definition frame_sim (buf : bytes) (r r' : outcome (result FrameResult ParseError)) : Prop :=
  frame_ok buf r ∧ frame_le r r'.

(** The bytes from [pos] on are the encoded arguments, then [rest]. *)
Definition at_args (buf : bytes) (pos : nat) (args : list bytes) (rest : bytes) : Prop :=
  (pos ≤ length buf)%nat ∧ drop pos buf = mjoin (resp_bulk <$> args) ++ rest.

Definition args_len (args : list bytes) : nat := length (mjoin (resp_bulk <$> args)).

Section props.
Context `{Memchr}.

(** * Simulation rules *)

Lemma bulk_at_sim buf more pos k k' :
  in_memory (buf ++ more) → (pos ≤ length buf)%nat →
  (∀ d p, (pos < p ≤ length buf)%nat → frame_sim buf (k d p) (k' d p)) →
  frame_sim buf (bulk_at buf pos k) (bulk_at (buf ++ more) pos k').
Proof.
  intros Hmem Hpos Hk. split.
  - apply bulk_at_ok; [|done|apply Hk].
    unfold in_memory in *. rewrite length_app in Hmem. lia.
  - apply bulk_at_le; [done..|apply Hk].
Qed.

Lemma frame_sim_refl buf r : frame_ok buf r → frame_sim buf r r.
Proof. intros. by split; [|right]. Qed.

Lemma resp_skip_sim count buf more pos k :
  in_memory (buf ++ more) → (0 < pos ≤ length buf)%nat →
  (∀ p, (pos ≤ p ≤ length buf)%nat → frame_ok buf (k p)) →
  frame_sim buf (resp_skip count buf pos k) (resp_skip count (buf ++ more) pos k).
Proof.
  revert pos; induction count as [|count IH]; intros pos Hmem Hpos Hk; simpl.
  - apply frame_sim_refl, Hk. lia.
  - apply bulk_at_sim; [done | lia |]. intros _ p Hp. apply IH; [done | lia |].
    intros q Hq. apply Hk. lia.
Qed.

Lemma resp_mget_loop_sim count buf more pos keys :
  in_memory (buf ++ more) → (0 < pos ≤ length buf)%nat →
  frame_sim buf (resp_mget_loop count buf pos keys) (resp_mget_loop count (buf ++ more) pos keys).
Proof.
  revert pos keys; induction count as [|count IH]; intros pos keys Hmem Hpos; simpl.
  - by apply frame_sim_refl.
  - apply bulk_at_sim; [done | lia |]. intros d p Hp. apply IH; [done | lia].
Qed.

Lemma resp_mset_loop_sim count buf more pos pairs :
  in_memory (buf ++ more) → (0 < pos ≤ length buf)%nat →
  frame_sim buf (resp_mset_loop count buf pos pairs)
    (resp_mset_loop count (buf ++ more) pos pairs).
Proof.
  revert pos pairs; induction count as [|count IH]; intros pos pairs Hmem Hpos; simpl.
  - by apply frame_sim_refl.
  - apply bulk_at_sim; [done | lia |]. intros d p Hp.
    apply bulk_at_sim; [done | lia |]. intros d' p' Hp'. apply IH; [done | lia].
Qed.

Lemma resp_single_key_sim usage ctor buf more pos args :
  in_memory (buf ++ more) → (0 < pos ≤ length buf)%nat →
  frame_sim buf (resp_single_key usage ctor buf pos args)
    (resp_single_key usage ctor (buf ++ more) pos args).
Proof.
  intros Hmem Hpos. unfold resp_single_key. case_match; [by apply frame_sim_refl|].
  apply bulk_at_sim; [done | lia |]. intros d p Hp. apply frame_sim_refl. simpl. lia.
Qed.

Lemma resp_set_sim buf more pos args :
  in_memory (buf ++ more) → (0 < pos ≤ length buf)%nat →
  frame_sim buf (resp_set buf pos args) (resp_set (buf ++ more) pos args).
Proof.
  intros Hmem Hpos. unfold resp_set. case_match; [by apply frame_sim_refl|].
  apply bulk_at_sim; [done | lia |]. intros key p1 Hp1.
  apply bulk_at_sim; [done | lia |]. intros val p2 Hp2.
  case_match.
  - apply bulk_at_sim; [done | lia |]. intros opt p3 Hp3.
    apply bulk_at_sim; [done | lia |]. intros int p4 Hp4.
    destruct (resp_set_ttl opt int); [|by apply frame_sim_refl].
    apply resp_skip_sim; [done | lia |]. intros q Hq. simpl. lia.
  - apply resp_skip_sim; [done | lia |]. intros q Hq. simpl. lia.
Qed.

Lemma resp_expire_sim buf more pos args :
  in_memory (buf ++ more) → (0 < pos ≤ length buf)%nat →
  frame_sim buf (resp_expire buf pos args) (resp_expire (buf ++ more) pos args).
Proof.
  intros Hmem Hpos. unfold resp_expire. case_match; [by apply frame_sim_refl|].
  apply bulk_at_sim; [done | lia |]. intros key p1 Hp1.
  apply bulk_at_sim; [done | lia |]. intros secs p2 Hp2.
  apply frame_sim_refl. case_match; simpl; [lia | done].
Qed.

Lemma resp_dispatch_verb_sim buf more verb pos args :
  in_memory (buf ++ more) → (0 < pos ≤ length buf)%nat →
  frame_sim buf (resp_dispatch_verb buf verb pos args)
    (resp_dispatch_verb (buf ++ more) verb pos args).
Proof.
  intros Hmem Hpos. unfold resp_dispatch_verb.
  repeat (case_match; [first
    [ by apply frame_sim_refl | by apply resp_single_key_sim | by apply resp_set_sim
    | by apply resp_expire_sim | idtac ] |]).
  - unfold resp_mget. case_match; [by apply frame_sim_refl|]. by apply resp_mget_loop_sim.
  - unfold resp_mset. case_match; [by apply frame_sim_refl|]. by apply resp_mset_loop_sim.
  - by apply frame_sim_refl.
Qed.

Lemma parse_resp_frame_sim buf more :
  in_memory (buf ++ more) → frame_sim buf (parse_resp_frame buf) (parse_resp_frame (buf ++ more)).
Proof.
  intros Hmem. unfold parse_resp_frame.
  pose proof (line_int_ok Byte.x2a buf star_plain) as Hl.
  destruct (read_resp_line_int buf Byte.x2a) as [[[[count n]|]|e]| |] eqn:E; try done.
  - rewrite (line_int_app _ _ more _ star_plain E) by done. cbn [try_bind].
    destruct Hl as [_ Hn]. repeat (case_match; [by apply frame_sim_refl|]).
    apply bulk_at_sim; [done | lia |]. intros d p Hp. apply resp_dispatch_verb_sim; [done | lia].
  - split; [done | by left].
  - rewrite (line_int_app _ _ more _ star_plain E) by done. by apply frame_sim_refl.
Qed.

Lemma try_parse_frame_inline_sim buf more :
  frame_sim buf (try_parse_frame_inline buf) (try_parse_frame_inline (buf ++ more)).
Proof.
  unfold try_parse_frame_inline. destruct (memchr LF buf) as [pos|] eqn:E.
  - rewrite (memchr_app _ _ _ _ E). pose proof (memchr_lt _ _ _ E).
    rewrite slice_app by lia. rewrite slice_val by lia. cbn [mbind outcome_bind].
    apply frame_sim_refl. repeat case_match; simpl; done || lia.
  - split; [done | by left].
Qed.

Lemma try_parse_frame_sim buf more :
  in_memory (buf ++ more) → frame_sim buf (try_parse_frame buf) (try_parse_frame (buf ++ more)).
Proof.
  intros Hmem. unfold try_parse_frame. destruct buf as [|b buf]; [split; [done | by left]|].
  pose proof (parse_resp_frame_sim (b :: buf) more Hmem) as Hr.
  pose proof (try_parse_frame_inline_sim (b :: buf) more) as Hi.
  cbn [app] in *. by destruct (Byte.eqb b Byte.x2a).
Qed.

(** * Reading back encoded arguments *)

Lemma bulk_at_args buf pos d args rest k :
  in_memory buf → at_args buf pos (d :: args) rest →
  bulk_at buf pos k = k d (pos + length (resp_bulk d))%nat ∧
  at_args buf (pos + length (resp_bulk d)) args rest.
Proof.
  intros Hmem [Hpos Hd]. cbn [fmap list_fmap mjoin list_join] in Hd.
  rewrite <- app_assoc in Hd.
  pose proof (f_equal length Hd) as Hl. rewrite length_drop, length_app in Hl.
  split.
  - unfold bulk_at. rewrite slice_from_val by done. cbn [mbind outcome_bind].
    rewrite Hd, read_resp_bulk_encoded; [done|].
    rewrite <- Hd. unfold in_memory in *. rewrite length_drop. lia.
  - split; [lia|]. rewrite <- drop_drop, Hd. by rewrite drop_app_length.
Qed.

Lemma args_len_cons d args : args_len (d :: args) = (length (resp_bulk d) + args_len args)%nat.
Proof. unfold args_len. cbn [fmap list_fmap mjoin list_join]. by rewrite length_app. Qed.

Lemma complete_eq n m c :
  n = m → Val (Ok (Complete n c)) = Val (Ok (Complete m c)) :> outcome (result _ ParseError).
Proof. by intros ->. Qed.

(** Step over the next encoded argument. *)
Ltac next_arg :=
  match goal with
  | Hmem : in_memory ?buf, Ha : at_args ?buf ?pos (?d :: ?args) ?rest
    |- context [bulk_at ?buf ?pos ?k] =>
      let E := fresh "E" in let Ha' := fresh "Ha" in
      destruct (bulk_at_args buf pos d args rest k Hmem Ha) as [E Ha'];
      rewrite E; clear E Ha
  end.

Ltac frame_done :=
  apply complete_eq; rewrite ?args_len_cons; change (args_len []) with 0%nat; lia.

Lemma resp_single_key_args usage ctor buf pos d rest :
  in_memory buf → at_args buf pos [d] rest →
  resp_single_key usage ctor buf pos 1 = Val (Ok (Complete (pos + args_len [d]) (ctor d))).
Proof. intros Hmem Ha. unfold resp_single_key. cbn [Nat.eqb negb]. next_arg. frame_done. Qed.

Lemma resp_set_args buf pos k v rest :
  in_memory buf → at_args buf pos [k; v] rest →
  resp_set buf pos 2 = Val (Ok (Complete (pos + args_len [k; v]) (CSet k v None))).
Proof.
  intros Hmem Ha. unfold resp_set. cbn [Nat.ltb Nat.leb]. do 2 next_arg.
  cbn [Nat.sub Nat.leb resp_skip].
  frame_done.
Qed.

Lemma resp_set_px_args buf pos k v ms rest :
  in_memory buf → in_u64 ms → at_args buf pos [k; v; str "PX"; display_u ms] rest →
  resp_set buf pos 4 =
  Val (Ok (Complete (pos + args_len [k; v; str "PX"; display_u ms])
             (CSet k v (Some (from_millis ms))))).
Proof.
  intros Hmem Hms Ha. unfold resp_set. cbn [Nat.ltb Nat.leb]. do 2 next_arg.
  cbn [Nat.sub Nat.leb]. do 2 next_arg.
  unfold resp_set_ttl, bytes_to_string.
  replace (eq_ignore_ascii_case (str "PX") (str "EX")) with false by reflexivity.
  replace (eq_ignore_ascii_case (str "PX") (str "PX")) with true by reflexivity.
  rewrite parse_u64_display by done. cbn [try_bind resp_skip]. frame_done.
Qed.

Lemma resp_expire_args buf pos k s rest :
  in_memory buf → in_u64 s → at_args buf pos [k; display_u s] rest →
  resp_expire buf pos 2 =
  Val (Ok (Complete (pos + args_len [k; display_u s]) (CExpire k s))).
Proof.
  intros Hmem Hs Ha. unfold resp_expire. cbn [Nat.eqb negb]. do 2 next_arg.
  unfold bytes_to_string. rewrite parse_u64_display by done. frame_done.
Qed.

Lemma resp_mget_loop_args buf pos ks keys rest :
  in_memory buf → at_args buf pos ks rest →
  resp_mget_loop (length ks) buf pos keys =
  Val (Ok (Complete (pos + args_len ks) (CMget (keys ++ ks)))).
Proof.
  intros Hmem. revert pos keys; induction ks as [|k ks IH]; intros pos keys Ha.
  - cbn. rewrite app_nil_r. frame_done.
  - cbn [length resp_mget_loop]. next_arg. rewrite IH by done.
    unfold bytes_to_string. rewrite <- app_assoc, args_len_cons. frame_done.
Qed.

Lemma resp_mset_loop_args buf pos ps pairs rest :
  in_memory buf → at_args buf pos (mset_args ps) rest →
  resp_mset_loop (length ps) buf pos pairs =
  Val (Ok (Complete (pos + args_len (mset_args ps))
             (CMset (pairs ++ ps)))).
Proof.
  intros Hmem. revert pos pairs; induction ps as [|[k v] ps IH]; intros pos pairs Ha.
  - cbn. rewrite app_nil_r. frame_done.
  - cbn [length resp_mset_loop mset_args] in *.
    do 2 next_arg. rewrite IH by done.
    unfold bytes_to_string. rewrite <- app_assoc, !args_len_cons.
    frame_done.
Qed.

Lemma length_mset_args (ps : list (bytes * bytes)) :
  length (mset_args ps) = (2 * length ps)%nat.
Proof. induction ps as [|[k v] ps IH]; [done|]. simpl in *. lia. Qed.

(** The verb switch on the arguments of a command. *)
Lemma resp_dispatch_command c buf pos rest verb args :
  resp_encodable c → command_args c = verb :: args →
  in_memory buf → at_args buf pos args rest →
  resp_dispatch_verb buf verb pos (length args) =
  Val (Ok (Complete (pos + args_len args) c)).
Proof.
  intros Hc Hargs Hmem Ha.
  destruct c as [|k|k v [d|]|k|k| | |k|k|k s| | |ks|ps]; simplify_eq/=.
  1,7,8,12,13: unfold resp_dispatch_verb; simpl; frame_done.
  - by eapply resp_single_key_args.
  - destruct Hc as (ms & -> & Hms). unfold as_millis, from_millis in *.
    rewrite Z.div_mul in * by done. by eapply resp_set_px_args.
  - by eapply resp_set_args.
  - by eapply resp_single_key_args.
  - by eapply resp_single_key_args.
  - by eapply resp_single_key_args.
  - by eapply resp_single_key_args.
  - by eapply resp_expire_args.
  - change (resp_mget buf pos (length args) = Val (Ok (Complete (pos + args_len args) (CMget args)))).
    unfold resp_mget. destruct (Nat.ltb_spec (length args) 1); [lia|].
    by erewrite resp_mget_loop_args.
  - change (resp_mset buf pos (length (mset_args ps)) =
      Val (Ok (Complete (pos + args_len (mset_args ps)) (CMset ps)))).
    unfold resp_mset. rewrite length_mset_args.
    destruct (Nat.ltb_spec (2 * length ps) 2); [lia|].
    rewrite (Nat.mul_comm 2), Nat.Div0.mod_mul, Nat.div_mul by done. cbn [Nat.eqb negb orb].
    by erewrite resp_mset_loop_args.
Qed.

Lemma command_args_length c :
  resp_encodable c → (1 ≤ length (command_args c) ≤ 1024)%nat.
Proof.
  destruct c as [|k|k v [d|]|k|k| | |k|k|k s| | |ks|ps]; simpl; intros Hc; try lia.
  rewrite length_mset_args. lia.
Qed.

(** Any frame is parsed up to its verb, which is then switched on. *)
Lemma resp_frame_verb verb args rest :
  (length args ≤ 1023)%nat → in_memory (resp_frame (verb :: args) ++ rest) →
  ∃ pos,
    try_parse_frame (resp_frame (verb :: args) ++ rest) =
    resp_dispatch_verb (resp_frame (verb :: args) ++ rest) verb pos (length args) ∧
    at_args (resp_frame (verb :: args) ++ rest) pos args rest ∧
    (pos + args_len args)%nat = length (resp_frame (verb :: args)).
Proof.
  intros Hlen Hmem.
  set (buf := resp_frame (verb :: args) ++ rest) in *.
  set (n := length (display_u (Z.of_nat (length (verb :: args))))) in *.
  assert (buf = [Byte.x2a] ++ display_u (Z.of_nat (length (verb :: args))) ++ crlf ++
    mjoin (resp_bulk <$> verb :: args) ++ rest) as E.
  { unfold buf, resp_frame. by rewrite <- !app_assoc. }
  assert (at_args buf (3 + n) (verb :: args) rest) as Ha.
  { split.
    - rewrite E, !length_app. simpl. unfold n. simpl. lia.
    - rewrite E, !app_assoc, <- app_assoc. apply drop_app_length'.
      rewrite !length_app. simpl. unfold n. simpl. lia. }
  destruct (bulk_at_args buf (3 + n) verb args rest
    (λ verb pos, resp_dispatch_verb buf verb pos
       (Z.to_nat (Z.of_nat (length (verb :: args))) - 1)) Hmem Ha) as [Eb Ha'].
  exists (3 + n + length (resp_bulk verb))%nat. split_and!; [|done|].
  - assert (try_parse_frame buf = parse_resp_frame buf) as -> by (by rewrite E).
    unfold parse_resp_frame. rewrite E at 1.
    rewrite line_int_encoded by (apply star_plain || (simpl; lia)). cbn [try_bind].
    destruct (Z.ltb_spec (Z.of_nat (length (verb :: args))) 0); [lia|].
    destruct (Z.ltb_spec 1024 (Z.of_nat (length (verb :: args)))); [simpl in *; lia|].
    destruct (Z.eqb_spec (Z.of_nat (length (verb :: args))) 0); [simpl in *; lia|].
    fold n. etrans; [apply Eb|]. rewrite Nat2Z.id. cbn [length]. by rewrite Nat.sub_1_r.
  - unfold resp_frame. rewrite !length_app.
    fold (args_len (verb :: args)). rewrite args_len_cons. unfold n. simpl. lia.
Qed.

Lemma resp_frame_parse c rest :
  resp_encodable c → in_memory (resp_frame (command_args c) ++ rest) →
  try_parse_frame (resp_frame (command_args c) ++ rest) =
  Val (Ok (Complete (length (resp_frame (command_args c))) c)).
Proof.
  intros Hc Hmem. pose proof (command_args_length c Hc) as Hlen.
  destruct (command_args c) as [|verb args] eqn:Eargs; [simpl in Hlen; lia|].
  destruct (resp_frame_verb verb args rest) as (pos & -> & Ha & <-); [simpl in Hlen; lia | done |].
  by eapply resp_dispatch_command.
Qed.
End props.

(** * Inline round trip and case *)

(** Commands the inline protocol can carry: every argument is a word. *)
Definition inline_encodable (c : Command) : Prop :=
  Forall (λ w, w ≠ [] ∧ no_ws w) (command_args c) ∧
  match c with
  | CSet _ _ (Some d) => ∃ ms, d = from_millis ms ∧ in_u64 ms
  | CExpire _ s => in_u64 s
  | CMget ks => ks ≠ []
  | CMset ps => ps ≠ []
  | _ => True
  end.

Lemma pair_up_mset_args ps : pair_up (mset_args ps) = Some ps.
Proof. induction ps as [|[k v] ps IH]; [done|]. simpl. by rewrite IH. Qed.

Lemma parse_tokens_args c : inline_encodable c → parse_tokens (command_args c) = Ok c.
Proof.
  intros [_ Hc].
  destruct c as [|k|k v [d|]|k|k| | |k|k|k s| | |ks|ps]; try done.
  - destruct Hc as (ms & -> & Hms). unfold command_args, as_millis, from_millis.
    rewrite Z.div_mul by done.
    change (parse_tokens (str "SET" :: k :: v :: str "PX" :: [display_u ms])) with
      (let? ttl := (match parse_u64 (display_u ms) with
                    | Some n => Ok (Some (from_millis n))
                    | None => Err (SyntaxError (str "SET PX: expected integer milliseconds"))
                    end) in Ok (CSet k v ttl)).
    by rewrite parse_u64_display.
  - change (match parse_u64 (display_u s) with
            | Some n => Ok (CExpire k n)
            | None => Err (SyntaxError (str "EXPIRE: seconds must be a positive integer"))
            end = Ok (CExpire k s)).
    by rewrite parse_u64_display.
  - by destruct ks.
  - change (mset_tokens (mset_args ps) = Ok (CMset ps)). unfold mset_tokens.
    rewrite pair_up_mset_args. by destruct ps as [|[k v] ps].
Qed.

Lemma unwords_no_ws_byte x ws :
  is_whitespace x = true → x ≠ SP → Forall (λ w, w ≠ [] ∧ no_ws w) ws → x ∉ unwords ws.
Proof.
  intros Hx Hsp. assert (∀ w, no_ws w → x ∉ w) as Hw.
  { intros w Hw Hin. rewrite Forall_forall in Hw. apply Hw in Hin. congruence. }
  induction 1 as [|w ws [_ H1] H2 IH]; [by apply not_elem_of_nil|].
  destruct ws as [|w' ws]; [by apply Hw|].
  cbn [unwords] in *. rewrite !elem_of_app, list_elem_of_singleton.
  intros [Hin|[Hin|Hin]]; [by apply (Hw w) | done | done].
Qed.

Lemma unwords_no_lf ws : Forall (λ w, w ≠ [] ∧ no_ws w) ws → LF ∉ unwords ws.
Proof. by apply unwords_no_ws_byte. Qed.

Lemma unwords_no_cr ws : Forall (λ w, w ≠ [] ∧ no_ws w) ws → CR ∉ unwords ws.
Proof. by apply unwords_no_ws_byte. Qed.

Lemma command_args_head c : ∃ b t l, command_args c = (b :: t) :: l ∧ Byte.eqb b Byte.x2a = false.
Proof.
  destruct c as [|k|k v [d|]|k|k| | |k|k|k s| | |ks|ps]; simpl;
    by eexists _, _, _.
Qed.

Lemma eq_ignore_ascii_case_lower a b :
  eq_ignore_ascii_case a b = true ↔ map to_ascii_lowercase a = map to_ascii_lowercase b.
Proof.
  unfold eq_ignore_ascii_case, u8_eq_ignore_ascii_case.
  revert b; induction a as [|x a IH]; intros [|y b]; try done.
  specialize (IH b). rewrite andb_true_iff, Nat.eqb_eq in IH |- *.
  cbn [zip zip_with length map forallb]. rewrite andb_true_iff, byte_eqb_eq.
  split.
  - intros (Hl & Hxy & Hall). rewrite Hxy. f_equal. apply IH. split; [lia | done].
  - intros [= Hxy Hm]. apply IH in Hm as [Hl Hall]. split_and!; [simpl; lia | done | done].
Qed.

Lemma table_lookup_case v v' t :
  eq_ignore_ascii_case v v' = true → table_lookup v t = table_lookup v' t.
Proof.
  intros Hv%eq_ignore_ascii_case_lower. induction t as [|[name f] t IH]; [done|].
  simpl. rewrite IH. assert (eq_ignore_ascii_case v name = eq_ignore_ascii_case v' name) as ->.
  { apply eq_iff_eq_true. by rewrite !eq_ignore_ascii_case_lower, Hv. }
  done.
Qed.

(** A line ended by CRLF, on the owned path. *)
Lemma inline_line `{Memchr} line rest :
  LF ∉ line →
  try_parse_frame_inline (line ++ crlf ++ rest) =
  match parse_tokens (words line) with
  | Ok c => Val (Ok (Complete (length line + 2) c))
  | Err EmptyCommand => Val (Ok (Skip (length line + 2)))
  | Err e => Val (Err e)
  end.
Proof.
  intros Hlf. unfold try_parse_frame_inline.
  assert (memchr LF (line ++ crlf ++ rest) = Some (length line + 1)%nat) as ->.
  { rewrite memchr_position. change (crlf ++ rest) with ([CR] ++ LF :: rest).
    rewrite app_assoc, position_app_None.
    - simpl. rewrite length_app. simpl. f_equal. lia.
    - apply position_None, Forall_app. split; [|by repeat constructor].
      apply Forall_forall. intros x Hx. apply byte_eqb_neq. by intros ->. }
  rewrite slice_val by (rewrite !length_app; simpl; lia). cbn [mbind outcome_bind].
  rewrite drop_0, Nat.sub_0_r.
  change (crlf ++ rest) with ([CR] ++ LF :: rest). rewrite app_assoc.
  rewrite take_app_length' by (rewrite length_app; simpl; lia).
  rewrite parse_bytes_tokens, words_ws_suffix by (by repeat constructor).
  by replace (length line + 1 + 1)%nat with (length line + 2)%nat by lia.
Qed.

(** * Claims *)

Section claims.
Context `{Memchr}.

(** C13: parsing a buffer never indexes out of range (no panic), and a complete or
    skipped frame is a non-empty prefix of the buffer, so the session loop always
    advances and never past the end. *)
Theorem try_parse_frame_safe (buf : bytes) :
  in_memory buf → frame_ok buf (try_parse_frame buf).
Proof.
  intros Hmem. destruct (try_parse_frame_sim buf []) as [Hok _]; [|done].
  by rewrite app_nil_r.
Qed.

(** C14: once the parser has answered on the bytes received so far with anything but
    [Incomplete] (a command, a skip or an error), more bytes do not change its
    answer: how the network splits the stream is irrelevant. *)
Theorem try_parse_frame_stable (buf more : bytes) :
  in_memory (buf ++ more) →
  try_parse_frame buf ≠ Val (Ok Incomplete) →
  try_parse_frame (buf ++ more) = try_parse_frame buf.
Proof. intros Hmem Hne. by destruct (try_parse_frame_sim buf more Hmem) as [_ [?|?]]. Qed.

(** C10: RESP round trip: the frame a client encodes for a command, followed by
    anything, parses to that command and consumes exactly the frame. *)
Theorem resp_roundtrip (c : Command) (rest : bytes) :
  resp_encodable c → in_memory (resp_frame (command_args c) ++ rest) →
  try_parse_frame (resp_frame (command_args c) ++ rest) =
  Val (Ok (Complete (length (resp_frame (command_args c))) c)).
Proof. apply resp_frame_parse. Qed.

(** C32: the hand-written inline scanner is the token grammar: [parse_bytes] gives what
    matching the whitespace-separated words against the command table gives,
    whatever the spacing, with the same error on every malformed line. *)
Theorem parse_bytes_grammar (input : bytes) : parse_bytes input = parse_tokens (words input).
Proof. apply parse_bytes_tokens. Qed.

(** C35: inline round trip: a command printed as words separated by single spaces and
    ended by CRLF parses back to the command and consumes exactly the line. *)
Theorem inline_roundtrip (c : Command) (rest : bytes) :
  inline_encodable c →
  try_parse_frame (unwords (command_args c) ++ crlf ++ rest) =
  Val (Ok (Complete (length (unwords (command_args c)) + 2) c)).
Proof.
  intros Hc. pose proof (unwords_no_lf _ (proj1 Hc)) as Hlf.
  set (line := unwords (command_args c)) in *.
  assert (try_parse_frame (line ++ crlf ++ rest) = try_parse_frame_inline (line ++ crlf ++ rest)) as ->.
  { destruct (command_args_head c) as (b & t & l & E & Hb). unfold line. rewrite E.
    destruct l; cbn; by rewrite Hb. }
  rewrite inline_line by done. unfold line.
  by rewrite words_unwords, parse_tokens_args by (apply Hc || done).
Qed.

(** Command names are case-insensitive: two lines that differ only in spacing and in
    the case of the verb parse the same, unless the verb is unknown (the error
    then quotes it). *)
Theorem verb_case_insensitive (l l' v v' : bytes) (args : list bytes) :
  words l = v :: args → words l' = v' :: args → eq_ignore_ascii_case v v' = true →
  parse_bytes l = parse_bytes l' ∨ parse_bytes l = Err (UnknownCommand (from_utf8_lossy v)).
Proof.
  intros Hl Hl' Hv. rewrite !parse_bytes_tokens, Hl, Hl'. unfold parse_tokens.
  rewrite (table_lookup_case v v') by done. case_match; eauto.
Qed.

(** An argument after a RESP verb that takes none (PING, INFO, DBSIZE, FLUSHDB, KEYS)
    is not consumed with its frame: the parser reports the frame complete at the end of the
    verb and leaves the encoded arguments in the buffer as the start of the next frame. *)
Theorem resp_nullary_leaves_args (verb : bytes) (args : list bytes) (rest : bytes) :
  verb ∈ [str "PING"; str "INFO"; str "DBSIZE"; str "FLUSHDB"; str "KEYS"] →
  (length args ≤ 1023)%nat → in_memory (resp_frame (verb :: args) ++ rest) →
  ∃ n c, try_parse_frame (resp_frame (verb :: args) ++ rest) = Val (Ok (Complete n c)) ∧
    drop n (resp_frame (verb :: args) ++ rest) = mjoin (resp_bulk <$> args) ++ rest.
Proof.
  intros Hv Hlen Hmem. destruct (resp_frame_verb verb args rest Hlen Hmem) as (pos & E & Ha).
  rewrite E. rewrite !elem_of_cons, elem_of_nil in Hv.
  destruct_or! Hv; subst; try done; eexists _, _; (split; [reflexivity | apply Ha]).
Qed.

(** A RESP count is read into a wrapping 64-bit integer: an array header of
    2^64 + 1 elements is accepted as one element. *)
Theorem resp_count_wraps :
  read_resp_line_int (str "*18446744073709551617" ++ crlf) Byte.x2a = Val (Ok (Some (1, 23%nat))).
Proof. unfold read_resp_line_int. rewrite memchr_position. reflexivity. Qed.
End claims.

(** * Witnesses *)

Section witnesses.
#[local] Existing Instance memchr_scan.

Definition ping_x : bytes := resp_frame [str "PING"; str "x"].

Lemma try_parse_frame_safe_witness : frame_ok ping_x (try_parse_frame ping_x).
Proof. apply (try_parse_frame_safe ping_x). vm_compute. reflexivity. Defined.

Lemma try_parse_frame_stable_witness :
  try_parse_frame (str "PING" ++ crlf ++ str "GET") = Val (Ok (Complete 6 CPing)).
Proof.
  rewrite (try_parse_frame_stable (str "PING" ++ crlf) (str "GET"));
    [reflexivity | vm_compute; reflexivity | vm_compute; discriminate].
Defined.

Lemma resp_roundtrip_witness :
  try_parse_frame (resp_frame (command_args (CSet (str "k") (str "v w") (Some (from_millis 5)))) ++ str "*") =
  Val (Ok (Complete 44 (CSet (str "k") (str "v w") (Some (from_millis 5))))).
Proof.
  apply (resp_roundtrip (CSet (str "k") (str "v w") (Some (from_millis 5))) (str "*")).
  - exists 5. split; [reflexivity | split; reflexivity || discriminate].
  - vm_compute. reflexivity.
Defined.

Lemma inline_roundtrip_witness :
  try_parse_frame (unwords (command_args (CMset [(str "a", str "1"); (str "b", str "2")])) ++ crlf ++ str "x") =
  Val (Ok (Complete 14 (CMset [(str "a", str "1"); (str "b", str "2")]))).
Proof.
  apply (inline_roundtrip (CMset [(str "a", str "1"); (str "b", str "2")]) (str "x")).
  split; [|discriminate]. repeat constructor; discriminate.
Defined.

Lemma verb_case_insensitive_witness :
  parse_bytes (str "gEt k") = parse_bytes (str " GET  k ") ∨
  parse_bytes (str "gEt k") = Err (UnknownCommand (from_utf8_lossy (str "gEt"))).
Proof.
  apply (verb_case_insensitive (str "gEt k") (str " GET  k ") (str "gEt") (str "GET") [str "k"]);
    reflexivity.
Defined.

Lemma resp_nullary_leaves_args_witness :
  ∃ n c, try_parse_frame (resp_frame [str "PING"; str "x"] ++ []) = Val (Ok (Complete n c)) ∧
    drop n (resp_frame [str "PING"; str "x"] ++ []) = mjoin (resp_bulk <$> [str "x"]) ++ [].
Proof.
  apply (resp_nullary_leaves_args (str "PING") [str "x"] []).
  - by left.
  - simpl. lia.
  - vm_compute. reflexivity.
Defined.
End witnesses.
