(* ===== verification/ParserBorrowed.v ===== *)
(** [src/protocol/parser_borrowed.rs]: the inline parser that borrows its arguments from
    the read buffer.  The helpers' unused [_original_input] argument is left out. *)

From S2P Require Import Prelude RustStd Crates Domain Parser.

Inductive FrameResultBorrowed : Type :=
| BComplete (consumed : nat) (command : ParsedCommand)
| BIncomplete
| BSkip (consumed : nat).

Abbreviation BResult := (result FrameResultBorrowed ParseError).

(** [find_command_end] *)
Fixpoint find_command_end_loop (buf : bytes) (i : nat) (n : nat) : option nat :=
  match n with
  | O => None
  | S n =>
      if Byte.eqb (safe_get buf i) CR && Byte.eqb (safe_get buf (i + 1)) LF then Some (i + 2)%nat
      else find_command_end_loop buf (i + 1) n
  end.
Definition find_command_end (buf : bytes) : nat :=
  default (length buf) (find_command_end_loop buf 0 (length buf - 1)).

(** [parse_u64_ascii], on a wrapping [u64]. *)
Fixpoint u64_ascii_loop (n : Z) (buf : bytes) : option Z :=
  match buf with
  | [] => Some n
  | b :: buf =>
      if negb (is_ascii_digit b) then None else u64_ascii_loop (u64 (n * 10 + (bval b - 48))) buf
  end.
Definition parse_u64_ascii (buf : bytes) : option Z :=
  if is_empty buf then None else u64_ascii_loop 0 buf.

Definition parse_get_borrowed (rest : bytes) (command_end : nat) : BResult :=
  let usage := str "GET requires exactly 1 argument: GET <key>" in
  let rest_trimmed := trim rest in
  if is_empty rest_trimmed then Err (SyntaxError usage)
  else
    let '(key, trailing) := split_first_word rest_trimmed in
    let trailing := trim trailing in
    if negb (is_empty trailing) then Err (SyntaxError usage)
    else Ok (BComplete command_end (PGet key)).

Definition set_borrowed_usage : bytes :=
  str "SET requires at least 2 arguments: SET <key> <value>".

Definition parse_set_borrowed (rest : bytes) (command_end : nat) : BResult :=
  let rest_trimmed := trim rest in
  if is_empty rest_trimmed then Err (SyntaxError set_borrowed_usage)
  else
    let '(key, value_part) := split_first_word rest_trimmed in
    if is_empty key then Err (SyntaxError set_borrowed_usage)
    else
      let value_part := trim value_part in
      if is_empty value_part then Err (SyntaxError set_borrowed_usage)
      else
        let '(value, trailing) := split_first_word value_part in
        let trailing := trim trailing in
        let? ttl :=
          (if negb (is_empty trailing) then
             let '(ttl_str, after_ttl) := split_first_word trailing in
             let after_ttl := trim after_ttl in
             if negb (is_empty after_ttl) then
               Err (SyntaxError
                 (str "SET requires at most 4 arguments: SET <key> <value> [EX <seconds>]"))
             else Ok (from_secs <$> parse_u64_ascii ttl_str)
           else Ok None) in
        Ok (BComplete command_end (PSet key value ttl)).

Definition parse_del_borrowed (rest : bytes) (command_end : nat) : BResult :=
  let usage := str "DEL requires exactly 1 argument: DEL <key>" in
  let rest := trim rest in
  if is_empty rest then Err (SyntaxError usage)
  else
    let '(key, trailing) := split_first_word rest in
    let trailing := trim trailing in
    if negb (is_empty trailing) then Err (SyntaxError usage)
    else Ok (BComplete command_end (PDel key)).

Definition parse_incr_borrowed (rest : bytes) (command_end : nat) : BResult :=
  let usage := str "INCR requires exactly 1 argument: INCR <key>" in
  let rest := trim rest in
  if is_empty rest then Err (SyntaxError usage)
  else
    let '(key, trailing) := split_first_word rest in
    let trailing := trim trailing in
    if negb (is_empty trailing) then Err (SyntaxError usage)
    else Ok (BComplete command_end (PIncr key)).

Definition parse_single_key_borrowed (rest : bytes) (command_end : nat)
    (constructor : bytes → ParsedCommand) : BResult :=
  let usage := str "Command requires exactly 1 argument" in
  let rest := trim rest in
  if is_empty rest then Err (SyntaxError usage)
  else
    let '(key, trailing) := split_first_word rest in
    let trailing := trim trailing in
    if negb (is_empty trailing) then Err (SyntaxError usage)
    else Ok (BComplete command_end (constructor key)).

Definition parse_expire_borrowed (rest : bytes) (command_end : nat) : BResult :=
  let usage := str "EXPIRE requires exactly 2 arguments: EXPIRE <key> <seconds>" in
  let rest := trim rest in
  if is_empty rest then Err (SyntaxError usage)
  else
    let '(key, seconds_part) := split_first_word rest in
    let seconds_part := trim seconds_part in
    if is_empty seconds_part then Err (SyntaxError usage)
    else
      match parse_u64_ascii seconds_part with
      | None => Err (SyntaxError (str "EXPIRE: seconds must be a positive integer"))
      | Some seconds => Ok (BComplete command_end (PExpire key seconds))
      end.

(** The loop of [parse_mget_borrowed]; every round consumes a byte. *)
Fixpoint mget_borrowed_loop (fuel : nat) (remaining : bytes) (keys : list bytes) : list bytes :=
  match fuel with
  | O => keys
  | S fuel =>
      if is_empty remaining then keys
      else
        let '(key, trailing) := split_first_word remaining in
        let keys := if negb (is_empty key) then keys ++ [key] else keys in
        mget_borrowed_loop fuel (trim trailing) keys
  end.

Definition parse_mget_borrowed (rest : bytes) (command_end : nat) : BResult :=
  let usage := str "MGET requires at least 1 key" in
  let rest := trim rest in
  if is_empty rest then Err (SyntaxError usage)
  else
    match mget_borrowed_loop (length rest) rest [] with
    | [] => Err (SyntaxError usage)
    | keys => Ok (BComplete command_end (PMget keys))
    end.

(** The loop of [parse_mset_borrowed]. *)
Fixpoint mset_borrowed_loop (fuel : nat) (remaining : bytes) (pairs : list (bytes * bytes)) :
    result (list (bytes * bytes)) ParseError :=
  match fuel with
  | O => Ok pairs
  | S fuel =>
      if is_empty remaining then Ok pairs
      else
        let '(key, trailing) := split_first_word remaining in
        if is_empty key then Ok pairs
        else
          let remaining := trim trailing in
          if is_empty remaining then
            Err (SyntaxError (str "MSET requires even number of arguments"))
          else
            let '(value, trailing) := split_first_word remaining in
            mset_borrowed_loop fuel (trim trailing) (pairs ++ [(key, value)])
  end.

Definition parse_mset_borrowed (rest : bytes) (command_end : nat) : BResult :=
  let usage := str "MSET requires at least 2 arguments: MSET <key> <value>" in
  let rest := trim rest in
  if is_empty rest then Err (SyntaxError usage)
  else
    let? pairs := mset_borrowed_loop (length rest) rest [] in
    match pairs with
    | [] => Err (SyntaxError usage)
    | _ => Ok (BComplete command_end (PMset pairs))
    end.

(** The verb switch of [parse_inline_borrowed]. *)
Definition dispatch_verb_borrowed (verb rest : bytes) (command_end : nat) : BResult :=
  if eq_ignore_ascii_case verb (str "GET") then parse_get_borrowed rest command_end
  else if eq_ignore_ascii_case verb (str "SET") then parse_set_borrowed rest command_end
  else if eq_ignore_ascii_case verb (str "PING") then Ok (BComplete command_end PPing)
  else if eq_ignore_ascii_case verb (str "DEL") then parse_del_borrowed rest command_end
  else if eq_ignore_ascii_case verb (str "INCR") then parse_incr_borrowed rest command_end
  else if eq_ignore_ascii_case verb (str "INFO") then Ok (BComplete command_end PInfo)
  else if eq_ignore_ascii_case verb (str "DBSIZE") then Ok (BComplete command_end PDbSize)
  else if eq_ignore_ascii_case verb (str "EXISTS") then
    parse_single_key_borrowed rest command_end PExists
  else if eq_ignore_ascii_case verb (str "TTL") then
    parse_single_key_borrowed rest command_end PTtl
  else if eq_ignore_ascii_case verb (str "EXPIRE") then parse_expire_borrowed rest command_end
  else if eq_ignore_ascii_case verb (str "FLUSHDB") then
    let rest := trim rest in
    if negb (is_empty rest) then Err (SyntaxError (str "FLUSHDB takes no arguments"))
    else Ok (BComplete command_end PFlushDb)
  else if eq_ignore_ascii_case verb (str "KEYS") then
    let rest := trim rest in
    if negb (is_empty rest) then Err (SyntaxError (str "KEYS takes no arguments"))
    else Ok (BComplete command_end PKeys)
  else if eq_ignore_ascii_case verb (str "MGET") then parse_mget_borrowed rest command_end
  else if eq_ignore_ascii_case verb (str "MSET") then parse_mset_borrowed rest command_end
  else Err (UnknownCommand (from_utf8_lossy verb)).

Section inline.
Context {MC : Memchr}.

(** Where the line's text ends: at CRLF, or one byte before a bare LF. *)
Definition line_end (original_input : bytes) : option nat :=
  match memchr2 CR LF original_input with
  | Some p =>
      if (p + 1 <? length original_input)%nat && Byte.eqb (safe_get original_input p) CR &&
         Byte.eqb (safe_get original_input (p + 1)) LF then Some p
      else if Byte.eqb (safe_get original_input p) LF then Some (p - 1)%nat
      else None
  | None => None
  end.

(** [parse_inline_borrowed] *)
Definition parse_inline_borrowed (original_input : bytes) : BResult :=
  match line_end original_input with
  | None => Ok BIncomplete
  | Some pos =>
      let command_end := (pos + 2)%nat in
      let input := trim (take pos original_input) in
      if is_empty input then Ok (BSkip command_end)
      else
        let '(verb, rest) := split_first_word input in
        dispatch_verb_borrowed verb rest command_end
  end.
End inline.
