(* ===== verification/BorrowedProps.v ===== *)
(** The borrowed inline parser against the owned one: same commands on lines ended by
    CRLF, and where the two part. *)

From S2P Require Import Prelude RustStd Crates Domain Parser InlineFacts RespFacts ParserProps.
From S2P Require Import ParserBorrowed.

(** * Numbers *)

Lemma digits_val_mono acc l v : 0 ≤ acc → digits_val acc l = Some v → acc ≤ v.
Proof.
  revert acc; induction l as [|b l IH]; intros acc Hacc; simpl; [intros [= ->]; lia|].
  destruct (is_ascii_digit b) eqn:E; [|done]. unfold is_ascii_digit in E.
  intros H%IH; lia.
Qed.

Lemma u64_ascii_None x y l : digits_val x l = None → u64_ascii_loop y l = None.
Proof.
  revert x y; induction l as [|b l IH]; intros x y; simpl; [done|].
  destruct (is_ascii_digit b); [|done]. apply IH.
Qed.

Lemma u64_ascii_digits acc l :
  0 ≤ acc → (∀ v, digits_val acc l = Some v → v < 2 ^ 64) → u64_ascii_loop acc l = digits_val acc l.
Proof.
  revert acc; induction l as [|b l IH]; intros acc Hacc Hb; [done|]. simpl in *.
  destruct (is_ascii_digit b) eqn:E; [|done]. simpl.
  assert (0 ≤ acc * 10 + (bval b - 48)) by (unfold is_ascii_digit in E; lia).
  destruct (digits_val (acc * 10 + (bval b - 48)) l) as [v|] eqn:Ev.
  - pose proof (digits_val_mono _ _ _ H Ev). specialize (Hb v eq_refl).
    rewrite u64_id by (unfold in_u64; lia). rewrite IH; [done | done |]. intros v'. rewrite Ev. naive_solver.
  - by eapply u64_ascii_None.
Qed.

(** A number both parsers read the same way: no plus sign, no overflow. *)
Definition plain_number (s : bytes) : Prop :=
  (∀ r, s ≠ Byte.x2b :: r) ∧ (∀ v, digits_val 0 s = Some v → v < 2 ^ 64).

Lemma parse_u64_ascii_plain s : plain_number s → parse_u64_ascii s = parse_u64 s.
Proof.
  intros [Hp Hb]. unfold parse_u64_ascii, parse_u64.
  assert (match s with b :: _ :: _ => if Byte.eqb b Byte.x2b then tail s else s | _ => s end = s) as ->.
  { destruct s as [|b [|c s]]; try done. destruct (Byte.eqb b Byte.x2b) eqn:E; [|done].
    apply byte_eqb_eq in E as ->. by destruct (Hp (c :: s)). }
  destruct s as [|b s]; [done|]. cbn [is_empty]. rewrite u64_ascii_digits by done.
  destruct (digits_val 0 (b :: s)) as [v|]; [|done]. cbn.
  by rewrite (proj2 (Z.ltb_lt v (2 ^ 64))) by (by apply Hb).
Qed.

(** * The last byte of a trimmed string *)

Lemma trim_end_loop_last buf start stop :
  (start < trim_end_loop buf start stop)%nat →
  is_whitespace (safe_get buf (trim_end_loop buf start stop - 1)) = false.
Proof.
  induction stop as [|e IH]; [simpl; lia|]. cbn [trim_end_loop].
  destruct (Nat.ltb_spec start (S e)); cbn [andb]; [|lia].
  destruct (is_whitespace (safe_get buf e)) eqn:Hw; [done|].
  intros _. by replace (S e - 1)%nat with e by lia.
Qed.

Lemma trim_last l x b : trim l = x ++ [b] → is_whitespace b = false.
Proof.
  unfold trim. set (start := trim_start_loop l).
  pose proof (trim_end_loop_last l start (length l)) as Hlast.
  destruct (trim_start_loop_spec l) as (_ & Hle & _). fold start in Hle.
  destruct (trim_end_loop_spec l start (length l)) as [[Hr1 Hr2] _]; [lia|].
  set (stop := trim_end_loop l start (length l)) in *. intros E.
  pose proof (f_equal length E) as Hl. rewrite length_take, length_drop, length_app in Hl. simpl in Hl.
  assert (l !! (stop - 1)%nat = Some b) as Hb.
  { replace (stop - 1)%nat with (start + length x)%nat by lia.
    rewrite <- lookup_drop, <- (lookup_take_lt _ (stop - start)) by lia. rewrite E.
    by rewrite lookup_app_r, Nat.sub_diag by lia. }
  unfold safe_get in Hlast. rewrite Hb in Hlast. apply Hlast. lia.
Qed.

(** The text of one word, or of several (and then it has a space inside). *)
Lemma trim_one_word l w : words l = [w] → trim l = w.
Proof.
  intros Hw. destruct (trim_split_word l w [] Hw) as (r & He & Hs & Hr & Hne & _).
  assert (trim l = w ++ r) as Ht.
  { unfold split_first_word in Hs. case_match; simplify_eq; [by rewrite take_drop | by rewrite app_nil_r]. }
  destruct (decide (r = [])) as [-> |Hrne]; [by rewrite app_nil_r in Ht|].
  destruct (exists_last Hrne) as (r' & b & ->). rewrite app_assoc in Ht.
  apply trim_last in Ht. apply words_nil_ws in Hr. rewrite Forall_app in Hr.
  destruct Hr as [_ [Hb _]%Forall_cons]. congruence.
Qed.

Lemma trim_more_words l w w' ws :
  words l = w :: w' :: ws → parse_u64_ascii (trim l) = None.
Proof.
  intros Hw. destruct (trim_split_word l w (w' :: ws) Hw) as (r & He & Hs & Hr & Hne & _).
  unfold split_first_word in Hs. destruct (position is_whitespace (trim l)) as [i|] eqn:Ep; [|by simplify_eq].
  apply position_Some in Ep as (Hi & _ & c & Hc & Hcw). simplify_eq.
  unfold parse_u64_ascii. rewrite He.
  assert (is_ascii_digit c = false) as Hd.
  { unfold is_whitespace in Hcw. repeat (apply orb_true_iff in Hcw as [Hcw|Hcw]);
      apply byte_eqb_eq in Hcw as ->; done. }
  generalize 0. clear -Hc Hd. revert i Hc. induction (trim l) as [|b t IH]; intros i Hc n; [done|].
  simpl. destruct i as [|i]; [by simplify_eq/=; rewrite Hd|].
  destruct (is_ascii_digit b); [|done]. simpl. by eapply IH.
Qed.

(** * The commands *)

Definition one_key_borrowed (usage : bytes) (ctor : bytes → ParsedCommand) (ce : nat)
    (args : list bytes) : BResult :=
  match args with [k] => Ok (BComplete ce (ctor k)) | _ => Err (SyntaxError usage) end.

Lemma parse_get_borrowed_words rest ce :
  parse_get_borrowed rest ce =
  one_key_borrowed (str "GET requires exactly 1 argument: GET <key>") PGet ce (words rest).
Proof. unfold parse_get_borrowed. take_word rest; [done|]. take_word r; done. Qed.

Lemma parse_del_borrowed_words rest ce :
  parse_del_borrowed rest ce =
  one_key_borrowed (str "DEL requires exactly 1 argument: DEL <key>") PDel ce (words rest).
Proof. unfold parse_del_borrowed. take_word rest; [done|]. take_word r; done. Qed.

Lemma parse_incr_borrowed_words rest ce :
  parse_incr_borrowed rest ce =
  one_key_borrowed (str "INCR requires exactly 1 argument: INCR <key>") PIncr ce (words rest).
Proof. unfold parse_incr_borrowed. take_word rest; [done|]. take_word r; done. Qed.

Lemma parse_single_key_borrowed_words rest ce ctor :
  parse_single_key_borrowed rest ce ctor =
  one_key_borrowed (str "Command requires exactly 1 argument") ctor ce (words rest).
Proof. unfold parse_single_key_borrowed. take_word rest; [done|]. take_word r; done. Qed.

(** [SET]: a third word is a number of seconds or ignored, a fourth an error. *)
Definition set_tokens_borrowed (args : list bytes) (ce : nat) : BResult :=
  match args with
  | [k; v] => Ok (BComplete ce (PSet k v None))
  | [k; v; t] => Ok (BComplete ce (PSet k v (from_secs <$> parse_u64_ascii t)))
  | _ :: _ :: _ =>
      Err (SyntaxError (str "SET requires at most 4 arguments: SET <key> <value> [EX <seconds>]"))
  | _ => Err (SyntaxError set_borrowed_usage)
  end.

Lemma parse_set_borrowed_words rest ce : parse_set_borrowed rest ce = set_tokens_borrowed (words rest) ce.
Proof.
  unfold parse_set_borrowed. take_word rest; [done|]. take_word r; [done|].
  take_word r0; [done|]. take_word r1; done.
Qed.

Definition expire_tokens_borrowed (args : list bytes) (ce : nat) : BResult :=
  match args with
  | [k; s] =>
      match parse_u64_ascii s with
      | None => Err (SyntaxError (str "EXPIRE: seconds must be a positive integer"))
      | Some n => Ok (BComplete ce (PExpire k n))
      end
  | _ :: _ :: _ => Err (SyntaxError (str "EXPIRE: seconds must be a positive integer"))
  | _ => Err (SyntaxError (str "EXPIRE requires exactly 2 arguments: EXPIRE <key> <seconds>"))
  end.

Lemma parse_expire_borrowed_words rest ce :
  parse_expire_borrowed rest ce = expire_tokens_borrowed (words rest) ce.
Proof.
  unfold parse_expire_borrowed. take_word rest; [done|].
  rewrite is_empty_trim. case_bool_decide as E; [by rewrite E|].
  destruct (words r) as [|s [|s' ws]] eqn:Ew; [done| |].
  - by rewrite (trim_one_word r s Ew).
  - by rewrite (trim_more_words r s s' ws Ew).
Qed.

(** A trimmed string is its own trim, up to what its words are. *)
Lemma split_trimmed l w ws :
  words l = w :: ws →
  ∃ r, is_empty (trim l) = false ∧ split_first_word (trim l) = (w, r) ∧ words r = ws ∧
    is_empty w = false ∧ (length r < length (trim l))%nat.
Proof.
  intros Hw. destruct (trim_split_word l w ws Hw) as (r & H1 & H2 & H3 & H4 & _).
  exists r. split_and!; try done. unfold split_first_word in H2. case_match eqn:Ep; simplify_eq.
  - apply position_Some in Ep as (Hi & _). rewrite length_drop. destruct n; [done|]. lia.
  - destruct (trim l); [done|]. simpl. lia.
Qed.

Lemma mget_borrowed_words fuel l keys :
  (length (trim l) ≤ fuel)%nat → mget_borrowed_loop fuel (trim l) keys = keys ++ words l.
Proof.
  revert l keys; induction fuel as [|fuel IH]; intros l keys Hf.
  { assert (words l = []) as ->; [|by rewrite app_nil_r]. rewrite <- words_trim.
    by destruct (trim l); [|simpl in Hf; lia]. }
  cbn [mget_borrowed_loop]. destruct (words l) as [|w ws] eqn:Ew.
  { rewrite (trim_words_nil l Ew). by rewrite app_nil_r. }
  destruct (split_trimmed l w ws Ew) as (r & H1 & H2 & H3 & H4 & H5). rewrite H1, H2, H4.
  cbn [negb]. pose proof (length_trim r). rewrite IH by lia. by rewrite <- app_assoc, H3.
Qed.

Lemma mset_borrowed_words fuel l pairs :
  (length (trim l) ≤ fuel)%nat →
  mset_borrowed_loop fuel (trim l) pairs =
  match pair_up (words l) with
  | Some q => Ok (pairs ++ q)
  | None => Err (SyntaxError (str "MSET requires even number of arguments"))
  end.
Proof.
  revert l pairs; induction fuel as [|fuel IH]; intros l pairs Hf.
  { assert (words l = []) as ->; [|by simpl; rewrite app_nil_r]. rewrite <- words_trim.
    by destruct (trim l); [|simpl in Hf; lia]. }
  cbn [mset_borrowed_loop]. destruct (words l) as [|w ws] eqn:Ew.
  { rewrite (trim_words_nil l Ew). simpl. by rewrite app_nil_r. }
  destruct (split_trimmed l w ws Ew) as (r & H1 & H2 & H3 & H4 & H5). rewrite H1, H2, H4.
  destruct ws as [|v ws]; [by rewrite (trim_words_nil r H3)|].
  destruct (split_trimmed r v ws H3) as (r' & G1 & G2 & G3 & G4 & G5). rewrite G1, G2.
  pose proof (length_trim r). pose proof (length_trim r'). rewrite IH, G3 by lia.
  cbn [pair_up]. destruct (pair_up ws); [|done]. simpl. by rewrite <- app_assoc.
Qed.

(** * Agreement *)

(** Same outcome, with the owned copy of the command; error texts may differ in wording. *)
Definition frames_agree (b : BResult) (o : outcome (result FrameResult ParseError)) : Prop :=
  match b, o with
  | Ok (BComplete n c), Val (Ok (Complete n' c')) => n = n' ∧ to_owned c = c'
  | Ok (BSkip n), Val (Ok (Skip n')) => n = n'
  | Ok BIncomplete, Val (Ok Incomplete) => True
  | Err (SyntaxError _), Val (Err (SyntaxError _)) => True
  | Err (UnknownCommand v), Val (Err (UnknownCommand v')) => v = v'
  | _, _ => False
  end.

(** Lines on which the two parsers are meant to agree: a [SET] without options, and a plain
    number of seconds. *)
Definition plain_line (ws : list bytes) : Prop :=
  match ws with
  | [] => True
  | verb :: args =>
      (eq_ignore_ascii_case verb (str "SET") = true → (length args ≤ 2)%nat) ∧
      (eq_ignore_ascii_case verb (str "EXPIRE") = true → ∀ k s, args = [k; s] → plain_number s)
  end.

Definition frame_of (r : result Command ParseError) (n : nat) : outcome (result FrameResult ParseError) :=
  match r with
  | Ok c => Val (Ok (Complete n c))
  | Err EmptyCommand => Val (Ok (Skip n))
  | Err e => Val (Err e)
  end.

Lemma one_key_agree usage usage' ctor ctor' n args :
  (∀ k, to_owned (ctor k) = ctor' k) →
  frames_agree (one_key_borrowed usage ctor n args) (frame_of (one_key usage' ctor' args) n).
Proof. intros Hc. destruct args as [|k [|? ?]]; simpl; auto. Qed.

Lemma fmap_id_bytes (l : list bytes) : bytes_to_string <$> l = l.
Proof. apply list_fmap_id. Qed.

Lemma fmap_id_pairs (l : list (bytes * bytes)) : (λ '(k, v), (bytes_to_string k, v)) <$> l = l.
Proof. induction l as [|[k v] l IH]; [done|]. exact (f_equal (cons (k, v)) IH). Qed.

Lemma verb_agree verb rest n :
  plain_line (verb :: words rest) →
  frames_agree (dispatch_verb_borrowed verb rest n) (frame_of (parse_tokens (verb :: words rest)) n).
Proof.
  intros [Hset Hexp]. unfold dispatch_verb_borrowed. cbn [parse_tokens token_table table_lookup].
  rewrite parse_get_borrowed_words, parse_set_borrowed_words, parse_del_borrowed_words,
    parse_incr_borrowed_words, !parse_single_key_borrowed_words, parse_expire_borrowed_words.
  case_match; [by apply one_key_agree|].
  case_match.
  { specialize (Hset eq_refl). destruct (words rest) as [|k [|v [|? ?]]]; simpl in *; try done. lia. }
  case_match; [done|]. case_match; [by apply one_key_agree|].
  case_match; [by apply one_key_agree|]. case_match; [done|]. case_match; [done|].
  case_match; [by apply one_key_agree|]. case_match; [by apply one_key_agree|].
  case_match.
  { specialize (Hexp eq_refl). destruct (words rest) as [|k [|s [|? ?]]]; simpl in *; try done.
    rewrite parse_u64_ascii_plain by (by eapply Hexp). by case_match. }
  case_match; [rewrite is_empty_trim; case_bool_decide as E; [by rewrite E|by destruct (words rest)]|].
  case_match; [rewrite is_empty_trim; case_bool_decide as E; [by rewrite E|by destruct (words rest)]|].
  case_match.
  { unfold parse_mget_borrowed. rewrite is_empty_trim, mget_borrowed_words by done.
    case_bool_decide as E; [by rewrite E|]. simpl. destruct (words rest); [done|].
    split; [done|]. exact (f_equal CMget (fmap_id_bytes _)). }
  case_match; [|done].
  unfold parse_mset_borrowed. rewrite is_empty_trim, mset_borrowed_words by done.
  case_bool_decide as E; [by rewrite E|]. destruct (words rest) as [|k [|v ws]]; [done..|].
  unfold mset_tokens; cbn [pair_up]. destruct (pair_up ws) as [q|]; [|exact I].
  exact (conj eq_refl (f_equal CMset (fmap_id_pairs ((k, v) :: q)))).
Qed.

(** * Theorems *)

Section theorems.
Context {MC : Memchr}.

Lemma memchr2_line line b rest :
  CR ∉ line → LF ∉ line → b = CR ∨ b = LF →
  memchr2 CR LF (line ++ b :: rest) = Some (length line).
Proof.
  intros Hcr Hlf Hb. rewrite memchr2_position, position_app_None.
  - simpl. assert (Byte.eqb b CR || Byte.eqb b LF = true) as ->; [by destruct Hb as [-> | ->]|].
    simpl. by rewrite Nat.add_0_r.
  - apply position_None, Forall_forall. intros x Hx. apply orb_false_iff.
    split; apply byte_eqb_neq; by intros ->.
Qed.

Lemma safe_get_app_r line b rest : safe_get (line ++ b :: rest) (length line) = b.
Proof. unfold safe_get. by rewrite list_lookup_middle. Qed.

Lemma line_end_crlf line rest :
  CR ∉ line → LF ∉ line → line_end (line ++ crlf ++ rest) = Some (length line).
Proof.
  intros Hcr Hlf. unfold line_end. change (crlf ++ rest) with (CR :: LF :: rest).
  rewrite memchr2_line by auto. rewrite length_app. cbn [length].
  rewrite (proj2 (Nat.ltb_lt _ _)) by lia. rewrite safe_get_app_r, byte_eqb_refl. cbn [andb].
  assert (safe_get (line ++ CR :: LF :: rest) (length line + 1) = LF) as ->; [|done].
  unfold safe_get. rewrite lookup_app_r by lia.
  by replace (length line + 1 - length line)%nat with 1%nat by lia.
Qed.

(** What a line ended by CRLF parses to. *)
Lemma inline_borrowed_line line rest :
  CR ∉ line → LF ∉ line →
  parse_inline_borrowed (line ++ crlf ++ rest) =
  if is_empty (trim line) then Ok (BSkip (length line + 2))
  else let '(verb, args) := split_first_word (trim line) in
       dispatch_verb_borrowed verb args (length line + 2).
Proof.
  intros Hcr Hlf. unfold parse_inline_borrowed. by rewrite line_end_crlf, take_app_exact.
Qed.

(** C33: on a line ended by CRLF the zero-copy parser and the owned parser agree: same
    command, same number of bytes consumed, same skip of a blank line and an error on the
    same lines, for every command but a [SET] with options and for seconds written without a
    plus sign and below 2^64. *)
Theorem borrowed_matches_owned line rest :
  CR ∉ line → LF ∉ line → plain_line (words line) →
  frames_agree (parse_inline_borrowed (line ++ crlf ++ rest))
    (try_parse_frame_inline (line ++ crlf ++ rest)).
Proof.
  intros Hcr Hlf Hp. rewrite inline_borrowed_line, inline_line by done.
  destruct (words line) as [|w ws] eqn:Ew; [by rewrite (trim_words_nil line Ew)|].
  destruct (trim_split_word line w ws Ew) as (r & -> & -> & <- & _ & _).
  exact (verb_agree w r _ Hp).
Qed.

(** A line ended by a bare LF loses its last byte: it parses as the line without it
    (PING becomes the unknown command PIN), whereas the owned parser reads the whole line. *)
Theorem bare_lf_drops_byte line b rest :
  CR ∉ line ++ [b] → LF ∉ line ++ [b] →
  parse_inline_borrowed ((line ++ [b]) ++ LF :: rest) = parse_inline_borrowed (line ++ crlf ++ rest).
Proof.
  intros Hcr Hlf. rewrite inline_borrowed_line by set_solver.
  unfold parse_inline_borrowed, line_end. rewrite memchr2_line by auto.
  rewrite !safe_get_app_r. change (Byte.eqb LF CR) with false. rewrite andb_false_r. cbn [andb].
  rewrite byte_eqb_refl, length_app. cbn [length].
  replace (length line + 1 - 1)%nat with (length line) by lia.
  by rewrite <- app_assoc, take_app_exact.
Qed.

(** A bare LF at the start of the buffer is reported as a skip of two bytes, one more
    than there may be: [BytesMut::advance] then panics. *)
Theorem lone_lf_skips_past_end : parse_inline_borrowed [LF] = Ok (BSkip 2) ∧ length [LF] = 1%nat.
Proof.
  split; [|done]. unfold parse_inline_borrowed, line_end.
  pose proof (memchr2_line [] LF []) as H. cbn [app length] in H. by rewrite H by set_solver.
Qed.

(** A CR that is not followed by LF wedges the connection: whatever arrives later, LF
    included, the parser asks for more. *)
Theorem lone_cr_never_completes line b rest :
  CR ∉ line → LF ∉ line → b ≠ LF →
  parse_inline_borrowed (line ++ CR :: b :: rest) = Ok BIncomplete.
Proof.
  intros Hcr Hlf Hb. unfold parse_inline_borrowed, line_end. rewrite memchr2_line by auto.
  rewrite safe_get_app_r.
  assert (safe_get (line ++ CR :: b :: rest) (length line + 1) = b) as ->.
  { unfold safe_get. rewrite lookup_app_r by lia.
    by replace (length line + 1 - length line)%nat with 1%nat by lia. }
  rewrite (proj2 (byte_eqb_neq b LF) Hb), andb_false_r. done.
Qed.

(** Lifetimes on the inline path: [SET k v EX n] is a syntax error for the zero-copy
    parser although the owned parser accepts it, and [SET k v EX] is accepted without any
    lifetime. *)
Theorem borrowed_set_options k v n rest :
  k ≠ [] → no_ws k → v ≠ [] → no_ws v → in_u64 n →
  let line := unwords [str "SET"; k; v; str "EX"; display_u n] in
  let line' := unwords [str "SET"; k; v; str "EX"] in
  (∃ msg, parse_inline_borrowed (line ++ crlf ++ rest) = Err (SyntaxError msg)) ∧
  try_parse_frame_inline (line ++ crlf ++ rest) =
    Val (Ok (Complete (length line + 2) (CSet k v (Some (from_secs n))))) ∧
  parse_inline_borrowed (line' ++ crlf ++ rest) =
    Ok (BComplete (length line' + 2) (PSet k v None)).
Proof.
  intros Hk Hkw Hv Hvw Hn line line'.
  assert (display_u n ≠ [] ∧ no_ws (display_u n)) as Hd.
  { split; [by destruct (display_u_cons n) as (? & ? & ->)|].
    eapply Forall_impl; [apply display_u_digits; unfold in_u64 in Hn; lia|].
    intros b Hb. unfold is_whitespace. rewrite !orb_false_iff. split_and!; apply byte_eqb_neq;
      by intros ->. }
  assert (Forall (λ w, w ≠ [] ∧ no_ws w) [str "SET"; k; v; str "EX"; display_u n]) as Hall.
  { repeat constructor; try done; apply Hd. }
  assert (Forall (λ w, w ≠ [] ∧ no_ws w) [str "SET"; k; v; str "EX"]) as Hall' by (by repeat constructor).
  assert (∀ ws, Forall (λ w, w ≠ [] ∧ no_ws w) ws → CR ∉ unwords ws ∧ LF ∉ unwords ws) as Hcrlf.
  { intros ws Hws. split; [by apply unwords_no_cr | by apply unwords_no_lf]. }
  destruct (Hcrlf _ Hall) as [Hcr Hlf]. destruct (Hcrlf _ Hall') as [Hcr' Hlf'].
  assert (words line = [str "SET"; k; v; str "EX"; display_u n]) as Hw by (by apply words_unwords).
  assert (words line' = [str "SET"; k; v; str "EX"]) as Hw' by (by apply words_unwords).
  split_and!.
  - rewrite inline_borrowed_line by done.
    destruct (trim_split_word line _ _ Hw) as (r & -> & -> & Hr & _).
    unfold dispatch_verb_borrowed. cbn [eq_ignore_ascii_case]. rewrite parse_set_borrowed_words, Hr.
    eexists. reflexivity.
  - assert (parse_tokens [str "SET"; k; v; str "EX"; display_u n] =
      Ok (CSet k v (Some (from_secs n)))) as Hp.
    { change (parse_tokens _) with (set_tokens [k; v; str "EX"; display_u n]).
      unfold set_tokens. change (ttl_tokens _) with
        (match parse_u64 (display_u n) with
         | Some n => Ok (Some (from_secs n))
         | None => Err (SyntaxError (str "SET EX: expected integer seconds"))
         end). by rewrite parse_u64_display. }
    by rewrite inline_line, Hw, Hp.
  - rewrite inline_borrowed_line by done.
    destruct (trim_split_word line' _ _ Hw') as (r & -> & -> & Hr & _).
    unfold dispatch_verb_borrowed. rewrite parse_set_borrowed_words, Hr. reflexivity.
Qed.
End theorems.

(** * Witnesses *)

Section witnesses.
#[local] Existing Instance memchr_scan.

(** A byte is not in a literal string. *)
Ltac not_in := apply (bool_decide_eq_true_1 (_ ∉ _)); vm_compute; reflexivity.

Lemma borrowed_matches_owned_witness :
  frames_agree (parse_inline_borrowed (str "mset a 1 b 2" ++ crlf ++ str "PING"))
    (try_parse_frame_inline (str "mset a 1 b 2" ++ crlf ++ str "PING")).
Proof.
  apply borrowed_matches_owned; [not_in.. | by split].
Defined.

Lemma bare_lf_drops_byte_witness :
  parse_inline_borrowed ((str "PIN" ++ str "G") ++ LF :: []) =
  parse_inline_borrowed (str "PIN" ++ crlf ++ []).
Proof. apply bare_lf_drops_byte; not_in. Defined.

Lemma lone_cr_never_completes_witness :
  parse_inline_borrowed (str "PING" ++ CR :: SP :: crlf) = Ok BIncomplete.
Proof. apply lone_cr_never_completes; [not_in | not_in | done]. Defined.

Lemma borrowed_set_options_witness :
  (∃ msg, parse_inline_borrowed (str "SET k v EX 60" ++ crlf ++ []) = Err (SyntaxError msg)) ∧
  try_parse_frame_inline (str "SET k v EX 60" ++ crlf ++ []) =
    Val (Ok (Complete 15 (CSet (str "k") (str "v") (Some (from_secs 60))))) ∧
  parse_inline_borrowed (str "SET k v EX" ++ crlf ++ []) =
    Ok (BComplete 12 (PSet (str "k") (str "v") None)).
Proof.
  apply (borrowed_set_options (str "k") (str "v") 60 []); by repeat constructor.
Defined.
End witnesses.
