(* ===== verification/Metrics.v ===== *)
(** [src/observability/metrics.rs]: global counters and the per-thread counters
    batched into them.  [u64] counters wrap, as atomics do and as plain
    arithmetic does in the release profile. *)

From S2P Require Import Prelude RustStd Domain.
From coqutil Require Import Z.PushPullMod.

Definition NUM_COMMAND_TYPES : nat := 14.
Definition FLUSH_BATCH : Z := 64.

(** The thread-local counters. *)
Record LocalCounters : Type := mkLocal {
  l_commands_total : Z;
  l_commands_by_type : list Z;
  l_keyspace_hits : Z;
  l_keyspace_misses : Z;
  l_errors_total : Z
}.

Definition local_default : LocalCounters :=
  mkLocal 0 (replicate NUM_COMMAND_TYPES 0) 0 0 0.

(** The global counters. *)
Record Metrics : Type := mkMetrics {
  commands_total : Z;
  commands_by_type : list Z;
  connections_total : Z;
  connections_active : Z;
  keyspace_hits : Z;
  keyspace_misses : Z;
  errors_total : Z;
  start_time : Instant
}.

Definition metrics_init (t : Instant) : Metrics :=
  mkMetrics 0 (replicate NUM_COMMAND_TYPES 0) 0 0 0 0 0 t.

(** [a[i]] and [a[i] = f(a[i])] on a counter array. *)
Definition count_at (a : list Z) (i : nat) : Z := default 0 (a !! i).
Definition count_upd (a : list Z) (i : nat) (f : Z → Z) : list Z := <[i := f (count_at a i)]> a.

Definition record_command (cmd : CommandType) (m : Metrics) (l : LocalCounters) :
    Metrics * LocalCounters :=
  let i := command_type_index cmd in
  let total := u64 (l_commands_total l + 1) in
  let by_type := count_upd (l_commands_by_type l) i (λ n, u64 (n + 1)) in
  if total mod FLUSH_BATCH =? 0 then
    ({| commands_total := u64 (commands_total m + FLUSH_BATCH);
        commands_by_type := count_upd (commands_by_type m) i (λ n, u64 (n + FLUSH_BATCH));
        connections_total := connections_total m;
        connections_active := connections_active m;
        keyspace_hits := keyspace_hits m;
        keyspace_misses := keyspace_misses m;
        errors_total := errors_total m;
        start_time := start_time m |},
     {| l_commands_total := u64 (total - FLUSH_BATCH);
        l_commands_by_type := count_upd by_type i (λ n, u64 (n - FLUSH_BATCH));
        l_keyspace_hits := l_keyspace_hits l;
        l_keyspace_misses := l_keyspace_misses l;
        l_errors_total := l_errors_total l |})
  else
    (m,
     {| l_commands_total := total;
        l_commands_by_type := by_type;
        l_keyspace_hits := l_keyspace_hits l;
        l_keyspace_misses := l_keyspace_misses l;
        l_errors_total := l_errors_total l |}).

Definition command_count (m : Metrics) (l : LocalCounters) (cmd : CommandType) : Z :=
  u64 (count_at (commands_by_type m) (command_type_index cmd) +
       count_at (l_commands_by_type l) (command_type_index cmd)).

Definition total_commands (m : Metrics) (l : LocalCounters) : Z :=
  u64 (commands_total m + l_commands_total l).

(** [uptime_secs], given the present instant. *)
Definition uptime_secs (m : Metrics) (now : Instant) : Z := as_secs (instant_sub now (start_time m)).

(** One batched counter: add one locally, and move a full batch. *)
Definition batch_step (global local : Z) : Z * Z :=
  let n := u64 (local + 1) in
  if n mod FLUSH_BATCH =? 0 then (u64 (global + FLUSH_BATCH), u64 (n - FLUSH_BATCH))
  else (global, n).

Definition record_hit (m : Metrics) (l : LocalCounters) : Metrics * LocalCounters :=
  let '(g, n) := batch_step (keyspace_hits m) (l_keyspace_hits l) in
  ({| commands_total := commands_total m; commands_by_type := commands_by_type m;
      connections_total := connections_total m; connections_active := connections_active m;
      keyspace_hits := g; keyspace_misses := keyspace_misses m;
      errors_total := errors_total m; start_time := start_time m |},
   {| l_commands_total := l_commands_total l; l_commands_by_type := l_commands_by_type l;
      l_keyspace_hits := n; l_keyspace_misses := l_keyspace_misses l;
      l_errors_total := l_errors_total l |}).

Definition record_miss (m : Metrics) (l : LocalCounters) : Metrics * LocalCounters :=
  let '(g, n) := batch_step (keyspace_misses m) (l_keyspace_misses l) in
  ({| commands_total := commands_total m; commands_by_type := commands_by_type m;
      connections_total := connections_total m; connections_active := connections_active m;
      keyspace_hits := keyspace_hits m; keyspace_misses := g;
      errors_total := errors_total m; start_time := start_time m |},
   {| l_commands_total := l_commands_total l; l_commands_by_type := l_commands_by_type l;
      l_keyspace_hits := l_keyspace_hits l; l_keyspace_misses := n;
      l_errors_total := l_errors_total l |}).

Definition record_error (m : Metrics) (l : LocalCounters) : Metrics * LocalCounters :=
  let '(g, n) := batch_step (errors_total m) (l_errors_total l) in
  ({| commands_total := commands_total m; commands_by_type := commands_by_type m;
      connections_total := connections_total m; connections_active := connections_active m;
      keyspace_hits := keyspace_hits m; keyspace_misses := keyspace_misses m;
      errors_total := g; start_time := start_time m |},
   {| l_commands_total := l_commands_total l; l_commands_by_type := l_commands_by_type l;
      l_keyspace_hits := l_keyspace_hits l; l_keyspace_misses := l_keyspace_misses l;
      l_errors_total := n |}).

Definition connection_opened (m : Metrics) : Metrics :=
  {| commands_total := commands_total m; commands_by_type := commands_by_type m;
     connections_total := u64 (connections_total m + 1);
     connections_active := u64 (connections_active m + 1);
     keyspace_hits := keyspace_hits m; keyspace_misses := keyspace_misses m;
     errors_total := errors_total m; start_time := start_time m |}.

Definition connection_closed (m : Metrics) : Metrics :=
  {| commands_total := commands_total m; commands_by_type := commands_by_type m;
     connections_total := connections_total m;
     connections_active := u64 (connections_active m - 1);
     keyspace_hits := keyspace_hits m; keyspace_misses := keyspace_misses m;
     errors_total := errors_total m; start_time := start_time m |}.

(** One counter of [flush_all]: move the local count, if any, and zero it. *)
Definition flush_counter (global local : Z) : Z * Z :=
  if 0 <? local then (u64 (global + local), 0) else (global, local).

Definition flush_all (m : Metrics) (l : LocalCounters) : Metrics * LocalCounters :=
  let '(ct, lct) := flush_counter (commands_total m) (l_commands_total l) in
  let '(kh, lkh) := flush_counter (keyspace_hits m) (l_keyspace_hits l) in
  let '(km, lkm) := flush_counter (keyspace_misses m) (l_keyspace_misses l) in
  let '(et, let_) := flush_counter (errors_total m) (l_errors_total l) in
  let bt := zip_with flush_counter (commands_by_type m) (l_commands_by_type l) in
  ({| commands_total := ct; commands_by_type := bt.*1;
      connections_total := connections_total m; connections_active := connections_active m;
      keyspace_hits := kh; keyspace_misses := km; errors_total := et;
      start_time := start_time m |},
   {| l_commands_total := lct; l_commands_by_type := bt.*2;
      l_keyspace_hits := lkh; l_keyspace_misses := lkm; l_errors_total := let_ |}).

(** * Invariant and facts *)

(** Both arrays have a slot per command type and every counter is a [u64]. *)
Definition counters_wf (m : Metrics) (l : LocalCounters) : Prop :=
  length (commands_by_type m) = NUM_COMMAND_TYPES ∧
  length (l_commands_by_type l) = NUM_COMMAND_TYPES ∧
  Forall in_u64 (commands_by_type m) ∧ Forall in_u64 (l_commands_by_type l).

Lemma command_type_index_lt c : (command_type_index c < NUM_COMMAND_TYPES)%nat.
Proof. destruct c; unfold NUM_COMMAND_TYPES; simpl; lia. Qed.

Lemma command_type_index_inj c c' : command_type_index c = command_type_index c' → c = c'.
Proof. by destruct c, c'. Qed.

Lemma u64_range z : in_u64 (u64 z).
Proof. unfold in_u64, u64. by apply Z.mod_pos_bound. Qed.

Lemma count_at_upd a i f j :
  (i < length a)%nat →
  count_at (count_upd a i f) j = if decide (i = j) then f (count_at a j) else count_at a j.
Proof.
  intros Hi. unfold count_at, count_upd. case_decide; subst.
  - by rewrite list_lookup_insert_eq.
  - by rewrite list_lookup_insert_ne.
Qed.

Lemma count_upd_wf a i f :
  Forall in_u64 a → (∀ n, in_u64 (f n)) → Forall in_u64 (count_upd a i f).
Proof. intros. by apply Forall_insert. Qed.

(** Equality of wrapped sums: drop the inner wraps and compare. *)
Ltac u64_eq :=
  unfold u64; Z.push_pull_mod; f_equal; lia.

Lemma batch_step_sum g n : u64 ((batch_step g n).1 + (batch_step g n).2) = u64 (g + n + 1).
Proof. unfold batch_step. case_match; simpl; u64_eq. Qed.

Lemma record_command_wf c m l :
  counters_wf m l → counters_wf (record_command c m l).1 (record_command c m l).2.
Proof.
  intros (H1 & H2 & H3 & H4). unfold record_command, counters_wf.
  case_match; simpl; unfold count_upd; rewrite ?length_insert; split_and!; try done;
    repeat apply Forall_insert; auto using u64_range.
Qed.

Lemma flush_counter_sum g n :
  u64 ((flush_counter g n).1 + (flush_counter g n).2) = u64 (g + n).
Proof. unfold flush_counter. case_match; simpl; u64_eq. Qed.

(** * Claims *)

(** Recording a command adds exactly one to the count of its type and to the total as
    the recording thread sees them (global plus thread-local, modulo 2^64), leaves the other
    types alone, and keeps the counters well formed, batch boundary or not. *)
Theorem record_command_counts (c c' : CommandType) (m : Metrics) (l : LocalCounters) :
  counters_wf m l →
  let '(m', l') := record_command c m l in
  counters_wf m' l' ∧
  total_commands m' l' = u64 (total_commands m l + 1) ∧
  command_count m' l' c' =
    (if decide (c = c') then u64 (command_count m l c' + 1) else command_count m l c').
Proof.
  intros Hwf. pose proof (record_command_wf c m l Hwf) as Hwf'.
  destruct Hwf as (H1 & H2 & H3 & H4). pose proof (command_type_index_lt c) as Hc.
  assert (c = c' ↔ command_type_index c = command_type_index c') as Hcc.
  { split; [by intros -> | apply command_type_index_inj]. }
  unfold total_commands, command_count in *. unfold record_command in *.
  case_match; simpl in *; split_and!; try done; try u64_eq;
    rewrite ?count_at_upd by (unfold count_upd; rewrite ?length_insert; lia);
    repeat case_decide; try naive_solver; u64_eq.
Qed.

Lemma flush_counter_zero g n : in_u64 n → (flush_counter g n).2 = 0.
Proof. unfold flush_counter, in_u64. intros. case_match; simpl; lia. Qed.

Lemma count_at_zip_with (f : Z → Z → Z * Z) a b i :
  length a = length b → (i < length a)%nat →
  count_at (zip_with f a b).*1 i = (f (count_at a i) (count_at b i)).1 ∧
  count_at (zip_with f a b).*2 i = (f (count_at a i) (count_at b i)).2.
Proof.
  intros Hl Hi. unfold count_at. rewrite !list_lookup_fmap, lookup_zip_with.
  destruct (lookup_lt_is_Some_2 a i) as [x Hx]; [done|].
  destruct (lookup_lt_is_Some_2 b i) as [y Hy]; [by rewrite <- Hl|].
  by rewrite Hx, Hy.
Qed.

(** [flush_all] moves the thread's counts into the global counters: every count the
    thread sees is unchanged and its local counters of commands are zero afterwards, so
    the global counters alone show them. *)
Theorem flush_all_moves (m : Metrics) (l : LocalCounters) (c : CommandType) :
  counters_wf m l → in_u64 (l_commands_total l) →
  let '(m', l') := flush_all m l in
  total_commands m' l' = total_commands m l ∧ l_commands_total l' = 0 ∧
  command_count m' l' c = command_count m l c ∧
  count_at (l_commands_by_type l') (command_type_index c) = 0.
Proof.
  intros (H1 & H2 & H3 & H4) Ht. pose proof (command_type_index_lt c) as Hc.
  unfold flush_all, total_commands, command_count.
  pose proof (flush_counter_sum (commands_total m) (l_commands_total l)) as Hs.
  pose proof (flush_counter_zero (commands_total m) (l_commands_total l) Ht) as Hz.
  destruct (flush_counter (commands_total m) _), (flush_counter (keyspace_hits m) _),
    (flush_counter (keyspace_misses m) _), (flush_counter (errors_total m) _). simpl in *.
  destruct (count_at_zip_with flush_counter (commands_by_type m) (l_commands_by_type l)
    (command_type_index c)) as [-> ->]; [congruence | lia |].
  split_and!; [done | done | apply flush_counter_sum |].
  apply flush_counter_zero. unfold count_at.
  destruct (lookup_lt_is_Some_2 (l_commands_by_type l) (command_type_index c)) as [x Hx]; [lia|].
  rewrite Hx. simpl. by eapply Forall_lookup_1.
Qed.

(** [n] commands of one type recorded in a row. *)
Fixpoint record_many (n : nat) (c : CommandType) (s : Metrics * LocalCounters) :
    Metrics * LocalCounters :=
  match n with
  | O => s
  | S n => record_many n c (record_command c s.1 s.2)
  end.

(** The batch is credited to the type of the command that completes it: after 63 GETs and
    one SET the global counter of SET, which is all another thread can see, shows 64, that of
    GET shows none, and the local SET counter has wrapped below zero. *)
Theorem record_command_misattributes :
  let s := record_many 1 TSet (record_many 63 TGet (metrics_init 0, local_default)) in
  count_at (commands_by_type s.1) (command_type_index TSet) = 64 ∧
  count_at (commands_by_type s.1) (command_type_index TGet) = 0 ∧
  count_at (l_commands_by_type s.2) (command_type_index TSet) = 2 ^ 64 - 63.
Proof. vm_compute. auto. Qed.

(** * Witnesses *)

Lemma init_wf : counters_wf (metrics_init 0) local_default.
Proof.
  split_and!; try done; apply Forall_replicate; unfold in_u64; lia.
Qed.

Lemma record_command_counts_witness :
  command_count (record_command TGet (metrics_init 0) local_default).1
    (record_command TGet (metrics_init 0) local_default).2 TGet = 1.
Proof. apply (record_command_counts TGet TGet (metrics_init 0) local_default init_wf). Defined.

Lemma flush_all_moves_witness :
  command_count (flush_all (metrics_init 0) local_default).1
    (flush_all (metrics_init 0) local_default).2 TGet = 0.
Proof.
  apply (flush_all_moves (metrics_init 0) local_default TGet init_wf).
  unfold in_u64. simpl. lia.
Defined.
