(* ===== verification/World.v ===== *)
(** The state a command runs in and the [KvEngine] trait.

    A computation is a state transformer that may panic or block for ever; the
    state reached so far is kept, because the store is shared and only the task
    that panics or blocks is lost.  The state is the engine, the position in the clock's
    readings, the global metrics and the running thread's counters. *)

From S2P Require Import Prelude RustStd Domain Metrics.

Definition ST (S A : Type) : Type := S → outcome A * S.

#[export] Instance st_ret S : MRet (ST S) := λ A a s, (Val a, s).
#[export] Instance st_bind S : MBind (ST S) := λ A B k m s,
  match m s with
  | (Val a, s') => k a s'
  | (Panic, s') => (Panic, s')
  | (Stuck, s') => (Stuck, s')
  end.

Record World (E : Type) : Type := mkWorld {
  eng : E;
  tick : nat;
  met : Metrics;
  loc : LocalCounters
}.
Arguments mkWorld {E} _ _ _ _.
Arguments eng {E} _.
Arguments tick {E} _.
Arguments met {E} _.
Arguments loc {E} _.

Section world.
Context {E : Type} `{Clock}.

Definition set_eng (e : E) (w : World E) : World E := mkWorld e (tick w) (met w) (loc w).

(** [Instant::now()] *)
Definition now : ST (World E) Instant :=
  λ w, (Val (clk (tick w)), mkWorld (eng w) (S (tick w)) (met w) (loc w)).

Definition get_eng : ST (World E) E := λ w, (Val (eng w), w).
Definition put_eng (e : E) : ST (World E) () := λ w, (Val tt, set_eng e w).
Definition get_metrics : ST (World E) (Metrics * LocalCounters) :=
  λ w, (Val (met w, loc w), w).
Definition put_metrics (ml : Metrics * LocalCounters) : ST (World E) () :=
  λ w, (Val tt, mkWorld (eng w) (tick w) ml.1 ml.2).

(** A value computed by code that may panic. *)
Definition lift_outcome {A} (o : outcome A) : ST (World E) A := λ w, (o, w).

(** [ValueEntry::new] *)
Definition entry_new (d : bytes) : ST (World E) ValueEntry :=
  t ← now; mret {| data := d; expires_at := None; created_at := Some t |}.

(** [ValueEntry::with_ttl] *)
Definition entry_with_ttl (d : bytes) (ttl : Duration) : ST (World E) ValueEntry :=
  t ← now;
  exp ← lift_outcome (instant_add t ttl);
  t' ← now;
  mret {| data := d; expires_at := Some exp; created_at := Some t' |}.

(** [ValueEntry::is_expired]: the clock is read only when there is a deadline. *)
Definition is_expired (e : ValueEntry) : ST (World E) bool :=
  match expires_at e with
  | Some exp => t ← now; mret (exp <=? t)
  | None => mret false
  end.
End world.

(** * [src/storage/engine.rs]: the trait *)

Class KvEngine (E : Type) : Type := {
  kv_get : bytes → ST (World E) (result (option ValueEntry) EngineError);
  kv_set : bytes → ValueEntry → ST (World E) (result () EngineError);
  kv_del : bytes → ST (World E) (result bool EngineError);
  kv_incr : bytes → ST (World E) (result Z EngineError);
  kv_len : ST (World E) Z;
  kv_exists : bytes → ST (World E) bool;
  kv_ttl_secs : bytes → ST (World E) Z;
  kv_expire : bytes → Z → ST (World E) bool;
  kv_clear : ST (World E) ();
  kv_keys : ST (World E) (list bytes);
  kv_mget : list bytes → ST (World E) (list (option ValueEntry))
}.

(** [KvEngine::is_empty], the trait's default method. *)
Definition kv_is_empty {E} `{KvEngine E} : ST (World E) bool :=
  n ← kv_len; mret (n =? 0).

(** What a client may rely on, for a value without deadline: a successful [set] is
    read back, and a deleted or cleared key is gone. *)
Class KvEngineOk (E : Type) `{KvEngine E} : Prop := {
  kv_set_get k e w w1 :
    kv_set k e w = (Val (Ok tt), w1) → expires_at e = None →
    ∃ w2, kv_get k w1 = (Val (Ok (Some e)), w2);
  kv_del_get k b w w1 :
    kv_del k w = (Val (Ok b), w1) → ∃ w2, kv_get k w1 = (Val (Ok None), w2);
  kv_clear_get k w w1 :
    kv_clear w = (Val tt, w1) → ∃ w2, kv_get k w1 = (Val (Ok None), w2)
}.

(** * Facts *)

Lemma st_bind_val {S A B} (m : ST S A) (k : A → ST S B) s a s' :
  m s = (Val a, s') → (m ≫= k) s = k a s'.
Proof. intros E. unfold mbind, st_bind. by rewrite E. Qed.

Lemma st_bind_panic {S A B} (m : ST S A) (k : A → ST S B) s s' :
  m s = (Panic, s') → (m ≫= k) s = (Panic, s').
Proof. intros E. unfold mbind, st_bind. by rewrite E. Qed.

Lemma st_bind_stuck {S A B} (m : ST S A) (k : A → ST S B) s s' :
  m s = (Stuck, s') → (m ≫= k) s = (Stuck, s').
Proof. intros E. unfold mbind, st_bind. by rewrite E. Qed.

Lemma st_ret_val {S A} (a : A) (s : S) : (mret a : ST S A) s = (Val a, s).
Proof. done. Qed.
