(* ===== verification/Engine.v ===== *)
(** [src/storage/dashmap_engine.rs] and [src/storage/ttl.rs]: the DashMap
    engine. *)

From S2P Require Import Prelude RustStd Crates Domain Metrics World.

Record DashMapEngine (M : Type) : Type := mkEngine { emap : M; max_keys : Z }.
Arguments mkEngine {M} _ _.
Arguments emap {M} _.
Arguments max_keys {M} _.

Section engine.
Context {M : Type} {DM : DashMap bytes ValueEntry M} {CL : Clock} {IT : Itoa}.

Abbreviation EW := (World (DashMapEngine M)).
Abbreviation E A := (ST EW A).

(** [DashMapEngine::new], [DashMapEngine::with_max_keys] *)
Definition engine_new : DashMapEngine M := mkEngine dm_new 0.
Definition with_max_keys (max_keys : Z) : DashMapEngine M := mkEngine dm_new max_keys.

Definition get_map : E M := e ← get_eng; mret (emap e).
Definition put_map (m : M) : E () := e ← get_eng; put_eng (mkEngine m (max_keys e)).
Definition get_max_keys : E Z := e ← get_eng; mret (max_keys e).

(** [DashMap::remove_if] with a predicate that may read the clock. *)
Definition remove_if (key : bytes) (p : ValueEntry → E bool) : E (option ValueEntry) :=
  m ← get_map;
  match dm_get m key with
  | None => mret None
  | Some v => b ← p v; if (b : bool) then put_map (dm_remove m key);; mret (Some v) else mret None
  end.

(** [DashMap::retain]: the predicate is asked about every entry in turn. *)
Fixpoint retain_loop (l : list (bytes * ValueEntry)) (p : ValueEntry → E bool) : E () :=
  match l with
  | [] => mret tt
  | (k, v) :: l =>
      b ← p v;
      (if (b : bool) then mret tt else m ← get_map; put_map (dm_remove m k));;
      retain_loop l p
  end.

(** [DashMapEngine::sweep_expired] *)
Definition sweep_expired : E () :=
  m ← get_map; retain_loop (dm_iter m) (λ v, b ← is_expired v; mret (negb b)).

(** [<] on [Option<Instant>]: [None] is the least. *)
Definition opt_instant_lt (a b : option Instant) : bool :=
  match a, b with
  | None, Some _ => true
  | Some a, Some b => a <? b
  | _, None => false
  end.

(** The sampling loop of [evict_one_if_needed]. *)
Fixpoint evict_scan (t : Instant) (l : list (bytes * ValueEntry))
    (oldest_key : option bytes) (oldest_time : option Instant) (sampled : nat) : option bytes :=
  match l with
  | [] => oldest_key
  | (k, e) :: l =>
      if is_expired_at e t then evict_scan t l oldest_key oldest_time sampled
      else
        let '(ok, ot) :=
          if bool_decide (oldest_key = None) || opt_instant_lt (created_at e) oldest_time
          then (Some k, created_at e) else (oldest_key, oldest_time) in
        if (5 <=? S sampled)%nat then ok else evict_scan t l ok ot (S sampled)
  end.

(** [DashMapEngine::evict_one_if_needed] *)
Definition evict_one_if_needed : E () :=
  mk ← get_max_keys;
  m ← get_map;
  if (mk =? 0) || (dm_len m <? mk) then mret tt
  else
    t ← now;
    match evict_scan t (dm_iter m) None None 0 with
    | Some key => put_map (dm_remove m key)
    | None => mret tt
    end.

(** The entry [dump_entries] passes to its callback, if live. *)
Definition dump_entry (t : Instant) (ke : bytes * ValueEntry) : option (bytes * bytes * Z) :=
  let '(k, e) := ke in
  match expires_at e with
  | Some exp =>
      if exp <=? t then None
      else
        let ms := i64 (as_millis (instant_sub exp t)) in
        Some (k, data e, if 0 <? ms then ms else -1)
  | None => Some (k, data e, -1)
  end.

(** [DashMapEngine::dump_entries]: the calls of the callback, in order (their number is
    the returned count). *)
Definition dump_entries : E (list (bytes * bytes * Z)) :=
  t ← now; m ← get_map; mret (omap (dump_entry t) (dm_iter m)).

(** [get_fast], [set_fast_str] *)
Definition get_fast (key : bytes) : E (option bytes) :=
  m ← get_map; mret (data <$> dm_get m key).
Definition set_fast_str (key value : bytes) : E () :=
  m ← get_map; put_map (dm_insert m key (new_fast value)).

(** * [impl KvEngine for DashMapEngine] *)

Definition get (key : bytes) : E (result (option ValueEntry) EngineError) :=
  m ← get_map;
  match dm_get m key with
  | None => mret (Ok None)
  | Some entry =>
      b ← is_expired entry;
      if (b : bool) then remove_if key is_expired;; mret (Ok None)
      else mret (Ok (Some entry))
  end.

Definition set (key : bytes) (value : ValueEntry) : E (result () EngineError) :=
  mk ← get_max_keys;
  m ← get_map;
  r ← (if (0 <? mk) && negb (dm_contains_key m key) then
         evict_one_if_needed;;
         m ← get_map;
         mret (if mk <=? dm_len m then Err EngOutOfMemory else Ok tt)
       else mret (Ok tt));
  match r with
  | Err e => mret (Err e)
  | Ok _ => m ← get_map; put_map (dm_insert m key value);; mret (Ok tt)
  end.

Definition del (key : bytes) : E (result bool EngineError) :=
  removed ← remove_if key (λ v, b ← is_expired v; mret (negb b));
  mret (Ok (bool_decide (is_Some removed))).

(** A call that takes every shard's lock, made while an entry guard is held. *)
Definition under_guard {A} (c : E A) : E A :=
  if dm_reentrant then c else λ w, (Stuck, w).

(** [DashMapEngine::incr]: a vacant entry keeps its shard locked until the end of the
    branch, an occupied one until [occ.remove()]. *)
Definition incr (key : bytes) : E (result Z EngineError) :=
  mk ← get_max_keys;
  m ← get_map;
  match dm_get m key with
  | Some e =>
      b ← is_expired e;
      if (b : bool) then
        put_map (dm_remove m key);;
        m ← get_map;
        if (0 <? mk) && (mk <=? dm_len m) then mret (Err EngOutOfMemory)
        else
          v ← entry_new (str "1");
          put_map (dm_insert m key v);;
          mret (Ok 1)
      else
        match parse_i64 (from_utf8_lossy (data e)) with
        | None => mret (Err (EngNotAnInteger key))
        | Some val =>
            let new_val := i64 (val + 1) in
            put_map (dm_insert m key
              {| data := itoa_format new_val; expires_at := expires_at e;
                 created_at := created_at e |});;
            mret (Ok new_val)
        end
  | None =>
      r ← (if 0 <? mk then
             under_guard (
               if mk <=? dm_len m then
                 evict_one_if_needed;;
                 m ← get_map;
                 mret (if mk <=? dm_len m then Err EngOutOfMemory else Ok tt)
               else mret (Ok tt))
           else mret (Ok tt));
      match r with
      | Err e => mret (Err e)
      | Ok _ =>
          v ← entry_new (str "1");
          m ← get_map;
          put_map (dm_insert m key v);;
          mret (Ok 1)
      end
  end.

Definition len : E Z := m ← get_map; mret (dm_len m).

Definition exists_ (key : bytes) : E bool :=
  m ← get_map;
  match dm_get m key with
  | None => mret false
  | Some entry =>
      b ← is_expired entry;
      if (b : bool) then remove_if key is_expired;; mret false else mret true
  end.

Definition ttl_secs (key : bytes) : E Z :=
  m ← get_map;
  match dm_get m key with
  | None => mret (-2)
  | Some entry =>
      b ← is_expired entry;
      if (b : bool) then remove_if key is_expired;; mret (-2)
      else
        match expires_at entry with
        | Some exp =>
            t ← now;
            mret (if exp <=? t then -2 else i64 (as_secs (instant_sub exp t)))
        | None => mret (-1)
        end
  end.

Definition expire (key : bytes) (seconds : Z) : E bool :=
  m ← get_map;
  match dm_get m key with
  | None => mret false
  | Some entry =>
      b ← is_expired entry;
      if (b : bool) then remove_if key is_expired;; mret false
      else
        t ← now;
        exp ← lift_outcome (instant_add t (from_secs seconds));
        put_map (dm_insert m key
          {| data := data entry; expires_at := Some exp; created_at := created_at entry |});;
        mret true
  end.

Definition clear : E () := put_map dm_new.

Definition keys : E (list bytes) :=
  t ← now; m ← get_map;
  mret (omap (λ '(k, e), if negb (is_expired_at e t) then Some k else None) (dm_iter m)).

Definition mget_one (t : Instant) (m : M) (k : bytes) : option ValueEntry :=
  entry ← dm_get m k; if is_expired_at entry t then None else Some entry.

Definition mget (ks : list bytes) : E (list (option ValueEntry)) :=
  t ← now; m ← get_map; mret (mget_one t m <$> ks).

#[global] Instance dashmap_engine_kv : KvEngine (DashMapEngine M) := {|
  kv_get := get;
  kv_set := set;
  kv_del := del;
  kv_incr := incr;
  kv_len := len;
  kv_exists := exists_;
  kv_ttl_secs := ttl_secs;
  kv_expire := expire;
  kv_clear := clear;
  kv_keys := keys;
  kv_mget := mget
|}.

(** [run_sweeper]: a tick of the interval sweeps; [n] ticks. *)
Fixpoint run_sweeper (n : nat) : E () :=
  match n with
  | O => mret tt
  | S n => sweep_expired;; run_sweeper n
  end.
End engine.
