(* ===== verification/EngineFacts.v ===== *)
(** What each operation of the DashMap engine returns and leaves in the map,
    in terms of the entries a client can see at an instant. *)

From S2P Require Import Prelude RustStd Crates Domain Metrics World Engine.

Section facts.
Context {M : Type} {DM : DashMap bytes ValueEntry M} {CL : Clock} {IT : Itoa}.
Abbreviation EW := (World (DashMapEngine M)).
Implicit Types (w : EW) (m : M) (k : bytes) (t : Instant).

(** * Abstract view *)

(** The entry a client sees under [k] at instant [t]: expired entries are absent. *)
Definition sees m t k : option ValueEntry :=
  match dm_get m k with
  | Some e => if is_expired_at e t then None else Some e
  | None => None
  end.

(** Indistinguishable from instant [t] on. *)
Definition same_from t m m' : Prop := ∀ t' k, t ≤ t' → sees m t' k = sees m' t' k.

(** [m'] has lost entries of [m] and nothing else. *)
Definition shrinks m m' : Prop := ∀ k, dm_get m' k = dm_get m k ∨ dm_get m' k = None.

(** The parts of the state an engine operation leaves alone. *)
Definition ext w w' : Prop :=
  max_keys (eng w') = max_keys (eng w) ∧ met w' = met w ∧ loc w' = loc w ∧
  (tick w ≤ tick w')%nat.

Abbreviation wmap w := (emap (eng w)).
Abbreviation wnow w := (clk (tick w)).

#[global] Instance same_from_equivalence t : Equivalence (same_from t).
Proof.
  split; unfold same_from.
  - done.
  - intros m m' H t' k Ht. symmetry. by apply H.
  - intros m1 m2 m3 H1 H2 t' k Ht. by rewrite H1, H2.
Qed.

#[global] Instance sees_proper : Proper (dm_equiv ==> eq ==> eq ==> eq) sees.
Proof. intros m m' H t ? <- k ? <-. unfold sees. by rewrite H. Qed.

#[global] Instance dm_equiv_same_from t : subrelation dm_equiv (same_from t).
Proof. intros m m' H t' k _. by rewrite H. Qed.

#[global] Instance shrinks_preorder : PreOrder shrinks.
Proof.
  split; unfold shrinks.
  - intros m k. by left.
  - intros m1 m2 m3 H1 H2 k. destruct (H1 k), (H2 k); (left; congruence) || (right; congruence).
Qed.

#[global] Instance ext_preorder : PreOrder ext.
Proof.
  split; unfold ext.
  - done.
  - intros w1 w2 w3 (?&?&?&?) (?&?&?&?). split_and!; try congruence. lia.
Qed.

Lemma same_from_weaken t t' m m' : t ≤ t' → same_from t m m' → same_from t' m m'.
Proof. intros Ht H t2 k Ht2. apply H. lia. Qed.

Lemma ext_now w w' : ext w w' → wnow w ≤ wnow w'.
Proof. intros (_ & _ & _ & Ht). by apply clk_mono. Qed.

Lemma is_expired_at_mono e t t' : t ≤ t' → is_expired_at e t = true → is_expired_at e t' = true.
Proof. unfold is_expired_at. destruct (expires_at e); [|done]. intros. lia. Qed.

Lemma sees_insert m k e t k' :
  sees (dm_insert m k e) t k' =
  if decide (k = k') then (if is_expired_at e t then None else Some e) else sees m t k'.
Proof. unfold sees. rewrite dm_get_insert. by case_decide. Qed.

Lemma sees_remove m k t k' :
  sees (dm_remove m k) t k' = if decide (k = k') then None else sees m t k'.
Proof. unfold sees. rewrite dm_get_remove. by case_decide. Qed.

(** Dropping an entry that has expired is invisible from then on. *)
Lemma same_from_remove_expired m k e t :
  dm_get m k = Some e → is_expired_at e t = true → same_from t m (dm_remove m k).
Proof.
  intros He Hx t' k' Ht. rewrite sees_remove. case_decide; [subst|done].
  unfold sees. by rewrite He, (is_expired_at_mono e t t').
Qed.

Lemma shrinks_remove m k : shrinks m (dm_remove m k).
Proof. intros k'. rewrite dm_get_remove. case_decide; auto. Qed.

Lemma shrinks_len m m' : shrinks m m' → dm_len m' ≤ dm_len m.
Proof.
  intros H. rewrite !dm_len_keys. apply inj_le.
  apply submseteq_length, NoDup_submseteq; [apply dm_iter_nodup|].
  intros k. rewrite !dm_keys_elem. destruct (H k) as [-> | ->]; [done | by intros [? ?]].
Qed.

Lemma shrinks_sees m m' t k : shrinks m m' → sees m' t k = sees m t k ∨ sees m' t k = None.
Proof. intros H. unfold sees. destruct (H k) as [-> | ->]; auto. Qed.

(** * Primitive steps *)

Definition bump w : EW := mkWorld (eng w) (S (tick w)) (met w) (loc w).

Lemma ext_bump w : ext w (bump w).
Proof. split_and!; simpl; auto. Qed.

Lemma is_expired_run e w :
  ∃ w', is_expired e w = (Val (is_expired_at e (wnow w)), w') ∧ ext w w' ∧ eng w' = eng w.
Proof.
  unfold is_expired, is_expired_at. destruct (expires_at e).
  - exists (bump w). split_and!; [done | apply ext_bump | done].
  - exists w. by split_and!.
Qed.

Definition with_map m w : EW := set_eng (mkEngine m (max_keys (eng w))) w.

Lemma put_map_run m w : put_map m w = (Val tt, with_map m w).
Proof. done. Qed.

Lemma ext_with_map m w : ext w (with_map m w).
Proof. by split_and!. Qed.

(** Run the check of an entry's deadline at the head of a computation. *)
Ltac check_expiry e w :=
  let w' := fresh "w" in let E := fresh "E" in let Hext := fresh "Hext" in
  let Heng := fresh "Heng" in
  destruct (is_expired_run e w) as (w' & E & Hext & Heng);
  rewrite (st_bind_val _ _ _ _ _ E); clear E.

(** [remove_if] touches no other key. *)
Lemma remove_if_other k k' w r w' :
  remove_if k is_expired w = (Val r, w') → k ≠ k' →
  dm_get (wmap w') k' = dm_get (wmap w) k'.
Proof.
  unfold remove_if. rewrite (st_bind_val get_map _ w (wmap w) w) by done.
  destruct (dm_get (wmap w) k) as [e|]; [|by intros [= _ <-]].
  check_expiry e w. case_match; intros [= _ <-] Hne; simpl.
  - by rewrite dm_get_remove_ne.
  - by rewrite Heng.
Qed.

(** [remove_if(key, |v| v.is_expired())] is invisible from now on. *)
Lemma lazy_remove_run k w :
  ∃ r w', remove_if k is_expired w = (Val r, w') ∧ ext w w' ∧
    same_from (wnow w) (wmap w) (wmap w') ∧ shrinks (wmap w) (wmap w').
Proof.
  unfold remove_if. change (get_map w) with (Val (wmap w), w).
  rewrite (st_bind_val get_map _ w (wmap w) w) by done.
  destruct (dm_get (wmap w) k) as [e|] eqn:He.
  - check_expiry e w. destruct (is_expired_at e (wnow w)) eqn:Hx.
    + exists (Some e), (with_map (dm_remove (wmap w) k) w0).
      split_and!; [done | | simpl | simpl].
      * etrans; [done|]. apply ext_with_map.
      * by eapply same_from_remove_expired.
      * apply shrinks_remove.
    + exists None, w0. rewrite Heng. by split_and!.
  - exists None, w. by split_and!.
Qed.

(** The shape shared by [get], [exists], [ttl_secs] and [expire]: look the key up,
    drop it if it has expired, otherwise go on with the entry. *)
Lemma live_lookup_run {A} k (absent : A) (found : M → ValueEntry → ST EW A) w :
  let prog : ST EW A :=
    m ← get_map;
    match dm_get m k with
    | None => mret absent
    | Some e =>
        b ← is_expired e;
        if (b : bool) then remove_if k is_expired;; mret absent else found m e
    end in
  match sees (wmap w) (wnow w) k with
  | Some e => ∃ w', prog w = found (wmap w) e w' ∧ ext w w' ∧ eng w' = eng w
  | None =>
      ∃ w', prog w = (Val absent, w') ∧ ext w w' ∧
        same_from (wnow w) (wmap w) (wmap w') ∧ shrinks (wmap w) (wmap w')
  end.
Proof.
  cbv zeta. rewrite (st_bind_val get_map _ w (wmap w) w) by done.
  unfold sees. destruct (dm_get (wmap w) k) as [e|] eqn:He.
  - check_expiry e w. destruct (is_expired_at e (wnow w)) eqn:Hx.
    + destruct (lazy_remove_run k w0) as (r & w' & E & Hext' & Hsame & Hsh).
      exists w'. rewrite (st_bind_val _ _ _ _ _ E). rewrite Heng in *.
      split_and!; [done | by etrans | | done].
      (* the removal looked at the clock later, but the entry was already expired *)
      intros t' k' Ht. destruct (decide (k = k')) as [<-|Hne].
      * unfold sees at 1. rewrite He, (is_expired_at_mono e (wnow w) t') by done.
        unfold sees. destruct (Hsh k) as [-> | ->]; [|done].
        by rewrite He, (is_expired_at_mono e (wnow w) t').
      * unfold sees. by rewrite (remove_if_other k k' w0 r w' E Hne), Heng.
    + exists w0. by split_and!.
  - exists w. by split_and!.
Qed.

(** An operation that is invisible to clients from the instant of its first clock
    reading on and only drops entries. *)
Definition quiet w w' : Prop :=
  ext w w' ∧ same_from (wnow w) (wmap w) (wmap w') ∧ shrinks (wmap w) (wmap w').

Lemma quiet_eng w w' : ext w w' → eng w' = eng w → quiet w w'.
Proof. intros Hext Heng. split; [done|]. by rewrite Heng. Qed.

Lemma get_run k w :
  ∃ w', get k w = (Val (Ok (sees (wmap w) (wnow w) k)), w') ∧ quiet w w'.
Proof.
  pose proof (live_lookup_run k (Ok None : result _ EngineError) (λ _ e, mret (Ok (Some e))) w) as Hl.
  destruct (sees (wmap w) (wnow w) k) as [e|]; destruct Hl as (w' & E & Hext & Hrest);
    exists w'; (split; [exact E |]); [by apply quiet_eng | by split].
Qed.

Lemma exists_run k w :
  ∃ w', exists_ k w = (Val (bool_decide (is_Some (sees (wmap w) (wnow w) k))), w') ∧ quiet w w'.
Proof.
  pose proof (live_lookup_run k false (λ _ _, mret true) w) as Hl.
  destruct (sees (wmap w) (wnow w) k) as [e|]; destruct Hl as (w' & E & Hext & Hrest);
    exists w'; (split; [exact E |]); [by apply quiet_eng | by split].
Qed.

(** The answer of [ttl_secs] for the entry seen and the instant of the second reading. *)
Definition ttl_answer (o : option ValueEntry) t : Z :=
  match o with
  | None => -2
  | Some e =>
      match expires_at e with
      | None => -1
      | Some exp => if exp <=? t then -2 else i64 (as_secs (exp - t))
      end
  end.

Lemma ttl_secs_run k w :
  ∃ w' t, ttl_secs k w = (Val (ttl_answer (sees (wmap w) (wnow w) k) t), w') ∧ quiet w w' ∧
    wnow w ≤ t ≤ wnow w'.
Proof.
  pose proof (live_lookup_run k (-2) (λ _ e,
    match expires_at e with
    | Some exp => t ← now; mret (if exp <=? t then -2 else i64 (as_secs (instant_sub exp t)))
    | None => mret (-1)
    end) w) as Hl.
  destruct (sees (wmap w) (wnow w) k) as [e|] eqn:Es; destruct Hl as (w' & E & Hext & Hrest).
  - unfold ttl_answer. destruct (expires_at e) as [exp|] eqn:Hexp.
    + exists (bump w'), (wnow w'). split_and!.
      * etrans; [exact E|]. unfold now, mbind, st_bind, mret, st_ret. simpl.
        f_equal. f_equal. destruct (Z.leb_spec exp (wnow w')); [done|].
        unfold instant_sub. by rewrite Z.max_r by lia.
      * apply quiet_eng; [|done]. etrans; [done | apply ext_bump].
      * by apply ext_now.
      * apply ext_now, ext_bump.
    + exists w', (wnow w). split_and!; [exact E | by apply quiet_eng | lia | by apply ext_now].
  - exists w', (wnow w). split_and!; [exact E | by split | lia | by apply ext_now].
Qed.

(** [expire] on a visible key: the deadline is [seconds] after a later reading of the clock, or
    the addition overflows and the call panics with the store untouched. *)
Lemma expire_run k secs w :
  match sees (wmap w) (wnow w) k with
  | None => ∃ w', expire k secs w = (Val false, w') ∧ quiet w w'
  | Some e =>
      ∃ w' t, wnow w ≤ t ≤ wnow w' ∧ ext w w' ∧
        match instant_add t (from_secs secs) with
        | Panic => expire k secs w = (Panic, w') ∧ eng w' = eng w
        | Stuck => False
        | Val exp =>
            expire k secs w = (Val true, w') ∧
            wmap w' = dm_insert (wmap w) k
              {| data := data e; expires_at := Some exp; created_at := created_at e |}
        end
  end.
Proof.
  pose proof (live_lookup_run k false (λ m e,
    t ← now;
    exp ← lift_outcome (instant_add t (from_secs secs));
    put_map (dm_insert m k
      {| data := data e; expires_at := Some exp; created_at := created_at e |});;
    mret true) w) as Hl.
  destruct (sees (wmap w) (wnow w) k) as [e|] eqn:Es; destruct Hl as (w' & E & Hext & Hrest).
  - assert (expire k secs w = _) as -> by exact E. clear E.
    unfold now, mbind, st_bind, lift_outcome. simpl.
    destruct (instant_add (wnow w') (from_secs secs)) as [exp| |] eqn:Ea.
    + exists (with_map (dm_insert (wmap w) k
        {| data := data e; expires_at := Some exp; created_at := created_at e |}) (bump w')).
      exists (wnow w'). rewrite Ea. split_and!; try done.
      * by apply ext_now.
      * apply (ext_now w' (bump w')), ext_bump.
      * etrans; [done|]. etrans; [apply ext_bump | apply ext_with_map].
    + exists (bump w'), (wnow w'). rewrite Ea. split_and!; try done.
      * by apply ext_now.
      * apply ext_now, ext_bump.
      * etrans; [done | apply ext_bump].
    + unfold instant_add in Ea. case_match; done.
  - exists w'. split; [exact E | by split].
Qed.

(** [del] reports a visible key and makes it absent; other keys are untouched. *)
Lemma del_run k w :
  ∃ w', del k w = (Val (Ok (bool_decide (is_Some (sees (wmap w) (wnow w) k)))), w') ∧
    ext w w' ∧ shrinks (wmap w) (wmap w') ∧
    (∀ t k', wnow w ≤ t →
       sees (wmap w') t k' = if decide (k = k') then None else sees (wmap w) t k').
Proof.
  unfold del, remove_if. unfold mbind at 1. unfold st_bind at 1.
  rewrite (st_bind_val get_map _ w (wmap w) w) by done.
  destruct (dm_get (wmap w) k) as [e|] eqn:He.
  - unfold mbind at 1. unfold st_bind at 1. unfold mbind at 1. unfold st_bind at 1.
    destruct (is_expired_run e w) as (w0 & E & Hext & Heng). rewrite E.
    destruct (is_expired_at e (wnow w)) eqn:Hx; cbn.
    + assert (sees (wmap w) (wnow w) k = None) as -> by (unfold sees; by rewrite He, Hx).
      exists w0. rewrite Heng. split_and!; [done..|]. intros t k' Ht. case_decide; [subst|done].
      unfold sees. by rewrite He, (is_expired_at_mono e (wnow w)).
    + assert (sees (wmap w) (wnow w) k = Some e) as -> by (unfold sees; by rewrite He, Hx).
      exists (with_map (dm_remove (wmap w) k) w0). split_and!.
      * done.
      * etrans; [done | apply ext_with_map].
      * apply shrinks_remove.
      * intros t k' Ht. apply sees_remove.
  - assert (sees (wmap w) (wnow w) k = None) as -> by (unfold sees; by rewrite He).
    exists w. split_and!; [done..|]. intros t k' Ht. case_decide; [subst|done].
    unfold sees. by rewrite He.
Qed.

Lemma keys_run w :
  keys w = (Val (omap (λ '(k, e), if negb (is_expired_at e (wnow w)) then Some k else None)
                   (dm_iter (wmap w))), bump w).
Proof. done. Qed.

Lemma mget_run ks w : mget ks w = (Val (sees (wmap w) (wnow w) <$> ks), bump w).
Proof. reflexivity. Qed.

Lemma len_run w : len w = (Val (dm_len (wmap w)), w).
Proof. done. Qed.

Lemma clear_run w : clear w = (Val tt, with_map dm_new w).
Proof. done. Qed.
End facts.
