(* ===== verification/EvictFacts.v ===== *)
(** Eviction, [set], [incr], the sweeper and [dump_entries] of the DashMap engine. *)

From S2P Require Import Prelude RustStd Crates Domain Metrics World Engine EngineFacts.

(** The live entries the eviction loop looks at, [n] of them seen already. *)
Definition sample (t : Instant) (n : nat) (l : list (bytes * ValueEntry)) :
    list (bytes * ValueEntry) :=
  take (5 - n) (filter (λ ke, is_expired_at ke.2 t = false) l).

Definition opt_instant_le (a b : option Instant) : Prop := opt_instant_lt b a = false.

Lemma opt_instant_le_trans a b c :
  opt_instant_le a b → opt_instant_le b c → opt_instant_le a c.
Proof. unfold opt_instant_le. destruct a, b, c; simpl; try done; lia. Qed.

Lemma opt_instant_le_refl a : opt_instant_le a a.
Proof. unfold opt_instant_le. destruct a; simpl; [lia | done]. Qed.

Lemma opt_instant_lt_le a b : opt_instant_lt a b = true → opt_instant_le a b.
Proof. unfold opt_instant_le. destruct a, b; simpl; try done. lia. Qed.

Lemma sample_live t n l k e : (k, e) ∈ sample t n l → (k, e) ∈ l ∧ is_expired_at e t = false.
Proof.
  unfold sample. intros Hin. apply elem_of_take in Hin as (i & Hi & _).
  apply list_elem_of_lookup_2, list_elem_of_filter in Hi. naive_solver.
Qed.

Lemma sample_cons_live t n k e l :
  is_expired_at e t = false → (n < 5)%nat →
  sample t n ((k, e) :: l) = (k, e) :: sample t (S n) l.
Proof.
  intros He Hn. unfold sample. rewrite filter_cons. simpl. rewrite decide_True by done.
  by replace (5 - n)%nat with (S (5 - S n)) by lia.
Qed.

Lemma sample_cons_expired t n k e l :
  is_expired_at e t = true → sample t n ((k, e) :: l) = sample t n l.
Proof. intros He. unfold sample. rewrite filter_cons. simpl. rewrite He. by case_decide. Qed.

(** With a candidate in hand, the scan ends with a candidate no younger than every
    sampled entry. *)
Lemma evict_scan_some t l k0 t0 n :
  (n < 5)%nat →
  ∃ k ct, evict_scan t l (Some k0) t0 n = Some k ∧
    ((k = k0 ∧ ct = t0) ∨ ∃ e, (k, e) ∈ sample t n l ∧ created_at e = ct) ∧
    opt_instant_le ct t0 ∧
    ∀ k' e', (k', e') ∈ sample t n l → opt_instant_le ct (created_at e').
Proof.
  revert k0 t0 n; induction l as [|[k e] l IH]; intros k0 t0 n Hn.
  { exists k0, t0. split_and!; auto using opt_instant_le_refl.
    intros k' e' Hin. apply sample_live in Hin as [Hin _]. by apply not_elem_of_nil in Hin. }
  cbn [evict_scan]. destruct (is_expired_at e t) eqn:He.
  { rewrite (sample_cons_expired t n k e l He). by apply IH. }
  rewrite (sample_cons_live t n k e l He Hn). rewrite bool_decide_eq_false_2 by done.
  cbn [orb]. setoid_rewrite elem_of_cons.
  set (cand := if opt_instant_lt (created_at e) t0 then (Some k, created_at e) else (Some k0, t0)).
  assert (∃ k1 t1, cand = (Some k1, t1) ∧
    ((k1 = k0 ∧ t1 = t0) ∨ (k1 = k ∧ t1 = created_at e)) ∧
    opt_instant_le t1 t0 ∧ opt_instant_le t1 (created_at e)) as (k1 & t1 & -> & Hc & Hle & Hle').
  { unfold cand. destruct (opt_instant_lt (created_at e) t0) eqn:Hlt.
    - exists k, (created_at e). split_and!; auto using opt_instant_le_refl, opt_instant_lt_le.
    - exists k0, t0. split_and!; auto using opt_instant_le_refl. }
  destruct (Nat.leb_spec 5 (S n)).
  - exists k1, t1. assert (sample t (S n) l = []) as Hnil.
    { unfold sample. by replace (5 - S n)%nat with 0%nat by lia. }
    rewrite Hnil. split_and!; [done | naive_solver | done |].
    intros k' e' [[= -> ->]|Hin]; [done|]. by apply not_elem_of_nil in Hin.
  - destruct (IH k1 t1 (S n)) as (k2 & ct & Hs & Hfrom & Hle2 & Hall); [lia|].
    exists k2, ct. split_and!; [done | | by eapply opt_instant_le_trans |].
    + destruct Hfrom as [[-> ->]|(e2 & Hin & <-)]; naive_solver.
    + intros k' e' [[= -> ->]|Hin]; [by eapply opt_instant_le_trans | by eapply Hall].
Qed.

(** From an empty hand: nothing if no entry is live, else an oldest sampled entry. *)
Lemma evict_scan_oldest t l :
  match evict_scan t l None None 0 with
  | None => ∀ k e, (k, e) ∈ l → is_expired_at e t = true
  | Some k =>
      ∃ e, (k, e) ∈ sample t 0 l ∧
        ∀ k' e', (k', e') ∈ sample t 0 l → opt_instant_le (created_at e) (created_at e')
  end.
Proof.
  induction l as [|[k e] l IH].
  { intros k e Hin. by apply not_elem_of_nil in Hin. }
  cbn [evict_scan]. destruct (is_expired_at e t) eqn:He.
  { rewrite (sample_cons_expired t 0 k e l He). destruct (evict_scan t l None None 0); [done|].
    intros k' e' [[= -> ->]|Hin]%elem_of_cons; [done | by eapply IH]. }
  rewrite (sample_cons_live t 0 k e l He) by lia.
  rewrite bool_decide_eq_true_2 by done. cbn [orb]. change (5 <=? 1)%nat with false. cbv iota.
  destruct (evict_scan_some t l k (created_at e) 1) as (k2 & ct & -> & Hfrom & Hle & Hall); [lia|].
  setoid_rewrite elem_of_cons.
  destruct Hfrom as [[-> ->]|(e2 & Hin & <-)].
  - exists e. split; [by left|]. intros k' e' [[= -> ->]|Hin'];
      [apply opt_instant_le_refl | by eapply Hall].
  - exists e2. split; [by right|]. intros k' e' [[= -> ->]|Hin']; [done | by eapply Hall].
Qed.

Section facts.
Context {M : Type} {DM : DashMap bytes ValueEntry M} {CL : Clock} {IT : Itoa}.
Abbreviation EW := (World (DashMapEngine M)).
Implicit Types (w : EW) (m : M) (k : bytes) (t : Instant).
Abbreviation wmap w := (emap (eng w)).
Abbreviation wnow w := (clk (tick w)).

Lemma sees_iter m t k e :
  sees m t k = Some e ↔ (k, e) ∈ dm_iter m ∧ is_expired_at e t = false.
Proof.
  unfold sees. rewrite dm_iter_get. destruct (dm_get m k) as [e'|]; [|naive_solver].
  destruct (is_expired_at e' t) eqn:Hx; split; [naive_solver | | naive_solver..].
  intros [[= ->] ?]. congruence.
Qed.

Lemma dm_contains_key_sees m t k e : sees m t k = Some e → dm_contains_key m k = true.
Proof.
  unfold sees. intros H. apply bool_decide_eq_true. destruct (dm_get m k); [eauto | done].
Qed.

(** Full and limited: the condition under which [evict_one_if_needed] evicts. *)
Definition full w : Prop := max_keys (eng w) ≠ 0 ∧ max_keys (eng w) ≤ dm_len (wmap w).

(** The entry [k] ↦ [e] is among the live entries sampled and none of them is older. *)
Definition oldest_sampled w k (e : ValueEntry) : Prop :=
  let l := sample (wnow w) 0 (dm_iter (wmap w)) in
  (k, e) ∈ l ∧ ∀ k' e', (k', e') ∈ l → opt_instant_le (created_at e) (created_at e').

Lemma oldest_sampled_sees w k e :
  oldest_sampled w k e → sees (wmap w) (wnow w) k = Some e.
Proof. intros [Hin _]. by apply sees_iter, (sample_live _ 0). Qed.

(** One oldest sampled live entry goes, if there is a live entry. *)
Lemma evict_run w :
  ∃ w', evict_one_if_needed w = (Val tt, w') ∧ ext w w' ∧ shrinks (wmap w) (wmap w') ∧
    ((¬ full w ∧ wmap w' = wmap w) ∨
     (full w ∧ wmap w' = wmap w ∧ ∀ k, sees (wmap w) (wnow w) k = None) ∨
     (full w ∧ ∃ k e, wmap w' = dm_remove (wmap w) k ∧ oldest_sampled w k e)).
Proof.
  unfold evict_one_if_needed, full.
  rewrite (st_bind_val get_max_keys _ w (max_keys (eng w)) w) by done.
  rewrite (st_bind_val get_map _ w (wmap w) w) by done.
  destruct (Z.eqb_spec (max_keys (eng w)) 0); cbn [orb].
  { exists w. split_and!; try done. left. split; [|done]. lia. }
  destruct (Z.ltb_spec (dm_len (wmap w)) (max_keys (eng w))).
  { exists w. split_and!; try done. left. split; [|done]. lia. }
  rewrite (st_bind_val now _ w (wnow w) (bump w)) by done.
  pose proof (evict_scan_oldest (wnow w) (dm_iter (wmap w))) as Hsc.
  destruct (evict_scan _ _ None None 0) as [k|].
  - destruct Hsc as (e & Hin & Hold). exists (with_map (dm_remove (wmap w) k) (bump w)). split_and!.
    + done.
    + etrans; [apply ext_bump | apply ext_with_map].
    + apply shrinks_remove.
    + right; right. split; [lia|]. by exists k, e.
  - exists (bump w). split_and!; [done | apply ext_bump | done |].
    right; left. split_and!; [done | lia | done |]. intros k.
    destruct (sees (wmap w) (wnow w) k) as [e|] eqn:Es; [|done].
    apply sees_iter in Es as [Hin Hx]. rewrite (Hsc k e Hin) in Hx. done.
Qed.

(** The room check shared by [set] and [incr] on an absent key: evict, then see whether
    there is room. *)
Definition make_room (mk : Z) : ST EW (result () EngineError) :=
  evict_one_if_needed;;
  m ← get_map;
  mret (if mk <=? dm_len m then Err EngOutOfMemory else Ok tt).

Lemma make_room_run w :
  ∃ w' r, make_room (max_keys (eng w)) w = (Val r, w') ∧ ext w w' ∧ shrinks (wmap w) (wmap w') ∧
    (r = Ok tt ∧ dm_len (wmap w') < max_keys (eng w) ∨
     r = Err EngOutOfMemory ∧ max_keys (eng w) ≤ dm_len (wmap w')).
Proof.
  destruct (evict_run w) as (w' & E & Hext & Hsh & _).
  unfold make_room. rewrite (st_bind_val _ _ _ _ _ E).
  rewrite (st_bind_val get_map _ w' (wmap w') w') by done.
  eexists w', _. split; [reflexivity|]. split_and!; [done..|].
  destruct (Z.leb_spec (max_keys (eng w)) (dm_len (wmap w'))); auto.
Qed.

(** [set]: the entry is stored, other keys are at most evicted (only for a new key in a
    limited store), or the store is full and nothing is stored. *)
Lemma set_run k v w :
  ∃ w' r, set k v w = (Val r, w') ∧ ext w w' ∧
    match r with
    | Ok _ =>
        ∃ m0, wmap w' = dm_insert m0 k v ∧ shrinks (wmap w) m0 ∧
          (0 < max_keys (eng w) ∧ dm_contains_key (wmap w) k = false ∧
             dm_len m0 < max_keys (eng w) ∨
           m0 = wmap w ∧ (max_keys (eng w) ≤ 0 ∨ dm_contains_key (wmap w) k = true))
    | Err e =>
        e = EngOutOfMemory ∧ 0 < max_keys (eng w) ∧ dm_contains_key (wmap w) k = false ∧
        shrinks (wmap w) (wmap w') ∧ max_keys (eng w) ≤ dm_len (wmap w')
    end.
Proof.
  unfold set. rewrite (st_bind_val get_max_keys _ w (max_keys (eng w)) w) by done.
  rewrite (st_bind_val get_map _ w (wmap w) w) by done.
  destruct ((0 <? max_keys (eng w)) && negb (dm_contains_key (wmap w) k)) eqn:Hc.
  - destruct (make_room_run w) as (w1 & r & E & Hext & Hsh & Hr).
    rewrite (st_bind_val (make_room (max_keys (eng w))) _ _ _ _ E).
    destruct Hr as [[-> Hr]|[-> Hr]].
    + rewrite (st_bind_val get_map _ w1 (wmap w1) w1) by done.
      exists (with_map (dm_insert (wmap w1) k v) w1), (Ok tt). split_and!; [done | |].
      * etrans; [done | apply ext_with_map].
      * exists (wmap w1). split_and!; [done..|]. left.
        destruct (dm_contains_key (wmap w) k); lia.
    + exists w1, (Err EngOutOfMemory). split_and!; try done;
        destruct (dm_contains_key (wmap w) k); lia || done.
  - rewrite (st_bind_val (mret (Ok tt)) _ w (Ok tt) w) by done.
    exists (with_map (dm_insert (wmap w) k v) w), (Ok tt). split_and!; [done.. |].
    exists (wmap w). split_and!; [done..|]. right. split; [done|].
    destruct (dm_contains_key (wmap w) k); [by right|]. left. lia.
Qed.

(** * [incr] *)

(** The number an entry holds, as [incr] reads it. *)
Definition int_of (e : ValueEntry) : option Z := parse_i64 (from_utf8_lossy (data e)).

(** The entry [incr] stores for a key that was not visible. *)
Definition fresh_one t : ValueEntry :=
  {| data := str "1"; expires_at := None; created_at := Some t |}.

(** On a visible key: the number plus one, wrapped to [i64]; the deadline stays. *)
Lemma incr_seen_run k e w :
  sees (wmap w) (wnow w) k = Some e →
  ∃ w', ext w w' ∧
    match int_of e with
    | Some n =>
        incr k w = (Val (Ok (i64 (n + 1))), w') ∧
        wmap w' = dm_insert (wmap w) k
          {| data := itoa_format (i64 (n + 1)); expires_at := expires_at e;
             created_at := created_at e |}
    | None => incr k w = (Val (Err (EngNotAnInteger k)), w') ∧ eng w' = eng w
    end.
Proof.
  intros Hs. unfold sees in Hs. destruct (dm_get (wmap w) k) as [e'|] eqn:He; [|done].
  destruct (is_expired_at e' (wnow w)) eqn:Hx; simplify_eq.
  unfold incr. rewrite (st_bind_val get_max_keys _ w (max_keys (eng w)) w) by done.
  rewrite (st_bind_val get_map _ w (wmap w) w) by done. rewrite He.
  destruct (is_expired_run e w) as (w1 & E & Hext & Heng).
  rewrite (st_bind_val _ _ _ _ _ E), Hx. unfold int_of.
  destruct (parse_i64 (from_utf8_lossy (data e))) as [n|].
  - eexists. split; [|split; [reflexivity|]].
    + etrans; [done | apply ext_with_map].
    + done.
  - exists w1. by split_and!.
Qed.

(** Where [incr] would take every lock while holding its entry's: an absent key in a
    limited store. *)
Definition incr_blocks k w : Prop :=
  dm_reentrant = false ∧ 0 < max_keys (eng w) ∧ dm_get (wmap w) k = None.

(** The room check of [incr] on a vacant entry. *)
Lemma vacant_room_run k w :
  let mk := max_keys (eng w) in
  let pre : ST EW (result () EngineError) :=
    if 0 <? mk then
      under_guard (if mk <=? dm_len (wmap w) then make_room mk else mret (Ok tt))
    else mret (Ok tt) in
  dm_get (wmap w) k = None →
  (incr_blocks k w ∧ pre w = (Stuck, w)) ∨
  ∃ w1 r, pre w = (Val r, w1) ∧ ext w w1 ∧ shrinks (wmap w) (wmap w1) ∧
    (mk ≤ 0 → wmap w1 = wmap w) ∧
    (r = Ok tt ∧ (0 < mk → dm_len (wmap w1) < mk) ∨
     r = Err EngOutOfMemory ∧ 0 < mk ≤ dm_len (wmap w1)).
Proof.
  intros mk pre He. unfold pre. destruct (Z.ltb_spec 0 mk) as [Hmk|Hmk].
  - unfold under_guard, incr_blocks. destruct dm_reentrant; [right | by left].
    destruct (Z.leb_spec mk (dm_len (wmap w))).
    + destruct (make_room_run w) as (w1 & r & E & Hext & Hsh & Hr). exists w1, r.
      split_and!; [done..|lia|].
      destruct Hr as [[-> ?]|[-> ?]]; [left | right]; split; done || lia.
    + exists w, (Ok tt). split_and!; try done. left. split; [done | lia].
  - right. exists w, (Ok tt). split_and!; try done. left. split; [done | lia].
Qed.

(** On a key that is not visible: stored as 1, unless a limited store has no room or the
    room check deadlocks. *)
Lemma incr_unseen_run k w :
  sees (wmap w) (wnow w) k = None →
  (incr_blocks k w ∧ incr k w = (Stuck, w)) ∨
  ∃ w' r, incr k w = (Val r, w') ∧ ext w w' ∧
    match r with
    | Ok n =>
        n = 1 ∧ ∃ m0 t, wmap w' = dm_insert m0 k (fresh_one t) ∧ shrinks (wmap w) m0 ∧
          (0 < max_keys (eng w) → dm_len m0 < max_keys (eng w)) ∧
          (max_keys (eng w) ≤ 0 → ∀ k', k' ≠ k → dm_get m0 k' = dm_get (wmap w) k')
    | Err e =>
        e = EngOutOfMemory ∧ 0 < max_keys (eng w) ∧
        shrinks (wmap w) (wmap w') ∧ max_keys (eng w) ≤ dm_len (wmap w')
    end.
Proof.
  intros Hs. unfold sees in Hs. unfold incr.
  rewrite (st_bind_val get_max_keys _ w (max_keys (eng w)) w) by done.
  rewrite (st_bind_val get_map _ w (wmap w) w) by done.
  destruct (dm_get (wmap w) k) as [e|] eqn:He.
  - right. destruct (is_expired_at e (wnow w)) eqn:Hx; [|done].
    destruct (is_expired_run e w) as (w1 & E & Hext & Heng).
    rewrite (st_bind_val _ _ _ _ _ E), Hx.
    set (w2 := with_map (dm_remove (wmap w) k) w1).
    rewrite (st_bind_val (put_map _) _ w1 tt w2) by done.
    rewrite (st_bind_val get_map _ w2 (dm_remove (wmap w) k) w2) by done.
    assert (ext w w2) by (etrans; [done | apply ext_with_map]).
    destruct ((0 <? max_keys (eng w)) &&
      (max_keys (eng w) <=? dm_len (dm_remove (wmap w) k))) eqn:Hc.
    + exists w2, (Err EngOutOfMemory). split_and!; try done; [lia | apply shrinks_remove |].
      simpl. lia.
    + exists (with_map (dm_insert (dm_remove (wmap w) k) k (fresh_one (wnow w2))) (bump w2)), (Ok 1).
      split_and!; [done | |done|].
      * etrans; [done|]. etrans; [apply ext_bump | apply ext_with_map].
      * exists (dm_remove (wmap w) k), (wnow w2).
        split_and!; [done | apply shrinks_remove | lia |].
        intros _ k' Hne. by rewrite dm_get_remove_ne.
  - destruct (vacant_room_run k w He) as [[Hb E]|(w1 & r & E & Hext & Hsh & Hm & Hr)].
    { left. split; [done|]. exact (st_bind_stuck _ _ _ _ E). }
    right. unfold make_room in E. rewrite (st_bind_val _ _ _ _ _ E).
    destruct Hr as [[-> Hr]|[-> Hr]].
    + exists (with_map (dm_insert (wmap w1) k (fresh_one (wnow w1))) (bump w1)), (Ok 1).
      split_and!; [done | |done|].
      * etrans; [done|]. etrans; [apply ext_bump | apply ext_with_map].
      * exists (wmap w1), (wnow w1). split_and!; [done..|]. intros Hz k' _. by rewrite Hm.
    + exists w1, (Err EngOutOfMemory). split_and!; done || lia.
Qed.

(** * Sweeping and dumping *)

Abbreviation keep_live := (λ v, b ← is_expired v; mret (negb b)).

(** The loop of [retain] over entries that are in the map: what it drops had expired by
    then, and what was already expired at the start goes. *)
Lemma retain_live_run l w :
  NoDup l.*1 → (∀ k e, (k, e) ∈ l → dm_get (wmap w) k = Some e) →
  ∃ w', retain_loop l keep_live w = (Val tt, w') ∧ ext w w' ∧ shrinks (wmap w) (wmap w') ∧
    same_from (wnow w') (wmap w) (wmap w') ∧
    (∀ k e, (k, e) ∈ l → is_expired_at e (wnow w) = true → dm_get (wmap w') k = None).
Proof.
  revert w; induction l as [|[k e] l IH]; intros w Hnd Hin.
  { exists w. split_and!; try done. intros k e Hx. by apply not_elem_of_nil in Hx. }
  apply NoDup_cons in Hnd as [Hk Hnd]. cbn [retain_loop fst] in *.
  assert (dm_get (wmap w) k = Some e) as He by (apply Hin; left).
  destruct (is_expired_run e w) as (w1 & E & Hext & Heng).
  rewrite (st_bind_val _ _ w (negb (is_expired_at e (wnow w))) w1)
    by (by rewrite (st_bind_val _ _ _ _ _ E)).
  assert (∃ w2, (if negb (is_expired_at e (wnow w)) then mret tt
      else m ← get_map; put_map (dm_remove m k)) w1 = (Val tt, w2) ∧ ext w w2 ∧
      shrinks (wmap w) (wmap w2) ∧ same_from (wnow w) (wmap w) (wmap w2) ∧
      (∀ k', k' ≠ k → dm_get (wmap w2) k' = dm_get (wmap w) k') ∧
      (is_expired_at e (wnow w) = true → dm_get (wmap w2) k = None))
    as (w2 & E2 & Hext2 & Hsh2 & Hs2 & Hne2 & Hx2).
  { destruct (is_expired_at e (wnow w)) eqn:Hx; cbn [negb].
    - exists (with_map (dm_remove (wmap w) k) w1).
      assert (emap (eng (with_map (dm_remove (wmap w) k) w1)) = dm_remove (wmap w) k) as -> by done.
      split_and!; [by rewrite <- Heng | etrans; [done | apply ext_with_map] |
        apply shrinks_remove | by eapply same_from_remove_expired | |].
      + intros k' ?. by rewrite dm_get_remove_ne.
      + intros _. apply dm_get_remove_eq.
    - exists w1. rewrite Heng. by split_and!. }
  rewrite (st_bind_val _ _ _ _ _ E2).
  destruct (IH w2) as (w' & E' & Hext' & Hsh' & Hs' & Hx'); [done | |].
  { intros k' e' Hin'. rewrite Hne2; [apply Hin; by right|].
    intros ->. apply Hk, list_elem_of_fmap. by exists (k, e'). }
  exists w'. split_and!; [done | by etrans | by etrans | |].
  - etrans; [|done]. eapply same_from_weaken; [|done]. apply ext_now. by etrans.
  - intros k' e' [[= -> ->]|Hin']%elem_of_cons Hexp.
    + destruct (Hsh' k) as [-> |]; auto.
    + apply (Hx' k' e'); [done|]. eapply is_expired_at_mono; [|done]. by apply ext_now.
Qed.

Lemma sweep_run w :
  ∃ w', sweep_expired w = (Val tt, w') ∧ ext w w' ∧ shrinks (wmap w) (wmap w') ∧
    same_from (wnow w') (wmap w) (wmap w') ∧
    (∀ k e, dm_get (wmap w') k = Some e → is_expired_at e (wnow w) = false).
Proof.
  destruct (retain_live_run (dm_iter (wmap w)) w) as (w' & E & Hext & Hsh & Hs & Hx).
  { apply dm_iter_nodup. }
  { intros k e. apply dm_iter_get. }
  exists w'. split_and!; try done. intros k e He.
  destruct (is_expired_at e (wnow w)) eqn:Hexp; [|done].
  assert (dm_get (wmap w) k = Some e) by (destruct (Hsh k); congruence).
  rewrite (Hx k e) in He; [done | by apply dm_iter_get | done].
Qed.
End facts.
