(* ===== verification/StoreSpec.v ===== *)
(** What the storage engine promises: a map whose entries become invisible at
    their deadline.  Every operation of the engine is one step of this abstract
    store, taken at clock readings between its start and its end; the DashMap engine
    without a key limit refines it. *)

From S2P Require Import Prelude RustStd Crates Domain Metrics World Engine EngineFacts EvictFacts.

(** * Operations and observations *)

Inductive Op : Type :=
| OpGet (k : bytes)
| OpSet (k : bytes) (e : ValueEntry)
| OpDel (k : bytes)
| OpIncr (k : bytes)
| OpLen
| OpExists (k : bytes)
| OpTtl (k : bytes)
| OpExpire (k : bytes) (secs : Z)
| OpClear
| OpKeys
| OpMget (ks : list bytes)
| OpSweep.

Inductive Obs : Type :=
| ObsGet (r : result (option ValueEntry) EngineError)
| ObsSet (r : result () EngineError)
| ObsDel (r : result bool EngineError)
| ObsIncr (r : result Z EngineError)
| ObsInt (n : Z)
| ObsBool (b : bool)
| ObsUnit
| ObsKeys (ks : list bytes)
| ObsMget (l : list (option ValueEntry))
| ObsPanic
| ObsStuck.

(** * The abstract store *)

Abbreviation Store := (gmap bytes ValueEntry).

Definition seen (a : Store) (t : Instant) (k : bytes) : option ValueEntry :=
  match a !! k with
  | Some e => if is_expired_at e t then None else Some e
  | None => None
  end.

(** The entry with its data or its deadline replaced. *)
Definition set_data (d : bytes) (e : ValueEntry) : ValueEntry :=
  {| data := d; expires_at := expires_at e; created_at := created_at e |}.
Definition set_deadline (exp : Instant) (e : ValueEntry) : ValueEntry :=
  {| data := data e; expires_at := Some exp; created_at := created_at e |}.

(** One operation, its clock readings between [t1] and [t2]. *)
Inductive astep (t1 t2 : Instant) (a : Store) : Op → Obs → Store → Prop :=
| A_get k t : t1 ≤ t ≤ t2 → astep t1 t2 a (OpGet k) (ObsGet (Ok (seen a t k))) a
| A_set k e : astep t1 t2 a (OpSet k e) (ObsSet (Ok tt)) (<[k := e]> a)
| A_del k t :
    t1 ≤ t ≤ t2 →
    astep t1 t2 a (OpDel k) (ObsDel (Ok (bool_decide (is_Some (seen a t k))))) (delete k a)
| A_incr_int k t e n :
    t1 ≤ t ≤ t2 → seen a t k = Some e → int_of e = Some n →
    astep t1 t2 a (OpIncr k) (ObsIncr (Ok (i64 (n + 1))))
      (<[k := set_data (display_i (i64 (n + 1))) e]> a)
| A_incr_other k t e :
    t1 ≤ t ≤ t2 → seen a t k = Some e → int_of e = None →
    astep t1 t2 a (OpIncr k) (ObsIncr (Err (EngNotAnInteger k))) a
| A_incr_new k t created :
    t1 ≤ t ≤ t2 → seen a t k = None →
    astep t1 t2 a (OpIncr k) (ObsIncr (Ok 1)) (<[k := fresh_one created]> a)
| A_len n :
    (* at least the live keys; entries that have expired may still be counted *)
    (∀ ks, NoDup ks → (∀ k, k ∈ ks → is_Some (seen a t2 k)) → Z.of_nat (length ks) ≤ n) →
    astep t1 t2 a OpLen (ObsInt n) a
| A_exists k t :
    t1 ≤ t ≤ t2 →
    astep t1 t2 a (OpExists k) (ObsBool (bool_decide (is_Some (seen a t k)))) a
| A_ttl k t t' :
    t1 ≤ t ≤ t2 → t1 ≤ t' ≤ t2 →
    astep t1 t2 a (OpTtl k) (ObsInt (ttl_answer (seen a t k) t')) a
| A_expire k s t t' e exp :
    t1 ≤ t ≤ t2 → t1 ≤ t' ≤ t2 → seen a t k = Some e →
    instant_add t' (from_secs s) = Val exp →
    astep t1 t2 a (OpExpire k s) (ObsBool true) (<[k := set_deadline exp e]> a)
| A_expire_overflow k s t' :
    t1 ≤ t' ≤ t2 → instant_add t' (from_secs s) = Panic →
    astep t1 t2 a (OpExpire k s) ObsPanic a
| A_expire_absent k s t :
    t1 ≤ t ≤ t2 → seen a t k = None → astep t1 t2 a (OpExpire k s) (ObsBool false) a
| A_clear : astep t1 t2 a OpClear ObsUnit ∅
| A_keys ks t :
    t1 ≤ t ≤ t2 → NoDup ks → (∀ k, k ∈ ks ↔ is_Some (seen a t k)) →
    astep t1 t2 a OpKeys (ObsKeys ks) a
| A_mget ks t : t1 ≤ t ≤ t2 → astep t1 t2 a (OpMget ks) (ObsMget (seen a t <$> ks)) a
| A_sweep : astep t1 t2 a OpSweep ObsUnit a.

(** A history: operations one after the other, in time order. *)
Inductive ahist : Instant → Store → list Op → list Obs → Instant → Store → Prop :=
| H_nil t a : ahist t a [] [] t a
| H_cons t1 t2 t3 a1 a2 a3 o obs ops l :
    astep t1 t2 a1 o obs a2 → ahist t2 a2 ops l t3 a3 →
    ahist t1 a1 (o :: ops) (obs :: l) t3 a3.

(** * Running the engine *)

Section run.
Context {M : Type} {DM : DashMap bytes ValueEntry M} {CL : Clock} {IT : Itoa}.
Abbreviation EW := (World (DashMapEngine M)).
Implicit Types (w : EW) (k : bytes) (t : Instant).
Abbreviation wmap w := (emap (eng w)).
Abbreviation wnow w := (clk (tick w)).

(** One call; a panic ends the caller's task and not the others'. *)
Definition run_op (o : Op) : ST EW Obs :=
  match o with
  | OpGet k => r ← kv_get k; mret (ObsGet r)
  | OpSet k e => r ← kv_set k e; mret (ObsSet r)
  | OpDel k => r ← kv_del k; mret (ObsDel r)
  | OpIncr k => r ← kv_incr k; mret (ObsIncr r)
  | OpLen => n ← kv_len; mret (ObsInt n)
  | OpExists k => b ← kv_exists k; mret (ObsBool b)
  | OpTtl k => n ← kv_ttl_secs k; mret (ObsInt n)
  | OpExpire k s => b ← kv_expire k s; mret (ObsBool b)
  | OpClear => kv_clear;; mret ObsUnit
  | OpKeys => ks ← kv_keys; mret (ObsKeys ks)
  | OpMget ks => l ← kv_mget ks; mret (ObsMget l)
  | OpSweep => sweep_expired;; mret ObsUnit
  end.

Definition exec_op (o : Op) w : Obs * EW :=
  match run_op o w with
  | (Val obs, w') => (obs, w')
  | (Panic, w') => (ObsPanic, w')
  | (Stuck, w') => (ObsStuck, w')
  end.

Fixpoint exec_ops (ops : list Op) w : list Obs * EW :=
  match ops with
  | [] => ([], w)
  | o :: ops =>
      let '(obs, w1) := exec_op o w in
      let '(l, w2) := exec_ops ops w1 in (obs :: l, w2)
  end.

(** The map and the abstract store show the same entries from now on. *)
Definition refines w (a : Store) : Prop :=
  ∀ t k, wnow w ≤ t → sees (wmap w) t k = seen a t k.

(** ** The two views agree after the same update *)

Lemma seen_insert a k e t k' :
  seen (<[k := e]> a) t k' =
  if decide (k = k') then (if is_expired_at e t then None else Some e) else seen a t k'.
Proof. unfold seen. rewrite lookup_insert. by case_decide. Qed.

Lemma seen_delete a k t k' :
  seen (delete k a) t k' = if decide (k = k') then None else seen a t k'.
Proof. unfold seen. rewrite lookup_delete. by case_decide. Qed.

Lemma refines_same w w' a :
  wnow w ≤ wnow w' → same_from (wnow w') (wmap w) (wmap w') → refines w a → refines w' a.
Proof. intros Ht Hs Hr t k Hle. rewrite <- Hs by done. apply Hr. lia. Qed.

Lemma refines_quiet w w' a : quiet w w' → refines w a → refines w' a.
Proof.
  intros (Hext & Hs & _) Hr. apply ext_now in Hext.
  eapply refines_same; [done | by eapply same_from_weaken | done].
Qed.

Lemma refines_insert w w' a m0 k e :
  wnow w ≤ wnow w' → wmap w' = dm_insert m0 k e →
  (∀ k', k' ≠ k → dm_get m0 k' = dm_get (wmap w) k') →
  refines w a → refines w' (<[k := e]> a).
Proof.
  intros Ht Hw Hm Hr t k' Hle. rewrite Hw, sees_insert, seen_insert. case_decide; [done|].
  unfold sees. rewrite Hm by done. apply Hr. lia.
Qed.
End run.
