(* ===== verification/EngineProps.v ===== *)
(** Correctness of the DashMap engine: refinement of the abstract store, the key
    limit, eviction, counters, expiry and the background sweep. *)

From S2P Require Import Prelude RustStd Crates Domain Metrics World Engine EngineFacts EvictFacts.
From S2P Require Import StoreSpec.

Section props.
Context {M : Type} {DM : DashMap bytes ValueEntry M} {CL : Clock} {IT : Itoa}.
Abbreviation EW := (World (DashMapEngine M)).
Implicit Types (w : EW) (k : bytes) (t : Instant).
Abbreviation wmap w := (emap (eng w)).
Abbreviation wnow w := (clk (tick w)).

(** ** Refinement *)

Lemma exec_op_val o w obs w' : run_op o w = (Val obs, w') → exec_op o w = (obs, w').
Proof. unfold exec_op. by intros ->. Qed.

(** An operation whose answer is [f (sees now)] and that changes nothing visible. *)
Lemma refine_read w w' a o obs :
  quiet w w' → refines w a → run_op o w = (Val obs, w') →
  (wnow w ≤ wnow w' → astep (wnow w) (wnow w') a o obs a) →
  ∃ obs w' a', exec_op o w = (obs, w') ∧ ext w w' ∧
    astep (wnow w) (wnow w') a o obs a' ∧ refines w' a'.
Proof.
  intros Hq Hr Hrun Hstep. exists obs, w', a. split_and!; [by apply exec_op_val | apply Hq | |].
  - apply Hstep. apply ext_now. apply Hq.
  - by eapply refines_quiet.
Qed.

(** A call inside [run_op] that returns. *)
Ltac run_val E := cbn; rewrite (st_bind_val _ _ _ _ _ E); reflexivity.

Lemma refine_incr k w a :
  max_keys (eng w) = 0 → refines w a →
  ∃ obs w' a', exec_op (OpIncr k) w = (obs, w') ∧ ext w w' ∧
    astep (wnow w) (wnow w') a (OpIncr k) obs a' ∧ refines w' a'.
Proof.
  intros Hmk Hr. assert (sees (wmap w) (wnow w) k = seen a (wnow w) k) as Hv by (apply Hr; lia).
  destruct (seen a (wnow w) k) as [e|] eqn:Es.
  - destruct (incr_seen_run k e w Hv) as (w' & Hext & Hi). pose proof (ext_now _ _ Hext).
    destruct (int_of e) as [n|] eqn:Hn; destruct Hi as [E Hw].
    + do 3 eexists. split_and!; [apply exec_op_val; run_val E | done | |].
      * eapply (A_incr_int _ _ _ _ (wnow w)); [lia | done..].
      * rewrite itoa_format_display in Hw. eapply refines_insert; done.
    + do 3 eexists. split_and!; [apply exec_op_val; run_val E | done | |].
      * eapply (A_incr_other _ _ _ _ (wnow w)); [lia | done..].
      * eapply refines_quiet; [by apply quiet_eng | done].
  - destruct (incr_unseen_run k w Hv) as [[(_ & ? & _) _]|(w' & r & E & Hext & Hi)]; [lia|].
    pose proof (ext_now _ _ Hext).
    destruct r as [n|err]; [|destruct Hi as (_ & ? & _); lia].
    destruct Hi as (-> & m0 & t & Hw & _ & _ & Hm).
    do 3 eexists. split_and!; [apply exec_op_val; run_val E | done | |].
    + eapply (A_incr_new _ _ _ _ (wnow w)); [lia | done].
    + eapply refines_insert; [done.. | | done]. apply Hm. lia.
Qed.

Lemma refine_expire k s w a :
  refines w a →
  ∃ obs w' a', exec_op (OpExpire k s) w = (obs, w') ∧ ext w w' ∧
    astep (wnow w) (wnow w') a (OpExpire k s) obs a' ∧ refines w' a'.
Proof.
  intros Hr. assert (sees (wmap w) (wnow w) k = seen a (wnow w) k) as Hv by (apply Hr; lia).
  pose proof (expire_run k s w) as Hx. rewrite Hv in Hx.
  destruct (seen a (wnow w) k) as [e|] eqn:Es.
  - destruct Hx as (w' & t & Ht & Hext & Hx). pose proof (ext_now _ _ Hext).
    destruct (instant_add t (from_secs s)) as [exp| |] eqn:Ha; [| |done]; destruct Hx as [E Hw].
    + do 3 eexists. split_and!; [apply exec_op_val; run_val E | done | |].
      * by apply (A_expire _ _ _ _ _ (wnow w) t e exp).
      * by eapply refines_insert.
    + do 3 eexists. split_and!; [| done | |].
      * unfold exec_op. cbn. rewrite (st_bind_panic _ _ _ _ E). reflexivity.
      * by eapply A_expire_overflow.
      * eapply refines_quiet; [by apply quiet_eng | done].
  - destruct Hx as (w' & E & Hq). pose proof (ext_now _ _ (proj1 Hq)).
    do 3 eexists. split_and!; [apply exec_op_val; run_val E | apply Hq | |].
    + eapply (A_expire_absent _ _ _ _ _ (wnow w)); [lia | done].
    + by eapply refines_quiet.
Qed.

(** The live keys that [keys] lists. *)
Lemma keys_live w k :
  k ∈ omap (λ '(k, e), if negb (is_expired_at e (wnow w)) then Some k else None)
        (dm_iter (wmap w)) ↔ is_Some (sees (wmap w) (wnow w) k).
Proof.
  rewrite list_elem_of_omap. split.
  - intros ([k' e] & Hin & Hk). exists e. apply sees_iter.
    destruct (is_expired_at e (wnow w)) eqn:Hx; naive_solver.
  - intros [e [Hin Hx]%sees_iter]. exists (k, e). by rewrite Hx.
Qed.

Lemma omap_fst_nodup {V} (f : bytes * V → bool) (l : list (bytes * V)) :
  NoDup l.*1 → NoDup (omap (λ ke, if f ke then Some ke.1 else None) l).
Proof.
  induction l as [|ke l IH]; cbn; [constructor|]. intros [Hk Hnd]%NoDup_cons.
  destruct (f ke); [|by apply IH]. constructor; [|by apply IH].
  intros (ke' & Hin & Hk')%list_elem_of_omap. apply Hk. destruct (f ke'); simplify_eq.
  apply list_elem_of_fmap. eauto.
Qed.

Lemma keys_nodup w :
  NoDup (omap (λ '(k, e), if negb (is_expired_at e (wnow w)) then Some k else None)
    (dm_iter (wmap w))).
Proof.
  pose proof (omap_fst_nodup (λ ke, negb (is_expired_at ke.2 (wnow w))) (dm_iter (wmap w))
    (dm_iter_nodup _)) as H.
  erewrite list_omap_ext; [exact H|]. apply Forall2_same_length_lookup. split; [done|].
  intros i [k e] [k' e'] H1 H2. by simplify_eq.
Qed.

Lemma live_len w ks t :
  NoDup ks → (∀ k, k ∈ ks → is_Some (sees (wmap w) t k)) → Z.of_nat (length ks) ≤ dm_len (wmap w).
Proof.
  intros Hnd Hks. rewrite dm_len_keys. apply inj_le, submseteq_length, NoDup_submseteq; [done|].
  intros k [e He]%Hks. apply dm_keys_elem. unfold sees in He. destruct (dm_get _ k); eauto.
Qed.

Lemma refine_op o w a :
  max_keys (eng w) = 0 → refines w a →
  ∃ obs w' a', exec_op o w = (obs, w') ∧ ext w w' ∧
    astep (wnow w) (wnow w') a o obs a' ∧ refines w' a'.
Proof.
  intros Hmk Hr. assert (∀ k, sees (wmap w) (wnow w) k = seen a (wnow w) k) as Hv.
  { intros k. apply Hr. lia. }
  destruct o as [k|k e|k|k| |k|k|k s| | |ks|].
  - destruct (get_run k w) as (w' & E & Hq). rewrite Hv in E. pose proof (ext_now _ _ (proj1 Hq)).
    eapply (refine_read w w' a (OpGet k)); [done.. | run_val E | intros; by constructor].
  - destruct (set_run k e w) as (w' & r & E & Hext & Hi). pose proof (ext_now _ _ Hext).
    destruct r as [[]|err]; [|destruct Hi as (_ & ? & _); lia].
    destruct Hi as (m0 & Hw & _ & [? | [-> _]]); [lia|].
    do 3 eexists. split_and!; [apply exec_op_val; run_val E | done | constructor |].
    by eapply refines_insert.
  - destruct (del_run k w) as (w' & E & Hext & _ & Hi). rewrite Hv in E.
    pose proof (ext_now _ _ Hext).
    do 3 eexists. split_and!; [apply exec_op_val; run_val E | done | by constructor |].
    intros t k' Ht. rewrite Hi, seen_delete by lia. case_decide; [done|]. apply Hr. lia.
  - by apply refine_incr.
  - do 3 eexists. split_and!; [by apply exec_op_val | done | constructor | done].
    intros ks Hnd Hks. apply (live_len w ks (wnow w)); [done|]. intros k. rewrite Hv. apply Hks.
  - destruct (exists_run k w) as (w' & E & Hq). rewrite Hv in E.
    eapply (refine_read w w' a (OpExists k)); [done.. | run_val E | intros; by constructor].
  - destruct (ttl_secs_run k w) as (w' & t & E & Hq & Ht). rewrite Hv in E.
    eapply (refine_read w w' a (OpTtl k)); [done.. | run_val E | intros; by constructor].
  - by apply refine_expire.
  - do 3 eexists. split_and!; [by apply exec_op_val | apply ext_with_map | constructor |].
    intros t k _. unfold sees, seen. simpl. by rewrite dm_get_new, lookup_empty.
  - assert (quiet w (bump w)) as Hq by (apply quiet_eng; [apply ext_bump | done]).
    eapply (refine_read w (bump w) a OpKeys); [done.. |].
    intros Ht. apply (A_keys _ _ _ _ (wnow w)); [lia | apply (keys_nodup w) |].
    intros k. rewrite <- Hv. apply (keys_live w).
  - assert (quiet w (bump w)) as Hq by (apply quiet_eng; [apply ext_bump | done]).
    eapply (refine_read w (bump w) a (OpMget ks) (ObsMget (seen a (wnow w) <$> ks)));
      [done..| | intros; by constructor].
    cbn. rewrite (st_bind_val _ _ _ _ _ (mget_run ks w)).
    by rewrite (list_fmap_ext _ (seen a (wnow w)) ks) by (intros; apply Hv).
  - destruct (sweep_run w) as (w' & E & Hext & _ & Hs & _). pose proof (ext_now _ _ Hext).
    do 3 eexists. split_and!; [apply exec_op_val; run_val E | done | constructor |].
    by eapply refines_same.
Qed.

(** C1: an engine without a key limit (the one the server builds) refines the abstract
    expiring map: every sequence of trait calls and sweeps gives, call by call, the answers
    of that map at clock readings inside the call, including the wrap of [INCR], the deadline
    kept by [INCR] and replaced by [EXPIRE], the two-reading answer of [TTL] and the panic of
    an overflowing [EXPIRE]; no call blocks and the final maps show the same entries. *)
Theorem engine_refines ops w a :
  max_keys (eng w) = 0 → refines w a →
  ∃ obs w' a', exec_ops ops w = (obs, w') ∧
    ahist (wnow w) a ops obs (wnow w') a' ∧ refines w' a'.
Proof.
  revert w a; induction ops as [|o ops IH]; intros w a Hmk Hr.
  { exists [], w, a. split_and!; [done | constructor | done]. }
  destruct (refine_op o w a) as (ob & w1 & a1 & E & Hext & Hst & Hr1); [done..|].
  destruct (IH w1 a1) as (obs & w' & a' & E' & Hh & Hr'); [|done|].
  { by rewrite (proj1 Hext). }
  exists (ob :: obs), w', a'. split_and!; [| by econstructor | done].
  cbn. by rewrite E, E'.
Qed.

(** ** The key limit *)

Definition limit_ok w : Prop := 0 < max_keys (eng w) → dm_len (wmap w) ≤ max_keys (eng w).

Lemma limit_shrinks w w' : ext w w' → shrinks (wmap w) (wmap w') → limit_ok w → limit_ok w'.
Proof.
  unfold limit_ok. intros (-> & _) Hsh Hl Hmk. apply shrinks_len in Hsh. specialize (Hl Hmk). lia.
Qed.

Lemma limit_update w w' k e :
  ext w w' → is_Some (dm_get (wmap w) k) → wmap w' = dm_insert (wmap w) k e →
  limit_ok w → limit_ok w'.
Proof.
  unfold limit_ok. intros (-> & _) Hk -> Hl. rewrite dm_len_insert.
  unfold dm_contains_key. by rewrite bool_decide_eq_true_2.
Qed.

Lemma limit_room w w' m0 k e :
  ext w w' → wmap w' = dm_insert m0 k e →
  (0 < max_keys (eng w) → dm_len m0 < max_keys (eng w)) → limit_ok w'.
Proof.
  unfold limit_ok. intros (-> & _) -> Hm Hmk. rewrite dm_len_insert.
  specialize (Hm Hmk). case_match; lia.
Qed.

Lemma sees_get w t k e : sees (wmap w) t k = Some e → is_Some (dm_get (wmap w) k).
Proof. unfold sees. destruct (dm_get _ k); eauto. Qed.

(** An operation that only drops entries keeps the limit. *)
Lemma limit_val w w' o obs :
  run_op o w = (Val obs, w') → ext w w' → shrinks (wmap w) (wmap w') → limit_ok w →
  limit_ok (exec_op o w).2.
Proof. intros E Hext Hsh Hl. rewrite (exec_op_val _ _ _ _ E). by eapply limit_shrinks. Qed.

Lemma limit_set k e w : limit_ok w → limit_ok (exec_op (OpSet k e) w).2.
Proof.
  intros Hl. destruct (set_run k e w) as (w' & r & E & Hext & Hi).
  rewrite (exec_op_val _ w (ObsSet r) w') by run_val E. simpl.
  destruct r as [[]|err]; [|by eapply limit_shrinks; [| apply Hi |]].
  destruct Hi as (m0 & Hw & _ & [(? & _ & ?) | [-> [?|Hc]]]).
  - by eapply limit_room.
  - intros Hmk. rewrite (proj1 Hext) in Hmk. lia.
  - eapply limit_update; [done | | done | done]. by apply bool_decide_eq_true in Hc.
Qed.

Lemma limit_incr k w : limit_ok w → limit_ok (exec_op (OpIncr k) w).2.
Proof.
  intros Hl. destruct (sees (wmap w) (wnow w) k) as [e|] eqn:Hv.
  - destruct (incr_seen_run k e w Hv) as (w' & Hext & Hi).
    destruct (int_of e) as [n|]; destruct Hi as [E Hw].
    + rewrite (exec_op_val _ w _ w') by run_val E. eapply limit_update; [done | | done..].
      by eapply sees_get.
    + eapply limit_val; [run_val E | done | by rewrite Hw | done].
  - destruct (incr_unseen_run k w Hv) as [[_ E]|(w' & r & E & Hext & Hi)].
    { unfold exec_op. cbn. by rewrite (st_bind_stuck _ _ _ _ E). }
    rewrite (exec_op_val _ w (ObsIncr r) w') by run_val E.
    destruct r as [n|err]; [|by eapply limit_shrinks; [| apply Hi |]].
    destruct Hi as (-> & m0 & t & Hw & _ & Hm & _). by eapply limit_room.
Qed.

Lemma limit_expire k s w : limit_ok w → limit_ok (exec_op (OpExpire k s) w).2.
Proof.
  intros Hl. pose proof (expire_run k s w) as Hx.
  destruct (sees (wmap w) (wnow w) k) as [e|] eqn:Hv.
  - destruct Hx as (w' & t & Ht & Hext & Hx).
    destruct (instant_add t (from_secs s)) as [exp| |]; [| |done]; destruct Hx as [E Hw].
    + rewrite (exec_op_val _ w _ w') by run_val E. eapply limit_update; [done | | done..].
      by eapply sees_get.
    + unfold exec_op. cbn. rewrite (st_bind_panic _ _ _ _ E).
      eapply limit_shrinks; [done | simpl; by rewrite Hw | done].
  - destruct Hx as (w' & E & Hext & _ & Hsh). by eapply limit_val; [run_val E |..].
Qed.

Lemma limit_op o w : limit_ok w → limit_ok (exec_op o w).2.
Proof.
  intros Hl. destruct o as [k|k e|k|k| |k|k|k s| | |ks|].
  - destruct (get_run k w) as (w' & E & Hext & _ & Hsh). by eapply limit_val; [run_val E |..].
  - by apply limit_set.
  - destruct (del_run k w) as (w' & E & Hext & Hsh & _). by eapply limit_val; [run_val E |..].
  - by apply limit_incr.
  - done.
  - destruct (exists_run k w) as (w' & E & Hext & _ & Hsh). by eapply limit_val; [run_val E |..].
  - destruct (ttl_secs_run k w) as (w' & t & E & (Hext & _ & Hsh) & _).
    by eapply limit_val; [run_val E |..].
  - by apply limit_expire.
  - intros Hmk. simpl in *. rewrite dm_len_new. lia.
  - done.
  - done.
  - destruct (sweep_run w) as (w' & E & Hext & Hsh & _). by eapply limit_val; [run_val E |..].
Qed.

(** C19: in an engine built with [with_max_keys], no sequence of trait calls and sweeps ever
    leaves more than [max_keys] entries in the map, expired ones included: a new key is only
    stored after an eviction or an expiry has made room, and updates in place do not grow it. *)
Theorem key_limit ops w :
  limit_ok w → limit_ok (exec_ops ops w).2.
Proof.
  revert w; induction ops as [|o ops IH]; intros w Hl; [done|].
  cbn. destruct (exec_op o w) as [ob w1] eqn:E. specialize (IH w1).
  destruct (exec_ops ops w1) as [l w2]. apply IH.
  pose proof (limit_op o w Hl) as H. by rewrite E in H.
Qed.

(** ** Eviction *)

(** [set] on an absent key of a limited store, by its room check. *)
Lemma set_new_run k v w r w1 :
  0 < max_keys (eng w) → dm_get (wmap w) k = None →
  make_room (max_keys (eng w)) w = (Val r, w1) →
  set k v w = match r with
              | Ok _ => (Val (Ok tt), with_map (dm_insert (wmap w1) k v) w1)
              | Err e => (Val (Err e), w1)
              end.
Proof.
  intros Hmk Hk E. unfold set.
  rewrite (st_bind_val get_max_keys _ w (max_keys (eng w)) w) by done.
  rewrite (st_bind_val get_map _ w (wmap w) w) by done.
  assert (dm_contains_key (wmap w) k = false) as ->.
  { apply bool_decide_eq_false. rewrite Hk. by intros []. }
  rewrite (proj2 (Z.ltb_lt _ _) Hmk). cbn [andb negb].
  rewrite (st_bind_val _ _ _ _ _ E). by destruct r as [[]|].
Qed.

Lemma make_room_val w w1 :
  evict_one_if_needed w = (Val tt, w1) →
  make_room (max_keys (eng w)) w =
    (Val (if max_keys (eng w) <=? dm_len (wmap w1) then Err EngOutOfMemory else Ok tt), w1).
Proof.
  intros E. unfold make_room. rewrite (st_bind_val _ _ _ _ _ E). done.
Qed.

(** C20: a new key stored in a full store that has a live key takes the place of exactly one
    entry: an oldest one, by creation instant, of the first five live entries met by the
    iteration; every other entry, expired ones included, stays. *)
Theorem set_evicts_oldest k v w :
  0 < max_keys (eng w) → dm_len (wmap w) = max_keys (eng w) → dm_get (wmap w) k = None →
  (∃ k' e', sees (wmap w) (wnow w) k' = Some e') →
  ∃ w' vk ve, set k v w = (Val (Ok tt), w') ∧ oldest_sampled w vk ve ∧
    wmap w' = dm_insert (dm_remove (wmap w) vk) k v.
Proof.
  intros Hmk Hlen Hk (k' & e' & Hlive).
  destruct (evict_run w) as (w1 & E & Hext & _ & Hc).
  destruct Hc as [[Hnf _]|[(_ & _ & Hall)|(_ & vk & ve & Hw & Hold)]].
  { exfalso. apply Hnf. split; lia. }
  { by rewrite Hall in Hlive. }
  pose proof (make_room_val w w1 E) as Hroom. rewrite Hw, dm_len_remove in Hroom.
  rewrite (dm_contains_key_sees _ (wnow w) vk ve) in Hroom by (by apply oldest_sampled_sees).
  replace (max_keys (eng w) <=? dm_len (wmap w) - 1) with false in Hroom by lia.
  rewrite (set_new_run k v w _ w1 Hmk Hk Hroom), Hw.
  do 3 eexists. split_and!; [reflexivity | done..].
Qed.

(** A full store whose entries have all expired refuses every new key with
    [OutOfMemory], although nothing in it is visible: eviction skips expired entries and
    nothing else removes them before the next sweep. *)
Theorem set_full_of_expired k v w :
  0 < max_keys (eng w) → max_keys (eng w) ≤ dm_len (wmap w) → dm_get (wmap w) k = None →
  (∀ k', sees (wmap w) (wnow w) k' = None) →
  ∃ w', set k v w = (Val (Err EngOutOfMemory), w') ∧ wmap w' = wmap w.
Proof.
  intros Hmk Hlen Hk Hdead. destruct (evict_run w) as (w1 & E & Hext & _ & Hc).
  destruct Hc as [[Hnf _]|[(_ & Hw & _)|(_ & vk & ve & _ & Hold)]].
  { exfalso. apply Hnf. split; lia. }
  2: { apply oldest_sampled_sees in Hold. by rewrite Hdead in Hold. }
  pose proof (make_room_val w w1 E) as Hroom. rewrite Hw, (proj2 (Z.leb_le _ _) Hlen) in Hroom.
  exists w1. by rewrite (set_new_run k v w _ w1 Hmk Hk Hroom).
Qed.

(** ** Counters *)

Lemma display_ascii n : Forall (λ b, bval b < 128) (display_i n).
Proof.
  assert (∀ m, 0 ≤ m → Forall (λ b, bval b < 128) (display_u m)) as Hu.
  { intros m Hm. eapply Forall_impl; [by apply display_u_digits|]. intros b Hb.
    unfold is_ascii_digit in Hb. lia. }
  unfold display_i. case_match; [constructor; [done|]|]; apply Hu; lia.
Qed.

(** A stored number is read back by the next [incr]. *)
Lemma int_of_display n e : in_i64 n → data e = display_i n → int_of e = Some n.
Proof.
  intros Hn He. unfold int_of. rewrite He, from_utf8_lossy_valid.
  - by apply parse_i64_display.
  - apply utf8_valid_ascii, display_ascii.
Qed.

(** [n] calls of [incr] on one key. *)
Fixpoint incr_times (n : nat) k : ST EW (list (result Z EngineError)) :=
  match n with
  | O => mret []
  | S n => r ← incr k; l ← incr_times n k; mret (r :: l)
  end.

Lemma incr_times_from n k e c w :
  sees (wmap w) (wnow w) k = Some e → expires_at e = None → data e = display_i c →
  in_i64 c → in_i64 (c + Z.of_nat n) →
  ∃ w' e', incr_times n k w = (Val (Ok <$> seqZ (c + 1) (Z.of_nat n)), w') ∧
    sees (wmap w') (wnow w') k = Some e' ∧ data e' = display_i (c + Z.of_nat n).
Proof.
  revert e c w; induction n as [|n IH]; intros e c w Hs Hx Hd Hc Hcn.
  { exists w, e. by rewrite Z.add_0_r. }
  destruct (incr_seen_run k e w Hs) as (w1 & Hext & Hi).
  rewrite (int_of_display c e Hc Hd) in Hi. destruct Hi as [E Hw].
  unfold in_i64 in *. rewrite i64_id in E, Hw by (unfold in_i64; lia).
  rewrite itoa_format_display in Hw.
  destruct (IH {| data := display_i (c + 1); expires_at := expires_at e; created_at := created_at e |}
    (c + 1) w1) as (w2 & e2 & E2 & Hs2 & Hd2); [| done | done | lia | lia |].
  { rewrite Hw, sees_insert. rewrite decide_True by done.
    unfold is_expired_at. simpl. by rewrite Hx. }
  exists w2, e2. cbn [incr_times]. rewrite (st_bind_val _ _ _ _ _ E).
  rewrite (st_bind_val _ _ _ _ _ E2). rewrite (seqZ_cons (c + 1)) by lia. split_and!; [|done|].
  - unfold mret, st_ret. simpl. by rewrite <- Z.add_1_r, Nat2Z.inj_succ, Z.pred_succ.
  - rewrite Hd2. f_equal. lia.
Qed.

(** [n] consecutive [INCR]s of a key that is not visible, in a store without a limit,
    answer 1, 2, ..., n (as long as n fits an [i64]), and the key then holds the decimal
    text of n and is still visible. *)
Theorem incr_counts n k w :
  max_keys (eng w) = 0 → sees (wmap w) (wnow w) k = None → (0 < n)%nat → Z.of_nat n < 2 ^ 63 →
  ∃ w' e, incr_times n k w = (Val (Ok <$> seqZ 1 (Z.of_nat n)), w') ∧
    sees (wmap w') (wnow w') k = Some e ∧ data e = display_i (Z.of_nat n).
Proof.
  intros Hmk Hs Hn Hn'. destruct n as [|n]; [lia|].
  destruct (incr_unseen_run k w Hs) as [[(_ & ? & _) _]|(w1 & r & E & Hext & Hi)]; [lia|].
  destruct r as [m|err]; [|destruct Hi as (_ & ? & _); lia].
  destruct Hi as (-> & m0 & t & Hw & _ & _ & _).
  destruct (incr_times_from n k (fresh_one t) 1 w1) as (w2 & e2 & E2 & Hs2 & Hd2);
    [| done | done | unfold in_i64; lia.. |].
  { rewrite Hw, sees_insert. by rewrite decide_True. }
  exists w2, e2. cbn [incr_times]. rewrite (st_bind_val _ _ _ _ _ E).
  rewrite (st_bind_val _ _ _ _ _ E2). rewrite (seqZ_cons 1) by lia. split_and!; [|done|].
  - unfold mret, st_ret. simpl. by rewrite <- Z.add_1_r, Nat2Z.inj_succ, Z.pred_succ.
  - rewrite Hd2. f_equal. lia.
Qed.

(** [INCR] of a visible counter that holds 9223372036854775807 answers and stores
    -9223372036854775808: [val + 1] has no overflow check in a release build. *)
Theorem incr_wraps k e w :
  sees (wmap w) (wnow w) k = Some e → data e = str "9223372036854775807" →
  ∃ w' e', incr k w = (Val (Ok (- 2 ^ 63)), w') ∧ dm_get (wmap w') k = Some e' ∧
    data e' = str "-9223372036854775808" ∧ expires_at e' = expires_at e.
Proof.
  intros Hs Hd. destruct (incr_seen_run k e w Hs) as (w' & Hext & Hi).
  rewrite (int_of_display (2 ^ 63 - 1) e) in Hi by (done || by rewrite Hd).
  destruct Hi as [E Hw]. do 2 eexists. split_and!.
  - rewrite E. reflexivity.
  - rewrite Hw. apply dm_get_insert_eq.
  - simpl. rewrite itoa_format_display. reflexivity.
  - done.
Qed.

(** [INCR] of an absent key never returns when the store has a key limit and the map's
    [len] waits for the lock of the vacant entry that [incr] holds. *)
Theorem incr_blocks_on_own_lock k w :
  dm_reentrant = false → 0 < max_keys (eng w) → dm_get (wmap w) k = None →
  incr k w = (Stuck, w).
Proof.
  intros Hre Hmk Hk. assert (sees (wmap w) (wnow w) k = None) as Hs.
  { unfold sees. by rewrite Hk. }
  unfold incr. rewrite (st_bind_val get_max_keys _ w (max_keys (eng w)) w) by done.
  rewrite (st_bind_val get_map _ w (wmap w) w) by done. rewrite Hk.
  apply st_bind_stuck. rewrite (proj2 (Z.ltb_lt _ _) Hmk). unfold under_guard. by rewrite Hre.
Qed.

(** ** Expiry in the background *)

(** C21: any number of ticks of the background sweeper changes nothing a client can see from
    their end on, only drops entries, keeps every entry that has not expired by then, and,
    after one tick, leaves no entry that had expired when they started. *)
Theorem sweeper_invisible n w :
  ∃ w', run_sweeper n w = (Val tt, w') ∧
    (∀ t k, wnow w' ≤ t → sees (wmap w') t k = sees (wmap w) t k) ∧
    (∀ k e, dm_get (wmap w') k = Some e → dm_get (wmap w) k = Some e) ∧
    ((0 < n)%nat → ∀ k e, dm_get (wmap w') k = Some e → is_expired_at e (wnow w) = false).
Proof.
  assert (∀ w, ∃ w', run_sweeper n w = (Val tt, w') ∧ ext w w' ∧ shrinks (wmap w) (wmap w') ∧
    same_from (wnow w') (wmap w) (wmap w') ∧
    ((0 < n)%nat → ∀ k e, dm_get (wmap w') k = Some e → is_expired_at e (wnow w) = false)) as H.
  { clear w. induction n as [|n IH]; intros w.
    { exists w. split_and!; try done. lia. }
    destruct (sweep_run w) as (w1 & E & Hext & Hsh & Hs & Hx).
    destruct (IH w1) as (w2 & E2 & Hext2 & Hsh2 & Hs2 & _).
    exists w2. cbn. rewrite (st_bind_val _ _ _ _ _ E). split_and!; [done | by etrans.. | |].
    - etrans; [|done]. eapply same_from_weaken; [|done]. by apply ext_now.
    - intros _ k e He. apply (Hx k). destruct (Hsh2 k); congruence. }
  destruct (H w) as (w' & E & Hext & Hsh & Hs & Hx). exists w'. split_and!; [done | | | done].
  - intros t k Ht. symmetry. by apply Hs.
  - intros k e He. destruct (Hsh k); congruence.
Qed.

(** ** The trait's promise to its clients *)

#[global] Instance dashmap_engine_ok : KvEngineOk (DashMapEngine M).
Proof.
  split.
  - intros k e w w1 E Hx. destruct (set_run k e w) as (w' & r & E' & _ & Hi).
    cbn in E. rewrite E' in E. simplify_eq. destruct Hi as (m0 & Hw & _).
    destruct (get_run k w1) as (w2 & E2 & _). exists w2. cbn. rewrite E2, Hw, sees_insert.
    rewrite decide_True by done. unfold is_expired_at. by rewrite Hx.
  - intros k b w w1 E. destruct (del_run k w) as (w' & E' & Hext & _ & Hi).
    cbn in E. rewrite E' in E. simplify_eq.
    destruct (get_run k w1) as (w2 & E2 & _). exists w2. cbn. rewrite E2, Hi by (by apply ext_now).
    by rewrite decide_True.
  - intros k w w1 [= <-]. eexists. cbn. unfold get.
    rewrite (st_bind_val get_map _ _ (dm_new : M) (with_map dm_new w)) by done.
    by rewrite dm_get_new.
Qed.
End props.

(** * Witnesses, over a finite map, a millisecond clock and [Display] *)

Section witnesses.
#[local] Existing Instances gmap_dashmap ms_clock itoa_display.

(** A store with the given entries and limit. *)
Definition wit_world (m : gmap bytes ValueEntry) (mk : Z) :
    World (DashMapEngine (gmap bytes ValueEntry)) :=
  mkWorld (mkEngine m mk) 5 (metrics_init 0) local_default.

(** An entry with a deadline at the first instant, and one without. *)
Definition wit_dead : ValueEntry := mkValueEntry (str "old") (Some 0) (Some 0).
Definition wit_live (d : bytes) (t : Instant) : ValueEntry := mkValueEntry d None (Some t).

Lemma engine_refines_witness :
  ∃ obs w' a',
    exec_ops [OpSet (str "a") (wit_live (str "9") 0); OpIncr (str "a"); OpTtl (str "a");
              OpExpire (str "a") 3; OpSweep; OpKeys] (wit_world {[str "x" := wit_dead]} 0)
      = (obs, w') ∧
    ahist (clk 5) ∅ [OpSet (str "a") (wit_live (str "9") 0); OpIncr (str "a"); OpTtl (str "a");
              OpExpire (str "a") 3; OpSweep; OpKeys] obs (clk (tick w')) a' ∧ refines w' a'.
Proof.
  apply (engine_refines _ (wit_world {[str "x" := wit_dead]} 0) ∅); [done|].
  intros t k Ht. unfold sees, seen. cbn -[str] in *. rewrite lookup_empty.
  destruct (decide (str "x" = k)) as [<-|Hne].
  - rewrite lookup_singleton_eq. unfold is_expired_at. simpl. by rewrite (proj2 (Z.leb_le 0 t)) by lia.
  - by rewrite lookup_singleton_ne.
Defined.

Lemma key_limit_witness :
  limit_ok (exec_ops [OpSet (str "b") (wit_live (str "1") 7); OpIncr (str "a")]
    (wit_world {[str "a" := wit_live (str "1") 0]} 1)).2.
Proof. apply (key_limit _ (wit_world {[str "a" := wit_live (str "1") 0]} 1)). done. Defined.

Definition wit_full : World (DashMapEngine (gmap bytes ValueEntry)) :=
  wit_world {[str "a" := wit_live (str "1") 4; str "b" := wit_live (str "2") 2]} 2.

Lemma set_evicts_oldest_witness :
  ∃ w' vk ve,
    set (str "c") (wit_live (str "3") 9) wit_full = (Val (Ok tt), w') ∧
    oldest_sampled wit_full vk ve ∧
    emap (eng w') = dm_insert (dm_remove (emap (eng wit_full)) vk) (str "c") (wit_live (str "3") 9).
Proof.
  apply (set_evicts_oldest (str "c") (wit_live (str "3") 9) wit_full); try done.
  by exists (str "a"), (wit_live (str "1") 4).
Defined.

Lemma set_full_of_expired_witness :
  ∃ w', set (str "c") (wit_live (str "3") 9) (wit_world {[str "x" := wit_dead]} 1)
          = (Val (Err EngOutOfMemory), w') ∧
    emap (eng w') = emap (eng (wit_world {[str "x" := wit_dead]} 1)).
Proof.
  apply (set_full_of_expired (str "c") (wit_live (str "3") 9) (wit_world {[str "x" := wit_dead]} 1));
    try done.
  intros k. unfold sees. cbn -[str]. destruct (decide (str "x" = k)) as [<-|Hne].
  - by rewrite lookup_singleton_eq.
  - by rewrite lookup_singleton_ne.
Defined.

Lemma incr_counts_witness :
  ∃ w' e, incr_times 12 (str "n") (wit_world {[str "n" := wit_dead]} 0)
            = (Val (Ok <$> seqZ 1 12), w') ∧
    sees (emap (eng w')) (clk (tick w')) (str "n") = Some e ∧ data e = display_i 12.
Proof.
  apply (incr_counts 12 (str "n") (wit_world {[str "n" := wit_dead]} 0)); done || lia.
Defined.

Lemma incr_wraps_witness :
  ∃ w' e', incr (str "n") (wit_world {[str "n" := wit_live (str "9223372036854775807") 0]} 0)
             = (Val (Ok (- 2 ^ 63)), w') ∧ dm_get (emap (eng w')) (str "n") = Some e' ∧
    data e' = str "-9223372036854775808" ∧ expires_at e' = None.
Proof.
  by apply (incr_wraps (str "n") (wit_live (str "9223372036854775807") 0)
    (wit_world {[str "n" := wit_live (str "9223372036854775807") 0]} 0)).
Defined.

Lemma incr_blocks_on_own_lock_witness :
  incr (str "n") (wit_world ∅ 10) = (Stuck, wit_world ∅ 10).
Proof. by apply (incr_blocks_on_own_lock (str "n") (wit_world ∅ 10)). Defined.

Lemma sweeper_invisible_witness :
  let w := wit_world {[str "x" := wit_dead; str "y" := wit_live (str "1") 0]} 0 in
  ∃ w', run_sweeper 2 w = (Val tt, w') ∧ dm_get (emap (eng w')) (str "x") = None ∧
    sees (emap (eng w')) (clk (tick w')) (str "y") = Some (wit_live (str "1") 0).
Proof.
  intros w. destruct (sweeper_invisible 2 w) as (w' & E & Hs & Hk & Hx). exists w'. split_and!; [done | |].
  - destruct (dm_get (emap (eng w')) (str "x")) as [e|] eqn:He; [|done].
    assert (e = wit_dead) as -> by (apply Hk in He; by injection He).
    by specialize (Hx (le_S 1 1 (le_n 1)) _ _ He).
  - by rewrite Hs.
Defined.
End witnesses.
