(* ===== verification/Response.v ===== *)
(** [src/protocol/response.rs]: responses and their two wire formats. *)

From S2P Require Import Prelude RustStd Crates.

Inductive ResponseError : Type :=
| UnknownCommand (cmd : bytes)
| SyntaxError (msg : bytes)
| TypeError (msg : bytes)
| NotFound (key : bytes)
| InternalError (msg : bytes).

Inductive Response : Type :=
| RPong
| ROk
| RValue (data : option bytes)
| RInteger (n : Z)
| RError (e : ResponseError)
| RArray (items : list (option bytes)).

#[export] Instance ResponseError_eq_dec : EqDecision ResponseError.
Proof. solve_decision. Defined.
#[export] Instance Response_eq_dec : EqDecision Response.
Proof. solve_decision. Defined.

(** [Response::is_success] *)
Definition is_success (r : Response) : bool :=
  match r with RError _ => false | _ => true end.

Section response.
Context {IT : Itoa}.

Definition len_text (d : bytes) : bytes := itoa_format (Z.of_nat (length d)).

(** [$<len>\r\n<data>\r\n], [+<data>\r\n], [:<n>\r\n]: the three writes every reply is made of. *)
Definition bulk_text (d : bytes) : bytes := str "$" ++ len_text d ++ crlf ++ d ++ crlf.
Definition simple_text (d : bytes) : bytes := str "+" ++ d ++ crlf.
Definition integer_text (n : Z) : bytes := str ":" ++ itoa_format n ++ crlf.
Definition nil_text : bytes := str "$-1" ++ crlf.

Definition item_text (item : option bytes) : bytes :=
  match item with Some d => bulk_text d | None => nil_text end.
Definition array_text (items : list (option bytes)) : bytes :=
  str "*" ++ itoa_format (Z.of_nat (length items)) ++ crlf ++ mjoin (item_text <$> items).

(** [Response::write_to_impl]: the buffer after the write. *)
Definition write_to_impl (r : Response) (buf : bytes) (resp_mode : bool) : bytes :=
  buf ++
  match r with
  | RPong => str "+PONG" ++ crlf
  | ROk => str "+OK" ++ crlf
  | RValue (Some d) => if resp_mode then bulk_text d else simple_text d
  | RValue None => nil_text
  | RInteger n => integer_text n
  | RError (UnknownCommand cmd) => str "-ERR unknown command '" ++ cmd ++ str "'" ++ crlf
  | RError (SyntaxError msg) => str "-ERR syntax: " ++ msg ++ crlf
  | RError (TypeError msg) => str "-ERR type: " ++ msg ++ crlf
  | RError (NotFound key) => str "-ERR not found: " ++ key ++ crlf
  | RError (InternalError msg) => str "-ERR internal: " ++ msg ++ crlf
  | RArray items => array_text items
  end.

(** [Response::write_to], [Response::write_to_resp] *)
Definition write_to (r : Response) (buf : bytes) : bytes := write_to_impl r buf false.
Definition write_to_resp (r : Response) (buf : bytes) : bytes := write_to_impl r buf true.
End response.

(** [Response::serialize]: the same text built with [format!] and lossy decoding. *)
Definition serialize_item (s : bytes) (item : option bytes) : bytes :=
  match item with
  | Some d =>
      s ++ str "$" ++ display_u (Z.of_nat (length d)) ++ crlf ++ from_utf8_lossy d ++ crlf
  | None => s ++ str "$-1" ++ crlf
  end.

Definition serialize (r : Response) : bytes :=
  match r with
  | RPong => str "+PONG" ++ crlf
  | ROk => str "+OK" ++ crlf
  | RValue (Some d) => str "+" ++ from_utf8_lossy d ++ crlf
  | RValue None => str "$-1" ++ crlf
  | RInteger n => str ":" ++ display_i n ++ crlf
  | RError (UnknownCommand cmd) => str "-ERR unknown command '" ++ cmd ++ str "'" ++ crlf
  | RError (SyntaxError msg) => str "-ERR syntax: " ++ msg ++ crlf
  | RError (TypeError msg) => str "-ERR type: " ++ msg ++ crlf
  | RError (NotFound key) => str "-ERR not found: " ++ key ++ crlf
  | RError (InternalError msg) => str "-ERR internal: " ++ msg ++ crlf
  | RArray items =>
      foldl serialize_item (str "*" ++ display_u (Z.of_nat (length items)) ++ crlf) items
  end.
