(* ===== verification/ResponseProps.v ===== *)
(** What a client reads back: a reference decoder of the replies, and the agreement of
    the two serialisers. *)

From S2P Require Import Prelude RustStd Crates Response.

(** * A reference decoder of RESP replies *)

(** What a client makes of a reply: a simple string and a bulk string are both a text to it, and a
    bulk string may be absent. *)
Inductive Reply : Type :=
| RepText (d : option bytes)
| RepError (line : bytes)
| RepInt (n : Z)
| RepArray (items : list (option bytes)).

#[export] Instance Reply_eq_dec : EqDecision Reply.
Proof. solve_decision. Defined.

(** The text before the first CRLF and what follows it. *)
Fixpoint split_crlf (l : bytes) : option (bytes * bytes) :=
  match l with
  | [] => None
  | b :: l' =>
      if bool_decide (take 2 l = crlf) then Some ([], drop 2 l)
      else p ← split_crlf l'; Some (b :: p.1, p.2)
  end.

(** The rest of a bulk string, after its [$]. *)
Definition decode_bulk (l : bytes) : option (option bytes * bytes) :=
  p ← split_crlf l;
  n ← parse_i64 p.1;
  if n =? -1 then Some (None, p.2)
  else
    let len := Z.to_nat n in
    if (n <? 0) || negb (bool_decide (take 2 (drop len p.2) = crlf)) then None
    else Some (Some (take len p.2), drop (len + 2) p.2).

Fixpoint decode_items (n : nat) (l : bytes) : option (list (option bytes) * bytes) :=
  match n with
  | O => Some ([], l)
  | S n =>
      match l with
      | b :: l =>
          if Byte.eqb b Byte.x24 then
            p ← decode_bulk l; q ← decode_items n p.2; Some (p.1 :: q.1, q.2)
          else None
      | [] => None
      end
  end.

Definition decode_reply (l : bytes) : option (Reply * bytes) :=
  match l with
  | [] => None
  | b :: l =>
      if Byte.eqb b Byte.x2b then p ← split_crlf l; Some (RepText (Some p.1), p.2)
      else if Byte.eqb b Byte.x2d then p ← split_crlf l; Some (RepError p.1, p.2)
      else if Byte.eqb b Byte.x3a then
        p ← split_crlf l; n ← parse_i64 p.1; Some (RepInt n, p.2)
      else if Byte.eqb b Byte.x24 then p ← decode_bulk l; Some (RepText p.1, p.2)
      else if Byte.eqb b Byte.x2a then
        p ← split_crlf l; n ← parse_i64 p.1;
        q ← decode_items (Z.to_nat n) p.2; Some (RepArray q.1, q.2)
      else None
  end.

Fixpoint decode_replies (n : nat) (l : bytes) : option (list Reply * bytes) :=
  match n with
  | O => Some ([], l)
  | S n => p ← decode_reply l; q ← decode_replies n p.2; Some (p.1 :: q.1, q.2)
  end.

(** The reply each response stands for. *)
Definition error_line (e : ResponseError) : bytes :=
  match e with
  | UnknownCommand cmd => str "ERR unknown command '" ++ cmd ++ str "'"
  | SyntaxError msg => str "ERR syntax: " ++ msg
  | TypeError msg => str "ERR type: " ++ msg
  | NotFound key => str "ERR not found: " ++ key
  | InternalError msg => str "ERR internal: " ++ msg
  end.

Definition reply_of (r : Response) : Reply :=
  match r with
  | RPong => RepText (Some (str "PONG"))
  | ROk => RepText (Some (str "OK"))
  | RValue d => RepText d
  | RInteger n => RepInt n
  | RError e => RepError (error_line e)
  | RArray items => RepArray items
  end.

(** What a response must satisfy to be framed: integers are [i64], sizes fit the address
    space, and an error text has no carriage return. *)
Definition frameable (r : Response) : Prop :=
  match r with
  | RInteger n => in_i64 n
  | RValue (Some d) => Z.of_nat (length d) < 2 ^ 63
  | RError e => CR ∉ error_line e
  | RArray items =>
      Z.of_nat (length items) < 2 ^ 63 ∧
      Forall (λ i, ∀ d, i = Some d → Z.of_nat (length d) < 2 ^ 63) items
  | _ => True
  end.

(** * Facts *)

Lemma split_crlf_line line rest : CR ∉ line → split_crlf (line ++ crlf ++ rest) = Some (line, rest).
Proof.
  induction line as [|b line IH]; intros Hcr; [done|].
  apply not_elem_of_cons in Hcr as [Hb Hcr]. cbn [app split_crlf].
  rewrite bool_decide_eq_false_2; [by rewrite IH|].
  unfold crlf. cbn [take]. intros [= -> _]. done.
Qed.

Lemma display_no_cr n : CR ∉ display_i n.
Proof.
  assert (∀ m, 0 ≤ m → CR ∉ display_u m) as Hu.
  { intros m Hm Hin. pose proof (display_u_digits m Hm) as Hd.
    rewrite Forall_forall in Hd. by specialize (Hd _ Hin). }
  unfold display_i. case_match; [rewrite not_elem_of_cons; split; [done|]|]; apply Hu; lia.
Qed.

Section facts.
Context {IT : Itoa}.

Lemma decode_bulk_text d rest :
  Z.of_nat (length d) < 2 ^ 63 →
  decode_bulk (len_text d ++ crlf ++ d ++ crlf ++ rest) = Some (Some d, rest).
Proof.
  intros Hd. unfold decode_bulk, len_text. rewrite itoa_format_display, split_crlf_line
    by apply display_no_cr. cbn [mbind option_bind fst snd].
  rewrite parse_i64_display by (unfold in_i64; lia). cbn [mbind option_bind].
  replace (Z.of_nat (length d) =? -1) with false by lia.
  replace (Z.of_nat (length d) <? 0) with false by lia.
  rewrite Nat2Z.id, drop_app_exact, take_app_exact. cbn [orb].
  rewrite bool_decide_eq_true_2 by done. cbn [negb].
  rewrite <- drop_drop, drop_app_exact. done.
Qed.

Lemma decode_item_text i rest :
  (∀ d, i = Some d → Z.of_nat (length d) < 2 ^ 63) →
  ∃ l, item_text i ++ rest = Byte.x24 :: l ∧ decode_bulk l = Some (i, rest).
Proof.
  intros Hi. destruct i as [d|].
  - eexists. split; [by unfold item_text, bulk_text; rewrite <- !app_assoc|].
    apply decode_bulk_text, Hi. done.
  - eexists. split; [reflexivity|]. reflexivity.
Qed.

Lemma decode_items_text items rest :
  Forall (λ i, ∀ d, i = Some d → Z.of_nat (length d) < 2 ^ 63) items →
  decode_items (length items) (mjoin (item_text <$> items) ++ rest) = Some (items, rest).
Proof.
  induction 1 as [|i items Hi _ IH]; [done|].
  change (mjoin (item_text <$> i :: items)) with (item_text i ++ mjoin (item_text <$> items)).
  rewrite <- app_assoc. destruct (decode_item_text i (mjoin (item_text <$> items) ++ rest) Hi)
    as (l & E & Hdec).
  rewrite E. cbn [length decode_items]. rewrite byte_eqb_refl, Hdec.
  cbn [mbind option_bind fst snd]. rewrite IH. done.
Qed.


Lemma serialize_items items s :
  Forall (λ i, ∀ d, i = Some d → utf8_valid d = true) items →
  foldl serialize_item s items = s ++ mjoin (item_text <$> items).
Proof.
  intros H. revert s. induction H as [|i items Hi _ IH]; intros s; [by rewrite app_nil_r|].
  change (mjoin (item_text <$> i :: items)) with (item_text i ++ mjoin (item_text <$> items)).
  cbn [foldl]. rewrite IH, app_assoc. f_equal. destruct i as [d|]; [|done].
  unfold serialize_item, item_text, bulk_text, len_text.
  rewrite itoa_format_display, from_utf8_lossy_valid by (by apply Hi).
  by rewrite display_i_nonneg by lia.
Qed.

(** * Theorems *)

(** One response, whatever follows it. *)
Lemma decode_reply_text r rest :
  frameable r → decode_reply (write_to_resp r [] ++ rest) = Some (reply_of r, rest).
Proof.
  intros Hf. unfold write_to_resp, write_to_impl. rewrite app_nil_l.
  destruct r as [| |[d|]|n|e|items]; simpl in Hf.
  - done.
  - done.
  - unfold bulk_text. rewrite <- !app_assoc. cbn -[decode_bulk crlf].
    by rewrite decode_bulk_text.
  - done.
  - unfold integer_text. rewrite <- !app_assoc. cbn -[split_crlf crlf parse_i64].
    rewrite itoa_format_display, split_crlf_line by apply display_no_cr.
    cbn -[parse_i64]. by rewrite parse_i64_display.
  - assert (∀ l, CR ∉ l → decode_reply ((str "-" ++ l ++ crlf) ++ rest) = Some (RepError l, rest))
      as H.
    { intros l Hl. rewrite <- !app_assoc. cbn -[split_crlf crlf]. by rewrite split_crlf_line. }
    cbn [reply_of]. rewrite <- (H _ Hf). f_equal.
    destruct e; cbn [error_line]; rewrite <- !app_assoc; reflexivity.
  - destruct Hf as [Hlen Hitems]. unfold array_text. rewrite <- !app_assoc.
    cbn -[split_crlf crlf parse_i64 decode_items].
    rewrite itoa_format_display, split_crlf_line by apply display_no_cr.
    cbn -[parse_i64 decode_items]. rewrite parse_i64_display by (unfold in_i64; lia).
    cbn -[decode_items]. rewrite Nat2Z.id, decode_items_text by done. done.
Qed.

Lemma write_all_text rs buf :
  foldl (λ b r, write_to_resp r b) buf rs = buf ++ mjoin ((λ r, write_to_resp r []) <$> rs).
Proof.
  revert buf. induction rs as [|r rs IH]; intros buf; [by rewrite app_nil_r|].
  cbn [foldl]. rewrite IH. cbn [fmap list_fmap]. unfold mjoin at 2. cbn [list_join]. by rewrite app_assoc.
Qed.

(** C34: the responses to pipelined RESP commands, written one after the other behind whatever the
    buffer holds, are self-delimiting: a client that decodes them reads exactly those
    responses, in order, and stops at the last byte of the last one, for values and arrays of
    arbitrary bytes, CR and LF included, of fewer than 2^63 of them, for [i64] integers and for error texts
    without a carriage return. *)
Theorem resp_reply_roundtrip rs buf rest :
  Forall frameable rs →
  ∃ out, foldl (λ b r, write_to_resp r b) buf rs = buf ++ out ∧
    decode_replies (length rs) (out ++ rest) = Some (reply_of <$> rs, rest).
Proof.
  intros Hrs. eexists. split; [apply write_all_text|].
  induction Hrs as [|r rs Hr _ IH]; [done|]. cbn [length decode_replies fmap list_fmap].
  unfold mjoin. cbn [list_join]. rewrite <- app_assoc, decode_reply_text by done.
  cbn [mbind option_bind fst snd]. by rewrite IH.
Qed.

(** [serialize] and [write_to] produce the same text for every response whose value
    bytes are valid UTF-8. *)
Theorem serialize_write_to r :
  (∀ d, r = RValue (Some d) → utf8_valid d = true) →
  (∀ items d, r = RArray items → Some d ∈ items → utf8_valid d = true) →
  serialize r = write_to r [].
Proof.
  intros Hv Ha. unfold write_to, write_to_impl. rewrite app_nil_l.
  destruct r as [| |[d|]|n|e|items]; try done.
  - unfold serialize, simple_text. by rewrite from_utf8_lossy_valid by (by apply Hv).
  - unfold serialize, integer_text. by rewrite itoa_format_display.
  - cbn [serialize]. rewrite serialize_items.
    + unfold array_text. rewrite itoa_format_display, <- !app_assoc.
      by rewrite display_i_nonneg by lia.
    + apply Forall_forall. intros i Hi d ->. by apply (Ha items).
Qed.

(** An error text with a CRLF in it is not framed: the client reads a shorter error and
    takes the rest of the text for further replies. *)
Theorem error_text_injects :
  decode_reply (write_to_resp (RError (TypeError (str "value is not an integer: k" ++ crlf ++ str "+OK"))) [])
  = Some (RepError (str "ERR type: value is not an integer: k"), str "+OK" ++ crlf).
Proof. reflexivity. Qed.
End facts.

Section witnesses.
#[local] Existing Instance itoa_display.

Definition wit_replies : list Response :=
  [RArray [Some crlf; None; Some []]; RInteger (-3); RValue (Some (str "a" ++ crlf)); RError (TypeError (str "t"))].

Lemma resp_reply_roundtrip_witness :
  ∃ out, foldl (λ b r, write_to_resp r b) (str "x") wit_replies = str "x" ++ out ∧
    decode_replies 4 (out ++ str "+OK") =
      Some ([RepArray [Some crlf; None; Some []]; RepInt (-3); RepText (Some (str "a" ++ crlf));
             RepError (str "ERR type: t")], str "+OK").
Proof.
  apply (resp_reply_roundtrip wit_replies (str "x") (str "+OK")).
  repeat constructor; try (by intros d [= <-]); try lia.
  apply (bool_decide_unpack _). by vm_compute.
Defined.

Lemma serialize_write_to_witness :
  serialize (RArray [Some (str "v"); None]) = write_to (RArray [Some (str "v"); None]) [].
Proof.
  apply serialize_write_to; [done|]. intros items d [= <-].
  intros [[= ->]|[[=]|[]%not_elem_of_nil]%elem_of_cons]%elem_of_cons. done.
Defined.
End witnesses.
