(* ===== verification/Dispatcher.v ===== *)
(** [src/application]: the four dispatchers.  [dispatch] works against the [KvEngine]
    trait; [dispatch_to_buffer] and [dispatch_borrowed_to_buffer] take a DashMap engine but
    call it through the trait only, so they are written against the trait too;
    [dispatch_fast] uses the engine's inherent fast paths.  A buffer is a byte string, and
    writing to it appends. *)

From S2P Require Import Prelude RustStd Crates Domain Metrics World Response Engine.

Section dispatcher.
Context {E : Type} {KV : KvEngine E} {CL : Clock} {IT : Itoa}.
Abbreviation W := (World E).

(** The text of [INFO]. *)
Definition info_text (uptime : Z) (m : Metrics) (l : LocalCounters) (keys : Z) : bytes :=
  str "# Server" ++ crlf ++ str "zetdb_version:0.1.0" ++ crlf ++
  str "uptime_in_seconds:" ++ display_u uptime ++ crlf ++ crlf ++
  str "# Clients" ++ crlf ++
  str "connected_clients:" ++ display_u (connections_active m) ++ crlf ++
  str "total_connections:" ++ display_u (connections_total m) ++ crlf ++ crlf ++
  str "# Stats" ++ crlf ++
  str "total_commands:" ++ display_u (commands_total m) ++ crlf ++
  str "cmd_ping:" ++ display_u (command_count m l TPing) ++ crlf ++
  str "cmd_get:" ++ display_u (command_count m l TGet) ++ crlf ++
  str "cmd_set:" ++ display_u (command_count m l TSet) ++ crlf ++
  str "cmd_del:" ++ display_u (command_count m l TDel) ++ crlf ++
  str "cmd_incr:" ++ display_u (command_count m l TIncr) ++ crlf ++
  str "cmd_info:" ++ display_u (command_count m l TInfo) ++ crlf ++
  str "cmd_dbsize:" ++ display_u (command_count m l TDbSize) ++ crlf ++
  str "keyspace_hits:" ++ display_u (keyspace_hits m) ++ crlf ++
  str "keyspace_misses:" ++ display_u (keyspace_misses m) ++ crlf ++
  str "errors_total:" ++ display_u (errors_total m) ++ crlf ++ crlf ++
  str "# Keyspace" ++ crlf ++ str "db0:keys=" ++ display_u keys ++ crlf.

Definition info : ST W bytes :=
  t ← now; ml ← get_metrics; n ← kv_len;
  mret (info_text (uptime_secs ml.1 t) ml.1 ml.2 n).

(** The entry a [SET] stores. *)
Definition make_entry (value : bytes) (ttl : option Duration) : ST W ValueEntry :=
  match ttl with
  | Some dur => entry_with_ttl value dur
  | None => entry_new value
  end.

(** The loop of [MSET]: it stops at the first error. *)
Fixpoint mset_pairs (pairs : list (bytes * bytes)) : ST W (result () EngineError) :=
  match pairs with
  | [] => mret (Ok tt)
  | (key, value) :: pairs =>
      entry ← entry_new value;
      r ← kv_set key entry;
      match r with
      | Err e => mret (Err e)
      | Ok _ => mset_pairs pairs
      end
  end.

(** [dispatch] *)
Definition dispatch (cmd : Command) : ST W Response :=
  match cmd with
  | CGet key =>
      r ← kv_get key;
      mret match r with
           | Ok (Some entry) => RValue (Some (data entry))
           | Ok None => RValue None
           | Err e => RError (InternalError (engine_error_display e))
           end
  | CSet key value ttl =>
      entry ← make_entry value ttl;
      r ← kv_set key entry;
      mret match r with
           | Ok _ => ROk
           | Err e => RError (InternalError (engine_error_display e))
           end
  | CPing => mret RPong
  | CDel key =>
      r ← kv_del key;
      mret match r with
           | Ok existed => RInteger (if existed : bool then 1 else 0)
           | Err e => RError (InternalError (engine_error_display e))
           end
  | CIncr key =>
      r ← kv_incr key;
      mret match r with
           | Ok n => RInteger n
           | Err e => RError (TypeError (engine_error_display e))
           end
  | CInfo => txt ← info; mret (RValue (Some txt))
  | CDbSize => n ← kv_len; mret (RInteger (i64 n))
  | CExists key => b ← kv_exists key; mret (RInteger (if b : bool then 1 else 0))
  | CTtl key => n ← kv_ttl_secs key; mret (RInteger n)
  | CExpire key seconds => b ← kv_expire key seconds; mret (RInteger (if b : bool then 1 else 0))
  | CFlushDb => kv_clear;; mret ROk
  | CKeys => ks ← kv_keys; mret (RArray (Some <$> ks))
  | CMget keys => l ← kv_mget keys; mret (RArray (option_map data <$> l))
  | CMset pairs =>
      r ← mset_pairs pairs;
      mret match r with
           | Ok _ => ROk
           | Err e => RError (InternalError (engine_error_display e))
           end
  end.

(** A value in the connection's mode. *)
Definition value_text (is_resp : bool) (d : bytes) : bytes :=
  if is_resp then bulk_text d else simple_text d.

(** [dispatch_to_buffer] *)
Definition dispatch_to_buffer (cmd : Command) (buf : bytes) (is_resp : bool) : ST W bytes :=
  match cmd with
  | CGet key =>
      r ← kv_get key;
      mret (buf ++ match r with
                   | Ok (Some entry) => value_text is_resp (data entry)
                   | Ok None => nil_text
                   | Err _ => str "-ERR internal" ++ crlf
                   end)
  | CSet key value ttl =>
      entry ← make_entry value ttl;
      r ← kv_set key entry;
      mret (buf ++ match r with
                   | Ok _ => str "+OK" ++ crlf
                   | Err _ => str "-ERR internal" ++ crlf
                   end)
  | CPing => mret (buf ++ str "+PONG" ++ crlf)
  | CDel key =>
      r ← kv_del key;
      mret (buf ++ match r with
                   | Ok existed => integer_text (if existed : bool then 1 else 0)
                   | Err _ => str "-ERR internal" ++ crlf
                   end)
  | CIncr key =>
      r ← kv_incr key;
      mret (buf ++ match r with
                   | Ok n => integer_text n
                   | Err _ => str "-ERR type" ++ crlf
                   end)
  | CInfo => txt ← info; mret (buf ++ value_text is_resp txt)
  | CDbSize => n ← kv_len; mret (buf ++ integer_text (i64 n))
  | CExists key => b ← kv_exists key; mret (buf ++ integer_text (if b : bool then 1 else 0))
  | CTtl key => n ← kv_ttl_secs key; mret (buf ++ integer_text n)
  | CExpire key seconds =>
      b ← kv_expire key seconds; mret (buf ++ integer_text (if b : bool then 1 else 0))
  | CFlushDb => kv_clear;; mret (buf ++ str "+OK" ++ crlf)
  | CKeys => ks ← kv_keys; mret (buf ++ array_text (Some <$> ks))
  | CMget keys => l ← kv_mget keys; mret (buf ++ array_text (option_map data <$> l))
  | CMset pairs =>
      r ← mset_pairs pairs;
      mret (buf ++ match r with
                   | Ok _ => str "+OK" ++ crlf
                   | Err e => str "-ERR internal: " ++ engine_error_display e ++ crlf
                   end)
  end.

(** ** [dispatcher_borrowed.rs] *)

(** [std::str::from_utf8(key).unwrap_or("")] *)
Abbreviation key_str := from_utf8_or_empty.

(** The loops of [MGET] (one [get] per key) and [MSET] (errors ignored). *)
Fixpoint borrowed_mget (keys : list bytes) : ST W (list (option bytes)) :=
  match keys with
  | [] => mret []
  | key :: keys =>
      r ← kv_get (key_str key);
      l ← borrowed_mget keys;
      mret (match r with Ok (Some entry) => Some (data entry) | _ => None end :: l)
  end.

Fixpoint borrowed_mset (pairs : list (bytes * bytes)) : ST W () :=
  match pairs with
  | [] => mret tt
  | (key, value) :: pairs =>
      entry ← entry_new value;
      kv_set (key_str key) entry;;
      borrowed_mset pairs
  end.

(** Items separated by one space. *)
Fixpoint spaced (l : list bytes) : bytes :=
  match l with
  | [] => []
  | [x] => x
  | x :: l => x ++ str " " ++ spaced l
  end.

(** [dispatch_borrowed_to_buffer] *)
Definition dispatch_borrowed_to_buffer (cmd : ParsedCommand) (buf : bytes) (is_resp : bool) :
    ST W bytes :=
  match cmd with
  | PGet key =>
      r ← kv_get (key_str key);
      mret (buf ++ match r with
                   | Ok (Some entry) => value_text is_resp (data entry)
                   | Ok None => nil_text
                   | Err _ => str "-ERR internal" ++ crlf
                   end)
  | PSet key value ttl =>
      entry ← make_entry value ttl;
      r ← kv_set (key_str key) entry;
      mret (buf ++ match r with
                   | Ok _ => str "+OK" ++ crlf
                   | Err _ => str "-ERR internal" ++ crlf
                   end)
  | PPing => mret (buf ++ str "+PONG" ++ crlf)
  | PDel key =>
      r ← kv_del (key_str key);
      mret (buf ++ match r with
                   | Ok existed => integer_text (if existed : bool then 1 else 0)
                   | Err _ => str "-ERR internal" ++ crlf
                   end)
  | PIncr key =>
      r ← kv_incr (key_str key);
      mret (buf ++ match r with
                   | Ok n => integer_text n
                   | Err _ => str "-ERR type" ++ crlf
                   end)
  | PInfo =>
      ml ← get_metrics;
      put_metrics (flush_all ml.1 ml.2);;
      txt ← info;
      mret (buf ++ value_text is_resp txt)
  | PDbSize => n ← kv_len; mret (buf ++ integer_text n)
  | PExists key =>
      b ← kv_exists (key_str key);
      mret (buf ++ if b : bool then integer_text 1 else integer_text 0)
  | PTtl key =>
      n ← kv_ttl_secs (key_str key);
      mret (buf ++ if n =? -2 then str ":-2" ++ crlf
                   else if n =? -1 then str ":-1" ++ crlf
                   else integer_text n)
  | PExpire key seconds =>
      b ← kv_expire (key_str key) seconds;
      mret (buf ++ if b : bool then str ":1" ++ crlf else str ":0" ++ crlf)
  | PFlushDb => kv_clear;; mret (buf ++ str "+OK" ++ crlf)
  | PKeys =>
      ks ← kv_keys;
      mret (buf ++ if is_resp then array_text (Some <$> ks) else spaced ks ++ crlf)
  | PMget keys =>
      values ← borrowed_mget keys;
      mret (buf ++ if is_resp then array_text values
                   else spaced (default (str "(nil)") <$> values) ++ crlf)
  | PMset pairs => borrowed_mset pairs;; mret (buf ++ str "+OK" ++ crlf)
  end.
End dispatcher.

(** ** [dispatcher_fast.rs] *)

Section fast.
Context {M : Type} {DM : DashMap bytes ValueEntry M}.

(** [dispatch_fast]: keys are taken as they are ([from_utf8_unchecked]). *)
Definition dispatch_fast (cmd : ParsedCommand) (buf : bytes) : ST (World (DashMapEngine M)) bytes :=
  match cmd with
  | PGet key =>
      r ← get_fast key;
      mret (buf ++ match r with Some d => simple_text d | None => nil_text end)
  | PSet key value _ => set_fast_str key value;; mret (buf ++ str "+OK" ++ crlf)
  | _ => mret (buf ++ str "-ERR unsupported" ++ crlf)
  end.
End fast.
