(* ===== verification/DispatcherProps.v ===== *)
(** The dispatchers agree with each other, and what a client of [dispatch] can rely on. *)

From S2P Require Import Prelude RustStd Crates Domain Metrics World Response Engine EngineFacts.
From S2P Require Import EvictFacts StoreSpec EngineProps Dispatcher.

(** * Direct writing against [dispatch] *)

Section agree.
Context {E : Type} {KV : KvEngine E} {CL : Clock} {IT : Itoa}.
Abbreviation W := (World E).

(** The text the direct dispatcher writes for what [dispatch] would answer: error texts are
    cut short, except that of [MSET]. *)
Definition direct_text (cmd : Command) (r : Response) (is_resp : bool) : bytes :=
  match cmd, r with
  | CMset _, _ => write_to_impl r [] is_resp
  | CIncr _, RError _ => str "-ERR type" ++ crlf
  | _, RError _ => str "-ERR internal" ++ crlf
  | _, _ => write_to_impl r [] is_resp
  end.

Lemma to_buffer_text cmd buf is_resp (w : W) :
  dispatch_to_buffer cmd buf is_resp w =
  (r ← dispatch cmd; mret (buf ++ direct_text cmd r is_resp)) w.
Proof.
  destruct cmd; cbn [dispatch_to_buffer dispatch]; unfold mbind, st_bind, mret, st_ret;
    repeat case_match; by simplify_eq/=.
Qed.

(** C18: the direct dispatcher of owned commands is [dispatch] followed by writing the
    response in the connection's mode: same engine calls, same state, same panics, same bytes
    for every command and every answer of the engine; only the text of an error is shortened
    (and [MSET]'s is not). *)
Theorem dispatch_to_buffer_agrees cmd buf is_resp (w : W) :
  dispatch_to_buffer cmd buf is_resp w =
  (r ← dispatch cmd; mret (buf ++ direct_text cmd r is_resp)) w.
Proof. apply to_buffer_text. Qed.

(** The commands on which the two direct dispatchers are meant to agree: keys are UTF-8, a
    key count fits an [i64], and arrays are asked for in RESP mode. *)
Definition borrowed_same (cmd : ParsedCommand) (is_resp : bool) (w : W) : Prop :=
  match cmd with
  | PGet key | PSet key _ _ | PDel key | PIncr key | PExists key | PTtl key | PExpire key _ =>
      utf8_valid key = true
  | PDbSize => ∀ n w', kv_len w = (Val n, w') → in_i64 n
  | PKeys => is_resp = true
  | PPing | PFlushDb => True
  | PInfo | PMget _ | PMset _ => False
  end.

Lemma key_str_valid key : utf8_valid key = true → from_utf8_or_empty key = key.
Proof. unfold from_utf8_or_empty. by intros ->. Qed.

(** The zero-copy dispatcher behaves on a borrowed command as the direct dispatcher does
    on its owned copy, byte for byte and state for state, for UTF-8 keys ([INFO], [MGET] and
    [MSET], and [KEYS] on an inline connection, are written differently). *)
Theorem dispatch_borrowed_agrees cmd buf is_resp (w : W) :
  borrowed_same cmd is_resp w →
  dispatch_borrowed_to_buffer cmd buf is_resp w =
  dispatch_to_buffer (to_owned cmd) buf is_resp w.
Proof.
  destruct cmd; cbn [borrowed_same dispatch_borrowed_to_buffer dispatch_to_buffer to_owned];
    intros H; try done; unfold bytes_to_string; rewrite ?key_str_valid by done;
    unfold mbind, st_bind, mret, st_ret; try done.
  - destruct (kv_len w) as [[n| |] w'] eqn:El; try done. by rewrite i64_id by (by eapply H).
  - by destruct (kv_exists key w) as [[[]| |] w'].
  - destruct (kv_ttl_secs key w) as [[n| |] w']; try done. unfold integer_text.
    rewrite itoa_format_display.
    destruct (Z.eqb_spec n (-2)) as [-> |]; [done|]. by destruct (Z.eqb_spec n (-1)) as [-> |].
  - unfold integer_text. destruct (kv_expire key seconds w) as [[[]| |] w'];
      by rewrite ?itoa_format_display.
  - by subst.
Qed.

(** On the zero-copy path every key that is not UTF-8 is the empty key: a value stored
    under one such key is stored, read and deleted under all of them. *)
Theorem borrowed_invalid_keys_alias k1 k2 value ttl buf is_resp (w : W) :
  utf8_valid k1 = false → utf8_valid k2 = false →
  dispatch_borrowed_to_buffer (PSet k1 value ttl) buf is_resp w =
    dispatch_borrowed_to_buffer (PSet k2 value ttl) buf is_resp w ∧
  dispatch_borrowed_to_buffer (PGet k1) buf is_resp w =
    dispatch_borrowed_to_buffer (PGet []) buf is_resp w ∧
  dispatch_borrowed_to_buffer (PDel k2) buf is_resp w =
    dispatch_borrowed_to_buffer (PDel []) buf is_resp w.
Proof.
  intros H1 H2. cbn [dispatch_borrowed_to_buffer]. unfold from_utf8_or_empty.
  by rewrite H1, H2.
Qed.
End agree.

(** * What a client of [dispatch] relies on *)

Section client.
Context {E : Type} {KV : KvEngine E} {OK : KvEngineOk E} {CL : Clock}.
Abbreviation W := (World E).

(** Through [dispatch] and any engine that keeps the trait's promise, a value stored
    without a lifetime is answered by the next [GET], and a deleted or flushed key is answered
    with nil. *)
Theorem dispatch_set_get_del k v (w : W) :
  (∀ w1, dispatch (CSet k v None) w = (Val ROk, w1) →
     ∃ w2, dispatch (CGet k) w1 = (Val (RValue (Some v)), w2)) ∧
  (∀ n w1, dispatch (CDel k) w = (Val (RInteger n), w1) →
     ∃ w2, dispatch (CGet k) w1 = (Val (RValue None), w2)) ∧
  (∀ w1, dispatch CFlushDb w = (Val ROk, w1) →
     ∃ w2, dispatch (CGet k) w1 = (Val (RValue None), w2)).
Proof.
  cbn [dispatch make_entry]. split_and!.
  - intros w1. unfold entry_new, now, mbind, st_bind, mret, st_ret. simpl.
    destruct (kv_set _ _ _) as [[[[]|e]| |] w2] eqn:Es; intros [= <-].
    destruct (kv_set_get _ _ _ _ Es) as (w3 & Eg); [done|]. exists w3. by rewrite Eg.
  - intros n w1. unfold mbind, st_bind, mret, st_ret.
    destruct (kv_del k w) as [[[b|e]| |] w2] eqn:Ed; intros [= _ <-].
    destruct (kv_del_get _ _ _ _ Ed) as (w3 & Eg). exists w3. by rewrite Eg.
  - intros w1. unfold mbind, st_bind, mret, st_ret.
    destruct (kv_clear w) as [[[]| |] w2] eqn:Ec; intros [= <-].
    destruct (kv_clear_get k _ _ Ec) as (w3 & Eg). exists w3. by rewrite Eg.
Qed.
End client.

(** * [dispatch] over the DashMap engine *)

Section dashmap.
Context {M : Type} {DM : DashMap bytes ValueEntry M} {CL : Clock} {IT : Itoa}.
Abbreviation EW := (World (DashMapEngine M)).
Implicit Types (w : EW) (k v : bytes).
Abbreviation wmap w := (emap (eng w)).
Abbreviation wnow w := (clk (tick w)).

Lemma dispatch_get_run k w :
  ∃ w', dispatch (CGet k) w = (Val (RValue (data <$> sees (wmap w) (wnow w) k)), w') ∧ quiet w w'.
Proof.
  destruct (get_run k w) as (w' & E & Hq). exists w'. split; [|done]. cbn [dispatch].
  change (kv_get k) with (get k : ST EW _). rewrite (st_bind_val _ _ _ _ _ E).
  by destruct (sees (wmap w) (wnow w) k).
Qed.

(** A [set] in a store without a limit. *)
Lemma set_unlimited k e w :
  max_keys (eng w) = 0 → set k e w = (Val (Ok tt), with_map (dm_insert (wmap w) k e) w).
Proof.
  intros Hmk. unfold set. rewrite (st_bind_val get_max_keys _ w (max_keys (eng w)) w) by done.
  rewrite (st_bind_val get_map _ w (wmap w) w) by done. by rewrite Hmk.
Qed.

(** [SET k v EX d] in a store without a limit, then [GET k] at any later moment with no
    other change to the store: the value is answered before the deadline, nil from the
    deadline on, and the deadline is the clock's reading at the [SET] plus [d]. *)
Theorem set_ttl_expires k v d w :
  max_keys (eng w) = 0 → wnow w + d ≤ instant_max →
  ∃ w1, dispatch (CSet k v (Some d)) w = (Val ROk, w1) ∧
    ∀ w2, eng w2 = eng w1 → (tick w1 ≤ tick w2)%nat →
      ∃ w3, dispatch (CGet k) w2 =
        (Val (RValue (if wnow w2 <? wnow w + d then Some v else None)), w3).
Proof.
  intros Hmk Hd.
  assert (instant_add (wnow w) d = Val (wnow w + d)) as Ha.
  { unfold instant_add. by rewrite (proj2 (Z.leb_le _ _) Hd). }
  set (e := {| data := v; expires_at := Some (wnow w + d);
               created_at := Some (wnow (bump w)) |}).
  assert (entry_with_ttl v d w = (Val e, bump (bump w))) as Ee.
  { unfold entry_with_ttl, now, lift_outcome, mbind, st_bind, mret, st_ret. simpl. by rewrite Ha. }
  exists (with_map (dm_insert (wmap w) k e) (bump (bump w))). split.
  - cbn [dispatch make_entry]. rewrite (st_bind_val _ _ _ _ _ Ee).
    change (kv_set k e) with (set k e : ST EW _).
    by rewrite (st_bind_val _ _ _ _ _ (set_unlimited k e (bump (bump w)) Hmk)).
  - intros w2 He _. destruct (dispatch_get_run k w2) as (w3 & E & _). exists w3. rewrite E.
    rewrite He. simpl. rewrite sees_insert, decide_True by done.
    unfold is_expired_at. simpl. do 3 f_equal.
    destruct (Z.leb_spec (wnow w + d) (wnow w2)), (Z.ltb_spec (wnow w2) (wnow w + d)); done || lia.
Qed.

(** ** MSET then MGET *)

(** The value the last pair with this key gives. *)
Fixpoint last_value (pairs : list (bytes * bytes)) k : option bytes :=
  match pairs with
  | [] => None
  | (k', v) :: pairs =>
      match last_value pairs k with
      | Some v' => Some v'
      | None => if decide (k' = k) then Some v else None
      end
  end.

Lemma mset_pairs_run pairs w :
  max_keys (eng w) = 0 →
  ∃ w', mset_pairs pairs w = (Val (Ok tt), w') ∧ ext w w' ∧
    ∀ t k, data <$> sees (wmap w') t k =
      match last_value pairs k with
      | Some v => Some v
      | None => data <$> sees (wmap w) t k
      end.
Proof.
  revert w; induction pairs as [|[k v] pairs IH]; intros w Hmk.
  { by exists w. }
  set (e := {| data := v; expires_at := None; created_at := Some (wnow w) |}).
  set (w1 := with_map (dm_insert (wmap w) k e) (bump w)).
  destruct (IH w1 Hmk) as (w2 & E2 & Hext & Hd). exists w2. split_and!.
  - cbn [mset_pairs]. rewrite (st_bind_val _ _ w e (bump w)) by done.
    change (kv_set k e) with (set k e : ST EW _).
    by rewrite (st_bind_val _ _ _ _ _ (set_unlimited k e (bump w) Hmk)).
  - etrans; [apply ext_bump|]. etrans; [apply (ext_with_map (dm_insert (wmap w) k e)) | done].
  - intros t k'. rewrite Hd. cbn [last_value]. destruct (last_value pairs k'); [done|].
    unfold w1. simpl. rewrite sees_insert. by case_decide.
Qed.

(** C39: [MSET] in a store without a limit answers OK, and a following [MGET] of any keys
    answers, key by key, the value of the last pair with that key, or what was visible
    before. *)
Theorem mset_mget pairs keys w :
  max_keys (eng w) = 0 →
  ∃ w1 w2, dispatch (CMset pairs) w = (Val ROk, w1) ∧
    dispatch (CMget keys) w1 =
      (Val (RArray ((λ k, match last_value pairs k with
                          | Some v => Some v
                          | None => data <$> sees (wmap w) (wnow w1) k
                          end) <$> keys)), w2).
Proof.
  intros Hmk. destruct (mset_pairs_run pairs w Hmk) as (w1 & E & _ & Hd).
  exists w1, (bump w1). cbn [dispatch]. rewrite (st_bind_val _ _ _ _ _ E). split; [done|].
  change (kv_mget keys) with (mget keys : ST EW _).
  rewrite (st_bind_val _ _ _ _ _ (mget_run keys w1)). unfold mret, st_ret. do 3 f_equal.
  rewrite <- list_fmap_compose. apply list_fmap_ext. intros _ k _. exact (Hd _ k).
Qed.

(** ** Divergences *)

(** On the zero-copy path [MSET] answers OK although the engine refused to store the
    pair; the direct dispatcher of owned commands reports the same refusal. *)
Theorem borrowed_mset_hides_errors k v e buf is_resp w w1 :
  utf8_valid k = true →
  set k {| data := v; expires_at := None; created_at := Some (wnow w) |} (bump w) = (Val (Err e), w1) →
  dispatch_borrowed_to_buffer (PMset [(k, v)]) buf is_resp w = (Val (buf ++ str "+OK" ++ crlf), w1) ∧
  dispatch_to_buffer (CMset [(k, v)]) buf is_resp w =
    (Val (buf ++ str "-ERR internal: " ++ engine_error_display e ++ crlf), w1).
Proof.
  intros Hk E. cbn [dispatch_borrowed_to_buffer borrowed_mset dispatch_to_buffer mset_pairs].
  rewrite key_str_valid by done. cbn -[str crlf set].
  unfold entry_new, now, mbind, st_bind, mret, st_ret. cbn -[str crlf set].
  unfold bump in E. by rewrite E.
Qed.

(** The fast dispatcher ignores deadlines: a [SET] with a lifetime stores the value for
    ever, and a [GET] answers a value that has expired. *)
Theorem fast_ignores_ttl k v ttl w :
  (∃ w1, dispatch_fast (PSet k v ttl) [] w = (Val (str "+OK" ++ crlf), w1) ∧
     ∀ t, data <$> sees (wmap w1) t k = Some v) ∧
  (∀ e, dm_get (wmap w) k = Some e →
     dispatch_fast (PGet k) [] w = (Val (simple_text (data e)), w)).
Proof.
  split.
  - eexists. split; [reflexivity|]. intros t. simpl. rewrite sees_insert. by rewrite decide_True.
  - intros e He. cbn. unfold get_fast, get_map, get_eng, mbind, st_bind, mret, st_ret. simpl.
    by rewrite He.
Qed.
End dashmap.

(** * Witnesses *)

Section witnesses.
#[local] Existing Instances gmap_dashmap ms_clock itoa_display.
Abbreviation GW := (World (DashMapEngine (gmap bytes ValueEntry))).

Definition wit_empty : GW := mkWorld (mkEngine ∅ 0) 5 (metrics_init 0) local_default.

(** A store with a limit of one key, held by an expired entry. *)
Definition wit_dead_full : GW :=
  mkWorld (mkEngine {[str "x" := mkValueEntry (str "old") (Some 0) (Some 0)]} 1) 5
    (metrics_init 0) local_default.

Lemma dispatch_borrowed_agrees_witness :
  dispatch_borrowed_to_buffer (PSet (str "k") (str "v") None) [] true wit_empty =
  dispatch_to_buffer (CSet (str "k") (str "v") None) [] true wit_empty.
Proof. by apply (dispatch_borrowed_agrees (PSet (str "k") (str "v") None)). Defined.

Lemma borrowed_invalid_keys_alias_witness :
  dispatch_borrowed_to_buffer (PSet [Byte.xff] (str "v") None) [] true wit_empty =
    dispatch_borrowed_to_buffer (PSet [Byte.xfe] (str "v") None) [] true wit_empty ∧
  dispatch_borrowed_to_buffer (PGet [Byte.xff]) [] true wit_empty =
    dispatch_borrowed_to_buffer (PGet []) [] true wit_empty ∧
  dispatch_borrowed_to_buffer (PDel [Byte.xfe]) [] true wit_empty =
    dispatch_borrowed_to_buffer (PDel []) [] true wit_empty.
Proof. by apply borrowed_invalid_keys_alias. Defined.

Lemma dispatch_set_get_del_witness :
  ∃ w1 w2, dispatch (CSet (str "k") (str "v") None) wit_empty = (Val ROk, w1) ∧
    dispatch (CGet (str "k")) w1 = (Val (RValue (Some (str "v"))), w2).
Proof.
  destruct (dispatch_set_get_del (str "k") (str "v") wit_empty) as [H _].
  edestruct H as (w2 & Hw2); [reflexivity|]. eexists _, w2. split; [reflexivity | exact Hw2].
Defined.

Lemma set_ttl_expires_witness :
  ∃ w1, dispatch (CSet (str "k") (str "v") (Some 3000000000)) wit_empty = (Val ROk, w1) ∧
    ∀ w2, eng w2 = eng w1 → (tick w1 ≤ tick w2)%nat →
      ∃ w3, dispatch (CGet (str "k")) w2 =
        (Val (RValue (if clk (tick w2) <? clk 5 + 3000000000 then Some (str "v") else None)), w3).
Proof. by apply (set_ttl_expires (str "k") (str "v") 3000000000 wit_empty). Defined.

Lemma mset_mget_witness :
  ∃ w1 w2, dispatch (CMset [(str "a", str "1"); (str "a", str "2")]) wit_empty = (Val ROk, w1) ∧
    dispatch (CMget [str "a"; str "b"]) w1 = (Val (RArray [Some (str "2"); None]), w2).
Proof.
  destruct (mset_mget [(str "a", str "1"); (str "a", str "2")] [str "a"; str "b"] wit_empty)
    as (w1 & w2 & H1 & H2); [done|].
  exists w1, w2. split; [exact H1|]. rewrite H2. reflexivity.
Defined.

Lemma borrowed_mset_hides_errors_witness :
  ∃ w1,
    dispatch_borrowed_to_buffer (PMset [(str "a", str "1")]) [] true wit_dead_full =
      (Val (str "+OK" ++ crlf), w1) ∧
    dispatch_to_buffer (CMset [(str "a", str "1")]) [] true wit_dead_full =
      (Val (str "-ERR internal: " ++ engine_error_display EngOutOfMemory ++ crlf), w1).
Proof.
  eexists. by apply (borrowed_mset_hides_errors (str "a") (str "1") EngOutOfMemory [] true).
Defined.

Lemma fast_ignores_ttl_witness :
  dispatch_fast (PGet (str "x")) [] wit_dead_full = (Val (str "+old" ++ crlf), wit_dead_full).
Proof.
  destruct (fast_ignores_ttl (str "x") [] None wit_dead_full) as [_ H].
  by rewrite (H (mkValueEntry (str "old") (Some 0) (Some 0))).
Defined.
End witnesses.
