(* ===== verification/CommandEnds.v ===== *)
(** Commands end: on the engine [main] builds, without a key limit, every call and every command of
    the dispatchers ([src/application]) returns or panics, and the limit stays.

    A computation that does not end, one that waits for a lock it holds itself or a loop without
    a last turn, is [Stuck]; here none is. *)

From S2P Require Import Prelude RustStd Crates Domain Metrics World Engine EngineFacts EvictFacts.
From S2P Require Import StoreSpec EngineProps Response Dispatcher DispatcherProps.

Create HintDb ends.

(** * Computations that end *)

(** From a state with [I], [c] returns or panics, in a state with [I]. *)
Definition ends {S A} (I : S → Prop) (c : ST S A) : Prop := ∀ s, I s → (c s).1 ≠ Stuck ∧ I (c s).2.

Section ends.
Context {S : Type} (I : S → Prop).

Lemma ends_ret {A} (a : A) : ends I (mret a).
Proof. by intros s Hs. Qed.

Lemma ends_bind {A B} (c : ST S A) (k : A → ST S B) : ends I c → (∀ a, ends I (k a)) → ends I (c ≫= k).
Proof.
  intros Hc Hk s Hs. destruct (Hc s Hs) as [H1 H2]. unfold mbind, st_bind.
  destruct (c s) as [[a| |] s']; [by apply Hk | by split | done].
Qed.

Lemma ends_if {A} (b : bool) (c d : ST S A) : ends I c → ends I d → ends I (if b then c else d).
Proof. by destruct b. Qed.
End ends.

#[export] Hint Resolve ends_ret ends_bind ends_if : ends.

(** * Commands *)

Section commands.
Context {M : Type} {DM : DashMap bytes ValueEntry M} {CL : Clock} {IT : Itoa}.
Abbreviation EW := (World (DashMapEngine M)).
Implicit Types (w : EW).

Definition unlimited w : Prop := max_keys (eng w) = 0.

Lemma ends_run {A} (c : ST EW A) : (∀ w, ∃ a w', c w = (Val a, w') ∧ ext w w') → ends unlimited c.
Proof.
  intros Hc w Hw. destruct (Hc w) as (a & w' & -> & Hm & _). split; [done|]. unfold unlimited in *. cbn. lia.
Qed.

Lemma get_ends k : ends unlimited (kv_get k : ST EW _).
Proof. apply ends_run. intros w. destruct (get_run k w) as (w' & E & Hq & _). by do 2 eexists. Qed.
Lemma exists_ends k : ends unlimited (kv_exists k : ST EW _).
Proof. apply ends_run. intros w. destruct (exists_run k w) as (w' & E & Hq & _). by do 2 eexists. Qed.
Lemma ttl_ends k : ends unlimited (kv_ttl_secs k : ST EW _).
Proof. apply ends_run. intros w. destruct (ttl_secs_run k w) as (w' & t & E & [Hq _] & _). by do 2 eexists. Qed.
Lemma del_ends k : ends unlimited (kv_del k : ST EW _).
Proof. apply ends_run. intros w. destruct (del_run k w) as (w' & E & Hq & _). by do 2 eexists. Qed.
Lemma set_ends k v : ends unlimited (kv_set k v : ST EW _).
Proof. apply ends_run. intros w. destruct (set_run k v w) as (w' & r & E & Hq & _). by do 2 eexists. Qed.
Lemma keys_ends : ends unlimited (kv_keys : ST EW _).
Proof. apply ends_run. intros w. do 2 eexists. split; [apply keys_run | apply ext_bump]. Qed.
Lemma mget_ends ks : ends unlimited (kv_mget ks : ST EW _).
Proof. apply ends_run. intros w. do 2 eexists. split; [apply mget_run | apply ext_bump]. Qed.
Lemma len_ends : ends unlimited (kv_len : ST EW _).
Proof. by intros w Hw. Qed.
Lemma clear_ends : ends unlimited (kv_clear : ST EW _).
Proof. by intros w Hw. Qed.

(** A deadline past the largest instant panics. *)
Lemma expire_ends k n : ends unlimited (kv_expire k n : ST EW _).
Proof.
  intros w Hw. pose proof (expire_run k n w) as H. change (kv_expire k n) with (expire k n : ST EW _).
  destruct (sees _ _ k) as [e|].
  - destruct H as (w' & t & _ & [Hm _] & H). destruct (instant_add _ _) as [exp| |]; [| |done].
    + destruct H as [-> _]. split; [done|]. unfold unlimited in *. cbn. lia.
    + destruct H as [-> _]. split; [done|]. unfold unlimited in *. cbn. lia.
  - destruct H as (w' & -> & [Hm _] & _). split; [done|]. unfold unlimited in *. cbn. lia.
Qed.

(** Without a limit a new counter looks at no lock but its own. *)
Lemma incr_ends k : ends unlimited (kv_incr k : ST EW _).
Proof.
  intros w Hw. change (kv_incr k) with (incr k : ST EW _). unfold unlimited in *.
  destruct (sees (emap (eng w)) (clk (tick w)) k) as [e|] eqn:Hs.
  - destruct (incr_seen_run k e w Hs) as (w' & [Hm _] & H).
    destruct (int_of e); destruct H as [-> _]; (split; [done | cbn; lia]).
  - destruct (incr_unseen_run k w Hs) as [[(_ & ? & _) _]|(w' & r & -> & [Hm _] & _)]; [lia|].
    split; [done | cbn; lia].
Qed.

Lemma make_entry_ends v ttl : ends unlimited (make_entry v ttl : ST EW _).
Proof.
  intros w Hw. destruct ttl as [d|]; [|done].
  unfold make_entry, entry_with_ttl, now, lift_outcome, instant_add, mbind, st_bind.
  by destruct (clk (tick w) + d <=? instant_max).
Qed.

Lemma entry_new_ends v : ends unlimited (entry_new v : ST EW _).
Proof. by intros w Hw. Qed.

#[local] Hint Resolve get_ends exists_ends ttl_ends del_ends set_ends keys_ends mget_ends len_ends
  clear_ends expire_ends incr_ends make_entry_ends entry_new_ends : ends.

Lemma mset_ends ps : ends unlimited (mset_pairs ps : ST EW _).
Proof.
  induction ps as [|[k v] ps IH]; cbn [mset_pairs]; [auto with ends|].
  apply ends_bind; [auto with ends|]. intros e. apply ends_bind; [auto with ends|].
  intros [|]; auto with ends.
Qed.

Lemma info_ends : ends unlimited (info : ST EW _).
Proof. by intros w Hw. Qed.

#[local] Hint Resolve mset_ends info_ends : ends.

Lemma dispatch_ends c : ends unlimited (dispatch c : ST EW _).
Proof. destruct c; cbn [dispatch]; auto 6 with ends. Qed.

Lemma to_buffer_ends c buf b : ends unlimited (dispatch_to_buffer c buf b : ST EW _).
Proof. destruct c; cbn [dispatch_to_buffer]; auto 6 with ends. Qed.

Lemma fast_ends c buf : ends unlimited (dispatch_fast c buf : ST EW _).
Proof. intros w Hw. by destruct c. Qed.
End commands.

#[export] Hint Resolve dispatch_ends to_buffer_ends fast_ends : ends.
