(* ===== verification/Aof.v ===== *)
(** [src/storage/aof.rs]: the append-only file.  Its binary format, replay at start-up,
    rewriting, and the writer that batches entries.

    Reading is by position in the source; here the unread bytes are passed along, so
    [pos + n > data.len()] reads "fewer than n unread bytes".  I/O calls succeed
    (file Disk has those that fail); what the file holds is part of the writer's state. *)

From S2P Require Import Prelude RustStd Crates Domain Metrics World Engine.

(** [io::Error]: the kind, with the message where the code makes one. *)
Inductive IoError : Type := IoNotFound | IoInvalidData (message : bytes) | IoOther.

(** * Readers *)

Definition read_u16_le (data : bytes) : result (Z * bytes) IoError :=
  if (2 <=? length data)%nat then Ok (le_val (take 2 data), drop 2 data)
  else Err (IoInvalidData (str "aof truncated u16")).
Definition read_u32_le (data : bytes) : result (Z * bytes) IoError :=
  if (4 <=? length data)%nat then Ok (le_val (take 4 data), drop 4 data)
  else Err (IoInvalidData (str "aof truncated u32")).
Definition read_u64_le (data : bytes) : result (Z * bytes) IoError :=
  if (8 <=? length data)%nat then Ok (le_val (take 8 data), drop 8 data)
  else Err (IoInvalidData (str "aof truncated u64")).
Definition read_i64_le (data : bytes) : result (Z * bytes) IoError :=
  if (8 <=? length data)%nat then Ok (i64 (le_val (take 8 data)), drop 8 data)
  else Err (IoInvalidData (str "aof truncated i64")).

(** * Encoders *)

Definition CMD_SET : byte := Byte.x01.
Definition CMD_DEL : byte := Byte.x02.
Definition CMD_INCR : byte := Byte.x03.
Definition CMD_EXPIRE : byte := Byte.x04.
Definition CMD_FLUSHDB : byte := Byte.x05.
Definition CMD_MSET : byte := Byte.x06.

Definition encode_key (buf key : bytes) : bytes :=
  buf ++ le_bytes 2 (u16 (Z.of_nat (length key))) ++ key.
Definition encode_value (buf value : bytes) : bytes :=
  buf ++ le_bytes 4 (u32 (Z.of_nat (length value))) ++ value.
Definition encode_ttl (buf : bytes) (ttl_ms : Z) : bytes := buf ++ le_bytes 8 ttl_ms.

(** * Replay *)

(** The outcome of reading a field inside the replay loops: the field and what is left, or
    [break] with what is left at that point. *)
Inductive field (A : Type) : Type :=
| Field (a : A) (rest : bytes)
| Break (rest : bytes).
Arguments Field {A} a rest.
Arguments Break {A} rest.

(** The length checks, the length and the bytes of a key (lossily decoded) or a value. *)
Definition read_key (data : bytes) : field bytes :=
  if (length data <? 2)%nat then Break data
  else
    match read_u16_le data with
    | Err _ => Break data
    | Ok (key_len, rest) =>
        if Z.of_nat (length rest) <? key_len then Break rest
        else Field (from_utf8_lossy (take (Z.to_nat key_len) rest)) (drop (Z.to_nat key_len) rest)
    end.

Definition read_value (data : bytes) : field bytes :=
  if (length data <? 4)%nat then Break data
  else
    match read_u32_le data with
    | Err _ => Break data
    | Ok (val_len, rest) =>
        if Z.of_nat (length rest) <? val_len then Break rest
        else Field (take (Z.to_nat val_len) rest) (drop (Z.to_nat val_len) rest)
    end.

Definition read_ttl (data : bytes) : field Z :=
  if (length data <? 8)%nat then Break data
  else match read_i64_le data with Err _ => Break data | Ok (v, rest) => Field v rest end.

Definition read_seconds (data : bytes) : field Z :=
  if (length data <? 8)%nat then Break data
  else match read_u64_le data with Err _ => Break data | Ok (v, rest) => Field v rest end.

Definition read_count (data : bytes) : field Z :=
  if (length data <? 2)%nat then Break data
  else match read_u16_le data with Err _ => Break data | Ok (v, rest) => Field v rest end.

Section replay.
Context {M : Type} {DM : DashMap bytes ValueEntry M} {CL : Clock} {IT : Itoa}.
Abbreviation EW := (World (DashMapEngine M)).

(** The entry rebuilt from a value and a remaining lifetime ([0] and below: no deadline). *)
Definition restore_entry (value : bytes) (ttl_ms : Z) : ST EW ValueEntry :=
  exp ← (if 0 <? ttl_ms then
           t ← now;
           exp ← lift_outcome (instant_add t (from_millis (u64 ttl_ms)));
           mret (Some exp)
         else mret None);
  t' ← now;
  mret {| data := value; expires_at := exp; created_at := Some t' |}.

(** The branches of the replay loop: [None] is [break], [Some rest] a command replayed. *)
Definition replay_set (data : bytes) : ST EW (option bytes) :=
  match read_key data with
  | Break _ => mret None
  | Field key data =>
      match read_value data with
      | Break _ => mret None
      | Field value data =>
          match read_ttl data with
          | Break _ => mret None
          | Field ttl_ms data =>
              entry ← restore_entry value ttl_ms;
              set key entry;;
              mret (Some data)
          end
      end
  end.

Definition replay_del (data : bytes) : ST EW (option bytes) :=
  match read_key data with
  | Break _ => mret None
  | Field key data => del key;; mret (Some data)
  end.

Definition replay_incr (data : bytes) : ST EW (option bytes) :=
  match read_key data with
  | Break _ => mret None
  | Field key data => incr key;; mret (Some data)
  end.

Definition replay_expire (data : bytes) : ST EW (option bytes) :=
  match read_key data with
  | Break _ => mret None
  | Field key data =>
      match read_seconds data with
      | Break _ => mret None
      | Field seconds data => expire key seconds;; mret (Some data)
      end
  end.

(** [for _ in 0..count]: a [break] here leaves this loop only. *)
Fixpoint replay_mset_pairs (count : nat) (data : bytes) : ST EW bytes :=
  match count with
  | O => mret data
  | S count =>
      match read_key data with
      | Break data => mret data
      | Field key data =>
          match read_value data with
          | Break data => mret data
          | Field value data =>
              entry ← entry_new value;
              set key entry;;
              replay_mset_pairs count data
          end
      end
  end.

Definition replay_mset (data : bytes) : ST EW (option bytes) :=
  match read_count data with
  | Break _ => mret None
  | Field count data => rest ← replay_mset_pairs (Z.to_nat count) data; mret (Some rest)
  end.

Definition replay_cmd (cmd_type : byte) (data : bytes) : ST EW (option bytes) :=
  if Byte.eqb cmd_type CMD_SET then replay_set data
  else if Byte.eqb cmd_type CMD_DEL then replay_del data
  else if Byte.eqb cmd_type CMD_INCR then replay_incr data
  else if Byte.eqb cmd_type CMD_EXPIRE then replay_expire data
  else if Byte.eqb cmd_type CMD_FLUSHDB then clear;; mret (Some data)
  else if Byte.eqb cmd_type CMD_MSET then replay_mset data
  else mret None.

(** [while pos < data.len()]: a loop that is not over after its last turn is [Stuck]; every turn reads
    at least one byte. *)
Fixpoint replay_loop (fuel : nat) (data : bytes) (replayed : Z) : ST EW Z :=
  match data with
  | [] => mret replayed
  | cmd_type :: data =>
      match fuel with
      | O => λ w, (Stuck, w)
      | S fuel =>
          r ← replay_cmd cmd_type data;
          match r with
          | None => mret replayed
          | Some rest => replay_loop fuel rest (replayed + 1)
          end
      end
  end.

(** [replay_aof], given what [fs::read(path)] returns. *)
Definition replay_aof (file : result bytes IoError) : ST EW (result Z IoError) :=
  match file with
  | Ok data => n ← replay_loop (length data) data 0; mret (Ok n)
  | Err IoNotFound => mret (Ok 0)
  | Err e => mret (Err e)
  end.

(** * Rewriting *)

Definition rewrite_entry (buf : bytes) (e : bytes * bytes * Z) : bytes :=
  let '(key, value, ttl_ms) := e in
  encode_ttl (encode_value (encode_key (buf ++ [CMD_SET]) key) value) ttl_ms.

(** [rewrite_aof]: the content of [{path}.tmp] and the entry count. *)
Definition rewrite_aof : ST EW (bytes * Z) :=
  es ← dump_entries;
  mret (foldl rewrite_entry [] es, Z.of_nat (length es)).
End replay.

(** * The writer *)

Inductive FsyncPolicy : Type := Always | Everysec | No.

Definition AOF_BATCH_SIZE : nat := 4096.

(** [file] is what the file at [path] holds, [synced] how much of it has been fsynced. *)
Record AofWriter : Type := mkAof {
  file : bytes;
  synced : nat;
  fsync_policy : FsyncPolicy;
  last_fsync : Instant;
  batch_buffer : bytes
}.

Definition write_all (d : bytes) (a : AofWriter) : AofWriter :=
  mkAof (file a ++ d) (synced a) (fsync_policy a) (last_fsync a) (batch_buffer a).
Definition sync_all (a : AofWriter) : AofWriter :=
  mkAof (file a) (length (file a)) (fsync_policy a) (last_fsync a) (batch_buffer a).
Definition set_batch (b : bytes) (a : AofWriter) : AofWriter :=
  mkAof (file a) (synced a) (fsync_policy a) (last_fsync a) b.
Definition set_last (t : Instant) (a : AofWriter) : AofWriter :=
  mkAof (file a) (synced a) (fsync_policy a) t (batch_buffer a).

(** [AofWriter::new]: the file is opened for appending. *)
Definition aof_new (content : bytes) (policy : FsyncPolicy) (t : Instant) : AofWriter :=
  mkAof content (length content) policy t [].

(** Write the pending batch, if any, and empty it. *)
Definition drain_batch (a : AofWriter) : AofWriter :=
  match batch_buffer a with
  | [] => a
  | _ => set_batch [] (write_all (batch_buffer a) a)
  end.

(** [AofWriter::flush_batch]; [t] and [t'] are the readings of the clock by [elapsed] and
    for the new [last_fsync]. *)
Definition flush_batch (entry : bytes) (t t' : Instant) (a : AofWriter) : AofWriter :=
  let a := drain_batch a in
  let a := write_all entry a in
  match fsync_policy a with
  | Always => sync_all a
  | Everysec =>
      if from_secs 1 <=? instant_sub t (last_fsync a) then set_last t' (sync_all a) else a
  | No => a
  end.

(** [AofWriter::append_raw] *)
Definition append_raw (entry : bytes) (t t' : Instant) (a : AofWriter) : AofWriter :=
  let a := set_batch (batch_buffer a ++ entry) a in
  if (length (batch_buffer a) <? AOF_BATCH_SIZE)%nat then a
  else flush_batch entry t t' a.

(** [AofWriter::flush] *)
Definition flush (a : AofWriter) : AofWriter :=
  let a := drain_batch a in
  match fsync_policy a with Always => sync_all a | _ => a end.

(** [AofWriter::flush_if_needed], the work of a tick of [run_aof_fsync]. *)
Definition flush_if_needed (t t' : Instant) (a : AofWriter) : AofWriter :=
  match fsync_policy a with
  | Everysec =>
      if from_secs 1 <=? instant_sub t (last_fsync a) then
        set_last t' (sync_all (drain_batch a))
      else a
  | _ => a
  end.

(** [AofWriter::file_size] *)
Definition file_size (a : AofWriter) : Z := Z.of_nat (length (file a)).

(** [AofWriter::finalize_rewrite]: [tmp] is what [{path}.tmp] holds; the rename makes it the
    content of [path].  Its bytes were fsynced when it was written. *)
Definition finalize_rewrite (tmp : bytes) (a : AofWriter) : AofWriter :=
  let a := drain_batch a in
  mkAof tmp (length tmp) (fsync_policy a) (last_fsync a) (batch_buffer a).
