(* ===== verification/AofFacts.v ===== *)
(** Reading back what was logged: the fields, one entry, a whole log and a torn one. *)

From S2P Require Import Prelude RustStd Crates Domain Metrics World Engine EngineFacts EvictFacts.
From S2P Require Import Aof.

(** * Fields *)

Definition key_ok (k : bytes) : Prop := utf8_valid k = true ∧ Z.of_nat (length k) < 2 ^ 16.
Definition value_ok (v : bytes) : Prop := Z.of_nat (length v) < 2 ^ 32.

Lemma le_take n z rest : le_val (take n (le_bytes n z ++ rest)) = z mod 256 ^ Z.of_nat n.
Proof. rewrite <- (length_le_bytes n z) at 1. by rewrite take_app_exact, le_val_le_bytes. Qed.

Lemma le_drop n z rest : drop n (le_bytes n z ++ rest) = rest.
Proof. rewrite <- (length_le_bytes n z) at 1. by rewrite drop_app_exact. Qed.

Lemma read_u16_enc z rest : 0 ≤ z < 2 ^ 16 → read_u16_le (le_bytes 2 z ++ rest) = Ok (z, rest).
Proof.
  intros Hz. unfold read_u16_le. rewrite length_app, length_le_bytes.
  replace (2 <=? 2 + length rest)%nat with true by (symmetry; apply Nat.leb_le; lia).
  rewrite le_take, le_drop. by rewrite Z.mod_small.
Qed.

Lemma read_u32_enc z rest : 0 ≤ z < 2 ^ 32 → read_u32_le (le_bytes 4 z ++ rest) = Ok (z, rest).
Proof.
  intros Hz. unfold read_u32_le. rewrite length_app, length_le_bytes.
  replace (4 <=? 4 + length rest)%nat with true by (symmetry; apply Nat.leb_le; lia).
  rewrite le_take, le_drop. by rewrite Z.mod_small.
Qed.

Lemma read_key_enc k rest : key_ok k → read_key (aof_key k ++ rest) = Field k rest.
Proof.
  intros [Hu Hk]. unfold read_key, aof_key. rewrite <- app_assoc.
  unfold u16. rewrite Z.mod_small by lia. rewrite read_u16_enc by lia.
  rewrite !length_app, length_le_bytes.
  replace (2 + (length k + length rest) <? 2)%nat with false by (symmetry; apply Nat.ltb_ge; lia).
  rewrite (proj2 (Z.ltb_ge (Z.of_nat (length k + length rest)) (Z.of_nat (length k)))) by lia.
  by rewrite Nat2Z.id, take_app_exact, drop_app_exact, from_utf8_lossy_valid.
Qed.

Lemma read_value_enc v rest : value_ok v → read_value (aof_value v ++ rest) = Field v rest.
Proof.
  intros Hv. unfold read_value, aof_value, value_ok in *. rewrite <- app_assoc.
  unfold u32. rewrite Z.mod_small by lia. rewrite read_u32_enc by lia.
  rewrite !length_app, length_le_bytes.
  replace (4 + (length v + length rest) <? 4)%nat with false by (symmetry; apply Nat.ltb_ge; lia).
  rewrite (proj2 (Z.ltb_ge (Z.of_nat (length v + length rest)) (Z.of_nat (length v)))) by lia.
  by rewrite Nat2Z.id, take_app_exact, drop_app_exact.
Qed.

Lemma read_ttl_enc z rest : in_i64 z → read_ttl (le_bytes 8 z ++ rest) = Field z rest.
Proof.
  intros Hz. unfold read_ttl, read_i64_le. rewrite length_app, length_le_bytes.
  replace (8 + length rest <? 8)%nat with false by (symmetry; apply Nat.ltb_ge; lia).
  replace (8 <=? 8 + length rest)%nat with true by (symmetry; apply Nat.leb_le; lia).
  rewrite le_take, le_drop. change (256 ^ Z.of_nat 8) with (2 ^ 64).
  by rewrite i64_mod, i64_id.
Qed.

Lemma read_seconds_enc z rest : in_u64 z → read_seconds (le_bytes 8 z ++ rest) = Field z rest.
Proof.
  intros Hz. unfold read_seconds, read_u64_le. rewrite length_app, length_le_bytes.
  replace (8 + length rest <? 8)%nat with false by (symmetry; apply Nat.ltb_ge; lia).
  replace (8 <=? 8 + length rest)%nat with true by (symmetry; apply Nat.leb_le; lia).
  rewrite le_take, le_drop. change (256 ^ Z.of_nat 8) with (2 ^ 64). by rewrite Z.mod_small.
Qed.

Lemma read_count_enc n rest :
  Z.of_nat n < 2 ^ 16 →
  read_count (le_bytes 2 (u16 (Z.of_nat n)) ++ rest) = Field (Z.of_nat n) rest.
Proof.
  intros Hn. unfold read_count. unfold u16. rewrite Z.mod_small by lia.
  rewrite read_u16_enc by lia. rewrite length_app, length_le_bytes.
  by replace (2 + length rest <? 2)%nat with false by (symmetry; apply Nat.ltb_ge; lia).
Qed.

(** ** A field never reads backwards *)

Definition field_rest {A} (f : field A) : bytes :=
  match f with Field _ rest => rest | Break rest => rest end.

Lemma read_key_rest data : (length (field_rest (read_key data)) ≤ length data)%nat.
Proof. unfold read_key, read_u16_le. repeat case_match; simplify_eq/=; rewrite ?length_drop; lia. Qed.
Lemma read_value_rest data : (length (field_rest (read_value data)) ≤ length data)%nat.
Proof. unfold read_value, read_u32_le. repeat case_match; simplify_eq/=; rewrite ?length_drop; lia. Qed.
Lemma read_ttl_rest data : (length (field_rest (read_ttl data)) ≤ length data)%nat.
Proof. unfold read_ttl, read_i64_le. repeat case_match; simplify_eq/=; rewrite ?length_drop; lia. Qed.
Lemma read_seconds_rest data : (length (field_rest (read_seconds data)) ≤ length data)%nat.
Proof. unfold read_seconds, read_u64_le. repeat case_match; simplify_eq/=; rewrite ?length_drop; lia. Qed.
Lemma read_count_rest data : (length (field_rest (read_count data)) ≤ length data)%nat.
Proof. unfold read_count, read_u16_le. repeat case_match; simplify_eq/=; rewrite ?length_drop; lia. Qed.

(** ** A torn field breaks *)

Definition breaks {A} (f : field A) : Prop := ∃ rest, f = Break rest.

Lemma take_take_app {A} (n i : nat) (a b : list A) :
  (n ≤ i)%nat → length a = n → take n (take i (a ++ b)) = a.
Proof. intros Hn Ha. rewrite take_take, Nat.min_l, <- Ha by lia. apply take_app_exact. Qed.

Lemma read_key_torn k x i :
  key_ok k → (i < length (aof_key k))%nat → breaks (read_key (take i (aof_key k ++ x))).
Proof.
  intros [_ Hk] Hi. rewrite length_aof_key in Hi. unfold read_key, read_u16_le, breaks.
  destruct (Nat.ltb_spec (length (take i (aof_key k ++ x))) 2) as [|H2]; [eauto|].
  rewrite (proj2 (Nat.leb_le _ _) H2). rewrite length_take in H2.
  unfold aof_key in *. rewrite <- app_assoc in *.
  rewrite take_take_app by (rewrite ?length_le_bytes; lia). rewrite le_val_le_bytes.
  change (256 ^ Z.of_nat 2) with (2 ^ 16). unfold u16.
  rewrite !(Z.mod_small (Z.of_nat (length k))) by lia.
  rewrite length_drop, length_take. 
  rewrite (proj2 (Z.ltb_lt _ (Z.of_nat (length k)))) by lia. eauto.
Qed.

Lemma read_value_torn v x i :
  value_ok v → (i < length (aof_value v))%nat → breaks (read_value (take i (aof_value v ++ x))).
Proof.
  unfold value_ok. intros Hk Hi. rewrite length_aof_value in Hi.
  unfold read_value, read_u32_le, breaks.
  destruct (Nat.ltb_spec (length (take i (aof_value v ++ x))) 4) as [|H2]; [eauto|].
  rewrite (proj2 (Nat.leb_le _ _) H2). rewrite length_take in H2.
  unfold aof_value in *. rewrite <- app_assoc in *.
  rewrite take_take_app by (rewrite ?length_le_bytes; lia). rewrite le_val_le_bytes.
  change (256 ^ Z.of_nat 4) with (2 ^ 32). unfold u32.
  rewrite !(Z.mod_small (Z.of_nat (length v))) by lia.
  rewrite length_drop, length_take.
  rewrite (proj2 (Z.ltb_lt _ (Z.of_nat (length v)))) by lia. eauto.
Qed.

Lemma read_eight_torn (data : bytes) :
  (length data < 8)%nat → breaks (read_ttl data) ∧ breaks (read_seconds data).
Proof.
  intros H. unfold read_ttl, read_seconds, breaks. rewrite (proj2 (Nat.ltb_lt _ _) H). eauto.
Qed.

Lemma take_past {A} (a x : list A) i :
  (length a ≤ i)%nat → take i (a ++ x) = a ++ take (i - length a) x.
Proof. intros H. rewrite take_app. f_equal. by apply take_ge. Qed.

(** * Entries and logs *)

(** Commands whose entry has room for its fields. *)
Definition aof_encodable (c : Command) : Prop :=
  match c with
  | CSet k v _ => key_ok k ∧ value_ok v
  | CDel k | CIncr k => key_ok k
  | CExpire k s => key_ok k ∧ in_u64 s
  | CMset pairs =>
      Z.of_nat (length pairs) < 2 ^ 16 ∧ Forall (λ kv, key_ok kv.1 ∧ value_ok kv.2) pairs
  | _ => True
  end.

(** The log of a run of commands: reads leave no entry. *)
Definition log_of (cs : list Command) : bytes := mjoin (omap to_aof_entry cs).

Definition logged_ttl (ttl : option Duration) : Z :=
  match ttl with Some d => i64 (as_millis d) | None => -1 end.

Section replay.
Context {M : Type} {DM : DashMap bytes ValueEntry M} {CL : Clock} {IT : Itoa}.
Abbreviation EW := (World (DashMapEngine M)).
Implicit Types (w : EW) (data : bytes).

(** What replaying the entry of a command does to the engine. *)
Fixpoint set_pairs (pairs : list (bytes * bytes)) : ST EW () :=
  match pairs with
  | [] => mret tt
  | (k, v) :: pairs => e ← entry_new v; set k e;; set_pairs pairs
  end.

Definition apply_logged (c : Command) : ST EW () :=
  match c with
  | CSet k v ttl => e ← restore_entry v (logged_ttl ttl); set k e;; mret tt
  | CDel k => del k;; mret tt
  | CIncr k => incr k;; mret tt
  | CExpire k s => expire k s;; mret tt
  | CFlushDb => clear
  | CMset pairs => set_pairs pairs
  | _ => mret tt
  end.

Fixpoint apply_all (cs : list Command) : ST EW () :=
  match cs with
  | [] => mret tt
  | c :: cs => apply_logged c;; apply_all cs
  end.

Lemma mset_pairs_enc pairs rest w :
  Forall (λ kv, key_ok kv.1 ∧ value_ok kv.2) pairs →
  replay_mset_pairs (length pairs)
    (mjoin ((λ '(k, v), aof_key k ++ aof_value v) <$> pairs) ++ rest) w =
  (set_pairs pairs;; mret rest) w.
Proof.
  intros Hp. revert w. induction Hp as [|[k v] pairs [Hk Hv] _ IH]; intros w; [done|].
  change (mjoin ((λ '(k, v), aof_key k ++ aof_value v) <$> (k, v) :: pairs))
    with ((aof_key k ++ aof_value v) ++ mjoin ((λ '(k, v), aof_key k ++ aof_value v) <$> pairs)).
  rewrite <- !app_assoc. cbn [length replay_mset_pairs set_pairs].
  rewrite read_key_enc, read_value_enc by done.
  unfold mbind, st_bind in *. destruct (entry_new v w) as [[e| |] w1]; try done.
  destruct (set k e w1) as [[r| |] w2]; [apply IH | done..].
Qed.

Lemma replay_cmd_set data : replay_cmd Byte.x01 data = replay_set data.
Proof. done. Qed.
Lemma replay_cmd_del data : replay_cmd Byte.x02 data = replay_del data.
Proof. done. Qed.
Lemma replay_cmd_incr data : replay_cmd Byte.x03 data = replay_incr data.
Proof. done. Qed.
Lemma replay_cmd_expire data : replay_cmd Byte.x04 data = replay_expire data.
Proof. done. Qed.
Lemma replay_cmd_mset data : replay_cmd Byte.x06 data = replay_mset data.
Proof. done. Qed.

(** One entry in front of anything replays its command. *)
Lemma replay_entry c e rest :
  to_aof_entry c = Some e → aof_encodable c →
  ∃ ty body, e = ty :: body ∧
    ∀ w, replay_cmd ty (body ++ rest) w = (apply_logged c;; mret (Some rest)) w.
Proof.
  intros He Hc. destruct c; cbn [to_aof_entry aof_encodable] in He, Hc; simplify_eq.
  - destruct Hc. eexists Byte.x01, _. split; [reflexivity|]. intros w.
    rewrite replay_cmd_set. unfold replay_set. rewrite ?app_nil_l, <- !app_assoc, read_key_enc, read_value_enc by done.
    fold (logged_ttl ttl).
    rewrite read_ttl_enc by (unfold logged_ttl; destruct ttl; [apply i64_range | unfold in_i64; lia]).
    cbn [apply_logged]. unfold mbind, st_bind. destruct (restore_entry value (logged_ttl ttl) w) as [[e| |] w1]; try done.
    by destruct (set key e w1) as [[r| |] w2].
  - eexists Byte.x02, _. split; [reflexivity|]. intros w. rewrite replay_cmd_del.
    unfold replay_del. rewrite ?app_nil_l, read_key_enc by done.
    cbn [apply_logged]. unfold mbind, st_bind. by destruct (del key w) as [[r| |] w2].
  - eexists Byte.x03, _. split; [reflexivity|]. intros w. rewrite replay_cmd_incr.
    unfold replay_incr. rewrite ?app_nil_l, read_key_enc by done.
    cbn [apply_logged]. unfold mbind, st_bind. by destruct (incr key w) as [[r| |] w2].
  - destruct Hc. eexists Byte.x04, _. split; [reflexivity|]. intros w.
    rewrite replay_cmd_expire. unfold replay_expire. rewrite ?app_nil_l, <- !app_assoc, read_key_enc, read_seconds_enc by done.
    cbn [apply_logged]. unfold mbind, st_bind. by destruct (expire key seconds w) as [[r| |] w2].
  - by eexists Byte.x05, [].
  - destruct Hc as [Hn Hp]. eexists Byte.x06, _. split; [reflexivity|]. intros w.
    rewrite replay_cmd_mset. unfold replay_mset. rewrite ?app_nil_l, <- !app_assoc, read_count_enc by done. rewrite Nat2Z.id.
    unfold mbind at 1, st_bind at 1. rewrite mset_pairs_enc by done.
    cbn [apply_logged]. unfold mbind, st_bind. by destruct (set_pairs pairs w) as [[r| |] w2].
Qed.

(** ** The loop terminates: fuel above the size of the data changes nothing *)

Lemma mset_pairs_rest n data w rest w' :
  replay_mset_pairs n data w = (Val rest, w') → (length rest ≤ length data)%nat.
Proof.
  revert data w; induction n as [|n IH]; intros data w; cbn [replay_mset_pairs].
  { by intros [= -> _]. }
  pose proof (read_key_rest data) as Hk. destruct (read_key data) as [k d1|d1]; simpl in Hk.
  2: { by intros [= -> _]. }
  pose proof (read_value_rest d1) as Hv. destruct (read_value d1) as [v d2|d2]; simpl in Hv.
  2: { intros [= -> _]. lia. }
  unfold mbind, st_bind. destruct (entry_new v w) as [[e| |] w1]; try done.
  destruct (set k e w1) as [[r| |] w2]; try done. intros Hr%IH. lia.
Qed.

Lemma replay_cmd_rest ty data w rest w' :
  replay_cmd ty data w = (Val (Some rest), w') → (length rest ≤ length data)%nat.
Proof.
  unfold replay_cmd, replay_set, replay_del, replay_incr, replay_expire, replay_mset.
  pose proof (read_key_rest data) as Hk. pose proof (read_count_rest data) as Hc.
  destruct (read_key data) as [k d1|d1]; simpl in Hk;
    destruct (read_count data) as [n d0|d0]; simpl in Hc;
    pose proof (read_value_rest d1) as Hv; destruct (read_value d1) as [v d2|d2]; simpl in Hv;
    pose proof (read_seconds_rest d1) as Hs; destruct (read_seconds d1) as [s d4|d4]; simpl in Hs;
    pose proof (read_ttl_rest d2) as Ht; destruct (read_ttl d2) as [t d3|d3]; simpl in Ht;
    unfold mbind, st_bind, mret, st_ret; intros H; repeat case_match; simplify_eq; try lia;
    repeat match goal with
    | H : replay_mset_pairs _ _ _ = (Val _, _) |- _ => apply mset_pairs_rest in H
    end; lia.
Qed.

Lemma replay_loop_fuel f1 f2 data n w :
  (length data ≤ f1)%nat → (length data ≤ f2)%nat →
  replay_loop f1 data n w = replay_loop f2 data n w.
Proof.
  revert f2 data n w; induction f1 as [|f1 IH]; intros f2 data n w H1 H2.
  { destruct data; [|simpl in H1; lia]. by destruct f2. }
  destruct data as [|ty data]; [by destruct f2|]. destruct f2 as [|f2]; [simpl in H2; lia|].
  simpl in H1, H2. cbn [replay_loop]. unfold mbind, st_bind.
  destruct (replay_cmd ty data w) as [[[rest|]| |] w'] eqn:E; try done.
  apply replay_cmd_rest in E. apply IH; lia.
Qed.

(** A log in front of anything: its commands are applied in order, then the rest is read. *)
Lemma replay_log cs tail n w f :
  Forall aof_encodable cs → (length (log_of cs ++ tail) ≤ f)%nat →
  replay_loop f (log_of cs ++ tail) n w =
  (apply_all (filter (λ c, is_write c = true) cs);;
   replay_loop (length tail) tail (n + Z.of_nat (length (filter (λ c, is_write c = true) cs)))) w.
Proof.
  intros Hcs. revert n w f. induction Hcs as [|c cs Hc _ IH]; intros n w f Hf.
  { simpl. rewrite Z.add_0_r. apply replay_loop_fuel; [done | lia]. }
  rewrite filter_cons. case_decide as Hw.
  - apply to_aof_entry_is_write in Hw as [e He].
    assert (log_of (c :: cs) = e ++ log_of cs) as Hlog by (unfold log_of; simpl; by rewrite He).
    rewrite Hlog, <- app_assoc in *.
    destruct (replay_entry c e (log_of cs ++ tail) He Hc) as (ty & body & -> & Hr).
    destruct f as [|f]; [simpl in Hf; lia|]. cbn [app replay_loop apply_all]. simpl in Hf.
    rewrite length_app in Hf. unfold mbind at 1, st_bind at 1. rewrite Hr.
    unfold mbind, st_bind, mret, st_ret. destruct (apply_logged c w) as [[[]| |] w1]; try done.
    unfold mbind, st_bind in IH. rewrite IH by lia. cbn [length].
    destruct (apply_all _ w1) as [[[]| |] w2]; try done. by rewrite Nat2Z.inj_succ, <- Z.add_1_l, Z.add_assoc.
  - assert (log_of (c :: cs) = log_of cs) as Hlog.
    { unfold log_of. simpl. destruct (to_aof_entry c) eqn:He; [|done].
      exfalso. apply Hw, to_aof_entry_is_write. eauto. }
    rewrite Hlog in *. by apply IH.
Qed.

(** ** A torn entry stops the replay *)

Lemma replay_torn c e i w :
  to_aof_entry c = Some e → aof_encodable c → (∀ pairs, c ≠ CMset pairs) →
  (0 < i < length e)%nat →
  ∃ ty data, take i e = ty :: data ∧ replay_cmd ty data w = (Val None, w).
Proof.
  intros He Hc Hm Hi. destruct i as [|i]; [lia|].
  destruct c; cbn [to_aof_entry aof_encodable] in He, Hc; simplify_eq; cbn [app length] in Hi.
  - destruct Hc as [Hk Hv]. eexists Byte.x01, (take i _). split; [reflexivity|].
    rewrite replay_cmd_set. unfold replay_set. fold (logged_ttl ttl) in *.
    destruct (decide (i < length (aof_key key))%nat) as [Hlt|Hge].
    { by destruct (read_key_torn key (aof_value value ++ le_bytes 8 (logged_ttl ttl)) i) as [? ->]. }
    rewrite take_past, read_key_enc by (done || lia).
    rewrite !length_app, length_le_bytes in Hi.
    set (j := (i - length (aof_key key))%nat).
    destruct (decide (j < length (aof_value value))%nat) as [Hlt|Hge'].
    { by destruct (read_value_torn value (le_bytes 8 (logged_ttl ttl)) j) as [? ->]. }
    rewrite take_past, read_value_enc by (done || lia).
    destruct (read_eight_torn (take (j - length (aof_value value)) (le_bytes 8 (logged_ttl ttl))))
      as [[? ->] _]; [|done].
    rewrite length_take, length_le_bytes. lia.
  - eexists Byte.x02, (take i _). split; [reflexivity|]. rewrite replay_cmd_del. unfold replay_del.
    destruct (read_key_torn key [] i) as [? E]; [done | lia |]. rewrite app_nil_r in E. by rewrite E.
  - eexists Byte.x03, (take i _). split; [reflexivity|]. rewrite replay_cmd_incr. unfold replay_incr.
    destruct (read_key_torn key [] i) as [? E]; [done | lia |]. rewrite app_nil_r in E. by rewrite E.
  - destruct Hc as [Hk Hs]. eexists Byte.x04, (take i _). split; [reflexivity|].
    rewrite replay_cmd_expire. unfold replay_expire.
    destruct (decide (i < length (aof_key key))%nat) as [Hlt|Hge].
    { by destruct (read_key_torn key (le_bytes 8 seconds) i) as [? ->]. }
    rewrite take_past, read_key_enc by (done || lia).
    rewrite length_app, length_le_bytes in Hi.
    destruct (read_eight_torn (take (i - length (aof_key key)) (le_bytes 8 seconds)))
      as [_ [? ->]]; [|done].
    rewrite length_take, length_le_bytes. lia.
  - simpl in Hi. lia.
  - by destruct (Hm pairs).
Qed.
End replay.
