(* ===== verification/RestoreFacts.v ===== *)
(** Dumping the live entries and restoring them into another engine, the core shared by
    the rewritten append-only file and the snapshot. *)

From S2P Require Import Prelude RustStd Crates Domain Metrics World Engine EngineFacts EvictFacts.
From S2P Require Import StoreSpec EngineProps Dispatcher DispatcherProps Aof AofFacts.

(** A dumped entry: key, value, remaining milliseconds (-1: no deadline). *)
Abbreviation Dumped := (bytes * bytes * Z)%type.

(** The lifetime written for an entry seen at [t]. *)
Definition dump_ttl (e : ValueEntry) (t : Instant) : Z :=
  match expires_at e with
  | Some exp =>
      let ms := i64 (as_millis (instant_sub exp t)) in if 0 <? ms then ms else -1
  | None => -1
  end.

Lemma dump_ttl_range e t : in_i64 (dump_ttl e t) ∧ (dump_ttl e t = -1 ∨ 0 < dump_ttl e t).
Proof.
  assert (in_i64 (-1)) by (unfold in_i64; lia).
  unfold dump_ttl. destruct (expires_at e) as [exp|]; [|by split; [|left]].
  destruct (Z.ltb_spec 0 (i64 (as_millis (instant_sub exp t)))).
  - split; [apply i64_range | by right].
  - by split; [|left].
Qed.

Section restore.
Context {M : Type} {DM : DashMap bytes ValueEntry M} {CL : Clock} {IT : Itoa}.
Abbreviation EW := (World (DashMapEngine M)).
Implicit Types (w : EW) (k : bytes) (t : Instant) (es : list Dumped).
Abbreviation wmap w := (emap (eng w)).
Abbreviation wnow w := (clk (tick w)).
Abbreviation keys_of es := ((λ d, d.1.1) <$> es).

(** ** The dump *)

Lemma dump_entry_live t k e :
  dump_entry t (k, e) = if is_expired_at e t then None else Some (k, data e, dump_ttl e t).
Proof. unfold dump_entry, is_expired_at, dump_ttl. by destruct (expires_at e). Qed.

Definition dumped_of w : list Dumped := omap (dump_entry (wnow w)) (dm_iter (wmap w)).

Lemma dump_run w : dump_entries w = (Val (dumped_of w), bump w).
Proof. done. Qed.

(** Exactly the visible entries, each key once. *)
Lemma dumped_elem w k v ttl :
  (k, v, ttl) ∈ dumped_of w ↔
  ∃ e, sees (wmap w) (wnow w) k = Some e ∧ v = data e ∧ ttl = dump_ttl e (wnow w).
Proof.
  unfold dumped_of. rewrite list_elem_of_omap. split.
  - intros ([k' e] & Hin & Hd). rewrite dump_entry_live in Hd.
    destruct (is_expired_at e (wnow w)) eqn:Hx; simplify_eq. exists e.
    split; [by apply sees_iter | done].
  - intros (e & [Hin Hx]%sees_iter & -> & ->). exists (k, e). by rewrite dump_entry_live, Hx.
Qed.

Lemma dumped_nodup w : NoDup (keys_of (dumped_of w)).
Proof.
  pose proof (omap_fst_nodup (λ ke, negb (is_expired_at ke.2 (wnow w))) _ (dm_iter_nodup (wmap w))) as H.
  unfold dumped_of. revert H. generalize (dm_iter (wmap w)). intros l H.
  replace (keys_of (omap (dump_entry (wnow w)) l)) with
    (omap (λ ke, if negb (is_expired_at ke.2 (wnow w)) then Some ke.1 else None) l); [done|].
  clear H. induction l as [|[k e] l IH]; [done|]. cbn. fold (dump_entry (wnow w) (k, e)).
  rewrite dump_entry_live. destruct (is_expired_at e (wnow w)); simpl; [done | by f_equal].
Qed.

(** ** The restore *)

Fixpoint restore_all es : ST EW () :=
  match es with
  | [] => mret tt
  | (k, v, ttl) :: es => e ← restore_entry v ttl; set k e;; restore_all es
  end.

(** The clock is so far from the largest instant that the next [2 n] readings plus any
    lifetime in milliseconds do not overflow. *)
Definition clock_ok w (n : nat) : Prop :=
  clk (tick w + 2 * n) + from_millis (2 ^ 63) ≤ instant_max.

(** What a restored entry looks like. *)
Definition restored (t1 t2 : Instant) (v : bytes) (ttl : Z) (e : ValueEntry) : Prop :=
  data e = v ∧
  if 0 <? ttl then ∃ t, t1 ≤ t ≤ t2 ∧ expires_at e = Some (t + from_millis ttl)
  else expires_at e = None.

Lemma restore_entry_run v ttl w :
  in_i64 ttl → clock_ok w 1 →
  ∃ e w', restore_entry v ttl w = (Val e, w') ∧ ext w w' ∧ eng w' = eng w ∧
    (tick w' ≤ tick w + 2)%nat ∧ restored (wnow w) (wnow w') v ttl e.
Proof.
  intros Hi Hc. unfold restore_entry, restored. destruct (Z.ltb_spec 0 ttl) as [Ht|Ht].
  - assert (instant_add (wnow w) (from_millis (u64 ttl)) = Val (wnow w + from_millis ttl)) as Ha.
    { unfold in_i64 in *. rewrite u64_id by (unfold in_u64; lia). unfold instant_add.
      unfold clock_ok in Hc. pose proof (clk_mono (tick w) (tick w + 2 * 1)).
      unfold from_millis in *. rewrite (proj2 (Z.leb_le _ _)); [done|]. lia. }
    eexists _, (bump (bump w)). split_and!.
    + unfold now, lift_outcome, mbind, st_bind, mret, st_ret. simpl. rewrite Ha. reflexivity.
    + etrans; apply ext_bump.
    + done.
    + simpl. lia.
    + done.
    + exists (wnow w). split; [|done]. split; [lia|]. apply ext_now. etrans; apply ext_bump.
  - eexists _, (bump w). split_and!; [reflexivity | apply ext_bump | done | simpl; lia | done..].
Qed.

Lemma restored_weaken t1 t2 t1' t2' v ttl e :
  t1' ≤ t1 → t2 ≤ t2' → restored t1 t2 v ttl e → restored t1' t2' v ttl e.
Proof.
  intros H1 H2 [Hd H]. split; [done|]. destruct (0 <? ttl); [|done].
  destruct H as (t & Ht & ->). exists t. split; [lia | done].
Qed.

Lemma restore_all_run es w :
  max_keys (eng w) = 0 → NoDup (keys_of es) → Forall (λ d, in_i64 d.2) es →
  clock_ok w (length es) →
  ∃ w', restore_all es w = (Val tt, w') ∧ ext w w' ∧
    (∀ k, k ∉ keys_of es → dm_get (wmap w') k = dm_get (wmap w) k) ∧
    (∀ k v ttl, (k, v, ttl) ∈ es →
       ∃ e, dm_get (wmap w') k = Some e ∧ restored (wnow w) (wnow w') v ttl e).
Proof.
  revert w; induction es as [|[[k v] ttl] es IH]; intros w Hmk Hnd Hi Hc.
  { exists w. split_and!; try done. intros k v ttl Hin. by apply not_elem_of_nil in Hin. }
  apply NoDup_cons in Hnd as [Hk Hnd]. apply Forall_cons in Hi as [Hi His]. simpl in Hi, Hk.
  assert (clock_ok w 1) as Hc1.
  { unfold clock_ok in *. pose proof (clk_mono (tick w + 2 * 1) (tick w + 2 * length ((k, v, ttl) :: es))).
    simpl in *. lia. }
  destruct (restore_entry_run v ttl w Hi Hc1) as (e & w1 & E & Hext & Heng & Htick & Hr).
  set (w2 := with_map (dm_insert (wmap w1) k e) w1).
  assert (set k e w1 = (Val (Ok tt), w2)) as Es by (apply set_unlimited; by rewrite Heng).
  destruct (IH w2) as (w3 & E3 & Hext3 & Hne & Hin); [simpl; by rewrite Heng | done | done | |].
  { unfold clock_ok in *. pose proof (clk_mono (tick w2 + 2 * length es)
      (tick w + 2 * length ((k, v, ttl) :: es))). simpl in *. lia. }
  assert (ext w w2) as Hext2 by (etrans; [done | apply ext_with_map]).
  pose proof (ext_now _ _ Hext2). pose proof (ext_now _ _ Hext3). pose proof (ext_now _ _ Hext).
  assert (wmap w2 = dm_insert (wmap w) k e) as Hw2 by (simpl; by rewrite Heng).
  exists w3. split_and!.
  - cbn [restore_all]. rewrite (st_bind_val _ _ _ _ _ E). by rewrite (st_bind_val _ _ _ _ _ Es).
  - by etrans.
  - intros k' [Hk1 Hk2]%not_elem_of_cons. rewrite Hne, Hw2 by done.
    apply dm_get_insert_ne. by intros ->.
  - intros k' v' ttl' [[= -> -> ->]|Hin']%elem_of_cons.
    + exists e. rewrite Hne, Hw2 by done. split; [apply dm_get_insert_eq|].
      eapply restored_weaken; [..|done]; [lia|]. by change (wnow w2) with (wnow w1) in *.
    + destruct (Hin k' v' ttl' Hin') as (e' & He' & Hr'). exists e'. split; [done|].
      by eapply restored_weaken; [..|done].
Qed.

(** What the code does with a dump restored into an empty store. *)
Definition dump_restored w w3 (t1 t2 : Instant) : Prop :=
  ∀ k, match sees (wmap w) (wnow w) k with
       | None => dm_get (wmap w3) k = None
       | Some e => ∃ e', dm_get (wmap w3) k = Some e' ∧
                     restored t1 t2 (data e) (dump_ttl e (wnow w)) e'
       end.

Lemma restore_dump w w2 :
  max_keys (eng w2) = 0 → (∀ k, dm_get (wmap w2) k = None) → clock_ok w2 (length (dumped_of w)) →
  ∃ w3, restore_all (dumped_of w) w2 = (Val tt, w3) ∧ ext w2 w3 ∧
    dump_restored w w3 (wnow w2) (wnow w3).
Proof.
  intros Hmk Hempty Hc.
  destruct (restore_all_run (dumped_of w) w2 Hmk (dumped_nodup w)) as (w3 & E & Hext & Hne & Hin);
    [|done|].
  { apply Forall_forall. intros [[k v] ttl] (e & _ & _ & ->)%dumped_elem. apply dump_ttl_range. }
  exists w3. split_and!; [done..|]. intros k.
  destruct (sees (wmap w) (wnow w) k) as [e|] eqn:Hs.
  - apply Hin, dumped_elem. eauto.
  - rewrite Hne; [apply Hempty|]. intros ([[k' v] ttl] & Hk & Hd)%list_elem_of_fmap.
    simpl in Hk. subst. apply dumped_elem in Hd as (e & He & _). congruence.
Qed.

(** ** What a restore promises *)

(** An entry whose lifetime can be written down: none, or from one millisecond up to what an
    [i64] holds. *)
Definition lasting (e : ValueEntry) t : Prop :=
  match expires_at e with Some exp => from_millis 1 ≤ exp - t < from_millis (2 ^ 63) | None => True end.

(** [e'], made at some instant between [t1] and [t2], has from then on the lifetime that [e] had left
    at [t], in whole milliseconds, and less than one of them shorter. *)
Definition same_life t (t1 t2 : Instant) (e e' : ValueEntry) : Prop :=
  data e' = data e ∧
  match expires_at e with
  | None => expires_at e' = None
  | Some exp => ∃ made left, t1 ≤ made ≤ t2 ∧ expires_at e' = Some (made + from_millis left) ∧
      from_millis left ≤ exp - t < from_millis (left + 1)
  end.

(** Every lasting key that was visible, with its value and its life, and no key that was not
    visible. *)
Definition recovered w w3 (t1 t2 : Instant) : Prop :=
  ∀ k, match sees (wmap w) (wnow w) k with
       | None => dm_get (wmap w3) k = None
       | Some e => lasting e (wnow w) →
                     ∃ e', dm_get (wmap w3) k = Some e' ∧ same_life (wnow w) t1 t2 e e'
       end.

Lemma restored_lives t t1 t2 e e' :
  lasting e t → restored t1 t2 (data e) (dump_ttl e t) e' → same_life t t1 t2 e e'.
Proof.
  unfold lasting, restored, dump_ttl, same_life, as_millis, instant_sub, from_millis.
  intros Hl [Hd H]. split; [done|]. destruct (expires_at e) as [exp|]; [|done].
  rewrite Z.max_r in H by lia.
  pose proof (Z.div_mod (exp - t) 1000000) as Hdiv. pose proof (Z.mod_pos_bound (exp - t) 1000000).
  cbv zeta in H. rewrite i64_id in H by (unfold in_i64; lia).
  assert ((0 <? (exp - t) / 1000000) = true) as E by (apply Z.ltb_lt; lia).
  rewrite !E in H. destruct H as (made & Hm & ->).
  exists made, ((exp - t) / 1000000). split_and!; [lia | lia | done | lia | lia].
Qed.

(** An entry with less than a millisecond left loses its deadline. *)
Lemma restored_brief t t1 t2 e e' exp :
  expires_at e = Some exp → exp - t < from_millis 1 →
  restored t1 t2 (data e) (dump_ttl e t) e' → expires_at e' = None.
Proof.
  unfold restored, dump_ttl, as_millis, instant_sub, from_millis. intros -> Hl [_ H].
  rewrite Z.div_small in H by lia. done.
Qed.

Lemma dump_recovered w w3 t1 t2 : dump_restored w w3 t1 t2 → recovered w w3 t1 t2.
Proof.
  intros H k. specialize (H k). destruct (sees _ _ k) as [e|]; [|done].
  intros Hl. destruct H as (e' & He & Hr). exists e'. split; [done | by apply restored_lives].
Qed.
End restore.
