(* ===== verification/AofProps.v ===== *)
(** Correctness of the append-only file: replay, torn tails, recovery, the writer. *)

From S2P Require Import Prelude RustStd Crates Domain Metrics World Engine EngineFacts EvictFacts.
From S2P Require Import StoreSpec EngineProps Response Dispatcher DispatcherProps CommandEnds.
From S2P Require Import Aof AofFacts RestoreFacts.

Section replay.
Context {M : Type} {DM : DashMap bytes ValueEntry M} {CL : Clock} {IT : Itoa}.
Abbreviation EW := (World (DashMapEngine M)).
Implicit Types (w : EW) (k : bytes).
Abbreviation wmap w := (emap (eng w)).
Abbreviation wnow w := (clk (tick w)).
Abbreviation writes cs := (filter (λ c, is_write c = true) cs).

(** ** Replay and the dispatcher *)

(** The commands of a list, run one after the other by the dispatcher, the replies dropped. *)
Fixpoint dispatch_all (cs : list Command) : ST EW () :=
  match cs with
  | [] => mret tt
  | c :: cs => dispatch c;; dispatch_all cs
  end.

(** The log counts lifetimes in milliseconds, in an [i64]: a lifetime that is a whole number of
    them, at least one, fits. *)
Definition ttl_fits (c : Command) : Prop :=
  match c with CSet _ _ (Some d) => ∃ ms, d = from_millis ms ∧ 1 ≤ ms < 2 ^ 63 | _ => True end.

Lemma as_millis_from ms : as_millis (from_millis ms) = ms.
Proof. unfold as_millis, from_millis. by rewrite Z.div_mul. Qed.

(** The entry a replayed [SET] stores is the one the command stored. *)
Lemma restore_is_make k v ttl w :
  ttl_fits (CSet k v ttl) → restore_entry v (logged_ttl ttl) w = make_entry v ttl w.
Proof.
  destruct ttl as [d|]; [|done]. intros (ms & -> & Hms). cbn [logged_ttl make_entry].
  rewrite as_millis_from, i64_id by (unfold in_i64; lia).
  unfold restore_entry, entry_with_ttl. rewrite (proj2 (Z.ltb_lt 0 ms)) by lia.
  rewrite u64_id by (unfold in_u64; lia).
  unfold mbind, st_bind, lift_outcome, mret, st_ret, now. by destruct (instant_add _ _).
Qed.

Lemma set_is_mset pairs w :
  unlimited w → set_pairs pairs w = (mset_pairs pairs;; mret tt : ST EW ()) w.
Proof.
  revert w. induction pairs as [|[k v] pairs IH]; intros w Hw; [done|].
  cbn [set_pairs mset_pairs]. unfold entry_new, now, mbind, st_bind, mret, st_ret in *.
  change (kv_set k) with (set k : _ → ST EW _). rewrite set_unlimited by done. by rewrite IH.
Qed.

Lemma logged_is_dispatched c w :
  ttl_fits c → unlimited w → is_write c = true →
  apply_logged c w = (dispatch c;; mret tt : ST EW ()) w.
Proof.
  intros Ht Hw Hc. destruct c; try done; cbn [apply_logged dispatch].
  - unfold mbind, st_bind. rewrite (restore_is_make key) by done.
    destruct (make_entry value ttl w) as [[e| |] w1]; try done.
    change (kv_set key e) with (set key e : ST EW _). by destruct (set key e w1) as [[]].
  - change (kv_del key) with (del key : ST EW _). unfold mbind, st_bind. by destruct (del key w) as [[]].
  - change (kv_incr key) with (incr key : ST EW _). unfold mbind, st_bind. by destruct (incr key w) as [[]].
  - change (kv_expire key seconds) with (expire key seconds : ST EW _). unfold mbind, st_bind.
    by destruct (expire key seconds w) as [[]].
  - rewrite set_is_mset by done. unfold mbind, st_bind. by destruct (mset_pairs pairs w) as [[]].
Qed.

Lemma apply_is_dispatch cs w :
  Forall (λ c, ttl_fits c ∧ is_write c = true) cs → unlimited w → apply_all cs w = dispatch_all cs w.
Proof.
  intros Hcs. revert w. induction Hcs as [|c cs [Ht Hc] _ IH]; intros w Hw; [done|].
  cbn [apply_all dispatch_all]. unfold mbind, st_bind. rewrite logged_is_dispatched by done.
  destruct (dispatch_ends c w Hw) as [_ Hw']. unfold mbind, st_bind, mret, st_ret.
  destruct (dispatch c w) as [[r| |] w1]; [by apply IH | done..].
Qed.

(** C11: replaying the log of a run of commands is running its writes again: the store, the clock
    and any panic are those of the dispatcher given the same commands in the same order, and the
    count returned is theirs.  The binary encoding of [Command::to_aof_entry] is read back without
    loss by [replay_aof] for UTF-8 keys of up to 65535 bytes, values below 4 GiB, [MSET]s of up to
    65535 pairs and lifetimes of a whole number of milliseconds from 1 to 2^63-1, into a store
    without a key limit, as [main] builds it. *)
Theorem aof_replay_log cs w :
  Forall (λ c, aof_encodable c ∧ ttl_fits c) cs → max_keys (eng w) = 0 →
  replay_aof (Ok (log_of cs)) w =
  (dispatch_all (writes cs);; mret (Ok (Z.of_nat (length (writes cs))))) w.
Proof.
  intros Hcs Hw. unfold replay_aof. unfold mbind at 1, st_bind at 1.
  pose proof (replay_log cs [] 0 w (length (log_of cs))) as H.
  rewrite app_nil_r in H. rewrite H; [|by eapply Forall_impl; [done|]; naive_solver|done]. clear H.
  unfold mbind, st_bind. rewrite apply_is_dispatch; [| |done].
  - by destruct (dispatch_all _ w) as [[[]| |] w1].
  - apply Forall_forall. intros c [Hw' Hin]%list_elem_of_filter.
    rewrite Forall_forall in Hcs. split; [by apply Hcs | done].
Qed.

(** Any other lifetime is lost: [PX 0], less than a millisecond, or so many milliseconds that the
    cast to [i64] is not positive.  The replayed key then has no deadline. *)
Theorem aof_replay_unbounds k v d w :
  key_ok k → value_ok v → i64 (as_millis d) ≤ 0 → max_keys (eng w) = 0 →
  replay_aof (Ok (log_of [CSet k v (Some d)])) w =
  (dispatch_all [CSet k v None];; mret (Ok 1)) w.
Proof.
  intros Hk Hv Hd Hw. unfold replay_aof. unfold mbind at 1, st_bind at 1.
  pose proof (replay_log [CSet k v (Some d)] [] 0 w (length (log_of [CSet k v (Some d)]))) as H.
  rewrite app_nil_r in H. rewrite H; [|by constructor; [|constructor]|done]. clear H.
  change (filter _ [CSet k v (Some d)]) with [CSet k v (Some d)].
  cbn [apply_all dispatch_all apply_logged dispatch logged_ttl make_entry]. unfold restore_entry.
  rewrite (proj2 (Z.ltb_ge 0 _)) by done.
  change (kv_set k) with (set k : _ → ST EW _).
  unfold entry_new, now, mbind, st_bind, mret, st_ret. cbn. by rewrite set_unlimited by done.
Qed.

(** C36: a log cut anywhere inside its last entry (a crash during a write) replays as the log
    without that entry, for every entry but an [MSET]'s. *)
Theorem aof_torn_tail cs c e i w :
  Forall aof_encodable cs → aof_encodable c → to_aof_entry c = Some e →
  (∀ pairs, c ≠ CMset pairs) → (i < length e)%nat →
  replay_aof (Ok (log_of cs ++ take i e)) w = replay_aof (Ok (log_of cs)) w.
Proof.
  intros Hcs Hc He Hm Hi. unfold replay_aof. unfold mbind, st_bind.
  rewrite (replay_log cs (take i e) 0 w) by done.
  pose proof (replay_log cs [] 0 w (length (log_of cs)) Hcs) as H.
  rewrite app_nil_r in H. rewrite H by done. clear H.
  unfold mbind, st_bind. destruct (apply_all _ w) as [[[]| |] w1]; [|done..].
  destruct i as [|i]; [done|].
  destruct (replay_torn c e (S i) w1 He Hc Hm) as (ty & data & -> & Ht); [lia|].
  cbn [length replay_loop]. by rewrite (st_bind_val _ _ _ _ _ Ht).
Qed.

(** A log cut inside an [MSET] entry is not safe: the bytes after the cut field are taken
    for the next commands.  Here a store holding [a] is replayed from a log that ends inside
    an [MSET] whose key starts with byte 5, which is run as [FLUSHDB]. *)
Theorem aof_torn_mset_runs_data v t w :
  ∃ e w', to_aof_entry (CMset [(Byte.x05 :: str "key", v)]) = Some e ∧
    replay_aof (Ok (take 6 e)) (with_map (dm_insert dm_new (str "a") (fresh_one t)) w) =
      (Val (Ok 2), w') ∧ ∀ k, dm_get (wmap w') k = None.
Proof.
  eexists _, _. split; [reflexivity|]. split; [reflexivity|].
  intros k. simpl. apply dm_get_new.
Qed.

(** ** Any file *)

Lemma restore_entry_ends v ttl : ends unlimited (restore_entry v ttl : ST EW _).
Proof.
  intros w Hw. unfold restore_entry. destruct (0 <? ttl); [|done].
  unfold now, lift_outcome, instant_add, mbind, st_bind, mret, st_ret.
  by destruct (_ <=? instant_max).
Qed.

Lemma replay_cmd_ends ty data : ends unlimited (replay_cmd ty data : ST EW _).
Proof.
  assert (∀ n data, ends unlimited (replay_mset_pairs n data : ST EW _)) as Hm.
  { intros n. induction n as [|n IH]; intros d; cbn [replay_mset_pairs]; [apply ends_ret|].
    destruct (read_key d); [|apply ends_ret]. destruct (read_value _); [|apply ends_ret].
    apply ends_bind; [apply entry_new_ends|]. intros e. apply ends_bind; [apply set_ends | auto]. }
  unfold replay_cmd, replay_set, replay_del, replay_incr, replay_expire, replay_mset.
  repeat case_match; try apply ends_ret; apply ends_bind; intros;
    auto using ends_ret, clear_ends, restore_entry_ends.
  - apply ends_bind; [exact (set_ends _ _) | intros; apply ends_ret].
  - exact (del_ends _).
  - exact (incr_ends _).
  - exact (expire_ends _ _).
Qed.

(** Replaying any file at all, damaged or not, comes to an end: it returns or, at a deadline past
    the clock's last instant, panics. *)
Theorem replay_ends data w : max_keys (eng w) = 0 → (replay_aof (Ok data) w).1 ≠ Stuck.
Proof.
  assert (∀ f data n w, (length data ≤ f)%nat → unlimited w → (replay_loop f data n w).1 ≠ Stuck) as H.
  { intros f. induction f as [|f IH]; intros [|ty d] n w' Hl Hw; simpl in Hl; try done; try lia.
    cbn [replay_loop]. unfold mbind, st_bind. destruct (replay_cmd_ends ty d w' Hw) as [Hs Hw'].
    destruct (replay_cmd ty d w') as [[[rest|]| |] w1] eqn:E; try done.
    apply replay_cmd_rest in E. apply IH; [lia | done]. }
  intros Hw. specialize (H (length data) data 0 w (le_n _) Hw). unfold replay_aof, mbind, st_bind.
  by destruct (replay_loop _ _ _ w) as [[]].
Qed.

(** ** Recovery *)

(** The effect of a command without lifetimes on the data, key by key. *)
Definition effect (c : Command) (a : gmap bytes bytes) : gmap bytes bytes :=
  match c with
  | CSet k v _ => <[k := v]> a
  | CDel k => delete k a
  | CIncr k =>
      match a !! k with
      | None => <[k := str "1"]> a
      | Some d =>
          match parse_i64 (from_utf8_lossy d) with
          | None => a
          | Some n => <[k := display_i (i64 (n + 1))]> a
          end
      end
  | CFlushDb => ∅
  | CMset pairs => foldl (λ a '(k, v), <[k := v]> a) a pairs
  | _ => a
  end.

Definition incr_free (c : Command) : Prop := match c with CIncr _ => False | _ => True end.

Definition timeless (c : Command) : Prop :=
  match c with CSet _ _ (Some _) | CExpire _ _ => False | _ => True end.

(** A store without a limit and without deadlines whose data is [a]. *)
Definition holds w (a : gmap bytes bytes) : Prop :=
  max_keys (eng w) = 0 ∧
  (∀ k e, dm_get (wmap w) k = Some e → expires_at e = None) ∧
  (∀ k, data <$> dm_get (wmap w) k = a !! k).

Lemma holds_sees w a t k : holds w a → sees (wmap w) t k = dm_get (wmap w) k.
Proof.
  intros (_ & Hx & _). unfold sees. destruct (dm_get (wmap w) k) as [e|] eqn:He; [|done].
  unfold is_expired_at. by rewrite (Hx k e He).
Qed.

Lemma holds_insert w w' a k e :
  ext w w' → wmap w' = dm_insert (wmap w) k e → expires_at e = None →
  holds w a → holds w' (<[k := data e]> a).
Proof.
  intros (Hmk & _) Hw Hx (H1 & H2 & H3). split_and!; [congruence | |].
  - intros k' e'. rewrite Hw, dm_get_insert. case_decide; naive_solver.
  - intros k'. rewrite Hw, dm_get_insert, lookup_insert. by case_decide.
Qed.

(** Losing entries that were not visible changes nothing; losing [k] deletes it. *)
Lemma holds_quiet w w' a : quiet w w' → holds w a → holds w' a.
Proof.
  intros (Hext & Hs & Hsh) Hh. pose proof Hh as (H1 & H2 & H3).
  assert (∀ k, dm_get (wmap w') k = dm_get (wmap w) k) as Heq.
  { intros k. specialize (Hs (wnow w) k (Z.le_refl _)). rewrite (holds_sees w a) in Hs by done.
    unfold sees in Hs. destruct (Hsh k) as [-> | E]; [done|]. by rewrite E, Hs in *. }
  split_and!; [by rewrite (proj1 Hext) | |]; intros k; rewrite Heq; [apply H2 | apply H3].
Qed.

Lemma holds_delete w w' a k :
  ext w w' → shrinks (wmap w) (wmap w') →
  (∀ t k', wnow w ≤ t →
     sees (wmap w') t k' = if decide (k = k') then None else sees (wmap w) t k') →
  holds w a → holds w' (delete k a).
Proof.
  intros Hext Hsh Hs Hh. pose proof Hh as (H1 & H2 & H3).
  assert (∀ k', dm_get (wmap w') k' = if decide (k = k') then None else dm_get (wmap w) k') as Heq.
  { intros k'. specialize (Hs (wnow w) k' (Z.le_refl _)). rewrite (holds_sees w a) in Hs by done.
    unfold sees in Hs. destruct (Hsh k') as [E|E]; rewrite E in *.
    - case_decide; [|done]. destruct (dm_get (wmap w) k') as [e|] eqn:He; [|done].
      unfold is_expired_at in Hs. by rewrite (H2 k' e He) in Hs.
    - done. }
  split_and!; [by rewrite (proj1 Hext) | |]; intros k'; rewrite Heq.
  - intros e. case_decide; [done|]. apply H2.
  - rewrite lookup_delete. case_decide; [done|]. apply H3.
Qed.

Lemma holds_clear w : max_keys (eng w) = 0 → holds (with_map dm_new w) ∅.
Proof.
  intros Hmk. split_and!; [done| |]; intros k; simpl; rewrite dm_get_new; [done|].
  by rewrite lookup_empty.
Qed.

(** ** One command *)

Lemma holds_set k v t w a w1 :
  ext w w1 → eng w1 = eng w → holds w a →
  ∃ w', set k {| data := v; expires_at := None; created_at := t |} w1 = (Val (Ok tt), w') ∧
    ext w w' ∧ holds w' (<[k := v]> a).
Proof.
  intros Hext Heng Hh. eexists. split; [apply set_unlimited; rewrite Heng; apply Hh|].
  split; [etrans; [done | apply ext_with_map]|].
  eapply (holds_insert w _ a k {| data := v; expires_at := None; created_at := t |});
    [etrans; [done | apply ext_with_map] | | done..].
  simpl. by rewrite Heng.
Qed.

Lemma holds_pairs pairs w a :
  holds w a → ∃ w', set_pairs pairs w = (Val tt, w') ∧ ext w w' ∧
    mset_pairs pairs w = (Val (Ok tt), w') ∧ holds w' (effect (CMset pairs) a).
Proof.
  revert w a; induction pairs as [|[k v] pairs IH]; intros w a Hh; [by exists w|].
  destruct (holds_set k v (Some (wnow w)) w a (bump w)) as (w1 & E & Hext & Hh1);
    [apply ext_bump | done | done |].
  destruct (IH w1 _ Hh1) as (w2 & E2 & Hext2 & E3 & Hh2). exists w2.
  split_and!; [| by etrans | | done].
  - cbn [set_pairs]. rewrite (st_bind_val _ _ w _ (bump w)) by done.
    by rewrite (st_bind_val _ _ _ _ _ E).
  - cbn [mset_pairs]. rewrite (st_bind_val _ _ w _ (bump w)) by done.
    by rewrite (st_bind_val _ _ _ _ _ E).
Qed.

Lemma holds_incr k w a :
  holds w a → ∃ r w', incr k w = (Val r, w') ∧ ext w w' ∧ holds w' (effect (CIncr k) a) ∧
    (∀ e, r = Err e → effect (CIncr k) a = a).
Proof.
  intros Hh. pose proof Hh as (Hmk & Hx & Hd). specialize (Hd k). cbn [effect].
  pose proof (holds_sees w a (wnow w) k Hh) as Hs.
  destruct (dm_get (wmap w) k) as [e|] eqn:He; simpl in Hd; rewrite <- Hd.
  - destruct (incr_seen_run k e w Hs) as (w' & Hext & Hi). unfold int_of in Hi.
    destruct (parse_i64 (from_utf8_lossy (data e))) as [n|]; destruct Hi as [E Hw].
    + do 2 eexists. split_and!; [done.. | | done].
      rewrite itoa_format_display in Hw.
      by apply (holds_insert w w' a k _ Hext Hw (Hx k e He)).
    + do 2 eexists. split_and!; [done.. | | done].
      eapply holds_quiet; [by apply quiet_eng | done].
  - destruct (incr_unseen_run k w Hs) as [[(_ & ? & _) _]|(w' & r & E & Hext & Hi)]; [lia|].
    destruct r as [n|err]; [|destruct Hi as (_ & ? & _); lia].
    destruct Hi as (-> & m0 & t & Hw & Hsh & _ & Hm).
    do 2 eexists. split_and!; [done.. | | done].
    assert (wmap (with_map (dm_insert (wmap w) k (fresh_one t)) w) =
      dm_insert (wmap w) k (fresh_one t)) as Hw0 by done.
    pose proof (holds_insert w _ a k (fresh_one t) (ext_with_map _ w) Hw0 eq_refl Hh) as (_ & H2 & H3).
    split_and!; [by rewrite (proj1 Hext) | |]; intros k'; specialize (H2 k'); specialize (H3 k');
      rewrite Hw, dm_get_insert; rewrite Hw0, dm_get_insert in *; case_decide; try done;
      by rewrite Hm by (done || lia).
Qed.

(** [dispatch] has the effect of its command, and an error has none. *)
Lemma dispatch_effect c w a :
  timeless c → holds w a →
  ∃ r w', dispatch c w = (Val r, w') ∧ holds w' (effect c a) ∧
    (is_success r = false → effect c a = a) ∧ (incr_free c → is_write c = true → is_success r = true).
Proof.
  intros Ht Hh. pose proof Hh as (Hmk & _). destruct c; cbn [dispatch effect].
  - by exists RPong, w.
  - destruct (dispatch_get_run key w) as (w' & E & Hq). do 2 eexists.
    split; [exact E|]. split; [by eapply holds_quiet | by split].
  - destruct ttl as [d|]; [done|]. cbn [make_entry].
    rewrite (st_bind_val _ _ w _ (bump w)) by done.
    destruct (holds_set key value (Some (wnow w)) w a (bump w)) as (w1 & E & Hext & Hh1);
      [apply ext_bump | done | done |].
    do 2 eexists. split; [exact (st_bind_val _ _ _ _ _ E)|]. by split.
  - destruct (del_run key w) as (w' & E & Hext & Hsh & Hs). do 2 eexists.
    split; [exact (st_bind_val _ _ _ _ _ E)|]. split; [by eapply holds_delete | by split].
  - destruct (holds_incr key w a Hh) as (r & w' & E & Hext & Hh' & He). do 2 eexists.
    split; [exact (st_bind_val _ _ _ _ _ E)|]. split; [done|]. split; [|done].
    intros Hr. destruct r as [n|e]; [done|]. by eapply He.
  - do 2 eexists. split; [reflexivity|]. split; [|by split].
    apply (holds_quiet w (bump w)); [|done]. apply quiet_eng; [apply ext_bump | by split].
  - by do 2 eexists.
  - destruct (exists_run key w) as (w' & E & Hq). do 2 eexists.
    split; [exact (st_bind_val _ _ _ _ _ E)|]. split; [by eapply holds_quiet | by split].
  - destruct (ttl_secs_run key w) as (w' & t & E & Hq & _). do 2 eexists.
    split; [exact (st_bind_val _ _ _ _ _ E)|]. split; [by eapply holds_quiet | by split].
  - done.
  - do 2 eexists. split; [reflexivity|]. split; [by apply holds_clear | by split].
  - do 2 eexists. split; [reflexivity|]. split; [|by split].
    apply (holds_quiet w (bump w)); [|done]. apply quiet_eng; [apply ext_bump | by split].
  - do 2 eexists. split; [reflexivity|]. split; [|by split].
    apply (holds_quiet w (bump w)); [|done]. apply quiet_eng; [apply ext_bump | by split].
  - destruct (holds_pairs pairs w a Hh) as (w' & _ & _ & E & Hh'). do 2 eexists.
    split; [exact (st_bind_val _ _ _ _ _ E)|]. split; [exact Hh' | by split].
Qed.

(** So has the replay of its entry. *)
Lemma apply_effect c w a :
  timeless c → is_write c = true → holds w a →
  ∃ w', apply_logged c w = (Val tt, w') ∧ holds w' (effect c a).
Proof.
  intros Ht Hw Hh. destruct c; try done; cbn [apply_logged effect].
  - destruct ttl as [d|]; [done|]. cbn [logged_ttl].
    rewrite (st_bind_val _ _ w _ (bump w)) by done.
    destruct (holds_set key value (Some (wnow w)) w a (bump w)) as (w1 & E & Hext & Hh1);
      [apply ext_bump | done | done |].
    exists w1. split; [exact (st_bind_val _ _ _ _ _ E) | done].
  - destruct (del_run key w) as (w' & E & Hext & Hsh & Hs). exists w'.
    split; [exact (st_bind_val _ _ _ _ _ E) | by eapply holds_delete].
  - destruct (holds_incr key w a Hh) as (r & w' & E & Hext & Hh' & _). exists w'.
    split; [exact (st_bind_val _ _ _ _ _ E) | done].
  - eexists. split; [reflexivity|]. apply holds_clear, Hh.
  - destruct (holds_pairs pairs w a Hh) as (w' & E & _ & _ & Hh'). by exists w'.
Qed.

Lemma apply_all_effects cs w a :
  Forall (λ c, timeless c ∧ aof_encodable c ∧ is_write c = true) cs → holds w a →
  ∃ w', apply_all cs w = (Val tt, w') ∧ holds w' (foldl (λ a c, effect c a) a cs).
Proof.
  intros Hcs. revert w a. induction Hcs as [|c cs (Ht & _ & Hw) _ IH]; intros w a Hh.
  { by exists w. }
  destruct (apply_effect c w a Ht Hw Hh) as (w1 & E & Hh1).
  destruct (IH w1 _ Hh1) as (w' & E' & Hh'). exists w'. split; [|done].
  cbn [apply_all]. by rewrite (st_bind_val _ _ _ _ _ E).
Qed.

(** Replaying the log of writes applies them all. *)
Lemma replay_writes cs w w' :
  Forall (λ c, timeless c ∧ aof_encodable c ∧ is_write c = true) cs →
  apply_all cs w = (Val tt, w') →
  replay_aof (Ok (log_of cs)) w = (Val (Ok (Z.of_nat (length cs))), w').
Proof.
  intros Hcs E. unfold replay_aof. pose proof (replay_log cs [] 0 w (length (log_of cs))) as H.
  rewrite app_nil_r in H. unfold mbind, st_bind. rewrite H; [| |done].
  2: { eapply Forall_impl; [done|]. naive_solver. }
  rewrite (filter_Forall_id (λ c, is_write c = true) cs).
  2: { eapply Forall_impl; [done|]. naive_solver. }
  unfold mbind, st_bind. by rewrite E.
Qed.

(** ** Rewriting *)

(** The [SET] a dumped entry is rewritten as. *)
Definition dumped_set (d : Dumped) : Command :=
  CSet d.1.1 d.1.2 (if 0 <? d.2 then Some (from_millis d.2) else None).

Lemma rewrite_is_log es buf :
  Forall (λ d, in_i64 d.2 ∧ (d.2 = -1 ∨ 0 < d.2)) es →
  foldl rewrite_entry buf es = buf ++ log_of (dumped_set <$> es).
Proof.
  intros Hes. revert buf. induction Hes as [|[[k v] ttl] es [Hi Hr] _ IH]; intros buf.
  { by rewrite app_nil_r. }
  simpl in Hi, Hr.
  assert (to_aof_entry (dumped_set (k, v, ttl)) =
    Some ([CMD_SET] ++ aof_key k ++ aof_value v ++ le_bytes 8 ttl)) as He.
  { unfold dumped_set, to_aof_entry. cbn [fst snd]. do 5 f_equal.
    destruct (Z.ltb_spec 0 ttl); [|lia]. by rewrite as_millis_from, i64_id. }
  cbn [foldl]. rewrite IH. unfold log_of. cbn [fmap list_fmap omap list_omap].
  rewrite He. unfold mjoin at 2. cbn [list_join]. by rewrite !app_assoc.
Qed.

Lemma dumped_set_apply es w :
  Forall (λ d : Dumped, in_i64 d.2 ∧ (d.2 = -1 ∨ 0 < d.2)) es →
  apply_all (dumped_set <$> es) w = restore_all es w.
Proof.
  intros Hes. revert w. induction Hes as [|[[k v] ttl] es [Hi Hr] _ IH]; intros w; [done|].
  simpl in Hi, Hr. cbn -[set restore_entry]. unfold dumped_set at 1. cbn [apply_logged fst snd].
  assert (logged_ttl (if 0 <? ttl then Some (from_millis ttl) else None) = ttl) as ->.
  { destruct (Z.ltb_spec 0 ttl); simpl; [|lia]. by rewrite as_millis_from, i64_id. }
  unfold mbind, st_bind in *. destruct (restore_entry v ttl w) as [[e| |] w1]; try done.
  destruct (set k e w1) as [[r| |] w2]; try done. apply IH.
Qed.

(** A rewritten log replays into an empty store as the dump it was made from. *)
Lemma rewrite_replays w w2 :
  max_keys (eng w2) = 0 → (∀ k, dm_get (wmap w2) k = None) → clock_ok w2 (length (dumped_of w)) →
  Forall (λ d, key_ok d.1.1 ∧ value_ok d.1.2) (dumped_of w) →
  ∃ tmp n w1 w3, rewrite_aof w = (Val (tmp, n), w1) ∧
    replay_aof (Ok tmp) w2 = (Val (Ok n), w3) ∧ dump_restored w w3 (wnow w2) (wnow w3).
Proof.
  intros Hmk Hempty Hc Hok.
  assert (Forall (λ d : Dumped, in_i64 d.2 ∧ (d.2 = -1 ∨ 0 < d.2)) (dumped_of w)) as Hr.
  { apply Forall_forall. intros [[k v] ttl] (e & _ & _ & ->)%dumped_elem. apply dump_ttl_range. }
  destruct (restore_dump w w2 Hmk Hempty Hc) as (w3 & E & Hext & Hrec).
  set (cs := dumped_set <$> dumped_of w).
  assert (Forall (λ c, is_write c = true) cs) as Hw.
  { apply Forall_fmap, Forall_true. by intros [[? ?] ?]. }
  exists (foldl rewrite_entry [] (dumped_of w)), (Z.of_nat (length (dumped_of w))), (bump w), w3.
  split_and!; [done | | done].
  rewrite rewrite_is_log, app_nil_l by done. unfold replay_aof, mbind, st_bind.
  pose proof (replay_log cs [] 0 w2 (length (log_of cs))) as Hl. rewrite app_nil_r in Hl.
  fold cs. rewrite Hl; [| |done].
  2: { apply Forall_fmap. eapply Forall_impl; [exact Hok|]. by intros [[? ?] ?]. }
  rewrite filter_Forall_id by done. unfold mbind, st_bind.
  unfold cs at 1. rewrite dumped_set_apply, E by done. cbn. unfold cs. by rewrite length_fmap.
Qed.
End replay.

(** * The writer *)

(** All bytes accepted so far, written or still batched. *)
Definition written (a : AofWriter) : bytes := file a ++ batch_buffer a.

Lemma drain_batch_file a : file (drain_batch a) = written a ∧ batch_buffer (drain_batch a) = [].
Proof.
  unfold drain_batch, written. destruct (batch_buffer a) eqn:E; [by rewrite app_nil_r | done].
Qed.

Lemma flush_batch_file e t t' a :
  file (flush_batch e t t' a) = written a ++ e ∧ batch_buffer (flush_batch e t t' a) = [].
Proof.
  destruct (drain_batch_file a) as [Hf Hb]. unfold flush_batch.
  destruct (fsync_policy (write_all e (drain_batch a))); simpl; repeat case_match; simpl;
    by rewrite Hf, Hb.
Qed.

(** [append_raw] batches an entry, once, while the batch stays below 4096 bytes; the entry
    that fills the batch is written twice, once as part of the batch and once more on its
    own.  Nothing already accepted is lost in either case. *)
Theorem append_raw_duplicates e t t' a :
  if (length (batch_buffer a) + length e <? 4096)%nat
  then file (append_raw e t t' a) = file a ∧ written (append_raw e t t' a) = written a ++ e
  else batch_buffer (append_raw e t t' a) = [] ∧ written (append_raw e t t' a) = written a ++ e ++ e.
Proof.
  unfold append_raw. cbn [batch_buffer set_batch]. rewrite length_app. unfold AOF_BATCH_SIZE.
  destruct (length (batch_buffer a) + length e <? 4096)%nat.
  - split; [done|]. unfold written. simpl. by rewrite app_assoc.
  - destruct (flush_batch_file e t t' (set_batch (batch_buffer a ++ e) a)) as [Hf Hb].
    split; [done|]. unfold written at 1. rewrite Hf, Hb, app_nil_r. unfold written. simpl.
    by rewrite !app_assoc.
Qed.

(** [flush] leaves nothing in the batch and, with the [Always] policy, nothing unsynced;
    the background tick does so under [Everysec] when a second has passed since the last
    sync. *)
Theorem flush_durable t t' a :
  (file (flush a) = written a ∧ batch_buffer (flush a) = [] ∧
   (fsync_policy a = Always → synced (flush a) = length (written a))) ∧
  (fsync_policy a = Everysec → last_fsync a + from_secs 1 ≤ t →
   file (flush_if_needed t t' a) = written a ∧ batch_buffer (flush_if_needed t t' a) = [] ∧
   synced (flush_if_needed t t' a) = length (written a) ∧
   last_fsync (flush_if_needed t t' a) = t').
Proof.
  destruct (drain_batch_file a) as [Hf Hb].
  assert (fsync_policy (drain_batch a) = fsync_policy a) as Hp.
  { unfold drain_batch. by case_match. }
  split.
  - unfold flush. rewrite Hp. destruct (fsync_policy a); simpl; rewrite ?Hf, ?Hb; by split_and!.
  - intros Hpol Ht. unfold flush_if_needed. rewrite Hpol. unfold instant_sub, from_secs in *.
    rewrite (proj2 (Z.leb_le _ _)) by lia. simpl. rewrite Hf, Hb. by split_and!.
Qed.

(** * Witnesses *)

Section witnesses.
#[local] Existing Instances gmap_dashmap ms_clock itoa_display.
Abbreviation GW := (World (DashMapEngine (gmap bytes ValueEntry))).

Definition wit_cmds : list Command :=
  [CSet (str "a") (str "1") None; CGet (str "a"); CIncr (str "a"); CDel (str "b");
   CMset [(str "c", str "x")]].

Lemma wit_cmds_ok : Forall (λ c, timeless c ∧ aof_encodable c) wit_cmds.
Proof. repeat constructor; unfold value_ok; simpl; lia. Qed.

(** A log with a lifetime, replayed. *)
Definition wit_timed : list Command :=
  [CSet (str "a") (str "1") (Some (from_millis 1500)); CGet (str "a"); CExpire (str "a") 9;
   CMset [(str "c", str "x")]].

Lemma aof_replay_log_witness :
  replay_aof (Ok (log_of wit_timed)) wit_empty =
  (dispatch_all (filter (λ c, is_write c = true) wit_timed);; mret (Ok 3)) wit_empty.
Proof.
  apply (aof_replay_log wit_timed wit_empty); [|done].
  repeat constructor; unfold value_ok; simpl; try lia. exists 1500. split; [done | lia].
Defined.

Lemma aof_torn_tail_witness :
  replay_aof (Ok (log_of wit_cmds ++ take 5 (default [] (to_aof_entry (CSet (str "k") (str "v") None)))))
    wit_empty = replay_aof (Ok (log_of wit_cmds)) wit_empty.
Proof.
  apply (aof_torn_tail wit_cmds (CSet (str "k") (str "v") None)).
  - eapply Forall_impl; [apply wit_cmds_ok|]. naive_solver.
  - repeat constructor; unfold value_ok; simpl; lia.
  - reflexivity.
  - done.
  - apply Nat.ltb_lt. reflexivity.
Defined.

(** A store with an entry that lives for another 1.5 s and one that lives for ever. *)
Definition wit_mixed : GW :=
  mkWorld (mkEngine {[str "a" := mkValueEntry (str "1") (Some 1505000000) (Some 0);
                      str "b" := mkValueEntry (str "2") None (Some 0)]} 0) 5
    (metrics_init 0) local_default.

Lemma wit_mixed_ok : Forall (λ d, key_ok d.1.1 ∧ value_ok d.1.2) (dumped_of wit_mixed).
Proof.
  let l := eval vm_compute in (dumped_of wit_mixed) in
    assert (dumped_of wit_mixed = l) as -> by (by vm_compute).
  repeat constructor.
Qed.

Lemma flush_durable_witness :
  let a := mkAof (str "x") 0 Everysec 0 (str "yz") in
  file (flush_if_needed 1000000000 1000000001 a) = str "xyz" ∧
  synced (flush_if_needed 1000000000 1000000001 a) = 3%nat.
Proof.
  intros a. destruct (flush_durable 1000000000 1000000001 a) as [_ H].
  destruct H as (H1 & _ & H2 & _); [done | done |]. by split.
Defined.
End witnesses.
