(* ===== verification/CommandSpec.v ===== *)
(** What a command answers and does, on the data alone.

    [effect] (file AofProps) gives the data after a command; [answers] gives the reply a client may
    expect from the data before it.  [dispatch_answers] is the refinement: on a store without
    limit and deadlines every command without lifetimes answers and acts as the two say. *)

From S2P Require Import Prelude RustStd Crates Domain Metrics World Engine EngineFacts EvictFacts.
From S2P Require Import StoreSpec EngineProps Response Dispatcher DispatcherProps Aof AofFacts.
From S2P Require Import RestoreFacts AofProps.

(** The reply to [c] over the data [a]: a function but for [INFO], whose text is not data, and
    for the order of [KEYS]. *)
Definition answers (c : Command) (a : gmap bytes bytes) (r : Response) : Prop :=
  match c with
  | CPing => r = RPong
  | CGet k => r = RValue (a !! k)
  | CSet _ _ _ | CFlushDb | CMset _ => r = ROk
  | CDel k | CExists k => r = RInteger (if bool_decide (is_Some (a !! k)) then 1 else 0)
  | CIncr k =>
      r = match a !! k with
          | None => RInteger 1
          | Some d =>
              match parse_i64 (from_utf8_lossy d) with
              | None => RError (TypeError (engine_error_display (EngNotAnInteger k)))
              | Some n => RInteger (i64 (n + 1))
              end
          end
  | CInfo => ∃ d, r = RValue (Some d)
  | CDbSize => r = RInteger (i64 (Z.of_nat (size a)))
  | CTtl k => r = RInteger (if bool_decide (is_Some (a !! k)) then -1 else -2)
  | CExpire _ _ => False
  | CKeys => ∃ ks, r = RArray (Some <$> ks) ∧ ks ≡ₚ elements (dom a)
  | CMget ks => r = RArray ((a !!.) <$> ks)
  end.

Section spec.
Context {M : Type} {DM : DashMap bytes ValueEntry M} {CL : Clock} {IT : Itoa}.
Abbreviation EW := (World (DashMapEngine M)).
Implicit Types (w : EW) (k : bytes) (a : gmap bytes bytes).
Abbreviation wmap w := (emap (eng w)).
Abbreviation wnow w := (clk (tick w)).

Lemma holds_seen w a t k : holds w a → data <$> sees (wmap w) t k = a !! k.
Proof. intros Hh. rewrite (holds_sees w a) by done. apply Hh. Qed.

Lemma holds_is_Some w a t k : holds w a → is_Some (sees (wmap w) t k) ↔ is_Some (a !! k).
Proof. intros Hh. rewrite <- (holds_seen w a t k) by done. symmetry. apply fmap_is_Some. Qed.

(** The iteration goes once through the keys of the data. *)
Lemma holds_keys w a : holds w a → (dm_iter (wmap w)).*1 ≡ₚ elements (dom a).
Proof.
  intros Hh. apply NoDup_Permutation; [apply dm_iter_nodup | apply NoDup_elements |].
  intros k. rewrite elem_of_elements, elem_of_dom, <- (proj2 (proj2 Hh) k), fmap_is_Some.
  rewrite list_elem_of_fmap. split.
  - intros ([k' e] & -> & He%dm_iter_get). by exists e.
  - intros [e He%dm_iter_get]. by exists (k, e).
Qed.

Lemma holds_size w a : holds w a → dm_len (wmap w) = Z.of_nat (size a).
Proof.
  intros Hh. unfold dm_len. rewrite <- (length_fmap fst), (holds_keys w a Hh). f_equal.
  rewrite <- size_dom. reflexivity.
Qed.

Lemma holds_no_expiry w a t :
  holds w a →
  omap (λ '(k, e), if negb (is_expired_at e t) then Some k else None) (dm_iter (wmap w)) =
  (dm_iter (wmap w)).*1.
Proof.
  intros (_ & Hx & _).
  assert (Forall (λ p : bytes * ValueEntry, expires_at p.2 = None) (dm_iter (wmap w))) as H.
  { apply Forall_forall. intros [k e] He%dm_iter_get. by apply (Hx k). }
  induction H as [|[k e] l He _ IH]; [done|]. cbn. unfold is_expired_at at 1. simpl in He.
  rewrite He. cbn. f_equal. exact IH.
Qed.

(** The value after an [INCR], by its answer. *)
Lemma incr_answers k w a :
  holds w a → ∃ r w', dispatch (CIncr k) w = (Val r, w') ∧ holds w' (effect (CIncr k) a) ∧
    answers (CIncr k) a r ∧ (is_success r = false → effect (CIncr k) a = a).
Proof.
  intros Hh. destruct (dispatch_effect (CIncr k) w a I Hh) as (r & w' & E & Hh' & Herr & _).
  exists r, w'. split_and!; [done | done | | done].
  pose proof Hh as (Hmk & _ & Hd). specialize (Hd k).
  pose proof (holds_sees w a (wnow w) k Hh) as Hs. cbn [answers]. cbn [dispatch] in E.
  destruct (dm_get (wmap w) k) as [e|] eqn:He; simpl in Hd; rewrite <- Hd.
  - destruct (incr_seen_run k e w Hs) as (w1 & _ & Hi). unfold int_of in Hi.
    destruct (parse_i64 (from_utf8_lossy (data e))) as [n|]; destruct Hi as [E1 _];
      change (kv_incr k) with (incr k : ST EW _) in E; rewrite (st_bind_val _ _ _ _ _ E1) in E;
      by injection E as <- _.
  - destruct (incr_unseen_run k w Hs) as [[(_ & ? & _) _]|(w1 & o & E1 & _ & Hi)]; [lia|].
    change (kv_incr k) with (incr k : ST EW _) in E; rewrite (st_bind_val _ _ _ _ _ E1) in E.
    injection E as <- _. destruct o as [n|err]; [by destruct Hi as [-> _] | destruct Hi as (_ & ? & _); lia].
Qed.

(** [dispatch] refines the specification. *)
Lemma dispatch_answers c w a :
  timeless c → holds w a →
  ∃ r w', dispatch c w = (Val r, w') ∧ holds w' (effect c a) ∧ answers c a r ∧
    (is_success r = false → effect c a = a).
Proof.
  intros Ht Hh. destruct (dispatch_effect c w a Ht Hh) as (r & w' & E & Hh' & Herr & _).
  destruct c as [| | | |k| | | | | | | | |]; try (by apply incr_answers);
    exists r, w'; (split_and!; [done | done | | done]); clear Herr Hh';
    cbn [dispatch answers] in *; try (by injection E as <- _).
  - destruct (dispatch_get_run key w) as (w1 & E1 & _). cbn [dispatch] in E1. rewrite E1 in E.
    injection E as <- _. by rewrite (holds_seen w a).
  - destruct ttl as [d|]; [done|]. cbn [make_entry] in E.
    rewrite (st_bind_val _ _ w _ (bump w)) in E by done.
    change (kv_set key) with (set (M := M) key) in E.
    rewrite (st_bind_val _ _ _ _ _ (set_unlimited _ _ (bump w) (proj1 Hh))) in E.
    by injection E as <- _.
  - destruct (del_run key w) as (w1 & E1 & _). change (kv_del key) with (del key : ST EW _) in E.
    rewrite (st_bind_val _ _ _ _ _ E1) in E. injection E as <- _.
    by rewrite (bool_decide_ext _ _ (holds_is_Some w a (wnow w) key Hh)).
  - injection E as <- _. by eexists.
  - injection E as <- _. by rewrite (holds_size w a).
  - destruct (exists_run key w) as (w1 & E1 & _). change (kv_exists key) with (exists_ key : ST EW _) in E.
    rewrite (st_bind_val _ _ _ _ _ E1) in E. injection E as <- _.
    by rewrite (bool_decide_ext _ _ (holds_is_Some w a (wnow w) key Hh)).
  - destruct (ttl_secs_run key w) as (w1 & t & E1 & _).
    change (kv_ttl_secs key) with (ttl_secs key : ST EW _) in E.
    rewrite (st_bind_val _ _ _ _ _ E1) in E. injection E as <- _. f_equal.
    rewrite <- (bool_decide_ext _ _ (holds_is_Some w a (wnow w) key Hh)).
    rewrite (holds_sees w a) by done. unfold ttl_answer.
    destruct (dm_get (wmap w) key) as [e|] eqn:He; [|done]. by rewrite (proj1 (proj2 Hh) key e He).
  - done.
  - eexists. split; [injection E as <- _; by rewrite (holds_no_expiry w a)|]. by apply holds_keys.
  - injection E as <- _. f_equal. rewrite <- list_fmap_compose. apply list_fmap_ext.
    intros i k _. cbn. by apply (holds_seen w a).
  - destruct (holds_pairs pairs w a Hh) as (w1 & _ & _ & E1 & _).
    rewrite (st_bind_val _ _ _ _ _ E1) in E. by injection E as <- _.
Qed.
End spec.
