(* ===== verification/AofLocks.v ===== *)
(** The append-only file's mutexes ([src/storage/aof.rs]).

    [AofWriter] guards its file, its batch and the time of its last sync with a mutex each, and
    every method awaits them one by one, so the calls of different tasks interleave between two
    locks.  Here a call is a program counter over the points where it waits or works, and a
    schedule is a sequence of steps of any of the tasks.  File Aof has the methods as functions;
    they are what a call does when it runs alone ([solo_calls]). *)

From S2P Require Import Prelude RustStd Crates Domain Metrics World Engine EngineFacts EvictFacts.
From S2P Require Import StoreSpec EngineProps Response Dispatcher DispatcherProps Aof AofFacts.
From S2P Require Import RestoreFacts AofProps.

Inductive Mutex : Type := MFile | MBatch | MLast.

#[export] Instance Mutex_eq_dec : EqDecision Mutex.
Proof. solve_decision. Defined.

(** The writer and the task that holds each mutex. *)
Record Writer : Type := mkWriter {
  fields : AofWriter;
  file_lock : option nat;
  batch_lock : option nat;
  last_lock : option nat
}.

Definition owner (m : Mutex) (L : Writer) : option nat :=
  match m with MFile => file_lock L | MBatch => batch_lock L | MLast => last_lock L end.

Definition set_owner (m : Mutex) (o : option nat) (L : Writer) : Writer :=
  match m with
  | MFile => mkWriter (fields L) o (batch_lock L) (last_lock L)
  | MBatch => mkWriter (fields L) (file_lock L) o (last_lock L)
  | MLast => mkWriter (fields L) (file_lock L) (batch_lock L) o
  end.

Definition unlocked (a : AofWriter) : Writer := mkWriter a None None None.
Definition release (m : Mutex) (L : Writer) : Writer := set_owner m None L.
Definition update (f : AofWriter → AofWriter) (L : Writer) : Writer :=
  mkWriter (f (fields L)) (file_lock L) (batch_lock L) (last_lock L).

(** Where a call is: waiting for a mutex, or about to work with those it holds. *)
Inductive Pc : Type :=
(* append_raw *)
| AppendLock (entry : bytes)
| AppendExtend (entry : bytes)
(* flush_batch *)
| FillFile (entry : bytes)
| FillBatch (entry : bytes)
| FillDrain (entry : bytes)
| FillEntry (entry : bytes)
| FillLast
| FillSync
(* flush *)
| FlushFile
| FlushBatch
| FlushWrite
(* flush_if_needed *)
| TickPolicy
| TickLast
| TickElapsed
| TickBatch
| TickFile
| TickSync
| TickStamp
(* finalize_rewrite *)
| SwapFile (tmp : bytes)
| SwapBatch (tmp : bytes)
| SwapDrain (tmp : bytes)
| SwapRename (tmp : bytes)
| Idle.

(** The mutexes held at each point. *)
Definition held (pc : Pc) : list Mutex :=
  match pc with
  | AppendExtend _ => [MBatch]
  | FillBatch _ | FillEntry _ | FillLast | FlushBatch | SwapBatch _ | SwapRename _ => [MFile]
  | FillDrain _ | FlushWrite | SwapDrain _ => [MFile; MBatch]
  | FillSync => [MFile; MLast]
  | TickElapsed | TickBatch | TickStamp => [MLast]
  | TickFile => [MLast; MBatch]
  | TickSync => [MLast; MBatch; MFile]
  | _ => []
  end.

Definition acquire (m : Mutex) (me : nat) (next : Pc) (L : Writer) : option (Pc * Writer) :=
  match owner m L with
  | None => Some (next, set_owner m (Some me) L)
  | Some _ => None
  end.

(** [last.elapsed() >= Duration::from_secs(1)] at the instant [t] *)
Definition due (t : Instant) (L : Writer) : bool :=
  from_secs 1 <=? instant_sub t (last_fsync (fields L)).

(** One step of the call of task [me], [None] when it waits; [t] and [t'] are the instants the
    step reads. *)
Definition wstep (me : nat) (t t' : Instant) (pc : Pc) (L : Writer) : option (Pc * Writer) :=
  match pc with
  | AppendLock entry => acquire MBatch me (AppendExtend entry) L
  | AppendExtend entry =>
      let L := update (λ a, set_batch (batch_buffer a ++ entry) a) L in
      let full := negb (length (batch_buffer (fields L)) <? AOF_BATCH_SIZE)%nat in
      Some (if full then FillFile entry else Idle, release MBatch L)
  | FillFile entry => acquire MFile me (FillBatch entry) L
  | FillBatch entry => acquire MBatch me (FillDrain entry) L
  | FillDrain entry => Some (FillEntry entry, release MBatch (update drain_batch L))
  | FillEntry entry =>
      let L := update (write_all entry) L in
      match fsync_policy (fields L) with
      | Always => Some (Idle, release MFile (update sync_all L))
      | Everysec => Some (FillLast, L)
      | No => Some (Idle, release MFile L)
      end
  | FillLast => acquire MLast me FillSync L
  | FillSync =>
      let L := if due t L then update (λ a, set_last t' (sync_all a)) L else L in
      Some (Idle, release MFile (release MLast L))
  | FlushFile => acquire MFile me FlushBatch L
  | FlushBatch => acquire MBatch me FlushWrite L
  | FlushWrite => Some (Idle, release MFile (release MBatch (update flush L)))
  | TickPolicy =>
      match fsync_policy (fields L) with
      | Everysec => Some (TickLast, L)
      | _ => Some (Idle, L)
      end
  | TickLast => acquire MLast me TickElapsed L
  | TickElapsed => if due t L then Some (TickBatch, L) else Some (Idle, release MLast L)
  | TickBatch => acquire MBatch me TickFile L
  | TickFile => acquire MFile me TickSync L
  | TickSync =>
      Some (TickStamp, release MFile (release MBatch (update (λ a, sync_all (drain_batch a)) L)))
  | TickStamp => Some (Idle, release MLast (update (set_last t') L))
  | SwapFile tmp => acquire MFile me (SwapBatch tmp) L
  | SwapBatch tmp => acquire MBatch me (SwapDrain tmp) L
  | SwapDrain tmp => Some (SwapRename tmp, release MBatch (update drain_batch L))
  | SwapRename tmp =>
      Some (Idle, release MFile (update (λ a,
        mkAof tmp (length tmp) (fsync_policy a) (last_fsync a) (batch_buffer a)) L))
  | Idle => None
  end.

(** Tasks that share the writer. *)
Record Tasks : Type := mkTasks { pcs : list Pc; shared_writer : Writer }.

Record Turn : Type := mkTurn { who : nat; reads : Instant; reads' : Instant }.

Definition task_step (u : Turn) (T : Tasks) : option Tasks :=
  pc ← pcs T !! who u;
  '(pc', L') ← wstep (who u) (reads u) (reads' u) pc (shared_writer T);
  Some (mkTasks (<[who u := pc']> (pcs T)) L').

Fixpoint task_run (us : list Turn) (T : Tasks) : option Tasks :=
  match us with
  | [] => Some T
  | u :: us => T' ← task_step u T; task_run us T'
  end.

Definition start_calls (calls : list Pc) (a : AofWriter) : Tasks := mkTasks calls (unlocked a).

(** The points where a call starts. *)
Definition entry_point (pc : Pc) : Prop :=
  match pc with
  | AppendLock _ | FlushFile | TickPolicy | SwapFile _ | Idle => True
  | _ => False
  end.

(** A call that runs alone, to its end. *)
Fixpoint solo (fuel me : nat) (t t' : Instant) (pc : Pc) (L : Writer) : option Writer :=
  match fuel, pc with
  | _, Idle => Some L
  | O, _ => None
  | S fuel, _ => '(pc', L') ← wstep me t t' pc L; solo fuel me t t' pc' L'
  end.

Lemma batch_size : AOF_BATCH_SIZE = 4096%nat.
Proof. done. Qed.
#[local] Opaque AOF_BATCH_SIZE.

Lemma solo_step f me t t' pc L pc' L' :
  wstep me t t' pc L = Some (pc', L') → solo (S f) me t t' pc L = solo f me t t' pc' L'.
Proof. intros E. cbn [solo]. rewrite E. by destruct pc. Qed.

(** The methods of file Aof are the calls without interference. *)
Lemma solo_calls me t t' a :
  (∀ e, solo 8 me t t' (AppendLock e) (unlocked a) = Some (unlocked (append_raw e t t' a))) ∧
  solo 8 me t t' FlushFile (unlocked a) = Some (unlocked (flush a)) ∧
  solo 8 me t t' TickPolicy (unlocked a) = Some (unlocked (flush_if_needed t t' a)) ∧
  (∀ tmp, solo 8 me t t' (SwapFile tmp) (unlocked a) = Some (unlocked (finalize_rewrite tmp a))).
Proof.
  assert (∀ e a, solo 6 me t t' (FillFile e) (unlocked a) = Some (unlocked (flush_batch e t t' a))) as Hfill.
  { clear a. intros e a. unfold flush_batch. do 3 erewrite solo_step by reflexivity. cbn.
    destruct (fsync_policy _) eqn:Hp; try done. cbn. unfold due. cbn. by case_match. }
  split_and!.
  - intros e. unfold append_raw. do 2 erewrite solo_step by reflexivity.
    cbn [fields update release set_owner]. destruct (_ <? _)%nat; [done|]. apply Hfill.
  - done.
  - unfold flush_if_needed. destruct (fsync_policy a) eqn:Hp;
      erewrite solo_step by (cbn; rewrite Hp; reflexivity); try done.
    erewrite solo_step by reflexivity. destruct (from_secs 1 <=? _) eqn:Hd;
      erewrite solo_step by (cbn; unfold due; cbn; rewrite Hd; reflexivity); [|done].
    by do 4 erewrite solo_step by reflexivity.
  - done.
Qed.

(** * Mutual exclusion *)

(** A mutex is held by the one task whose call is at a point that holds it. *)
Definition locks_ok (T : Tasks) : Prop :=
  ∀ m i, owner m (shared_writer T) = Some i ↔ ∃ pc, pcs T !! i = Some pc ∧ m ∈ held pc.

(** What a step does to the mutexes: it takes a free one, or gives back some it holds. *)
Definition moves (i : nat) (pc pc' : Pc) (L L' : Writer) : Prop :=
  ∀ m, owner m L' = (if decide (m ∈ held pc') then Some i
                     else if decide (m ∈ held pc) then None else owner m L) ∧
       (m ∈ held pc' → m ∈ held pc ∨ owner m L = None).

Lemma wstep_moves i t t' pc L pc' L' :
  wstep i t t' pc L = Some (pc', L') → (∀ m, m ∈ held pc → owner m L = Some i) → moves i pc pc' L L'.
Proof.
  intros E Hown.
  assert (∀ m, owner m L = Some i ∨ m ∉ held pc) as Hm.
  { intros m. destruct (decide (m ∈ held pc)); [left; auto | by right]. }
  pose proof (Hm MFile) as Hf; pose proof (Hm MBatch) as Hb; pose proof (Hm MLast) as Hl. clear Hm Hown.
  destruct pc; cbn [wstep] in E; unfold acquire in E; repeat case_match; simplify_eq;
    intros []; cbn in *; (split; [|try set_solver]); try done; try set_solver.
Qed.

Lemma locks_ok_step u T T' : locks_ok T → task_step u T = Some T' → locks_ok T'.
Proof.
  intros Hok. unfold task_step. destruct (pcs T !! who u) as [pc|] eqn:Hpc; [|done]. cbn.
  destruct (wstep _ _ _ _ _) as [[pc' L']|] eqn:E; [|done]. cbn. intros [= <-].
  assert (∀ m, m ∈ held pc → owner m (shared_writer T) = Some (who u)) as Hown.
  { intros m Hm. apply Hok. eauto. }
  pose proof (wstep_moves _ _ _ _ _ _ _ E Hown) as Hmv. intros m j. cbn.
  destruct (Hmv m) as [Ho Hfree]. rewrite Ho. destruct (decide (j = who u)) as [->|Hj].
  - rewrite list_lookup_insert_eq by (by eapply lookup_lt_Some).
    case_decide; [naive_solver|]. case_decide; [naive_solver|]. split; [|naive_solver].
    intros Hx%Hok. naive_solver.
  - rewrite list_lookup_insert_ne by done. rewrite <- (Hok m j).
    case_decide as Hin; [|case_decide; naive_solver].
    destruct (Hfree Hin) as [Hh|Hn]; [|naive_solver]. rewrite (Hown m Hh). naive_solver.
Qed.

Lemma locks_ok_run us T T' : locks_ok T → task_run us T = Some T' → locks_ok T'.
Proof.
  revert T. induction us as [|u us IH]; intros T Hok; [by intros [= <-]|]. cbn [task_run].
  destruct (task_step u T) as [T1|] eqn:E; [|done]. cbn. apply IH. by eapply locks_ok_step.
Qed.

Lemma locks_ok_start calls a : Forall entry_point calls → locks_ok (start_calls calls a).
Proof.
  intros Hc m i. split; [by destruct m|]. intros (pc & Hpc & Hm).
  pose proof (Forall_lookup_1 _ _ _ _ Hc Hpc) as He. destruct pc; cbn in He, Hm; try done; set_solver.
Qed.

(** * Deadlock *)

(** C40: the [Everysec] policy can deadlock the log: the ticker locks the time, the batch, then the
    file, while an append that fills the batch locks the file, then the batch.  There is a
    schedule after which the two wait for each other, and so does every later append. *)
Theorem everysec_deadlock e e' a (t t' : Instant) :
  fsync_policy a = Everysec → last_fsync a + from_secs 1 ≤ t →
  (4096 ≤ length (batch_buffer a) + length e)%nat →
  ∃ us T, task_run us (start_calls [AppendLock e; TickPolicy; AppendLock e'] a) = Some T ∧
    (∀ u, task_step u T = None) ∧ Forall (λ pc, pc ≠ Idle) (pcs T).
Proof.
  intros Hp Hl Hlen.
  exists ((λ i, mkTurn i t t') <$> [0; 0; 0; 1; 1; 1; 1]%nat).
  eexists (mkTasks [FillBatch e; TickFile; AppendLock e']
    (mkWriter (set_batch (batch_buffer a ++ e) a) (Some 0%nat) (Some 1%nat) (Some 1%nat))).
  split_and!.
  - cbn -[Nat.ltb]. rewrite length_app, batch_size.
    rewrite (proj2 (Nat.ltb_ge _ _)) by lia. cbn. rewrite Hp. cbn. unfold due. cbn.
    unfold instant_sub. rewrite (proj2 (Z.leb_le _ _)); [done|]. unfold from_secs in *. lia.
  - intros [[|[|[|i]]] ? ?]; done.
  - by repeat constructor.
Qed.

(** * Progress without [Everysec] *)

(** The steps left in a call. *)
Definition rank (pc : Pc) : nat :=
  match pc with
  | AppendLock _ => 8
  | AppendExtend _ | TickPolicy => 7
  | FillFile _ | TickLast => 6
  | FillBatch _ | TickElapsed => 5
  | FillDrain _ | TickBatch | SwapFile _ => 4
  | FillEntry _ | TickFile | SwapBatch _ | FlushFile => 3
  | FillLast | TickSync | SwapDrain _ | FlushBatch => 2
  | FillSync | TickStamp | SwapRename _ | FlushWrite => 1
  | Idle => 0
  end.

Definition total_rank (l : list Pc) : nat := foldr (λ pc n, (rank pc + n)%nat) 0%nat l.

Lemma wstep_rank i t t' pc L pc' L' : wstep i t t' pc L = Some (pc', L') → (rank pc' < rank pc)%nat.
Proof.
  destruct pc; cbn [wstep]; unfold acquire; repeat case_match; intros; simplify_eq; cbn; lia.
Qed.

Lemma total_rank_insert l i pc pc' :
  l !! i = Some pc → (total_rank (<[i := pc']> l) + rank pc = total_rank l + rank pc')%nat.
Proof.
  unfold total_rank. revert i. induction l as [|x l IH]; intros [|i] Hi; simplify_eq/=; [lia|].
  specialize (IH i Hi). lia.
Qed.

Lemma task_step_rank u T T' : task_step u T = Some T' → (total_rank (pcs T') < total_rank (pcs T))%nat.
Proof.
  unfold task_step. destruct (pcs T !! who u) as [pc|] eqn:Hpc; [|done]. cbn.
  destruct (wstep _ _ _ _ _) as [[pc' L']|] eqn:E; [|done]. cbn. intros [= <-]. cbn [pcs].
  apply wstep_rank in E. pose proof (total_rank_insert _ _ pc pc' Hpc). lia.
Qed.

(** Points that only calls under [Everysec] reach. *)
Definition everysec_only (pc : Pc) : bool :=
  match pc with
  | FillLast | FillSync | TickLast | TickElapsed | TickBatch | TickFile | TickSync | TickStamp => true
  | _ => false
  end.

Definition calm (T : Tasks) : Prop :=
  fsync_policy (fields (shared_writer T)) ≠ Everysec ∧ Forall (λ pc, everysec_only pc = false) (pcs T).

Lemma policy_kept a b e :
  fsync_policy (set_batch b a) = fsync_policy a ∧ fsync_policy (drain_batch a) = fsync_policy a ∧
  fsync_policy (flush a) = fsync_policy a ∧ fsync_policy (write_all e a) = fsync_policy a.
Proof. unfold flush, drain_batch. repeat case_match; split_and!; try done; cbn in *; congruence. Qed.

Lemma wstep_calm i t t' pc L pc' L' :
  wstep i t t' pc L = Some (pc', L') → fsync_policy (fields L) ≠ Everysec →
  everysec_only pc = false → fsync_policy (fields L') ≠ Everysec ∧ everysec_only pc' = false.
Proof.
  destruct (policy_kept (fields L) [] []) as (_ & Hd & Hf & _).
  destruct pc; cbn [wstep everysec_only]; unfold acquire; repeat case_match; intros; simplify_eq;
    (split; [|done]); cbn in *; congruence.
Qed.

Lemma calm_step u T T' : calm T → task_step u T = Some T' → calm T'.
Proof.
  intros [Hp Hpcs]. unfold task_step. destruct (pcs T !! who u) as [pc|] eqn:Hpc; [|done]. cbn.
  destruct (wstep _ _ _ _ _) as [[pc' L']|] eqn:E; [|done]. cbn. intros [= <-].
  destruct (wstep_calm _ _ _ _ _ _ _ E Hp) as [Hp' He]; [by eapply Forall_lookup_1 in Hpcs|].
  split; [done|]. by apply Forall_insert.
Qed.

(** A call that holds the batch is never waiting. *)
Lemma batch_owner_runs t t' T i :
  calm T → locks_ok T → owner MBatch (shared_writer T) = Some i → is_Some (task_step (mkTurn i t t') T).
Proof.
  intros [_ Hc] Hok (pc & Hpc & Hm)%Hok. pose proof (Forall_lookup_1 _ _ _ _ Hc Hpc) as He.
  unfold task_step. cbn [who reads reads']. rewrite Hpc. cbn.
  destruct pc; cbn in Hm, He; try done; try set_solver; by eexists.
Qed.

(** If a call waits for nothing but the batch, someone can go on. *)
Lemma batch_wait_runs t t' T i pc :
  calm T → locks_ok T → pcs T !! i = Some pc →
  (∃ next, ∀ L, wstep i t t' pc L = acquire MBatch i next L) → ∃ j, is_Some (task_step (mkTurn j t t') T).
Proof.
  intros Hc Hok Hpc (next & Hw). destruct (owner MBatch (shared_writer T)) as [j|] eqn:Ho.
  - exists j. by apply batch_owner_runs.
  - exists i. unfold task_step. cbn [who reads reads']. rewrite Hpc. cbn. rewrite Hw. unfold acquire.
    rewrite Ho. by eexists.
Qed.

Lemma file_owner_progress t t' T i :
  calm T → locks_ok T → owner MFile (shared_writer T) = Some i → ∃ j, is_Some (task_step (mkTurn j t t') T).
Proof.
  intros Hc Hok (pc & Hpc & Hm)%Hok. pose proof (Forall_lookup_1 _ _ _ _ (proj2 Hc) Hpc) as He.
  destruct pc; cbn in Hm, He; try done; try set_solver;
    try (by eapply batch_wait_runs; [done..|]; eexists);
    exists i; unfold task_step; cbn [who reads reads']; rewrite Hpc; cbn; [by eexists| |by eexists..].
  by destruct (fsync_policy _); eexists.
Qed.

Lemma calm_progress T :
  calm T → locks_ok T →
  Forall (λ pc, pc = Idle) (pcs T) ∨ ∀ t t', ∃ i, is_Some (task_step (mkTurn i t t') T).
Proof.
  intros Hc Hok. destruct (decide (Forall (λ pc, rank pc = 0%nat) (pcs T))) as [Hi|Hi].
  { left. eapply Forall_impl; [exact Hi|]. by intros []. }
  right. intros t t'. apply not_Forall_Exists in Hi; [|intros ?; apply _].
  apply Exists_exists in Hi as (pc & (i & Hpc)%list_elem_of_lookup & Hr).
  pose proof (Forall_lookup_1 _ _ _ _ (proj2 Hc) Hpc) as He.
  destruct (owner MFile (shared_writer T)) as [j|] eqn:Hf; [by eapply file_owner_progress|].
  destruct pc; cbn in He, Hr; try done; try (by eapply batch_wait_runs; [done..|]; eexists);
    exists i; unfold task_step; cbn [who reads reads']; rewrite Hpc; cbn; unfold acquire; rewrite ?Hf;
    try (by eexists); by destruct (fsync_policy _); eexists.
Qed.

(** C16: unless the policy is [Everysec] the calls of any number of tasks all end, under every
    schedule: none is longer than the ranks of the calls, and while a call is unfinished some
    task can go on. *)
Theorem writer_calls_end calls a us T :
  fsync_policy a ≠ Everysec → Forall entry_point calls → task_run us (start_calls calls a) = Some T →
  (length us + total_rank (pcs T) ≤ total_rank calls)%nat ∧
  (Forall (λ pc, pc = Idle) (pcs T) ∨ ∀ t t', ∃ i, is_Some (task_step (mkTurn i t t') T)).
Proof.
  intros Hp Hcalls.
  assert (calm (start_calls calls a)) as Hc.
  { split; [done|]. eapply Forall_impl; [exact Hcalls|]. by intros []. }
  pose proof (locks_ok_start calls a Hcalls) as Hok.
  change (total_rank calls) with (total_rank (pcs (start_calls calls a))).
  revert Hc Hok. generalize (start_calls calls a) as T0.
  induction us as [|u us IH]; intros T0 Hc Hok.
  - intros [= ->]. split; [cbn [length]; lia | by apply calm_progress].
  - cbn [task_run length]. destruct (task_step u T0) as [T1|] eqn:E; [|done]. cbn. intros Hr.
    destruct (IH T1 (calm_step _ _ _ Hc E) (locks_ok_step _ _ _ Hok E) Hr) as [Hlen Hprog].
    split; [|done]. apply task_step_rank in E. lia.
Qed.

(** * The entries in the log *)

(** Entries a call has still to put in the batch, and those it may write once more. *)
Definition due_entry (pc : Pc) : list bytes :=
  match pc with AppendLock e | AppendExtend e => [e] | _ => [] end.
Definition again_entry (pc : Pc) : list bytes :=
  match pc with
  | AppendLock e | AppendExtend e | FillFile e | FillBatch e | FillDrain e | FillEntry e => [e]
  | _ => []
  end.

Definition swapping (pc : Pc) : bool :=
  match pc with SwapFile _ | SwapBatch _ | SwapDrain _ | SwapRename _ => true | _ => false end.

(** The file is its first content [f0] followed by whole entries [fs], the batch is the
    entries [bs]; the entries written or due are those asked for, [es], and some again, [ds]. *)
Definition whole_entries (f0 : bytes) (es : list bytes) (T : Tasks) : Prop :=
  ∃ fs bs ds,
    file (fields (shared_writer T)) = f0 ++ mjoin fs ∧
    batch_buffer (fields (shared_writer T)) = mjoin bs ∧
    fs ++ bs ++ (pcs T ≫= due_entry) ≡ₚ es ++ ds ∧
    ds ++ (pcs T ≫= again_entry) ⊆+ es.

Lemma drain_entries f0 fs bs a :
  file a = f0 ++ mjoin fs → batch_buffer a = mjoin bs →
  file (drain_batch a) = f0 ++ mjoin (fs ++ bs) ∧ batch_buffer (drain_batch a) = mjoin ([] : list bytes).
Proof.
  intros Hf Hb. destruct (drain_batch_file a) as [-> ->]. split; [|done].
  unfold written. by rewrite Hf, Hb, join_app, app_assoc.
Qed.

Lemma flush_drain a :
  file (flush a) = file (drain_batch a) ∧ batch_buffer (flush a) = batch_buffer (drain_batch a).
Proof. unfold flush. by destruct (fsync_policy _). Qed.

Lemma join_snoc (l : list bytes) e : mjoin (l ++ [e]) = mjoin l ++ e.
Proof. rewrite join_app. f_equal. apply app_nil_r. Qed.

Lemma wstep_entries f0 fs bs i t t' pc L pc' L' :
  wstep i t t' pc L = Some (pc', L') → swapping pc = false →
  file (fields L) = f0 ++ mjoin fs → batch_buffer (fields L) = mjoin bs →
  swapping pc' = false ∧ ∃ fs' bs' ds,
    file (fields L') = f0 ++ mjoin fs' ∧ batch_buffer (fields L') = mjoin bs' ∧
    fs' ++ bs' ++ due_entry pc' ≡ₚ fs ++ bs ++ due_entry pc ++ ds ∧
    ds ++ again_entry pc' ⊆+ again_entry pc.
Proof.
  intros E Hs Hf Hb. destruct (drain_entries f0 fs bs (fields L) Hf Hb) as [Hdf Hdb].
  destruct (flush_drain (fields L)) as [Hff Hfb].
  destruct pc; cbn [wstep swapping] in *; try done; unfold acquire in E;
    repeat case_match; simplify_eq; cbn [swapping]; (split; [done|]);
    try (exists fs, bs, []; cbn -[mjoin]; rewrite ?app_nil_r; split_and!; done);
    try (exists (fs ++ bs), [], []; cbn -[mjoin]; rewrite ?Hff, ?Hfb, ?Hdf, ?Hdb, ?app_nil_r;
         split_and!; done);
    try (exists (fs ++ [entry]), bs, [entry]; cbn -[mjoin]; rewrite join_snoc, ?Hf, <- ?app_assoc;
         split_and!; [done | done | solve_Permutation | done]);
    exists fs, (bs ++ [entry]), []; cbn -[mjoin]; rewrite join_snoc, ?Hb, <- ?app_assoc, ?app_nil_r;
    (split_and!; try done); apply submseteq_nil_l.
Qed.

(** The entries of one task and of the others. *)
Lemma bind_insert {A} (f : Pc → list A) l i pc :
  l !! i = Some pc → ∃ rest, l ≫= f ≡ₚ f pc ++ rest ∧ ∀ pc', <[i := pc']> l ≫= f ≡ₚ f pc' ++ rest.
Proof.
  intros Hi. exists ((take i l ≫= f) ++ (drop (S i) l ≫= f)). split.
  - rewrite <- (take_drop_middle l i pc Hi) at 1. rewrite bind_app, bind_cons. solve_Permutation.
  - intros pc'. rewrite insert_take_drop by (by eapply lookup_lt_Some).
    rewrite bind_app, bind_cons. solve_Permutation.
Qed.

Lemma whole_entries_step f0 es u T T' :
  task_step u T = Some T' → Forall (λ pc, swapping pc = false) (pcs T) → whole_entries f0 es T →
  Forall (λ pc, swapping pc = false) (pcs T') ∧ whole_entries f0 es T'.
Proof.
  unfold task_step. destruct (pcs T !! who u) as [pc|] eqn:Hpc; [|done]. cbn.
  destruct (wstep _ _ _ _ _) as [[pc' L']|] eqn:E; [|done]. cbn. intros [= <-] Hsw.
  intros (fs & bs & ds & Hf & Hb & Hperm & Hsub).
  destruct (wstep_entries f0 fs bs _ _ _ _ _ _ _ E) as (Hs' & fs' & bs' & ds' & Hf' & Hb' & Hp' & Hd');
    [by eapply Forall_lookup_1 in Hsw | done | done |].
  split; [by apply Forall_insert|]. cbn [pcs shared_writer].
  destruct (bind_insert due_entry (pcs T) (who u) pc Hpc) as (X & HX & HX').
  destruct (bind_insert again_entry (pcs T) (who u) pc Hpc) as (Y & HY & HY').
  exists fs', bs', (ds ++ ds'). split_and!; [done | done | |]; cbn [pcs]; rewrite ?HX', ?HY'.
  - rewrite !app_assoc, <- (app_assoc _ _ (due_entry pc')), Hp'.
    rewrite HX in Hperm. rewrite app_assoc, <- Hperm. solve_Permutation.
  - rewrite HY in Hsub. etrans; [|exact Hsub]. rewrite <- app_assoc.
    apply submseteq_app; [done|]. rewrite app_assoc. by apply submseteq_app.
Qed.

(** C15: what appends leave, however tasks that append, flush and sync interleave: when all are
    done and the batch is flushed, the file holds the old log and then whole entries, every
    entry asked for once, and some of them a second time. *)
Theorem appends_intact calls a us T :
  Forall entry_point calls → Forall (λ pc, swapping pc = false) calls → batch_buffer a = [] →
  task_run us (start_calls calls a) = Some T → Forall (λ pc, pc = Idle) (pcs T) →
  ∃ ws ds, file (flush (fields (shared_writer T))) = file a ++ mjoin ws ∧
    ws ≡ₚ (calls ≫= due_entry) ++ ds ∧ ds ⊆+ calls ≫= due_entry.
Proof.
  intros He Hs Hb Hrun Hidle.
  assert (whole_entries (file a) (calls ≫= due_entry) T) as (fs & bs & ds & Hf & Hbb & Hp & Hd).
  { assert (whole_entries (file a) (calls ≫= due_entry) (start_calls calls a)) as H0.
    { exists [], [], []. cbn [start_calls shared_writer unlocked fields pcs].
      rewrite Hb, app_nil_r. split_and!; [done | done | by rewrite app_nil_r |].
      cbn. assert (calls ≫= again_entry = calls ≫= due_entry) as ->; [|done].
      clear -He. induction He as [|pc calls Hpc _ IH]; [done|]. cbn. rewrite IH. by destruct pc. }
    assert (Forall (λ pc, swapping pc = false) (pcs (start_calls calls a))) as H1 by done.
    revert H0 H1 Hrun. generalize (start_calls calls a) as T0. clear -us.
    induction us as [|u us IH]; intros T0 H0 H1; [by intros [= <-]|]. cbn [task_run].
    destruct (task_step u T0) as [T1|] eqn:E; [|done]. cbn.
    destruct (whole_entries_step _ _ _ _ _ E H1 H0). by apply IH. }
  assert (∀ f : Pc → list bytes, f Idle = [] → pcs T ≫= f = []) as Hnil.
  { intros f Hfi. induction Hidle as [|pc l -> _ IH]; [done|]. cbn. by rewrite Hfi, IH. }
  rewrite Hnil, app_nil_r in Hp by done. rewrite Hnil, app_nil_r in Hd by done.
  exists (fs ++ bs), ds. split_and!; [|done..]. destruct (flush_drain (fields (shared_writer T))) as [-> _].
  by eapply drain_entries.
Qed.

(** * Order *)

Lemma task_run_step us i t t' T pc pc' L' :
  pcs T !! i = Some pc → wstep i t t' pc (shared_writer T) = Some (pc', L') →
  task_run (mkTurn i t t' :: us) T = task_run us (mkTasks (<[i := pc']> (pcs T)) L').
Proof. intros Hi E. cbn [task_run]. unfold task_step. cbn [who reads reads']. rewrite Hi. cbn. by rewrite E. Qed.

(** The turns of an append that fills the batch, up to its release of the batch, and the rest. *)
Definition fill_turns (i : nat) : list Turn := repeat (mkTurn i 0 0) 2.
Definition drain_turns (i : nat) : list Turn := repeat (mkTurn i 0 0) 4.

Lemma fill_run us i l e a :
  l !! i = Some (AppendLock e) → (4096 ≤ length (batch_buffer a) + length e)%nat →
  task_run (fill_turns i ++ us) (mkTasks l (unlocked a)) =
  task_run us (mkTasks (<[i := FillFile e]> l) (unlocked (set_batch (batch_buffer a ++ e) a))).
Proof.
  intros Hi Hlen. cbn [fill_turns repeat app]. erewrite task_run_step by done.
  erewrite task_run_step; [cbn [pcs]; by rewrite list_insert_insert_eq | |].
  - cbn [pcs]. apply list_lookup_insert_eq. by eapply lookup_lt_Some.
  - cbn -[Nat.ltb]. rewrite length_app, batch_size, (proj2 (Nat.ltb_ge _ _)) by lia. reflexivity.
Qed.

Lemma drain_run us i l e a :
  l !! i = Some (FillFile e) → fsync_policy a = Always →
  task_run (drain_turns i ++ us) (mkTasks l (unlocked a)) =
  task_run us (mkTasks (<[i := Idle]> l) (unlocked (sync_all (write_all e (drain_batch a))))).
Proof.
  intros Hi Hp. assert (i < length l)%nat by (by eapply lookup_lt_Some).
  cbn [drain_turns repeat app]. erewrite task_run_step by done.
  do 2 (erewrite task_run_step; [|cbn [pcs]; by apply list_lookup_insert_eq; rewrite ?length_insert | done]).
  erewrite task_run_step; [cbn [pcs]; by rewrite !list_insert_insert_eq | |].
  - cbn [pcs]. apply list_lookup_insert_eq. by rewrite ?length_insert.
  - cbn. destruct (policy_kept a [] []) as (_ & -> & _). rewrite Hp. reflexivity.
Qed.

(** Two appends that both find the batch full: the first to be batched may be the last to be
    written again. *)
Lemma filled_batches_run e1 e2 a :
  fsync_policy a = Always → (4096 ≤ length (batch_buffer a) + length e1)%nat →
  ∃ a', task_run (fill_turns 0 ++ fill_turns 1 ++ drain_turns 1 ++ drain_turns 0)
    (start_calls [AppendLock e1; AppendLock e2] a) = Some (mkTasks [Idle; Idle] (unlocked a')) ∧
    file a' = written a ++ e1 ++ e2 ++ e2 ++ e1 ∧ batch_buffer a' = [].
Proof.
  intros Hp Hlen. unfold start_calls. rewrite <- (app_nil_r (drain_turns 0)).
  rewrite (fill_run _ 0 _ e1) by done. rewrite (fill_run _ 1 _ e2); [|done|].
  2: { cbn [batch_buffer set_batch]. rewrite length_app. lia. }
  rewrite (drain_run _ 1 _ e2) by done. rewrite (drain_run _ 0 _ e1); [|done|].
  2: { cbn. by match goal with |- fsync_policy (drain_batch ?b) = _ => destruct (policy_kept b [] []) as (_ & -> & _) end. }
  eexists. split; [reflexivity|]. cbn [file sync_all write_all batch_buffer].
  set (b := set_batch _ _). set (c := sync_all _). destruct (drain_batch_file c) as [-> ->].
  split; [|done]. unfold written. cbn [file batch_buffer c sync_all write_all].
  destruct (drain_batch_file b) as [-> ->]. unfold written, b. cbn. rewrite app_nil_r, <- !app_assoc.
  by rewrite app_assoc.
Qed.

Section order.
Context {M : Type} {DM : DashMap bytes ValueEntry M} {CL : Clock} {IT : Itoa}.
Abbreviation EW := (World (DashMapEngine M)).

(** Two tasks set the same key, one after the other, while the batch is almost full: in some
    schedule both calls end and the file then replays as the older value. *)
Theorem filled_batches_revive k v1 v2 a cs (w : EW) a0 :
  fsync_policy a = Always → written a = log_of cs →
  Forall (λ c, timeless c ∧ aof_encodable c ∧ is_write c = true) cs →
  key_ok k → value_ok v1 → value_ok v2 → (4096 ≤ length (batch_buffer a) + length v1)%nat →
  holds w a0 →
  ∃ e1 e2 us a' n w', to_aof_entry (CSet k v1 None) = Some e1 ∧ to_aof_entry (CSet k v2 None) = Some e2 ∧
    task_run (fill_turns 0 ++ fill_turns 1 ++ us) (start_calls [AppendLock e1; AppendLock e2] a) =
      Some (mkTasks [Idle; Idle] (unlocked a')) ∧
    replay_aof (Ok (file a')) w = (Val (Ok n), w') ∧
    ∀ t, data <$> sees (emap (eng w')) t k = Some v1.
Proof.
  intros Hp Hw Hcs Hk Hv1 Hv2 Hlen Hh.
  set (c1 := CSet k v1 None). set (c2 := CSet k v2 None).
  destruct (to_aof_entry c1) as [e1|] eqn:E1; [|done]. destruct (to_aof_entry c2) as [e2|] eqn:E2; [|done].
  destruct (filled_batches_run e1 e2 a Hp) as (a' & Hrun & Hf & _).
  { injection E1 as <-. cbn -[Nat.le]. repeat (rewrite length_app || cbn [length]). lia. }
  assert (Forall (λ c, timeless c ∧ aof_encodable c ∧ is_write c = true) (cs ++ [c1; c2; c2; c1])) as Hall.
  { apply Forall_app. split; [done|]. rewrite !Forall_cons, Forall_nil. by split_and!. }
  destruct (apply_all_effects _ w a0 Hall Hh) as (w' & Ea & Hh').
  exists e1, e2, (drain_turns 1 ++ drain_turns 0), a', (Z.of_nat (length (cs ++ [c1; c2; c2; c1]))), w'.
  split_and!; [done.. | |].
  - rewrite Hf, Hw. replace (log_of cs ++ e1 ++ e2 ++ e2 ++ e1) with (log_of (cs ++ [c1; c2; c2; c1])).
    + by apply replay_writes.
    + unfold log_of. rewrite omap_app, join_app. f_equal. cbn [omap list_omap]. rewrite E1, E2.
      change (mjoin [e1; e2; e2; e1]) with (e1 ++ e2 ++ e2 ++ e1 ++ []). by rewrite app_nil_r.
  - intros t. rewrite (holds_sees _ _ t k Hh'), (proj2 (proj2 Hh') k), foldl_app. cbn.
    by rewrite lookup_insert_eq.
Qed.
End order.

(** * Witnesses *)

Section witnesses.
#[local] Existing Instances gmap_dashmap ms_clock itoa_display.

(** An entry that fills the batch on its own. *)
Definition wit_big : bytes := repeat Byte.x61 4096.

Lemma wit_big_len : (4096 ≤ length wit_big)%nat.
Proof. apply Nat.leb_le. by vm_compute. Qed.

Lemma everysec_deadlock_witness :
  ∃ us T, task_run us (start_calls [AppendLock wit_big; TickPolicy; AppendLock []]
                         (aof_new [] Everysec 0)) = Some T ∧
    (∀ u, task_step u T = None) ∧ Forall (λ pc, pc ≠ Idle) (pcs T).
Proof. by apply (everysec_deadlock wit_big [] (aof_new [] Everysec 0) (from_secs 2) 0); try apply wit_big_len. Defined.

Definition wit_calls : list Pc := [AppendLock (str "ab"); AppendLock (str "c"); TickPolicy].
Definition wit_turns : list Turn := (λ i, mkTurn i 0 0) <$> [0; 0; 2; 1; 1]%nat.

Lemma writer_calls_end_witness :
  let T := mkTasks [Idle; Idle; Idle] (unlocked (mkAof [] 0 No 0 (str "abc"))) in
  task_run wit_turns (start_calls wit_calls (aof_new [] No 0)) = Some T ∧
  (5 + total_rank (pcs T) ≤ total_rank wit_calls)%nat.
Proof.
  intros T. assert (task_run wit_turns (start_calls wit_calls (aof_new [] No 0)) = Some T) as E
    by (by vm_compute).
  split; [done|]. by apply (writer_calls_end wit_calls (aof_new [] No 0) wit_turns T); [|repeat constructor|].
Defined.

Lemma appends_intact_witness :
  let T := mkTasks [Idle; Idle; Idle] (unlocked (mkAof [] 0 No 0 (str "abc"))) in
  ∃ ws ds, file (flush (fields (shared_writer T))) = [] ++ mjoin ws ∧
    ws ≡ₚ [str "ab"; str "c"] ++ ds ∧ ds ⊆+ [str "ab"; str "c"].
Proof.
  intros T. apply (appends_intact wit_calls (aof_new [] No 0) wit_turns T);
    [by repeat constructor | by repeat constructor | done | by vm_compute | by repeat constructor].
Defined.

Lemma filled_batches_revive_witness :
  ∃ e1 e2 us a' n w',
    to_aof_entry (CSet (str "k") wit_big None) = Some e1 ∧
    to_aof_entry (CSet (str "k") (str "2") None) = Some e2 ∧
    task_run (fill_turns 0 ++ fill_turns 1 ++ us)
      (start_calls [AppendLock e1; AppendLock e2] (aof_new [] Always 0)) =
      Some (mkTasks [Idle; Idle] (unlocked a')) ∧
    replay_aof (Ok (file a')) wit_empty = (Val (Ok n), w') ∧
    ∀ t, data <$> sees (emap (eng w')) t (str "k") = Some wit_big.
Proof.
  apply (filled_batches_revive (str "k") wit_big (str "2") (aof_new [] Always 0) [] wit_empty ∅);
    try done; apply wit_big_len.
Defined.
End witnesses.
