(* ===== verification/Config.v ===== *)
(** [src/config/mod.rs] and [src/observability/cpu_affinity.rs]: the options of the server,
    their defaults and accessors, and thread pinning.  How clap fills the records from the
    command line and the environment is not modelled; [Default] is. *)

From S2P Require Import Prelude RustStd Aof.

(** * Options *)

Record SnapshotConfig : Type := mkSnapshotConfig {
  snapshot_enabled : bool;
  snapshot_path : bytes;
  snapshot_interval_secs : Z
}.

Record AofConfig : Type := mkAofConfig {
  aof_enabled : bool;
  aof_path : bytes;
  aof_fsync : FsyncPolicy;
  aof_rewrite_threshold_mb : Z
}.

Record Config : Type := mkConfig {
  bind_addr : bytes;
  port : Z;
  read_timeout_secs : Z;
  sweep_interval_secs : Z;
  max_connections : Z;
  write_timeout_secs : Z;
  cfg_max_keys : Z;
  cfg_snapshot : SnapshotConfig;
  cfg_aof : AofConfig;
  metrics_enabled : bool
}.

(** * Accessors *)

Definition read_timeout (c : Config) : Duration := from_secs (read_timeout_secs c).
Definition sweep_interval (c : Config) : Duration := from_secs (sweep_interval_secs c).
Definition write_timeout (c : Config) : Duration :=
  if write_timeout_secs c =? 0 then from_secs 0 else from_secs (write_timeout_secs c).

Definition snapshot_on (s : SnapshotConfig) : bool := snapshot_enabled s.
Definition snapshot_interval (s : SnapshotConfig) : Duration := from_secs (snapshot_interval_secs s).

Definition is_every_write (p : FsyncPolicy) : bool := match p with Always => true | _ => false end.
Definition is_every_second (p : FsyncPolicy) : bool := match p with Everysec => true | _ => false end.
Definition is_never (p : FsyncPolicy) : bool := match p with No => true | _ => false end.

Definition aof_on (a : AofConfig) : bool := aof_enabled a.
Definition rewrite_threshold_mb (a : AofConfig) : Z := aof_rewrite_threshold_mb a.

(** * Defaults *)

Definition fsync_default : FsyncPolicy := Everysec.

Definition snapshot_default : SnapshotConfig := mkSnapshotConfig true (str "dump.zdb") 60.

Definition aof_default : AofConfig := mkAofConfig false (str "appendonly.zdb") fsync_default 64.

Definition config_default : Config :=
  mkConfig (str "127.0.0.1") 6379 30 1 0 30 0 snapshot_default aof_default false.

(** The integers of a configuration are machine integers. *)
Definition config_wf (c : Config) : Prop :=
  0 ≤ port c < 2 ^ 16 ∧ in_u64 (read_timeout_secs c) ∧ in_u64 (sweep_interval_secs c) ∧
  in_u64 (max_connections c) ∧ in_u64 (write_timeout_secs c) ∧ in_u64 (cfg_max_keys c) ∧
  in_u64 (snapshot_interval_secs (cfg_snapshot c)) ∧
  in_u64 (aof_rewrite_threshold_mb (cfg_aof c)).

(** * Thread pinning *)

(** The processor each thread is pinned to; a thread that was never pinned may run anywhere. *)
Abbreviation Affinity := (gmap nat Z).

(** [num_cpus]: what [available_parallelism] gives, or 1. *)
Definition num_cpus (parallelism : option Z) : Z := default 1 parallelism.

(** [pin_thread_to_cpu]: process id 0 names the calling thread. *)
Definition pin_thread_to_cpu (me : nat) (cpu_id : Z) (a : Affinity) : Affinity := <[me := cpu_id]> a.

(** [for i in 0..num_workers]; the remainder by zero panics. *)
Fixpoint pin_loop (me : nat) (n : Z) (todo : nat) (i : Z) (a : Affinity) : outcome Affinity :=
  match todo with
  | O => Val a
  | S todo =>
      if n =? 0 then Panic
      else pin_loop me n todo (i + 1) (pin_thread_to_cpu me (i mod n) a)
  end.

Definition pin_worker_threads (me : nat) (parallelism : option Z) (num_workers : nat)
    (a : Affinity) : outcome Affinity :=
  pin_loop me (num_cpus parallelism) num_workers 0 a.

(** * Properties *)

Lemma config_default_wf : config_wf config_default.
Proof. unfold config_wf, in_u64; simpl; lia. Qed.

Lemma pin_loop_run me n todo i a :
  0 < n →
  pin_loop me n todo i a =
  Val (match todo with O => a | S _ => <[me := (i + Z.of_nat todo - 1) mod n]> a end).
Proof.
  intros Hn. revert i a. induction todo as [|todo IH]; intros i a; [done|].
  cbn [pin_loop]. rewrite (proj2 (Z.eqb_neq n 0)) by lia. rewrite IH. unfold pin_thread_to_cpu.
  destruct todo as [|todo].
  - do 3 f_equal. lia.
  - rewrite insert_insert_eq. do 3 f_equal. lia.
Qed.

(** Pinning [n] workers pins the calling thread [n] times and no other: it ends on processor
    [(n - 1) mod cpus], whatever the number of processors, and never divides by zero. *)
Theorem pin_worker_threads_pins_caller me parallelism n a :
  (∀ p, parallelism = Some p → 0 < p) →
  pin_worker_threads me parallelism (S n) a =
  Val (<[me := Z.of_nat n mod num_cpus parallelism]> a).
Proof.
  intros Hp. unfold pin_worker_threads. rewrite pin_loop_run.
  - do 3 f_equal. lia.
  - unfold num_cpus. destruct parallelism; simpl; [by apply Hp | lia].
Qed.
