(* ===== verification/Snapshot.v ===== *)
(** [src/storage/snapshot.rs]: the snapshot file.  Reading is by position, as in the
    source; [load_snapshot] is given what reading the file returns ([fs::read] and the memory
    map give the same bytes), and [dump_snapshot] returns the bytes it writes to
    [{path}.tmp] and renames over [path]. *)

From S2P Require Import Prelude RustStd Crates Domain Metrics World Engine Aof.

Definition MAGIC : bytes := str "ZDB1".
Definition VERSION : byte := Byte.x01.
Definition HEADER_SIZE : nat := 4 + 1 + 1 + 4 + 8.
Definition CRC_SIZE : nat := 4.

(** The readers of this file: the value at [pos] and the position after it. *)
Definition snap_read_u16_le (data : bytes) (pos : nat) : result (Z * nat) IoError :=
  if (pos + 2 <=? length data)%nat then Ok (le_val (take 2 (drop pos data)), pos + 2)%nat
  else Err (IoInvalidData (str "snapshot truncated u16")).
Definition snap_read_u32_le (data : bytes) (pos : nat) : result (Z * nat) IoError :=
  if (pos + 4 <=? length data)%nat then Ok (le_val (take 4 (drop pos data)), pos + 4)%nat
  else Err (IoInvalidData (str "snapshot truncated u32")).
Definition snap_read_i64_le (data : bytes) (pos : nat) : result (Z * nat) IoError :=
  if (pos + 8 <=? length data)%nat then Ok (i64 (le_val (take 8 (drop pos data))), pos + 8)%nat
  else Err (IoInvalidData (str "snapshot truncated i64")).

(** One turn of the loading loop up to [engine.set]: key, value, lifetime and the position
    after them, or [None] for a [break]. *)
Definition load_fields (data : bytes) (payload_end pos : nat) :
    option (bytes * bytes * Z * nat) :=
  if (payload_end <? pos + 2)%nat then None
  else
    match snap_read_u16_le data pos with
    | Err _ => None
    | Ok (key_len, pos) =>
        let key_len := Z.to_nat key_len in
        if (payload_end <? pos + key_len)%nat then None
        else
          let key := from_utf8_lossy (take key_len (drop pos data)) in
          let pos := (pos + key_len)%nat in
          if (payload_end <? pos + 4)%nat then None
          else
            match snap_read_u32_le data pos with
            | Err _ => None
            | Ok (val_len, pos) =>
                let val_len := Z.to_nat val_len in
                if (payload_end <? pos + val_len)%nat then None
                else
                  let value := take val_len (drop pos data) in
                  let pos := (pos + val_len)%nat in
                  if (payload_end <? pos + 8)%nat then None
                  else
                    match snap_read_i64_le data pos with
                    | Err _ => None
                    | Ok (ttl_ms, pos) => Some (key, value, ttl_ms, pos)
                    end
            end
    end.

Section snapshot.
Context {M : Type} {DM : DashMap bytes ValueEntry M} {CL : Clock} {IT : Itoa} {CR : Crc32}.
Abbreviation EW := (World (DashMapEngine M)).

(** The dump callback. *)
Definition dump_push (buf : bytes) (e : bytes * bytes * Z) : bytes :=
  let '(key, value, ttl_ms) := e in
  buf ++ le_bytes 2 (u16 (Z.of_nat (length key))) ++ key ++
         le_bytes 4 (u32 (Z.of_nat (length value))) ++ value ++ le_bytes 8 ttl_ms.

(** [dump_snapshot]: the file's bytes and the entry count, at wall-clock [timestamp] ms. *)
Definition dump_snapshot (timestamp : Z) : ST EW (bytes * Z) :=
  let header := MAGIC ++ [VERSION] ++ [Byte.x00] ++ le_bytes 4 0 ++ le_bytes 8 timestamp in
  es ← dump_entries;
  let count := Z.of_nat (length es) in
  let buf := foldl dump_push header es in
  let buf := take 6 buf ++ le_bytes 4 (u32 count) ++ drop 10 buf in
  let crc := crc32_hash buf in
  mret (buf ++ le_bytes 4 crc, count).

(** [for _ in 0..count]: the loading loop, counting the entries the engine accepted. *)
Fixpoint load_entries (data : bytes) (payload_end : nat) (count : nat) (pos : nat) (loaded : Z) :
    ST EW Z :=
  match count with
  | O => mret loaded
  | S count =>
      match load_fields data payload_end pos with
      | None => mret loaded
      | Some (key, value, ttl_ms, pos) =>
          entry ← restore_entry value ttl_ms;
          r ← set key entry;
          load_entries data payload_end count pos
            (match r with Ok _ => loaded + 1 | Err _ => loaded end)
      end
  end.

(** The message for an unknown version. *)
Definition bad_version (data : bytes) : bytes :=
  str "unsupported snapshot version: " ++ display_u (default 0 (bval <$> data !! 4%nat)).

(** [load_snapshot] *)
Definition load_snapshot (file : result bytes IoError) : ST EW (result Z IoError) :=
  match file with
  | Err IoNotFound => mret (Ok 0)
  | Err e => mret (Err e)
  | Ok data =>
      if (length data <? HEADER_SIZE + CRC_SIZE)%nat then
        mret (Err (IoInvalidData (str "snapshot too short")))
      else if negb (bool_decide (take 4 data = MAGIC)) then
        mret (Err (IoInvalidData (str "invalid snapshot magic")))
      else if negb (bool_decide (data !! 4%nat = Some VERSION)) then
        mret (Err (IoInvalidData (bad_version data)))
      else
        let payload_end := (length data - CRC_SIZE)%nat in
        match snap_read_u32_le data payload_end with
        | Err e => mret (Err e)
        | Ok (stored_crc, _) =>
            let computed_crc := crc32_hash (take payload_end data) in
            if negb (stored_crc =? computed_crc) then
              mret (Err (IoInvalidData (str "snapshot CRC mismatch")))
            else
              match snap_read_u32_le data 6 with
              | Err e => mret (Err e)
              | Ok (count, _) =>
                  n ← load_entries data payload_end (Z.to_nat count) HEADER_SIZE 0;
                  mret (Ok n)
              end
        end
  end.
End snapshot.
