(* ===== verification/SnapshotProps.v ===== *)
(** Correctness of the snapshot file: round trip, rejection of damaged files, totality. *)

From S2P Require Import Prelude RustStd Crates Domain Metrics World Engine EngineFacts EvictFacts.
From S2P Require Import StoreSpec EngineProps Dispatcher DispatcherProps Aof AofFacts.
From S2P Require Import RestoreFacts AofProps Snapshot.

(** The bytes of one dumped entry. *)
Definition snap_entry (d : Dumped) : bytes :=
  aof_key d.1.1 ++ aof_value d.1.2 ++ le_bytes 8 d.2.

Lemma dump_push_entry buf d : dump_push buf d = buf ++ snap_entry d.
Proof.
  destruct d as [[k v] ttl]. unfold dump_push, snap_entry, aof_key, aof_value. cbn [fst snd].
  by rewrite <- !app_assoc.
Qed.

Lemma dump_push_all buf es : foldl dump_push buf es = buf ++ mjoin (snap_entry <$> es).
Proof.
  revert buf; induction es as [|d es IH]; intros buf; [by rewrite app_nil_r|].
  cbn [foldl]. rewrite IH, dump_push_entry.
  change (mjoin (snap_entry <$> d :: es)) with (snap_entry d ++ mjoin (snap_entry <$> es)).
  by rewrite app_assoc.
Qed.

(** ** Reading an entry at a position *)

Lemma read_u16_at pre z rest :
  0 ≤ z < 2 ^ 16 →
  snap_read_u16_le (pre ++ le_bytes 2 z ++ rest) (length pre) = Ok (z, length pre + 2)%nat.
Proof.
  intros Hz. unfold snap_read_u16_le. rewrite !length_app, length_le_bytes.
  rewrite (proj2 (Nat.leb_le _ _)) by lia. rewrite drop_app_exact, le_take.
  by rewrite Z.mod_small.
Qed.

Lemma read_u32_at pre z rest :
  0 ≤ z < 2 ^ 32 →
  snap_read_u32_le (pre ++ le_bytes 4 z ++ rest) (length pre) = Ok (z, length pre + 4)%nat.
Proof.
  intros Hz. unfold snap_read_u32_le. rewrite !length_app, length_le_bytes.
  rewrite (proj2 (Nat.leb_le _ _)) by lia. rewrite drop_app_exact, le_take.
  by rewrite Z.mod_small.
Qed.

Lemma read_i64_at pre z rest :
  in_i64 z →
  snap_read_i64_le (pre ++ le_bytes 8 z ++ rest) (length pre) = Ok (z, length pre + 8)%nat.
Proof.
  intros Hz. unfold snap_read_i64_le. rewrite !length_app, length_le_bytes.
  rewrite (proj2 (Nat.leb_le _ _)) by lia. rewrite drop_app_exact, le_take.
  change (256 ^ Z.of_nat 8) with (2 ^ 64). by rewrite i64_mod, i64_id.
Qed.

Lemma load_fields_entry pre k v ttl rest payload_end :
  key_ok k → value_ok v → in_i64 ttl →
  (length pre + length (snap_entry (k, v, ttl)) ≤ payload_end)%nat →
  load_fields (pre ++ snap_entry (k, v, ttl) ++ rest) payload_end (length pre) =
  Some (k, v, ttl, length pre + length (snap_entry (k, v, ttl)))%nat.
Proof.
  intros [Hu Hk] Hv Ht. unfold snap_entry. cbn [fst snd].
  rewrite !length_app, length_aof_key, length_aof_value, length_le_bytes. intros Hp.
  unfold load_fields, value_ok in *. rewrite (proj2 (Nat.ltb_ge _ _)) by lia.
  unfold aof_key, aof_value, u16, u32. rewrite !(Z.mod_small (Z.of_nat _)) by lia.
  rewrite <- !app_assoc, read_u16_at by lia. rewrite Nat2Z.id, (proj2 (Nat.ltb_ge _ _)) by lia.
  (* the value, after the key *)
  set (pre1 := pre ++ le_bytes 2 (Z.of_nat (length k))).
  assert (length pre1 = length pre + 2)%nat as Hp1.
  { unfold pre1. by rewrite length_app, length_le_bytes. }
  rewrite <- Hp1, (app_assoc pre). fold pre1. rewrite drop_app_exact, take_app_exact.
  rewrite from_utf8_lossy_valid by done. rewrite (proj2 (Nat.ltb_ge _ _)) by lia.
  rewrite (app_assoc pre1). set (pre2 := pre1 ++ k).
  assert (length pre2 = length pre1 + length k)%nat as Hp2 by (unfold pre2; by rewrite length_app).
  rewrite <- Hp2, read_u32_at by lia. rewrite Nat2Z.id, (proj2 (Nat.ltb_ge _ _)) by lia.
  (* the lifetime, after the value *)
  rewrite (app_assoc pre2). set (pre3 := pre2 ++ le_bytes 4 (Z.of_nat (length v))).
  assert (length pre3 = length pre2 + 4)%nat as Hp3.
  { unfold pre3. by rewrite length_app, length_le_bytes. }
  rewrite <- Hp3, drop_app_exact, take_app_exact, (proj2 (Nat.ltb_ge _ _)) by lia.
  rewrite (app_assoc pre3). set (pre4 := pre3 ++ v).
  assert (length pre4 = length pre3 + length v)%nat as Hp4 by (unfold pre4; by rewrite length_app).
  rewrite <- Hp4, read_i64_at by done. do 2 f_equal. lia.
Qed.

Section props.
Context {M : Type} {DM : DashMap bytes ValueEntry M} {CL : Clock} {IT : Itoa} {CR : Crc32}.
Abbreviation EW := (World (DashMapEngine M)).
Implicit Types (w : EW) (k : bytes) (es : list Dumped).
Abbreviation wmap w := (emap (eng w)).
Abbreviation wnow w := (clk (tick w)).

Lemma restore_entry_eng v ttl w : eng (restore_entry v ttl w).2 = eng w.
Proof.
  unfold restore_entry, now, lift_outcome, mbind, st_bind, mret, st_ret.
  destruct (0 <? ttl); simpl; [|done]. by destruct (instant_add _ _).
Qed.

(** Loading the entries after a prefix restores them one by one. *)
Lemma load_entries_restore es pre rest payload_end n w :
  max_keys (eng w) = 0 →
  Forall (λ d, key_ok d.1.1 ∧ value_ok d.1.2 ∧ in_i64 d.2) es →
  (length pre + length (mjoin (snap_entry <$> es)) ≤ payload_end)%nat →
  load_entries (pre ++ mjoin (snap_entry <$> es) ++ rest) payload_end (length es) (length pre) n w =
  (restore_all es;; mret (n + Z.of_nat (length es))) w.
Proof.
  intros Hmk Hes. revert pre n w Hmk.
  induction Hes as [|[[k v] ttl] es (Hk & Hv & Ht) _ IH]; intros pre n w Hmk Hp.
  { cbn. by rewrite Z.add_0_r. }
  change (mjoin (snap_entry <$> (k, v, ttl) :: es))
    with (snap_entry (k, v, ttl) ++ mjoin (snap_entry <$> es)) in *.
  rewrite length_app in Hp. rewrite <- app_assoc. cbn [length load_entries restore_all].
  rewrite load_fields_entry by (done || lia).
  unfold mbind, st_bind in *. pose proof (restore_entry_eng v ttl w) as Heng.
  destruct (restore_entry v ttl w) as [[e| |] w1]; simpl in Heng; try done.
  rewrite set_unlimited by (by rewrite Heng).
  rewrite app_assoc, <- length_app, IH; [|simpl; by rewrite Heng | rewrite length_app; lia].
  destruct (restore_all es _) as [[[]| |] w2]; try done. unfold mret, st_ret. do 2 f_equal. lia.
Qed.

Definition snap_payload (timestamp : Z) es : bytes :=
  MAGIC ++ [VERSION; Byte.x00] ++ le_bytes 4 (u32 (Z.of_nat (length es))) ++
  le_bytes 8 timestamp ++ mjoin (snap_entry <$> es).

Lemma dump_snapshot_run timestamp w :
  dump_snapshot timestamp w =
  (Val (snap_payload timestamp (dumped_of w) ++
        le_bytes 4 (crc32_hash (snap_payload timestamp (dumped_of w))),
        Z.of_nat (length (dumped_of w))), bump w).
Proof.
  unfold dump_snapshot. rewrite (st_bind_val _ _ _ _ _ (dump_run w)).
  rewrite dump_push_all. reflexivity.
Qed.

Lemma snap_payload_header timestamp es :
  snap_payload timestamp es =
  (MAGIC ++ [VERSION; Byte.x00] ++ le_bytes 4 (u32 (Z.of_nat (length es))) ++ le_bytes 8 timestamp)
    ++ mjoin (snap_entry <$> es).
Proof. unfold snap_payload. by rewrite <- !app_assoc. Qed.

(** Loading what was dumped. *)
Lemma load_dump timestamp w w2 :
  max_keys (eng w2) = 0 → (∀ k, dm_get (wmap w2) k = None) → clock_ok w2 (length (dumped_of w)) →
  Forall (λ d, key_ok d.1.1 ∧ value_ok d.1.2) (dumped_of w) →
  Z.of_nat (length (dumped_of w)) < 2 ^ 32 →
  ∃ file n w1 w3, dump_snapshot timestamp w = (Val (file, n), w1) ∧
    load_snapshot (Ok file) w2 = (Val (Ok n), w3) ∧ ext w2 w3 ∧
    dump_restored w w3 (wnow w2) (wnow w3).
Proof.
  intros Hmk Hempty Hc Hok Hlen.
  destruct (restore_dump w w2 Hmk Hempty Hc) as (w3 & E & Hext & Hrec).
  do 2 eexists. exists (bump w), w3. split; [apply dump_snapshot_run|]. split; [|by split].
  set (es := dumped_of w) in *. set (p := snap_payload timestamp es).
  set (c := le_bytes 4 (crc32_hash p)).
  assert (length c = 4%nat) as Hc4 by apply length_le_bytes.
  set (hd := MAGIC ++ [VERSION; Byte.x00] ++ le_bytes 4 (u32 (Z.of_nat (length es))) ++
    le_bytes 8 timestamp).
  assert (p = hd ++ mjoin (snap_entry <$> es)) as Hp by apply snap_payload_header.
  assert (length hd = HEADER_SIZE) as Hhd by (unfold hd; by rewrite !length_app, !length_le_bytes).
  assert (length p = HEADER_SIZE + length (mjoin (snap_entry <$> es)))%nat as Hpl.
  { by rewrite Hp, length_app, Hhd. }
  cbn [load_snapshot]. unfold CRC_SIZE. rewrite length_app, Hc4.
  rewrite (proj2 (Nat.ltb_ge _ _)) by lia.
  rewrite bool_decide_eq_true_2 by done. rewrite bool_decide_eq_true_2 by done.
  cbn [negb]. replace (length p + 4 - 4)%nat with (length p) by lia.
  pose proof (read_u32_at p (crc32_hash p) [] (crc32_hash_range p)) as Hcrc.
  rewrite app_nil_r in Hcrc. fold c in Hcrc. rewrite Hcrc, take_app_exact, Z.eqb_refl. cbn [negb].
  assert (snap_read_u32_le (p ++ c) 6 = Ok (Z.of_nat (length es), 10%nat)) as Hcount.
  { pose proof (read_u32_at (MAGIC ++ [VERSION; Byte.x00]) (Z.of_nat (length es))
      (le_bytes 8 timestamp ++ mjoin (snap_entry <$> es) ++ c)) as H.
    etrans; [|apply H; lia]. unfold p, snap_payload, u32. rewrite Z.mod_small by lia.
    by rewrite <- !app_assoc. }
  rewrite Hcount, Nat2Z.id, Hp, <- app_assoc, <- Hhd.
  unfold mbind, st_bind. rewrite load_entries_restore; [| done | | rewrite length_app; lia].
  - unfold mbind, st_bind. by rewrite E.
  - apply Forall_forall. intros [[k v] ttl] Hin. rewrite Forall_forall in Hok.
    specialize (Hok _ Hin) as [? ?]. split_and!; [done..|].
    apply dumped_elem in Hin as (e & _ & _ & ->). apply dump_ttl_range.
Qed.

(** C12: a snapshot of a store, loaded into an empty store without a limit, restores every
    entry visible at the dump that had no deadline, with its value and without one, or at least a
    millisecond left, with its value and, from its load on, the same number of whole milliseconds
    left; no key appears that was not visible, and the number loaded is the number dumped.  Keys are UTF-8 of up to 65535 bytes, values
    below 4 GiB, entries fewer than 2^32 and the clock far enough from its end. *)
Theorem snapshot_roundtrip timestamp w w2 :
  max_keys (eng w2) = 0 → (∀ k, dm_get (wmap w2) k = None) → clock_ok w2 (length (dumped_of w)) →
  Forall (λ d, key_ok d.1.1 ∧ value_ok d.1.2) (dumped_of w) →
  Z.of_nat (length (dumped_of w)) < 2 ^ 32 →
  ∃ file n w1 w3, dump_snapshot timestamp w = (Val (file, n), w1) ∧
    load_snapshot (Ok file) w2 = (Val (Ok n), w3) ∧ recovered w w3 (wnow w2) (wnow w3).
Proof.
  intros Hmk Hempty Hc Hok Hlen.
  destruct (load_dump timestamp w w2) as (file & n & w1 & w3 & E1 & E2 & _ & E3); try done.
  exists file, n, w1, w3. split_and!; [done..|]. by apply dump_recovered.
Qed.

(** An entry that is still visible but has less than a millisecond left comes back without a
    deadline: the dump writes -1 for it, which a load takes for no lifetime at all. *)
Theorem snapshot_unbounds timestamp w w2 k e exp :
  max_keys (eng w2) = 0 → (∀ k, dm_get (wmap w2) k = None) → clock_ok w2 (length (dumped_of w)) →
  Forall (λ d, key_ok d.1.1 ∧ value_ok d.1.2) (dumped_of w) →
  Z.of_nat (length (dumped_of w)) < 2 ^ 32 →
  sees (wmap w) (wnow w) k = Some e → expires_at e = Some exp → exp - wnow w < from_millis 1 →
  ∃ file n w1 w3 e', dump_snapshot timestamp w = (Val (file, n), w1) ∧
    load_snapshot (Ok file) w2 = (Val (Ok n), w3) ∧ dm_get (wmap w3) k = Some e' ∧ expires_at e' = None.
Proof.
  intros Hmk Hempty Hc Hok Hlen Hs He Hx.
  destruct (load_dump timestamp w w2) as (file & n & w1 & w3 & E1 & E2 & _ & E3); try done.
  specialize (E3 k). rewrite Hs in E3. destruct E3 as (e' & He' & Hr).
  exists file, n, w1, w3, e'. split_and!; [done..|]. by eapply restored_brief.
Qed.

(** C38: a file that is too short, does not start with the magic bytes, has another version or
    a checksum that does not match its content is refused as invalid data, with the message of
    the first of these that holds, and the store is left exactly as it was. *)
Theorem load_rejects_damage data w :
  (length data < HEADER_SIZE + CRC_SIZE)%nat ∨ take 4 data ≠ MAGIC ∨
  data !! 4%nat ≠ Some VERSION ∨
  le_val (drop (length data - CRC_SIZE) data) ≠ crc32_hash (take (length data - CRC_SIZE) data) →
  load_snapshot (Ok data) w =
    (Val (Err (IoInvalidData
       (if decide (length data < HEADER_SIZE + CRC_SIZE)%nat then str "snapshot too short"
        else if decide (take 4 data ≠ MAGIC) then str "invalid snapshot magic"
        else if decide (data !! 4%nat ≠ Some VERSION) then bad_version data
        else str "snapshot CRC mismatch"))), w).
Proof.
  intros Hbad. cbn [load_snapshot].
  destruct (Nat.ltb_spec (length data) (HEADER_SIZE + CRC_SIZE)) as [|Hlen];
    [by rewrite decide_True|].
  destruct Hbad as [?|Hbad]; [lia|]. rewrite decide_False by lia.
  case_bool_decide as Hm; [|by rewrite decide_True]. destruct Hbad as [?|Hbad]; [done|].
  rewrite decide_False by auto.
  case_bool_decide as Hv; [|by rewrite decide_True]. destruct Hbad as [?|Hbad]; [done|].
  rewrite decide_False by auto. cbn [negb].
  unfold snap_read_u32_le, HEADER_SIZE, CRC_SIZE in *.
  rewrite (proj2 (Nat.leb_le _ _)) by lia.
  rewrite (take_ge (drop _ _)) by (rewrite length_drop; lia).
  by rewrite (proj2 (Z.eqb_neq _ _) Hbad).
Qed.

(** Loading any bytes at all ends normally, with a count or with an error and never with a
    panic or a hang, as long as the clock is further from its largest instant than the longest
    lifetime the file can hold. *)
Theorem load_total file w :
  (∀ i, clk i + from_millis (2 ^ 63) ≤ instant_max) →
  ∃ r w', load_snapshot file w = (Val r, w').
Proof.
  intros Hclk.
  assert (∀ data pe n pos c w, ∃ c' w', load_entries data pe n pos c w = (Val c', w')) as H.
  { intros data pe n. induction n as [|n IH]; intros pos c w'; [by eexists _, _|].
    cbn [load_entries]. destruct (load_fields data pe pos) as [[[[k v] ttl] pos']|] eqn:Ef;
      [|by eexists _, _].
    assert (in_i64 ttl) as Ht.
    { unfold load_fields, snap_read_i64_le in Ef. repeat case_match; simplify_eq. apply i64_range. }
    destruct (restore_entry_run v ttl w' Ht) as (e & w1 & E & _); [apply Hclk|].
    rewrite (st_bind_val _ _ _ _ _ E).
    destruct (set_run k e w1) as (w2 & r & E2 & _). rewrite (st_bind_val _ _ _ _ _ E2). apply IH. }
  unfold load_snapshot. destruct file as [data|e]; [|destruct e; by eexists _, _].
  repeat (case_match; [by eexists _, _|]); repeat case_match; try (by eexists _, _).
  edestruct H as (c' & w' & E). rewrite (st_bind_val _ _ _ _ _ E). by eexists _, _.
Qed.
End props.

(** * Witnesses *)

Section witnesses.
#[local] Existing Instances gmap_dashmap itoa_display crc32_sum.

Lemma snapshot_roundtrip_witness :
  let _ := ms_clock in
  ∃ file n w1 w3, dump_snapshot 1700000000000 wit_mixed = (Val (file, n), w1) ∧
    load_snapshot (Ok file) wit_empty = (Val (Ok n), w3) ∧
    recovered wit_mixed w3 (clk 5) (clk (tick w3)).
Proof.
  intros ?. apply (snapshot_roundtrip 1700000000000 wit_mixed wit_empty);
    [done | done | done | apply wit_mixed_ok | done].
Defined.

(** Half a millisecond left. *)
Definition wit_brief : World (DashMapEngine (gmap bytes ValueEntry)) :=
  mkWorld (mkEngine {[str "a" := mkValueEntry (str "1") (Some 5500000) (Some 0)]} 0) 5
    (metrics_init 0) local_default.

Lemma snapshot_unbounds_witness :
  let _ := ms_clock in
  ∃ file n w1 w3 e', dump_snapshot 1700000000000 wit_brief = (Val (file, n), w1) ∧
    load_snapshot (Ok file) wit_empty = (Val (Ok n), w3) ∧
    dm_get (emap (eng w3)) (str "a") = Some e' ∧ expires_at e' = None.
Proof.
  intros ?. apply (snapshot_unbounds 1700000000000 wit_brief wit_empty (str "a")
    (mkValueEntry (str "1") (Some 5500000) (Some 0)) 5500000); try done.
  let l := eval vm_compute in (dumped_of wit_brief) in
    assert (dumped_of wit_brief = l) as -> by (by vm_compute).
  repeat constructor.
Defined.

Lemma load_rejects_damage_witness :
  let _ := ms_clock in
  load_snapshot (Ok (str "ZDB2 is not the magic of a snapshot")) wit_empty =
    (Val (Err (IoInvalidData (str "invalid snapshot magic"))), wit_empty).
Proof.
  intros ?. by apply (load_rejects_damage (str "ZDB2 is not the magic of a snapshot"));
    right; left.
Defined.

Lemma load_total_witness :
  let _ := still_clock in
  ∃ r w', load_snapshot (Ok (str "ZDB1")) wit_empty = (Val r, w').
Proof. intros ?. by apply load_total. Defined.
End witnesses.
