(* ===== verification/Disk.v ===== *)
(** The files under the append-only file and the snapshots: [src/storage/aof.rs] and
    [src/storage/snapshot.rs] with I/O calls that can fail, write in part, or be the last thing
    the machine does.

    File names lead to inodes, and a handle stays with its inode when a rename gives the name
    to another.  Every call takes the next of a list of verdicts: it works, fails after [n] bytes, or
    the machine halts after [n] bytes.  An inode knows what [sync_all] made durable.  Files Aof
    and Snapshot have the same methods on a disk where everything works ([writer_refines]). *)

From S2P Require Import Prelude RustStd Crates Domain Metrics World Engine Aof Snapshot.

(** * The file system *)

Inductive Verdict : Type := Works | Fails (n : nat) | Halts (n : nat).

Record Inode : Type := mkInode { content : bytes; durable : bytes }.

(** The names, what they were before each change since the last time the directory was made
    durable, the inodes and the verdicts to come. *)
Record Disk : Type := mkDisk {
  names : gmap bytes nat;
  history : list (gmap bytes nat);
  inodes : list Inode;
  verdicts : list Verdict
}.

(** What a call returns: [?] passes [Failed] on. *)
Inductive io (A : Type) : Type := Done (a : A) | Failed (e : IoError) | Halted.
Arguments Done {A} a.
Arguments Failed {A} e.
Arguments Halted {A}.

Definition Io (S A : Type) : Type := S → io A * S.
#[export] Instance io_ret S : MRet (Io S) := λ A a s, (Done a, s).
#[export] Instance io_bind S : MBind (Io S) := λ A B k m s,
  match m s with
  | (Done a, s) => k a s
  | (Failed e, s) => (Failed e, s)
  | (Halted, s) => (Halted, s)
  end.

Definition modify {S} (f : S → S) : Io S () := λ s, (Done tt, f s).

(** One call: what it does when it works, and what is left when [n] bytes of it were done. *)
Definition call {A} (works : Io Disk A) (partly : nat → Disk → Disk) : Io Disk A := λ d,
  let d' := mkDisk (names d) (history d) (inodes d) (tail (verdicts d)) in
  match default Works (head (verdicts d)) with
  | Works => works d'
  | Fails n => (Failed IoOther, partly n d')
  | Halts n => (Halted, partly n d')
  end.

Definition set_names (m : gmap bytes nat) (d : Disk) : Disk :=
  mkDisk m (names d :: history d) (inodes d) (verdicts d).
Definition set_inodes (l : list Inode) (d : Disk) : Disk :=
  mkDisk (names d) (history d) l (verdicts d).
Definition alter_inode (f : Inode → Inode) (h : nat) (d : Disk) : Disk :=
  set_inodes (alter f h (inodes d)) d.

(** The inode of [path], made when the name is new. *)
Definition open_inode (path : bytes) : Io Disk nat := λ d,
  match names d !! path with
  | Some h => (Done h, d)
  | None =>
      let h := length (inodes d) in
      (Done h, set_names (<[path := h]> (names d)) (set_inodes (inodes d ++ [mkInode [] []]) d))
  end.

(** [File::create]: the file is made or truncated. *)
Definition file_create (path : bytes) : Io Disk nat :=
  call (h ← open_inode path; modify (alter_inode (λ i, mkInode [] (durable i)) h);; mret h) (λ _ d, d).

(** [OpenOptions::new().create(true).append(true).open] *)
Definition open_append (path : bytes) : Io Disk nat := call (open_inode path) (λ _ d, d).

(** [write_all]: some bytes may be written before it fails. *)
Definition put (h : nat) (buf : bytes) (d : Disk) : Disk :=
  alter_inode (λ i, mkInode (content i ++ buf) (durable i)) h d.
Definition disk_write_all (h : nat) (buf : bytes) : Io Disk () :=
  call (modify (put h buf)) (λ n, put h (take n buf)).

Definition disk_sync_all (h : nat) : Io Disk () :=
  call (modify (alter_inode (λ i, mkInode (content i) (content i)) h)) (λ _ d, d).

Definition rename (from to : bytes) : Io Disk () :=
  call (λ d, match names d !! from with
             | None => (Failed IoNotFound, d)
             | Some h => (Done tt, set_names (<[to := h]> (delete from (names d))) d)
             end) (λ _ d, d).

(** What a name leads to; [fs::read] and [fs::metadata]. *)
Definition holding (d : Disk) (path : bytes) : option Inode := h ← names d !! path; inodes d !! h.
Definition disk_read (path : bytes) : Io Disk bytes :=
  call (λ d, match holding d path with
             | None => (Failed IoNotFound, d)
             | Some i => (Done (content i), d)
             end) (λ _ d, d).

(** After a halt: the names as they are or as they were before some of the last changes, and in
    each inode what was durable, with some of what was not. *)
Definition survives (i : Inode) (c : bytes) : Prop :=
  c = durable i ∨ c `prefix_of` content i ∧ (durable i `prefix_of` content i → durable i `prefix_of` c).

Definition after_halt (d d' : Disk) : Prop :=
  (names d' = names d ∨ names d' ∈ history d) ∧
  Forall2 (λ i i', survives i (content i') ∧ durable i' = content i') (inodes d) (inodes d').

(** * Files written aside *)

(** [{path}.tmp] *)
Definition tmp_of (path : bytes) : bytes := path ++ str ".tmp".

(** The new file of [dump_snapshot] and [rewrite_aof], written and made durable. *)
Definition write_tmp (tmp_path buf : bytes) : Io Disk () :=
  h ← file_create tmp_path; disk_write_all h buf;; disk_sync_all h.

(** The end of [dump_snapshot]. *)
Definition save_snapshot (path buf : bytes) : Io Disk () :=
  write_tmp (tmp_of path) buf;; rename (tmp_of path) path.

(** * The writer of the log *)

Record DiskWriter : Type := mkDiskWriter {
  handle : nat;
  wpath : bytes;
  policy : FsyncPolicy;
  last_sync : Instant;
  batch : bytes
}.

(** The writer over the disk. *)
Abbreviation WD := (DiskWriter * Disk)%type.

Definition on_disk {A} (m : Io Disk A) : Io WD A := λ '(a, d), let '(r, d) := m d in (r, (a, d)).
Definition gets {A} (f : DiskWriter → A) : Io WD A := λ s, (Done (f s.1), s).
Definition put_batch (b : bytes) : Io WD () := λ '(a, d),
  (Done tt, (mkDiskWriter (handle a) (wpath a) (policy a) (last_sync a) b, d)).
Definition put_last (t : Instant) : Io WD () := λ '(a, d),
  (Done tt, (mkDiskWriter (handle a) (wpath a) (policy a) t (batch a), d)).
Definition put_handle (h : nat) : Io WD () := λ '(a, d),
  (Done tt, (mkDiskWriter h (wpath a) (policy a) (last_sync a) (batch a), d)).

(** [AofWriter::new] at the instant [t] *)
Definition writer_new (path : bytes) (p : FsyncPolicy) (t : Instant) : Io Disk DiskWriter :=
  h ← open_append path; mret (mkDiskWriter h path p t []).

Definition file_write_all (buf : bytes) : Io WD () := h ← gets handle; on_disk (disk_write_all h buf).
Definition file_sync_all : Io WD () := h ← gets handle; on_disk (disk_sync_all h).

(** [if !batch.is_empty() { file.write_all(&batch)?; batch.clear(); }] *)
Definition drain : Io WD () :=
  b ← gets batch;
  match b with [] => mret tt | _ => file_write_all b;; put_batch [] end.

Definition writer_flush_batch (entry : bytes) (t t' : Instant) : Io WD () :=
  drain;;
  file_write_all entry;;
  p ← gets policy;
  match p with
  | Always => file_sync_all
  | Everysec =>
      last ← gets last_sync;
      if from_secs 1 <=? instant_sub t last then file_sync_all;; put_last t' else mret tt
  | No => mret tt
  end.

Definition writer_append_raw (entry : bytes) (t t' : Instant) : Io WD () :=
  b ← gets batch;
  put_batch (b ++ entry);;
  if (length (b ++ entry) <? AOF_BATCH_SIZE)%nat then mret tt else writer_flush_batch entry t t'.

Definition writer_flush : Io WD () :=
  drain;;
  p ← gets policy;
  match p with Always => file_sync_all | _ => mret tt end.

Definition writer_flush_if_needed (t t' : Instant) : Io WD () :=
  p ← gets policy;
  match p with
  | Everysec =>
      last ← gets last_sync;
      if from_secs 1 <=? instant_sub t last then
        b ← gets batch;
        match b with [] => file_sync_all | _ => file_write_all b;; put_batch [];; file_sync_all end;;
        put_last t'
      else mret tt
  | _ => mret tt
  end.

Definition writer_file_size : Io WD Z :=
  p ← gets wpath; c ← on_disk (disk_read p); mret (Z.of_nat (length c)).

Definition writer_finalize_rewrite (tmp_path : bytes) : Io WD () :=
  drain;;
  p ← gets wpath;
  on_disk (rename tmp_path p);;
  h ← on_disk (open_append p);
  put_handle h.

(** A tick of [run_aof_rewriter] with what the dump of the store would write; errors are
    logged and the loop goes on. *)
Definition logged (m : Io WD ()) : Io WD () := λ s,
  match m s with (Failed _, s) => (Done tt, s) | r => r end.

Definition rewriter_turn (threshold : Z) (buf : bytes) : Io WD () :=
  logged (n ← writer_file_size;
          if n <? threshold then mret tt
          else p ← gets wpath; on_disk (write_tmp (tmp_of p) buf);; writer_finalize_rewrite (tmp_of p)).

(** The calls of sessions and tickers: an error is ignored or logged. *)
Inductive WriterCall : Type :=
| DoAppend (entry : bytes) (t t' : Instant)
| DoFlush
| DoTick (t t' : Instant).

Definition writer_call (c : WriterCall) : Io WD () :=
  match c with
  | DoAppend e t t' => writer_append_raw e t t'
  | DoFlush => writer_flush
  | DoTick t t' => writer_flush_if_needed t t'
  end.

Fixpoint writer_calls (cs : list WriterCall) : Io WD () :=
  match cs with [] => mret tt | c :: cs => logged (writer_call c);; writer_calls cs end.
