(* ===== verification/Boot.v ===== *)
(** [src/main.rs], start-up: the snapshot is loaded, then the whole append-only file is
    replayed over it. *)

From S2P Require Import Prelude RustStd Crates Domain Metrics World Engine EngineFacts EvictFacts.
From S2P Require Import StoreSpec EngineProps Response Dispatcher DispatcherProps Aof AofFacts.
From S2P Require Import RestoreFacts AofProps Snapshot SnapshotProps.

Section boot.
Context {M : Type} {DM : DashMap bytes ValueEntry M} {CL : Clock} {IT : Itoa} {CR : Crc32}.
Abbreviation EW := (World (DashMapEngine M)).
Implicit Types (w : EW) (k : bytes).
Abbreviation wmap w := (emap (eng w)).
Abbreviation wnow w := (clk (tick w)).

(** The restore phase of [main]: each file that is configured, as it reads; a failure is only
    logged. *)
Definition restore_at_boot (snapshot aof : option (result bytes IoError)) : ST EW () :=
  match snapshot with Some f => load_snapshot f;; mret tt | None => mret tt end;;
  match aof with Some f => replay_aof f;; mret tt | None => mret tt end.

(** A store that holds data without deadlines is dumped and loaded as that data. *)
Lemma load_dump_holds timestamp w w2 a :
  holds w a → max_keys (eng w2) = 0 → (∀ k, dm_get (wmap w2) k = None) →
  clock_ok w2 (length (dumped_of w)) →
  Forall (λ d, key_ok d.1.1 ∧ value_ok d.1.2) (dumped_of w) →
  Z.of_nat (length (dumped_of w)) < 2 ^ 32 →
  ∃ file n w1 w3, dump_snapshot timestamp w = (Val (file, n), w1) ∧
    load_snapshot (Ok file) w2 = (Val (Ok n), w3) ∧ holds w3 a.
Proof.
  intros Hh Hmk He Hc Hok Hl.
  destruct (load_dump timestamp w w2) as (file & n & w1 & w3 & E1 & E2 & Hext & Hrec); try done.
  apply dump_recovered in Hrec. exists file, n, w1, w3. split_and!; [done..|].
  assert (∀ k, match dm_get (wmap w) k with
               | None => dm_get (wmap w3) k = None
               | Some e => ∃ e', dm_get (wmap w3) k = Some e' ∧ data e' = data e ∧ expires_at e' = None
               end) as H3.
  { intros k. specialize (Hrec k). rewrite (holds_sees w a) in Hrec by done.
    destruct (dm_get (wmap w) k) as [e|] eqn:Hk; [|done].
    unfold lasting, same_life in Hrec. rewrite (proj1 (proj2 Hh) k e Hk) in Hrec. by apply Hrec. }
  split_and!; [by rewrite (proj1 Hext) | |].
  - intros k e Hk. specialize (H3 k). destruct (dm_get (wmap w) k); [|congruence].
    destruct H3 as (e' & ? & _ & ?). congruence.
  - intros k. rewrite <- (proj2 (proj2 Hh) k). specialize (H3 k).
    destruct (dm_get (wmap w) k); [|by rewrite H3]. destruct H3 as (e' & -> & Hd & _). simpl. by rewrite Hd.
Qed.


(** Booting from the snapshot of a state and a log replays the log over that state. *)
Lemma boot_run timestamp cs w1 w2 a1 :
  holds w1 a1 → holds w2 ∅ → clock_ok w2 (length (dumped_of w1)) →
  Forall (λ d, key_ok d.1.1 ∧ value_ok d.1.2) (dumped_of w1) →
  Z.of_nat (length (dumped_of w1)) < 2 ^ 32 →
  Forall (λ c, timeless c ∧ aof_encodable c ∧ is_write c = true) cs →
  ∃ file n w1' w4, dump_snapshot timestamp w1 = (Val (file, n), w1') ∧
    restore_at_boot (Some (Ok file)) (Some (Ok (log_of cs))) w2 = (Val tt, w4) ∧
    holds w4 (foldl (λ a c, effect c a) a1 cs).
Proof.
  intros Hh1 Hh2 Hc Hok Hl Hcs.
  destruct (load_dump_holds timestamp w1 w2 a1) as (file & n & w1' & w3 & E1 & E2 & Hh3);
    [done | apply Hh2 | | done..|].
  { intros k. pose proof (proj2 (proj2 Hh2) k) as Hk. rewrite lookup_empty in Hk.
    by destruct (dm_get (wmap w2) k). }
  destruct (apply_all_effects cs w3 a1 Hcs Hh3) as (w4 & E4 & Hh4).
  exists file, n, w1', w4. split_and!; [done | | done].
  unfold restore_at_boot.
  rewrite (st_bind_val _ _ w2 tt w3) by (by rewrite (st_bind_val _ _ _ _ _ E2)).
  by rewrite (st_bind_val _ _ _ _ _ (replay_writes cs w3 w4 Hcs E4)).
Qed.

(** ** Logs without counters *)

(** Per key, a command without counters either fixes the value or keeps it. *)
Lemma effect_fixes_or_keeps c k :
  incr_free c → (∃ x, ∀ a, effect c a !! k = x) ∨ (∀ a, effect c a !! k = a !! k).
Proof.
  intros Hc. destruct c; try done; cbn [effect]; try (by right).
  - destruct (decide (key = k)) as [-> |Hne]; [left; exists (Some value)|right]; intros a;
      rewrite lookup_insert; by case_decide.
  - destruct (decide (key = k)) as [-> |Hne]; [left; exists None|right]; intros a;
      rewrite lookup_delete; by case_decide.
  - left. exists None. intros a. apply lookup_empty.
  - clear Hc. induction pairs as [|[k' v] pairs IH] using rev_ind; [by right|].
    setoid_rewrite foldl_app. cbn [foldl]. destruct (decide (k' = k)) as [-> |Hne].
    + left. exists (Some v). intros a. apply lookup_insert_eq.
    + destruct IH as [[x Hx]|Hx]; [left; exists x|right]; intros a; by rewrite lookup_insert_ne.
Qed.

Lemma effects_idempotent cs a :
  Forall incr_free cs →
  foldl (λ a c, effect c a) (foldl (λ a c, effect c a) a cs) cs = foldl (λ a c, effect c a) a cs.
Proof.
  intros Hcs. apply map_eq. intros k.
  assert ((∃ x, ∀ a, foldl (λ a c, effect c a) a cs !! k = x) ∨
          (∀ a, foldl (λ a c, effect c a) a cs !! k = a !! k)) as [[x Hx]|Hx].
  { clear a. induction cs as [|c cs IH] using rev_ind; [by right|].
    apply Forall_app in Hcs as [Hcs [Hc _]%Forall_cons].
    setoid_rewrite foldl_app. cbn [foldl].
    destruct (effect_fixes_or_keeps c k Hc) as [[x Hx]|Hx].
    - left. exists x. intros a. apply Hx.
    - destruct (IH Hcs) as [[x Hx']|Hx']; [left; exists x|right]; intros a; by rewrite Hx, Hx'. }
  - by rewrite !Hx.
  - by rewrite Hx.
Qed.

(** Start-up from a snapshot and the whole log recovers the data, for every log of
    commands without lifetimes and without [INCR]: replaying the log over a state that already
    contains its effects changes nothing. *)
Theorem boot_recovers timestamp ws w1 w2 :
  Forall (λ c, timeless c ∧ aof_encodable c ∧ is_write c = true ∧ incr_free c) ws →
  holds w1 (foldl (λ a c, effect c a) ∅ ws) → holds w2 ∅ →
  clock_ok w2 (length (dumped_of w1)) →
  Forall (λ d, key_ok d.1.1 ∧ value_ok d.1.2) (dumped_of w1) →
  Z.of_nat (length (dumped_of w1)) < 2 ^ 32 →
  ∃ file n w1' w4, dump_snapshot timestamp w1 = (Val (file, n), w1') ∧
    restore_at_boot (Some (Ok file)) (Some (Ok (log_of ws))) w2 = (Val tt, w4) ∧
    ∀ t k, data <$> sees (wmap w4) t k = data <$> sees (wmap w1) t k.
Proof.
  intros Hws Hh1 Hh2 Hc Hok Hl.
  destruct (boot_run timestamp ws w1 w2 _ Hh1 Hh2 Hc Hok Hl) as (file & n & w1' & w4 & E1 & E2 & Hh4).
  { eapply Forall_impl; [done|]. naive_solver. }
  exists file, n, w1', w4. split_and!; [done..|]. intros t k.
  rewrite effects_idempotent in Hh4 by (eapply Forall_impl; [done|]; naive_solver).
  rewrite !(holds_sees _ _ t k) by done. by rewrite (proj2 (proj2 Hh4) k), (proj2 (proj2 Hh1) k).
Qed.

(** A store whose only data is [k] has at most that to dump. *)
Lemma dumped_single w k v :
  holds w {[k := v]} →
  (length (dumped_of w) ≤ 1)%nat ∧ Forall (λ d, d.1.1 = k ∧ d.1.2 = v) (dumped_of w).
Proof.
  intros Hh. assert (Forall (λ d, d.1.1 = k ∧ d.1.2 = v) (dumped_of w)) as Hd.
  { apply Forall_forall. intros [[k' v'] ttl] (e & He & -> & _)%dumped_elem.
    rewrite (holds_sees w _ _ k' Hh) in He. pose proof (proj2 (proj2 Hh) k') as Hx.
    rewrite He in Hx. symmetry in Hx. by apply lookup_singleton_Some in Hx as [-> ?]. }
  split; [|done]. pose proof (dumped_nodup w) as Hnd.
  destruct (dumped_of w) as [|[[k1 v1] t1] [|[[k2 v2] t2] l]]; simpl; [lia | lia |]. exfalso.
  rewrite !Forall_cons in Hd. destruct Hd as ([H1 _] & [H2 _] & _). simpl in *. subst.
  apply NoDup_cons in Hnd as [Hn _]. apply Hn. left.
Qed.

(** With both persistence files on, one [INCR] before a snapshot is counted twice after a
    restart: the snapshot holds 1, and the log, which a snapshot does not shorten, adds one
    more. *)
Theorem boot_counts_twice timestamp k w w2 :
  key_ok k → holds w ∅ → holds w2 ∅ → clock_ok w2 1 →
  ∃ r w1 file n w1' w4, dispatch (CIncr k) w = (Val r, w1) ∧ is_success r = true ∧
    data <$> dm_get (wmap w1) k = Some (str "1") ∧
    dump_snapshot timestamp w1 = (Val (file, n), w1') ∧
    restore_at_boot (Some (Ok file)) (Some (Ok (log_of [CIncr k]))) w2 = (Val tt, w4) ∧
    data <$> dm_get (wmap w4) k = Some (str "2").
Proof.
  intros Hk Hh Hh2 Hc. destruct (dispatch_effect (CIncr k) w ∅ I Hh) as (r & w1 & E & Hh1 & Herr & _).
  cbn [effect] in Hh1, Herr. rewrite lookup_empty, insert_empty in Hh1, Herr.
  destruct (dumped_single w1 k _ Hh1) as [Hlen Hd].
  destruct (boot_run timestamp [CIncr k] w1 w2 _ Hh1 Hh2) as (file & n & w1' & w4 & E1 & E2 & Hh4).
  { unfold clock_ok in *. pose proof (clk_mono (tick w2 + 2 * length (dumped_of w1)) (tick w2 + 2 * 1)). lia. }
  { eapply Forall_impl; [exact Hd|]. by intros d [-> ->]. }
  { lia. }
  { by repeat constructor; destruct Hk. }
  exists r, w1, file, n, w1', w4. split_and!; try done.
  - destruct (is_success r); [done|]. specialize (Herr eq_refl).
    apply (f_equal (λ a, a !! k)) in Herr. by rewrite lookup_singleton_eq, lookup_empty in Herr.
  - rewrite (proj2 (proj2 Hh1) k). apply lookup_singleton_eq.
  - rewrite (proj2 (proj2 Hh4) k). cbn [foldl effect]. rewrite lookup_singleton_eq.
    change (parse_i64 (from_utf8_lossy (str "1"))) with (Some 1). apply lookup_insert_eq.
Qed.
End boot.

Section witnesses.
#[local] Existing Instances gmap_dashmap ms_clock itoa_display crc32_sum.

Lemma boot_counts_twice_witness :
  ∃ r w1 file n w1' w4, dispatch (CIncr (str "n")) wit_empty = (Val r, w1) ∧ is_success r = true ∧
    data <$> dm_get (emap (eng w1)) (str "n") = Some (str "1") ∧
    dump_snapshot 0 w1 = (Val (file, n), w1') ∧
    restore_at_boot (Some (Ok file)) (Some (Ok (log_of [CIncr (str "n")]))) wit_empty = (Val tt, w4) ∧
    data <$> dm_get (emap (eng w4)) (str "n") = Some (str "2").
Proof. by apply (boot_counts_twice 0 (str "n") wit_empty wit_empty). Defined.

(** The store after [SET a 1]. *)
Definition wit_one : World (DashMapEngine (gmap bytes ValueEntry)) :=
  (dispatch (CSet (str "a") (str "1") None) wit_empty).2.

Lemma wit_one_holds : holds wit_one {[str "a" := str "1"]}.
Proof.
  destruct (dispatch_effect (CSet (str "a") (str "1") None) wit_empty ∅ I) as (r & w1 & E & Hh & _); [done|].
  unfold wit_one. by rewrite E.
Qed.

Lemma boot_recovers_witness :
  ∃ file n w1' w4, dump_snapshot 0 wit_one = (Val (file, n), w1') ∧
    restore_at_boot (Some (Ok file)) (Some (Ok (log_of [CSet (str "a") (str "1") None]))) wit_empty
      = (Val tt, w4) ∧
    ∀ t k, data <$> sees (emap (eng w4)) t k = data <$> sees (emap (eng wit_one)) t k.
Proof.
  apply (boot_recovers 0 [CSet (str "a") (str "1") None] wit_one wit_empty);
    [by repeat constructor | apply wit_one_holds | done | done | by repeat constructor | done].
Defined.
End witnesses.
