(* ===== verification/Session.v ===== *)
(** [src/server/session.rs]: what a connection does with the bytes it receives.

    The network is a list of events, one per turn of the read loop; what is sent is returned
    in order.  The state is the shared world and the shared append-only file. *)

From S2P Require Import Prelude RustStd Crates Domain Parser ParserBorrowed Metrics World Engine.
From S2P Require Import Response Dispatcher Aof.

Definition MAX_READ_BUF : Z := 1024 * 1024.
Definition MAX_WRITE_BUF : Z := 1024 * 1024.

(** [Buf::advance] panics past the end. *)
Definition advance (n : nat) (buf : bytes) : outcome bytes :=
  if (n <=? length buf)%nat then Val (drop n buf) else Panic.

(** [skip_to_newline] *)
Definition skip_to_newline {MC : Memchr} (buf : bytes) : bytes :=
  match memchr LF buf with
  | Some pos => drop (pos + 1) buf
  | None => []
  end.

(** One turn of the read loop: the outcome of the read ([Ok(n)] with its [n] bytes, none at
    the end of the stream), and whether the flush that may follow succeeds in time. *)
Inductive NetRead : Type :=
| ReadData (data : bytes)
| ReadFailed
| ReadTimedOut.
Record NetEvent : Type := mkEvent { net_read : NetRead; write_ok : bool }.

Section session.
Context {M : Type} {DM : DashMap bytes ValueEntry M} {CL : Clock} {IT : Itoa} {MC : Memchr}.
Abbreviation EW := (World (DashMapEngine M)).

(** The world and the append-only file. *)
Record SWorld : Type := mkSWorld { sw : EW; aof : option AofWriter }.

Definition lift_w {A} (c : ST EW A) : ST SWorld A :=
  λ s, let '(o, w) := c (sw s) in (o, mkSWorld w (aof s)).
Definition lift_o {A} (o : outcome A) : ST SWorld A := λ s, (o, s).

(** [write_response] *)
Definition write_response (response : Response) (buf : bytes) (is_resp : bool) : bytes :=
  if is_resp then write_to_resp response buf else write_to response buf.

(** [aof_writer.append_raw(&entry)], its error ignored; two readings of the clock are set
    aside for it. *)
Definition append_entry (entry : bytes) : ST SWorld () :=
  λ s, match aof s with
       | None => (Val tt, s)
       | Some a =>
           let w := sw s in
           (Val tt, mkSWorld (mkWorld (eng w) (2 + tick w) (met w) (loc w))
                      (Some (append_raw entry (clk (tick w)) (clk (1 + tick w)) a)))
       end.

Definition aof_open : ST SWorld bool := λ s, (Val (bool_decide (is_Some (aof s))), s).

(** The entry to log for a command, if the file is open and the command writes. *)
Definition aof_entry_for (writes : bool) (entry : option bytes) : ST SWorld (option bytes) :=
  b ← aof_open; mret (if b && writes then entry else None).

Definition append_opt (entry : option bytes) : ST SWorld () :=
  match entry with Some e => append_entry e | None => mret tt end.

(** The metrics of a RESP command and of an inline one. *)
Definition record_resp (ct : CommandType) (response : Response) : ST SWorld () :=
  lift_w (
    ml ← get_metrics;
    let ml := record_command ct ml.1 ml.2 in
    let ml := match ct, response with
              | TGet, RValue (Some _) => record_hit ml.1 ml.2
              | TGet, RValue None => record_miss ml.1 ml.2
              | _, _ => ml
              end in
    let ml := if is_success response then ml else record_error ml.1 ml.2 in
    put_metrics ml).

Definition record_inline (ct : CommandType) : ST SWorld () :=
  lift_w (ml ← get_metrics; put_metrics (record_command ct ml.1 ml.2)).

(** ** The full path *)

(** A complete RESP command: log entry, dispatch, metrics, append, response. *)
Definition exec_resp (metrics_enabled : bool) (cmd : Command) (write_buf : bytes) :
    ST SWorld bytes :=
  entry ← aof_entry_for (is_write cmd) (to_aof_entry cmd);
  response ← lift_w (dispatch cmd);
  (if metrics_enabled then record_resp (command_type cmd) response else mret tt);;
  (if is_success response then append_opt entry else mret tt);;
  mret (write_response response write_buf true).

(** A complete inline command. *)
Definition exec_inline (metrics_enabled : bool) (cmd : ParsedCommand) (write_buf : bytes) :
    ST SWorld bytes :=
  entry ← aof_entry_for (parsed_is_write cmd) (parsed_to_aof_entry cmd);
  write_buf ← lift_w (dispatch_to_buffer (to_owned cmd) write_buf false);
  (if metrics_enabled then record_inline (parsed_command_type cmd) else mret tt);;
  append_opt entry;;
  mret write_buf.

(** The replies to a line that does not parse. *)
Definition syntax_reply : Response := RError (Response.SyntaxError (str "syntax error")).
Definition unknown_reply : Response := RError (Response.UnknownCommand (str "unknown command")).

(** The inner loop over the frames of a RESP buffer.  A loop that is not over after its last turn is
    [Stuck]; every turn but the last drops a byte of the buffer, and [batch_loops_terminate] in file
    BatchEnds shows that the turns it is given are enough. *)
Fixpoint resp_loop (exec : Command → bytes → ST SWorld bytes) (fuel : nat)
    (read_buf write_buf : bytes) : ST SWorld (bytes * bytes) :=
  match fuel with
  | O => lift_o Stuck
  | S fuel =>
      frame ← lift_o (try_parse_frame read_buf);
      match frame with
      | Ok (Complete consumed command) =>
          read_buf ← lift_o (advance consumed read_buf);
          write_buf ← exec command write_buf;
          resp_loop exec fuel read_buf write_buf
      | Ok (Skip consumed) =>
          read_buf ← lift_o (advance consumed read_buf);
          resp_loop exec fuel read_buf write_buf
      | Ok Incomplete => mret (read_buf, write_buf)
      | Err (Parser.SyntaxError _) =>
          resp_loop exec fuel (skip_to_newline read_buf) (write_to_resp syntax_reply write_buf)
      | Err (Parser.UnknownCommand _) =>
          resp_loop exec fuel (skip_to_newline read_buf) (write_to_resp unknown_reply write_buf)
      | Err EmptyCommand => mret (read_buf, write_buf)
      end
  end.

(** The inner loop over the lines of an inline buffer, full path. *)
Fixpoint inline_loop (metrics_enabled : bool) (fuel : nat) (read_buf write_buf : bytes) :
    ST SWorld (bytes * bytes) :=
  match fuel with
  | O => lift_o Stuck
  | S fuel =>
      match parse_inline_borrowed read_buf with
      | Ok (BComplete consumed command) =>
          rest ← lift_o (advance consumed read_buf);
          write_buf ← exec_inline metrics_enabled command write_buf;
          inline_loop metrics_enabled fuel rest write_buf
      | Ok (BSkip consumed) =>
          rest ← lift_o (advance consumed read_buf);
          inline_loop metrics_enabled fuel rest write_buf
      | Ok BIncomplete => mret (read_buf, write_buf)
      | Err (Parser.SyntaxError _) =>
          inline_loop metrics_enabled fuel (skip_to_newline read_buf)
            (write_to syntax_reply write_buf)
      | Err (Parser.UnknownCommand _) =>
          inline_loop metrics_enabled fuel (skip_to_newline read_buf)
            (write_to unknown_reply write_buf)
      | Err EmptyCommand => mret (read_buf, write_buf)
      end
  end.

(** ** The fast path *)

Definition exec_fast (cmd : Command) (write_buf : bytes) : ST SWorld bytes :=
  response ← lift_w (dispatch cmd); mret (write_response response write_buf true).

(** The inline loop of the fast path: an offset into the buffer, which an error shifts from
    its start. *)
Fixpoint fast_inline_loop (fuel : nat) (read_buf : bytes) (offset : nat) (write_buf : bytes) :
    ST SWorld (bytes * nat * bytes) :=
  match fuel with
  | O => lift_o Stuck
  | S fuel =>
      rest ← lift_o (slice_from read_buf offset);
      match parse_inline_borrowed rest with
      | Ok (BComplete consumed command) =>
          write_buf ← lift_w (dispatch_fast command write_buf);
          fast_inline_loop fuel read_buf (offset + consumed) write_buf
      | Ok (BSkip consumed) => fast_inline_loop fuel read_buf (offset + consumed) write_buf
      | Ok BIncomplete => mret (read_buf, offset, write_buf)
      | Err (Parser.SyntaxError _) =>
          fast_inline_loop fuel (skip_to_newline read_buf) offset (write_to syntax_reply write_buf)
      | Err (Parser.UnknownCommand _) =>
          fast_inline_loop fuel (skip_to_newline read_buf) offset
            (write_to unknown_reply write_buf)
      | Err EmptyCommand => mret (read_buf, offset, write_buf)
      end
  end.

(** ** The connection *)

(** One batch: every complete frame of the buffer, in the protocol of its first byte. *)
Definition full_batch (metrics_enabled : bool) (read_buf write_buf : bytes) :
    ST SWorld (bytes * bytes) :=
  let fuel := S (length read_buf) in
  if bool_decide (head read_buf = Some Byte.x2a)
  then resp_loop (exec_resp metrics_enabled) fuel read_buf write_buf
  else inline_loop metrics_enabled fuel read_buf write_buf.

Definition fast_batch (read_buf write_buf : bytes) : ST SWorld (bytes * bytes) :=
  let fuel := S (length read_buf) in
  if bool_decide (head read_buf = Some Byte.x2a)
  then resp_loop exec_fast fuel read_buf write_buf
  else
    r ← fast_inline_loop fuel read_buf 0 write_buf;
    let '(read_buf, offset, write_buf) := r in
    read_buf ← lift_o (advance offset read_buf);
    mret (read_buf, write_buf).

(** The read loop: read, process a batch, flush; the bytes sent so far are in [sent].  Only
    the full path is [timed]: the fast one has no read timeout and keeps waiting. *)
Fixpoint session_loop (timed : bool) (batch : bytes → bytes → ST SWorld (bytes * bytes))
    (events : list NetEvent) (read_buf write_buf sent : bytes) : ST SWorld bytes :=
  match events with
  | [] => mret sent
  | ev :: events =>
      match net_read ev with
      | ReadFailed | ReadData [] => mret sent
      | ReadTimedOut =>
          if timed then mret sent else session_loop timed batch events read_buf write_buf sent
      | ReadData data =>
          let read_buf := read_buf ++ data in
          if MAX_READ_BUF <? Z.of_nat (length read_buf) then mret sent
          else
            r ← batch read_buf write_buf;
            let '(read_buf, write_buf) := r in
            if MAX_WRITE_BUF <? Z.of_nat (length write_buf) then mret sent
            else if is_empty write_buf then session_loop timed batch events read_buf write_buf sent
            else if negb (write_ok ev) then mret sent
            else session_loop timed batch events read_buf [] (sent ++ write_buf)
      end
  end.

(** [handle_session]: the fast path serves a connection without append-only file, metrics and
    write timeout. *)
Definition handle_session (write_timeout : Duration) (metrics_enabled : bool)
    (events : list NetEvent) : ST SWorld bytes :=
  (if metrics_enabled then
     lift_w (ml ← get_metrics; put_metrics (connection_opened ml.1, ml.2)) else mret tt);;
  has_aof ← aof_open;
  let use_write_timeout := 0 <? as_secs write_timeout in
  sent ← (if negb has_aof && negb metrics_enabled && negb use_write_timeout
          then session_loop false fast_batch events [] [] []
          else session_loop true (full_batch metrics_enabled) events [] [] []);
  (if metrics_enabled then
     lift_w (ml ← get_metrics; put_metrics (connection_closed ml.1, ml.2)) else mret tt);;
  mret sent.
End session.
