(* ===== verification/SessionProps.v ===== *)
(** Correctness of a connection: pipelining, independence from how the network cuts the
    stream, agreement of the two paths, what a turn takes off a buffer, and the inputs that defeat it. *)

From S2P Require Import Prelude RustStd Crates Domain Parser InlineFacts RespFacts ParserProps.
From S2P Require Import ParserBorrowed Metrics World Engine Response Dispatcher Aof Session.

Section props.
Context {M : Type} {DM : DashMap bytes ValueEntry M} {CL : Clock} {IT : Itoa} {MC : Memchr}.
Abbreviation SW := (SWorld (M := M)).
Implicit Types (s : SW) (cs : list Command) (rb wb : bytes).

(** * Commands in sequence *)

(** Commands (or lines) one after the other, and the bytes a client sends for commands. *)
Fixpoint run_cmds {U} (exec : U → bytes → ST SW bytes) (cs : list U) wb : ST SW bytes :=
  match cs with
  | [] => mret wb
  | c :: cs => wb ← exec c wb; run_cmds exec cs wb
  end.

Abbreviation frame c := (resp_frame (command_args c)).
Definition stream cs : bytes := mjoin ((λ c, frame c) <$> cs).

Lemma stream_cons c cs : stream (c :: cs) = frame c ++ stream cs.
Proof. done. Qed.

Lemma frame_nonempty c : ∃ l, frame c = Byte.x2a :: l.
Proof. by eexists. Qed.

(** A proper prefix of a frame is incomplete. *)
Lemma frame_prefix_incomplete c p q :
  resp_encodable c → in_memory (p ++ q) → p ++ q = frame c → q ≠ [] →
  try_parse_frame p = Val (Ok Incomplete).
Proof.
  intros Hc Hmem E Hq. destruct (try_parse_frame_sim p q Hmem) as [Hok [?|Heq]]; [done|].
  assert (try_parse_frame (p ++ q) = Val (Ok (Complete (length (p ++ q)) c))) as Hp.
  { rewrite E. pose proof (resp_frame_parse c [] Hc) as H. rewrite app_nil_r in H.
    apply H. by rewrite <- E. }
  rewrite Heq, Hp in Hok. simpl in Hok. rewrite length_app in Hok.
  destruct q; [done|]. simpl in Hok. lia.
Qed.

(** Either a whole frame has arrived or only a proper prefix of it. *)
Lemma arrived rb future c rest :
  rb ++ future = frame c ++ rest →
  (∃ rb1, rb = frame c ++ rb1 ∧ rb1 ++ future = rest) ∨
  (∃ q, q ≠ [] ∧ rb ++ q = frame c ∧ (length rb < length (frame c))%nat).
Proof.
  intros E. destruct (decide (length (frame c) ≤ length rb)%nat) as [Hle|Hlt].
  - left. exists (drop (length (frame c)) rb).
    assert (frame c = take (length (frame c)) rb) as Ht.
    { rewrite <- (take_app_exact (frame c) rest) at 1. rewrite <- E. by rewrite take_app_le. }
    split; [by rewrite Ht at 1; rewrite take_drop|].
    rewrite <- drop_app_le by lia. by rewrite E, drop_app_exact.
  - right. exists (drop (length rb) (frame c)).
    assert (rb = take (length rb) (frame c)) as Ht.
    { rewrite <- (take_app_exact rb future) at 1. rewrite E. by rewrite take_app_le by lia. }
    split_and!; [| by rewrite Ht at 1; rewrite take_drop | lia].
    intros Hnil. apply (f_equal length) in Hnil. rewrite length_drop in Hnil. change (length (@nil byte)) with 0%nat in Hnil. lia.
Qed.

(** Bytes that are not yet a whole frame of what is to come. *)
Definition pending rb cs : Prop :=
  match cs with [] => rb = [] | c :: _ => (length rb < length (frame c))%nat end.

(** One batch runs the commands whose frames have arrived and keeps the rest. *)
Lemma resp_loop_run exec cs rb future fuel :
  Forall resp_encodable cs → in_memory (stream cs) → rb ++ future = stream cs →
  (length rb < fuel)%nat →
  ∃ cs1 cs2 rb', cs = cs1 ++ cs2 ∧ rb' ++ future = stream cs2 ∧ pending rb' cs2 ∧
    ∀ wb s, resp_loop exec fuel rb wb s = (wb' ← run_cmds exec cs1 wb; mret (rb', wb')) s.
Proof.
  intros Hcs. revert rb fuel. induction Hcs as [|c cs Hc Hcs IH]; intros rb fuel Hmem E Hf.
  - apply app_eq_nil in E as [-> ->]. exists [], [], []. destruct fuel; [lia|].
    split_and!; try done.
  - rewrite stream_cons in E, Hmem. destruct fuel as [|fuel]; [lia|].
    destruct (arrived rb future c (stream cs) E) as [(rb1 & -> & E1)|(q & Hq & Eq & Hlt)].
    + assert (in_memory (stream cs)) by (unfold in_memory in *; rewrite length_app in Hmem; lia).
      assert (0 < length (frame c))%nat by (destruct (frame_nonempty c) as [l ->]; simpl; lia).
      rewrite length_app in Hf.
      assert (in_memory (frame c ++ rb1)) as Hmem1.
      { unfold in_memory in *. rewrite <- E1 in Hmem. rewrite !length_app in *. lia. }
      destruct (IH rb1 fuel) as (cs1 & cs2 & rb' & -> & E2 & Hp & Hrun); [done..|lia|].
      exists (c :: cs1), cs2, rb'. split_and!; [done..|]. intros wb s.
      cbn [resp_loop run_cmds]. unfold lift_o, mbind, st_bind in *.
      rewrite resp_frame_parse by done. unfold advance. rewrite length_app.
      rewrite (proj2 (Nat.leb_le _ _)) by lia. rewrite drop_app_exact.
      destruct (exec c wb s) as [[wb1| |] s1]; [apply Hrun | done..].
    + exists [], (c :: cs), rb. split_and!; [done | done | done |]. intros wb s.
      cbn [resp_loop run_cmds]. unfold lift_o, mbind, st_bind.
      rewrite (frame_prefix_incomplete c rb q); try done.
      unfold in_memory in *. rewrite Eq. rewrite length_app in Hmem. lia.
Qed.

(** * A connection on a RESP stream *)

(** Handlers that add to the buffer what they would write to an empty one. *)
Definition appends {U} (exec : U → bytes → ST SW bytes) : Prop :=
  ∀ c wb s, exec c wb s = (r ← exec c []; mret (wb ++ r)) s.

Lemma run_cmds_appends {U} (exec : U → bytes → ST SW bytes) (cs : list U) wb s :
  appends exec → run_cmds exec cs wb s = (r ← run_cmds exec cs []; mret (wb ++ r)) s.
Proof.
  intros Ha. revert wb s. induction cs as [|c cs IH]; intros wb s.
  { cbn [run_cmds]. unfold mbind, st_bind, mret, st_ret. by rewrite app_nil_r. }
  cbn [run_cmds]. unfold mbind, st_bind in *. rewrite (Ha c wb). unfold mbind, st_bind.
  destruct (exec c [] s) as [[r| |] s1]; try done. unfold mret, st_ret at 1.
  rewrite IH, (IH r). unfold mret, st_ret. destruct (run_cmds exec cs [] s1) as [[r'| |] s2]; try done.
  by rewrite app_assoc.
Qed.

Lemma run_cmds_app {U} (exec : U → bytes → ST SW bytes) (cs1 cs2 : list U) wb s :
  run_cmds exec (cs1 ++ cs2) wb s = (wb' ← run_cmds exec cs1 wb; run_cmds exec cs2 wb') s.
Proof.
  revert wb s. induction cs1 as [|c cs1 IH]; intros wb s; [done|].
  cbn [run_cmds app]. unfold mbind, st_bind in *.
  destruct (exec c wb s) as [[wb'| |] s1]; [apply IH | done..].
Qed.

(** Data arriving in chunks, every flush succeeding. *)
Definition arriving (chunks : list bytes) : list NetEvent :=
  (λ d, mkEvent (ReadData d) true) <$> chunks.

(** A batch function that serves RESP buffers with [exec]. *)
Definition serves (batch : bytes → bytes → ST SW (bytes * bytes)) exec : Prop :=
  ∀ rb wb s, rb = [] ∨ head rb = Some Byte.x2a →
    batch rb wb s = resp_loop exec (S (length rb)) rb wb s.

Lemma stream_head rb future cs :
  rb ++ future = stream cs → rb = [] ∨ head rb = Some Byte.x2a.
Proof.
  destruct rb as [|b rb]; [by left|]. intros E. right.
  destruct cs as [|c cs]; [done|]. rewrite stream_cons in E.
  destruct (frame_nonempty c) as [l Hl]. rewrite Hl in E. by simplify_eq/=.
Qed.

(** A turn of the read loop that receives something. *)
Lemma read_step timed batch d chunks rb wb sent s :
  d ≠ [] →
  session_loop timed batch (arriving (d :: chunks)) rb wb sent s =
  (if MAX_READ_BUF <? Z.of_nat (length (rb ++ d)) then mret sent
   else
     r ← batch (rb ++ d) wb;
     if MAX_WRITE_BUF <? Z.of_nat (length r.2) then mret sent
     else if is_empty r.2 then session_loop timed batch (arriving chunks) r.1 r.2 sent
     else session_loop timed batch (arriving chunks) r.1 [] (sent ++ r.2)) s.
Proof.
  intros Hd. destruct d as [|b d]; [done|]. cbn [arriving fmap list_fmap session_loop net_read write_ok].
  case_match; [done|]. unfold mbind, st_bind. by destruct (batch _ _ s) as [[[]| |] ?].
Qed.

(** A client that sends units (commands, lines) encoded by [enc], to a batch function that runs
    those that have arrived and keeps the rest: however the units are cut, the answers are
    those of running them one by one. *)
Section units.
Context {U : Type} (enc : U → bytes) (exec : U → bytes → ST SW bytes) (ok : U → Prop).
Variables (timed : bool) (batch : bytes → bytes → ST SW (bytes * bytes)).
Abbreviation sent_for us := (mjoin (enc <$> us)).

Definition partial rb (us : list U) : Prop :=
  match us with [] => rb = [] | u :: _ => (length rb < length (enc u))%nat end.

Hypothesis exec_appends : appends exec.
Hypothesis batch_run : ∀ us rb future,
  Forall ok us → Z.of_nat (length (sent_for us)) ≤ MAX_READ_BUF → rb ++ future = sent_for us →
  ∃ us1 us2 rb', us = us1 ++ us2 ∧ rb' ++ future = sent_for us2 ∧ partial rb' us2 ∧
    ∀ wb s, batch rb wb s = (wb' ← run_cmds exec us1 wb; mret (rb', wb')) s.

Lemma session_units chunks us rb sent s out s' :
  Forall ok us → rb ++ mjoin chunks = sent_for us → partial rb us →
  Z.of_nat (length (sent_for us)) ≤ MAX_READ_BUF →
  run_cmds exec us [] s = (Val out, s') → Z.of_nat (length out) ≤ MAX_WRITE_BUF → [] ∉ chunks →
  session_loop timed batch (arriving chunks) rb [] sent s = (Val (sent ++ out), s').
Proof.
  revert us rb sent s out. induction chunks as [|d chunks IH];
    intros us rb sent s out Hus E Hp Hlen Hrun Hout Hne.
  - assert (us = []) as ->.
    { destruct us as [|u us]; [done|]. unfold partial in Hp. change (mjoin []) with (@nil byte) in E.
      rewrite app_nil_r in E. subst rb. cbn [fmap list_fmap mjoin list_join] in Hp. rewrite length_app in Hp. lia. }
    cbn [run_cmds] in Hrun. injection Hrun as <- <-. by rewrite app_nil_r.
  - change (mjoin (d :: chunks)) with (d ++ mjoin chunks) in E. rewrite app_assoc in E.
    assert (length (rb ++ d) ≤ length (sent_for us))%nat as Hle by (rewrite <- E, (length_app (rb ++ d)); lia).
    apply not_elem_of_cons in Hne as [Hd Hne].
    rewrite read_step by done. rewrite (proj2 (Z.ltb_ge _ _)) by lia.
    destruct (batch_run us (rb ++ d) (mjoin chunks) Hus Hlen E) as (us1 & us2 & rb' & -> & E' & Hp' & Hr).
    unfold mbind at 1, st_bind at 1. rewrite Hr, run_cmds_app in *. unfold mbind, st_bind in Hrun |- *.
    destruct (run_cmds exec us1 [] s) as [[o1| |] s1]; try done. unfold mret, st_ret at 1.
    rewrite run_cmds_appends in Hrun by done. unfold mbind, st_bind in Hrun.
    destruct (run_cmds exec us2 [] s1) as [[o2| |] s2] eqn:E2; try done.
    unfold mret, st_ret in Hrun. simplify_eq. rewrite length_app in Hout. cbn [fst snd].
    rewrite (proj2 (Z.ltb_ge _ _)) by lia. apply Forall_app in Hus as [_ Hus2].
    rewrite fmap_app, join_app, length_app in Hlen.
    destruct o1 as [|b o1]; cbn [is_empty negb].
    + apply (IH us2); try done. lia.
    + rewrite app_assoc. apply (IH us2); try done; lia.
Qed.
End units.

Lemma session_stream timed batch exec chunks cs rb sent s out s' :
  serves batch exec → appends exec → Forall resp_encodable cs →
  rb ++ mjoin chunks = stream cs → pending rb cs → Z.of_nat (length (stream cs)) ≤ MAX_READ_BUF →
  run_cmds exec cs [] s = (Val out, s') → Z.of_nat (length out) ≤ MAX_WRITE_BUF → [] ∉ chunks →
  session_loop timed batch (arriving chunks) rb [] sent s = (Val (sent ++ out), s').
Proof.
  intros Hb Ha Hcs E Hp Hlen Hrun Hout Hne.
  apply (session_units (λ c, frame c) exec resp_encodable timed batch Ha) with (us := cs); try done.
  clear -Hb. intros cs rb future Hcs Hlen E.
  destruct (resp_loop_run exec cs rb future (S (length rb))) as (cs1 & cs2 & rb' & ? & ? & ? & Hr);
    [done | | done | lia |].
  { unfold in_memory, stream, MAX_READ_BUF in *. lia. }
  exists cs1, cs2, rb'. split_and!; [done..|]. intros wb s. rewrite Hb; [apply Hr|].
  by apply (stream_head rb future cs).
Qed.

Lemma inline_empty m fuel wb s : inline_loop m (S fuel) [] wb s = (Val ([], wb), s).
Proof.
  cbn [inline_loop]. unfold parse_inline_borrowed, line_end. by rewrite memchr2_position.
Qed.

Lemma full_serves m : serves (full_batch m) (exec_resp m).
Proof.
  intros rb wb s [-> |Hh]; unfold full_batch.
  - cbn [length head]. rewrite bool_decide_eq_false_2 by done. by rewrite inline_empty.
  - by rewrite bool_decide_eq_true_2.
Qed.

Lemma fast_serves : serves fast_batch exec_fast.
Proof.
  intros rb wb s [-> |Hh]; unfold fast_batch.
  - cbn [length head]. rewrite bool_decide_eq_false_2 by done.
    cbn [fast_inline_loop]. unfold lift_o, mbind, st_bind. cbn.
    unfold parse_inline_borrowed, line_end. by rewrite memchr2_position.
  - by rewrite bool_decide_eq_true_2.
Qed.

Lemma exec_resp_appends m : appends (exec_resp m).
Proof.
  intros c wb s. unfold exec_resp, mbind, st_bind, mret, st_ret.
  repeat case_match; simplify_eq/=; done.
Qed.

(** C9: pipelining and framing on a RESP connection: however the network cuts the stream of
    frames a client sends for a list of commands, the server answers with exactly the
    responses of those commands, in order and in the same final state as running them one by
    one (append-only file and metrics included), as long as the stream and the answers stay
    within the 1 MiB buffers and no command panics. *)
Theorem resp_session_chunking m chunks cs s out s' :
  Forall resp_encodable cs → mjoin chunks = stream cs → [] ∉ chunks →
  Z.of_nat (length (stream cs)) ≤ MAX_READ_BUF →
  run_cmds (exec_resp m) cs [] s = (Val out, s') → Z.of_nat (length out) ≤ MAX_WRITE_BUF →
  session_loop true (full_batch m) (arriving chunks) [] [] [] s = (Val out, s').
Proof.
  intros Hcs E Hne Hlen Hrun Hout.
  apply (session_stream true (full_batch m) (exec_resp m) chunks cs [] []);
    auto using full_serves, exec_resp_appends.
  destruct cs as [|c cs]; [done|]. unfold pending. destruct (frame_nonempty c) as [l ->]. simpl. lia.
Qed.

(** * The two paths *)

Lemma exec_fast_full c wb s :
  aof s = None → exec_fast c wb s = exec_resp false c wb s ∧ aof (exec_fast c wb s).2 = None.
Proof.
  intros Ha. unfold exec_fast, exec_resp, aof_entry_for, aof_open, append_opt, lift_w.
  unfold mbind, st_bind, mret, st_ret. rewrite Ha, bool_decide_eq_false_2 by (by intros [? ?]).
  cbn [andb]. destruct (dispatch c (sw s)) as [[r| |] w]; try done.
  by destruct (is_success r).
Qed.


(** * Termination *)

(** Every frame the borrowed parser reports takes at least two bytes. *)
Lemma dispatch_verb_consumed verb rest n :
  match dispatch_verb_borrowed verb rest n with Ok (BComplete n' _) | Ok (BSkip n') => n' = n | _ => True end.
Proof.
  unfold dispatch_verb_borrowed, parse_get_borrowed, parse_set_borrowed, parse_del_borrowed,
    parse_incr_borrowed, parse_single_key_borrowed, parse_expire_borrowed, parse_mget_borrowed,
    parse_mset_borrowed, result_bind.
  repeat (case_match; simplify_eq; try done).
Qed.

Lemma parse_inline_pos rb :
  match parse_inline_borrowed rb with
  | Ok (BComplete n _) | Ok (BSkip n) => (2 ≤ n)%nat
  | _ => True
  end.
Proof.
  unfold parse_inline_borrowed. destruct (line_end rb) as [p|]; [|done].
  destruct (is_empty _); [simpl; lia|]. destruct (split_first_word _) as [verb rest].
  pose proof (dispatch_verb_consumed verb rest (p + 2)) as H.
  destruct (dispatch_verb_borrowed _ _ _) as [[]|]; try done; lia.
Qed.

Lemma advance_shrinks n rb rb' :
  (0 < n)%nat → advance n rb = Val rb' → (length rb' < length rb ∨ rb = [])%nat.
Proof.
  unfold advance. intros Hn. case_match; [|done]. intros [= <-]. rewrite length_drop.
  destruct rb; [by right|]. left. simpl. lia.
Qed.

Lemma skip_shrinks rb : rb ≠ [] → (length (skip_to_newline rb) < length rb)%nat.
Proof.
  intros Hne. unfold skip_to_newline. destruct (memchr LF rb) as [p|]; [rewrite length_drop|].
  - destruct rb; [done|]. simpl. lia.
  - destruct rb; [done|]. simpl. lia.
Qed.

(** * Inputs that defeat a connection *)

Lemma empty_array_parse rest :
  try_parse_frame (str "*0" ++ crlf ++ rest) = Val (Err EmptyCommand).
Proof.
  change (str "*0" ++ crlf ++ rest) with ([Byte.x2a] ++ display_u 0 ++ crlf ++ rest).
  unfold try_parse_frame. cbn [app]. rewrite byte_eqb_refl. unfold parse_resp_frame.
  change (Byte.x2a :: display_u 0 ++ crlf ++ rest) with ([Byte.x2a] ++ display_u 0 ++ crlf ++ rest).
  by rewrite line_int_encoded by (done || apply star_plain).
Qed.

(** An empty RESP array wedges the connection: it is never taken off the buffer, so
    whatever the client sends after it, the server answers nothing more. *)
Theorem empty_array_wedges m rest chunks s :
  session_loop true (full_batch m) (arriving ((str "*0" ++ crlf ++ rest) :: chunks)) [] [] [] s =
  (Val [], s).
Proof.
  assert (∀ chunks rb rest d, rb ++ d = str "*0" ++ crlf ++ rest →
    session_loop true (full_batch m) (arriving (d :: chunks)) rb [] [] s = (Val [], s)) as H.
  { clear chunks rest. induction chunks as [|d' chunks IH]; intros rb rest d E;
      (destruct (decide (d = [])) as [-> |Hd]; [done|]);
      rewrite read_step, E by done; (case_match; [done|]);
      unfold full_batch; (rewrite bool_decide_eq_true_2 by done); cbn [resp_loop]; unfold lift_o;
      unfold mbind at 1, st_bind at 1; rewrite empty_array_parse; [done|].
    apply (IH _ (rest ++ d')). reflexivity. }
  by apply (H chunks [] rest).
Qed.

(** A lone LF on an inline connection (a blank line from a client that ends lines with
    LF) panics the session's task. *)
Theorem lone_lf_panics m wb s : full_batch m [LF] wb s = (Panic, s).
Proof.
  unfold full_batch. rewrite bool_decide_eq_false_2 by done. cbn [length inline_loop].
  unfold parse_inline_borrowed, line_end. by rewrite memchr2_position.
Qed.
End props.

(** * Witnesses and examples *)

Section witnesses.
#[local] Existing Instances gmap_dashmap ms_clock itoa_display memchr_scan.

Definition wit_conn : SWorld (M := gmap bytes ValueEntry) :=
  mkSWorld (mkWorld (mkEngine ∅ 0) 5 (metrics_init 0) local_default) None.

(** After a line that does not parse, the fast path drops the start of the buffer but
    keeps its offset: here the [SET] that follows two answered lines is cut, reported as a
    second unknown command and lost. *)
Theorem fast_error_shifts :
  ∃ s', fast_batch (str "GET a" ++ crlf ++ str "BAD" ++ crlf ++ str "SET b c" ++ crlf) [] wit_conn =
    (Val ([], nil_text ++ write_to unknown_reply [] ++ write_to unknown_reply []), s') ∧
    dm_get (emap (eng (sw s'))) (str "b") = None.
Proof. eexists. split; vm_compute; reflexivity. Qed.

Lemma resp_session_chunking_witness :
  ∃ out s', session_loop true (full_batch true)
    (arriving [str "*1"; crlf ++ str "$4" ++ crlf ++ str "PI"; str "NG" ++ crlf]) [] [] [] wit_conn =
    (Val out, s') ∧ out = str "+PONG" ++ crlf.
Proof.
  do 2 eexists. split; [|reflexivity].
  eapply (resp_session_chunking true _ [CPing]); [by repeat constructor | reflexivity | | | reflexivity |].
  - apply (bool_decide_unpack _). by vm_compute.
  - by vm_compute.
  - by vm_compute.
Defined.

End witnesses.
