(* ===== verification/BatchEnds.v ===== *)
(** A batch ends: with an engine without key limit the loops of [src/server/session.rs] over the frames
    of a buffer come to their last turn. *)

From S2P Require Import Prelude RustStd Crates Domain Parser InlineFacts RespFacts ParserProps.
From S2P Require Import ParserBorrowed BorrowedProps Metrics World Engine EngineFacts EvictFacts.
From S2P Require Import StoreSpec EngineProps Response Dispatcher DispatcherProps CommandEnds Aof.
From S2P Require Import Session SessionProps.

Section batch.
Context {M : Type} {DM : DashMap bytes ValueEntry M} {CL : Clock} {IT : Itoa} {MC : Memchr}.
Abbreviation EW := (World (DashMapEngine M)).
Abbreviation SW := (SWorld (M := M)).
Implicit Types (w : EW) (s : SW) (rb wb : bytes).

Definition unlimited_s s : Prop := unlimited (sw s).

Lemma lift_ends {A} (c : ST EW A) : ends unlimited c → ends unlimited_s (lift_w c).
Proof. intros Hc s Hs. unfold lift_w. destruct (Hc (sw s) Hs). by destruct (c (sw s)). Qed.

Lemma entry_for_ends b e : ends unlimited_s (aof_entry_for b e).
Proof. by intros s Hs. Qed.

Lemma append_ends e : ends unlimited_s (append_opt e).
Proof. intros s Hs. destruct e as [e|]; [|done]. unfold append_opt, append_entry. by destruct (aof s). Qed.

Lemma record_ends ct r : ends unlimited_s (record_resp ct r) ∧ ends unlimited_s (record_inline ct).
Proof. split; by intros s Hs. Qed.

#[local] Hint Resolve lift_ends entry_for_ends append_ends : ends.
#[local] Hint Extern 1 (ends _ (record_resp _ _)) => apply record_ends : ends.
#[local] Hint Extern 1 (ends _ (record_inline _)) => apply (record_ends _ ROk) : ends.

Lemma exec_resp_ends m c wb : ends unlimited_s (exec_resp m c wb).
Proof. unfold exec_resp. auto 12 with ends. Qed.
Lemma exec_inline_ends m c wb : ends unlimited_s (exec_inline m c wb).
Proof. unfold exec_inline. auto 12 with ends. Qed.
Lemma exec_fast_ends c wb : ends unlimited_s (exec_fast c wb).
Proof. unfold exec_fast. auto with ends. Qed.

(** The loops, by the bytes that are left; every frame and every line taken is not empty. *)
Lemma lifted_ends {A B} (o : outcome A) (k : A → ST SW B) :
  o ≠ Stuck → (∀ a, o = Val a → ends unlimited_s (k a)) → ends unlimited_s (lift_o o ≫= k).
Proof. intros Ho Hk s Hs. unfold lift_o, mbind, st_bind. destruct o; [by apply Hk | by split | done]. Qed.

Lemma advance_ends {B} n rb (k : bytes → ST SW B) :
  ends unlimited_s (k (drop n rb)) → ends unlimited_s (lift_o (advance n rb) ≫= k).
Proof.
  intros Hk. apply lifted_ends; unfold advance; case_match; try done. by intros ? [= <-].
Qed.

Lemma resp_loop_ends exec fuel rb wb :
  (∀ c wb, ends unlimited_s (exec c wb)) → in_memory rb → (length rb < fuel)%nat →
  ends unlimited_s (resp_loop exec fuel rb wb).
Proof.
  intros He. revert rb wb. induction fuel as [|fuel IH]; intros rb wb Hmem Hlt; [lia|].
  assert (∀ rb' wb', (length rb' < length rb)%nat → ends unlimited_s (resp_loop exec fuel rb' wb')) as Hrec.
  { intros rb' wb' Hl. apply IH; [unfold in_memory in *; lia | lia]. }
  destruct (try_parse_frame_sim rb []) as [Hok _]; [by rewrite app_nil_r|]. cbn [resp_loop].
  destruct (decide (rb = [])) as [-> |Hne]; [by intros s Hs|].
  apply lifted_ends; [by intros E; rewrite E in Hok|]. intros r E. rewrite E in Hok.
  destruct r as [[n c| |n]|[|e|e]]; auto using skip_shrinks with ends; cbn in Hok;
    apply advance_ends; [apply ends_bind; [done | intros wb']|]; apply Hrec; rewrite length_drop; lia.
Qed.

Lemma inline_loop_ends m fuel rb wb : (length rb < fuel)%nat → ends unlimited_s (inline_loop m fuel rb wb).
Proof.
  revert rb wb. induction fuel as [|fuel IH]; intros rb wb Hlt; [lia|].
  destruct (decide (rb = [])) as [-> |Hne]; [intros s Hs; by rewrite inline_empty|].
  cbn [inline_loop]. pose proof (parse_inline_pos rb) as Hpos. pose proof (skip_shrinks rb Hne).
  assert (0 < length rb)%nat by (destruct rb; [done | cbn; lia]).
  destruct (parse_inline_borrowed rb) as [[n c| |n]|[|e|e]]; auto with ends; try (apply IH; lia);
    apply advance_ends; [apply ends_bind; [apply exec_inline_ends | intros wb']|];
    apply IH; rewrite length_drop; lia.
Qed.

Lemma fast_loop_ends fuel rb off wb :
  (length rb - off < fuel)%nat → ends unlimited_s (fast_inline_loop fuel rb off wb).
Proof.
  revert rb off wb. induction fuel as [|fuel IH]; intros rb off wb Hlt; [lia|]. cbn [fast_inline_loop].
  apply lifted_ends; unfold slice_from; (destruct (Nat.leb_spec off (length rb)) as [Hle|]; [|done]); [done|].
  intros ? [= <-]. destruct (decide (drop off rb = [])) as [E|Hne].
  { rewrite E. unfold parse_inline_borrowed, line_end. rewrite memchr2_position. by intros s Hs. }
  assert (off < length rb)%nat as Hoff.
  { destruct (decide (off < length rb)%nat); [done|]. by rewrite drop_ge in Hne by lia. }
  assert (length (skip_to_newline rb) < length rb)%nat by (apply skip_shrinks; by destruct rb; simpl in *; [lia|]).
  pose proof (parse_inline_pos (drop off rb)) as Hpos.
  destruct (parse_inline_borrowed (drop off rb)) as [[n c| |n]|[|e|e]]; auto with ends; try (apply IH; lia).
  apply ends_bind; [auto with ends|]. intros wb'. apply IH. lia.
Qed.

End batch.

(** * Witness *)

Section witnesses.
#[local] Existing Instances gmap_dashmap ms_clock itoa_display memchr_scan.

End witnesses.
