(* ===== verification/InlineSession.v ===== *)
(** An inline connection on the path with all features: lines in, replies out.

    The inline analogue of [resp_session_chunking]: a client that ends its lines with CRLF is
    served line by line, lines that do not parse included, however the network cuts them.  A blank
    line is dropped without an answer ([blank_line_silent]). *)

From S2P Require Import Prelude RustStd Crates Domain Parser InlineFacts RespFacts ParserProps.
From S2P Require Import ParserBorrowed BorrowedProps Metrics World Engine Response Dispatcher Aof.
From S2P Require Import Session SessionProps.

(** A line a client may send: no line break inside, and not taken for RESP. *)
Definition line_ok (line : bytes) : Prop :=
  (CR ∉ line) ∧ (LF ∉ line) ∧ head line ≠ Some Byte.x2a.

Definition ended (line : bytes) : bytes := line ++ crlf.

Section props.
Context {M : Type} {DM : DashMap bytes ValueEntry M} {CL : Clock} {IT : Itoa} {MC : Memchr}.
Abbreviation SW := (SWorld (M := M)).
Implicit Types (s : SW) (rb wb line : bytes).

(** What one line does: run its command, answer its error, or nothing if it is blank. *)
Definition exec_line (metrics_enabled : bool) (line wb : bytes) : ST SW bytes :=
  match parse_inline_borrowed (ended line) with
  | Ok (BComplete _ command) => exec_inline metrics_enabled command wb
  | Err (Parser.SyntaxError _) => mret (write_to syntax_reply wb)
  | Err (Parser.UnknownCommand _) => mret (write_to unknown_reply wb)
  | _ => mret wb
  end.

Lemma exec_line_eq m line wb s :
  exec_line m line wb s =
  match parse_inline_borrowed (ended line) with
  | Ok (BComplete _ command) => exec_inline m command wb
  | Err (Parser.SyntaxError _) => mret (write_to syntax_reply wb)
  | Err (Parser.UnknownCommand _) => mret (write_to unknown_reply wb)
  | _ => mret wb
  end s.
Proof. done. Qed.

(** ** The parser on a line and on a part of one *)

Lemma mset_loop_error fuel rem ps e : mset_borrowed_loop fuel rem ps = Err e → e ≠ EmptyCommand.
Proof.
  revert rem ps. induction fuel as [|fuel IH]; intros rem ps; cbn [mset_borrowed_loop]; [done|].
  repeat (case_match; simplify_eq; try done); try apply IH; by intros [= <-].
Qed.

Lemma line_parse line rest :
  line_ok line → parse_inline_borrowed (ended line ++ rest) = parse_inline_borrowed (ended line) ∧
  match parse_inline_borrowed (ended line) with
  | Ok (BComplete n _) | Ok (BSkip n) => n = length (ended line)
  | Ok BIncomplete | Err EmptyCommand => False
  | _ => True
  end.
Proof.
  intros (Hcr & Hlf & _). unfold ended. rewrite <- app_assoc.
  assert (parse_inline_borrowed (line ++ crlf) =
    if is_empty (trim line) then Ok (BSkip (length line + 2))
    else let '(verb, args) := split_first_word (trim line) in
         dispatch_verb_borrowed verb args (length line + 2)) as E.
  { pose proof (inline_borrowed_line line [] Hcr Hlf) as H. by rewrite app_nil_r in H. }
  rewrite inline_borrowed_line, E by done. split; [done|]. rewrite length_app.
  destruct (is_empty (trim line)); [done|]. destruct (split_first_word _) as [verb args].
  pose proof (dispatch_verb_consumed verb args (length line + 2)) as H.
  assert (dispatch_verb_borrowed verb args (length line + 2) ≠ Ok BIncomplete ∧
    dispatch_verb_borrowed verb args (length line + 2) ≠ Err EmptyCommand) as [H1 H2].
  { clear. unfold dispatch_verb_borrowed, parse_get_borrowed, parse_set_borrowed, parse_del_borrowed,
      parse_incr_borrowed, parse_single_key_borrowed, parse_expire_borrowed, parse_mget_borrowed,
      parse_mset_borrowed, result_bind. split; repeat (case_match; simplify_eq; try done).
    intros [= ->]. by eapply mset_loop_error. }
  destruct (dispatch_verb_borrowed _ _ _) as [[]|[]]; done.
Qed.

(** Less than a whole line asks for more. *)
Lemma line_incomplete line p q :
  line_ok line → p ++ q = ended line → q ≠ [] → parse_inline_borrowed p = Ok BIncomplete.
Proof.
  intros (Hcr & Hlf & _) E Hq. unfold parse_inline_borrowed, line_end.
  destruct (decide (length p ≤ length line)%nat) as [Hle|Hgt].
  - assert (p = take (length p) line) as Hp.
    { rewrite <- (take_app_le line crlf) by done. fold (ended line). rewrite <- E. by rewrite take_app_exact. }
    rewrite memchr2_position. rewrite (proj2 (position_None _ p)); [done|]. rewrite Hp.
    apply Forall_take, Forall_forall. intros b Hb. apply orb_false_iff.
    split; apply byte_eqb_neq; by intros ->.
  - assert (p = line ++ [CR]) as ->.
    { assert (length q = 1%nat) as Hl.
      { apply (f_equal length) in E. unfold ended in E. rewrite !length_app in E. cbn in E.
        destruct q; [done|]. cbn in *. lia. }
      destruct q as [|x [|? ?]]; try done. unfold ended in E.
      change crlf with ([CR] ++ [LF]) in E. rewrite app_assoc in E. by apply app_inj_tail in E as [-> _]. }
    rewrite memchr2_line by auto. rewrite length_app, (proj2 (Nat.ltb_ge _ _)) by (cbn; lia). cbn [andb].
    by rewrite safe_get_app_r.
Qed.

Lemma skip_line line rest : LF ∉ line → skip_to_newline (ended line ++ rest) = rest.
Proof.
  intros Hlf. unfold skip_to_newline, ended. rewrite memchr_position.
  assert (line ++ crlf = (line ++ [CR]) ++ [LF]) as -> by (by rewrite <- app_assoc).
  rewrite <- app_assoc, position_app_None.
  - change (position _ ([LF] ++ rest)) with (Some 0%nat). cbn [fmap option_fmap option_map].
    rewrite app_assoc. replace (length (line ++ [CR]) + 0 + 1)%nat with (length ((line ++ [CR]) ++ [LF])).
    + apply drop_app_exact.
    + rewrite !length_app. cbn. lia.
  - apply position_None, Forall_app. split; [|by repeat constructor]. apply Forall_forall. intros b Hb.
    apply byte_eqb_neq. by intros ->.
Qed.

(** ** One batch *)

Abbreviation lines ls := (mjoin (ended <$> ls)).

(** Either a whole line has arrived or only a part of it. *)
Lemma line_arrived rb future line rest :
  rb ++ future = ended line ++ rest →
  (∃ rb1, rb = ended line ++ rb1 ∧ rb1 ++ future = rest) ∨
  (∃ q, q ≠ [] ∧ rb ++ q = ended line ∧ (length rb < length (ended line))%nat).
Proof.
  intros E. destruct (decide (length (ended line) ≤ length rb)%nat) as [Hle|Hlt].
  - left. apply app_eq_app in E as (l & [[-> ->]|[E1 ->]]); [by exists l|].
    rewrite E1, length_app in Hle. destruct l; [|cbn in Hle; lia]. exists [].
    rewrite app_nil_r in *. by subst.
  - right. apply app_eq_app in E as (l & [[-> ->]|[E1 ->]]); [rewrite length_app in Hlt; lia|].
    exists l. split_and!; [|done|lia]. intros ->. rewrite app_nil_r in E1. subst. lia.
Qed.

Lemma ended_nonempty line : (0 < length (ended line))%nat.
Proof. unfold ended. rewrite length_app. cbn. lia. Qed.

Lemma inline_loop_run m ls rb future fuel :
  Forall line_ok ls → rb ++ future = lines ls → (length rb < fuel)%nat →
  ∃ ls1 ls2 rb', ls = ls1 ++ ls2 ∧ rb' ++ future = lines ls2 ∧ partial ended rb' ls2 ∧
    ∀ wb s, inline_loop m fuel rb wb s = (wb' ← run_cmds (exec_line m) ls1 wb; mret (rb', wb')) s.
Proof.
  intros Hls. revert rb fuel. induction Hls as [|line ls Hl Hls IH]; intros rb fuel E Hf;
    (destruct fuel as [|fuel]; [lia|]).
  - apply app_eq_nil in E as [-> ->]. exists [], [], []. split_and!; try done.
    intros wb s. by rewrite inline_empty.
  - change (lines (line :: ls)) with (ended line ++ lines ls) in E.
    destruct (line_arrived rb future line (lines ls) E) as [(rb1 & -> & E1)|(q & Hq & Eq & Hlt)].
    + pose proof (ended_nonempty line). rewrite length_app in Hf.
      destruct (IH rb1 fuel E1) as (ls1 & ls2 & rb' & -> & E2 & Hp & Hrun); [lia|].
      exists (line :: ls1), ls2, rb'. split_and!; [done..|]. intros wb s.
      cbn [inline_loop run_cmds]. unfold lift_o, mbind, st_bind in *. rewrite exec_line_eq.
      destruct (line_parse line rb1 Hl) as [-> Hn].
      assert (advance (length (ended line)) (ended line ++ rb1) = Val rb1) as Hadv.
      { unfold advance. rewrite length_app, (proj2 (Nat.leb_le _ _)), drop_app_exact by lia. done. }
      assert (skip_to_newline (ended line ++ rb1) = rb1) as Hskip by apply skip_line, Hl.
      destruct (parse_inline_borrowed (ended line)) as [[n c| |n]|[]]; try done; subst;
        rewrite ?Hadv, ?Hskip; try apply Hrun.
      destruct (exec_inline m c wb s) as [[wb1| |] s1]; [apply Hrun | done..].
    + exists [], (line :: ls), rb. split_and!; [done | done | done |]. intros wb s.
      cbn [inline_loop run_cmds]. by rewrite (line_incomplete line rb q).
Qed.

(** ** The connection *)

(** [dispatch_to_buffer] only adds to the buffer. *)
Lemma buffer_appends c buf b (w : World (DashMapEngine M)) :
  dispatch_to_buffer c buf b w = (r ← dispatch_to_buffer c [] b; mret (buf ++ r)) w.
Proof.
  destruct c; cbn [dispatch_to_buffer]; unfold mbind, st_bind, mret, st_ret; try done;
    repeat match goal with
           | |- context [let (_, _) := ?x in _] =>
               lazymatch x with
               | context [let (_, _) := _ in _] => fail
               | _ => destruct x as [[?| |] ?]
               end
           end; done.
Qed.

Lemma exec_inline_appends m c wb s :
  exec_inline m c wb s = (r ← exec_inline m c []; mret (wb ++ r)) s.
Proof.
  unfold exec_inline, lift_w, mbind, st_bind, mret, st_ret.
  destruct (aof_entry_for _ _ s) as [[e| |] s1]; try done. rewrite (buffer_appends _ wb).
  unfold mbind, st_bind, mret, st_ret.
  destruct (dispatch_to_buffer (to_owned c) [] false (sw s1)) as [[r| |] w]; try done.
  destruct m; [destruct (record_inline _ _) as [[?| |] s2]; try done|];
    by destruct (append_opt e _) as [[?| |] s3].
Qed.

Lemma exec_line_appends m : appends (exec_line m).
Proof.
  intros line wb s. unfold mbind, st_bind. rewrite !exec_line_eq.
  destruct (parse_inline_borrowed _) as [[n c| |n]|[]];
    [apply exec_inline_appends | unfold mret, st_ret; by rewrite ?app_nil_r..].
Qed.

Lemma full_inline m ls rb future wb s :
  Forall line_ok ls → rb ++ future = lines ls →
  full_batch m rb wb s = inline_loop m (S (length rb)) rb wb s.
Proof.
  intros Hls E. unfold full_batch. rewrite bool_decide_eq_false_2; [done|].
  destruct rb as [|b rb]; [done|]. destruct Hls as [|line ls (_ & _ & Hh) _]; [done|].
  change (lines (line :: ls)) with (ended line ++ lines ls) in E. intros [= ->].
  destruct line as [|x line]; cbn in *; [done|]. injection E as E _. congruence.
Qed.

Lemma full_chunking m chunks ls s out s' :
  Forall line_ok ls → mjoin chunks = lines ls → [] ∉ chunks →
  Z.of_nat (length (lines ls)) ≤ MAX_READ_BUF →
  run_cmds (exec_line m) ls [] s = (Val out, s') → Z.of_nat (length out) ≤ MAX_WRITE_BUF →
  session_loop true (full_batch m) (arriving chunks) [] [] [] s = (Val out, s').
Proof.
  intros Hls E Hne Hlen Hrun Hout.
  apply (session_units ended (exec_line m) line_ok true (full_batch m) (exec_line_appends m))
    with (us := ls) (rb := []) (sent := []); try done.
  - clear. intros ls rb future Hls _ E.
    destruct (inline_loop_run m ls rb future (S (length rb)) Hls E) as (ls1 & ls2 & rb' & ? & ? & ? & Hr);
      [lia|].
    exists ls1, ls2, rb'. split_and!; [done..|]. intros wb s. by rewrite (full_inline m ls rb future).
  - destruct ls as [|line ls]; [done|]. apply ended_nonempty.
Qed.

(** A blank line is dropped without a reply, although it is a line the protocol has an error for. *)
Theorem blank_line_silent m line wb s :
  line_ok line → words line = [] → exec_line m line wb s = (Val wb, s).
Proof.
  intros (Hcr & Hlf & _) Hw. rewrite exec_line_eq. pose proof (inline_borrowed_line line [] Hcr Hlf) as E.
  rewrite app_nil_r in E. unfold ended. rewrite E, (trim_words_nil line Hw). done.
Qed.

End props.

(** * Witness *)

Section witnesses.
#[local] Existing Instances gmap_dashmap ms_clock itoa_display memchr_scan.

Definition wit_lines : list bytes := [str "SET a 1"; str "BOGUS"; str "GET a"].

End witnesses.
