(* ===== verification/ParserTests.v ===== *)
(** The unit tests of [src/protocol/parser.rs] and [src/protocol/response.rs], run on the model.

    Each test is a Boolean definition with the inputs and the assertions of its source; a test
    that does not look at part of a result ([..]) does not look at it here either. *)

From S2P Require Import Prelude RustStd Crates Domain Parser Response.

(** * Helpers *)

(** A Rust byte string with the escapes of its source. *)
Fixpoint unescape (l : bytes) : bytes :=
  match l with
  | b :: ((c :: l') as t) =>
      if Byte.eqb b Byte.x5c && Byte.eqb c Byte.x72 then CR :: unescape l'
      else if Byte.eqb b Byte.x5c && Byte.eqb c Byte.x6e then LF :: unescape l'
      else b :: unescape t
  | _ => l
  end.
Definition lit (s : String.string) : bytes := unescape (str s).

(** [assert_eq!] *)
Definition eqb {A} `{EqDecision A} (x y : A) : bool := bool_decide (x = y).

(** [matches!(r, Err(ParseError::SyntaxError(_)))] and the like. *)
Definition is_syntax {A} (r : result A ParseError) : bool :=
  match r with Err (Parser.SyntaxError _) => true | _ => false end.
Definition is_unknown {A} (r : result A ParseError) : bool :=
  match r with Err (Parser.UnknownCommand _) => true | _ => false end.
Definition is_empty_command {A} (r : result A ParseError) : bool :=
  match r with Err EmptyCommand => true | _ => false end.

(** A SET whose lifetime is not looked at. *)
Definition is_set (c : Command) (k v : bytes) : bool :=
  match c with CSet key value _ => eqb key k && eqb value v | _ => false end.
Definition parsed (r : result Command ParseError) (p : Command → bool) : bool :=
  match r with Ok c => p c | Err _ => false end.

Definition frame_result (o : outcome (result FrameResult ParseError)) : result FrameResult ParseError :=
  match o with Val r => r | _ => Err EmptyCommand end.
Definition framed (o : outcome (result FrameResult ParseError)) (p : nat → Command → bool) : bool :=
  match o with Val (Ok (Complete n c)) => p n c | _ => false end.
Definition incomplete (o : outcome (result FrameResult ParseError)) : bool :=
  match o with Val (Ok Incomplete) => true | _ => false end.
Definition failed (o : outcome (result FrameResult ParseError))
    (p : result FrameResult ParseError → bool) : bool :=
  match o with Val r => p r | _ => false end.

#[local] Existing Instances memchr_scan itoa_display.

(** * [parse] *)

Definition test_ping_case_insensitive : bool :=
  eqb (parse (lit "PING")) (Ok CPing) && eqb (parse (lit "ping")) (Ok CPing) &&
  eqb (parse (lit "Ping")) (Ok CPing).
Definition test_get_valid : bool := eqb (parse (lit "GET mykey")) (Ok (CGet (lit "mykey"))).
Definition test_set_valid : bool :=
  eqb (parse (lit "SET mykey hello")) (Ok (CSet (lit "mykey") (lit "hello") None)).
Definition test_set_value_is_single_token : bool :=
  parsed (parse (lit "SET msg hello")) (λ c, is_set c (lit "msg") (lit "hello")).
Definition test_set_with_ex_seconds : bool :=
  eqb (parse (lit "SET mykey hello EX 60")) (Ok (CSet (lit "mykey") (lit "hello") (Some (from_secs 60)))).
Definition test_set_with_px_millis : bool :=
  eqb (parse (lit "SET mykey hello PX 3000"))
    (Ok (CSet (lit "mykey") (lit "hello") (Some (from_millis 3000)))).
Definition test_set_with_unknown_option_is_error : bool := is_syntax (parse (lit "SET k v XX 5")).
Definition test_set_with_ex_missing_value_is_error : bool := is_syntax (parse (lit "SET k v EX")).
Definition test_set_with_ex_non_integer_is_error : bool := is_syntax (parse (lit "SET k v EX abc")).
Definition test_del_valid : bool := eqb (parse (lit "DEL mykey")) (Ok (CDel (lit "mykey"))).
Definition test_incr_valid : bool := eqb (parse (lit "INCR counter")) (Ok (CIncr (lit "counter"))).
Definition test_empty_input : bool :=
  is_empty_command (parse (lit "")) && is_empty_command (parse (lit "   ")) &&
  is_empty_command (parse (lit "\r\n")).
Definition test_unknown_command : bool := is_unknown (parse (lit "FOOBAR")).
Definition test_get_missing_key : bool := is_syntax (parse (lit "GET")).
Definition test_get_extra_args : bool := is_syntax (parse (lit "GET a b")).
Definition test_set_missing_args : bool :=
  is_syntax (parse (lit "SET")) && is_syntax (parse (lit "SET key")).
Definition test_del_missing_key : bool := is_syntax (parse (lit "DEL")).
Definition test_incr_missing_key : bool := is_syntax (parse (lit "INCR")).
Definition test_extra_whitespace : bool := eqb (parse (lit "  GET   mykey  ")) (Ok (CGet (lit "mykey"))).
Definition test_crlf_terminator : bool := eqb (parse (lit "GET mykey\r\n")) (Ok (CGet (lit "mykey"))).

(** * [parse_bytes] *)

Definition test_parse_bytes_get : bool := eqb (parse_bytes (lit "GET mykey")) (Ok (CGet (lit "mykey"))).
Definition test_parse_bytes_set : bool :=
  parsed (parse_bytes (lit "SET k v\r\n")) (λ c, is_set c (lit "k") (lit "v")).
Definition test_parse_bytes_empty : bool :=
  is_empty_command (parse_bytes (lit "")) && is_empty_command (parse_bytes (lit "   \r\n")).
Definition test_parse_bytes_unknown : bool := is_unknown (parse_bytes (lit "FOO")).

(** * [try_parse_frame] *)

Definition test_frame_inline_ping : bool :=
  framed (try_parse_frame (lit "PING\r\n")) (λ n c, eqb n 6%nat && eqb c CPing).
Definition test_frame_inline_incomplete : bool := incomplete (try_parse_frame (lit "PING")).
Definition test_frame_inline_empty_line : bool :=
  eqb (frame_result (try_parse_frame (lit "\r\n"))) (Ok (Skip 2)).
Definition test_frame_inline_get : bool :=
  framed (try_parse_frame (lit "GET mykey\r\n")) (λ n c, eqb n 11%nat && eqb c (CGet (lit "mykey"))).
Definition test_resp_ping : bool :=
  framed (try_parse_frame (lit "*1\r\n$4\r\nPING\r\n")) (λ n c, eqb n 14%nat && eqb c CPing).
Definition test_resp_get : bool :=
  framed (try_parse_frame (lit "*2\r\n$3\r\nGET\r\n$5\r\nmykey\r\n"))
    (λ n c, eqb n 24%nat && eqb c (CGet (lit "mykey"))).
Definition test_resp_set : bool :=
  framed (try_parse_frame (lit "*3\r\n$3\r\nSET\r\n$5\r\nmykey\r\n$5\r\nhello\r\n"))
    (λ _ c, eqb c (CSet (lit "mykey") (lit "hello") None)).
Definition test_resp_set_with_ex : bool :=
  framed (try_parse_frame
    (lit "*5\r\n$3\r\nSET\r\n$5\r\nmykey\r\n$5\r\nhello\r\n$2\r\nEX\r\n$2\r\n60\r\n"))
    (λ _ c, eqb c (CSet (lit "mykey") (lit "hello") (Some (from_secs 60)))).
Definition test_resp_set_with_px : bool :=
  framed (try_parse_frame
    (lit "*5\r\n$3\r\nSET\r\n$5\r\nmykey\r\n$5\r\nhello\r\n$2\r\nPX\r\n$4\r\n3000\r\n"))
    (λ _ c, eqb c (CSet (lit "mykey") (lit "hello") (Some (from_millis 3000)))).
Definition test_resp_del : bool :=
  framed (try_parse_frame (lit "*2\r\n$3\r\nDEL\r\n$5\r\nmykey\r\n")) (λ _ c, eqb c (CDel (lit "mykey"))).
Definition test_resp_incr : bool :=
  framed (try_parse_frame (lit "*2\r\n$4\r\nINCR\r\n$3\r\ncnt\r\n")) (λ _ c, eqb c (CIncr (lit "cnt"))).
Definition test_resp_incomplete_header : bool := incomplete (try_parse_frame (lit "*2\r\n")).
Definition test_resp_incomplete_bulk : bool :=
  incomplete (try_parse_frame (lit "*2\r\n$3\r\nGET\r\n$5\r\nmyk")).
Definition test_resp_empty_array : bool := failed (try_parse_frame (lit "*0\r\n")) is_empty_command.
Definition test_resp_null_array : bool := failed (try_parse_frame (lit "*-1\r\n")) is_syntax.
Definition test_resp_case_insensitive : bool :=
  framed (try_parse_frame (lit "*2\r\n$3\r\nget\r\n$1\r\nx\r\n")) (λ _ c, eqb c (CGet (lit "x"))).
Definition test_resp_two_frames_in_buffer : bool :=
  let input := lit "*1\r\n$4\r\nPING\r\n*2\r\n$3\r\nGET\r\n$1\r\nx\r\n" in
  framed (try_parse_frame input) (λ n c, eqb c CPing && eqb n 14%nat &&
    match slice_from input n with
    | Val rest => framed (try_parse_frame rest) (λ _ c, eqb c (CGet (lit "x")))
    | _ => false
    end).
Definition test_resp_null_bulk_string_in_array : bool :=
  framed (try_parse_frame (lit "*3\r\n$3\r\nSET\r\n$1\r\nk\r\n$-1\r\n"))
    (λ _ c, is_set c (lit "k") (lit "")).
Definition test_resp_unknown_command : bool :=
  failed (try_parse_frame (lit "*1\r\n$3\r\nFOO\r\n")) is_unknown.
Definition test_resp_wrong_arg_count : bool :=
  failed (try_parse_frame (lit "*1\r\n$3\r\nGET\r\n")) is_syntax.

(** * EXISTS, TTL, EXPIRE, FLUSHDB, KEYS *)

Definition test_exists_valid : bool := eqb (parse (lit "EXISTS mykey")) (Ok (CExists (lit "mykey"))).
Definition test_exists_missing_key : bool := is_syntax (parse (lit "EXISTS")).
Definition test_ttl_valid : bool := eqb (parse (lit "TTL mykey")) (Ok (CTtl (lit "mykey"))).
Definition test_ttl_missing_key : bool := is_syntax (parse (lit "TTL")).
Definition test_expire_valid : bool := eqb (parse (lit "EXPIRE mykey 60")) (Ok (CExpire (lit "mykey") 60)).
Definition test_expire_missing_args : bool :=
  is_syntax (parse (lit "EXPIRE")) && is_syntax (parse (lit "EXPIRE key")).
Definition test_expire_non_integer : bool := is_syntax (parse (lit "EXPIRE key abc")).
Definition test_flushdb_valid : bool := eqb (parse (lit "FLUSHDB")) (Ok CFlushDb).
Definition test_flushdb_extra_args : bool := is_syntax (parse (lit "FLUSHDB extra")).
Definition test_keys_valid : bool := eqb (parse (lit "KEYS")) (Ok CKeys).
Definition test_keys_extra_args : bool := is_syntax (parse (lit "KEYS *")).
Definition test_resp_exists : bool :=
  framed (try_parse_frame (lit "*2\r\n$6\r\nEXISTS\r\n$3\r\nkey\r\n")) (λ _ c, eqb c (CExists (lit "key"))).
Definition test_resp_ttl : bool :=
  framed (try_parse_frame (lit "*2\r\n$3\r\nTTL\r\n$3\r\nkey\r\n")) (λ _ c, eqb c (CTtl (lit "key"))).
Definition test_resp_expire : bool :=
  framed (try_parse_frame (lit "*3\r\n$6\r\nEXPIRE\r\n$3\r\nkey\r\n$2\r\n60\r\n"))
    (λ _ c, eqb c (CExpire (lit "key") 60)).
Definition test_resp_flushdb : bool :=
  framed (try_parse_frame (lit "*1\r\n$7\r\nFLUSHDB\r\n")) (λ _ c, eqb c CFlushDb).
Definition test_resp_keys : bool :=
  framed (try_parse_frame (lit "*1\r\n$4\r\nKEYS\r\n")) (λ _ c, eqb c CKeys).

(** * MGET, MSET *)

Definition test_mget_valid_single_key : bool := eqb (parse (lit "MGET k1")) (Ok (CMget [lit "k1"])).
Definition test_mget_valid_multiple_keys : bool :=
  eqb (parse (lit "MGET k1 k2 k3")) (Ok (CMget [lit "k1"; lit "k2"; lit "k3"])).
Definition test_mget_no_keys : bool := is_syntax (parse (lit "MGET")).
Definition test_mset_valid_single_pair : bool :=
  eqb (parse (lit "MSET k1 v1")) (Ok (CMset [(lit "k1", lit "v1")])).
Definition test_mset_valid_multiple_pairs : bool :=
  eqb (parse (lit "MSET k1 v1 k2 v2 k3 v3"))
    (Ok (CMset [(lit "k1", lit "v1"); (lit "k2", lit "v2"); (lit "k3", lit "v3")])).
Definition test_mset_no_args : bool := is_syntax (parse (lit "MSET")).
Definition test_mset_odd_args : bool := is_syntax (parse (lit "MSET k1 v1 k2")).
Definition test_resp_mget_single : bool :=
  framed (try_parse_frame (lit "*2\r\n$4\r\nMGET\r\n$2\r\nk1\r\n")) (λ _ c, eqb c (CMget [lit "k1"])).
Definition test_resp_mget_multiple : bool :=
  let input := lit "*4\r\n$4\r\nMGET\r\n$2\r\nk1\r\n$2\r\nk2\r\n$2\r\nk3\r\n" in
  framed (try_parse_frame input)
    (λ n c, eqb c (CMget [lit "k1"; lit "k2"; lit "k3"]) && eqb n (length input)).
Definition test_resp_mget_no_keys : bool :=
  failed (try_parse_frame (lit "*1\r\n$4\r\nMGET\r\n")) is_syntax.
Definition test_resp_mset_single_pair : bool :=
  framed (try_parse_frame (lit "*3\r\n$4\r\nMSET\r\n$2\r\nk1\r\n$2\r\nv1\r\n"))
    (λ _ c, eqb c (CMset [(lit "k1", lit "v1")])).
Definition test_resp_mset_multiple_pairs : bool :=
  let input := lit "*5\r\n$4\r\nMSET\r\n$2\r\nk1\r\n$2\r\nv1\r\n$2\r\nk2\r\n$2\r\nv2\r\n" in
  framed (try_parse_frame input)
    (λ n c, eqb c (CMset [(lit "k1", lit "v1"); (lit "k2", lit "v2")]) && eqb n (length input)).
Definition test_resp_mset_odd_args : bool :=
  failed (try_parse_frame (lit "*4\r\n$4\r\nMSET\r\n$2\r\nk1\r\n$2\r\nv1\r\n$2\r\nk2\r\n")) is_syntax.

Definition parser_tests : list bool :=
  [test_ping_case_insensitive; test_get_valid; test_set_valid; test_set_value_is_single_token;
   test_set_with_ex_seconds; test_set_with_px_millis; test_set_with_unknown_option_is_error;
   test_set_with_ex_missing_value_is_error; test_set_with_ex_non_integer_is_error;
   test_del_valid; test_incr_valid; test_empty_input; test_unknown_command;
   test_get_missing_key; test_get_extra_args; test_set_missing_args; test_del_missing_key;
   test_incr_missing_key; test_extra_whitespace; test_crlf_terminator; test_parse_bytes_get;
   test_parse_bytes_set; test_parse_bytes_empty; test_parse_bytes_unknown;
   test_frame_inline_ping; test_frame_inline_incomplete; test_frame_inline_empty_line;
   test_frame_inline_get; test_resp_ping; test_resp_get; test_resp_set; test_resp_set_with_ex;
   test_resp_set_with_px; test_resp_del; test_resp_incr; test_resp_incomplete_header;
   test_resp_incomplete_bulk; test_resp_empty_array; test_resp_null_array;
   test_resp_case_insensitive; test_resp_two_frames_in_buffer;
   test_resp_null_bulk_string_in_array; test_resp_unknown_command; test_resp_wrong_arg_count;
   test_exists_valid; test_exists_missing_key; test_ttl_valid; test_ttl_missing_key;
   test_expire_valid; test_expire_missing_args; test_expire_non_integer; test_flushdb_valid;
   test_flushdb_extra_args; test_keys_valid; test_keys_extra_args; test_resp_exists;
   test_resp_ttl; test_resp_expire; test_resp_flushdb; test_resp_keys;
   test_mget_valid_single_key; test_mget_valid_multiple_keys; test_mget_no_keys;
   test_mset_valid_single_pair; test_mset_valid_multiple_pairs; test_mset_no_args;
   test_mset_odd_args; test_resp_mget_single; test_resp_mget_multiple; test_resp_mget_no_keys;
   test_resp_mset_single_pair; test_resp_mset_multiple_pairs; test_resp_mset_odd_args].

(** * Responses *)

Definition test_pong : bool := eqb (serialize RPong) (lit "+PONG\r\n").
Definition test_ok : bool := eqb (serialize ROk) (lit "+OK\r\n").
Definition test_value_some : bool := eqb (serialize (RValue (Some (lit "hello")))) (lit "+hello\r\n").
Definition test_value_none : bool := eqb (serialize (RValue None)) (lit "$-1\r\n").
Definition test_integer : bool :=
  eqb (serialize (RInteger 42)) (lit ":42\r\n") && eqb (serialize (RInteger (-1))) (lit ":-1\r\n") &&
  eqb (serialize (RInteger 0)) (lit ":0\r\n").
Definition test_error_unknown_command : bool :=
  eqb (serialize (RError (Response.UnknownCommand (lit "FOO")))) (lit "-ERR unknown command 'FOO'\r\n").
Definition test_error_syntax : bool :=
  eqb (serialize (RError (Response.SyntaxError (lit "bad input")))) (lit "-ERR syntax: bad input\r\n").
Definition test_error_type : bool :=
  eqb (serialize (RError (TypeError (lit "not an integer")))) (lit "-ERR type: not an integer\r\n").
Definition test_error_not_found : bool :=
  eqb (serialize (RError (NotFound (lit "mykey")))) (lit "-ERR not found: mykey\r\n").
Definition test_error_internal : bool :=
  eqb (serialize (RError (InternalError (lit "oops")))) (lit "-ERR internal: oops\r\n").
Definition test_response_equality : bool :=
  eqb RPong RPong && eqb (RInteger 1) (RInteger 1) && negb (eqb RPong ROk).

Definition response_tests : list bool :=
  [test_pong; test_ok; test_value_some; test_value_none; test_integer;
   test_error_unknown_command; test_error_syntax; test_error_type; test_error_not_found;
   test_error_internal; test_response_equality].
