(* ===== verification/EngineTests.v ===== *)
(** The unit tests of [src/storage/dashmap_engine.rs], [src/application/dispatcher.rs] (with its
    mock engine) and [src/observability/metrics.rs], run on the model.

    A test is a program over a new engine: a failed assertion or an [unwrap] of an error panics,
    and the test passes if it returns. *)

From S2P Require Import Prelude RustStd Crates Domain Parser Metrics World Engine Response Dispatcher.
From S2P Require Import ParserTests.

(** * Running a test *)

(** A clock ten seconds after its epoch that advances a millisecond at each reading. *)
Program Definition test_clock : Clock := {| clk := λ i, from_secs 10 + Z.of_nat i * 1000000 |}.
Next Obligation. intros. simpl. lia. Qed.

#[local] Existing Instances gmap_dashmap test_clock itoa_display memchr_scan.

#[export] Instance ValueEntry_eq_dec : EqDecision ValueEntry.
Proof. solve_decision. Defined.

Section asserts.
Context {S : Type}.

(** [assert!] and [Result::unwrap] *)
Definition assert (b : bool) : ST S () := λ s, (if b then Val tt else Panic, s).
Definition unwrap {A E} (r : result A E) : ST S A :=
  λ s, (match r with Ok a => Val a | Err _ => Panic end, s).
Definition unwrap_some {A} (o : option A) : ST S A :=
  λ s, (match o with Some a => Val a | None => Panic end, s).

Definition passes (t : ST S ()) (s : S) : bool :=
  match (t s).1 with Val _ => true | _ => false end.
End asserts.

Abbreviation Map := (gmap bytes ValueEntry).
Abbreviation EW := (World (DashMapEngine Map)).
Abbreviation T A := (ST EW A).

(** A test over [DashMapEngine::new()] or [DashMapEngine::with_max_keys(n)]. *)
Definition on_engine (e : DashMapEngine Map) (t : T ()) : bool :=
  passes t (mkWorld e 0 (metrics_init 0) local_default).
Abbreviation on_new t := (on_engine engine_new t).

(** [engine.set(k, ValueEntry::new(v)).unwrap()] and [engine.get(k).unwrap()] *)
Definition put (k v : String.string) : T () :=
  e ← entry_new (lit v); r ← set (lit k) e; unwrap r.
Definition got (k : String.string) : T (option ValueEntry) := r ← get (lit k); unwrap r.
(** [engine.get(k).unwrap().unwrap().data] *)
Definition got_data (k : String.string) : T bytes := o ← got k; e ← unwrap_some o; mret (data e).

(** [entry.expires_at = Some(Instant::now() + offset)], set under [k]. *)
Definition put_until (k v : String.string) (offset : Z) : T () :=
  e ← entry_new (lit v); t ← now;
  r ← set (lit k) {| data := data e; expires_at := Some (t + offset); created_at := created_at e |};
  unwrap r.

(** [std::thread::sleep] for a number of milliseconds. *)
Definition sleep_ms (n : nat) : T () :=
  λ w, (Val tt, mkWorld (eng w) (n + tick w) (met w) (loc w)).

Definition len_is (n : Z) : T () := l ← len; assert (l =? n).

Fixpoint times (n : nat) (t : nat → T ()) : T () :=
  match n with O => mret tt | Datatypes.S n => times n t;; t n end.

(** * The engine *)

Definition test_set_and_get : bool :=
  on_new (put "hello" "world";; d ← got_data "hello"; assert (eqb d (lit "world"))).
Definition test_get_missing_key : bool :=
  on_new (o ← got "missing"; assert (eqb o None)).
Definition test_set_overwrites : bool :=
  on_new (put "key" "v1";; put "key" "v2";; d ← got_data "key"; assert (eqb d (lit "v2"))).
Definition test_del_existing : bool :=
  on_new (put "key" "val";; r ← del (lit "key"); b ← unwrap r; assert b;;
          o ← got "key"; assert (eqb o None)).
Definition test_del_missing : bool :=
  on_new (r ← del (lit "missing"); b ← unwrap r; assert (negb b)).
Definition test_incr_existing_integer : bool :=
  on_new (put "counter" "5";; r ← incr (lit "counter"); n ← unwrap r; assert (n =? 6);;
          d ← got_data "counter"; assert (eqb d (lit "6"))).
Definition test_incr_new_key : bool :=
  on_new (r ← incr (lit "new_counter"); n ← unwrap r; assert (n =? 1)).
Definition test_incr_non_integer : bool :=
  on_new (put "bad" "not_a_number";; r ← incr (lit "bad");
          assert match r with Err (EngNotAnInteger _) => true | _ => false end).
Definition test_exists_key_present : bool :=
  on_new (put "key" "val";; b ← exists_ (lit "key"); assert b).
Definition test_exists_key_missing : bool :=
  on_new (b ← exists_ (lit "missing"); assert (negb b)).
Definition test_exists_key_expired : bool :=
  on_new (put_until "expired" "val" (- from_secs 1);; b ← exists_ (lit "expired"); assert (negb b)).
Definition test_lazy_eviction_on_get : bool :=
  on_new (put_until "expired" "val" (- from_secs 1);; o ← got "expired"; assert (eqb o None)).
Definition test_ttl_key_missing : bool :=
  on_new (n ← ttl_secs (lit "missing"); assert (n =? -2)).
Definition test_ttl_no_expiry : bool :=
  on_new (put "key" "val";; n ← ttl_secs (lit "key"); assert (n =? -1)).
Definition test_ttl_with_expiry : bool :=
  on_new (put_until "key" "val" (from_secs 300);; n ← ttl_secs (lit "key");
          assert ((299 <=? n) && (n <=? 300))).
Definition test_expire_existing_key : bool :=
  on_new (put "key" "val";; b ← expire (lit "key") 60; assert b;; n ← ttl_secs (lit "key");
          assert ((59 <=? n) && (n <=? 60))).
Definition test_expire_missing_key : bool :=
  on_new (b ← expire (lit "missing") 60; assert (negb b)).
Definition test_sweep_expired : bool :=
  on_new (put "live" "val";; put_until "dead" "val" (- from_secs 1);; len_is 2;; sweep_expired;; len_is 1).
Definition test_clear_removes_all : bool :=
  on_new (put "k1" "v1";; put "k2" "v2";; clear;; len_is 0).
Definition test_binary_value : bool :=
  let binary := [Byte.x00; Byte.xff; Byte.xde; Byte.xad; Byte.xbe; Byte.xef] in
  on_new (e ← entry_new binary; r ← set (lit "bin") e; unwrap r;;
          d ← got_data "bin"; assert (eqb d binary)).
(** Ten threads of a hundred identical calls: every interleaving is this sequence. *)
Definition test_concurrent_incr : bool :=
  on_new (put "counter" "0";;
          times 10 (λ _, times 100 (λ _, r ← incr (lit "counter"); n ← unwrap r; mret tt));;
          d ← got_data "counter"; assert (eqb d (lit "1000"))).
Definition test_max_keys_evicts_oldest : bool :=
  on_engine (with_max_keys 3)
    (put "k1" "v1";; sleep_ms 10;; put "k2" "v2";; sleep_ms 10;; put "k3" "v3";; len_is 3;;
     put "k4" "v4";; len_is 3;;
     o ← got "k1"; assert (eqb o None);; o ← got "k2"; assert (negb (eqb o None));;
     o ← got "k3"; assert (negb (eqb o None));; o ← got "k4"; assert (negb (eqb o None))).
Definition test_max_keys_zero_is_unlimited : bool :=
  on_engine (with_max_keys 0)
    (times 100 (λ i, e ← entry_new (lit "v"); r ← set (lit "k" ++ display_u (Z.of_nat i)) e; unwrap r);;
     len_is 100).
Definition test_max_keys_allows_overwrite : bool :=
  on_engine (with_max_keys 2) (put "k1" "v1";; put "k2" "v2";; put "k1" "v1_new";; len_is 2).
Definition test_max_keys_evicts_with_mset : bool :=
  on_engine (with_max_keys 2) (put "k1" "v1";; put "k2" "v2";; put "k3" "v3";; len_is 2).
Definition test_max_keys_mset_overwrite_does_not_evict : bool :=
  on_engine (with_max_keys 2)
    (put "k1" "v1";; put "k2" "v2";; put "k1" "v1_new";; put "k2" "v2_new";; len_is 2).
Definition test_incr_preserves_ttl : bool :=
  on_new (put_until "counter" "5" (from_secs 60);; r ← incr (lit "counter"); n ← unwrap r;
          o ← got "counter"; e ← unwrap_some o; assert (eqb (data e) (lit "6"));;
          assert (negb (eqb (expires_at e) None))).
Definition test_incr_expired_key_resets : bool :=
  on_new (put_until "counter" "5" (- from_secs 1);; r ← incr (lit "counter"); n ← unwrap r;
          assert (n =? 1);; d ← got_data "counter"; assert (eqb d (lit "1"))).
Definition test_del_expired_returns_false : bool :=
  on_new (put_until "expired" "val" (- from_secs 1);; r ← del (lit "expired"); b ← unwrap r;
          assert (negb b)).
Definition test_mget_multiple_keys : bool :=
  on_new (put "k1" "v1";; put "k2" "v2";; l ← mget [lit "k1"; lit "k2"; lit "missing"];
          assert (eqb (option_map data <$> l) [Some (lit "v1"); Some (lit "v2"); None])).
Definition test_mget_empty_keys : bool := on_new (l ← mget []; assert (eqb l [])).
Definition test_mget_all_missing : bool :=
  on_new (l ← mget [lit "a"; lit "b"; lit "c"]; assert (forallb (λ o, eqb o None) l)).

Definition engine_tests : list bool :=
  [test_set_and_get; test_get_missing_key; test_set_overwrites; test_del_existing;
   test_del_missing; test_incr_existing_integer; test_incr_new_key; test_incr_non_integer;
   test_exists_key_present; test_exists_key_missing; test_exists_key_expired;
   test_lazy_eviction_on_get; test_ttl_key_missing; test_ttl_no_expiry; test_ttl_with_expiry;
   test_expire_existing_key; test_expire_missing_key; test_sweep_expired;
   test_clear_removes_all; test_binary_value; test_concurrent_incr; test_max_keys_evicts_oldest;
   test_max_keys_zero_is_unlimited; test_max_keys_allows_overwrite;
   test_max_keys_evicts_with_mset; test_max_keys_mset_overwrite_does_not_evict;
   test_incr_preserves_ttl; test_incr_expired_key_resets; test_del_expired_returns_false;
   test_mget_multiple_keys; test_mget_empty_keys; test_mget_all_missing].

(** * The dispatcher *)

(** [MockEngine]: a hash map behind a mutex that ignores deadlines. *)
Record MockEngine : Type := mkMock { mock_map : gmap bytes ValueEntry }.
Abbreviation MW := (World MockEngine).
Abbreviation D A := (ST MW A).

(** [map.get(key).map(|e| ValueEntry::new(e.data.clone()))] *)
Definition mock_copy (key : bytes) : D (option ValueEntry) :=
  m ← get_eng;
  match mock_map m !! key with
  | Some e => e ← entry_new (data e); mret (Some e)
  | None => mret None
  end.
Definition mock_get (key : bytes) : D (result (option ValueEntry) EngineError) :=
  o ← mock_copy key; mret (Ok o).
Definition mock_set (key : bytes) (value : ValueEntry) : D (result () EngineError) :=
  m ← get_eng; put_eng (mkMock (<[key := value]> (mock_map m)));; mret (Ok tt).
Definition mock_del (key : bytes) : D (result bool EngineError) :=
  m ← get_eng;
  put_eng (mkMock (delete key (mock_map m)));;
  mret (Ok (bool_decide (is_Some (mock_map m !! key)))).
(** [entry(..).or_insert_with(..)], then the update in place. *)
Definition mock_incr (key : bytes) : D (result Z EngineError) :=
  m ← get_eng;
  e ← match mock_map m !! key with Some e => mret e | None => entry_new (str "0") end;
  put_eng (mkMock (<[key := e]> (mock_map m)));;
  match parse_i64 (from_utf8_lossy (data e)) with
  | None => mret (Err (EngNotAnInteger key))
  | Some val =>
      let new_val := i64 (val + 1) in
      let e := {| data := display_i new_val; expires_at := expires_at e; created_at := created_at e |} in
      put_eng (mkMock (<[key := e]> (mock_map m)));;
      mret (Ok new_val)
  end.
Definition mock_len : D Z := m ← get_eng; mret (Z.of_nat (size (mock_map m))).
Definition mock_exists (key : bytes) : D bool :=
  m ← get_eng; mret (bool_decide (is_Some (mock_map m !! key))).
Definition mock_ttl_secs (key : bytes) : D Z := mret (-1).
Definition mock_expire (key : bytes) (seconds : Z) : D bool := mret false.
Definition mock_clear : D () := put_eng (mkMock ∅).
Definition mock_keys : D (list bytes) := m ← get_eng; mret (map_to_list (mock_map m)).*1.
Fixpoint mock_mget (keys : list bytes) : D (list (option ValueEntry)) :=
  match keys with
  | [] => mret []
  | key :: keys => o ← mock_copy key; l ← mock_mget keys; mret (o :: l)
  end.

#[local] Instance mock_engine : KvEngine MockEngine := {|
  kv_get := mock_get; kv_set := mock_set; kv_del := mock_del; kv_incr := mock_incr;
  kv_len := mock_len; kv_exists := mock_exists; kv_ttl_secs := mock_ttl_secs;
  kv_expire := mock_expire; kv_clear := mock_clear; kv_keys := mock_keys; kv_mget := mock_mget
|}.

(** A test over [MockEngine::new()]; [answered] is [assert_eq!(dispatch(&engine, cmd), resp)]. *)
Definition on_mock (t : D ()) : bool :=
  passes t (mkWorld (mkMock ∅) 0 (metrics_init 0) local_default).
Definition answered (cmd : Command) (resp : Response) : D () :=
  r ← dispatch cmd; assert (eqb r resp).

Definition test_dispatch_ping : bool := on_mock (answered CPing RPong).
Definition test_dispatch_set_and_get : bool :=
  on_mock (answered (CSet (lit "k") (lit "v") None) ROk;;
           answered (CGet (lit "k")) (RValue (Some (lit "v")))).
Definition test_dispatch_get_missing : bool := on_mock (answered (CGet (lit "missing")) (RValue None)).
Definition test_dispatch_del : bool :=
  on_mock (dispatch (CSet (lit "k") (lit "v") None);; answered (CDel (lit "k")) (RInteger 1);;
           answered (CDel (lit "k")) (RInteger 0)).
Definition test_dispatch_incr : bool :=
  on_mock (answered (CIncr (lit "c")) (RInteger 1);; answered (CIncr (lit "c")) (RInteger 2)).
Definition test_dispatch_mget : bool :=
  on_mock (dispatch (CSet (lit "a") (lit "1") None);; dispatch (CSet (lit "b") (lit "2") None);;
           answered (CMget [lit "a"; lit "missing"; lit "b"])
             (RArray [Some (lit "1"); None; Some (lit "2")])).
Definition test_dispatch_mset : bool :=
  on_mock (answered (CMset [(lit "k1", lit "v1"); (lit "k2", lit "v2")]) ROk;;
           answered (CGet (lit "k1")) (RValue (Some (lit "v1")));;
           answered (CGet (lit "k2")) (RValue (Some (lit "v2")))).

Definition dispatcher_tests : list bool :=
  [test_dispatch_ping; test_dispatch_set_and_get; test_dispatch_get_missing; test_dispatch_del;
   test_dispatch_incr; test_dispatch_mget; test_dispatch_mset].

(** * Metrics *)

(** The counters of the test's thread beside the global ones; both start at zero. *)
Abbreviation MM := (Metrics * LocalCounters)%type.
Definition metrics_for_test : MM := (metrics_init 0, local_default).
Abbreviation then_ f := (λ ml : MM, f ml.1 ml.2).

Definition test_record_command_increments_total_and_per_type : bool :=
  let ml := then_ flush_all (then_ (record_command TSet) (then_ (record_command TGet)
              (then_ (record_command TGet) metrics_for_test))) in
  (total_commands ml.1 ml.2 =? 3) && (command_count ml.1 ml.2 TGet =? 2) &&
  (command_count ml.1 ml.2 TSet =? 1) && (command_count ml.1 ml.2 TPing =? 0).
Definition test_hit_miss_tracking : bool :=
  let ml := then_ flush_all (then_ record_miss (then_ record_hit (then_ record_hit metrics_for_test))) in
  (keyspace_hits ml.1 =? 2) && (keyspace_misses ml.1 =? 1).
Definition test_connection_tracking : bool :=
  let m := connection_closed (connection_opened (connection_opened metrics_for_test.1)) in
  (connections_total m =? 2) && (connections_active m =? 1).

Definition metrics_tests : list bool :=
  [test_record_command_increments_total_and_per_type; test_hit_miss_tracking; test_connection_tracking].
