(* ===== verification/StorageTests.v ===== *)
(** The unit tests of [src/storage/aof.rs] and [src/storage/snapshot.rs], run on the model.
    A file of a test is the bytes it holds; paths, directories and their removal are left out. *)

From S2P Require Import Prelude RustStd Crates Domain Metrics World Engine Response Dispatcher Aof.
From S2P Require Import Snapshot ParserTests EngineTests.

(** * The checksum *)

(** CRC-32 as the [crc32fast] crate computes it (polynomial EDB88320, reflected). *)
Definition crc_bit (c : Z) : Z :=
  if Z.testbit c 0 then Z.lxor 3988292384 (Z.shiftr c 1) else Z.shiftr c 1.
Definition crc_byte (c : Z) (b : byte) : Z := Nat.iter 8 crc_bit (Z.lxor c (bval b)).
Program Definition crc32_ieee : Crc32 := {|
  crc32_hash := λ l, u32 (Z.lxor (foldl crc_byte 4294967295 l) 4294967295)
|}.
Next Obligation. intros l. by apply Z.mod_pos_bound. Qed.

#[local] Existing Instances gmap_dashmap test_clock itoa_display crc32_ieee.

Example crc32_check : crc32_hash (str "123456789") = 3421780262.
Proof. by vm_compute. Qed.

(** * Helpers *)

(** [engine.get(k).unwrap().unwrap().data] compared, and a new engine in place of the last. *)
Definition holds_data (k : String.string) (v : bytes) : T () := d ← got_data k; assert (eqb d v).
Definition is_gone (k : String.string) : T () := o ← got k; assert (eqb o None).
Definition new_engine : T () := put_eng engine_new.

Definition put_ttl (k v : String.string) (ttl : Duration) : T () :=
  e ← entry_with_ttl (lit v) ttl; r ← set (lit k) e; unwrap r.

(** * [src/storage/aof.rs] *)

(** The records the tests build by hand. *)
Definition set_record (k v : bytes) (ttl_ms : Z) : bytes :=
  encode_ttl (encode_value (encode_key [CMD_SET] k) v) ttl_ms.
Definition del_record (k : bytes) : bytes := encode_key [CMD_DEL] k.
Definition incr_record (k : bytes) : bytes := encode_key [CMD_INCR] k.

(** [AofWriter::new] on a missing file, [append_raw] for each record, then [flush]: the file. *)
Definition aof_written (policy : FsyncPolicy) (records : list bytes) : T bytes :=
  t ← now;
  let a := foldl (λ a r, append_raw r t t a) (aof_new [] policy t) records in
  mret (file (flush a)).
(** [replay_aof(&engine, &path).unwrap()] *)
Definition replayed (f : result bytes IoError) : T Z := r ← replay_aof f; unwrap r.

Definition test_append_and_replay_roundtrip : bool :=
  on_new (put "k1" "v1";; put "k2" "v2";;
          f ← aof_written Always [set_record (lit "k1") (lit "v1") (-1);
                              set_record (lit "k2") (lit "v2") (-1)];
          new_engine;;
          n ← replayed (Ok f); assert (n =? 2);;
          holds_data "k1" (lit "v1");; holds_data "k2" (lit "v2")).
Definition test_ttl_preserved_in_aof : bool :=
  on_new (f ← aof_written No [set_record (lit "ttl_key") (lit "val") 300000];
          replayed (Ok f);;
          o ← got "ttl_key"; e ← unwrap_some o;
          assert (eqb (data e) (lit "val"));; assert (negb (eqb (expires_at e) None))).
Definition test_del_removes_key : bool :=
  on_new (f ← aof_written No [set_record (lit "k1") (lit "v1") (-1); del_record (lit "k1")];
          replayed (Ok f);; is_gone "k1").
Definition test_incr_replay : bool :=
  on_new (f ← aof_written No (replicate 3 (incr_record (lit "counter")));
          replayed (Ok f);; holds_data "counter" (lit "3")).
Definition test_rewrite_compacts_aof : bool :=
  on_new (put "k1" "v1";; put "k2" "v2";;
          '(tmp, count) ← rewrite_aof; assert (count =? 2);;
          new_engine;;
          n ← replayed (Ok tmp); assert (n =? 2);;
          holds_data "k1" (lit "v1");; holds_data "k2" (lit "v2")).
Definition test_aof_missing_file_returns_zero : bool :=
  on_new (n ← replayed (Err IoNotFound); assert (n =? 0)).
Definition test_binary_values_in_aof : bool :=
  let binary := [Byte.x00; Byte.xff; Byte.xde; Byte.xad; Byte.xbe; Byte.xef] in
  on_new (f ← aof_written No [set_record (lit "bin") binary (-1)];
          replayed (Ok f);; holds_data "bin" binary).
Definition test_mset_replay : bool :=
  let buf := [CMD_MSET] ++ le_bytes 2 2 in
  let buf := encode_value (encode_key buf (lit "k1")) (lit "v1") in
  let buf := encode_value (encode_key buf (lit "k2")) (lit "v2") in
  on_new (f ← aof_written No [buf];
          replayed (Ok f);; holds_data "k1" (lit "v1");; holds_data "k2" (lit "v2")).
Definition test_truncated_aof_does_not_panic : bool :=
  on_new (n ← replayed (Ok [CMD_SET; Byte.x00]); assert (n =? 0)).

Definition aof_tests : list bool :=
  [test_append_and_replay_roundtrip; test_ttl_preserved_in_aof; test_del_removes_key;
   test_incr_replay; test_rewrite_compacts_aof; test_aof_missing_file_returns_zero;
   test_binary_values_in_aof; test_mset_replay; test_truncated_aof_does_not_panic].

(** * [src/storage/snapshot.rs] *)

(** [SystemTime::now()] in milliseconds, at a dump. *)
Definition dump_time : Z := 1700000000000.
Definition dumped : T (bytes * Z) := dump_snapshot dump_time.
(** [load_snapshot(&engine, &path).unwrap()] *)
Definition loaded (f : result bytes IoError) : T Z := r ← load_snapshot f; unwrap r.

(** [err.to_string().contains(word)] *)
Fixpoint contains (word l : bytes) : bool :=
  bool_decide (take (length word) l = word) ||
  match l with [] => false | _ :: l => contains word l end.
Definition error_contains (word : String.string) (r : result Z IoError) : bool :=
  match r with Err (IoInvalidData message) => contains (str word) message | _ => false end.

Definition test_dump_and_load_roundtrip : bool :=
  on_new (put "k1" "v1";; put "k2" "v2";; put "k3" "hello world";;
          '(f, count) ← dumped; assert (count =? 3);;
          new_engine;;
          n ← loaded (Ok f); assert (n =? 3);;
          holds_data "k1" (lit "v1");; holds_data "k2" (lit "v2");;
          holds_data "k3" (lit "hello world")).
Definition test_ttl_preserved : bool :=
  on_new (put_ttl "ttl_key" "val" (from_secs 300);;
          '(f, _) ← dumped;
          new_engine;;
          loaded (Ok f);;
          o ← got "ttl_key"; e ← unwrap_some o;
          assert (eqb (data e) (lit "val"));; assert (negb (eqb (expires_at e) None))).
Definition test_expired_entries_skipped : bool :=
  on_new (put "live" "yes";; put_ttl "dead" "no" (from_millis 1);; sleep_ms 5;;
          '(f, count) ← dumped; assert (count =? 1);;
          new_engine;;
          loaded (Ok f);; holds_data "live" (lit "yes");; is_gone "dead").
(** [data[mid] ^= 0xFF] *)
Definition flip (i : nat) (l : bytes) : bytes :=
  match l !! i with Some b => <[i := byte_of_Z (Z.lxor (bval b) 255)]> l | None => l end.
Definition test_crc_detects_corruption : bool :=
  on_new (put "k" "v";;
          '(f, _) ← dumped;
          new_engine;;
          r ← load_snapshot (Ok (flip (length f / 2) f));
          assert (error_contains "CRC" r)).
Definition test_snapshot_missing_file_returns_zero : bool :=
  on_new (n ← loaded (Err IoNotFound); assert (n =? 0)).
Definition test_wrong_magic : bool :=
  let data := str "BAD1" ++ [Byte.x01] ++ replicate 17 Byte.x00 in
  on_new (r ← load_snapshot (Ok data); assert (error_contains "magic" r)).
Definition test_binary_values : bool :=
  let binary := [Byte.x00; Byte.xff; Byte.xde; Byte.xad; Byte.xbe; Byte.xef] in
  on_new (e ← entry_new binary; r ← set (lit "bin") e; unwrap r;;
          '(f, _) ← dumped;
          new_engine;;
          loaded (Ok f);; holds_data "bin" binary).
(** The file is cut after its first entry, its count set to one and its checksum renewed. *)
Definition test_truncated_snapshot_does_not_panic : bool :=
  on_new (put "k1" "v1";; put "k2" "v2";;
          '(f, _) ← dumped;
          assert (le_val (take 4 (drop 6 f)) =? 2);;
          let pos := HEADER_SIZE in
          let first_key_len := Z.to_nat (le_val (take 2 (drop pos f))) in
          let pos := (pos + 2)%nat in
          let first_key := from_utf8_lossy (take first_key_len (drop pos f)) in
          let pos := (pos + first_key_len)%nat in
          let first_val_len := Z.to_nat (le_val (take 4 (drop pos f))) in
          let pos := (pos + 4 + first_val_len + 8)%nat in
          let f := take pos f in
          let f := take 6 f ++ le_bytes 4 1 ++ drop 10 f in
          let f := f ++ le_bytes 4 (crc32_hash f) in
          new_engine;;
          n ← loaded (Ok f); k1 ← got "k1"; k2 ← got "k2"; assert (n =? 1);;
          if eqb first_key (lit "k1") then
            e ← unwrap_some k1; assert (eqb (data e) (lit "v1"));; assert (eqb k2 None)
          else
            e ← unwrap_some k2; assert (eqb (data e) (lit "v2"));; assert (eqb k1 None)).

Definition snapshot_tests : list bool :=
  [test_dump_and_load_roundtrip; test_ttl_preserved; test_expired_entries_skipped;
   test_crc_detects_corruption; test_snapshot_missing_file_returns_zero; test_wrong_magic;
   test_binary_values; test_truncated_snapshot_does_not_panic].
