(* ===== verification/Server.v ===== *)
(** [src/server/tcp.rs] and the background tasks of [src/storage/aof.rs] and
    [src/storage/snapshot.rs]: accepting connections up to a limit, draining at shutdown, and
    one tick of each ticker on the shared state. *)

From S2P Require Import Prelude RustStd Crates Domain Parser ParserBorrowed Metrics World Engine.
From S2P Require Import Response Dispatcher Aof Snapshot Session.

Definition DRAIN_TIMEOUT : Duration := from_secs 5.
Definition DRAIN_POLL_INTERVAL : Duration := from_millis 50.

Section server.
Context {M : Type} {DM : DashMap bytes ValueEntry M} {CL : Clock} {IT : Itoa} {MC : Memchr}
  {C32 : Crc32}.
Abbreviation SW := (SWorld (M := M)).

(** * Connections *)

(** The counter [active_conns] and what the sessions share. *)
Record Server : Type := mkServer { active_conns : Z; shared : SW }.

(** The spawned task: the session, then [fetch_sub]; a panic unwinds past the [fetch_sub] and
    a blocked session never reaches it. *)
Definition session_task (write_timeout : Duration) (metrics_enabled : bool)
    (events : list NetEvent) : ST Server bytes :=
  λ sv, let '(o, s) := handle_session write_timeout metrics_enabled events (shared sv) in
        match o with
        | Val sent => (Val sent, mkServer (usize (active_conns sv - 1)) s)
        | Panic => (Panic, mkServer (active_conns sv) s)
        | Stuck => (Stuck, mkServer (active_conns sv) s)
        end.

Definition refusal : bytes := str "-ERR max connections reached" ++ crlf.

(** The accept arm of the select: what the client is sent. *)
Definition accept (max_conns : Z) (write_timeout : Duration) (metrics_enabled : bool)
    (events : list NetEvent) : ST Server bytes :=
  λ sv, if (0 <? max_conns) && (max_conns <=? active_conns sv) then (Val refusal, sv)
        else session_task write_timeout metrics_enabled events
               (mkServer (usize (active_conns sv + 1)) (shared sv)).

(** Clients one after the other; a task that panics does not stop the server. *)
Fixpoint serve (max_conns : Z) (write_timeout : Duration) (metrics_enabled : bool)
    (clients : list (list NetEvent)) (sv : Server) : list (outcome bytes) * Server :=
  match clients with
  | [] => ([], sv)
  | events :: clients =>
      let '(o, sv) := accept max_conns write_timeout metrics_enabled events sv in
      let '(os, sv) := serve max_conns write_timeout metrics_enabled clients sv in
      (o :: os, sv)
  end.

(** * Shutdown *)

(** A change of the append-only file, if there is one. *)
Definition update_aof (f : AofWriter → AofWriter) : ST SW () :=
  λ s, (Val tt, mkSWorld (sw s) (f <$> aof s)).

(** The drain loop: the counter and the time since its start at each turn, from turn [i];
    the turn it leaves at. *)
Fixpoint drain (fuel : nat) (remaining : nat → Z) (elapsed : nat → Duration) (i : nat) :
    option nat :=
  match fuel with
  | O => None
  | S fuel =>
      if remaining i =? 0 then Some i
      else if DRAIN_TIMEOUT <? elapsed i then Some i
      else drain fuel remaining elapsed (S i)
  end.

(** The pending batch is flushed once the connections are drained. *)
Definition shutdown_flush : ST SW () := update_aof flush.

(** * Tickers *)

(** A tick of [run_aof_fsync]. *)
Definition aof_fsync_tick : ST SW () :=
  λ s, let w := sw s in
       (Val tt, mkSWorld (mkWorld (eng w) (2 + tick w) (met w) (loc w))
                  (flush_if_needed (clk (tick w)) (clk (1 + tick w)) <$> aof s)).

(** A tick of [run_aof_rewriter]; [others] is what the other tasks do between the dump of the
    store and the lock that [finalize_rewrite] takes. *)
Definition aof_rewriter_tick (threshold_bytes : Z) (others : ST SW ()) : ST SW () :=
  size ← (λ s, (Val (file_size <$> aof s), s));
  match size with
  | None => mret tt
  | Some file_size =>
      if file_size <? threshold_bytes then mret tt
      else r ← lift_w rewrite_aof; others;; update_aof (finalize_rewrite r.1)
  end.

(** A tick of [run_snapshotter], and the final snapshot of [main]: the content of the file. *)
Definition snapshotter_tick (timestamp : Z) : ST SW bytes :=
  r ← lift_w (dump_snapshot timestamp); mret r.1.
End server.
