(* ===== verification/ServerProps.v ===== *)
(** Correctness of the server around its sessions: the connection limit, the drain at
    shutdown and the rewriting of the log, and how panicking sessions use up the limit. *)

From S2P Require Import Prelude RustStd Crates Domain Parser InlineFacts RespFacts ParserProps.
From S2P Require Import ParserBorrowed Metrics World Engine EngineFacts EvictFacts StoreSpec.
From S2P Require Import EngineProps Response Dispatcher DispatcherProps Aof AofFacts RestoreFacts.
From S2P Require Import AofProps Snapshot Session SessionProps Server.

Section props.
Context {M : Type} {DM : DashMap bytes ValueEntry M} {CL : Clock} {IT : Itoa} {MC : Memchr}
  {C32 : Crc32}.
Abbreviation SW := (SWorld (M := M)).
Implicit Types (s : SW) (sv : Server (M := M)).

(** * The connection limit *)

(** Sessions that did not come back. *)
Definition lost (o : outcome bytes) : bool := match o with Val _ => false | _ => true end.
Definition lost_count (os : list (outcome bytes)) : Z :=
  Z.of_nat (length (List.filter lost os)).

Lemma usize_small z : 0 ≤ z < 2 ^ 64 → usize z = z.
Proof. apply Z.mod_small. Qed.

(** One client: refused at the limit, and otherwise its slot comes back unless its session is
    lost. *)
Lemma accept_slots max wt m events sv o sv' :
  0 < max < 2 ^ 64 → 0 ≤ active_conns sv ≤ max → accept max wt m events sv = (o, sv') →
  active_conns sv' = active_conns sv + lost_count [o] ∧ active_conns sv' ≤ max ∧
  (active_conns sv = max → o = Val refusal).
Proof.
  intros Hmax Hsv. unfold accept. rewrite (proj2 (Z.ltb_lt 0 max)) by lia. cbn [andb].
  destruct (Z.leb_spec max (active_conns sv)).
  { intros [= <- <-]. unfold lost_count. simpl. split_and!; [lia | lia | done]. }
  unfold session_task. cbn [shared active_conns]. rewrite (usize_small (active_conns sv + 1)) by lia.
  destruct (handle_session wt m events (shared sv)) as [[sent| |] s]; intros [= <- <-];
    unfold lost_count; cbn [active_conns]; simpl; rewrite ?usize_small by lia; split_and!; lia.
Qed.

(** The connection limit: at most [max_conns] slots are ever taken, a slot comes back when
    its session ends, and the only slots that do not are those of sessions that panicked or
    blocked. *)
Theorem serve_slots max wt m clients sv os sv' :
  0 < max < 2 ^ 64 → 0 ≤ active_conns sv ≤ max → serve max wt m clients sv = (os, sv') →
  active_conns sv' = active_conns sv + lost_count os ∧ active_conns sv' ≤ max.
Proof.
  intros Hmax. revert sv os. induction clients as [|events clients IH]; intros sv os Hsv; cbn [serve].
  { intros [= <- <-]. unfold lost_count. simpl. lia. }
  destruct (accept max wt m events sv) as [o sv1] eqn:Ha.
  destruct (accept_slots _ _ _ _ _ _ _ Hmax Hsv Ha) as (H1 & H2 & _).
  destruct (serve max wt m clients sv1) as [os1 sv2] eqn:Hs. intros [= <- <-].
  destruct (IH sv1 os1) as [H3 H4]; [unfold lost_count in *; lia | done |].
  split; [|done]. rewrite H3, H1. unfold lost_count. simpl. destruct (lost o); simpl; lia.
Qed.

(** A client that sends one bare LF, whatever it does next. *)
Definition lf_client (more : list NetEvent) : list NetEvent := mkEvent (ReadData [LF]) true :: more.

Lemma fast_lf_panics wb s : fast_batch [LF] wb s = (Panic, s).
Proof.
  unfold fast_batch. rewrite bool_decide_eq_false_2 by done. cbn [length fast_inline_loop].
  unfold parse_inline_borrowed, line_end, lift_o, mbind, st_bind. cbn. by rewrite memchr2_position.
Qed.

Lemma lf_session wt m more s : (handle_session wt m (lf_client more) s).1 = Panic.
Proof.
  assert (∀ timed batch (s1 : SW), (∀ wb s, batch [LF] wb s = (Panic, s)) →
    session_loop timed batch (lf_client more) [] [] [] s1 = (Panic, s1)) as H.
  { intros timed batch s1 Hb. cbn [lf_client session_loop net_read app].
    rewrite (proj2 (Z.ltb_ge _ _)) by (by vm_compute). unfold mbind, st_bind. by rewrite Hb. }
  unfold handle_session, lift_w, aof_open, get_metrics, put_metrics, mbind, st_bind, mret, st_ret.
  destruct m; cbn -[session_loop lf_client as_secs];
    match goal with |- context [if ?b then session_loop _ _ _ _ _ _ else _] => destruct b end;
    by rewrite H by auto using fast_lf_panics, lone_lf_panics.
Qed.

(** A panic leaks its slot: as many clients as the limit allows, each sending a bare LF,
    and from then on every client is refused. *)
Theorem lf_clients_lock_out max wt m (mores clients : list (list NetEvent)) sv :
  0 < max < 2 ^ 64 → active_conns sv = 0 → Z.of_nat (length mores) = max →
  (serve max wt m ((lf_client <$> mores) ++ clients) sv).1 =
  repeat Panic (length mores) ++ repeat (Val refusal) (length clients).
Proof.
  intros Hmax Hsv Hlen.
  assert (∀ sv, active_conns sv + Z.of_nat (length mores) = max → 0 ≤ active_conns sv →
    (serve max wt m ((lf_client <$> mores) ++ clients) sv).1 =
    repeat Panic (length mores) ++ repeat (Val refusal) (length clients)) as H; [|apply H; lia].
  clear sv Hsv Hlen. induction mores as [|more mores IH]; intros sv Hlen Hsv.
  - cbn [fmap list_fmap length repeat app] in *. revert sv Hlen Hsv.
    induction clients as [|events clients IH]; intros sv Hlen Hsv; [done|].
    cbn [serve length repeat]. destruct (accept max wt m events sv) as [o sv1] eqn:Ha.
    destruct (accept_slots max wt m events sv o sv1) as (H1 & H2 & ->); [done | lia | done | |lia].
    specialize (IH sv1). destruct (serve max wt m clients sv1) as [os sv2]. simpl in *.
    rewrite IH; [done | |]; unfold lost_count in H1; simpl in H1; lia.
  - cbn [length] in Hlen. cbn [fmap list_fmap length repeat app serve].
    unfold accept. rewrite (proj2 (Z.leb_gt max (active_conns sv))), andb_false_r by lia.
    unfold session_task. cbn [shared active_conns]. pose proof (lf_session wt m more (shared sv)) as Hp.
    destruct (handle_session wt m (lf_client more) (shared sv)) as [o s1]. simpl in Hp. subst o.
    rewrite usize_small by lia. specialize (IH (mkServer (active_conns sv + 1) s1)).
    cbn [active_conns] in IH. unfold fmap in IH.
    destruct (serve max wt m _ (mkServer _ s1)) as [os sv2]. simpl in *. rewrite IH; [done | lia | lia].
Qed.

(** * Shutdown *)

(** The drain ends: whatever the sessions do, the loop leaves after at most 101 polls of 50 ms,
    and it leaves early only when no connection is left or more than five seconds have
    passed. *)
Theorem drain_ends remaining elapsed :
  (∀ i, Z.of_nat i * DRAIN_POLL_INTERVAL ≤ elapsed i) →
  ∃ i, drain 102 remaining elapsed 0 = Some i ∧ (i ≤ 101)%nat ∧
    (remaining i = 0 ∨ DRAIN_TIMEOUT < elapsed i).
Proof.
  intros He.
  assert (∀ n i, (n + i = 101)%nat → ∃ j, drain (S n) remaining elapsed i = Some j ∧ (j ≤ 101)%nat ∧
    (remaining j = 0 ∨ DRAIN_TIMEOUT < elapsed j)) as H; [|by apply H].
  induction n as [|n IH]; intros i Hi; cbn [drain].
  - simpl in Hi. subst i. destruct (Z.eqb_spec (remaining 101%nat) 0); [eauto|].
    specialize (He 101%nat). unfold DRAIN_POLL_INTERVAL, DRAIN_TIMEOUT, from_millis, from_secs in *.
    rewrite (proj2 (Z.ltb_lt _ _)) by lia. exists 101%nat. split_and!; [done | lia | right; lia].
  - destruct (Z.eqb_spec (remaining i) 0); [exists i; split_and!; [done | lia | by left]|].
    destruct (Z.ltb_spec DRAIN_TIMEOUT (elapsed i)); [exists i; split_and!; [done | lia | by right]|].
    apply (IH (S i)). lia.
Qed.

(** * Rewriting the log *)

(** A tick over the threshold replaces the log by the dump, whatever was in the batch. *)
Lemma rewriter_tick_below th others s a :
  aof s = Some a → file_size a < th → aof_rewriter_tick th others s = (Val tt, s).
Proof.
  intros Ha Hth. unfold aof_rewriter_tick, mbind, st_bind. rewrite Ha.
  cbn [fmap option_fmap option_map]. by rewrite (proj2 (Z.ltb_lt _ _)).
Qed.

Lemma rewriter_tick_run th others s a tmp n w1 s' :
  aof s = Some a → th ≤ file_size a → rewrite_aof (sw s) = (Val (tmp, n), w1) →
  others (mkSWorld w1 (Some a)) = (Val tt, s') →
  aof_rewriter_tick th others s = (Val tt, mkSWorld (sw s') (finalize_rewrite tmp <$> aof s')).
Proof.
  intros Ha Hth Hr Ho. unfold aof_rewriter_tick, lift_w, update_aof, mbind, st_bind, mret, st_ret.
  rewrite Ha. cbn [fmap option_fmap option_map]. rewrite (proj2 (Z.ltb_ge _ _)) by done.
  rewrite Hr, Ha. by rewrite Ho.
Qed.

(** C37: a tick of the log rewriter while no other task writes.  Below the threshold it changes
    nothing.  From the threshold on, the new log, alone, replays into an empty store to
    every entry visible at the tick that had no deadline, with its value and without one, or at
    least a millisecond left, with its value and the same number of whole milliseconds left, and to
    no key that was not visible; the batch is empty and the store itself untouched.  Keys are UTF-8 of up to 65535 bytes,
    values below 4 GiB. *)
Theorem rewriter_tick_replays th s a w2 :
  aof s = Some a →
  max_keys (eng w2) = 0 → (∀ k, dm_get (emap (eng w2)) k = None) →
  clock_ok w2 (length (dumped_of (sw s))) →
  Forall (λ d, key_ok d.1.1 ∧ value_ok d.1.2) (dumped_of (sw s)) →
  if decide (file_size a < th) then aof_rewriter_tick th (mret tt) s = (Val tt, s)
  else ∃ s' a' n w3, aof_rewriter_tick th (mret tt) s = (Val tt, s') ∧ eng (sw s') = eng (sw s) ∧
    aof s' = Some a' ∧ batch_buffer a' = [] ∧
    replay_aof (Ok (file a')) w2 = (Val (Ok n), w3) ∧
    recovered (sw s) w3 (clk (tick w2)) (clk (tick w3)).
Proof.
  intros Ha Hmk He Hc Hok. case_decide as Hth; [by eapply rewriter_tick_below|].
  destruct (rewrite_replays (sw s) w2) as (tmp & n & w1 & w3 & E1 & E2 & Hrec); try done.
  eexists _, (finalize_rewrite tmp a), n, w3.
  split_and!; [eapply rewriter_tick_run; [done | lia | done..] | | done | | done | by apply dump_recovered].
  - unfold rewrite_aof, mbind, st_bind in E1. rewrite dump_run in E1. by injection E1 as _ _ <-.
  - unfold finalize_rewrite. cbn [batch_buffer]. by destruct (drain_batch_file a).
Qed.

(** An entry logged by another task between the dump and the swap is lost: the log after
    the tick is the same as without it. *)
Theorem rewrite_window_loses th e s a :
  aof s = Some a → th ≤ file_size a →
  file <$> aof (aof_rewriter_tick th (append_entry e) s).2 =
    file <$> aof (aof_rewriter_tick th (mret tt) s).2 ∧
  batch_buffer <$> aof (aof_rewriter_tick th (append_entry e) s).2 = Some [].
Proof.
  intros Ha Hth. destruct (rewrite_aof (sw s)) as [[[tmp n]| |] w1] eqn:Hr; try done.
  rewrite (rewriter_tick_run th (mret tt) s a tmp n w1 (mkSWorld w1 (Some a))) by done.
  erewrite (rewriter_tick_run th (append_entry e) s a tmp n w1) by done. cbn.
  split; [done|]. f_equal. apply drain_batch_file.
Qed.
End props.

(** * Witnesses *)

Section witnesses.
#[local] Existing Instances gmap_dashmap ms_clock itoa_display memchr_scan crc32_sum.

Definition wit_server : Server (M := gmap bytes ValueEntry) := mkServer 0 wit_conn.
Definition wit_logged : SWorld (M := gmap bytes ValueEntry) :=
  mkSWorld wit_mixed (Some (aof_new (str "old") Always 0)).
Definition wit_ping : list NetEvent := [mkEvent (ReadData (str "PING" ++ crlf)) true].

Lemma serve_slots_witness :
  let r := serve 2 0 true [lf_client []; wit_ping] wit_server in
  r.1 = [Panic; Val (str "+PONG" ++ crlf)] ∧
  active_conns r.2 = active_conns wit_server + lost_count r.1 ∧ active_conns r.2 ≤ 2.
Proof.
  split; [by vm_compute|].
  apply (serve_slots 2 0 true [lf_client []; wit_ping] wit_server); [done | done | apply surjective_pairing].
Defined.

Lemma lf_clients_lock_out_witness :
  (serve 1 0 false [lf_client []; wit_ping] wit_server).1 = [Panic; Val refusal].
Proof. by apply (lf_clients_lock_out 1 0 false [[]] [wit_ping] wit_server). Defined.

Lemma drain_ends_witness :
  ∃ i, drain 102 (λ _, 1) (λ i, Z.of_nat i * DRAIN_POLL_INTERVAL) 0 = Some i ∧ (i ≤ 101)%nat ∧
    (1 = 0 ∨ DRAIN_TIMEOUT < Z.of_nat i * DRAIN_POLL_INTERVAL).
Proof. by apply (drain_ends (λ _, 1) (λ i, Z.of_nat i * DRAIN_POLL_INTERVAL)). Defined.

Lemma rewriter_tick_replays_witness :
  aof_rewriter_tick 4 (mret tt) wit_logged = (Val tt, wit_logged) ∧
  ∃ s' a' n w3, aof_rewriter_tick 3 (mret tt) wit_logged = (Val tt, s') ∧
    eng (sw s') = eng wit_mixed ∧ aof s' = Some a' ∧ batch_buffer a' = [] ∧
    replay_aof (Ok (file a')) wit_empty = (Val (Ok n), w3) ∧
    recovered wit_mixed w3 (clk (tick wit_empty)) (clk (tick w3)).
Proof.
  split.
  - apply (rewriter_tick_replays 4 wit_logged (aof_new (str "old") Always 0) wit_empty);
      [reflexivity | reflexivity | intros k; reflexivity | by vm_compute | apply wit_mixed_ok].
  - apply (rewriter_tick_replays 3 wit_logged (aof_new (str "old") Always 0) wit_empty);
      [reflexivity | reflexivity | intros k; reflexivity | by vm_compute | apply wit_mixed_ok].
Defined.

Lemma rewrite_window_loses_witness :
  file <$> aof (aof_rewriter_tick 3 (append_entry [CMD_FLUSHDB]) wit_logged).2 =
    file <$> aof (aof_rewriter_tick 3 (mret tt) wit_logged).2 ∧
  batch_buffer <$> aof (aof_rewriter_tick 3 (append_entry [CMD_FLUSHDB]) wit_logged).2 = Some [].
Proof. by apply (rewrite_window_loses 3 [CMD_FLUSHDB] wit_logged (aof_new (str "old") Always 0)). Defined.
End witnesses.
