(* ===== verification/EndToEnd.v ===== *)
(** The parts together: what a client wrote through a RESP connection is what a restart
    finds.  A session serves the stream, [append_raw] batches its log, shutdown flushes it and
    start-up replays it; after a crash, which does not flush, start-up finds all but the writes that
    were in the batch. *)

From S2P Require Import Prelude RustStd Crates Domain Parser InlineFacts RespFacts ParserProps.
From S2P Require Import ParserBorrowed Metrics World Engine EngineFacts StoreSpec EngineProps.
From S2P Require Import Response Dispatcher DispatcherProps Aof AofFacts RestoreFacts AofProps.
From S2P Require Import Snapshot SnapshotProps Boot Session SessionProps Server ServerProps.

Section end_to_end.
Context {M : Type} {DM : DashMap bytes ValueEntry M} {CL : Clock} {IT : Itoa} {MC : Memchr}
  {C32 : Crc32}.
Abbreviation SW := (SWorld (M := M)).
Implicit Types (s : SW) (cs ws : list Command) (a : gmap bytes bytes).

Definition effects (ws : list Command) (a : gmap bytes bytes) : gmap bytes bytes :=
  foldl (λ a c, effect c a) a ws.

(** The log holds commands whose effects, from the data the server started with, are the
    data it has now. *)
Definition faithful_log a0 s (wtr : AofWriter) ws : Prop :=
  aof s = Some wtr ∧ written wtr = log_of ws ∧
  Forall (λ c, timeless c ∧ aof_encodable c ∧ is_write c = true) ws ∧
  holds (sw s) (effects ws a0).

(** The entry that fills the batch is written twice, which a command without counters
    survives; with counters the batch must not fill. *)
Definition no_double_count cs (batch : bytes) : Prop :=
  Forall incr_free cs ∨ (length batch + length (log_of cs) < AOF_BATCH_SIZE)%nat.

Lemma log_of_cons c cs : log_of (c :: cs) = default [] (to_aof_entry c) ++ log_of cs.
Proof. unfold log_of. simpl. by destruct (to_aof_entry c). Qed.

Lemma log_of_app cs1 cs2 : log_of (cs1 ++ cs2) = log_of cs1 ++ log_of cs2.
Proof. unfold log_of. by rewrite omap_app, join_app. Qed.

(** [append_raw] adds the entry once and batches it, or adds it twice and empties the batch. *)
Lemma append_raw_cases e t t' wtr :
  (written (append_raw e t t' wtr) = written wtr ++ e ∧
   batch_buffer (append_raw e t t' wtr) = batch_buffer wtr ++ e) ∨
  (written (append_raw e t t' wtr) = written wtr ++ e ++ e ∧
   batch_buffer (append_raw e t t' wtr) = [] ∧
   (AOF_BATCH_SIZE ≤ length (batch_buffer wtr) + length e)%nat).
Proof.
  unfold append_raw. cbn [set_batch batch_buffer]. rewrite length_app.
  destruct (Nat.ltb_spec (length (batch_buffer wtr) + length e) AOF_BATCH_SIZE).
  - left. split; [|done]. unfold written. cbn. by rewrite app_assoc.
  - right. destruct (flush_batch_file e t t' (set_batch (batch_buffer wtr ++ e) wtr)) as [Hf Hb].
    unfold written at 1. rewrite Hf, Hb. split_and!; [|done..].
    unfold written. cbn. by rewrite app_nil_r, <- !app_assoc.
Qed.

(** Logging a command whose effect is already in the data. *)
Lemma append_faithful a0 s wtr ws c cs e :
  aof s = Some wtr → written wtr = log_of ws →
  Forall (λ c, timeless c ∧ aof_encodable c ∧ is_write c = true) ws →
  timeless c → aof_encodable c → is_write c = true → to_aof_entry c = Some e →
  no_double_count (c :: cs) (batch_buffer wtr) → holds (sw s) (effect c (effects ws a0)) →
  ∃ s' wtr' ws', append_entry e s = (Val tt, s') ∧ faithful_log a0 s' wtr' ws' ∧
    no_double_count cs (batch_buffer wtr').
Proof.
  intros Ha Hw Hws Ht Hc Hwr He Hnd Hh. unfold append_entry. rewrite Ha.
  set (wtr' := append_raw e _ _ wtr).
  destruct (append_raw_cases e (clk (tick (sw s))) (clk (1 + tick (sw s))) wtr)
    as [[H1 H2]|(H1 & H2 & H3)]; fold wtr' in H1, H2;
    unfold no_double_count in Hnd; rewrite log_of_cons, He, length_app in Hnd; cbn [default from_option id] in Hnd.
  - eexists _, wtr', (ws ++ [c]). split_and!; [done | |].
    + split_and!; [done | | |].
      * rewrite H1, Hw, log_of_app, log_of_cons, He. cbn. by rewrite app_nil_r.
      * by apply Forall_app; split; [|constructor].
      * unfold effects. by rewrite foldl_app.
    + rewrite H2. unfold no_double_count. rewrite length_app.
      destruct Hnd as [[_ ?]%Forall_cons|?]; [by left | right; lia].
  - destruct Hnd as [[Hi Hnd]%Forall_cons|]; [|lia].
    eexists _, wtr', (ws ++ [c; c]). split_and!; [done | | by left].
    split_and!; [done | | |].
    + rewrite H1, Hw, log_of_app, !log_of_cons, He. cbn. by rewrite app_nil_r.
    + by apply Forall_app; split; [|repeat constructor].
    + unfold effects at 1. rewrite foldl_app. fold (effects ws a0).
      pose proof (effects_idempotent [c] (effects ws a0)) as E. cbn [foldl] in E |- *.
      rewrite E; [done | by repeat constructor].
Qed.

(** Metrics touch neither the store nor the log. *)
Lemma record_run (b : bool) ct r s :
  ∃ w', (if b then record_resp ct r else mret tt) s = (Val tt, mkSWorld w' (aof s)) ∧
    eng w' = eng (sw s).
Proof. destruct b; [|by exists (sw s); destruct s]. by eexists. Qed.

Lemma holds_eng (w w' : World (DashMapEngine M)) a : eng w' = eng w → holds w a → holds w' a.
Proof. unfold holds. by intros ->. Qed.

(** One command of a RESP session without lifetimes: the data gets its effect, then the command is
    logged or had no effect; a write that is no [INCR] is always logged. *)
Lemma exec_logs m a s wtr c wb :
  timeless c → aof s = Some wtr → holds (sw s) a →
  ∃ out w2 logged, holds w2 (effect c a) ∧ (if logged : bool then is_write c = true else effect c a = a) ∧
    (incr_free c → logged = is_write c) ∧
    exec_resp m c wb s =
      ((if logged then append_opt (to_aof_entry c) else mret tt);; mret out) (mkSWorld w2 (Some wtr)).
Proof.
  intros Ht Ha Hh. destruct (dispatch_effect c (sw s) a Ht Hh) as (r & w1 & E & Hh1 & Herr & Hok).
  unfold exec_resp, aof_entry_for, aof_open. unfold mbind at 1, st_bind at 1.
  unfold mbind at 1, st_bind at 1, mret at 1, st_ret at 1.
  rewrite Ha, bool_decide_eq_true_2 by done. cbn [andb].
  rewrite (st_bind_val _ _ _ r (mkSWorld w1 (Some wtr))) by (unfold lift_w; by rewrite E, Ha).
  destruct (record_run m (command_type c) r (mkSWorld w1 (Some wtr))) as (w2 & E2 & Heng).
  rewrite (st_bind_val _ _ _ _ _ E2). cbn [aof sw] in *.
  eexists _, w2, (is_success r && is_write c). split_and!; [by apply (holds_eng w1) | | |].
  - destruct (is_write c) eqn:Hwr; rewrite ?andb_true_r, ?andb_false_r; [|by destruct c].
    destruct (is_success r); [done | by apply Herr].
  - intros Hi. destruct (is_write c); [by rewrite Hok | apply andb_false_r].
  - by destruct (is_success r), (is_write c).
Qed.

(** One command of a session keeps the log faithful. *)
Lemma exec_faithful m a0 s wtr ws c cs wb :
  timeless c → aof_encodable c → faithful_log a0 s wtr ws →
  no_double_count (c :: cs) (batch_buffer wtr) →
  ∃ out s' wtr' ws', exec_resp m c wb s = (Val out, s') ∧ faithful_log a0 s' wtr' ws' ∧
    no_double_count cs (batch_buffer wtr').
Proof.
  intros Ht Hc (Ha & Hw & Hws & Hh) Hnd.
  destruct (exec_logs m _ s wtr c wb Ht Ha Hh) as (out & w2 & logged & Hh2 & Hl & _ & ->).
  destruct logged.
  - destruct (proj2 (to_aof_entry_is_write c) Hl) as [e He]. rewrite He. cbn [append_opt].
    destruct (append_faithful a0 (mkSWorld w2 (Some wtr)) wtr ws c cs e)
      as (s' & wtr' & ws' & E3 & Hf & Hnd'); try done.
    eexists _, s', wtr', ws'. split_and!; [|done..]. by rewrite (st_bind_val _ _ _ _ _ E3).
  - eexists _, (mkSWorld w2 (Some wtr)), wtr, ws. split_and!; [done | | ].
    + split_and!; [done..|]. cbn [sw]. by rewrite <- Hl.
    + unfold no_double_count in *. rewrite log_of_cons, length_app in Hnd.
      destruct Hnd as [[_ ?]%Forall_cons|?]; [by left | right; lia].
Qed.

Lemma run_faithful m a0 cs s wtr ws wb :
  Forall (λ c, timeless c ∧ aof_encodable c) cs → faithful_log a0 s wtr ws →
  no_double_count cs (batch_buffer wtr) →
  ∃ out s' wtr' ws', run_cmds (exec_resp m) cs wb s = (Val out, s') ∧ faithful_log a0 s' wtr' ws'.
Proof.
  intros Hcs. revert s wtr ws wb. induction Hcs as [|c cs [Ht Hc] _ IH]; intros s wtr ws wb Hf Hnd.
  { by exists wb, s, wtr, ws. }
  destruct (exec_faithful m a0 s wtr ws c cs wb) as (out & s1 & wtr1 & ws1 & E & Hf1 & Hnd1); try done.
  destruct (IH s1 wtr1 ws1 out Hf1 Hnd1) as (out' & s' & wtr' & ws' & E' & Hf').
  exists out', s', wtr', ws'. split; [|done]. cbn [run_cmds].
  by rewrite (st_bind_val _ _ _ _ _ E).
Qed.

(** The data a log replays to. *)
Lemma faithful_replays a0 s wtr ws w2 :
  faithful_log a0 s wtr ws → holds w2 a0 →
  ∃ n w3, replay_aof (Ok (written wtr)) w2 = (Val (Ok n), w3) ∧
    ∀ t k, data <$> sees (emap (eng w3)) t k = data <$> sees (emap (eng (sw s))) t k.
Proof.
  intros (_ & Hw & Hws & Hh) Hh2.
  destruct (apply_all_effects ws w2 a0 Hws Hh2) as (w3 & E & Hh3).
  exists (Z.of_nat (length ws)), w3. rewrite Hw. split; [by apply replay_writes|].
  intros t k. rewrite !(holds_sees _ _ t k) by done.
  by rewrite (proj2 (proj2 Hh3) k), (proj2 (proj2 Hh) k).
Qed.

(** C4: a restart finds what a client wrote.  A server with a new log serves a RESP stream of
    commands without lifetimes, cut by the network in any way; it always serves it to the end, and
    if the answers fit the write buffer, then after shutdown the log file, replayed at start-up into
    a store with the data the server had before, gives every key the value it has in the
    server: for commands without [INCR], and with it as long as the log stays below 4096
    bytes. *)
Theorem restart_finds_writes m chunks cs s wtr a w2 :
  Forall (λ c, resp_encodable c ∧ timeless c ∧ aof_encodable c) cs →
  mjoin chunks = stream cs → [] ∉ chunks → Z.of_nat (length (stream cs)) ≤ MAX_READ_BUF →
  aof s = Some wtr → written wtr = [] → no_double_count cs [] → holds (sw s) a → holds w2 a →
  ∃ out s1, run_cmds (exec_resp m) cs [] s = (Val out, s1) ∧
    (Z.of_nat (length out) ≤ MAX_WRITE_BUF →
     ∃ s2 wtr2 w3, session_loop true (full_batch m) (arriving chunks) [] [] [] s = (Val out, s1) ∧
       shutdown_flush s1 = (Val tt, s2) ∧ aof s2 = Some wtr2 ∧
       restore_at_boot None (Some (Ok (file wtr2))) w2 = (Val tt, w3) ∧
       ∀ t k, data <$> sees (emap (eng w3)) t k = data <$> sees (emap (eng (sw s2))) t k).
Proof.
  intros Hcs Hch Hne Hlen Ha Hw Hnd Hh Hh2.
  apply Forall_and in Hcs as [Hre Hcs].
  apply app_eq_nil in Hw as Hw'. destruct Hw' as [_ Hb].
  destruct (run_faithful m a cs s wtr [] []) as (out & s1 & wtr1 & ws & E & Hf); try done.
  { by rewrite Hb. }
  exists out, s1. split; [done|]. intros Hout.
  destruct (faithful_replays a s1 wtr1 ws w2 Hf Hh2) as (n & w3 & E3 & Hsee).
  destruct Hf as (Ha1 & _). eexists _, (flush wtr1), w3. split_and!.
  - apply (session_stream true (full_batch m) (exec_resp m) chunks cs [] []);
      auto using full_serves, exec_resp_appends.
    destruct cs as [|c cs]; [done|]. unfold pending. destruct (frame_nonempty c) as [l ->]. simpl. lia.
  - done.
  - unfold shutdown_flush, update_aof. cbn [aof]. by rewrite Ha1.
  - unfold restore_at_boot. replace (file (flush wtr1)) with (written wtr1).
    + rewrite (st_bind_val _ _ w2 tt w2) by done. by rewrite (st_bind_val _ _ _ _ _ E3).
    + unfold flush. destruct (drain_batch_file wtr1) as [<- _]. by destruct (fsync_policy _).
  - done.
Qed.
(** ** A crash *)

(** The log in two parts: the file holds commands whose effects are those of [cs0] and [ws1], some of them
    perhaps twice, and the batch in memory, below 4096 bytes, holds [ws2]; all together make
    the data.  With the [Always] policy the file is synced. *)
Definition split_log cs0 s (wtr : AofWriter) ws1 ws2 : Prop :=
  aof s = Some wtr ∧ holds (sw s) (effects (cs0 ++ ws1 ++ ws2) ∅) ∧
  (∃ fs, file wtr = log_of fs ∧ effects fs ∅ = effects (cs0 ++ ws1) ∅ ∧
     Forall (λ c, timeless c ∧ aof_encodable c ∧ is_write c = true) fs) ∧
  batch_buffer wtr = log_of ws2 ∧ (length (batch_buffer wtr) < AOF_BATCH_SIZE)%nat ∧
  Forall (λ c, timeless c ∧ aof_encodable c ∧ is_write c = true) ws2 ∧
  (fsync_policy wtr = Always → synced wtr = length (file wtr)).

Lemma effects_app ws1 ws2 a : effects (ws1 ++ ws2) a = effects ws2 (effects ws1 a).
Proof. apply foldl_app. Qed.

(** What [append_raw] leaves in the file and in the batch. *)
Lemma append_raw_parts e t t' wtr :
  let wtr' := append_raw e t t' wtr in
  fsync_policy wtr' = fsync_policy wtr ∧
  ((file wtr' = file wtr ∧ batch_buffer wtr' = batch_buffer wtr ++ e ∧ synced wtr' = synced wtr ∧
    (length (batch_buffer wtr') < AOF_BATCH_SIZE)%nat) ∨
   (file wtr' = file wtr ++ (batch_buffer wtr ++ e) ++ e ∧ batch_buffer wtr' = [] ∧
    (fsync_policy wtr = Always → synced wtr' = length (file wtr')))).
Proof.
  unfold append_raw. cbn [set_batch batch_buffer].
  destruct (Nat.ltb_spec (length (batch_buffer wtr ++ e)) AOF_BATCH_SIZE); [split; [done | by left]|].
  set (b := set_batch (batch_buffer wtr ++ e) wtr).
  destruct (flush_batch_file e t t' b) as [Hf Hb].
  assert (fsync_policy (write_all e (drain_batch b)) = fsync_policy wtr) as Hp.
  { unfold drain_batch. by destruct (batch_buffer b). }
  assert (written b ++ e = file wtr ++ (batch_buffer wtr ++ e) ++ e) as Hw.
  { unfold written. cbn. by rewrite !app_assoc. }
  split; [|right; split_and!; [by rewrite Hf | done|]].
  - unfold flush_batch. rewrite Hp. destruct (fsync_policy wtr); [done | case_match; done | done].
  - intros Ha. unfold flush_batch. by rewrite Hp, Ha.
Qed.

Lemma append_split cs0 s wtr ws1 ws2 c e w2 :
  split_log cs0 s wtr ws1 ws2 → timeless c → aof_encodable c → is_write c = true → incr_free c →
  to_aof_entry c = Some e → holds w2 (effect c (effects (cs0 ++ ws1 ++ ws2) ∅)) →
  ∃ s' wtr' ws1' ws2', append_entry e (mkSWorld w2 (Some wtr)) = (Val tt, s') ∧
    split_log cs0 s' wtr' ws1' ws2' ∧ ws1' ++ ws2' = (ws1 ++ ws2) ++ [c].
Proof.
  intros (Ha & Hh & (fs & Hf & Hfs & Hall) & Hb & Hlen & Hall2 & Hsy) Ht Hc Hwr Hi He Hh2.
  assert (log_of [c] = e) as He'. { rewrite log_of_cons, He. apply app_nil_r. }
  unfold append_entry. cbn [aof sw].
  destruct (append_raw_parts e (clk (tick w2)) (clk (1 + tick w2)) wtr)
    as (Hp & [(Hf' & Hb' & Hs' & Hl')|(Hf' & Hb' & Hs')]);
    set (wtr' := append_raw e _ _ wtr) in *.
  - eexists _, wtr', ws1, (ws2 ++ [c]). split_and!; [done | | apply app_assoc]. split_and!; try done.
    + by rewrite !app_assoc, effects_app, <- app_assoc.
    + exists fs. by rewrite Hf'.
    + by rewrite Hb', Hb, log_of_app, He'.
    + apply Forall_app; split; [done | by constructor].
    + rewrite Hp, Hf', Hs'. done.
  - eexists _, wtr', ((ws1 ++ ws2) ++ [c]), []. split_and!; [done | | apply app_nil_r]. split_and!; try done.
    + by rewrite app_nil_r, app_assoc, effects_app.
    + exists (fs ++ ws2 ++ [c; c]). split_and!.
      * rewrite Hf', Hf, Hb, !log_of_app. f_equal. rewrite <- app_assoc. f_equal.
        change [c; c] with ([c] ++ [c]). by rewrite log_of_app, He'.
      * rewrite effects_app, Hfs, !effects_app. by apply (effects_idempotent [c]), Forall_singleton.
      * rewrite !Forall_app, !Forall_cons. done.
    + rewrite Hb'. by apply Nat.ltb_lt.
    + rewrite Hp. done.
Qed.

Lemma run_split m cs0 cs s wtr ws1 ws2 wb :
  Forall (λ c, timeless c ∧ aof_encodable c ∧ incr_free c) cs → split_log cs0 s wtr ws1 ws2 →
  ∃ out s' wtr' ws1' ws2', run_cmds (exec_resp m) cs wb s = (Val out, s') ∧
    split_log cs0 s' wtr' ws1' ws2' ∧ ws1' ++ ws2' = ws1 ++ ws2 ++ filter (λ c, is_write c = true) cs.
Proof.
  intros Hcs. revert s wtr ws1 ws2 wb.
  induction Hcs as [|c cs (Ht & Hc & Hi) _ IH]; intros s wtr ws1 ws2 wb Hs.
  { exists wb, s, wtr, ws1, ws2. by rewrite app_nil_r. }
  pose proof Hs as (Ha & Hh & Hrest).
  destruct (exec_logs m _ s wtr c wb Ht Ha Hh) as (out & w2 & logged & Hh2 & Hl & Hlog & E).
  rewrite Hlog in E, Hl by done. cbn [run_cmds]. rewrite filter_cons.
  destruct (is_write c) eqn:Hwr.
  - destruct (proj2 (to_aof_entry_is_write c) Hwr) as [e He]. rewrite He in E. cbn [append_opt] in E.
    destruct (append_split cs0 s wtr ws1 ws2 c e w2) as (s1 & wtr1 & ws1' & ws2' & E1 & Hs1 & Hws); try done.
    rewrite (st_bind_val _ _ _ _ _ E1) in E. rewrite (st_bind_val _ _ _ _ _ E).
    destruct (IH s1 wtr1 ws1' ws2' out Hs1) as (out' & s' & wtr' & v1 & v2 & E' & Hs' & Hv).
    exists out', s', wtr', v1, v2. split_and!; [done..|]. rewrite Hv, app_assoc, Hws.
    rewrite decide_True by done. by rewrite <- !app_assoc.
  - rewrite (st_bind_val _ _ _ _ _ E).
    destruct (IH (mkSWorld w2 (Some wtr)) wtr ws1 ws2 out) as (out' & s' & wtr' & v1 & v2 & E' & Hs' & Hv).
    { split_and!; [done | cbn [sw]; by rewrite <- Hl | apply Hrest..]. }
    exists out', s', wtr', v1, v2. split_and!; [done..|]. by rewrite decide_False by done.
Qed.

(** C5: what a crash loses.  A server whose log file is the log of the data it holds serves a RESP
    stream of commands without lifetimes and without [INCR], cut by the network in any way; it
    always serves it to the end.  If it then dies without flushing, the writes of the stream are
    split in two: the last ones, whose entries take less than 4096 bytes, were only in the batch
    in memory and are lost, and start-up from the file alone gives exactly the data after
    all the others, though the entry that fills a batch is in the file twice.  Under [Always] the
    file is synced, so a power loss takes no more. *)
Theorem crash_recovery m chunks cs cs0 s wtr w2 :
  Forall (λ c, resp_encodable c ∧ timeless c ∧ aof_encodable c ∧ incr_free c) cs →
  Forall (λ c, timeless c ∧ aof_encodable c ∧ is_write c = true) cs0 →
  mjoin chunks = stream cs → [] ∉ chunks → Z.of_nat (length (stream cs)) ≤ MAX_READ_BUF →
  aof s = Some wtr → file wtr = log_of cs0 → batch_buffer wtr = [] →
  (fsync_policy wtr = Always → synced wtr = length (file wtr)) →
  holds (sw s) (effects cs0 ∅) → holds w2 ∅ →
  ∃ out s1 wtr1 ws1 ws2 w3, run_cmds (exec_resp m) cs [] s = (Val out, s1) ∧
    (Z.of_nat (length out) ≤ MAX_WRITE_BUF →
     session_loop true (full_batch m) (arriving chunks) [] [] [] s = (Val out, s1)) ∧
    filter (λ c, is_write c = true) cs = ws1 ++ ws2 ∧
    holds (sw s1) (effects (cs0 ++ ws1 ++ ws2) ∅) ∧
    aof s1 = Some wtr1 ∧ batch_buffer wtr1 = log_of ws2 ∧ (length (log_of ws2) < 4096)%nat ∧
    restore_at_boot None (Some (Ok (file wtr1))) w2 = (Val tt, w3) ∧
    holds w3 (effects (cs0 ++ ws1) ∅) ∧
    (fsync_policy wtr1 = Always → synced wtr1 = length (file wtr1)).
Proof.
  intros Hcs Hcs0 Hch Hne Hlen Ha Hf Hb Hsy Hh Hh2. apply Forall_and in Hcs as [Hre Hcs].
  destruct (run_split m cs0 cs s wtr [] [] []) as (out & s1 & wtr1 & ws1 & ws2 & E & Hs1 & Hws); [done | |].
  { split_and!; try done; [by rewrite app_nil_r | exists cs0; by rewrite app_nil_r |].
    rewrite Hb. by apply Nat.ltb_lt. }
  destruct Hs1 as (Ha1 & Hh1 & (fs & Hfs & Heff & Hall) & Hb1 & Hl1 & _ & Hsy1).
  destruct (apply_all_effects fs w2 ∅ Hall Hh2) as (w3 & E3 & Hh3).
  exists out, s1, wtr1, ws1, ws2, w3. split_and!; try done.
  - intros Hout. apply (session_stream true (full_batch m) (exec_resp m) chunks cs [] []);
      auto using full_serves, exec_resp_appends.
    destruct cs as [|c cs]; [done|]. unfold pending. destruct (frame_nonempty c) as [l ->]. simpl. lia.
  - by rewrite <- Hb1.
  - unfold restore_at_boot. rewrite (st_bind_val _ _ w2 tt w2) by done. rewrite Hfs.
    by rewrite (st_bind_val _ _ _ _ _ (replay_writes fs w2 w3 Hall E3)).
  - by rewrite <- Heff.
Qed.
End end_to_end.

(** * Witness *)

Section witnesses.
#[local] Existing Instances gmap_dashmap ms_clock itoa_display memchr_scan crc32_sum.

Definition wit_live : SWorld (M := gmap bytes ValueEntry) :=
  mkSWorld (sw wit_conn) (Some (aof_new [] Always 0)).
Definition wit_sent : list Command := [CSet (str "a") (str "1") None; CIncr (str "n")].
Definition wit_chunks : list bytes := [take 20 (stream wit_sent); drop 20 (stream wit_sent)].

Lemma restart_finds_writes_witness :
  ∃ out s1, run_cmds (exec_resp true) wit_sent [] wit_live = (Val out, s1) ∧
    (Z.of_nat (length out) ≤ MAX_WRITE_BUF →
     ∃ s2 wtr2 w3,
       session_loop true (full_batch true) (arriving wit_chunks) [] [] [] wit_live = (Val out, s1) ∧
       shutdown_flush s1 = (Val tt, s2) ∧ aof s2 = Some wtr2 ∧
       restore_at_boot None (Some (Ok (file wtr2))) wit_empty = (Val tt, w3) ∧
       ∀ t k, data <$> sees (emap (eng w3)) t k = data <$> sees (emap (eng (sw s2))) t k).
Proof.
  apply (restart_finds_writes true wit_chunks wit_sent wit_live (aof_new [] Always 0) ∅ wit_empty);
    [by repeat constructor | by vm_compute | | by vm_compute | reflexivity | reflexivity | | done | done].
  - apply (bool_decide_unpack _). by vm_compute.
  - right. apply Nat.ltb_lt. by vm_compute.
Defined.

(** A server that served one command before, given one that overfills the batch and two more. *)
Definition wit_before : list Command := [CSet (str "a") (str "1") None].
Definition wit_stream : list Command :=
  [CSet (str "b") (repeat Byte.x41 (Z.to_nat 4096)) None; CDel (str "a"); CSet (str "a") (str "2") None].
Definition wit_serving : SWorld (M := gmap bytes ValueEntry) :=
  mkSWorld wit_one (Some (aof_new (log_of wit_before) No 0)).

Lemma wit_stream_ok :
  Forall (λ c, resp_encodable c ∧ timeless c ∧ aof_encodable c ∧ incr_free c) wit_stream.
Proof.
  repeat apply Forall_cons_2; [..|done]; split_and!; try done; repeat split; try done;
    unfold value_ok; by vm_compute.
Qed.

Lemma crash_recovery_witness :
  ∃ out s1 wtr1 ws1 ws2 w3, run_cmds (exec_resp true) wit_stream [] wit_serving = (Val out, s1) ∧
    (Z.of_nat (length out) ≤ MAX_WRITE_BUF →
     session_loop true (full_batch true) (arriving [stream wit_stream]) [] [] [] wit_serving = (Val out, s1)) ∧
    filter (λ c, is_write c = true) wit_stream = ws1 ++ ws2 ∧
    holds (sw s1) (effects (wit_before ++ ws1 ++ ws2) ∅) ∧
    aof s1 = Some wtr1 ∧ batch_buffer wtr1 = log_of ws2 ∧ (length (log_of ws2) < 4096)%nat ∧
    restore_at_boot None (Some (Ok (file wtr1))) wit_empty = (Val tt, w3) ∧
    holds w3 (effects (wit_before ++ ws1) ∅) ∧
    (fsync_policy wtr1 = Always → synced wtr1 = length (file wtr1)).
Proof.
  apply (crash_recovery true [stream wit_stream] wit_stream wit_before wit_serving
    (aof_new (log_of wit_before) No 0) wit_empty);
    [apply wit_stream_ok | by repeat constructor | apply app_nil_r | | by vm_compute | done..| | done].
  - by intros ?%list_elem_of_singleton.
  - apply wit_one_holds.
Defined.
End witnesses.
