(* ===== verification/DiskProps.v ===== *)
(** What the files hold when I/O fails: a snapshot is replaced as a whole or not at all, the log's
    writer is the one of file Aof while everything works, and calls that fail without
    writing lose nothing.  Three theorems show where more is lost. *)

From S2P Require Import Prelude RustStd Crates Domain Metrics World Engine EngineFacts EvictFacts.
From S2P Require Import StoreSpec EngineProps Response Dispatcher DispatcherProps Aof AofFacts.
From S2P Require Import RestoreFacts AofProps Snapshot SnapshotProps Boot EndToEnd Disk.

(** * Triples *)

(** From [P], [m] ends in [Q] with a result, in [E false] when it fails and in [E true] when the
    machine halts. *)
Definition io_triple {S A} (P : S → Prop) (m : Io S A) (Q : A → S → Prop) (E : bool → S → Prop) : Prop :=
  ∀ s, P s →
    match m s with (Done a, s') => Q a s' | (Failed _, s') => E false s' | (Halted, s') => E true s' end.

Lemma io_triple_bind {S A B} P (m : Io S A) (k : A → Io S B) Q R E :
  io_triple P m Q E → (∀ a, io_triple (Q a) (k a) R E) → io_triple P (m ≫= k) R E.
Proof.
  intros Hm Hk s Hs. specialize (Hm s Hs). unfold mbind, io_bind. destruct (m s) as [[a| |] s1]; try done.
  by apply Hk.
Qed.

Lemma io_triple_weaken {S A} (P P' : S → Prop) (m : Io S A) (Q Q' : A → S → Prop) (E E' : bool → S → Prop) :
  io_triple P m Q E → (∀ s, P' s → P s) → (∀ a s, Q a s → Q' a s) → (∀ b s, E b s → E' b s) →
  io_triple P' m Q' E'.
Proof.
  intros Hm HP HQ HE s Hs. specialize (Hm s (HP s Hs)). destruct (m s) as [[a| |] s1]; auto.
Qed.

Definition drop_verdict (d : Disk) : Disk := mkDisk (names d) (history d) (inodes d) (tail (verdicts d)).

Lemma triple_call {A} P (works : Io Disk A) partly Q E :
  io_triple (λ d, ∃ d0, P d0 ∧ d = drop_verdict d0) works Q E →
  (∀ d n b, P d → E b (partly n (drop_verdict d))) → io_triple P (call works partly) Q E.
Proof.
  intros Hw Hp d Hd. unfold call. destruct (default Works _); [|by apply Hp..].
  apply Hw. by exists d.
Qed.

(** * Snapshots *)

(** Every name leads to an inode of its own. *)
Definition no_links (d : Disk) : Prop :=
  (∀ p h, names d !! p = Some h → (h < length (inodes d))%nat) ∧
  (∀ p q h, names d !! p = Some h → names d !! q = Some h → p = q).

Section aside.
Variables (path : bytes) (d0 : Disk).

(** A disk without hard links whose directory and file [path] are durable. *)
Definition tidy : Prop :=
  history d0 = [] ∧ no_links d0 ∧ (∀ i, holding d0 path = Some i → durable i = content i).

(** [path] has been left alone, under every name table that may come back. *)
Definition keeps (d : Disk) : Prop :=
  (∀ m, m = names d ∨ m ∈ history d → m !! path = names d0 !! path) ∧
  ∀ h, names d0 !! path = Some h → inodes d !! h = inodes d0 !! h.

(** The new file, at the inode [h] that is not [path]'s. *)
Definition aside (tmp_path : bytes) (h : nat) (f : Inode → Prop) (d : Disk) : Prop :=
  keeps d ∧ names d0 !! path ≠ Some h ∧ names d !! tmp_path = Some h ∧ ∃ i, inodes d !! h = Some i ∧ f i.

Hypothesis Htidy : tidy.

Lemma keeps_refl : keeps d0.
Proof. destruct Htidy as (Hh & _). split; [|done]. rewrite Hh. by intros m [->|?%elem_of_nil]. Qed.

Lemma keeps_drop d : keeps d → keeps (drop_verdict d).
Proof. done. Qed.

(** After a halt, what was there before. *)
Lemma keeps_halt d d' : keeps d → after_halt d d' → content <$> holding d' path = content <$> holding d0 path.
Proof.
  intros [Hn Hi] [Hnames Hall]. destruct Htidy as (_ & _ & Hdur). unfold holding in *.
  assert (names d' !! path = names d0 !! path) as -> by (apply Hn; destruct Hnames; auto).
  destruct (names d0 !! path) as [h|] eqn:Hp; [|done]. cbn in *. specialize (Hi h eq_refl).
  destruct (inodes d0 !! h) as [i|] eqn:Hh.
  - destruct (Forall2_lookup_l _ _ _ _ _ Hall Hi) as (i' & -> & Hs & _). cbn. f_equal.
    destruct Hs as [->|[Hpre Hd]]; [by apply Hdur|]. rewrite (Hdur i eq_refl) in Hd. specialize (Hd (reflexivity _)).
    by apply (anti_symm prefix).
  - apply lookup_ge_None in Hi. rewrite (Forall2_length _ _ _ Hall) in Hi. by apply lookup_ge_None in Hi as ->.
Qed.

Lemma aside_alter tmp_path h (f g : Inode → Prop) u d :
  aside tmp_path h f d → (∀ i, f i → g (u i)) → aside tmp_path h g (alter_inode u h d).
Proof.
  intros ([Hn Hi] & Hne & Ht & i & Hh & Hf) Hfg. split_and!; [|done..|].
  - split; [done|]. intros h' Hp. cbn. rewrite list_lookup_alter_ne by congruence. auto.
  - exists (u i). cbn. rewrite list_lookup_alter_eq, Hh. split; [done | auto].
Qed.

Lemma create_aside tmp_path :
  tmp_path ≠ path →
  io_triple (eq d0) (file_create tmp_path) (λ h, aside tmp_path h (λ i, content i = [])) (λ _, keeps).
Proof.
  intros Hne. pose proof Htidy as (Hh & [Hv Hl] & _). pose proof keeps_refl as Hk.
  unfold file_create. apply triple_call; [|by intros d n b <-].
  intros d (? & <- & ->). unfold mbind, io_bind, mret, io_ret, open_inode, modify. cbn.
  destruct (names d0 !! tmp_path) as [h|] eqn:Ht.
  - destruct (lookup_lt_is_Some_2 (inodes d0) h) as [i Hi]; [by eapply Hv|].
    eapply (aside_alter _ _ (λ _, True)); [|by intros]. split_and!; [done| |done|by exists i].
    intros Hp. by destruct Hne; eapply Hl.
  - eapply (aside_alter _ _ (λ _, True)); [|by intros]. split_and!.
    + split; cbn.
      * intros m [->|[->|Hm]%elem_of_cons]; [by rewrite lookup_insert_ne | done |]. rewrite Hh in Hm. by apply elem_of_nil in Hm.
      * intros h Hp. rewrite lookup_app_l; [done|]. by eapply Hv.
    + intros Hp%Hv. lia.
    + cbn. apply lookup_insert_eq.
    + cbn. rewrite lookup_app_r, Nat.sub_diag by lia. by eexists.
Qed.

(** The new file is written and synced while [path] is left alone. *)
Lemma write_tmp_aside tmp_path buf :
  tmp_path ≠ path →
  io_triple (eq d0) (write_tmp tmp_path buf)
    (λ _ d, ∃ h, aside tmp_path h (λ i, content i = buf ∧ durable i = buf) d) (λ _, keeps).
Proof.
  intros Hne. unfold write_tmp. eapply io_triple_bind; [by apply create_aside|]. intros h.
  eapply io_triple_bind with (Q := λ _, aside tmp_path h (λ i, content i = buf)).
  - apply triple_call; [|intros d n b Hd; by eapply (aside_alter _ _ _ (λ _, True))].
    intros d (d1 & Hd & ->). eapply aside_alter; [exact Hd|]. by intros i ->.
  - intros _. apply triple_call; [|intros d n b Hd; apply Hd].
    intros d (d1 & Hd & ->). exists h. eapply aside_alter; [exact Hd|]. done.
Qed.

Lemma tmp_of_ne : tmp_of path ≠ path.
Proof. intros E. apply (f_equal length) in E. unfold tmp_of in E. rewrite length_app in E. cbn in E. lia. Qed.

(** [path] now leads to the new file, and after a halt to it or to the old one. *)
Definition replaced (buf : bytes) (d : Disk) : Prop :=
  content <$> holding d path = Some buf ∧
  ∀ d', after_halt d d' →
    content <$> holding d' path = content <$> holding d0 path ∨ content <$> holding d' path = Some buf.

Lemma rename_replaces tmp_path buf :
  io_triple (λ d, ∃ h, aside tmp_path h (λ i, content i = buf ∧ durable i = buf) d)
    (rename tmp_path path) (λ _, replaced buf) (λ _, keeps).
Proof.
  apply triple_call; [|by intros d n b (h & Hd & _)].
  intros d (d1 & (h & Hk & Hne & Ht & i & Hi & Hc & Hd) & ->). cbn. rewrite Ht.
  split; [unfold holding; cbn; rewrite lookup_insert_eq; cbn; rewrite Hi; cbn; by f_equal|].
  intros d' [[Hn|[Hn|Hn]%elem_of_cons] Hall].
  - right. unfold holding. rewrite Hn. cbn. rewrite lookup_insert_eq. cbn.
    destruct (Forall2_lookup_l _ _ _ _ _ Hall Hi) as (i' & -> & Hs & _). cbn. f_equal.
    destruct Hs as [->|[Hpre Hd']]; [done|]. rewrite Hc, Hd in *. by apply (anti_symm prefix); auto.
  - left. apply (keeps_halt d1); [done|]. split; [by left|done].
  - left. apply (keeps_halt d1); [done|]. split; [by right|done].
Qed.
End aside.

(** C6: snapshots are replaced atomically.  Whatever call of [dump_snapshot] fails or is the last
    before the machine halts, and however many bytes were written by then, the snapshot's path
    leads to the old file or to the whole new one: to the new one when the dump succeeds, to the
    old one when it fails, and to one of them after a halt, whatever unsynced data and renames the
    halt undid. *)
Theorem snapshot_atomic path buf d o d' :
  tidy path d → save_snapshot path buf d = (o, d') →
  content <$> holding d' path =
    match o with Done _ => Some buf | _ => content <$> holding d path end ∧
  ∀ d'', after_halt d' d'' →
    content <$> holding d'' path = content <$> holding d path ∨ content <$> holding d'' path = Some buf.
Proof.
  intros Ht E.
  assert (io_triple (eq d) (save_snapshot path buf) (λ _, replaced path d buf) (λ _, keeps path d)) as H.
  { eapply io_triple_bind; [apply write_tmp_aside; [done | apply tmp_of_ne]|]. intros []. by apply rename_replaces. }
  specialize (H d eq_refl). rewrite E in H.
  assert (keeps path d d' → content <$> holding d' path = content <$> holding d path) as Hsame.
  { intros [Hn Hi]. unfold holding. rewrite (Hn (names d')) by (by left).
    destruct (names d !! path) as [h|]; [|done]. cbn. by rewrite Hi. }
  destruct o; [exact H|..]; (split; [by apply Hsame|]); intros d'' Hh; left; by apply (keeps_halt path d Ht d').
Qed.

(** * The writer on a disk that works *)

(** The writer of file Aof a writer on a disk stands for: its path leads to its handle's inode. *)
Definition represents (s : WD) (a : AofWriter) : Prop :=
  verdicts s.2 = [] ∧ no_links s.2 ∧ names s.2 !! wpath s.1 = Some (handle s.1) ∧
  (∃ i, inodes s.2 !! handle s.1 = Some i ∧ content i = file a ∧ length (durable i) = synced a) ∧
  policy s.1 = fsync_policy a ∧ last_sync s.1 = last_fsync a ∧ batch s.1 = batch_buffer a.

(** [m] works, and does what [f] does. *)
Definition does (m : Io WD ()) (f : AofWriter → AofWriter) : Prop :=
  ∀ s a, represents s a → ∃ s', m s = (Done tt, s') ∧ represents s' (f a).

Lemma io_bind_done {S A B} (m : Io S A) (k : A → Io S B) s x s' :
  m s = (Done x, s') → (m ≫= k) s = k x s'.
Proof. intros E. unfold mbind, io_bind. by rewrite E. Qed.

Lemma call_works {A} (works : Io Disk A) partly d : verdicts d = [] → call works partly d = works d.
Proof. intros E. unfold call. rewrite E. destruct d; cbn in *. by subst. Qed.

Lemma does_bind m k f g : does m f → does k g → does (m;; k) (λ a, g (f a)).
Proof.
  intros Hm Hk s a Hr. destruct (Hm s a Hr) as (s1 & E1 & H1). destruct (Hk s1 _ H1) as (s2 & E2 & H2).
  exists s2. split; [|done]. by rewrite (io_bind_done _ _ _ _ _ E1).
Qed.

Lemma does_ret : does (mret tt) (λ a, a).
Proof. intros s a Hr. by exists s. Qed.

Lemma no_links_alter f h d : no_links d → no_links (alter_inode f h d).
Proof. intros [Hv Hl]. split; [|done]. intros p h' Hp. cbn. rewrite length_alter. by eapply Hv. Qed.

Lemma does_write buf : does (file_write_all buf) (write_all buf).
Proof.
  intros [w d] a (Hv & Hnl & Hn & (i & Hi & Hc & Hd) & Hp & Hl & Hb). unfold file_write_all.
  rewrite (io_bind_done _ _ (w, d) (handle w) (w, d)) by done. unfold on_disk, disk_write_all.
  rewrite call_works by done. eexists. split; [done|]. split_and!; try done; [by apply no_links_alter|].
  eexists. cbn. rewrite list_lookup_alter_eq. cbn in Hi. rewrite Hi. split_and!; [done| |done]. cbn. by rewrite Hc.
Qed.

Lemma does_sync : does file_sync_all sync_all.
Proof.
  intros [w d] a (Hv & Hnl & Hn & (i & Hi & Hc & Hd) & Hp & Hl & Hb). unfold file_sync_all.
  rewrite (io_bind_done _ _ (w, d) (handle w) (w, d)) by done. unfold on_disk, disk_sync_all.
  rewrite call_works by done. eexists. split; [done|]. split_and!; try done; [by apply no_links_alter|].
  eexists. cbn. rewrite list_lookup_alter_eq. cbn in Hi. rewrite Hi. split_and!; [done..|]. cbn. by rewrite Hc.
Qed.

Lemma does_put_batch b : does (put_batch b) (set_batch b).
Proof. intros [w d] a Hr. eexists. split; [done|]. by destruct Hr as (? & ? & ? & ? & ? & ? & ?). Qed.

Lemma does_put_last t : does (put_last t) (set_last t).
Proof. intros [w d] a Hr. eexists. split; [done|]. by destruct Hr as (? & ? & ? & ? & ? & ? & ?). Qed.

(** Reading a field of the writer. *)
Lemma does_gets {A} (r : DiskWriter → A) (r' : AofWriter → A) (m : A → Io WD ()) (f : A → AofWriter → AofWriter) :
  (∀ s a, represents s a → r s.1 = r' a) → (∀ x, does (m x) (f x)) →
  does (x ← gets r; m x) (λ a, f (r' a) a).
Proof.
  intros Hr Hm s a Ha. rewrite (io_bind_done _ _ s (r s.1) s) by done. rewrite (Hr s a Ha). by apply Hm.
Qed.

Lemma gets_policy s a : represents s a → policy s.1 = fsync_policy a.
Proof. by intros (_ & _ & _ & _ & ? & _). Qed.
Lemma gets_last s a : represents s a → last_sync s.1 = last_fsync a.
Proof. by intros (_ & _ & _ & _ & _ & ? & _). Qed.
Lemma gets_batch s a : represents s a → batch s.1 = batch_buffer a.
Proof. by intros (_ & _ & _ & _ & _ & _ & ?). Qed.

Lemma does_ext m f g : does m f → (∀ a, f a = g a) → does m g.
Proof. intros Hm E s a Hr. rewrite <- E. by apply Hm. Qed.

Create HintDb disk.
#[local] Hint Resolve does_bind does_ret does_write does_sync does_put_batch does_put_last gets_policy
  gets_last gets_batch : disk.

Lemma does_drain : does drain drain_batch.
Proof.
  eapply does_ext; [eapply (does_gets batch batch_buffer); [auto with disk|]|].
  - intros b. instantiate (1 := λ b, match b with [] => λ a, a | _ => λ a, set_batch [] (write_all b a) end).
    destruct b; cbn; auto with disk.
  - intros a. unfold drain_batch. by destruct (batch_buffer a).
Qed.

(** The sync of [Everysec], when a second has passed. *)
Lemma does_due t (m : Io WD ()) f :
  does m f →
  does (last ← gets last_sync; if from_secs 1 <=? instant_sub t last then m else mret tt)
    (λ a, if from_secs 1 <=? instant_sub t (last_fsync a) then f a else a).
Proof.
  intros Hm. eapply (does_gets last_sync last_fsync _
    (λ l a, if from_secs 1 <=? instant_sub t l then f a else a)); [auto with disk|].
  intros l. destruct (_ <=? _); auto with disk.
Qed.

Lemma does_policy (m : FsyncPolicy → Io WD ()) f :
  (∀ p, does (m p) (f p)) → does (p ← gets policy; m p) (λ a, f (fsync_policy a) a).
Proof. intros Hm. by apply does_gets; [auto with disk|]. Qed.

Lemma does_flush_batch e t t' : does (writer_flush_batch e t t') (flush_batch e t t').
Proof.
  eapply does_ext.
  { eapply does_bind; [apply does_drain|]. eapply does_bind; [apply does_write|].
  apply (does_policy _ (λ p a, match p with
    | Always => sync_all a
    | Everysec => if from_secs 1 <=? instant_sub t (last_fsync a) then set_last t' (sync_all a) else a
    | No => a end)).
  intros []; [auto with disk | | auto with disk]. apply (does_due t _ (λ a, set_last t' (sync_all a))).
  auto with disk. }
  done.
Qed.

Lemma does_append e t t' : does (writer_append_raw e t t') (append_raw e t t').
Proof.
  unfold writer_append_raw, append_raw.
  eapply does_ext; [apply (does_gets batch batch_buffer _ (λ b a, if (length (b ++ e) <? AOF_BATCH_SIZE)%nat
    then set_batch (b ++ e) a else flush_batch e t t' (set_batch (b ++ e) a))); [auto with disk|]|done].
  intros b. destruct (_ <? _)%nat.
  - eapply does_ext; [eapply does_bind; auto with disk | done].
  - eapply does_ext; [eapply does_bind; [auto with disk | apply does_flush_batch] | done].
Qed.

Lemma does_flush : does writer_flush flush.
Proof.
  eapply does_ext.
  { eapply does_bind; [apply does_drain|].
  apply (does_policy _ (λ p a, match p with Always => sync_all a | _ => a end)). intros []; auto with disk. }
  done.
Qed.

Lemma does_tick t t' : does (writer_flush_if_needed t t') (flush_if_needed t t').
Proof.
  unfold writer_flush_if_needed, flush_if_needed.
  apply (does_policy _ (λ p a, match p with
    | Everysec => if from_secs 1 <=? instant_sub t (last_fsync a) then set_last t' (sync_all (drain_batch a)) else a
    | _ => a end)).
  intros []; [auto with disk | | auto with disk].
  apply (does_due t _ (λ a, set_last t' (sync_all (drain_batch a)))).
  eapply does_ext; [apply (does_gets batch batch_buffer _ (λ b a, set_last t'
    match b with [] => sync_all a | _ => sync_all (set_batch [] (write_all b a)) end)); [auto with disk|]|].
  - intros []; (eapply does_ext; [eauto 6 with disk | done]).
  - intros a. unfold drain_batch. by destruct (batch_buffer a).
Qed.

Definition aof_call (c : WriterCall) : AofWriter → AofWriter :=
  match c with
  | DoAppend e t t' => append_raw e t t'
  | DoFlush => flush
  | DoTick t t' => flush_if_needed t t'
  end.

Lemma does_calls cs : does (writer_calls cs) (λ a, foldl (λ a c, aof_call c a) a cs).
Proof.
  induction cs as [|c cs IH]; [apply does_ret|]. cbn [writer_calls foldl].
  eapply does_ext; [eapply (does_bind _ _ (aof_call c)); [|exact IH]|done]. intros s a Hr.
  assert (does (writer_call c) (aof_call c)) as Hc by (destruct c; [apply does_append | apply does_flush | apply does_tick]).
  destruct (Hc s a Hr) as (s' & E & Hr'). exists s'. split; [|done]. unfold logged. by rewrite E.
Qed.

Lemma open_inode_links path d h d' :
  no_links d → open_inode path d = (Done h, d') →
  no_links d' ∧ verdicts d' = verdicts d ∧ names d' !! path = Some h ∧
  is_Some (inodes d' !! h) ∧
  ∀ p g, p ≠ path → names d !! p = Some g → g ≠ h ∧ names d' !! p = Some g ∧ inodes d' !! g = inodes d !! g.
Proof.
  intros [Hv Hl] E. unfold open_inode in E. destruct (names d !! path) as [g|] eqn:Hp; injection E as <- <-.
  - split_and!; [done..| |].
    + apply lookup_lt_is_Some. by eapply Hv.
    + intros p g' Hne Hg. split_and!; [|done..]. intros ->. eauto.
  - split_and!; [|done|..]; cbn.
    + split; cbn.
      * intros p h. rewrite length_app. cbn.
        intros [[<- <-]|[_ ?%Hv]]%lookup_insert_Some; lia.
      * intros p q h [[<- <-]|[? Hh]]%lookup_insert_Some [[<- E]|[? ?]]%lookup_insert_Some; try done; eauto;
          subst; [apply Hv in H0 | apply Hv in Hh]; lia.
    + apply lookup_insert_eq.
    + rewrite lookup_app_r, Nat.sub_diag by lia. by eexists.
    + intros p g Hne Hg. pose proof (Hv _ _ Hg). rewrite lookup_insert_ne by done.
      rewrite lookup_app_l by done. split_and!; [lia | done..].
Qed.

(** A file written aside leaves the writer alone. *)
Lemma write_tmp_works w d a buf :
  represents (w, d) a →
  ∃ d' h, write_tmp (tmp_of (wpath w)) buf d = (Done tt, d') ∧ represents (w, d') a ∧
    names d' !! tmp_of (wpath w) = Some h ∧ inodes d' !! h = Some (mkInode buf buf).
Proof.
  intros (Hv & Hnl & Hn & (i & Hi & Hc & Hd) & Hr). cbn in *. unfold write_tmp.
  destruct (open_inode (tmp_of (wpath w)) d) as [r d1] eqn:Eo.
  assert (∃ h, r = Done h) as [h ->] by (unfold open_inode in Eo; case_match; injection Eo as <- _; eauto).
  destruct (open_inode_links _ _ _ _ Hnl Eo) as (Hnl1 & Hv1 & Hn1 & [j Hj] & Hother).
  destruct (Hother (wpath w) (handle w)) as (Hne & Hw & Hwi); [by apply not_eq_sym, tmp_of_ne | done |].
  set (d2 := alter_inode (λ i, mkInode [] (durable i)) h d1). set (d3 := put h buf d2).
  exists (alter_inode (λ i, mkInode (content i) (content i)) h d3), h.
  assert (verdicts d2 = [] ∧ verdicts d3 = []) as [Hv2 Hv3] by (unfold d3, d2; cbn; by rewrite Hv1).
  split_and!; try done; cbn.
  - erewrite io_bind_done; [|unfold file_create; rewrite call_works by done; by rewrite (io_bind_done _ _ _ _ _ Eo)].
    erewrite io_bind_done; [|unfold disk_write_all; by rewrite call_works].
    unfold disk_sync_all. by rewrite call_works.
  - split_and!; [by cbn; rewrite Hv1 | by repeat apply no_links_alter | done | | apply Hr..].
    exists i. cbn. rewrite !list_lookup_alter_ne by congruence. by rewrite Hwi.
  - rewrite !list_lookup_alter_eq, Hj. done.
Qed.

Lemma drain_frame w d :
  verdicts d = [] →
  ∃ w' d', drain (w, d) = (Done tt, (w', d')) ∧ wpath w' = wpath w ∧ handle w' = handle w ∧
    names d' = names d ∧ verdicts d' = [] ∧ ∀ g, g ≠ handle w → inodes d' !! g = inodes d !! g.
Proof.
  intros Hv. unfold drain. rewrite (io_bind_done _ _ (w, d) (batch w) (w, d)) by done.
  destruct (batch w) as [|b0 b]; [by exists w, d|].
  unfold file_write_all. unfold mbind, io_bind. cbn [gets fst]. unfold on_disk, disk_write_all.
  rewrite call_works by done. do 2 eexists. split; [done|]. cbn. split_and!; try done.
  intros g Hg. by apply list_lookup_alter_ne.
Qed.

Lemma finalize_works w d a tmp_path buf h :
  represents (w, d) a → names d !! tmp_path = Some h → inodes d !! h = Some (mkInode buf buf) →
  tmp_path ≠ wpath w →
  ∃ s', writer_finalize_rewrite tmp_path (w, d) = (Done tt, s') ∧ represents s' (finalize_rewrite buf a).
Proof.
  intros Hr Ht Hi Hne. pose proof Hr as (Hv & [_ Hl] & Hn & _). cbn in *.
  destruct (does_drain (w, d) a Hr) as ([w1 d1] & E & Hr1).
  destruct (drain_frame w d Hv) as (w2 & d2 & E' & Hw & Hh & Hnames & _ & Hino). rewrite E in E'. injection E' as <- <-.
  assert (h ≠ handle w) as Hhne by (intros ->; eauto). rewrite <- Hnames in Ht. rewrite <- Hino in Hi by done.
  unfold writer_finalize_rewrite. rewrite (io_bind_done _ _ _ _ _ E).
  rewrite (io_bind_done _ _ (w1, d1) (wpath w1) (w1, d1)) by done.
  destruct Hr1 as (Hv1 & [Hval Hl1] & Hn1 & _ & Hp & Hls & Hb). cbn in *.
  set (d2 := set_names (<[wpath w1 := h]> (delete tmp_path (names d1))) d1).
  rewrite (io_bind_done _ _ _ tt (w1, d2)) by (unfold on_disk, rename; rewrite call_works by done; by rewrite Ht).
  rewrite (io_bind_done _ _ _ h (w1, d2)) by
    (unfold on_disk, open_append, open_inode; rewrite call_works by done; cbn; by rewrite lookup_insert_eq).
  eexists. split; [done|]. split_and!; cbn; try done.
  - split; cbn.
    + intros p g [[<- <-]|[_ [_ ?]%lookup_delete_Some]]%lookup_insert_Some; eauto.
    + intros p q g [[<- <-]|[? [? ?]%lookup_delete_Some]]%lookup_insert_Some
        [[<- E2]|[? [? ?]%lookup_delete_Some]]%lookup_insert_Some; try done; eauto;
        subst; exfalso; eauto.
  - apply lookup_insert_eq.
  - by eexists.
Qed.

(** A turn of the rewriter, with what it dumps. *)
Lemma does_rewriter threshold buf :
  does (rewriter_turn threshold buf)
    (λ a, if file_size a <? threshold then a else finalize_rewrite buf a).
Proof.
  intros [w d] a Hr. pose proof Hr as (Hv & _ & Hn & (i & Hi & Hc & _) & _). cbn in *.
  unfold rewriter_turn, logged, writer_file_size. rewrite (io_bind_done _ _ _ (file_size a) (w, d)).
  2: { unfold mbind, io_bind, gets, on_disk, disk_read. cbn. rewrite call_works by done. unfold holding.
       rewrite Hn. cbn. by rewrite Hi, Hc. }
  destruct (_ <? _); [by exists (w, d)|].
  rewrite (io_bind_done _ _ (w, d) (wpath w) (w, d)) by done.
  destruct (write_tmp_works w d a buf Hr) as (d' & h & E & Hr' & Hn' & Hi').
  rewrite (io_bind_done _ _ _ tt (w, d')) by (unfold on_disk; by rewrite E).
  destruct (finalize_works w d' a _ buf h Hr' Hn' Hi') as (s' & E' & Hr''); [apply tmp_of_ne|].
  exists s'. by rewrite E'.
Qed.

(** C7: while the disk works, the writer on the disk is the one of file Aof: its calls (appending,
    flushing, the ticker's) and the rewriter's turns succeed and leave the file, what of it is
    durable, the batch and the time of the last sync as the functions there say, and the path
    keeps leading to the file the writer writes to. *)
Theorem writer_refines cs threshold buf s a :
  represents s a →
  (∃ s', writer_calls cs s = (Done tt, s') ∧ represents s' (foldl (λ a c, aof_call c a) a cs)) ∧
  ∃ s', rewriter_turn threshold buf s = (Done tt, s') ∧
    represents s' (if file_size a <? threshold then a else finalize_rewrite buf a).
Proof. intros Hr. split; [by apply does_calls | by apply does_rewriter]. Qed.

(** * Calls that fail without writing *)

Definition mild (d : Disk) : Prop := Forall (λ v, v = Works ∨ v = Fails 0) (verdicts d).

(** Each of [es] in order, once or twice. *)
Inductive twice {A} : list A → list A → Prop :=
| twice_nil : twice [] []
| twice_once es ds e : twice es ds → twice (es ++ [e]) (ds ++ [e])
| twice_again es ds e : twice es ds → twice (es ++ [e]) (ds ++ [e; e]).

(** The file holds [c] and the batch [b]; the calls to come work or fail without writing. *)
Definition log_has (h : nat) (c b : bytes) (s : WD) : Prop :=
  mild s.2 ∧ (handle s.1 = h ∧ names s.2 !! wpath s.1 = Some h) ∧ batch s.1 = b ∧
  ∃ i, inodes s.2 !! h = Some i ∧ content i = c.

(** A failure, which leaves the log at one of [l]. *)
Definition failing (h : nat) (l : list (bytes * bytes)) (halted : bool) (s : WD) : Prop :=
  halted = false ∧ ∃ cb, cb ∈ l ∧ log_has h cb.1 cb.2 s.

Lemma mild_tail d : mild d → mild (drop_verdict d).
Proof. unfold mild. cbn. by destruct 1. Qed.

Lemma mild_call {A} (works : Io Disk A) partly d :
  mild d →
  call works partly d = works (drop_verdict d) ∨
  call works partly d = (Failed IoOther, partly 0%nat (drop_verdict d)).
Proof.
  intros Hm. unfold call, drop_verdict, mild in *. destruct (verdicts d) as [|v vs]; [by left|].
  apply Forall_cons in Hm as [[->| ->] _]; [by left | by right].
Qed.

Lemma alter_same {A} (f : A → A) (l : list A) h : (∀ x, f x = x) → alter f h l = l.
Proof.
  intros Hf. apply list_eq. intros g. destruct (decide (h = g)) as [->|]; [|by rewrite list_lookup_alter_ne].
  rewrite list_lookup_alter_eq. destruct (l !! g); [|done]. cbn. by rewrite Hf.
Qed.

Lemma put_nothing h d : put h [] d = d.
Proof.
  unfold put, alter_inode. rewrite alter_same; [by destruct d|]. intros []. cbn. by rewrite app_nil_r.
Qed.

Lemma triple_put_batch h c b b' E : io_triple (log_has h c b) (put_batch b') (λ _, log_has h c b') E.
Proof. by intros [w d] (Hm & Hh & Hb & Hi). Qed.

Section failing_calls.
Variables (h : nat) (c b : bytes) (l : list (bytes * bytes)).
Hypothesis Hin : (c, b) ∈ l.

Lemma failing_now s : log_has h c b s → failing h l false s.
Proof. intros Hs. split; [done|]. by exists (c, b). Qed.

Lemma triple_file_write buf :
  io_triple (log_has h c b) (file_write_all buf) (λ _, log_has h (c ++ buf) b) (failing h l).
Proof.
  intros [w d] (Hm & [Hh Hn] & Hb & i & Hi & Hc). cbn in *. unfold file_write_all, on_disk.
  rewrite (io_bind_done _ _ (w, d) h (w, d)) by (unfold gets; cbn; by rewrite Hh). unfold disk_write_all.
  destruct (mild_call (modify (put h buf)) (λ n, put h (take n buf)) d Hm) as [E|E]; rewrite E.
  - split_and!; [by apply mild_tail | done..|]. eexists. cbn. rewrite list_lookup_alter_eq, Hi.
    split; [done|]. cbn. by rewrite Hc.
  - apply failing_now. cbn. rewrite put_nothing. split_and!; [by apply mild_tail | done..|]. by exists i.
Qed.

Lemma triple_file_sync : io_triple (log_has h c b) file_sync_all (λ _, log_has h c b) (failing h l).
Proof.
  intros [w d] (Hm & [Hh Hn] & Hb & i & Hi & Hc). cbn in *. unfold file_sync_all, on_disk.
  rewrite (io_bind_done _ _ (w, d) h (w, d)) by (unfold gets; cbn; by rewrite Hh). unfold disk_sync_all.
  destruct (mild_call (modify (alter_inode (λ i, mkInode (content i) (content i)) h)) (λ _ d, d) d Hm) as [E|E];
    rewrite E; [|apply failing_now]; (split_and!; [by apply mild_tail | done..|]); eexists; cbn; [|done].
  by rewrite list_lookup_alter_eq, Hi.
Qed.

Lemma triple_put_last t : io_triple (log_has h c b) (put_last t) (λ _, log_has h c b) (failing h l).
Proof. by intros [w d] (Hm & Hh & Hb & Hi). Qed.

Lemma triple_done : io_triple (log_has h c b) (mret tt) (λ _, log_has h c b) (failing h l).
Proof. by intros s Hs. Qed.

Lemma triple_gets {A} (r : DiskWriter → A) (k : A → Io WD ()) Q :
  (∀ x, io_triple (log_has h c b) (k x) Q (failing h l)) →
  io_triple (log_has h c b) (x ← gets r; k x) Q (failing h l).
Proof. intros Hk s Hs. rewrite (io_bind_done _ _ s (r s.1) s) by done. by apply Hk. Qed.

Lemma triple_batch (k : bytes → Io WD ()) Q :
  io_triple (log_has h c b) (k b) Q (failing h l) →
  io_triple (log_has h c b) (x ← gets batch; k x) Q (failing h l).
Proof.
  intros Hk s Hs. rewrite (io_bind_done _ _ s (batch s.1) s) by done. pose proof Hs as (_ & _ & -> & _). by apply Hk.
Qed.

End failing_calls.

Lemma triple_drain h c b l :
  (c, b) ∈ l → io_triple (log_has h c b) drain (λ _, log_has h (c ++ b) []) (failing h l).
Proof.
  intros Hin. apply triple_batch. destruct b as [|x b'] eqn:Eb; [intros s; by rewrite app_nil_r|].
  rewrite <- Eb in *. eapply io_triple_bind; [by apply triple_file_write|]. intros []. apply triple_put_batch.
Qed.

(** [flush] and the tick leave every entry in the file or the batch. *)
Lemma triple_flush h c b :
  io_triple (log_has h c b) writer_flush (λ _, log_has h (c ++ b) []) (failing h [(c, b); (c ++ b, [])]).
Proof.
  eapply io_triple_bind; [apply triple_drain; set_solver|]. intros []. apply triple_gets. intros [];
    [apply triple_file_sync; set_solver | apply triple_done..].
Qed.

Lemma triple_tick h c b t t' :
  io_triple (log_has h c b) (writer_flush_if_needed t t')
    (λ _ s, log_has h c b s ∨ log_has h (c ++ b) [] s) (failing h [(c, b); (c ++ b, [])]).
Proof.
  apply triple_gets. intros []; try (by intros s Hs; left). apply triple_gets. intros last.
  destruct (_ <=? _); [|by intros s Hs; left]. apply triple_batch.
  eapply io_triple_bind with (Q := λ _, log_has h (c ++ b) []).
  - destruct b as [|x b'] eqn:Eb; [rewrite app_nil_r; apply triple_file_sync; set_solver|]. rewrite <- Eb in *.
    eapply io_triple_bind; [apply triple_file_write; set_solver|]. intros [].
    eapply io_triple_bind; [apply triple_put_batch|]. intros []. apply triple_file_sync. set_solver.
  - intros []. eapply io_triple_weaken; [apply triple_put_last| | |]; eauto.
Qed.

Lemma triple_append h c b e t t' :
  io_triple (log_has h c b) (writer_append_raw e t t')
    (λ _ s, log_has h c (b ++ e) s ∨ log_has h (c ++ (b ++ e) ++ e) [] s)
    (failing h [(c, b ++ e); (c ++ b ++ e, []); (c ++ (b ++ e) ++ e, [])]).
Proof.
  apply triple_batch. eapply io_triple_bind; [apply triple_put_batch|]. intros [].
  destruct (_ <? _)%nat; [by intros s Hs; left|].
  eapply io_triple_bind; [apply triple_drain; set_solver|]. intros [].
  eapply io_triple_bind; [apply triple_file_write; set_solver|]. intros [].
  rewrite <- app_assoc. set (c' := c ++ (b ++ e) ++ e).
  apply io_triple_weaken with (P := log_has h c' []) (Q := λ _, log_has h c' [])
    (E := failing h [(c, b ++ e); (c ++ b ++ e, []); (c', [])]); auto.
  apply triple_gets. intros []; [apply triple_file_sync; set_solver | | apply triple_done].
  apply triple_gets. intros last. destruct (_ <=? _); [|apply triple_done].
  eapply io_triple_bind; [apply triple_file_sync; set_solver|]. intros []. apply triple_put_last.
Qed.

(** The entries a list of calls appends. *)
Definition appended (calls : list WriterCall) : list bytes :=
  omap (λ c, match c with DoAppend e _ _ => Some e | _ => None end) calls.

(** The file and the batch hold [f0] and then the entries [es], each once or twice. *)
Definition keeps_log (h : nat) (f0 : bytes) (es : list bytes) (s : WD) : Prop :=
  ∃ c b ds, log_has h c b s ∧ c ++ b = f0 ++ mjoin ds ∧ twice es ds.

Lemma keeps_log_at h f0 es ds c b s :
  c ++ b = f0 ++ mjoin ds → twice es ds → log_has h c b s → keeps_log h f0 es s.
Proof. intros. by exists c, b, ds. Qed.

Lemma logged_triple P m (Q : WD → Prop) s :
  io_triple P m (λ _, Q) (λ halted s, halted = false ∧ Q s) → P s → ∃ s', logged m s = (Done tt, s') ∧ Q s'.
Proof.
  intros Hm Hs. specialize (Hm s Hs). unfold logged. destruct (m s) as [[[]| |] s'];
    [by exists s' | exists s'; by destruct Hm | by destruct Hm].
Qed.

Lemma failing_weaken h l (Q : WD → Prop) halted s :
  failing h l halted s → Forall (λ cb, ∀ s, log_has h cb.1 cb.2 s → Q s) l → halted = false ∧ Q s.
Proof. intros (-> & cb & Hin & Hcb) Hl. rewrite Forall_forall in Hl. split; [done|]. by eapply Hl. Qed.

Lemma call_keeps h f0 es call s :
  keeps_log h f0 es s →
  ∃ s', logged (writer_call call) s = (Done tt, s') ∧ keeps_log h f0 (es ++ appended [call]) s'.
Proof.
  intros (c & b & ds & Hs & E & Htw).
  assert (∀ s, log_has h c b s → keeps_log h f0 es s) as H1 by eauto using keeps_log_at.
  assert (∀ s, log_has h (c ++ b) [] s → keeps_log h f0 es s) as H2.
  { intros s'. apply (keeps_log_at _ _ _ ds); [by rewrite app_nil_r | done]. }
  eapply logged_triple; [|exact Hs]. destruct call as [e t t'| |t t']; cbn [writer_call appended omap list_omap];
    rewrite ?app_nil_r.
  - assert (c ++ b ++ e = f0 ++ mjoin (ds ++ [e])) as Eo by (rewrite app_assoc, E, join_app; cbn; by rewrite app_nil_r, app_assoc).
    assert (∀ s, log_has h c (b ++ e) s → keeps_log h f0 (es ++ [e]) s) as H3
      by (intros s'; apply (keeps_log_at _ _ _ (ds ++ [e])); [done | by constructor]).
    assert (∀ s, log_has h (c ++ b ++ e) [] s → keeps_log h f0 (es ++ [e]) s) as H4
      by (intros s'; apply (keeps_log_at _ _ _ (ds ++ [e])); [by rewrite app_nil_r | by constructor]).
    assert (∀ s, log_has h (c ++ (b ++ e) ++ e) [] s → keeps_log h f0 (es ++ [e]) s) as H5.
    { intros s'. apply (keeps_log_at _ _ _ (ds ++ [e; e])); [|by constructor].
      rewrite app_nil_r, app_assoc, Eo, !join_app. change (mjoin [e; e]) with (e ++ e ++ []).
      change (mjoin [e]) with (e ++ []). by rewrite !app_nil_r, <- !app_assoc. }
    eapply io_triple_weaken; [apply triple_append | done | intros [] s' []; auto |].
    intros halted s' Hf. eapply failing_weaken; [exact Hf|]. by repeat (apply Forall_cons_2; [assumption|]).
  - eapply io_triple_weaken; [apply triple_flush | done | intros []; auto |].
    intros halted s' Hf. eapply failing_weaken; [exact Hf|]. by repeat (apply Forall_cons_2; [assumption|]).
  - eapply io_triple_weaken; [apply triple_tick | done | intros [] s' []; auto |].
    intros halted s' Hf. eapply failing_weaken; [exact Hf|]. by repeat (apply Forall_cons_2; [assumption|]).
Qed.

Lemma appended_cons c calls : appended (c :: calls) = appended [c] ++ appended calls.
Proof. by destruct c. Qed.

Lemma calls_keep h f0 es calls s :
  keeps_log h f0 es s →
  ∃ s', writer_calls calls s = (Done tt, s') ∧ keeps_log h f0 (es ++ appended calls) s'.
Proof.
  revert es s. induction calls as [|c calls IH]; intros es s Hs.
  { exists s. by rewrite app_nil_r. }
  destruct (call_keeps h f0 es c s Hs) as (s1 & E1 & H1). destruct (IH _ s1 H1) as (s2 & E2 & H2).
  exists s2. cbn [writer_calls]. rewrite (io_bind_done _ _ _ _ _ E1). split; [done|].
  by rewrite (appended_cons c), app_assoc.
Qed.

(** Entries written twice are those of commands run twice. *)
Lemma twice_commands ws es ds :
  twice es ds → es = omap to_aof_entry ws → Forall (λ c, is_write c = true) ws →
  ∃ ws', twice ws ws' ∧ ds = omap to_aof_entry ws'.
Proof.
  intros Htw. revert ws. induction Htw as [|es ds e Htw IH|es ds e Htw IH]; intros ws E Hws.
  { exists []. destruct Hws as [|c ws Hc Hws]; [split; [constructor|done]|].
    apply to_aof_entry_is_write in Hc as [e He]. cbn in E. by rewrite He in E. }
  all: destruct ws as [|c ws _] using rev_ind; [by destruct es|]; apply Forall_app in Hws as [Hws [Hc _]%Forall_cons];
    apply to_aof_entry_is_write in Hc as [e' He]; rewrite omap_app in E; cbn in E; rewrite He in E;
    apply app_inj_tail in E as [E ->]; destruct (IH ws E Hws) as (ws' & Hws' & ->).
  - exists (ws' ++ [c]). split; [by constructor|]. rewrite omap_app. cbn. by rewrite He.
  - exists (ws' ++ [c; c]). split; [by constructor|]. rewrite omap_app. cbn. by rewrite He.
Qed.

Lemma twice_effects ws ws' a : twice ws ws' → Forall incr_free ws → effects ws' a = effects ws a.
Proof.
  intros Htw. induction Htw as [|ws ws' c Htw IH|ws ws' c Htw IH]; intros Hi; [done|..];
    apply Forall_app in Hi as [Hi Hc]; unfold effects in *; rewrite !foldl_app, IH by done; [done|].
  apply (effects_idempotent [c]). done.
Qed.

Lemma twice_Forall {A} (P : A → Prop) l l' : twice l l' → Forall P l → Forall P l'.
Proof.
  intros Htw. induction Htw; intros Hl; [done|..]; apply Forall_app in Hl as [? [? _]%Forall_cons];
    apply Forall_app; auto.
Qed.

(** The disk works again. *)
Definition heal (s : WD) : WD := (s.1, mkDisk (names s.2) (history s.2) (inodes s.2) []).

Lemma flush_healthy s : verdicts s.2 = [] → ∃ s', writer_flush s = (Done tt, s').
Proof.
  destruct s as [w d]. intros Hv. destruct (drain_frame w d Hv) as (w' & d' & E & _ & _ & _ & Hv' & _).
  unfold writer_flush. rewrite (io_bind_done _ _ _ _ _ E).
  rewrite (io_bind_done _ _ (w', d') (policy w') (w', d')) by done.
  destruct (policy w'); [|by eexists..]. unfold file_sync_all.
  rewrite (io_bind_done _ _ (w', d') (handle w') (w', d')) by done.
  unfold on_disk, disk_sync_all. rewrite call_works by done. by eexists.
Qed.

Lemma log_has_heal h c b s : log_has h c b s → log_has h c b (heal s).
Proof. intros (_ & H). split; [by constructor | exact H]. Qed.

Section recovery.
Context {M : Type} {DM : DashMap bytes ValueEntry M} {CL : Clock} {IT : Itoa}.

(** C8: calls that fail lose nothing while they write nothing.  The log starts with the entries of
    [cs0]; whatever the writer's calls are (appends of the entries of [ws] among them) and
    whichever of the writes and syncs under them fail without writing a byte, all calls return and
    the entries stay in the file or the batch: once the disk works again, a flush succeeds and the
    file at the log's path, replayed into an empty store, gives the data of [cs0] and [ws], for
    commands without lifetimes and, as entries may be written twice, without [INCR] in [ws]. *)
Theorem failed_calls_recover cs0 ws calls h s (w : World (DashMapEngine M)) :
  Forall (λ c, timeless c ∧ aof_encodable c ∧ is_write c = true) (cs0 ++ ws) → Forall incr_free ws →
  log_has h (log_of cs0) [] s → appended calls = omap to_aof_entry ws → holds w ∅ →
  ∃ s1 s2 i n w', writer_calls calls s = (Done tt, s1) ∧ writer_flush (heal s1) = (Done tt, s2) ∧
    holding s2.2 (wpath s2.1) = Some i ∧ replay_aof (Ok (content i)) w = (Val (Ok n), w') ∧
    holds w' (effects ws (effects cs0 ∅)).
Proof.
  intros [Hcs0 Hws]%Forall_app Hi Hs Hap Hh.
  destruct (calls_keep h (log_of cs0) [] calls s) as (s1 & E1 & c & b & ds & H1 & Hcb & Htw).
  { exists (log_of cs0), [], []. split_and!; [done | done | constructor]. }
  rewrite app_nil_l, Hap in Htw. apply log_has_heal in H1.
  destruct (twice_commands ws _ ds Htw eq_refl) as (ws' & Htw' & ->).
  { eapply Forall_impl; [exact Hws|]. by intros ? (_ & _ & ?). }
  pose proof (triple_flush h c b (heal s1) H1) as Hf.
  destruct (flush_healthy (heal s1) eq_refl) as [s2 E2]. rewrite E2 in Hf.
  destruct Hf as (_ & [_ Hn] & _ & i & Hino & Hc).
  assert (content i = log_of (cs0 ++ ws')) as Elog by (by rewrite Hc, Hcb, log_of_app).
  assert (Forall (λ c, timeless c ∧ aof_encodable c ∧ is_write c = true) (cs0 ++ ws')) as Hall.
  { apply Forall_app. split; [done|]. by eapply twice_Forall. }
  destruct (apply_all_effects (cs0 ++ ws') w ∅ Hall Hh) as (w' & E & Hh').
  exists s1, s2, i, (Z.of_nat (length (cs0 ++ ws'))), w'. split_and!; [done..| | |].
  - unfold holding. by rewrite Hn.
  - rewrite Elog. by apply replay_writes.
  - rewrite foldl_app in Hh'. by rewrite <- (twice_effects ws ws').
Qed.
End recovery.

(** * What fails *)

(** A writer of an empty log. *)
Definition wit_path : bytes := str "zetdb.aof".
Definition wit_writer (p : FsyncPolicy) (vs : list Verdict) : WD :=
  (mkDiskWriter 0 wit_path p 0 [], mkDisk {[ wit_path := 0%nat ]} [] [mkInode [] []] vs).
Definition wit_entry (k v : string) : bytes := default [] (to_aof_entry (CSet (str k) (str v) None)).

(** What the path of the log holds. *)
Definition log_file (s : WD) : option bytes := content <$> holding s.2 (wpath s.1).

Section examples.
#[local] Existing Instances gmap_dashmap ms_clock itoa_display.

(** What a restart finds at [k]. *)
Definition restarted (d : bytes) (k : string) : option bytes :=
  match replay_aof (Ok d) (wit_empty : World (DashMapEngine (gmap bytes ValueEntry))) with
  | (Val (Ok _), w) => data <$> dm_get (emap (eng w)) (str k)
  | _ => None
  end.

(** A write that fails part of the way is repeated from its start: the flush after it succeeds,
    but the bytes of the first attempt stay in front of the second, and a restart reads the two as
    one entry, with a value no client wrote. *)
Theorem torn_retry_corrupts :
  ∃ s1 s2 d,
    writer_calls [DoAppend (wit_entry "k" "0123456789012345") 0 0; DoFlush] (wit_writer No [Fails 12]) = (Done tt, s1) ∧
    writer_flush s1 = (Done tt, s2) ∧ log_file s2 = Some d ∧
    restarted d "k" = Some (str "0123" ++ take 12 (wit_entry "k" "0123456789012345")).
Proof.
  set (r := writer_calls _ _). exists r.2, (writer_flush r.2).2, (default [] (log_file (writer_flush r.2).2)).
  split_and!; [by apply pair_first; vm_compute | by apply pair_first; vm_compute | by vm_compute..].
Qed.

(** When the rename of a rewrite works and opening the new file fails, the writer keeps the file that
    has lost its name: later appends and flushes succeed and a restart finds nothing of them. *)
Theorem reopen_failure_loses :
  ∃ s1 s2,
    rewriter_turn 0 [] (wit_writer No (replicate 5 Works ++ [Fails 0])) = (Done tt, s1) ∧
    writer_calls [DoAppend (wit_entry "k" "v") 0 0; DoFlush] s1 = (Done tt, s2) ∧
    verdicts s1.2 = [] ∧ log_file s2 = Some [] ∧
    content <$> inodes s2.2 !! handle s2.1 = Some (wit_entry "k" "v").
Proof.
  set (r := rewriter_turn _ _ _). exists r.2, (writer_calls [DoAppend (wit_entry "k" "v") 0 0; DoFlush] r.2).2.
  split_and!; [by apply pair_first; vm_compute | by apply pair_first; vm_compute | by vm_compute..].
Qed.

(** Whatever the policy, an append that does not fill the batch returns without touching the disk:
    a halt loses it, also under [Always]. *)
Theorem append_stays_in_memory e t t' s :
  (length (batch s.1 ++ e) < AOF_BATCH_SIZE)%nat →
  ∃ s', writer_append_raw e t t' s = (Done tt, s') ∧ s'.2 = s.2 ∧ batch s'.1 = batch s.1 ++ e.
Proof.
  intros Hlen. destruct s as [w d]. unfold writer_append_raw.
  rewrite (io_bind_done _ _ (w, d) (batch w) (w, d)) by done.
  erewrite io_bind_done by reflexivity. rewrite (proj2 (Nat.ltb_lt _ _)) by done. by eexists.
Qed.

(** * Witnesses *)

Lemma wit_writer_links p vs : no_links (wit_writer p vs).2.
Proof.
  split; cbn.
  - intros q h [_ <-]%lookup_singleton_Some. lia.
  - by intros q r h [<- _]%lookup_singleton_Some [<- _]%lookup_singleton_Some.
Qed.

(** An old snapshot, and a dump that fails after three bytes. *)
Definition wit_disk : Disk := mkDisk {[ str "dump" := 0%nat ]} [] [mkInode (str "old") (str "old")] [Works; Fails 3].

Lemma snapshot_atomic_witness :
  ∃ o d', save_snapshot (str "dump") (str "new file") wit_disk = (o, d') ∧
    content <$> holding d' (str "dump") = Some (str "old") ∧
    ∀ d'', after_halt d' d'' →
      content <$> holding d'' (str "dump") = Some (str "old") ∨
      content <$> holding d'' (str "dump") = Some (str "new file").
Proof.
  assert (save_snapshot (str "dump") (str "new file") wit_disk =
    (Failed IoOther, (save_snapshot (str "dump") (str "new file") wit_disk).2)) as E
    by (by apply pair_first; vm_compute).
  exists (Failed IoOther), (save_snapshot (str "dump") (str "new file") wit_disk).2. split; [exact E|].
  change (Some (str "old")) with (content <$> holding wit_disk (str "dump")).
  apply (snapshot_atomic (str "dump") (str "new file") wit_disk (Failed IoOther)); [|exact E].
  split_and!; [done| |].
  - split; cbn.
    + intros q h [_ <-]%lookup_singleton_Some. lia.
    + by intros q r h [<- _]%lookup_singleton_Some [<- _]%lookup_singleton_Some.
  - by intros i [= <-].
Defined.

Lemma writer_refines_witness :
  ∃ s', writer_calls [DoAppend (wit_entry "k" "v") 0 0; DoFlush] (wit_writer Always []) = (Done tt, s') ∧
    represents s' (mkAof (wit_entry "k" "v") (length (wit_entry "k" "v")) Always 0 []).
Proof.
  apply (writer_refines [DoAppend (wit_entry "k" "v") 0 0; DoFlush] 0 [] _ (aof_new [] Always 0)).
  split_and!; [done | apply wit_writer_links | done | by eexists | done..].
Defined.

Definition wit_ws : list Command := [CSet (str "k") (str "v") None; CDel (str "j")].
Definition wit_calls : list WriterCall :=
  [DoAppend (wit_entry "k" "v") 0 0; DoFlush; DoTick 0 0; DoAppend (default [] (to_aof_entry (CDel (str "j")))) 0 0].

Lemma failed_calls_recover_witness :
  ∃ s1 s2 i n w', writer_calls wit_calls (wit_writer Always [Fails 0; Fails 0]) = (Done tt, s1) ∧
    writer_flush (heal s1) = (Done tt, s2) ∧ holding s2.2 (wpath s2.1) = Some i ∧
    replay_aof (Ok (content i)) (wit_empty : World (DashMapEngine (gmap bytes ValueEntry))) = (Val (Ok n), w') ∧
    holds w' (effects wit_ws (effects [] ∅)).
Proof.
  apply (failed_calls_recover [] wit_ws wit_calls 0).
  - repeat constructor; unfold value_ok; simpl; lia.
  - by repeat constructor.
  - split_and!; [by repeat constructor; auto | done..|]. by eexists.
  - reflexivity.
  - split_and!; [done | |]; by intros k.
Defined.
End examples.
