(* ===== verification/FastInline.v ===== *)
(** An inline connection on the fast path (no append-only file, metrics or write timeout): lines that
    parse are served in order however the network cuts them, and on a store without limit and
    deadlines [SET] and [GET] answer and act as on the other paths.  (Lines that do not parse
    shift the buffer: [fast_error_shifts] in file SessionProps.) *)

From S2P Require Import Prelude RustStd Crates Domain Parser InlineFacts RespFacts ParserProps.
From S2P Require Import ParserBorrowed BorrowedProps Metrics World Engine EngineFacts EvictFacts.
From S2P Require Import StoreSpec EngineProps Response Dispatcher DispatcherProps Aof AofFacts.
From S2P Require Import RestoreFacts AofProps CommandSpec Session SessionProps InlineSession EndToEnd.

(** A line with a command, or a blank one. *)
Definition line_parses {MC : Memchr} (line : bytes) : Prop :=
  line_ok line ∧ ∃ r, parse_inline_borrowed (ended line) = Ok r.

(** A line with a command. *)
Definition line_runs {MC : Memchr} (line : bytes) : Prop :=
  line_ok line ∧ ∃ n c, parse_inline_borrowed (ended line) = Ok (BComplete n c).

Section props.
Context {M : Type} {DM : DashMap bytes ValueEntry M} {CL : Clock} {IT : Itoa} {MC : Memchr}.
Abbreviation SW := (SWorld (M := M)).
Implicit Types (s : SW) (rb wb line : bytes).
Abbreviation lines ls := (mjoin (ended <$> ls)).

(** What one line does on this path. *)
Definition exec_fast_line (line wb : bytes) : ST SW bytes :=
  match parse_inline_borrowed (ended line) with
  | Ok (BComplete _ command) => lift_w (dispatch_fast command wb)
  | _ => mret wb
  end.

Lemma fast_line_appends : appends exec_fast_line.
Proof.
  intros line wb s. unfold exec_fast_line.
  destruct (parse_inline_borrowed (ended line)) as [[n c| |n]|e];
    try (unfold mbind, st_bind, mret, st_ret; by rewrite app_nil_r).
  by destruct c.
Qed.

(** The loop, from an offset into the buffer. *)
Lemma fast_loop_run ls pre rb future fuel :
  Forall line_parses ls → rb ++ future = lines ls → (length rb < fuel)%nat →
  ∃ ls1 ls2 done rb', ls = ls1 ++ ls2 ∧ rb = done ++ rb' ∧ rb' ++ future = lines ls2 ∧
    partial ended rb' ls2 ∧
    ∀ wb s, fast_inline_loop fuel (pre ++ rb) (length pre) wb s =
      (wb' ← run_cmds exec_fast_line ls1 wb; mret (pre ++ rb, length (pre ++ done), wb')) s.
Proof.
  intros Hls. revert pre rb fuel. induction Hls as [|line ls [Hl [r Hok]] Hls IH]; intros pre rb fuel E Hf;
    (destruct fuel as [|fuel]; [lia|]).
  - apply app_eq_nil in E as [-> ->]. exists [], [], [], []. split_and!; try done.
    intros wb s. cbn [fast_inline_loop run_cmds]. rewrite app_nil_r. unfold lift_o, mbind, st_bind.
    rewrite slice_from_val, drop_all by lia. unfold parse_inline_borrowed, line_end. by rewrite memchr2_position.
  - change (lines (line :: ls)) with (ended line ++ lines ls) in E.
    assert (∀ wb s, fast_inline_loop (S fuel) (pre ++ rb) (length pre) wb s =
      match parse_inline_borrowed rb with
      | Ok (BComplete consumed command) =>
          (wb ← lift_w (dispatch_fast command wb);
           fast_inline_loop fuel (pre ++ rb) (length pre + consumed) wb) s
      | Ok (BSkip consumed) => fast_inline_loop fuel (pre ++ rb) (length pre + consumed) wb s
      | Ok BIncomplete | Err EmptyCommand => (Val (pre ++ rb, length pre, wb), s)
      | Err (Parser.SyntaxError _) =>
          fast_inline_loop fuel (skip_to_newline (pre ++ rb)) (length pre) (write_to syntax_reply wb) s
      | Err (Parser.UnknownCommand _) =>
          fast_inline_loop fuel (skip_to_newline (pre ++ rb)) (length pre) (write_to unknown_reply wb) s
      end) as Hturn.
    { intros wb s. cbn [fast_inline_loop]. unfold lift_o, mbind, st_bind.
      rewrite slice_from_val by (rewrite length_app; lia). rewrite drop_app_length.
      by destruct (parse_inline_borrowed rb) as [[]|[]]. }
    destruct (line_arrived rb future line (lines ls) E) as [(rb1 & -> & E1)|(q & Hq & Eq & Hlt)].
    + pose proof (ended_nonempty line). rewrite length_app in Hf.
      destruct (IH (pre ++ ended line) rb1 fuel E1) as (ls1 & ls2 & dn & rb' & -> & -> & E2 & Hp & Hrun); [lia|].
      exists (line :: ls1), ls2, (ended line ++ dn), rb'. split_and!; [done | by rewrite app_assoc | done | done |].
      intros wb s. rewrite Hturn. destruct (line_parse line (dn ++ rb') Hl) as [-> Hn].
      cbn [run_cmds]. rewrite length_app, <- !app_assoc in Hrun. unfold mbind, st_bind in *.
      unfold exec_fast_line; rewrite Hok in *. destruct r as [n c| |n]; try done; subst n.
      * destruct (lift_w (dispatch_fast c wb) s) as [[wb1| |] s1]; [apply Hrun | done..].
      * apply Hrun.
    + exists [], (line :: ls), [], rb. split_and!; [done | done | done | done |]. intros wb s.
      rewrite Hturn, (line_incomplete line rb q) by done. cbn [run_cmds]. by rewrite app_nil_r.
Qed.

Lemma fast_inline_batch ls rb future wb s :
  Forall line_parses ls → rb ++ future = lines ls →
  fast_batch rb wb s =
  (r ← fast_inline_loop (S (length rb)) rb 0 wb;
   let '(read_buf, offset, write_buf) := r in
   read_buf ← lift_o (advance offset read_buf);
   mret (read_buf, write_buf)) s.
Proof.
  intros Hls E. unfold fast_batch. rewrite bool_decide_eq_false_2; [done|].
  destruct rb as [|b rb]; [done|]. destruct Hls as [|line ls [(_ & _ & Hh) _] _]; [done|].
  change (lines (line :: ls)) with (ended line ++ lines ls) in E. intros [= ->].
  destruct line as [|x line]; cbn in *; [done|]. injection E as E _. congruence.
Qed.

Lemma fast_chunking chunks ls s out s' :
  Forall line_parses ls → mjoin chunks = lines ls → [] ∉ chunks →
  Z.of_nat (length (lines ls)) ≤ MAX_READ_BUF →
  run_cmds exec_fast_line ls [] s = (Val out, s') → Z.of_nat (length out) ≤ MAX_WRITE_BUF →
  session_loop false fast_batch (arriving chunks) [] [] [] s = (Val out, s').
Proof.
  intros Hls E Hne Hlen Hrun Hout.
  apply (session_units ended exec_fast_line line_parses false fast_batch fast_line_appends)
    with (us := ls) (rb := []) (sent := []); try done.
  - clear. intros ls rb future Hls _ E.
    destruct (fast_loop_run ls [] rb future (S (length rb)) Hls E)
      as (ls1 & ls2 & dn & rb' & ? & -> & ? & ? & Hr); [lia|].
    exists ls1, ls2, rb'. split_and!; [done..|]. intros wb s. rewrite (fast_inline_batch ls _ future) by done.
    cbn [app length] in Hr. unfold mbind, st_bind in *. rewrite Hr.
    destruct (run_cmds _ ls1 wb s) as [[wb'| |] s1]; try done. unfold mret, st_ret, lift_o.
    unfold advance. by rewrite length_app, (proj2 (Nat.leb_le _ _)), drop_app_length by lia.
  - destruct ls as [|line ls]; [done|]. apply ended_nonempty.
Qed.


(** ** What a line answers *)

(** [SET] and [GET] over the data, as in file CommandSpec. *)
Lemma fast_set k v ttl buf (w : World (DashMapEngine M)) a :
  holds w a →
  ∃ w', dispatch_fast (PSet k v ttl) buf w = (Val (buf ++ str "+OK" ++ crlf), w') ∧ holds w' (<[k := v]> a).
Proof.
  intros (Hm & Hx & Hd). eexists. split; [done|]. split_and!; [done|..]; cbn.
  - intros j e. rewrite dm_get_insert. case_decide; [by intros [= <-]|]. apply Hx.
  - intros j. rewrite dm_get_insert, lookup_insert. case_decide; [done|]. apply Hd.
Qed.

Lemma fast_get k buf (w : World (DashMapEngine M)) a :
  holds w a →
  dispatch_fast (PGet k) buf w =
  (Val (buf ++ match a !! k with Some d => simple_text d | None => nil_text end), w).
Proof.
  intros (_ & _ & Hd). rewrite <- Hd. cbn. unfold get_fast, get_map, get_eng, mbind, st_bind, mret, st_ret. cbn.
  by destruct (dm_get _ k).
Qed.
End props.

(** * Witness *)

Section witnesses.
#[local] Existing Instances gmap_dashmap ms_clock itoa_display memchr_scan.

Definition fast_lines : list bytes := [str "SET a 1"; str "GET a"].

End witnesses.
