(* ===== verification/Concurrent.v ===== *)
(** The server with all its tasks interleaved: [src/server/tcp.rs], [src/server/session.rs] (the
    path with append-only file, metrics or write timeout) and the tickers.

    Sessions run on several threads and wait at every [await]; here each is in a phase, and a
    schedule is a sequence of events, one step of one task each.  A step is what a task does
    between two points where others can be seen to interfere: a read, a frame (parsed,
    dispatched and counted), a step on the log's mutexes, a write.  A command is one step, which
    is exact for those that make one call on the map ([single_call]); the steps of the log are
    those of file AofLocks.  File Session has the same loops run by one task alone. *)

From S2P Require Import Prelude RustStd Crates Domain Parser ParserBorrowed Metrics World Engine.
From S2P Require Import Response Dispatcher Aof AofLocks Snapshot Session Server.

(** Where a session is; [rb] and [wb] are its buffers. *)
Inductive Phase : Type :=
| Opening
| Reading (rb wb : bytes)
| Framing (is_resp : bool) (rb wb : bytes)
| Logging (is_resp : bool) (rb wb : bytes) (pc : Pc)
| Writing (rb wb : bytes)
| Closing
| Closed
| Refused
| Lost.

Record Conn : Type := mkConn { phase : Phase; sent : bytes }.

(** Commands that make at most one call on the map, in a store without limit and deadlines. *)
Definition single_call (c : Command) : bool :=
  match c with
  | CPing | CGet _ | CSet _ _ _ | CDel _ | CIncr _ | CExists _ | CTtl _ => true
  | _ => false
  end.

Section server.
Context {M : Type} {DM : DashMap bytes ValueEntry M} {CL : Clock} {IT : Itoa} {MC : Memchr}
  {C32 : Crc32}.
Abbreviation EW := (World (DashMapEngine M)).
Abbreviation SW := (SWorld (M := M)).

(** A RESP command up to the log: the entry to append, if any, and the response. *)
Definition resp_head (metrics_enabled : bool) (cmd : Command) : ST SW (option bytes * Response) :=
  entry ← aof_entry_for (is_write cmd) (to_aof_entry cmd);
  response ← lift_w (dispatch cmd);
  (if metrics_enabled then record_resp (command_type cmd) response else mret tt);;
  mret (if is_success response then entry else None, response).

(** An inline command up to the log: the entry and the write buffer. *)
Definition inline_head (metrics_enabled : bool) (cmd : ParsedCommand) (write_buf : bytes) :
    ST SW (option bytes * bytes) :=
  entry ← aof_entry_for (parsed_is_write cmd) (parsed_to_aof_entry cmd);
  write_buf ← lift_w (dispatch_to_buffer (to_owned cmd) write_buf false);
  (if metrics_enabled then record_inline (parsed_command_type cmd) else mret tt);;
  mret (entry, write_buf).

(** The handlers of file Session are these followed by the append. *)
Lemma exec_resp_head m cmd wb s :
  exec_resp m cmd wb s =
  (r ← resp_head m cmd; append_opt r.1;; mret (write_response r.2 wb true)) s.
Proof.
  unfold exec_resp, resp_head. unfold mbind, st_bind, mret, st_ret.
  destruct (aof_entry_for _ _ s) as [[e| |] s1]; try done.
  destruct (lift_w (dispatch cmd) s1) as [[r| |] s2]; try done.
  destruct m; [destruct (record_resp _ _ s2) as [[[]| |] s3]; try done|]; cbn [fst snd];
    by destruct (is_success r).
Qed.

Lemma exec_inline_head m cmd wb s :
  exec_inline m cmd wb s = (r ← inline_head m cmd wb; append_opt r.1;; mret r.2) s.
Proof.
  unfold exec_inline, inline_head. unfold mbind, st_bind, mret, st_ret.
  destruct (aof_entry_for _ _ s) as [[e| |] s1]; try done.
  destruct (lift_w _ s1) as [[r| |] s2]; try done.
  destruct m; [|done]. by destruct (record_inline _ s2) as [[[]| |] s3].
Qed.

(** The server: the store with the metrics, the log, the counters of each worker thread, the
    connections, [active_conns], whether the accept loop runs, and where the tickers are. *)
Record State : Type := mkState {
  world : EW;
  log : option Writer;
  locals : list LocalCounters;
  conns : list Conn;
  active : Z;
  accepting : bool;
  fsync_pc : Pc;
  rewrite_pc : Pc
}.

Definition with_world (w : EW) (st : State) : State :=
  mkState w (log st) (locals st) (conns st) (active st) (accepting st) (fsync_pc st) (rewrite_pc st).
Definition with_log (L : Writer) (st : State) : State :=
  mkState (world st) (Some L) (locals st) (conns st) (active st) (accepting st) (fsync_pc st)
    (rewrite_pc st).
Definition with_local (th : nat) (l : LocalCounters) (st : State) : State :=
  mkState (world st) (log st) (<[th := l]> (locals st)) (conns st) (active st) (accepting st)
    (fsync_pc st) (rewrite_pc st).
Definition with_conn (i : nat) (c : Conn) (st : State) : State :=
  mkState (world st) (log st) (locals st) (<[i := c]> (conns st)) (active st) (accepting st)
    (fsync_pc st) (rewrite_pc st).
Definition with_active (n : Z) (st : State) : State :=
  mkState (world st) (log st) (locals st) (conns st) n (accepting st) (fsync_pc st) (rewrite_pc st).
Definition with_tickers (f r : Pc) (st : State) : State :=
  mkState (world st) (log st) (locals st) (conns st) (active st) (accepting st) f r.

Definition with_loc (l : LocalCounters) (w : EW) : EW := mkWorld (eng w) (tick w) (met w) l.
Definition skip_ticks (n : nat) (w : EW) : EW := mkWorld (eng w) (n + tick w) (met w) (loc w).

(** ** A frame *)

(** After the inner loop: the limit, then the flush if there is something to send. *)
Definition after_batch (rb wb : bytes) : Phase :=
  if MAX_WRITE_BUF <? Z.of_nat (length wb) then Closing
  else if is_empty wb then Reading rb wb else Writing rb wb.

(** After a command: its entry is appended first. *)
Definition after_command (is_resp : bool) (entry : option bytes) (rb wb : bytes) : Phase :=
  match entry with
  | Some e => Logging is_resp rb wb (AppendLock e)
  | None => Framing is_resp rb wb
  end.

(** Run a handler in the world; a panic or a block loses the task. *)
Definition handled {A} (run : ST SW A) (k : A → Phase) (s : SW) : Phase * option A * SW :=
  let '(o, s) := run s in
  match o with Val a => (k a, Some a, s) | _ => (Lost, None, s) end.

(** A command that was dispatched, and its response. *)
Abbreviation Label := (Command * Response)%type.

(** One turn of the inner loop over a RESP buffer. *)
Definition resp_turn (m : bool) (rb wb : bytes) (s : SW) : Phase * option Label * SW :=
  match try_parse_frame rb with
  | Val (Ok (Complete consumed command)) =>
      match advance consumed rb with
      | Val rb =>
          let '(ph, r, s) := handled (resp_head m command)
            (λ r, after_command true r.1 rb (write_response r.2 wb true)) s in
          (ph, (λ r, (command, r.2)) <$> r, s)
      | _ => (Lost, None, s)
      end
  | Val (Ok (Skip consumed)) =>
      match advance consumed rb with Val rb => (Framing true rb wb, None, s) | _ => (Lost, None, s) end
  | Val (Ok Incomplete) => (after_batch rb wb, None, s)
  | Val (Err (Parser.SyntaxError _)) =>
      (Framing true (skip_to_newline rb) (write_to_resp syntax_reply wb), None, s)
  | Val (Err (Parser.UnknownCommand _)) =>
      (Framing true (skip_to_newline rb) (write_to_resp unknown_reply wb), None, s)
  | Val (Err EmptyCommand) => (after_batch rb wb, None, s)
  | _ => (Lost, None, s)
  end.

(** One turn of the inner loop over an inline buffer. *)
Definition inline_turn (m : bool) (rb wb : bytes) (s : SW) : Phase * option Label * SW :=
  match parse_inline_borrowed rb with
  | Ok (BComplete consumed command) =>
      match advance consumed rb with
      | Val rb =>
          let '(ph, _, s) := handled (inline_head m command wb)
            (λ r, after_command false r.1 rb r.2) s in
          (ph, None, s)
      | _ => (Lost, None, s)
      end
  | Ok (BSkip consumed) =>
      match advance consumed rb with Val rb => (Framing false rb wb, None, s) | _ => (Lost, None, s) end
  | Ok BIncomplete => (after_batch rb wb, None, s)
  | Err (Parser.SyntaxError _) =>
      (Framing false (skip_to_newline rb) (write_to syntax_reply wb), None, s)
  | Err (Parser.UnknownCommand _) =>
      (Framing false (skip_to_newline rb) (write_to unknown_reply wb), None, s)
  | Err EmptyCommand => (after_batch rb wb, None, s)
  end.

(** ** Steps *)

Inductive Event : Type :=
| EvAccept
| EvShutdown
| EvOpen (i : nat)
| EvRead (i : nat) (r : NetRead)
| EvFrame (i : nat) (thread : nat)
| EvLog (i : nat)
| EvWrite (i : nat) (ok : bool)
| EvClose (i : nat)
| EvSweep
| EvSnapshot (timestamp : Z)
| EvFsyncTick
| EvFsync
| EvRewriteTick
| EvRewrite.

(** The phase after a read. *)
Definition after_read (rb wb : bytes) (r : NetRead) : Phase :=
  match r with
  | ReadFailed | ReadTimedOut | ReadData [] => Closing
  | ReadData data =>
      let rb := rb ++ data in
      if MAX_READ_BUF <? Z.of_nat (length rb) then Closing
      else Framing (bool_decide (head rb = Some Byte.x2a)) rb wb
  end.

(** A step on the log by task [me]; the two readings of the clock set aside for a call are
    passed when it ends. *)
Definition log_step (me : nat) (pc : Pc) (st : State) : option (Pc * State) :=
  L ← log st;
  let w := world st in
  '(pc', L') ← wstep me (clk (tick w)) (clk (1 + tick w)) pc L;
  let w := if bool_decide (rank pc' = 0%nat) then skip_ticks 2 w else w in
  Some (pc', with_world w (with_log L' st)).

(** Metrics of a session's start and end. *)
Definition count_conn (m : bool) (f : Metrics → Metrics) (st : State) : State :=
  let w := world st in
  if m then with_world (mkWorld (eng w) (tick w) (f (met w)) (loc w)) st else st.

(** A frame of connection [i] on thread [th]: the thread's counters are swapped in. *)
Definition frame_step (m : bool) (i th : nat) (st : State) : option (State * option (nat * Label)) :=
  c ← conns st !! i;
  l ← locals st !! th;
  match phase c with
  | Framing is_resp rb wb =>
      let s := mkSWorld (with_loc l (world st)) (fields <$> log st) in
      let '(ph, r, s) := (if is_resp then resp_turn m rb wb else inline_turn m rb wb) s in
      Some (with_conn i (mkConn ph (sent c)) (with_local th (loc (sw s)) (with_world (sw s) st)),
            pair i <$> r)
  | _ => None
  end.

(** One step: the next state, and the command it dispatched. *)
Definition step (m : bool) (max_conns threshold : Z) (ev : Event) (st : State) :
    option (State * option (nat * Label)) :=
  match ev with
  | EvAccept =>
      if accepting st then
        if (0 <? max_conns) && (max_conns <=? active st) then
          Some (mkState (world st) (log st) (locals st) (conns st ++ [mkConn Refused refusal])
                  (active st) (accepting st) (fsync_pc st) (rewrite_pc st), None)
        else
          Some (mkState (world st) (log st) (locals st) (conns st ++ [mkConn Opening []])
                  (usize (active st + 1)) (accepting st) (fsync_pc st) (rewrite_pc st), None)
      else None
  | EvShutdown =>
      Some (mkState (world st) (log st) (locals st) (conns st) (active st) false (fsync_pc st)
              (rewrite_pc st), None)
  | EvOpen i =>
      c ← conns st !! i;
      match phase c with
      | Opening => Some (with_conn i (mkConn (Reading [] []) (sent c)) (count_conn m connection_opened st), None)
      | _ => None
      end
  | EvRead i r =>
      c ← conns st !! i;
      match phase c with
      | Reading rb wb => Some (with_conn i (mkConn (after_read rb wb r) (sent c)) st, None)
      | _ => None
      end
  | EvFrame i th => frame_step m i th st
  | EvLog i =>
      c ← conns st !! i;
      match phase c with
      | Logging is_resp rb wb pc =>
          '(pc, st) ← log_step (2 + i) pc st;
          let ph := if bool_decide (rank pc = 0%nat) then Framing is_resp rb wb
                    else Logging is_resp rb wb pc in
          Some (with_conn i (mkConn ph (sent c)) st, None)
      | _ => None
      end
  | EvWrite i ok =>
      c ← conns st !! i;
      match phase c with
      | Writing rb wb =>
          Some (with_conn i (if ok : bool then mkConn (Reading rb []) (sent c ++ wb)
                             else mkConn Closing (sent c)) st, None)
      | _ => None
      end
  | EvClose i =>
      c ← conns st !! i;
      match phase c with
      | Closing =>
          Some (with_active (usize (active st - 1))
                  (with_conn i (mkConn Closed (sent c)) (count_conn m connection_closed st)), None)
      | _ => None
      end
  | EvSweep =>
      let '(o, w) := sweep_expired (world st) in
      match o with Val _ => Some (with_world w st, None) | _ => None end
  | EvSnapshot timestamp =>
      let '(o, w) := dump_snapshot timestamp (world st) in
      match o with Val _ => Some (with_world w st, None) | _ => None end
  | EvFsyncTick =>
      match log st, fsync_pc st with
      | Some _, Idle => Some (with_tickers TickPolicy (rewrite_pc st) st, None)
      | _, _ => None
      end
  | EvFsync =>
      '(pc, st) ← log_step 0 (fsync_pc st) st; Some (with_tickers pc (rewrite_pc st) st, None)
  | EvRewriteTick =>
      match log st, rewrite_pc st with
      | Some L, Idle =>
          if file_size (fields L) <? threshold then Some (st, None)
          else
            let '(o, w) := rewrite_aof (world st) in
            match o with
            | Val (tmp, _) => Some (with_tickers (fsync_pc st) (SwapFile tmp) (with_world w st), None)
            | _ => None
            end
      | _, _ => None
      end
  | EvRewrite =>
      '(pc, st) ← log_step 1 (rewrite_pc st) st; Some (with_tickers (fsync_pc st) pc st, None)
  end.

(** A schedule; the commands it dispatches, in order, with the connection of each. *)
Fixpoint run (m : bool) (max_conns threshold : Z) (evs : list Event) (st : State) :
    option (State * list (nat * Label)) :=
  match evs with
  | [] => Some (st, [])
  | ev :: evs =>
      '(st, l) ← step m max_conns threshold ev st;
      '(st, ls) ← run m max_conns threshold evs st;
      Some (st, option_list l ++ ls)
  end.

(** A server that has just started, with [n] worker threads. *)
Definition boot (w : EW) (a : option AofWriter) (n : nat) : State :=
  mkState w (unlocked <$> a) (repeat local_default n) [] 0 true Idle Idle.
End server.
