(* ===== verification/ConcurrentProps.v ===== *)
(** The interleaved server: connection slots, buffer bounds, and what clients see of each other. *)

From S2P Require Import Prelude RustStd Crates Domain Parser InlineFacts RespFacts ParserProps.
From S2P Require Import ParserBorrowed Metrics World Engine EngineFacts EvictFacts StoreSpec.
From S2P Require Import EngineProps Response Dispatcher DispatcherProps Aof AofFacts RestoreFacts.
From S2P Require Import AofProps CommandSpec AofLocks Snapshot Session SessionProps Server.
From S2P Require Import ServerProps EndToEnd Concurrent.

(** * The phases of a connection *)

(** What one step does to the connection it is about. *)
Inductive trans : Conn → Conn → Prop :=
| trans_open s : trans (mkConn Opening s) (mkConn (Reading [] []) s)
| trans_read rb wb r s : trans (mkConn (Reading rb wb) s) (mkConn (after_read rb wb r) s)
| trans_frame b rb wb rb' wb' s :
    (length rb' ≤ length rb)%nat →
    trans (mkConn (Framing b rb wb) s) (mkConn (Framing b rb' wb') s)
| trans_append b rb wb rb' wb' e s :
    (length rb' ≤ length rb)%nat →
    trans (mkConn (Framing b rb wb) s) (mkConn (Logging b rb' wb' (AppendLock e)) s)
| trans_batch b rb wb s : trans (mkConn (Framing b rb wb) s) (mkConn (after_batch rb wb) s)
| trans_lost b rb wb s : trans (mkConn (Framing b rb wb) s) (mkConn Lost s)
| trans_wait b rb wb pc pc' s :
    trans (mkConn (Logging b rb wb pc) s) (mkConn (Logging b rb wb pc') s)
| trans_logged b rb wb pc s : trans (mkConn (Logging b rb wb pc) s) (mkConn (Framing b rb wb) s)
| trans_sent rb wb s : trans (mkConn (Writing rb wb) s) (mkConn (Reading rb []) (s ++ wb))
| trans_unsent rb wb s : trans (mkConn (Writing rb wb) s) (mkConn Closing s).

(** Connections that hold a slot. *)
Definition occupied (c : Conn) : bool :=
  match phase c with Closed | Refused => false | _ => true end.
Definition occupied_count (cs : list Conn) : Z := Z.of_nat (length (List.filter occupied cs)).

(** What the buffers of a connection may hold in each phase. *)
Definition buffers_ok (c : Conn) : Prop :=
  match phase c with
  | Reading rb wb => Z.of_nat (length rb) ≤ MAX_READ_BUF ∧ wb = []
  | Framing _ rb _ | Logging _ rb _ _ => Z.of_nat (length rb) ≤ MAX_READ_BUF
  | Writing rb wb =>
      Z.of_nat (length rb) ≤ MAX_READ_BUF ∧ wb ≠ [] ∧ Z.of_nat (length wb) ≤ MAX_WRITE_BUF
  | _ => True
  end.

#[local] Hint Constructors trans : core.

Lemma trans_occupied c c' : trans c c' → occupied c = true ∧ occupied c' = true.
Proof.
  destruct 1; split; try done; unfold occupied; cbn; unfold after_read, after_batch; by repeat case_match.
Qed.

Lemma trans_buffers c c' : trans c c' → buffers_ok c → buffers_ok c'.
Proof.
  destruct 1; unfold buffers_ok; cbn; try (intros; lia); try done.
  - intros [Hrb ->]. unfold after_read. destruct r as [[|b d]| |]; cbn -[MAX_READ_BUF]; try done.
    destruct (Z.ltb_spec MAX_READ_BUF (Z.of_nat (length (rb ++ b :: d)))); cbn -[MAX_READ_BUF]; [done|lia].
  - unfold after_batch. intros Hrb.
    destruct (Z.ltb_spec MAX_WRITE_BUF (Z.of_nat (length wb))); cbn -[MAX_WRITE_BUF]; [done|].
    by destruct wb as [|x wb]; cbn -[MAX_WRITE_BUF].
  - by intros (? & _).
Qed.

Section props.
Context {M : Type} {DM : DashMap bytes ValueEntry M} {CL : Clock} {IT : Itoa} {MC : Memchr}
  {C32 : Crc32}.
Abbreviation SW := (SWorld (M := M)).
Implicit Types (st : State (M := M)) (s : SW).
Variables (m : bool) (max_conns threshold : Z).
Abbreviation step := (step m max_conns threshold).
Abbreviation run := (run m max_conns threshold).

Lemma advance_le n rb rb' : advance n rb = Val rb' → (length rb' ≤ length rb)%nat.
Proof. unfold advance. case_match; [|done]. intros [= <-]. rewrite length_drop. lia. Qed.

Lemma skip_le rb : (length (skip_to_newline rb) ≤ length rb)%nat.
Proof. unfold skip_to_newline. case_match; [rewrite length_drop | cbn]; lia. Qed.

Lemma handled_trans {A} (h : ST SW A) k rb rb' wb b out s :
  (length rb' ≤ length rb)%nat →
  (∀ a, ∃ e wb', k a = after_command b e rb' wb') →
  trans (mkConn (Framing b rb wb) out) (mkConn (handled h k s).1.1 out).
Proof.
  intros Hle Hk. unfold handled. destruct (h s) as [[a| |] s']; cbn; try apply trans_lost.
  destruct (Hk a) as (e & wb' & ->). destruct e; cbn; by constructor.
Qed.

Lemma turn_trans (b : bool) rb wb out s :
  trans (mkConn (Framing b rb wb) out)
    (mkConn ((if b then resp_turn m rb wb else inline_turn m rb wb) s).1.1 out).
Proof.
  assert (∀ n rb', advance n rb = Val rb' → (length rb' ≤ length rb)%nat) as Hadv by (intros ? ?; apply advance_le).
  pose proof (skip_le rb) as Hskip. destruct b; unfold resp_turn, inline_turn.
  - destruct (try_parse_frame rb) as [[[n c| |n]|[]]| |]; cbn; eauto.
    + destruct (advance n rb) as [rb'| |] eqn:E; cbn; eauto.
      pose proof (handled_trans (resp_head m c) (λ r, after_command true r.1 rb' (write_response r.2 wb true))
        rb rb' wb true out s (Hadv _ _ E)) as H.
      destruct (handled _ _ s) as [[ph r] s']. apply H. intros r'. by do 2 eexists.
    + destruct (advance n rb) as [rb'| |] eqn:E; cbn; eauto.
  - destruct (parse_inline_borrowed rb) as [[n c| |n]|[]]; cbn; eauto.
    + destruct (advance n rb) as [rb'| |] eqn:E; cbn; eauto.
      pose proof (handled_trans (inline_head m c wb) (λ r, after_command false r.1 rb' r.2)
        rb rb' wb false out s (Hadv _ _ E)) as H.
      destruct (handled _ _ s) as [[ph r] s']. apply H. intros r'. by do 2 eexists.
    + destruct (advance n rb) as [rb'| |] eqn:E; cbn; eauto.
Qed.

(** The connections and the slot counter after a step: unchanged, one more, one that moved on,
    or one that gave its slot back. *)
Definition conns_after st st' : Prop :=
  (conns st' = conns st ∧ active st' = active st) ∨
  (conns st' = conns st ++ [mkConn Refused refusal] ∧ active st' = active st ∧
   0 < max_conns ≤ active st) ∨
  (conns st' = conns st ++ [mkConn Opening []] ∧ active st' = usize (active st + 1) ∧
   (0 < max_conns → active st < max_conns)) ∨
  (∃ i c c', conns st !! i = Some c ∧ conns st' = <[i := c']> (conns st) ∧ trans c c' ∧
   active st' = active st) ∨
  (∃ i out, conns st !! i = Some (mkConn Closing out) ∧ conns st' = <[i := mkConn Closed out]> (conns st) ∧
   active st' = usize (active st - 1)).

Lemma log_step_conns me pc st pc' st' :
  log_step me pc st = Some (pc', st') → conns st' = conns st ∧ active st' = active st.
Proof.
  unfold log_step. destruct (log st) as [L|]; [|done]. cbn. destruct (wstep _ _ _ _ _) as [[]|]; [|done].
  cbn. by intros [= _ <-].
Qed.

Lemma count_conn_conns f st :
  conns (count_conn m f st) = conns st ∧ active (count_conn m f st) = active st.
Proof. unfold count_conn. by destruct m. Qed.

Lemma step_conns ev st st' l : step ev st = Some (st', l) → conns_after st st'.
Proof.
  unfold conns_after. destruct ev; cbn [Concurrent.step].
  - destruct (accepting st); [|done].
    destruct (Z.ltb_spec 0 max_conns), (Z.leb_spec max_conns (active st)); cbn [andb];
      intros [= <- <-]; cbn [conns active]; [right; left; by split_and! | right; right; left..];
      (split_and!; [done | done | lia]).
  - intros [= <- <-]. by left.
  - destruct (conns st !! i) as [[ph out]|] eqn:Hc; [|done]. cbn. destruct ph; try done.
    intros [= <- <-]. destruct (count_conn_conns connection_opened st) as [E1 E2].
    do 3 right. left. exists i. cbn [with_conn conns active]. rewrite E1, E2. eauto 10.
  - destruct (conns st !! i) as [[ph out]|] eqn:Hc; [|done]. cbn. destruct ph; try done.
    intros [= <- <-]. do 3 right. left. exists i. cbn [with_conn conns active]. eauto 10.
  - unfold frame_step. destruct (conns st !! i) as [[ph out]|] eqn:Hc; [|done]. cbn -[resp_turn].
    destruct (locals st !! thread) as [l0|]; [|done]. cbn -[resp_turn inline_turn].
    destruct ph as [| |b rb wb| | | | | |]; try done.
    pose proof (turn_trans b rb wb out (mkSWorld (with_loc l0 (world st)) (fields <$> log st))) as Ht.
    destruct ((if b then _ else _) _) as [[ph r] s']. intros [= <- <-]. do 3 right. left. exists i.
    cbn [with_conn with_local with_world conns active]. eauto 10.
  - destruct (conns st !! i) as [[ph out]|] eqn:Hc; [|done]. cbn. destruct ph; try done.
    destruct (log_step _ _ _) as [[pc' st1]|] eqn:El; [|done]. cbn. intros [= <- <-].
    destruct (log_step_conns _ _ _ _ _ El) as [E1 E2].
    do 3 right. left. exists i. cbn [with_conn conns active]. rewrite E1, E2.
    case_bool_decide; eauto 10.
  - destruct (conns st !! i) as [[ph out]|] eqn:Hc; [|done]. cbn. destruct ph; try done.
    intros [= <- <-]. do 3 right. left. exists i. cbn [with_conn conns active]. destruct ok; eauto 10.
  - destruct (conns st !! i) as [[ph out]|] eqn:Hc; [|done]. cbn. destruct ph; try done.
    intros [= <- <-]. destruct (count_conn_conns connection_closed st) as [E1 E2].
    do 4 right. exists i, out. cbn [with_conn with_active conns active]. by rewrite E1, ?E2.
  - destruct (sweep_expired _) as [[] w]; try done. intros [= <- <-]. by left.
  - destruct (dump_snapshot _ _) as [[?| |] ?]; try done. intros [= <- <-]. by left.
  - destruct (log st); [|done]. destruct (fsync_pc st); try done. intros [= <- <-]. by left.
  - destruct (log_step _ _ _) as [[pc' st1]|] eqn:El; [|done]. cbn. intros [= <- <-].
    left. by apply log_step_conns in El.
  - destruct (log st); [|done]. destruct (rewrite_pc st); try done.
    destruct (_ <? _); [intros [= <- <-]; by left|].
    destruct (rewrite_aof _) as [[[tmp k]| |] ?]; try done. intros [= <- <-]. by left.
  - destruct (log_step _ _ _) as [[pc' st1]|] eqn:El; [|done]. cbn. intros [= <- <-].
    left. by apply log_step_conns in El.
Qed.

(** An invariant of the state that steps keep holds after a schedule. *)
Lemma run_invariant (P : State (M := M) → Prop) evs st st' tr :
  (∀ ev st st' l, step ev st = Some (st', l) → P st → P st') →
  run evs st = Some (st', tr) → P st → P st'.
Proof.
  intros HP. revert st tr. induction evs as [|ev evs IH]; intros st tr; cbn [Concurrent.run].
  { by intros [= <- _]. }
  destruct (step ev st) as [[st1 l]|] eqn:E; [|done]. cbn.
  destruct (run evs st1) as [[st2 ls]|] eqn:Er; [|done]. cbn. intros [= <- _] Hst. eauto.
Qed.

(** * Slots *)

Lemma occupied_insert cs i c c' :
  cs !! i = Some c →
  occupied_count (<[i := c']> cs) =
  occupied_count cs + (if occupied c' then 1 else 0) - (if occupied c then 1 else 0).
Proof.
  unfold occupied_count. revert i. induction cs as [|x cs IH]; intros [|i] Hi; simplify_eq/=.
  - destruct (occupied c), (occupied c'); simpl; lia.
  - specialize (IH i Hi). destruct (occupied x); simpl; lia.
Qed.

Lemma occupied_app cs1 cs2 : occupied_count (cs1 ++ cs2) = occupied_count cs1 + occupied_count cs2.
Proof. unfold occupied_count. rewrite List.filter_app, length_app. lia. Qed.

Definition slots_ok st : Prop :=
  active st = occupied_count (conns st) ∧ 0 ≤ active st ≤ max_conns.

Lemma slots_step ev st st' l :
  0 < max_conns < 2 ^ 64 → step ev st = Some (st', l) → slots_ok st → slots_ok st'.
Proof.
  intros Hmax E [Ha Hb]. unfold slots_ok.
  destruct (step_conns ev st st' l E) as
    [[E1 E2]|[(E1 & E2 & _)|[(E1 & E2 & Hlt)|[(i & c & c' & Hc & E1 & Ht & E2)|(i & s & Hc & E1 & E2)]]]];
    rewrite E1, E2.
  - done.
  - rewrite occupied_app. change (occupied_count [_]) with 0. lia.
  - rewrite occupied_app, usize_small by lia. change (occupied_count [_]) with 1. lia.
  - rewrite (occupied_insert _ _ c c') by done. destruct (trans_occupied c c' Ht) as [-> ->]. lia.
  - pose proof (occupied_insert (conns st) i _ (mkConn Closed s) Hc) as H. simpl in H.
    assert (0 < active st).
    { rewrite Ha. unfold occupied_count in *. lia. }
    rewrite usize_small by lia. lia.
Qed.

(** C26: the connection limit under every interleaving of accepts, sessions and shutdown: the
    counter is the number of sessions that are running or lost, at most [max_conns], and the
    next client is refused exactly when that many are. *)
Theorem slots_interleaved evs w a n st tr :
  0 < max_conns < 2 ^ 64 → run evs (boot w a n) = Some (st, tr) →
  active st = occupied_count (conns st) ∧ active st ≤ max_conns ∧
  ∀ st' l, step EvAccept st = Some (st', l) →
    (conns st' = conns st ++ [mkConn Refused refusal] ↔ occupied_count (conns st) = max_conns).
Proof.
  intros Hmax Hrun. destruct (run_invariant slots_ok evs (boot w a n) st tr) as [H1 H2]; try done.
  - intros. by eapply slots_step.
  - split; [done|]. simpl. lia.
  - split_and!; [done | lia |]. intros st' l. cbn [Concurrent.step].
    destruct (accepting st); [|done]. rewrite (proj2 (Z.ltb_lt 0 max_conns)) by lia. cbn [andb].
    destruct (Z.leb_spec max_conns (active st)); intros [= <- <-]; cbn [conns].
    + split; [intros _; lia | done].
    + split; [intros [= ?]%app_inv_head | lia].
Qed.

(** C27: the buffers of a connection, under every interleaving and whatever the client sends:
    the read buffer never exceeds 1 MiB where the session goes on, a session only reads with
    an empty write buffer, and only writes between 1 byte and 1 MiB at a time. *)
Theorem buffers_bounded evs w a n st tr :
  run evs (boot w a n) = Some (st, tr) → Forall buffers_ok (conns st).
Proof.
  intros Hrun. apply (run_invariant (λ st, Forall buffers_ok (conns st)) evs (boot w a n) st tr);
    [|done|by constructor]. clear. intros ev st st' l E Hok.
  destruct (step_conns ev st st' l E) as
    [[-> _]|[(-> & _)|[(-> & _)|[(i & c & c' & Hc & -> & Ht & _)|(i & s & Hc & -> & _)]]]].
  - done.
  - apply Forall_app. split; [done|]. by repeat constructor.
  - apply Forall_app. split; [done|]. by repeat constructor.
  - apply Forall_insert; [done|]. apply (trans_buffers c); [done|]. by eapply Forall_lookup_1 in Hok.
  - by apply Forall_insert.
Qed.
End props.
