(* ===== verification/LoneSession.v ===== *)
(** The session as one task runs it (file Session) is a schedule of the interleaved server (file
    Concurrent): a connection that is served without interruption on the full path reads, answers, logs and ends
    as [handle_session] says, and the rest of the server is left alone. *)

From S2P Require Import Prelude RustStd Crates Domain Parser InlineFacts RespFacts ParserProps.
From S2P Require Import ParserBorrowed Metrics World Engine EngineFacts EvictFacts StoreSpec.
From S2P Require Import EngineProps Response Dispatcher DispatcherProps Aof AofFacts RestoreFacts.
From S2P Require Import AofProps CommandSpec AofLocks Snapshot Session SessionProps Server.
From S2P Require Import ServerProps EndToEnd Concurrent ConcurrentProps.

Section lone.
Context {M : Type} {DM : DashMap bytes ValueEntry M} {CL : Clock} {IT : Itoa} {MC : Memchr}
  {C32 : Crc32}.
Abbreviation SW := (SWorld (M := M)).
Implicit Types (st : State (M := M)) (s : SW).
Variables (m : bool) (max_conns threshold : Z).
Abbreviation step := (step m max_conns threshold).
Abbreviation run := (run m max_conns threshold).

(** ** Schedules of one connection *)

(** The server [st] with connection [i] in state [c], and the store, the log and the counters of
    thread [th] as the session's world [s] has them. *)
Definition placed st (i th : nat) (c : Conn) s : State (M := M) :=
  mkState (sw s) (unlocked <$> aof s) (<[th := loc (sw s)]> (locals st)) (<[i := c]> (conns st))
    (active st) (accepting st) (fsync_pc st) (rewrite_pc st).

Definition reaches st st' : Prop := ∃ evs tr, run evs st = Some (st', tr).

Lemma reaches_refl st : reaches st st.
Proof. by exists [], []. Qed.

Lemma reaches_step ev st st1 st2 l : step ev st = Some (st1, l) → reaches st1 st2 → reaches st st2.
Proof.
  intros E (evs & tr & Hr). exists (ev :: evs), (option_list l ++ tr).
  cbn [Concurrent.run]. rewrite E. cbn. by rewrite Hr.
Qed.

Lemma reaches_trans st st1 st2 : reaches st st1 → reaches st1 st2 → reaches st st2.
Proof.
  intros (evs & tr & Hr). revert st tr Hr. induction evs as [|ev evs IH]; intros st tr Hr H2.
  - by simplify_eq/=.
  - cbn [Concurrent.run] in Hr. destruct (step ev st) as [[st' l]|] eqn:E; [|done]. cbn in Hr.
    destruct (run evs st') as [[st'' ls]|] eqn:Er; [|done]. simplify_eq/=.
    eapply reaches_step; [done|]. by eapply IH.
Qed.

Section placed.
Variables (st : State (M := M)) (i th : nat).
Hypotheses (Hi : (i < length (conns st))%nat) (Hth : (th < length (locals st))%nat).
Abbreviation at_ := (placed st i th).

Lemma placed_conn c s : conns (at_ c s) !! i = Some c.
Proof. by apply list_lookup_insert_eq. Qed.

Lemma placed_local c s : locals (at_ c s) !! th = Some (loc (sw s)).
Proof. by apply list_lookup_insert_eq. Qed.

Lemma placed_with_conn c c' s : with_conn i c' (at_ c s) = at_ c' s.
Proof. unfold with_conn, placed. cbn. by rewrite list_insert_insert_eq. Qed.

(** The appending task waits for nobody: it runs to the end of its call. *)
Lemma log_reaches b rb wb out f pc w a L0 L :
  solo f (2 + i) (clk (tick w)) (clk (1 + tick w)) pc L0 = Some L → pc ≠ Idle →
  L = unlocked a →
  reaches (mkState w (Some L0) (<[th := loc w]> (locals st))
             (<[i := mkConn (Logging b rb wb pc) out]> (conns st))
             (active st) (accepting st) (fsync_pc st) (rewrite_pc st))
    (at_ (mkConn (Framing b rb wb) out) (mkSWorld (skip_ticks 2 w) (Some a))).
Proof.
  intros Hs Hpc ->. revert pc L0 Hs Hpc. induction f as [|f IH]; intros pc L0 Hs Hpc; [by destruct pc|].
  destruct (wstep (2 + i) (clk (tick w)) (clk (1 + tick w)) pc L0) as [[pc' L']|] eqn:E.
  2: { cbn [solo] in Hs. rewrite E in Hs. by destruct pc. }
  rewrite (solo_step _ _ _ _ _ _ _ _ E) in Hs.
  assert (∀ st0, log st0 = Some L0 → world st0 = w →
    log_step (2 + i) pc st0 = Some (pc', with_world (if bool_decide (rank pc' = 0%nat) then skip_ticks 2 w else w)
      (with_log L' st0))) as Hlog.
  { intros st0 H1 H2. unfold log_step. rewrite H1. cbn [mbind option_bind]. rewrite H2, E. done. }
  eapply (reaches_step (EvLog i)).
  { cbn [Concurrent.step]. cbn [conns]. rewrite list_lookup_insert_eq by done. cbn [mbind option_bind phase].
    by rewrite Hlog. }
  destruct (decide (rank pc' = 0%nat)) as [H0|Hne].
  - assert (pc' = Idle) as -> by (by destruct pc').
    assert (L' = unlocked a) as -> by (destruct f; cbn in Hs; congruence).
    rewrite !bool_decide_true by done. unfold with_conn, with_world, with_log, placed. cbn.
    rewrite list_insert_insert_eq. apply reaches_refl.
  - rewrite !bool_decide_false by done.
    unfold with_conn, with_world, with_log. cbn. rewrite list_insert_insert_eq.
    apply IH; [done|]. by intros ->.
Qed.

Lemma append_reaches e b rb wb out s :
  is_Some (aof s) →
  reaches (at_ (mkConn (Logging b rb wb (AppendLock e)) out) s)
    (at_ (mkConn (Framing b rb wb) out) (append_entry e s).2).
Proof.
  intros [a Ha]. destruct s as [w o]. cbn in Ha. subst o. unfold append_entry. cbn [aof sw snd].
  eapply log_reaches; [|done|reflexivity].
  destruct (solo_calls (2 + i) (clk (tick w)) (clk (1 + tick w)) a) as [H _]. exact (H e).
Qed.

(** ** A batch *)

Definition turn (b : bool) rb wb s := (if b then resp_turn m rb wb else inline_turn m rb wb) s.
Definition loop (b : bool) (fuel : nat) rb wb : ST SW (bytes * bytes) :=
  if b then resp_loop (exec_resp m) fuel rb wb else inline_loop m fuel rb wb.

(** Up to the append a command leaves the log alone, and has an entry only if there is a log. *)
Definition log_kept {A} (e : A → option bytes) (h : ST SW A) : Prop :=
  ∀ s, aof (h s).2 = aof s ∧ ∀ a, (h s).1 = Val a → is_Some (e a) → is_Some (aof s).

Lemma lift_w_aof {A} (c : ST (World (DashMapEngine M)) A) s : aof (lift_w c s).2 = aof s.
Proof. unfold lift_w. by destruct (c (sw s)). Qed.

Lemma head_kept {A B} writes entry d (rec : A → ST SW ()) (out : option bytes → A → option bytes * B) :
  (∀ a s, aof (rec a s).2 = aof s) → (∀ e a, is_Some (out e a).1 → is_Some e) →
  log_kept fst (e ← aof_entry_for writes entry; a ← lift_w d; rec a;; mret (out e a)).
Proof.
  intros Hrec Hout s. unfold aof_entry_for, aof_open. unfold mbind, st_bind, mret, st_ret. cbn [fst snd].
  pose proof (lift_w_aof d s) as H1. destruct (lift_w d s) as [[r| |] s1]; cbn in H1; try done.
  pose proof (Hrec r s1) as H2. destruct (rec r s1) as [[[]| |] s2]; cbn in *; try (split; [congruence | done]).
  split; [congruence|]. intros a [= <-] [x Hx]%Hout. by case_bool_decide.
Qed.

Lemma resp_head_kept c : log_kept fst (resp_head m c).
Proof.
  apply (head_kept _ _ _ (λ r, if m then record_resp (command_type c) r else mret tt)
           (λ e r, (if is_success r then e else None, r))).
  - intros r s. destruct m; [apply lift_w_aof | done].
  - intros e r. cbn. destruct (is_success r); [done|]. by intros [].
Qed.

Lemma inline_head_kept c wb : log_kept fst (inline_head m c wb).
Proof.
  apply (head_kept _ _ _ (λ _, if m then record_inline (parsed_command_type c) else mret tt) pair).
  - intros r s. destruct m; [apply lift_w_aof | done].
  - done.
Qed.

(** A turn against the loop whose next turns are [rest]: from [s] to [s1], the phase after it and
    what the loop does.  The loop goes on after a command and its append, ends, or is lost. *)
Inductive turned (b : bool) (rb wb : bytes) s s1 (rest : bytes → bytes → ST SW (bytes * bytes)) :
    Phase → outcome (bytes * bytes) * SW → Prop :=
| turned_on e rb1 wb1 :
    (length rb1 < length rb)%nat → (is_Some e → is_Some (aof s1)) →
    turned b rb wb s s1 rest (after_command b e rb1 wb1) ((append_opt e;; rest rb1 wb1) s1)
| turned_end : turned b rb wb s s1 rest (after_batch rb wb) (Val (rb, wb), s1)
| turned_panic : turned b rb wb s s1 rest Lost (Panic, s1)
| turned_stuck : turned b rb wb s s1 rest Lost (Stuck, s1).

Lemma turned_skip b rb wb s rest rb1 wb1 :
  (length rb1 < length rb)%nat → turned b rb wb s s rest (Framing b rb1 wb1) (rest rb1 wb1 s).
Proof. intros H. apply (turned_on b rb wb s s rest None rb1 wb1 H). by intros []. Qed.

Lemma handled_turned {A} (h : ST SW A) (e : A → option bytes) (o : A → bytes) b rb rb1 wb s rest :
  log_kept e h → (length rb1 < length rb)%nat →
  let '(ph, _, s1) := handled h (λ a, after_command b (e a) rb1 (o a)) s in
  aof s1 = aof s ∧ turned b rb wb s s1 rest ph ((a ← h; append_opt (e a);; rest rb1 (o a)) s).
Proof.
  intros Hk Hlt. destruct (Hk s) as [Ha He]. unfold handled. unfold mbind at 1, st_bind at 1.
  destruct (h s) as [[a| |] s1]; cbn in Ha, He; split; try done; [|constructor..].
  constructor; [done|]. rewrite Ha. by apply He.
Qed.

Lemma resp_turn_loop f rb wb s :
  in_memory rb →
  let '(ph, _, s1) := resp_turn m rb wb s in
  aof s1 = aof s ∧
  turned true rb wb s s1 (resp_loop (exec_resp m) f) ph (resp_loop (exec_resp m) (S f) rb wb s).
Proof.
  intros Hmem. destruct (try_parse_frame_sim rb []) as [Hok _]; [by rewrite app_nil_r|].
  cbn [resp_loop]. unfold resp_turn, lift_o. unfold mbind at 1, st_bind at 1.
  destruct (decide (rb = [])) as [-> |Hne]; [split; [done | apply turned_end]|].
  destruct (try_parse_frame rb) as [[[n c| |n]|[|e|e]]| |];
    try (split; [done|]; try apply turned_skip, skip_shrinks, Hne; constructor);
    unfold mbind at 1, st_bind at 1; cbn in Hok;
    (destruct (advance n rb) as [rb'| |] eqn:Ea; [|split; [done|constructor]..]);
    (destruct (advance_shrinks n rb rb') as [Hlt|]; [lia | done | | done]).
  - pose proof (handled_turned (resp_head m c) fst (λ r, write_response r.2 wb true) true rb rb' wb s
      (resp_loop (exec_resp m) f) (resp_head_kept c) Hlt) as H.
    destruct (handled _ _ s) as [[ph r] s1]. destruct H as [H1 H2]. split; [done|].
    unfold mbind at 1, st_bind at 1. rewrite exec_resp_head. revert H2.
    unfold mbind, st_bind, mret, st_ret. destruct (resp_head m c s) as [[r0| |] s0]; try done.
    by destruct (append_opt r0.1 s0) as [[]].
  - split; [done|]. by apply turned_skip.
Qed.

Lemma inline_turn_loop f rb wb s :
  let '(ph, _, s1) := inline_turn m rb wb s in
  aof s1 = aof s ∧ turned false rb wb s s1 (inline_loop m f) ph (inline_loop m (S f) rb wb s).
Proof.
  pose proof (parse_inline_pos rb) as Hok. cbn [inline_loop]. unfold inline_turn, lift_o.
  destruct (decide (rb = [])) as [-> |Hne].
  { assert (parse_inline_borrowed [] = Ok BIncomplete) as ->.
    { unfold parse_inline_borrowed, line_end. by rewrite memchr2_position. }
    split; [done | apply turned_end]. }
  destruct (parse_inline_borrowed rb) as [[n c| |n]|[|e|e]];
    try (split; [done|]; try apply turned_skip, skip_shrinks, Hne; constructor);
    unfold mbind at 1, st_bind at 1; cbn in Hok;
    (destruct (advance n rb) as [rb'| |] eqn:Ea; [|split; [done|constructor]..]);
    (destruct (advance_shrinks n rb rb') as [Hlt|]; [lia | done | | done]).
  - pose proof (handled_turned (inline_head m c wb) fst snd false rb rb' wb s
      (inline_loop m f) (inline_head_kept c wb) Hlt) as H.
    destruct (handled _ _ s) as [[ph r] s1]. destruct H as [H1 H2]. split; [done|].
    unfold mbind at 1, st_bind at 1. rewrite exec_inline_head. revert H2.
    unfold mbind, st_bind, mret, st_ret. destruct (inline_head m c wb s) as [[r0| |] s0]; try done.
    by destruct (append_opt r0.1 s0) as [[]].
  - split; [done|]. by apply turned_skip.
Qed.

Lemma turn_loop b f rb wb s :
  in_memory rb →
  let '(ph, _, s1) := turn b rb wb s in
  aof s1 = aof s ∧ turned b rb wb s s1 (loop b f) ph (loop b (S f) rb wb s).
Proof. intros Hmem. destruct b; [by apply resp_turn_loop | apply inline_turn_loop]. Qed.

Lemma frame_reaches b rb wb out s st' :
  in_memory rb →
  reaches (at_ (mkConn (turn b rb wb s).1.1 out) (turn b rb wb s).2) st' →
  reaches (at_ (mkConn (Framing b rb wb) out) s) st'.
Proof.
  intros Hmem Hr. pose proof (turn_loop b 0 rb wb s Hmem) as Ha.
  destruct (turn b rb wb s) as [[ph r] s'] eqn:Et. unfold turn in Et. destruct Ha as [Ha _].
  eapply (reaches_step (EvFrame i th)); [|exact Hr].
  cbn [Concurrent.step]. unfold frame_step. rewrite placed_conn, placed_local. cbn [mbind option_bind phase].
  assert (mkSWorld (with_loc (loc (sw s)) (world (at_ (mkConn (Framing b rb wb) out) s)))
            (fields <$> log (at_ (mkConn (Framing b rb wb) out) s)) = s) as ->.
  { destruct s as [[] []]; done. }
  rewrite Et. cbn [fst snd] in *. do 2 f_equal. unfold with_conn, with_local, with_world, placed. cbn.
  by rewrite !list_insert_insert_eq, Ha.
Qed.

(** A batch that ends, and one that is lost, reach the phase the task is then in. *)
Definition batch_phase (o : outcome (bytes * bytes)) : Phase :=
  match o with Val (rb, wb) => after_batch rb wb | _ => Lost end.

Lemma batch_reaches b fuel rb wb out s :
  in_memory rb → (length rb < fuel)%nat →
  reaches (at_ (mkConn (Framing b rb wb) out) s)
    (at_ (mkConn (batch_phase (loop b fuel rb wb s).1) out) (loop b fuel rb wb s).2).
Proof.
  revert rb wb s. induction fuel as [|f IH]; intros rb wb s Hmem Hf; [lia|].
  apply frame_reaches; [done|]. pose proof (turn_loop b f rb wb s Hmem) as Ht.
  destruct (turn b rb wb s) as [[ph r] s1]. destruct Ht as [_ Ht]. cbn [fst snd].
  destruct Ht as [e rb1 wb1 Hlt He| | |]; try apply reaches_refl.
  assert (∀ s, reaches (at_ (mkConn (Framing b rb1 wb1) out) s)
    (at_ (mkConn (batch_phase (loop b f rb1 wb1 s).1) out) (loop b f rb1 wb1 s).2)) as Hrec.
  { intros s'. apply IH; [unfold in_memory in *; lia | lia]. }
  destruct e as [e|]; [|apply Hrec].
  eapply reaches_trans; [apply append_reaches; eauto|].
  unfold append_opt. assert (append_entry e s1 = (Val tt, (append_entry e s1).2)) as E.
  { unfold append_entry. by destruct (aof s1). }
  rewrite (st_bind_val _ _ _ _ _ E). apply Hrec.
Qed.

(** ** A session *)

Lemma read_reaches r rb wb out s st' :
  reaches (at_ (mkConn (after_read rb wb r) out) s) st' →
  reaches (at_ (mkConn (Reading rb wb) out) s) st'.
Proof.
  eapply (reaches_step (EvRead i r)). cbn [Concurrent.step].
  rewrite placed_conn. cbn [mbind option_bind phase sent]. by rewrite placed_with_conn.
Qed.

Lemma write_reaches ok rb wb out s st' :
  reaches (at_ (if ok : bool then mkConn (Reading rb []) (out ++ wb) else mkConn Closing out) s) st' →
  reaches (at_ (mkConn (Writing rb wb) out) s) st'.
Proof.
  eapply (reaches_step (EvWrite i ok)). cbn [Concurrent.step].
  rewrite placed_conn. cbn [mbind option_bind phase sent]. by rewrite placed_with_conn.
Qed.

(** Where a session that ended, or was lost, leaves its connection. *)
Definition session_end (o : outcome bytes) (c : Conn) : Prop :=
  match o with Val out => c = mkConn Closing out | _ => phase c = Lost end.

Lemma session_reaches events rb wb out s :
  let '(o, s') := session_loop true (full_batch m) events rb wb out s in
  ∃ c, session_end o c ∧ reaches (at_ (mkConn (Reading rb wb) out) s) (at_ c s').
Proof.
  revert rb wb out s. induction events as [|[r ok] events IH]; intros rb wb out s.
  { eexists. split; [reflexivity|]. apply (read_reaches ReadFailed), reaches_refl. }
  cbn [session_loop net_read write_ok]. destruct r as [[|x d]| |];
    try (eexists; split; [reflexivity|]; apply (read_reaches ReadFailed), reaches_refl).
  destruct (Z.ltb_spec MAX_READ_BUF (Z.of_nat (length (rb ++ x :: d)))) as [Hbig|Hfits].
  { eexists. split; [reflexivity|]. apply (read_reaches (ReadData (x :: d))). unfold after_read.
    rewrite (proj2 (Z.ltb_lt _ _)) by done. apply reaches_refl. }
  set (rb' := rb ++ x :: d) in *.
  assert (in_memory rb') as Hmem.
  { unfold in_memory. assert (MAX_READ_BUF < 2 ^ 63 - 1) by done. lia. }
  assert (reaches (at_ (mkConn (Reading rb wb) out) s)
    (at_ (mkConn (batch_phase (full_batch m rb' wb s).1) out) (full_batch m rb' wb s).2)) as Hb.
  { apply (read_reaches (ReadData (x :: d))). unfold after_read. fold rb'.
    rewrite (proj2 (Z.ltb_ge _ _)) by done. by apply batch_reaches; [|lia]. }
  unfold mbind, st_bind. destruct (full_batch m rb' wb s) as [[[rb1 wb1]| |] s1]; cbn [fst snd batch_phase] in Hb;
    [|by eexists; split; [|exact Hb]..].
  unfold after_batch in Hb. destruct (MAX_WRITE_BUF <? _); [by eexists|].
  destruct (is_empty wb1).
  { specialize (IH rb1 wb1 out s1). destruct (session_loop _ _ events rb1 wb1 out s1) as [o s'].
    destruct IH as (c & Hc & Hr). exists c. split; [done|]. by eapply reaches_trans. }
  destruct ok; cbn [negb].
  - specialize (IH rb1 [] (out ++ wb1) s1). destruct (session_loop _ _ events rb1 [] _ s1) as [o s'].
    destruct IH as (c & Hc & Hr). exists c. split; [done|]. eapply reaches_trans; [exact Hb|].
    by apply (write_reaches true).
  - eexists. split; [reflexivity|]. eapply reaches_trans; [exact Hb|].
    apply (write_reaches false), reaches_refl.
Qed.
End placed.

(** The metrics of a session's start or end, in the session's world. *)
Definition counted (f : Metrics → Metrics) s : SW :=
  if m then mkSWorld (mkWorld (eng (sw s)) (tick (sw s)) (f (met (sw s))) (loc (sw s))) (aof s) else s.

Lemma count_counted f s :
  (if m then lift_w (ml ← get_metrics; put_metrics (f ml.1, ml.2)) else mret tt) s = (Val tt, counted f s).
Proof. unfold counted. by destruct m. Qed.

Lemma count_placed f st i th c s : count_conn m f (placed st i th c s) = placed st i th c (counted f s).
Proof. unfold count_conn, counted, placed. by destruct m. Qed.

Lemma placed_self st i th c s :
  conns st !! i = Some c → locals st !! th = Some (loc (sw s)) → world st = sw s →
  log st = unlocked <$> aof s → st = placed st i th c s.
Proof.
  intros Hc Hl Hw Hg. destruct st. cbn in *. unfold placed. cbn. subst.
  by rewrite !list_insert_id.
Qed.

(** C28: a connection that is served without interruption on the full path (the log open, metrics on
    or a write timeout of a second or more): whatever its client sends and however its
    reads and writes end, the session of file Session, a loop of one task over
    the socket's events, is a schedule of the interleaved server, whose steps stop at every lock,
    await and dispatch.  It reaches the same store, log and
    counters and the same bytes for the client, gives its slot back if it ends and keeps it if
    it is lost, and leaves the rest of the server as it was. *)
Theorem lone_session i th st s write_timeout events :
  conns st !! i = Some (mkConn Opening []) → locals st !! th = Some (loc (sw s)) →
  world st = sw s → log st = unlocked <$> aof s →
  is_Some (aof s) ∨ m = true ∨ 0 < as_secs write_timeout →
  let '(o, s') := handle_session write_timeout m events s in
  ∃ evs tr st', run evs st = Some (st', tr) ∧
    match o with
    | Val out => st' = with_active (usize (active st - 1)) (placed st i th (mkConn Closed out) s')
    | _ => ∃ out, st' = placed st i th (mkConn Lost out) s'
    end.
Proof.
  intros Hc Hl Hw Hg Hfull.
  assert (i < length (conns st))%nat as Hi by (by eapply lookup_lt_Some).
  assert (th < length (locals st))%nat as Hth by (by eapply lookup_lt_Some).
  assert (reaches st (placed st i th (mkConn (Reading [] []) []) (counted connection_opened s))) as Hopen.
  { eapply (reaches_step (EvOpen i)).
    { cbn [Concurrent.step]. rewrite Hc. cbn [mbind option_bind phase sent].
      rewrite (placed_self st i th _ s Hc Hl Hw Hg) at 1. rewrite count_placed, placed_with_conn. done. }
    apply reaches_refl. }
  unfold handle_session. unfold mbind at 1, st_bind at 1. rewrite count_counted.
  unfold mbind at 1, st_bind at 1. unfold aof_open.
  assert (aof (counted connection_opened s) = aof s) as Ha by (unfold counted; by destruct m).
  rewrite Ha.
  assert (negb (bool_decide (is_Some (aof s))) && negb m && negb (0 <? as_secs write_timeout) = false) as ->.
  { destruct Hfull as [H| [-> | H]];
      [by rewrite (bool_decide_true _ H) | by rewrite andb_false_r
      | by rewrite (proj2 (Z.ltb_lt _ _) H), andb_false_r]. }
  pose proof (session_reaches st i th Hi Hth events [] [] [] (counted connection_opened s)) as Hs.
  unfold mbind at 1, st_bind at 1.
  destruct (session_loop _ _ events [] [] [] _) as [o s1].
  destruct Hs as (c & He & Hr). pose proof (reaches_trans _ _ _ Hopen Hr) as (evs & tr & Hrun).
  destruct o as [out| |]; cbn [session_end] in He.
  - subst c. unfold mbind at 1, st_bind at 1. rewrite count_counted.
    assert (reaches st (with_active (usize (active st - 1))
      (placed st i th (mkConn Closed out) (counted connection_closed s1)))) as (evs' & tr' & Hrun').
    { eapply reaches_trans; [by exists evs, tr|]. eapply (reaches_step (EvClose i)); [|apply reaches_refl].
      cbn [Concurrent.step]. rewrite placed_conn by done. cbn [mbind option_bind phase sent].
      by rewrite count_placed, placed_with_conn. }
    by eexists _, _, _.
  - exists evs, tr, (placed st i th c s1). split; [done|]. destruct c as [ph out']. cbn in He. subst. by eexists.
  - exists evs, tr, (placed st i th c s1). split; [done|]. destruct c as [ph out']. cbn in He. subst. by eexists.
Qed.
End lone.

(** * Witnesses *)

Section witnesses.
#[local] Existing Instances gmap_dashmap ms_clock itoa_display memchr_scan crc32_sum.

(** A server with a log and one client, who has just been accepted. *)
Definition wit_accepted : State (M := gmap bytes ValueEntry) :=
  mkState (sw wit_logged) (unlocked <$> aof wit_logged) [loc (sw wit_logged)] [mkConn Opening []] 1
    true Idle Idle.
Definition wit_writes : list NetEvent :=
  [mkEvent (ReadData (str "SET a 1" ++ crlf ++ str "GE")) true; mkEvent (ReadData (str "T a" ++ crlf)) true].

Lemma lone_session_witness :
  ∃ s' evs tr, handle_session 0 true wit_writes wit_logged =
      (Val (str "+OK" ++ crlf ++ str "+1" ++ crlf), s') ∧
    run true 8 0 evs wit_accepted =
      Some (with_active 0 (placed wit_accepted 0 0 (mkConn Closed (str "+OK" ++ crlf ++ str "+1" ++ crlf)) s'),
            tr).
Proof.
  pose proof (lone_session true 8 0 0 0 wit_accepted wit_logged 0 wit_writes
    eq_refl eq_refl eq_refl eq_refl (or_introl (ex_intro _ _ eq_refl))) as H.
  assert ((handle_session 0 true wit_writes wit_logged).1 = Val (str "+OK" ++ crlf ++ str "+1" ++ crlf)) as E
    by (apply (bool_decide_unpack _); by vm_compute).
  destruct (handle_session 0 true wit_writes wit_logged) as [o s']. cbn [fst] in E. subst o.
  destruct H as (evs & tr & st' & Hrun & ->). by exists s', evs, tr.
Defined.
End witnesses.
