(* ===== verification/Linearizable.v ===== *)
(** Clients of the interleaved server, together: their commands take effect one at a time.

    [legal] is the sequential specification: each command answers from the data the commands
    before it left (file CommandSpec).  Whatever the schedule, the commands the server
    dispatches form a legal history, each client's in the order it sent them, and what a client
    is sent is the replies to its own. *)

From S2P Require Import Prelude RustStd Crates Domain Parser InlineFacts RespFacts ParserProps.
From S2P Require Import ParserBorrowed Metrics World Engine EngineFacts EvictFacts StoreSpec.
From S2P Require Import EngineProps Response Dispatcher DispatcherProps Aof AofFacts RestoreFacts.
From S2P Require Import AofProps CommandSpec AofLocks Snapshot Session SessionProps Server.
From S2P Require Import ServerProps EndToEnd Concurrent ConcurrentProps.

(** * Histories *)

Abbreviation Entry := (nat * (Command * Response))%type.
Abbreviation data_map := (gmap bytes bytes).

(** The data after a history, and its legality. *)
Definition outcome_of (a : data_map) (tr : list Entry) : data_map :=
  foldl (λ a l, effect l.2.1 a) a tr.

Fixpoint legal (a : data_map) (tr : list Entry) : Prop :=
  match tr with
  | [] => True
  | (_, (c, r)) :: tr => answers c a r ∧ legal (effect c a) tr
  end.

(** The commands of connection [i], and the bytes of the replies to them. *)
Definition cmds (i : nat) (tr : list Entry) : list Command :=
  omap (λ l, if decide (l.1 = i) then Some l.2.1 else None) tr.
Definition replies {IT : Itoa} (i : nat) (tr : list Entry) : bytes :=
  mjoin (omap (λ l, if decide (l.1 = i) then Some (write_to_resp l.2.2 []) else None) tr).

(** What connection [i] receives in a schedule. *)
Definition received (i : nat) (evs : list Event) : bytes :=
  mjoin (omap (λ ev, match ev with
                     | EvRead j (ReadData d) => if decide (j = i) then Some d else None
                     | _ => None
                     end) evs).

Lemma legal_app a tr1 tr2 : legal a (tr1 ++ tr2) ↔ legal a tr1 ∧ legal (outcome_of a tr1) tr2.
Proof.
  revert a. induction tr1 as [|[i [c r]] tr1 IH]; intros a; cbn; [naive_solver|]. rewrite IH. naive_solver.
Qed.

Lemma outcome_app a tr1 tr2 : outcome_of a (tr1 ++ tr2) = outcome_of (outcome_of a tr1) tr2.
Proof. apply foldl_app. Qed.

Lemma cmds_app i tr1 tr2 : cmds i (tr1 ++ tr2) = cmds i tr1 ++ cmds i tr2.
Proof. apply omap_app. Qed.

Lemma replies_app {IT : Itoa} i tr1 tr2 : replies i (tr1 ++ tr2) = replies i tr1 ++ replies i tr2.
Proof. unfold replies. by rewrite omap_app, join_app. Qed.

Lemma received_cons i ev evs : received i (ev :: evs) = received i [ev] ++ received i evs.
Proof. unfold received. by rewrite <- join_app, <- omap_app. Qed.

Lemma cmds_one i c r : cmds i [(i, (c, r))] = [c].
Proof. cbn. by rewrite decide_True. Qed.
Lemma cmds_other i j l : j ≠ i → cmds i [(j, l)] = [].
Proof. intros. cbn. by rewrite decide_False. Qed.
Lemma replies_one {IT : Itoa} i c r : replies i [(i, (c, r))] = write_to_resp r [].
Proof. unfold replies. cbn. rewrite decide_True by done. apply app_nil_r. Qed.
Lemma replies_other {IT : Itoa} i j l : j ≠ i → replies i [(j, l)] = [].
Proof. intros. unfold replies. cbn. by rewrite decide_False. Qed.

Lemma stream_app cs1 cs2 : stream (cs1 ++ cs2) = stream cs1 ++ stream cs2.
Proof. unfold stream. by rewrite fmap_app, join_app. Qed.

(** * The invariant *)

Section props.
Context {M : Type} {DM : DashMap bytes ValueEntry M} {CL : Clock} {IT : Itoa} {MC : Memchr}
  {C32 : Crc32}.
Abbreviation EW := (World (DashMapEngine M)).
Abbreviation SW := (SWorld (M := M)).
Implicit Types (st : State (M := M)) (s : SW) (tr : list Entry).
Variables (m : bool) (max_conns threshold : Z).
Abbreviation step := (step m max_conns threshold).
Abbreviation run := (run m max_conns threshold).
Abbreviation frame c := (resp_frame (command_args c)).

Definition client_ok (c : Command) : Prop := resp_encodable c ∧ timeless c ∧ single_call c = true.

(** A connection that received [rcv] of the stream of [cs], after the history [tr]. *)
Definition conn_inv (i : nat) (cs : list Command) (rcv : bytes) tr (c : Conn) : Prop :=
  ∃ rest, cs = cmds i tr ++ rest ∧
  match phase c with
  | Opening | Refused => rcv = [] ∧ cmds i tr = [] ∧ replies i tr = [] ∧ (phase c = Opening → sent c = [])
  | Reading rb wb =>
      rcv = stream (cmds i tr) ++ rb ∧ sent c ++ wb = replies i tr ∧ pending rb rest ∧
      Z.of_nat (length rb) ≤ MAX_READ_BUF ∧ wb = []
  | Writing rb wb =>
      rcv = stream (cmds i tr) ++ rb ∧ sent c ++ wb = replies i tr ∧ pending rb rest ∧
      Z.of_nat (length rb) ≤ MAX_READ_BUF
  | Framing b rb wb | Logging b rb wb _ =>
      b = true ∧ rcv = stream (cmds i tr) ++ rb ∧ sent c ++ wb = replies i tr ∧
      Z.of_nat (length rb) ≤ MAX_READ_BUF
  | Closing | Closed => ∃ wb, sent c ++ wb = replies i tr
  | Lost => False
  end.

Definition server_inv (css : nat → list Command) (a0 : data_map) (rcv : nat → bytes) tr st : Prop :=
  legal a0 tr ∧ holds (world st) (outcome_of a0 tr) ∧
  (∀ i c, conns st !! i = Some c → conn_inv i (css i) (rcv i) tr c) ∧
  (∀ i, (length (conns st) ≤ i)%nat → rcv i = [] ∧ cmds i tr = [] ∧ replies i tr = []).

(** ** The store *)

Lemma holds_sweep (w : EW) a : holds w a → ∃ w', sweep_expired w = (Val tt, w') ∧ holds w' a.
Proof.
  intros Hh. destruct (sweep_run w) as (w' & E & Hext & Hsh & Hs & _). exists w'. split; [done|].
  apply (holds_quiet w); [|done]. split_and!; [done| |done]. intros t k _.
  rewrite (holds_sees w a) by done. unfold sees. destruct (Hsh k) as [-> | Hn].
  - pose proof (holds_sees w a t k Hh) as H. unfold sees in H. by rewrite H.
  - rewrite Hn. specialize (Hs (clk (tick w')) k (Z.le_refl _)).
    rewrite (holds_sees w a) in Hs by done. unfold sees in Hs. rewrite Hn in Hs. done.
Qed.

Lemma resp_head_run c s a :
  timeless c → holds (sw s) a →
  ∃ e r w', resp_head m c s = (Val (e, r), mkSWorld w' (aof s)) ∧ holds w' (effect c a) ∧ answers c a r.
Proof.
  intros Ht Hh. destruct (dispatch_answers c (sw s) a Ht Hh) as (r & w1 & E & Hh1 & Hr & _).
  unfold resp_head. erewrite (st_bind_val (aof_entry_for _ _) _ s _ s) by reflexivity.
  rewrite (st_bind_val _ _ _ r (mkSWorld w1 (aof s))) by (unfold lift_w; by rewrite E).
  destruct (record_run m (command_type c) r (mkSWorld w1 (aof s))) as (w2 & E2 & Heng).
  rewrite (st_bind_val _ _ _ _ _ E2). do 3 eexists. split; [done|]. split; [|done].
  by apply (holds_eng w1).
Qed.

(** ** A frame *)

Lemma prefix_rest cs rest rb future :
  (stream cs ++ rb) ++ future = stream (cs ++ rest) → rb ++ future = stream rest.
Proof. rewrite stream_app, <- app_assoc. apply app_inv_head. Qed.

(** The parser on what has arrived of a stream: the next command, or nothing yet. *)
Lemma parse_stream rest rb future :
  Forall client_ok rest → in_memory (stream rest) → rb ++ future = stream rest →
  (∃ c rest' rb', rest = c :: rest' ∧ rb = frame c ++ rb' ∧ rb' ++ future = stream rest' ∧
     try_parse_frame rb = Val (Ok (Complete (length (frame c)) c))) ∨
  (pending rb rest ∧ try_parse_frame rb = Val (Ok Incomplete)).
Proof.
  intros Hcs Hmem E. destruct Hcs as [|c rest [Hc _] Hcs].
  { right. apply app_eq_nil in E as [-> ->]. done. }
  rewrite stream_cons in E, Hmem.
  destruct (arrived rb future c (stream rest) E) as [(rb1 & -> & E1)|(q & Hq & Eq & Hlt)].
  - left. exists c, rest, rb1. split_and!; [done..|]. apply resp_frame_parse; [done|].
    unfold in_memory in *. rewrite <- E1 in Hmem. rewrite !length_app in *. lia.
  - right. split; [done|]. apply (frame_prefix_incomplete c rb q); try done.
    unfold in_memory in *. rewrite Eq. rewrite length_app in Hmem. lia.
Qed.

Lemma after_batch_inv i cs rcv tr rb wb out :
  (∃ rest, cs = cmds i tr ++ rest ∧ pending rb rest) →
  rcv = stream (cmds i tr) ++ rb → out ++ wb = replies i tr → Z.of_nat (length rb) ≤ MAX_READ_BUF →
  conn_inv i cs rcv tr (mkConn (after_batch rb wb) out).
Proof.
  intros (rest & Hcs & Hp) Hr Ho Hl. exists rest. split; [done|]. unfold after_batch.
  destruct (_ <? _); [by exists wb|]. by destruct wb; cbn [is_empty phase sent].
Qed.

(** A frame of a connection whose bytes are a prefix of its client's stream. *)
Lemma resp_turn_inv i cs rcv tr rb wb out s a :
  Forall client_ok cs → in_memory (stream cs) → rcv `prefix_of` stream cs →
  holds (sw s) a → conn_inv i cs rcv tr (mkConn (Framing true rb wb) out) →
  ∃ ph l s', resp_turn m rb wb s = (ph, l, s') ∧ aof s' = aof s ∧
    match l with
    | None => holds (sw s') a ∧ conn_inv i cs rcv tr (mkConn ph out)
    | Some (c, r) =>
        answers c a r ∧ holds (sw s') (effect c a) ∧
        conn_inv i cs rcv (tr ++ [(i, (c, r))]) (mkConn ph out)
    end.
Proof.
  intros Hcs Hmem [future Hpre] Hh (rest & Ecs & _ & Hrcv & Hout & Hlen). simpl in *.
  rewrite Ecs, Hrcv in Hpre. symmetry in Hpre. apply prefix_rest in Hpre.
  assert (Forall client_ok rest) as Hrest by (rewrite Ecs in Hcs; by apply Forall_app in Hcs as [_ ?]).
  assert (in_memory (stream rest)) as Hmem'.
  { unfold in_memory in *. rewrite Ecs, stream_app, length_app in Hmem. lia. }
  unfold resp_turn.
  destruct (parse_stream rest rb future Hrest Hmem' Hpre)
    as [(c & rest' & rb' & -> & -> & Hfut & ->)|[Hp ->]].
  - unfold advance. rewrite length_app, (proj2 (Nat.leb_le _ _)), drop_app_exact by lia.
    apply Forall_cons in Hrest as [(_ & Ht & _) _].
    destruct (resp_head_run c s a Ht Hh) as (e & r & w' & E & Hh' & Hr). unfold handled. rewrite E.
    do 3 eexists. split; [done|]. split; [done|]. cbn [fmap option_fmap option_map fst snd].
    split_and!; [done..|]. exists rest'. rewrite cmds_app, cmds_one, replies_app, replies_one.
    rewrite length_app in Hlen.
    split; [by rewrite <- app_assoc|].
    assert (rcv = stream (cmds i tr ++ [c]) ++ rb' ∧ out ++ write_response r wb true =
      replies i tr ++ write_to_resp r [] ∧ Z.of_nat (length rb') ≤ MAX_READ_BUF).
    { rewrite stream_app. change (stream [c]) with (frame c ++ []). rewrite app_nil_r, Hrcv, <- !app_assoc.
      split_and!; [done | | lia]. rewrite <- Hout, <- app_assoc. done. }
    destruct e; by cbn.
  - do 3 eexists. split; [done|]. split_and!; [done..|]. apply after_batch_inv; [by exists rest | done..].
Qed.

(** ** A step *)

Section steps.
Variables (css : nat → list Command) (a0 : data_map).
Hypothesis css_ok : ∀ i, Forall client_ok (css i) ∧ in_memory (stream (css i)).

(** A step that leaves every connection and what it received alone. *)
Lemma inv_quiet rcv rcv' tr st st' :
  server_inv css a0 rcv tr st → (∀ i, rcv' i = rcv i) → conns st' = conns st →
  holds (world st') (outcome_of a0 tr) → server_inv css a0 rcv' tr st'.
Proof.
  intros (Hl & _ & Hc & Hn) Hr Ec Hh. split_and!; [done..| |]; rewrite Ec.
  - intros i c Hi. rewrite Hr. by apply Hc.
  - intros i Hi. rewrite Hr. by apply Hn.
Qed.

(** A new connection. *)
Lemma inv_accept rcv rcv' tr st st' ph out :
  server_inv css a0 rcv tr st → (∀ i, rcv' i = rcv i) → conns st' = conns st ++ [mkConn ph out] →
  (ph = Opening ∧ out = [] ∨ ph = Refused) → holds (world st') (outcome_of a0 tr) →
  server_inv css a0 rcv' tr st'.
Proof.
  intros (Hl & _ & Hc & Hn) Hr Ec Hph Hh. split_and!; [done..| |]; rewrite Ec.
  - intros i c Hi. rewrite Hr. destruct (decide (i < length (conns st))%nat) as [Hlt|Hge].
    + rewrite lookup_app_l in Hi by done. by apply Hc.
    + rewrite lookup_app_r in Hi by lia. apply list_lookup_singleton_Some in Hi as [_ <-].
      destruct (Hn i) as (E1 & E2 & E3); [lia|]. exists (css i). rewrite E2. split; [done|].
      by destruct Hph as [[-> ->]| ->]; cbn.
  - intros i Hi. rewrite length_app in Hi. rewrite Hr. apply Hn. lia.
Qed.

(** A step of one connection that dispatches nothing. *)
Lemma inv_conn rcv rcv' tr st st' i c c' :
  server_inv css a0 rcv tr st → conns st !! i = Some c → conns st' = <[i := c']> (conns st) →
  (∀ j, j ≠ i → rcv' j = rcv j) → holds (world st') (outcome_of a0 tr) →
  conn_inv i (css i) (rcv' i) tr c' → server_inv css a0 rcv' tr st'.
Proof.
  intros (Hl & _ & Hc & Hn) Hi Ec Hr Hh Hc'. split_and!; [done..| |]; rewrite Ec.
  - intros j d Hj. destruct (decide (j = i)) as [->|Hne].
    + rewrite list_lookup_insert_eq in Hj by (by eapply lookup_lt_Some). by injection Hj as <-.
    + rewrite list_lookup_insert_ne in Hj by done. rewrite Hr by done. by apply Hc.
  - intros j Hj. rewrite length_insert in Hj. rewrite Hr; [by apply Hn|].
    apply lookup_lt_Some in Hi. lia.
Qed.

(** A command of connection [i]. *)
Lemma inv_label rcv tr st st' i d c r c' :
  server_inv css a0 rcv tr st → conns st !! i = Some d → conns st' = <[i := c']> (conns st) →
  answers c (outcome_of a0 tr) r → holds (world st') (effect c (outcome_of a0 tr)) →
  conn_inv i (css i) (rcv i) (tr ++ [(i, (c, r))]) c' → server_inv css a0 rcv (tr ++ [(i, (c, r))]) st'.
Proof.
  intros (Hl & _ & Hc & Hn) Hi Ec Hans Hh Hc'.
  assert (∀ j, j ≠ i → cmds j (tr ++ [(i, (c, r))]) = cmds j tr ∧
    replies j (tr ++ [(i, (c, r))]) = replies j tr) as Hother.
  { intros j Hj. rewrite cmds_app, replies_app, cmds_other, replies_other, !app_nil_r by congruence. done. }
  split_and!; rewrite ?Ec.
  - apply legal_app. by cbn.
  - by rewrite outcome_app.
  - intros j e Hj. destruct (decide (j = i)) as [->|Hne].
    + rewrite list_lookup_insert_eq in Hj by (by eapply lookup_lt_Some). by injection Hj as <-.
    + rewrite list_lookup_insert_ne in Hj by done. unfold conn_inv.
      destruct (Hother j Hne) as [-> ->]. by apply Hc.
  - intros j Hj. rewrite length_insert in Hj.
    destruct (Hother j) as [-> ->]; [apply lookup_lt_Some in Hi; lia | by apply Hn].
Qed.

Lemma server_inv_ext rcv rcv' tr st :
  (∀ i, rcv' i = rcv i) → server_inv css a0 rcv tr st → server_inv css a0 rcv' tr st.
Proof. intros Hr H. eapply inv_quiet; [done..|]. apply H. Qed.

Lemma log_step_world me pc st pc' st' :
  log_step me pc st = Some (pc', st') → conns st' = conns st ∧ eng (world st') = eng (world st).
Proof.
  unfold log_step. destruct (log st) as [L|]; [|done]. cbn. destruct (wstep _ _ _ _ _) as [[]|]; [|done].
  cbn. intros [= _ <-]. split; [done|]. cbn. by case_bool_decide.
Qed.

Lemma count_conn_world f st : conns (count_conn m f st) = conns st ∧ eng (world (count_conn m f st)) = eng (world st).
Proof. unfold count_conn. by destruct m. Qed.

(** A read keeps to the stream; the first byte of what is pending is a star. *)
Lemma after_read_inv i cs rcv tr rb wb out r :
  conn_inv i cs rcv tr (mkConn (Reading rb wb) out) →
  rcv ++ received i [EvRead i r] `prefix_of` stream cs →
  conn_inv i cs (rcv ++ received i [EvRead i r]) tr (mkConn (after_read rb wb r) out).
Proof.
  intros (rest & Ecs & Hrcv & Hout & Hp & Hlen & _) Hpre. simpl in *. unfold received in *.
  destruct r as [[|b d]| |]; cbn in *; rewrite ?decide_True, ?app_nil_r in * by done;
    try (by exists rest; split; [|exists wb]).
  exists rest. split; [done|]. unfold after_read.
  assert (mjoin [b :: d] = b :: d) as Ej by apply app_nil_r. rewrite Ej in *.
  destruct (Z.ltb_spec MAX_READ_BUF (Z.of_nat (length (rb ++ b :: d)))); cbn [phase sent]; [by exists wb|].
  destruct Hpre as [future Hpre]. rewrite Ecs, Hrcv, <- (app_assoc (stream _)) in Hpre.
  symmetry in Hpre. apply prefix_rest in Hpre.
  rewrite Hrcv, <- app_assoc. split_and!; [|done..].
  apply bool_decide_eq_true_2. destruct (stream_head _ _ _ Hpre) as [E|E]; [|done].
  by apply app_eq_nil in E as [_ ?].
Qed.

(** A step without a label. *)
Ltac no_label E := injection E as <- <-; cbn [option_list]; rewrite app_nil_r.

(** The accept loop and the tickers. *)
Definition background (ev : Event) : bool :=
  match ev with
  | EvOpen _ | EvRead _ _ | EvFrame _ _ | EvLog _ | EvWrite _ _ | EvClose _ => false
  | _ => true
  end.

Lemma background_step ev rcv tr st st' l :
  background ev = true → step ev st = Some (st', l) → server_inv css a0 rcv tr st →
  server_inv css a0 (λ i, rcv i ++ received i [ev]) (tr ++ option_list l) st'.
Proof.
  intros Hb E Hinv. pose proof Hinv as (Hl & Hh & Hc & Hn).
  assert (∀ (w : EW), eng w = eng (world st) → holds w (outcome_of a0 tr)) as Heng.
  { intros w Ew. by apply (holds_eng (world st)). }
  destruct ev; try done; cbn [Concurrent.step] in E.
  - destruct (accepting st); [|done]. destruct (_ && _); no_label E;
      (eapply inv_accept; [done | by intros; apply app_nil_r | done | | done]); [by right | by left].
  - no_label E. eapply inv_quiet; [done | by intros; apply app_nil_r | done | done].
  - destruct (holds_sweep (world st) _ Hh) as (w' & Es & Hh'). rewrite Es in E. no_label E.
    eapply inv_quiet; [done | by intros; apply app_nil_r | done | done].
  - destruct (dump_snapshot timestamp (world st)) as [[?| |] w'] eqn:Ed; try done. no_label E.
    eapply inv_quiet; [done | by intros; apply app_nil_r | done | apply Heng]. by injection Ed as _ <-.
  - destruct (log st); [|done]. destruct (fsync_pc st); try done. no_label E.
    eapply inv_quiet; [done | by intros; apply app_nil_r | done | done].
  - destruct (log_step _ _ _) as [[pc' st1]|] eqn:El; [|done]. cbn in E. no_label E.
    destruct (log_step_world _ _ _ _ _ El) as [E1 E2].
    eapply inv_quiet; [done | by intros; apply app_nil_r | done | by apply Heng].
  - destruct (log st); [|done]. destruct (rewrite_pc st); try done. destruct (_ <? _).
    { no_label E. eapply inv_quiet; [done | by intros; apply app_nil_r | done | done]. }
    destruct (rewrite_aof (world st)) as [[[tmp k]| |] w'] eqn:Ed; try done. no_label E.
    eapply inv_quiet; [done | by intros; apply app_nil_r | done | apply Heng]. by injection Ed as _ _ <-.
  - destruct (log_step _ _ _) as [[pc' st1]|] eqn:El; [|done]. cbn in E. no_label E.
    destruct (log_step_world _ _ _ _ _ El) as [E1 E2].
    eapply inv_quiet; [done | by intros; apply app_nil_r | done | by apply Heng].
Qed.

(** The frame a session takes off its buffer. *)
Lemma frame_step_inv i th rcv tr st st' l :
  frame_step m i th st = Some (st', l) → server_inv css a0 rcv tr st →
  rcv i `prefix_of` stream (css i) → server_inv css a0 rcv (tr ++ option_list l) st'.
Proof.
  intros E Hinv Hpi. pose proof Hinv as (Hl & Hh & Hc & Hn).
  unfold frame_step in E. destruct (conns st !! i) as [[ph out]|] eqn:Hi; [|done]. cbn -[resp_turn] in E.
  destruct (locals st !! th) as [l0|]; [|done]. cbn -[resp_turn inline_turn] in E.
  destruct ph as [| |b rb wb| | | | | |]; try done.
  pose proof (Hc _ _ Hi) as Hci. assert (b = true) as -> by (by destruct Hci as (? & _ & ? & _)).
  destruct (css_ok i) as [Hok Hmem].
  destruct (resp_turn_inv i (css i) (rcv i) tr rb wb out
    (mkSWorld (with_loc l0 (world st)) (fields <$> log st)) (outcome_of a0 tr))
    as (ph & lab & s' & Et & _ & Hlab); try done.
  rewrite Et in E. injection E as <- <-.
  destruct lab as [[c r]|]; cbn [option_list fmap option_fmap option_map].
  + destruct Hlab as (Hans & Hh' & Hc'). by eapply inv_label.
  + rewrite app_nil_r. destruct Hlab as (Hh' & Hc'). by eapply inv_conn.
Qed.

Lemma session_step ev rcv tr st st' l :
  background ev = false → step ev st = Some (st', l) → server_inv css a0 rcv tr st →
  (∀ i, rcv i ++ received i [ev] `prefix_of` stream (css i)) →
  server_inv css a0 (λ i, rcv i ++ received i [ev]) (tr ++ option_list l) st'.
Proof.
  intros Hb E Hinv Hpre. pose proof Hinv as (Hl & Hh & Hc & Hn).
  assert (∀ (w : EW), eng w = eng (world st) → holds w (outcome_of a0 tr)) as Heng.
  { intros w Ew. by apply (holds_eng (world st)). }
  assert (∀ (i j : nat) (r : NetRead), j ≠ i → received j [EvRead i r] = []) as Hother.
  { intros i j [d| |] Hj; unfold received; cbn; try done. by rewrite decide_False. }
  destruct ev; try done; cbn [Concurrent.step] in E.
  - destruct (conns st !! i) as [[ph out]|] eqn:Hi; [|done]. cbn in E. destruct ph; try done. no_label E.
    destruct (count_conn_world connection_opened st) as [E1 E2].
    eapply inv_conn; [done | done | cbn; by rewrite E1 | by intros; apply app_nil_r | by apply Heng |].
    destruct (Hc _ _ Hi) as (rest & Ecs & Hr & Hcm & Hre & Hs). cbn in Hs. specialize (Hs eq_refl).
    exists rest. cbn [phase sent received]. rewrite Hr, Hcm, Hre, Hs. split_and!; try done.
    + by rewrite Ecs, Hcm.
    + destruct rest as [|c rest]; [done|]. unfold pending. destruct (frame_nonempty c) as [x ->]. cbn. lia.
  - destruct (conns st !! i) as [[ph out]|] eqn:Hi; [|done]. cbn in E. destruct ph; try done. no_label E.
    eapply inv_conn; [done | done | done | intros j Hj; cbn beta; by rewrite Hother, app_nil_r | done |].
    apply after_read_inv; [by apply Hc | apply Hpre].
  - apply (server_inv_ext rcv); [intros; apply app_nil_r|]. eapply frame_step_inv; [done..|].
    etrans; [by apply prefix_app_r | apply (Hpre i)].
  - destruct (conns st !! i) as [[ph out]|] eqn:Hi; [|done]. cbn in E. destruct ph; try done.
    destruct (log_step _ _ _) as [[pc' st1]|] eqn:El; [|done]. cbn in E. no_label E.
    destruct (log_step_world _ _ _ _ _ El) as [E1 E2].
    eapply inv_conn; [done | done | cbn; by rewrite E1 | by intros; apply app_nil_r | by apply Heng |].
    cbn beta. rewrite app_nil_r. pose proof (Hc _ _ Hi) as (rest & Ecs & H'). exists rest.
    split; [done|]. by case_bool_decide.
  - destruct (conns st !! i) as [[ph out]|] eqn:Hi; [|done]. cbn in E. destruct ph; try done. no_label E.
    eapply inv_conn; [done | done | done | by intros; apply app_nil_r | done |].
    cbn beta. rewrite app_nil_r. pose proof (Hc _ _ Hi) as (rest & Ecs & Hr & Ho & Hp & Hlen). exists rest.
    split; [done|]. destruct ok; cbn [phase sent] in *; [by rewrite app_nil_r | by exists wb].
  - destruct (conns st !! i) as [[ph out]|] eqn:Hi; [|done]. cbn in E. destruct ph; try done. no_label E.
    destruct (count_conn_world connection_closed st) as [E1 E2].
    eapply inv_conn; [done | done | cbn; by rewrite E1 | by intros; apply app_nil_r | by apply Heng |].
    cbn beta. rewrite app_nil_r. by pose proof (Hc _ _ Hi).
Qed.

Lemma server_step ev rcv tr st st' l :
  step ev st = Some (st', l) → server_inv css a0 rcv tr st →
  (∀ i, rcv i ++ received i [ev] `prefix_of` stream (css i)) →
  server_inv css a0 (λ i, rcv i ++ received i [ev]) (tr ++ option_list l) st'.
Proof.
  destruct (background ev) eqn:Hb; intros; [by eapply background_step | by eapply session_step].
Qed.

Lemma server_run evs rcv tr0 st st' tr :
  run evs st = Some (st', tr) → server_inv css a0 rcv tr0 st →
  (∀ i, rcv i ++ received i evs `prefix_of` stream (css i)) →
  server_inv css a0 (λ i, rcv i ++ received i evs) (tr0 ++ tr) st'.
Proof.
  revert rcv tr0 st tr. induction evs as [|ev evs IH]; intros rcv tr0 st tr; cbn [Concurrent.run].
  { intros [= <- <-] Hinv _. rewrite app_nil_r. apply (server_inv_ext rcv); [|done].
    intros i. apply app_nil_r. }
  destruct (step ev st) as [[st1 l]|] eqn:E; [|done]. cbn.
  destruct (run evs st1) as [[st2 ls]|] eqn:Er; [|done]. cbn. intros [= <- <-] Hinv Hpre.
  assert (∀ i, rcv i ++ received i (ev :: evs) = (rcv i ++ received i [ev]) ++ received i evs) as Hr.
  { intros i. by rewrite received_cons, app_assoc. }
  rewrite app_assoc. apply (server_inv_ext (λ i, (rcv i ++ received i [ev]) ++ received i evs)); [done|].
  apply (IH (λ i, rcv i ++ received i [ev]) _ st1); [done| |].
  - apply (server_step ev rcv tr0 st); [done..|]. intros i. etrans; [|apply Hpre]. rewrite Hr.
    by apply prefix_app_r.
  - intros i. rewrite <- Hr. apply Hpre.
Qed.
End steps.

(** C2: the interleaved server is linearizable for RESP clients that send single-key commands
    without lifetimes: in every schedule of any number of connections, with the sweeper, the
    snapshotter, the log's fsync and rewriting running in between, the commands dispatched form
    a history in which each answers from the data the ones before it left, which is also what
    the store holds at the end; each client's commands run in the order it sent them and it is
    sent the replies to them and nothing else; no session is lost; and a session that waits for
    input has answered everything it was sent in full. *)
Theorem linearizable css a0 evs (w : EW) a n st tr :
  (∀ i, Forall client_ok (css i) ∧ in_memory (stream (css i))) → holds w a0 →
  run evs (boot w a n) = Some (st, tr) →
  (∀ i, received i evs `prefix_of` stream (css i)) →
  legal a0 tr ∧ holds (world st) (outcome_of a0 tr) ∧
  ∀ i c, conns st !! i = Some c → phase c ≠ Refused →
    phase c ≠ Lost ∧ cmds i tr `prefix_of` css i ∧ sent c `prefix_of` replies i tr ∧
    ∀ rb wb, phase c = Reading rb wb → sent c = replies i tr ∧
      (received i evs = stream (css i) → cmds i tr = css i).
Proof.
  intros Hcss Hh Hrun Hpre.
  destruct (server_run css a0 Hcss evs (λ _, []) [] (boot w a n) st tr) as (Hl & Hh' & Hc & _); try done.
  split_and!; [done..|]. intros i c Hi Hnr.
  assert (conn_inv i (css i) (received i evs) tr c) as Hci by exact (Hc i c Hi). destruct Hci as (rest & Ecs & Hph). split_and!.
  - intros E. by rewrite E in Hph.
  - rewrite Ecs. by apply prefix_app_r.
  - destruct (phase c) eqn:E; try done;
      first [ destruct Hph as (_ & _ & _ & Hx); rewrite (Hx eq_refl); apply prefix_nil
            | destruct Hph as (_ & Hx & _); rewrite <- Hx; by apply prefix_app_r
            | destruct Hph as (_ & _ & Hx & _); rewrite <- Hx; by apply prefix_app_r
            | destruct Hph as (wb & Hx); rewrite <- Hx; by apply prefix_app_r ].
  - intros rb wb E. rewrite E in Hph. destruct Hph as (Hr & Hx & Hp & _ & ->).
    rewrite app_nil_r in Hx. split; [done|]. intros Hall.
    rewrite Hall, Ecs, stream_app in Hr.
    apply app_inv_head in Hr. rewrite Ecs. destruct rest as [|d rest]; [by rewrite app_nil_r|].
    unfold pending in Hp. rewrite <- Hr, stream_cons, length_app in Hp. lia.
Qed.
End props.

(** * Witnesses *)

Section witnesses.
#[local] Existing Instances gmap_dashmap ms_clock itoa_display memchr_scan crc32_sum.

(** Two clients: the second's command runs between the two of the first. *)
Definition wit_clients (i : nat) : list Command :=
  match i with
  | 0%nat => [CSet (str "a") (str "1") None; CGet (str "a")]
  | 1%nat => [CIncr (str "a")]
  | _ => []
  end.

Definition wit_schedule : list Event :=
  [EvAccept; EvAccept; EvOpen 0; EvOpen 1;
   EvRead 0 (ReadData (take 20 (stream (wit_clients 0))));
   EvRead 1 (ReadData (stream (wit_clients 1))); EvFrame 0 0;
   EvRead 0 (ReadData (drop 20 (stream (wit_clients 0)))); EvFrame 0 1; EvLog 0; EvSweep;
   EvFrame 1 0; EvLog 0; EvLog 1; EvLog 1; EvFrame 0 0; EvFrame 0 1; EvFrame 1 1; EvWrite 0 true;
   EvWrite 1 true].

Definition wit_boot : State (M := gmap bytes ValueEntry) :=
  boot wit_empty (Some (aof_new [] Always 0)) 2.

Lemma wit_empty_holds : holds wit_empty ∅.
Proof. split_and!; [done | |]; by intros k. Qed.

Lemma linearizable_witness :
  ∃ st tr, run true 8 0 wit_schedule wit_boot = Some (st, tr) ∧ legal ∅ tr ∧
    holds (world st) (outcome_of ∅ tr).
Proof.
  assert (is_Some (run true 8 0 wit_schedule wit_boot)) as [[st tr] E] by (apply (bool_decide_unpack _); by vm_compute).
  exists st, tr. split; [done|].
  eapply (linearizable true 8 0 wit_clients ∅) in E.
  - split; apply E.
  - intros [|[|i]]; (split; [repeat constructor | by vm_compute]).
  - apply wit_empty_holds.
  - intros [|[|i]]; apply (bool_decide_unpack _); by vm_compute.
Defined.

Definition wit_short : list Event := [EvAccept; EvAccept; EvOpen 0; EvRead 0 (ReadData (str "PING"))].

Lemma slots_interleaved_witness :
  ∃ st tr, run true 1 0 wit_short wit_boot = Some (st, tr) ∧
    active st = occupied_count (conns st) ∧ active st ≤ 1.
Proof.
  assert (is_Some (run true 1 0 wit_short wit_boot)) as [[st tr] E] by (apply (bool_decide_unpack _); by vm_compute).
  exists st, tr. split; [done|].
  destruct (slots_interleaved true 1 0 wit_short wit_empty (Some (aof_new [] Always 0)) 2 st tr)
    as (H1 & H2 & _); [done | exact E | by split].
Defined.

Lemma buffers_bounded_witness :
  ∃ st tr, run true 1 0 wit_short wit_boot = Some (st, tr) ∧
    Forall buffers_ok (conns st).
Proof.
  assert (is_Some (run true 1 0 wit_short wit_boot)) as [[st tr] E] by (apply (bool_decide_unpack _); by vm_compute).
  exists st, tr. split; [done|]. eapply (buffers_bounded true 1 0 _ wit_empty). exact E.
Defined.

(** ** The order of the log *)

(** Two clients set the same key; the second is dispatched later but logged first. *)
Definition wit_racers (i : nat) : list Command := [CSet (str "k") (display_i (Z.of_nat i)) None].
Definition wit_race : list Event :=
  [EvAccept; EvAccept; EvOpen 0; EvOpen 1; EvRead 0 (ReadData (stream (wit_racers 0)));
   EvRead 1 (ReadData (stream (wit_racers 1))); EvFrame 0 0; EvFrame 1 1; EvLog 1; EvLog 1; EvLog 0;
   EvLog 0; EvFrame 0 0; EvFrame 1 1; EvWrite 0 true; EvWrite 1 true].

(** The outcome of a race, as a test. *)
Definition race_check (o : option (State (M := gmap bytes ValueEntry) * list Entry)) : bool :=
  match o with
  | Some (st, _) =>
      match log st with
      | Some L =>
          match replay_aof (Ok (file (flush (fields L)))) wit_empty with
          | (Val (Ok _), w') =>
              bool_decide (sent <$> conns st = [str "+OK" ++ crlf; str "+OK" ++ crlf] ∧
                data <$> dm_get (emap (eng (world st))) (str "k") = Some (str "1") ∧
                data <$> dm_get (emap (eng w')) (str "k") = Some (str "0"))
          | _ => false
          end
      | None => false
      end
  | None => false
  end.

Lemma race_check_spec o :
  race_check o = true →
  ∃ st tr L n w', o = Some (st, tr) ∧
    sent <$> conns st = [str "+OK" ++ crlf; str "+OK" ++ crlf] ∧
    data <$> dm_get (emap (eng (world st))) (str "k") = Some (str "1") ∧
    log st = Some L ∧
    replay_aof (Ok (file (flush (fields L)))) wit_empty = (Val (Ok n), w') ∧
    data <$> dm_get (emap (eng w')) (str "k") = Some (str "0").
Proof.
  unfold race_check. destruct o as [[st tr]|]; [|done]. destruct (log st) as [L|] eqn:EL; [|done].
  destruct (replay_aof (Ok (file (flush (fields L)))) wit_empty) as [[[n|?]| |] w'] eqn:Er; try done.
  intros (H1 & H2 & H3)%bool_decide_eq_true_1. by exists st, tr, L, n, w'.
Qed.

(** The log need not be in the order the commands ran: a command is dispatched before it is
    appended, and another connection may do both in between.  In this schedule both clients are
    answered [OK], the store keeps the second value and a restart from the log finds the
    first. *)
Theorem log_order_diverges :
  ∃ st tr L n w', run true 0 0 wit_race wit_boot = Some (st, tr) ∧
    sent <$> conns st = [str "+OK" ++ crlf; str "+OK" ++ crlf] ∧
    data <$> dm_get (emap (eng (world st))) (str "k") = Some (str "1") ∧
    log st = Some L ∧
    replay_aof (Ok (file (flush (fields L)))) wit_empty = (Val (Ok n), w') ∧
    data <$> dm_get (emap (eng w')) (str "k") = Some (str "0").
Proof. apply race_check_spec. by vm_compute. Qed.
End witnesses.
