(* ===== verification/LogRecovery.v ===== *)
(** Restarting after the interleaved server: when clients write different keys, the log of all of
    them recovers what the store held, however their commands and their appends interleaved.
    (File Linearizable shows that two clients of one key can be logged the other way round.) *)

From S2P Require Import Prelude RustStd Crates Domain Parser InlineFacts RespFacts ParserProps.
From S2P Require Import ParserBorrowed Metrics World Engine EngineFacts EvictFacts StoreSpec.
From S2P Require Import EngineProps Response Dispatcher DispatcherProps Aof AofFacts RestoreFacts.
From S2P Require Import AofProps CommandSpec AofLocks Snapshot SnapshotProps Boot Session.
From S2P Require Import SessionProps Server ServerProps EndToEnd Concurrent ConcurrentProps Linearizable.

(** * The last writer of a key *)

(** The key a single-key command without counters writes. *)
Definition write_key (c : Command) : option bytes :=
  match c with CSet k _ _ | CDel k => Some k | _ => None end.

Definition plain (c : Command) : Prop := single_call c = true ∧ incr_free c.

Lemma effect_other c k a : plain c → write_key c ≠ Some k → effect c a !! k = a !! k.
Proof.
  intros [Hs Hi] Hk. destruct c; try done; cbn in *;
    [rewrite lookup_insert_ne | rewrite lookup_delete_ne]; congruence.
Qed.

Lemma effect_own c k a a' : write_key c = Some k → effect c a !! k = effect c a' !! k.
Proof.
  destruct c; try done; cbn; intros [= ->]; [by rewrite !lookup_insert_eq | by rewrite !lookup_delete_eq].
Qed.

Lemma effects_other cs k a :
  Forall (λ c, plain c ∧ write_key c ≠ Some k) cs → effects cs a !! k = a !! k.
Proof.
  intros Hcs. revert a. induction Hcs as [|c cs [Hp Hk] _ IH]; intros a; [done|].
  cbn. unfold effects in IH. rewrite IH. by apply effect_other.
Qed.

(** A key looks the same after the same commands on it, from data where it looks the same. *)
Lemma effects_same cs k a a' :
  Forall plain cs → a !! k = a' !! k → effects cs a !! k = effects cs a' !! k.
Proof.
  intros Hcs. revert a a'. induction Hcs as [|c cs Hp _ IH]; intros a a' E; [done|].
  cbn. apply IH. destruct (decide (write_key c = Some k)); [by apply effect_own|].
  by rewrite !effect_other.
Qed.

(** * One step on the log *)

(** What a step of a call does to the file and the batch: nothing, add the call's entry to the
    batch, move the batch into the file, or write the entry to the file once more. *)
Inductive log_move (pc pc' : Pc) (a a' : AofWriter) : Prop :=
| move_none :
    file a' = file a → batch_buffer a' = batch_buffer a → due_entry pc' = due_entry pc →
    again_entry pc' = again_entry pc → (∀ e, pc' ≠ FillEntry e) → log_move pc pc' a a'
| move_add e :
    pc = AppendExtend e → file a' = file a → batch_buffer a' = batch_buffer a ++ e →
    due_entry pc' = [] → (pc' = FillFile e ∨ pc' = Idle) → log_move pc pc' a a'
| move_drain :
    file a' = file a ++ batch_buffer a → batch_buffer a' = [] → due_entry pc' = due_entry pc →
    again_entry pc' = again_entry pc → log_move pc pc' a a'
| move_again e :
    pc = FillEntry e → file a' = file a ++ e → batch_buffer a' = batch_buffer a →
    due_entry pc' = [] → again_entry pc' = [] → log_move pc pc' a a'.

Lemma wstep_log_move i t t' pc L pc' L' :
  wstep i t t' pc L = Some (pc', L') → swapping pc = false →
  log_move pc pc' (fields L) (fields L') ∧ swapping pc' = false.
Proof.
  intros E Hs. destruct (drain_batch_file (fields L)) as [Hdf Hdb]. unfold written in Hdf.
  destruct (flush_drain (fields L)) as [Hff Hfb].
  destruct pc; cbn [wstep swapping] in *; try done; unfold acquire in E;
    repeat case_match; simplify_eq; (split; [|done]);
    first [ by apply move_none
          | by eapply move_add; eauto
          | by eapply move_again
          | apply move_drain; cbn; rewrite ?Hff, ?Hfb; done ].
Qed.

(** * The invariant *)

(** Where a connection is in its append. *)
Definition conn_pc (c : Conn) : Pc := match phase c with Logging _ _ _ pc => pc | _ => Idle end.

Section recovery.
Context {M : Type} {DM : DashMap bytes ValueEntry M} {CL : Clock} {IT : Itoa} {MC : Memchr}
  {C32 : Crc32}.
Abbreviation EW := (World (DashMapEngine M)).
Abbreviation SW := (SWorld (M := M)).
Implicit Types (st : State (M := M)) (s : SW) (tr : list Entry).
Variables (m : bool) (max_conns threshold : Z).
Abbreviation step := (step m max_conns threshold).
Abbreviation run := (run m max_conns threshold).

Variables (css : nat → list Command) (cs0 : list Command).

(** Clients of single-key commands without lifetimes and counters, and no key with two writers. *)
Definition writer_ok (c : Command) : Prop := client_ok c ∧ aof_encodable c ∧ incr_free c.
Hypothesis css_ok : ∀ i, Forall writer_ok (css i) ∧ in_memory (stream (css i)).
Hypothesis css_disjoint : ∀ i j c d k,
  c ∈ css i → d ∈ css j → write_key c = Some k → write_key d = Some k → i = j.

Abbreviation a0 := (effects cs0 ∅).

(** The log holds [cs0], then [fs], and the batch the commands [bs] with the clients they are
    from.  A call in progress is about its client's last command; a second copy is only written
    once the first is in the file; and every key is up to date but for a command that is on its
    way to the batch. *)
Record log_inv tr (a : AofWriter) (pcs : nat → option Pc) (fs : list Command)
    (bs : list (nat * Command)) : Prop := {
  li_file : file a = log_of (cs0 ++ fs);
  li_batch : batch_buffer a = log_of bs.*2;
  li_writes : Forall (λ c, writer_ok c ∧ is_write c = true) (fs ++ bs.*2);
  li_from : ∀ j c, (j, c) ∈ bs → c ∈ css j;
  li_last i pc e : pcs i = Some pc → e ∈ again_entry pc →
    ∃ c, last (cmds i tr) = Some c ∧ to_aof_entry c = Some e;
  li_again i e c : pcs i = Some (FillEntry e) → (i, c) ∉ bs;
  li_key k : effects (fs ++ bs.*2) a0 !! k = outcome_of a0 tr !! k ∨
    ∃ i pc c, pcs i = Some pc ∧ due_entry pc ≠ [] ∧ last (cmds i tr) = Some c ∧ write_key c = Some k
}.

Definition conn_pcs st (i : nat) : option Pc := conn_pc <$> conns st !! i.

Definition recovers tr st : Prop :=
  rewrite_pc st = Idle ∧ swapping (fsync_pc st) = false ∧ again_entry (fsync_pc st) = [] ∧
  (∀ i pc, conn_pcs st i = Some pc → swapping pc = false) ∧
  ∃ L fs bs, log st = Some L ∧ log_inv tr (fields L) (conn_pcs st) fs bs.

Lemma writer_plain c : writer_ok c → plain c.
Proof. by intros ((_ & _ & ?) & _ & ?). Qed.

Lemma writer_key c : writer_ok c → is_write c = true ↔ is_Some (write_key c).
Proof. intros ((_ & _ & Hs) & _ & Hi). destruct c; cbn in *; try done; split; intros H; eauto; by destruct H. Qed.

(** The last command of a client on its key decides what the store holds there. *)
Lemma last_decides tr i c k :
  (∀ j, Forall (λ d, d ∈ css j) (cmds j tr)) → last (cmds i tr) = Some c → write_key c = Some k →
  outcome_of a0 tr !! k = effect c ∅ !! k.
Proof.
  induction tr as [|[j [d r]] tr IH] using rev_ind; intros Hin Hl Hk; [done|].
  rewrite outcome_app. cbn.
  assert (∀ j', Forall (λ d, d ∈ css j') (cmds j' tr)) as Hin'.
  { intros j'. specialize (Hin j'). rewrite cmds_app in Hin. by apply Forall_app in Hin as [? _]. }
  destruct (decide (j = i)) as [->|Hne].
  - rewrite cmds_app, cmds_one, last_snoc in Hl. injection Hl as ->. by apply effect_own.
  - pose proof (Hin j) as Hj. rewrite cmds_app, cmds_one in Hj. apply Forall_app in Hj as [_ [Hj _]%Forall_cons].
    rewrite cmds_app, cmds_other, app_nil_r in Hl by done.
    assert (c ∈ css i) as Hc.
    { specialize (Hin' i). rewrite Forall_forall in Hin'. apply Hin', last_Some_elem_of, Hl. }
    rewrite effect_other.
    + by apply IH.
    + apply writer_plain. destruct (css_ok j) as [H _]. rewrite Forall_forall in H. by apply H.
    + intros Hd. apply Hne. eauto.
Qed.

(** ** Steps on the log *)

Section moves.
Variables (tr : list Entry) (pcs pcs' : nat → option Pc) (i : nat) (pc pc' : Pc) (a a' : AofWriter)
  (fs : list Command) (bs : list (nat * Command)).
Hypothesis Hcmds : ∀ j, Forall (λ d, d ∈ css j) (cmds j tr).
Hypotheses (Hpc : pcs i = Some pc) (Hpc' : pcs' i = Some pc') (Hpcs : ∀ j, j ≠ i → pcs' j = pcs j).

Lemma last_ok c e :
  last (cmds i tr) = Some c → to_aof_entry c = Some e → c ∈ css i ∧ writer_ok c ∧ is_write c = true.
Proof.
  intros Hl He. assert (c ∈ css i) as Hc.
  { specialize (Hcmds i). rewrite Forall_forall in Hcmds. apply Hcmds, last_Some_elem_of, Hl. }
  split_and!; [done | | by apply to_aof_entry_is_write].
  destruct (css_ok i) as [H _]. rewrite Forall_forall in H. by apply H.
Qed.

(** The call moves on while the file and the batch keep their entries. *)
Lemma log_inv_pcs (b b' : AofWriter) gs ds :
  log_inv tr b pcs gs ds → file b' = file b → batch_buffer b' = batch_buffer b →
  due_entry pc' = due_entry pc → again_entry pc' ⊆ again_entry pc →
  (∀ e, pc' ≠ FillEntry e) ∨ ds = [] → log_inv tr b' pcs' gs ds.
Proof.
  intros [Hf Hb Hw Hfr Hl Ha Hk] Ef Eb Hd Hag Hfe.
  split; [by rewrite Ef | by rewrite Eb | done | done | | |].
  - intros j pcj e Hj He. destruct (decide (j = i)) as [->|Hne].
    + rewrite Hpc' in Hj. injection Hj as <-. eapply Hl; [exact Hpc|]. by apply Hag.
    + rewrite Hpcs in Hj by done. by eapply Hl.
  - intros j e c Hj. destruct (decide (j = i)) as [->|Hne].
    + rewrite Hpc' in Hj. injection Hj as ->. destruct Hfe as [Hfe| ->]; [by destruct (Hfe e) | set_solver].
    + rewrite Hpcs in Hj by done. by eapply Ha.
  - intros k. destruct (Hk k) as [?|(j & pcj & c & Hj & Hdj & Hlj & Hkj)]; [by left|]. right.
    destruct (decide (j = i)) as [->|Hne].
    + exists i, pc', c. rewrite Hpc in Hj. injection Hj as <-. by rewrite Hd.
    + exists j, pcj, c. by rewrite Hpcs.
Qed.

Lemma log_inv_drain :
  log_inv tr a pcs fs bs → file a' = file a ++ batch_buffer a → batch_buffer a' = [] →
  log_inv tr a' pcs (fs ++ bs.*2) [].
Proof.
  intros [Hf Hb Hw Hfr Hl Ha Hk] Ef Eb. split; cbn; rewrite ?app_nil_r; try done.
  - by rewrite Ef, Hf, Hb, app_assoc, !log_of_app.
  - intros ? ? ?%elem_of_nil. done.
  - intros ? ? ? ? ?%elem_of_nil. done.
Qed.

Lemma log_of_one c e : to_aof_entry c = Some e → log_of [c] = e.
Proof. intros E. rewrite log_of_cons, E. apply app_nil_r. Qed.

Lemma log_inv_add e :
  log_inv tr a pcs fs bs → pc = AppendExtend e → file a' = file a →
  batch_buffer a' = batch_buffer a ++ e → due_entry pc' = [] → pc' = FillFile e ∨ pc' = Idle →
  ∃ c, log_inv tr a' pcs' fs (bs ++ [(i, c)]).
Proof.
  intros [Hf Hb Hw Hfr Hl Ha Hk] -> Ef Eb Hd Hn.
  destruct (Hl i _ e Hpc) as (c & Hlc & Hce); [by left|]. destruct (last_ok c e Hlc Hce) as (Hin & Hok & Hwr).
  exists c. split; rewrite ?fmap_app.
  - by rewrite Ef.
  - rewrite Eb, Hb, log_of_app. change ([(i, c)].*2) with [c]. by rewrite (log_of_one c e).
  - rewrite app_assoc. apply Forall_app. split; [done|]. by apply (Forall_singleton _ c).
  - intros j d [?|[= -> ->]%list_elem_of_singleton]%elem_of_app; eauto.
  - intros j pcj e' Hj He. destruct (decide (j = i)) as [->|Hne].
    + rewrite Hpc' in Hj. injection Hj as <-. destruct Hn as [-> | ->]; [|by apply elem_of_nil in He].
      apply list_elem_of_singleton in He as ->. by exists c.
    + rewrite Hpcs in Hj by done. by eapply Hl.
  - intros j e' d Hj. destruct (decide (j = i)) as [->|Hne].
    + rewrite Hpc' in Hj. injection Hj as ->. by destruct Hn.
    + rewrite Hpcs in Hj by done. intros [?|[= ->]%list_elem_of_singleton]%elem_of_app; [by eapply Ha | done].
  - intros k. rewrite app_assoc, effects_app. cbn. destruct (decide (write_key c = Some k)) as [Hck|Hck].
    + left. rewrite (last_decides tr i c k Hcmds Hlc Hck). by apply effect_own.
    + rewrite effect_other by (try apply writer_plain; done).
      destruct (Hk k) as [?|(j & pcj & d & Hj & Hdj & Hlj & Hkj)]; [by left|]. right.
      exists j, pcj, d. rewrite Hpcs by (intros ->; congruence). done.
Qed.

Lemma log_inv_again e :
  log_inv tr a pcs fs bs → pc = FillEntry e → file a' = file a ++ e →
  batch_buffer a' = batch_buffer a → due_entry pc' = [] → again_entry pc' = [] →
  ∃ c, log_inv tr a' pcs' (fs ++ [c]) bs.
Proof.
  intros Hinv -> Ef Eb Hd Hn. pose proof Hinv as [Hf Hb Hw Hfr Hl Ha Hk].
  destruct (Hl i _ e Hpc) as (c & Hlc & Hce); [by left|]. destruct (last_ok c e Hlc Hce) as (Hin & Hok & Hwr).
  exists c. apply Forall_app in Hw as [Hw1 Hw2].
  assert (Forall plain bs.*2) as Hpl by (eapply Forall_impl; [exact Hw2|]; intros ? [? _]; by apply writer_plain).
  split.
  - rewrite Ef, Hf, app_assoc, !log_of_app. by rewrite (log_of_one c e).
  - by rewrite Eb.
  - rewrite <- app_assoc. apply Forall_app. split; [done|]. by constructor.
  - done.
  - intros j pcj e' Hj He. destruct (decide (j = i)) as [->|Hne].
    + rewrite Hpc' in Hj. injection Hj as <-. rewrite Hn in He. by apply elem_of_nil in He.
    + rewrite Hpcs in Hj by done. by eapply Hl.
  - intros j e' d Hj. destruct (decide (j = i)) as [->|Hne].
    + rewrite Hpc' in Hj. injection Hj as ->. done.
    + rewrite Hpcs in Hj by done. by eapply Ha.
  - intros k. rewrite <- app_assoc, effects_app, (effects_app [c]). cbn [effects foldl].
    destruct (decide (write_key c = Some k)) as [Hck|Hck].
    + left. rewrite (last_decides tr i c k Hcmds Hlc Hck), effects_other; [by apply effect_own|].
      apply Forall_forall. intros d ([j d'] & -> & Hjd)%list_elem_of_fmap. cbn in *.
      split; [by eapply Forall_forall in Hpl; [|apply list_elem_of_fmap; exists (j, d')]|].
      intros Hdk. destruct (decide (j = i)) as [->|Hne]; [by eapply Ha|]. apply Hne. eauto.
    + rewrite (effects_same _ k _ (effects fs a0)) by (done || by apply effect_other, Hck; apply writer_plain).
      rewrite <- effects_app.
      destruct (Hk k) as [?|(j & pcj & d & Hj & Hdj & Hlj & Hkj)]; [by left|]. right.
      exists j, pcj, d. rewrite Hpcs; [done|]. intros ->. rewrite Hpc in Hj. by injection Hj as <-.
Qed.

(** Any step of the call of a connection. *)
Lemma log_inv_move :
  log_inv tr a pcs fs bs → log_move pc pc' a a' → ∃ fs' bs', log_inv tr a' pcs' fs' bs'.
Proof.
  intros Hinv [?? Hd Ha ?|e|?? Hd Ha|e].
  - exists fs, bs. apply (log_inv_pcs a); try done; [by rewrite Ha | by left].
  - destruct (log_inv_add e Hinv) as [c ?]; try done. by eexists _, _.
  - eexists _, _. apply (log_inv_pcs a'); [by apply log_inv_drain| | | | |]; try done; [by rewrite Ha | by right].
  - destruct (log_inv_again e Hinv) as [c ?]; try done. by eexists _, _.
Qed.

(** A task without an entry of its own: the ticker. *)
Lemma log_inv_ticker p p' :
  log_inv tr a pcs fs bs → log_move p p' a a' → again_entry p = [] →
  (∃ fs' bs', log_inv tr a' pcs fs' bs') ∧ again_entry p' = [].
Proof.
  intros Hinv [?? Hd Ha ?|e ->|?? Hd Ha|e ->] He; try done; (split; [|by rewrite Ha]).
  - exists fs, bs. destruct Hinv as [Hf Hb]. split; try done; congruence.
  - eexists _, _. by apply log_inv_drain.
Qed.
End moves.

(** Calls without entries come and go. *)
Lemma log_inv_calls tr a pcs pcs' fs bs :
  log_inv tr a pcs fs bs →
  (∀ j pc, pcs' j = Some pc → pcs j = Some pc ∨ again_entry pc = []) →
  (∀ j pc, pcs j = Some pc → due_entry pc ≠ [] → pcs' j = Some pc) → log_inv tr a pcs' fs bs.
Proof.
  intros [Hf Hb Hw Hfr Hl Ha Hk] H1 H2. split; try done.
  - intros j pc e Hj He. destruct (H1 j pc Hj) as [?|E]; [by eapply Hl|]. rewrite E in He. by apply elem_of_nil in He.
  - intros j e c Hj. destruct (H1 j _ Hj) as [?|E]; [by eapply Ha | done].
  - intros k. destruct (Hk k) as [?|(j & pc & c & Hj & Hd & Hr)]; [by left|]. right. exists j, pc, c. auto.
Qed.

(** Connection [i] dispatches [c], and starts to append its entry if it is a write. *)
Lemma log_inv_command tr a pcs pcs' fs bs i c r pc' :
  log_inv tr a pcs fs bs → c ∈ css i → pcs i = Some Idle → pcs' i = Some pc' →
  (∀ j, j ≠ i → pcs' j = pcs j) →
  (∃ e, to_aof_entry c = Some e ∧ pc' = AppendLock e) ∨ (is_write c = false ∧ pc' = Idle) →
  log_inv (tr ++ [(i, (c, r))]) a pcs' fs bs.
Proof.
  intros [Hf Hb Hw Hfr Hl Ha Hk] Hc Hi Hi' Hother Hpc.
  assert (writer_ok c) as Hok by (destruct (css_ok i) as [H _]; rewrite Forall_forall in H; by apply H).
  assert (∀ j, j ≠ i → cmds j (tr ++ [(i, (c, r))]) = cmds j tr) as Hcm.
  { intros j Hj. rewrite cmds_app, cmds_other, app_nil_r by congruence. done. }
  split; try done.
  - intros j pc e Hj He. destruct (decide (j = i)) as [->|Hne].
    + exists c. rewrite cmds_app, cmds_one, last_snoc. split; [done|]. rewrite Hi' in Hj. injection Hj as <-.
      destruct Hpc as [(e' & Hce & ->)|[_ ->]]; [by apply list_elem_of_singleton in He as -> | by apply elem_of_nil in He].
    + rewrite Hcm by done. rewrite Hother in Hj by done. by eapply Hl.
  - intros j e d Hj. destruct (decide (j = i)) as [->|Hne]; [|rewrite Hother in Hj by done; by eapply Ha].
    rewrite Hi' in Hj. by destruct Hpc as [(? & _ & ->)|[_ ->]].
  - intros k. rewrite outcome_app. cbn. destruct (decide (write_key c = Some k)) as [Hck|Hck].
    + right. exists i, pc', c. rewrite cmds_app, cmds_one, last_snoc.
      destruct Hpc as [(e & _ & ->)|[Hn _]]; [done|]. apply not_true_iff_false in Hn. destruct Hn. apply writer_key; eauto.
    + rewrite effect_other by (try apply writer_plain; done).
      destruct (Hk k) as [?|(j & pc & d & Hj & Hd & Hlj & Hkj)]; [by left|]. right. exists j, pc, d.
      assert (j ≠ i) by (intros ->; rewrite Hi in Hj; by injection Hj as <-).
      by rewrite Hother, Hcm.
Qed.

Lemma resp_head_entry c s e r s' :
  resp_head m c s = (Val (e, r), s') → is_Some (aof s) →
  e = if is_success r && is_write c then to_aof_entry c else None.
Proof.
  intros E Ha. unfold resp_head, aof_entry_for, aof_open in E. unfold mbind, st_bind, mret, st_ret in E.
  rewrite bool_decide_eq_true_2 in E by done. cbn [andb] in E.
  destruct (lift_w (dispatch c) s) as [[r'| |] s1]; try done.
  destruct m; [destruct (record_resp _ _ s1) as [[[]| |] s2]; try done|]; injection E as <- <- _;
    by destruct (is_success r'), (is_write c).
Qed.

Lemma after_batch_idle rb wb out : conn_pc (mkConn (after_batch rb wb) out) = Idle.
Proof. unfold after_batch. by repeat case_match. Qed.

(** What a turn of the loop does to a connection's place in its append. *)
Lemma resp_turn_pc rb wb s ph l s' a out :
  resp_turn m rb wb s = (ph, l, s') → is_Some (aof s) →
  match l with
  | None => conn_pc (mkConn ph out) = Idle
  | Some (c, r) =>
      writer_ok c → answers c a r →
      (∃ e, to_aof_entry c = Some e ∧ conn_pc (mkConn ph out) = AppendLock e) ∨
      (is_write c = false ∧ conn_pc (mkConn ph out) = Idle)
  end.
Proof.
  unfold resp_turn. intros E Ha.
  destruct (try_parse_frame rb) as [[[consumed c| |]|[]]| |]; simplify_eq; try apply after_batch_idle; try done.
  - destruct (advance consumed rb) as [rb'| |]; simplify_eq; try done. unfold handled in E.
    destruct (resp_head m c s) as [[[e r]| |] s1] eqn:Eh; simplify_eq/=; try done.
    apply resp_head_entry in Eh; [|done]. intros ((_ & _ & Hs) & _ & Hi) Hans. subst e.
    destruct c; cbn in Hs, Hi, Hans; try done; subst r; cbn; eauto.
  - by destruct (advance _ rb); simplify_eq.
Qed.

(** ** Steps of the server *)

Definition tickers_ok st : Prop :=
  rewrite_pc st = Idle ∧ swapping (fsync_pc st) = false ∧ again_entry (fsync_pc st) = [].

(** A step that leaves the log alone and moves connections between points without entries. *)
Lemma recovers_quiet tr st st' :
  recovers tr st → log st' = log st → tickers_ok st' →
  (∀ j c', conns st' !! j = Some c' → conns st !! j = Some c' ∨ conn_pc c' = Idle) →
  (∀ j c, conns st !! j = Some c → conns st' !! j = Some c ∨ conn_pc c = Idle) → recovers tr st'.
Proof.
  intros (_ & _ & _ & Hs & L & fs & bs & HL & Hinv) EL (Hr & Hf & Ha) H1 H2.
  assert (∀ j pc, conn_pcs st' j = Some pc → conn_pcs st j = Some pc ∨ pc = Idle) as H1'.
  { unfold conn_pcs. intros j pc (c & Hc & ->)%fmap_Some. destruct (H1 j c Hc) as [->|]; [by left | by right]. }
  split_and!; [done..| |].
  - intros j pc Hj. destruct (H1' j pc Hj) as [?| ->]; [by eapply Hs | done].
  - exists L, fs, bs. split; [by rewrite EL|]. eapply log_inv_calls; [done| |].
    + intros j pc Hj. destruct (H1' j pc Hj) as [?| ->]; [by left | by right].
    + unfold conn_pcs. intros j pc (c & Hc & ->)%fmap_Some Hd.
      destruct (H2 j c Hc) as [->|E]; [done|]. by rewrite E in Hd.
Qed.

Lemma recovers_conn tr st st' i c c' :
  recovers tr st → conns st !! i = Some c → conns st' = <[i := c']> (conns st) → log st' = log st →
  tickers_ok st' → conn_pc c = Idle → conn_pc c' = Idle → recovers tr st'.
Proof.
  intros Hr Hi Ec EL Ht E E'. apply (recovers_quiet tr st); [done..| |]; rewrite Ec; intros j d Hj;
    (destruct (decide (j = i)) as [->|Hne]; [right|left]); rewrite ?list_lookup_insert_ne in * by done; try done.
  - rewrite list_lookup_insert_eq in Hj by (by eapply lookup_lt_Some). by injection Hj as <-.
  - congruence.
Qed.

Lemma log_step_inv me pc st pc' st' L :
  log_step me pc st = Some (pc', st') → log st = Some L → swapping pc = false →
  ∃ L', log st' = Some L' ∧ conns st' = conns st ∧ fsync_pc st' = fsync_pc st ∧
    rewrite_pc st' = rewrite_pc st ∧ log_move pc pc' (fields L) (fields L') ∧ swapping pc' = false.
Proof.
  intros E HL Hs. unfold log_step in E. rewrite HL in E. cbn in E.
  destruct (wstep _ _ _ pc L) as [[p L']|] eqn:Ew; [|done]. cbn in E. injection E as -> <-.
  exists L'. split_and!; try done; by eapply wstep_log_move.
Qed.

Lemma recovers_fsync tr st st' l :
  step EvFsync st = Some (st', l) → recovers tr st → recovers tr st'.
Proof.
  cbn [Concurrent.step]. destruct (log_step _ _ _) as [[pc' st1]|] eqn:El; [|done]. cbn. intros [= <- _].
  intros (Hr & Hf & Ha & Hs & L & fs & bs & HL & Hinv).
  destruct (log_step_inv _ _ _ _ _ _ El HL Hf) as (L' & HL' & Ec & E1 & E2 & Hm & Hs').
  destruct (log_inv_ticker _ _ _ _ _ _ _ _ Hinv Hm Ha) as [(fs' & bs' & Hinv') Ha'].
  unfold recovers, conn_pcs. cbn. rewrite E2, Ec. split_and!; [done..|]. by exists L', fs', bs'.
Qed.

Lemma recovers_log tr st st' i l :
  step (EvLog i) st = Some (st', l) → (∀ j, Forall (λ d, d ∈ css j) (cmds j tr)) →
  recovers tr st → recovers tr st'.
Proof.
  cbn [Concurrent.step]. intros E Hcmds (Hr & Hf & Ha & Hs & L & fs & bs & HL & Hinv).
  destruct (conns st !! i) as [[ph out]|] eqn:Hi; [|done]. cbn in E.
  destruct ph as [| | |b rb wb pc| | | | |]; try done.
  destruct (log_step _ _ _) as [[pc' st1]|] eqn:El; [|done]. cbn in E. injection E as <- _.
  assert (conn_pcs st i = Some pc) as Hpc by (unfold conn_pcs; by rewrite Hi).
  destruct (log_step_inv _ _ _ _ _ _ El HL (Hs _ _ Hpc)) as (L' & HL' & Ec & E1 & E2 & Hm & Hs').
  set (c' := mkConn _ out). set (st' := with_conn i c' st1).
  assert (conn_pcs st' i = Some pc') as Hpc'.
  { unfold conn_pcs. cbn. rewrite Ec, list_lookup_insert_eq by (by eapply lookup_lt_Some).
    unfold c', conn_pc. cbn [fmap option_fmap option_map phase]. case_bool_decide; [|done]. by destruct pc'. }
  assert (∀ j, j ≠ i → conn_pcs st' j = conn_pcs st j) as Hother.
  { intros j Hj. unfold conn_pcs. cbn. by rewrite Ec, list_lookup_insert_ne. }
  destruct (log_inv_move tr (conn_pcs st) (conn_pcs st') i pc pc' (fields L) (fields L') fs bs)
    as (fs' & bs' & Hinv'); try done.
  unfold recovers. cbn. rewrite E1, E2, HL'. split_and!; [done..| |by exists L', fs', bs'].
  intros j p Hj. destruct (decide (j = i)) as [->|Hne]; [congruence|]. rewrite Hother in Hj by done. by eapply Hs.
Qed.

Lemma recovers_frame tr st st' i th l :
  step (EvFrame i th) st = Some (st', l) →
  (∀ c r, l = Some (i, (c, r)) → c ∈ css i ∧ answers c (outcome_of a0 tr) r) →
  (∀ c rb wb b, conns st !! i = Some c → phase c = Framing b rb wb → b = true) →
  recovers tr st → recovers (tr ++ option_list l) st'.
Proof.
  cbn [Concurrent.step]. unfold frame_step. intros E Hl Hb Hrec.
  pose proof Hrec as (Hr & Hf & Ha & Hs & L & fs & bs & HL & Hinv).
  destruct (conns st !! i) as [[ph out]|] eqn:Hi; [|done]. cbn -[resp_turn] in E.
  destruct (locals st !! th) as [l0|]; [|done]. cbn -[resp_turn inline_turn] in E.
  destruct ph as [| |b rb wb| | | | | |]; try done. rewrite (Hb _ rb wb b eq_refl eq_refl) in E.
  destruct (resp_turn _ _ _ _) as [[ph lab] s'] eqn:Et. injection E as <- <-.
  apply (resp_turn_pc _ _ _ _ _ _ (outcome_of a0 tr) out) in Et; [|by rewrite HL].
  destruct lab as [[c r]|]; cbn [option_list fmap option_fmap option_map] in *.
  2: { rewrite app_nil_r. by eapply recovers_conn. }
  destruct (Hl c r eq_refl) as [Hc Hans].
  assert (writer_ok c) as Hok by (destruct (css_ok i) as [H _]; rewrite Forall_forall in H; by apply H).
  specialize (Et Hok Hans). set (st' := with_conn _ _ _).
  assert (conn_pcs st' i = Some (conn_pc (mkConn ph out))) as Hpc'.
  { unfold conn_pcs. cbn. by rewrite list_lookup_insert_eq by (by eapply lookup_lt_Some). }
  assert (∀ j, j ≠ i → conn_pcs st' j = conn_pcs st j) as Hother.
  { intros j Hj. unfold conn_pcs. cbn. by rewrite list_lookup_insert_ne. }
  unfold recovers. split_and!; [done..| |].
  - intros j p Hj. destruct (decide (j = i)) as [->|Hne]; [|rewrite Hother in Hj by done; by eapply Hs].
    rewrite Hpc' in Hj. injection Hj as <-. by destruct Et as [(e & _ & ->)|[_ ->]].
  - exists L, fs, bs. split; [done|].
    eapply (log_inv_command _ _ (conn_pcs st)); [done..| |done|done|done]. unfold conn_pcs. by rewrite Hi.
Qed.

Lemma server_cmds rcv tr st j : server_inv css a0 rcv tr st → cmds j tr `prefix_of` css j.
Proof.
  intros (_ & _ & Hc & Hn). destruct (conns st !! j) as [c|] eqn:Hj.
  - destruct (Hc j c Hj) as (rest & -> & _). by apply prefix_app_r.
  - apply lookup_ge_None in Hj. destruct (Hn j Hj) as (_ & -> & _). apply prefix_nil.
Qed.

Lemma prefix_Forall_in {A} (l k : list A) : l `prefix_of` k → Forall (λ x, x ∈ k) l.
Proof. intros [q ->]. apply Forall_forall. intros x Hx. apply elem_of_app. by left. Qed.

Lemma after_read_idle rb wb r out : conn_pc (mkConn (after_read rb wb r) out) = Idle.
Proof. unfold after_read. by repeat case_match. Qed.

(** A step of connection [i] from and to points without entries. *)
Ltac conn_quiet E Hrec Hi :=
  injection E as <- <-; cbn [option_list]; rewrite app_nil_r;
  eapply recovers_conn; [exact Hrec | exact Hi | | | | done | try done];
  unfold count_conn; try (destruct m); done.

Lemma recovers_session ev tr st st' l :
  step ev st = Some (st', l) → background ev = false → recovers tr st →
  match ev with EvFrame _ _ | EvLog _ => True | _ => recovers (tr ++ option_list l) st' end.
Proof.
  intros E Hb Hrec. pose proof Hrec as (Hr & Hf & Ha & _).
  assert (tickers_ok st) as Ht by done.
  destruct ev; try done; cbn [Concurrent.step] in E;
    destruct (conns st !! i) as [[ph out]|] eqn:Hi; try done; cbn in E; destruct ph; try done.
  - conn_quiet E Hrec Hi.
  - injection E as <- <-. rewrite app_nil_r. eapply recovers_conn; try done. apply after_read_idle.
  - destruct ok; conn_quiet E Hrec Hi.
  - conn_quiet E Hrec Hi.
Qed.

Lemma recovers_background ev tr st st' l :
  step ev st = Some (st', l) → background ev = true → ev ≠ EvRewriteTick → recovers tr st →
  recovers (tr ++ option_list l) st'.
Proof.
  intros E Hb Hne Hrec. pose proof Hrec as (Hr & Hf & Ha & _ & L & fs & bs & HL & _).
  assert (∀ st'', conns st'' = conns st → log st'' = log st → tickers_ok st'' → recovers tr st'') as Hsame.
  { intros st'' Ec El Ht'. apply (recovers_quiet tr st); rewrite ?Ec; auto. }
  assert (∀ c st'', conn_pc c = Idle → conns st'' = conns st ++ [c] → log st'' = log st →
    tickers_ok st'' → recovers tr st'') as Hnew.
  { intros c st'' Hc Ec El Ht'. apply (recovers_quiet tr st); rewrite ?Ec; auto; intros j d Hj.
    - apply lookup_app_Some in Hj as [?|[_ [_ ->]%list_lookup_singleton_Some]]; auto.
    - left. by apply lookup_app_l_Some. }
  destruct ev; try done; cbn [Concurrent.step] in E.
  - destruct (accepting st); [|done]. destruct (_ && _); injection E as <- <-; rewrite app_nil_r;
      (eapply Hnew; [|reflexivity|done|done]; done).
  - injection E as <- <-. rewrite app_nil_r. by apply Hsame.
  - destruct (sweep_expired _) as [[?| |] w']; try done. injection E as <- <-. rewrite app_nil_r. by apply Hsame.
  - destruct (dump_snapshot _ _) as [[?| |] w']; try done. injection E as <- <-. rewrite app_nil_r. by apply Hsame.
  - rewrite HL in E. destruct (fsync_pc st); try done. injection E as <- <-. rewrite app_nil_r. by apply Hsame.
  - assert (l = None) as ->; [|rewrite app_nil_r; by eapply recovers_fsync].
    destruct (log_step _ _ _) as [[? ?]|]; [|done]. by injection E.
  - rewrite Hr in E. unfold log_step in E. by rewrite HL in E.
Qed.

Lemma recovers_step ev rcv rcv' tr st st' l :
  step ev st = Some (st', l) → ev ≠ EvRewriteTick → server_inv css a0 rcv tr st →
  server_inv css a0 rcv' (tr ++ option_list l) st' → recovers tr st →
  recovers (tr ++ option_list l) st'.
Proof.
  intros E Hne Hinv Hinv' Hrec.
  destruct (background ev) eqn:Hb; [by eapply recovers_background|].
  pose proof (recovers_session ev tr st st' l E Hb Hrec) as Hse. destruct ev; try done.
  - eapply recovers_frame; [done| | |done].
    + intros c r ->. cbn in Hinv'. split.
      * pose proof (server_cmds _ _ _ i Hinv') as Hp%prefix_Forall_in.
        rewrite cmds_app, cmds_one in Hp. by apply Forall_app in Hp as [_ [? _]%Forall_cons].
      * destruct Hinv' as [[_ [? _]]%legal_app _]. done.
    + intros c rb wb b Hi Hph. destruct Hinv as (_ & _ & Hc & _).
      destruct (Hc _ _ Hi) as (rest & _ & H). rewrite Hph in H. by destruct H.
  - assert (l = None) as ->; [|rewrite app_nil_r; eapply recovers_log; try done].
    { cbn in E. destruct (conns st !! i) as [[[] ?]|]; try done. cbn in E.
      destruct (log_step _ _ _) as [[? ?]|]; [|done]. by injection E. }
    intros j. eapply prefix_Forall_in, server_cmds, Hinv.
Qed.

Lemma clients_ok i : Forall client_ok (css i) ∧ in_memory (stream (css i)).
Proof. destruct (css_ok i) as [H ?]. split; [|done]. eapply Forall_impl; [exact H|]. by intros ? []. Qed.

Lemma recovers_run evs rcv tr0 st st' tr :
  run evs st = Some (st', tr) → EvRewriteTick ∉ evs → server_inv css a0 rcv tr0 st →
  (∀ i, rcv i ++ received i evs `prefix_of` stream (css i)) → recovers tr0 st →
  recovers (tr0 ++ tr) st'.
Proof.
  revert rcv tr0 st tr. induction evs as [|ev evs IH]; intros rcv tr0 st tr; cbn [Concurrent.run].
  { intros [= <- <-] _ _ _. by rewrite app_nil_r. }
  destruct (step ev st) as [[st1 l]|] eqn:E; [|done]. cbn.
  destruct (run evs st1) as [[st2 ls]|] eqn:Er; [|done]. cbn. intros [= <- <-] [Hne Hni]%not_elem_of_cons Hinv Hpre Hrec.
  assert (∀ i, (rcv i ++ received i [ev]) ++ received i evs `prefix_of` stream (css i)) as Hpre'.
  { intros i. rewrite <- app_assoc, <- received_cons. apply Hpre. }
  assert (server_inv css a0 (λ i, rcv i ++ received i [ev]) (tr0 ++ option_list l) st1) as Hinv1.
  { eapply server_step; [apply clients_ok | done..|]. intros i. etrans; [|apply Hpre']. by apply prefix_app_r. }
  rewrite app_assoc. eapply (IH (λ i, rcv i ++ received i [ev])); [done..|].
  eapply recovers_step; [done | congruence | done..].
Qed.

Lemma recovers_boot (w : EW) a n :
  file a = log_of cs0 → batch_buffer a = [] → recovers [] (boot w (Some a) n).
Proof.
  intros Hf Hb. split_and!; [done..|]. exists (unlocked a), [], []. split; [done|].
  split; try done; [by rewrite app_nil_r | set_solver | by left].
Qed.

(** Every key is up to date in the log once no entry is on its way to the batch. *)
Lemma recovers_replay tr st (w2 : EW) :
  recovers tr st → (∀ i pc, conn_pcs st i = Some pc → due_entry pc = []) → holds (world st) (outcome_of a0 tr) →
  Forall (λ c, timeless c ∧ aof_encodable c ∧ is_write c = true) cs0 → holds w2 ∅ →
  ∃ L n w3, log st = Some L ∧ replay_aof (Ok (file (flush (fields L)))) w2 = (Val (Ok n), w3) ∧
    ∀ t k, data <$> sees (emap (eng w3)) t k = data <$> sees (emap (eng (world st))) t k.
Proof.
  intros (_ & _ & _ & _ & L & fs & bs & HL & [Hf Hb Hw _ _ _ Hk]) Hdue Hh Hcs0 Hh2.
  set (ws := cs0 ++ fs ++ bs.*2).
  assert (Forall (λ c, timeless c ∧ aof_encodable c ∧ is_write c = true) ws) as Hws.
  { apply Forall_app. split; [done|]. eapply Forall_impl; [exact Hw|]. intros c [((_ & ? & _) & ? & _) ?]. done. }
  destruct (apply_all_effects ws w2 ∅ Hws Hh2) as (w3 & E & Hh3).
  exists L, (Z.of_nat (length ws)), w3. split_and!; [done| |].
  - replace (file (flush (fields L))) with (log_of ws) by
      (unfold ws; rewrite (proj1 (flush_drain _)), (proj1 (drain_batch_file _)); unfold written;
       by rewrite Hf, Hb, <- log_of_app, app_assoc).
    by apply replay_writes.
  - intros t k. rewrite !(holds_sees _ _ t k) by done. rewrite (proj2 (proj2 Hh3) k), (proj2 (proj2 Hh) k).
    unfold ws. rewrite foldl_app. destruct (Hk k) as [?|(i & pc & c & Hi & Hd & _)]; [done|].
    by rewrite (Hdue i pc) in Hd.
Qed.
End recovery.

(** C3: a restart finds what concurrent clients wrote.  Any number of RESP clients send commands on
    one key each, without lifetimes and counters, and no key is written by two of them; the server
    started with a log it had itself written, and with the data of that log.  Then in every
    schedule without a tick of the log rewriter, however the dispatches, the steps of the appends on the log's mutexes, the fsync
    ticker, the sweeper and the snapshotter interleave, once no entry is on its way to the batch
    the flushed log file replays, into an empty store, to the value the server has for every
    key. *)
Theorem concurrent_recovery {M : Type} {DM : DashMap bytes ValueEntry M} {CL : Clock} {IT : Itoa}
    {MC : Memchr} {C32 : Crc32} m max_conns threshold css cs0 evs (w w2 : World (DashMapEngine M)) a n st tr :
  (∀ i, Forall writer_ok (css i) ∧ in_memory (stream (css i))) →
  (∀ i j c d k, c ∈ css i → d ∈ css j → write_key c = Some k → write_key d = Some k → i = j) →
  Forall (λ c, timeless c ∧ aof_encodable c ∧ is_write c = true) cs0 →
  file a = log_of cs0 → batch_buffer a = [] → holds w (effects cs0 ∅) → holds w2 ∅ →
  run m max_conns threshold evs (boot w (Some a) n) = Some (st, tr) → EvRewriteTick ∉ evs →
  (∀ i, received i evs `prefix_of` stream (css i)) →
  (∀ i pc, conn_pcs st i = Some pc → due_entry pc = []) →
  ∃ L k w3, log st = Some L ∧ replay_aof (Ok (file (flush (fields L)))) w2 = (Val (Ok k), w3) ∧
    ∀ t k, data <$> sees (emap (eng w3)) t k = data <$> sees (emap (eng (world st))) t k.
Proof.
  intros Hcss Hdis Hcs0 Hf Hb Hh Hh2 Hrun Hne Hpre Hdue.
  assert (server_inv css (effects cs0 ∅) (λ _, []) [] (boot w (Some a) n)) as Hinv.
  { split_and!; [done | done | | done]. by intros i c ?%list_elem_of_lookup_2%elem_of_nil. }
  destruct (server_run m max_conns threshold css (effects cs0 ∅) (clients_ok css Hcss) evs (λ _, []) []
    (boot w (Some a) n) st tr) as (_ & Hh' & _); try done.
  eapply (recovers_replay css cs0 tr); try done.
  eapply (recovers_run m max_conns threshold css cs0 Hcss Hdis evs (λ _, []) []); try done.
  by apply recovers_boot.
Qed.

(** * Witness *)

Section witnesses.
#[local] Existing Instances gmap_dashmap ms_clock itoa_display memchr_scan crc32_sum.

(** Two clients of different keys whose appends interleave, logged in another order than they ran. *)
Definition wit_apart (i : nat) : list Command :=
  match i with
  | 0%nat => [CSet (str "a") (str "1") None; CDel (str "a"); CGet (str "b")]
  | 1%nat => [CSet (str "b") (str "2") None; CDel (str "c")]
  | _ => []
  end.

Definition wit_apart_run : list Event :=
  [EvAccept; EvAccept; EvOpen 0; EvOpen 1; EvRead 0 (ReadData (stream (wit_apart 0)));
   EvRead 1 (ReadData (stream (wit_apart 1))); EvFrame 0 0; EvFrame 1 1; EvLog 1; EvLog 1; EvLog 0;
   EvSweep; EvLog 0; EvFrame 1 0; EvFrame 0 1; EvLog 0; EvFsyncTick; EvLog 0; EvFsync; EvLog 1; EvLog 1;
   EvFrame 0 0; EvFrame 0 0; EvFrame 1 1; EvWrite 0 true; EvWrite 1 true].

Definition wit_log : list Command := [CSet (str "c") (str "3") None].
Definition wit_logged : AofWriter := aof_new (log_of wit_log) Always 0.

(** The store after replaying [wit_log]. *)
Definition wit_restored : World (DashMapEngine (gmap bytes ValueEntry)) := (apply_all wit_log wit_empty).2.

Lemma wit_log_ok : Forall (λ c, timeless c ∧ aof_encodable c ∧ is_write c = true) wit_log.
Proof. repeat constructor; unfold value_ok; simpl; lia. Qed.

Lemma wit_restored_holds : holds wit_restored (effects wit_log ∅).
Proof.
  destruct (apply_all_effects wit_log wit_empty ∅ wit_log_ok wit_empty_holds) as (w' & E & Hh).
  unfold wit_restored. by rewrite E.
Qed.

Lemma wit_apart_ok i : Forall writer_ok (wit_apart i) ∧ in_memory (stream (wit_apart i)).
Proof.
  destruct i as [|[|i]]; (split; [|by vm_compute]); repeat constructor; unfold value_ok; simpl; try lia.
Qed.

Lemma wit_apart_disjoint i j c d k :
  c ∈ wit_apart i → d ∈ wit_apart j → write_key c = Some k → write_key d = Some k → i = j.
Proof.
  destruct i as [|[|i]], j as [|[|j]]; try done; cbn; intros Hc Hd; set_unfold;
    repeat match goal with H : _ ∨ _ |- _ => destruct H | H : False |- _ => destruct H end; subst; try done;
    by intros [= <-].
Qed.

(** A run after which no entry is on its way, as a test. *)
Definition idle_check (o : option (State (M := gmap bytes ValueEntry) * list Entry)) : bool :=
  match o with Some (st, _) => forallb (λ c, bool_decide (due_entry (conn_pc c) = [])) (conns st) | None => false end.

Lemma idle_check_spec o :
  idle_check o = true →
  ∃ st tr, o = Some (st, tr) ∧ ∀ i pc, conn_pcs st i = Some pc → due_entry pc = [].
Proof.
  destruct o as [[st tr]|]; [|done]. cbn. intros H. exists st, tr. split; [done|].
  unfold conn_pcs. intros i pc (c & Hc & ->)%fmap_Some. apply list_elem_of_lookup_2 in Hc.
  rewrite forallb_forall in H. apply list_elem_of_In, H in Hc. by apply bool_decide_eq_true_1 in Hc.
Qed.

Lemma concurrent_recovery_witness :
  ∃ st tr L n w3, run true 8 0 wit_apart_run (boot wit_restored (Some wit_logged) 2) = Some (st, tr) ∧
    log st = Some L ∧ replay_aof (Ok (file (flush (fields L)))) wit_empty = (Val (Ok n), w3) ∧
    ∀ t k, data <$> sees (emap (eng w3)) t k = data <$> sees (emap (eng (world st))) t k.
Proof.
  destruct (idle_check_spec (run true 8 0 wit_apart_run (boot wit_restored (Some wit_logged) 2)))
    as (st & tr & E & Hd); [by vm_compute|].
  exists st, tr. destruct (concurrent_recovery true 8 0 wit_apart wit_log wit_apart_run wit_restored wit_empty
    wit_logged 2 st tr) as (L & n & w3 & H); [..|exists L, n, w3; split; [exact E | exact H]].
  - apply wit_apart_ok.
  - apply wit_apart_disjoint.
  - apply wit_log_ok.
  - reflexivity.
  - reflexivity.
  - apply wit_restored_holds.
  - apply wit_empty_holds.
  - exact E.
  - repeat (apply not_elem_of_cons; split; [discriminate|]). apply not_elem_of_nil.
  - intros [|[|i]]; apply (bool_decide_unpack _); by vm_compute.
  - exact Hd.
Defined.
End witnesses.
