(* ===== verification/ServerTests.v ===== *)
(** The integration tests of [src/server/tcp.rs], run on the interleaved server.

    A test starts a server, connects clients and compares what they read.  Its network delivers
    each write of a client in one piece, and after a write the connection's task runs until it
    waits for its client again.  What a client has read is a position in what was sent to it; a
    read of a line that is not there yet waits for ever on an open connection, and gives what is
    left (perhaps nothing) on a closed one. *)

From S2P Require Import Prelude RustStd Crates Domain Parser RespFacts ParserBorrowed Metrics World.
From S2P Require Import Engine Response Dispatcher Aof AofLocks Config Snapshot Session Server.
From S2P Require Import Concurrent ParserTests EngineTests StorageTests.

#[local] Existing Instances gmap_dashmap test_clock itoa_display memchr_scan crc32_ieee.

(** * The network of a test *)

Abbreviation TestServer := (State (M := gmap bytes ValueEntry)).

(** The server and the position of each client. *)
Record Net : Type := mkNet { config : Config; server : TestServer; cursors : list nat }.
Abbreviation N A := (ST Net A).

(** One step of the server; a step that cannot be taken waits. *)
Definition event (ev : Event) : N () := λ n,
  let c := config n in
  match step (metrics_enabled c) (max_connections c) 0 ev (server n) with
  | Some (st, _) => (Val tt, mkNet c st (cursors n))
  | None => (Stuck, n)
  end.

(** What a connection's task does next of its own accord. *)
Definition next_event (i : nat) (ph : Phase) : option Event :=
  match ph with
  | Opening => Some (EvOpen i)
  | Framing _ _ _ => Some (EvFrame i 0)
  | Logging _ _ _ _ => Some (EvLog i)
  | Writing _ _ => Some (EvWrite i true)
  | Closing => Some (EvClose i)
  | Reading _ _ | Closed | Refused | Lost => None
  end.

Definition conn (i : nat) : N Conn := λ n,
  (match conns (server n) !! i with Some c => Val c | None => Panic end, n).

(** Let connection [i] run until it waits for its client, for at most [fuel] steps. *)
Fixpoint settle (fuel : nat) (i : nat) : N () :=
  match fuel with
  | O => λ n, (Stuck, n)
  | S fuel =>
      c ← conn i;
      match next_event i (phase c) with
      | Some ev => event ev;; settle fuel i
      | None => mret tt
      end
  end.
Definition patience : nat := 200.

(** * Clients *)

(** [TestClient::connect] and [RespTestClient::connect]: the number of the connection. *)
Definition new_client : N nat := λ n,
  (Val (length (cursors n)), mkNet (config n) (server n) (cursors n ++ [0%nat])).
Definition connect : N nat :=
  event EvAccept;; i ← new_client; settle patience i;; mret i.

(** [writer.write_all] *)
Definition send (i : nat) (d : bytes) : N () := event (EvRead i (ReadData d));; settle patience i.

Definition is_closed (ph : Phase) : bool :=
  match ph with Closing | Closed | Refused | Lost => true | _ => false end.

(** [reader.read_line] *)
Definition next_line (i : nat) (c : Conn) : N bytes := λ n,
  let pos := default 0%nat (cursors n !! i) in
  let unread := drop pos (sent c) in
  match position (Byte.eqb LF) unread with
  | Some k => (Val (take (S k) unread),
               mkNet (config n) (server n) (<[i := (pos + S k)%nat]> (cursors n)))
  | None => (if is_closed (phase c) then Val unread else Stuck, n)
  end.
Definition read_line (i : nat) : N bytes := c ← conn i; next_line i c.

(** [TestClient::command] *)
Definition command (i : nat) (cmd : String.string) : N bytes := send i (lit cmd ++ crlf);; read_line i.

(** [RespTestClient::read_resp_response]: a bulk string has a second line. *)
Definition starts_with (p : String.string) (l : bytes) : bool := bool_decide (take (length (lit p)) l = lit p).
Fixpoint trim_start_matches (b : byte) (l : bytes) : bytes :=
  match l with c :: l' => if Byte.eqb b c then trim_start_matches b l' else l | [] => [] end.
Fixpoint trim_end_crlf (l : bytes) : bytes :=
  match l with
  | [] => []
  | b :: l => let t := trim_end_crlf l in if bool_decide (b :: t = crlf) then [] else b :: t
  end.
Definition read_resp_response (i : nat) : N bytes :=
  first_line ← read_line i;
  if starts_with "$" first_line then
    let len_str := trim_start_matches Byte.x24 (trim_end_crlf first_line) in
    if eqb len_str (lit "-1") then mret first_line
    else
      unwrap_some (parse_u64 len_str);;
      data_line ← read_line i; mret (first_line ++ data_line)
  else mret first_line.

(** [RespTestClient::resp_command] *)
Definition resp_command (i : nat) (args : list String.string) : N bytes :=
  send i (resp_frame (lit <$> args));; read_resp_response i.

(** [assert_eq!(client.command(cmd).await, resp)] and its RESP counterpart. *)
Definition says (i : nat) (cmd resp : String.string) : N () :=
  r ← command i cmd; assert (eqb r (lit resp)).
Definition resp_says (i : nat) (args : list String.string) (resp : String.string) : N () :=
  r ← resp_command i args; assert (eqb r (lit resp)).
Definition reads (i : nat) (line : String.string) : N () :=
  l ← read_line i; assert (eqb l (lit line)).

(** * Servers *)

(** [test_config] *)
Definition test_config (port : Z) : Config :=
  mkConfig (str "127.0.0.1") port 30 1 0 30 0 snapshot_default aof_default false.
(** A test against [run_server] or [run_server_with_listener] on a new engine. *)
Definition world_new : EngineTests.EW := mkWorld engine_new 0 (metrics_init 0) local_default.
Definition on_server (c : Config) (a : option AofWriter) (t : N ()) : bool :=
  passes t (mkNet c (boot world_new a 1) []).
(** [start_server] *)
Definition with_server (t : nat → N ()) : bool := on_server (test_config 6380) None (i ← connect; t i).

(** * The tests *)

Definition test_ping : bool := with_server (λ i, says i "PING" "+PONG\r\n").
Definition test_set_get_del : bool := with_server (λ i,
  says i "SET mykey hello" "+OK\r\n";; says i "GET mykey" "+hello\r\n";;
  says i "DEL mykey" ":1\r\n";; says i "GET mykey" "$-1\r\n";; says i "DEL mykey" ":0\r\n").
Definition test_incr : bool := with_server (λ i,
  says i "INCR counter" ":1\r\n";; says i "INCR counter" ":2\r\n";; says i "INCR counter" ":3\r\n").
Definition test_unknown_command : bool := with_server (λ i,
  r ← command i "FOOBAR"; assert (starts_with "-ERR unknown command" r)).
Definition test_syntax_error : bool := with_server (λ i,
  r ← command i "GET"; assert (starts_with "-ERR syntax" r)).
Definition test_multiple_clients : bool := with_server (λ c1,
  c2 ← connect;
  command c1 "SET shared value";; says c2 "GET shared" "+value\r\n";;
  says c1 "PING" "+PONG\r\n";; says c2 "PING" "+PONG\r\n").
Definition test_incr_not_integer : bool := with_server (λ i,
  command i "SET text hello";;
  r ← command i "INCR text"; assert (starts_with "-ERR type" r)).
(** The timeout fires while the client sleeps; its next write goes to a closed connection. *)
Definition test_read_timeout_disconnects_idle_client : bool :=
  on_server (mkConfig (str "127.0.0.1") 6380 1 1 0 30 0 snapshot_default aof_default false) None
    (i ← connect; says i "PING" "+PONG\r\n";;
     event (EvRead i ReadTimedOut);; settle patience i;;
     line ← read_line i; assert (eqb line [])).

Definition test_resp_ping : bool := with_server (λ i, resp_says i ["PING"] "+PONG\r\n").
Definition test_resp_set_get_del : bool := with_server (λ i,
  resp_says i ["SET"; "mykey"; "hello"] "+OK\r\n";;
  resp_says i ["GET"; "mykey"] "$5\r\nhello\r\n";;
  resp_says i ["DEL"; "mykey"] ":1\r\n";; resp_says i ["GET"; "mykey"] "$-1\r\n";;
  resp_says i ["DEL"; "mykey"] ":0\r\n").
Definition test_resp_incr : bool := with_server (λ i,
  resp_says i ["INCR"; "counter"] ":1\r\n";; resp_says i ["INCR"; "counter"] ":2\r\n";;
  resp_says i ["INCR"; "counter"] ":3\r\n").
Definition test_resp_case_insensitive : bool := with_server (λ i,
  resp_says i ["ping"] "+PONG\r\n";; resp_says i ["set"; "k"; "v"] "+OK\r\n";;
  resp_says i ["get"; "k"] "$1\r\nv\r\n").
Definition test_resp_unknown_command : bool := with_server (λ i,
  r ← resp_command i ["FOOBAR"]; assert (starts_with "-ERR unknown command" r)).
Definition test_resp_wrong_arg_count : bool := with_server (λ i,
  r ← resp_command i ["GET"]; assert (starts_with "-ERR syntax" r)).

(** [for _ in 0..n { read_line == line }] *)
Fixpoint reads_times (n : nat) (i : nat) (line : String.string) : N () :=
  match n with O => mret tt | S n => reads i line;; reads_times n i line end.
Definition test_resp_pipeline : bool := with_server (λ i,
  let pair_frame k := let d := display_u (Z.of_nat k) in
    lit "*3\r\n$3\r\nSET\r\n$2\r\nk" ++ d ++ lit "\r\n$2\r\nv" ++ d ++ crlf in
  send i (concat (pair_frame <$> seq 0 5) ++ lit "*1\r\n$4\r\nPING\r\n");;
  reads_times 5 i "+OK\r\n";; reads i "+PONG\r\n";;
  resp_says i ["GET"; "k0"] "$2\r\nv0\r\n";; resp_says i ["GET"; "k4"] "$2\r\nv4\r\n").
Definition test_max_connections_limit : bool :=
  on_server (mkConfig (str "127.0.0.1") 6380 30 1 1 30 0 snapshot_default aof_default false) None
    (c1 ← connect; says c1 "PING" "+PONG\r\n";;
     c2 ← connect;
     line ← read_line c2;
     assert (starts_with "-ERR max connections" line || eqb line [])).
Definition test_exists_ttl_expire : bool := with_server (λ i,
  says i "SET mykey hello" "+OK\r\n";; says i "EXISTS mykey" ":1\r\n";;
  says i "EXISTS nokey" ":0\r\n";; says i "TTL mykey" ":-1\r\n";;
  says i "EXPIRE mykey 60" ":1\r\n";;
  ttl_resp ← command i "TTL mykey";
  assert (starts_with ":" ttl_resp && negb (starts_with ":-" ttl_resp));;
  says i "EXPIRE nokey 60" ":0\r\n").
Definition test_flushdb : bool := with_server (λ i,
  says i "SET a 1" "+OK\r\n";; says i "SET b 2" "+OK\r\n";; says i "DBSIZE" ":2\r\n";;
  says i "FLUSHDB" "+OK\r\n";; says i "DBSIZE" ":0\r\n").
Definition test_keys_command : bool := with_server (λ i,
  says i "SET alpha 1" "+OK\r\n";; says i "SET beta 2" "+OK\r\n";;
  r ← command i "KEYS"; assert (starts_with "*2\r\n" r)).

(** [tx.send(true)] and [handle.await]: the drain ends at its timeout, the client being still
    connected, and the log is flushed. *)
Definition flush_log : N () := λ n,
  let st := server n in
  (Val tt, match log st with
           | Some L => mkNet (config n) (with_log (unlocked (flush (fields L))) st) (cursors n)
           | None => n
           end).
Definition shut_down : N () := event EvShutdown;; flush_log.
(** The engine of the test, outside the server. *)
Definition on_world {A} (t : T A) : N A := λ n,
  let '(o, w) := t (world (server n)) in (o, mkNet (config n) (with_world w (server n)) (cursors n)).
Definition log_content : N bytes := λ n,
  (match log (server n) with Some L => Val (file (fields L)) | None => Panic end, n).

Definition test_e2e_snapshot_persistence : bool := with_server (λ i,
  says i "SET persist_key persist_val" "+OK\r\n";; says i "SET counter 42" "+OK\r\n";;
  says i "INCR counter" ":43\r\n";; says i "GET persist_key" "+persist_val\r\n";;
  shut_down;;
  on_world ('(f, count) ← dumped; assert (count =? 2);;
            new_engine;;
            n ← loaded (Ok f); assert (n =? 2);;
            holds_data "persist_key" (lit "persist_val");; holds_data "counter" (lit "43"))).
Definition test_e2e_aof_persistence : bool :=
  on_server (test_config 6380) (Some (aof_new [] Always 0))
    (i ← connect;
     says i "SET aof_key aof_val" "+OK\r\n";; says i "SET num 10" "+OK\r\n";;
     says i "INCR num" ":11\r\n";; says i "DEL aof_key" ":1\r\n";;
     shut_down;;
     f ← log_content;
     on_world (new_engine;;
               n ← replayed (Ok f); assert (n =? 4);;
               is_gone "aof_key";; holds_data "num" (lit "11"))).

Definition test_mget_mset_inline : bool := with_server (λ i,
  says i "MSET a 1 b 2 c 3" "+OK\r\n";;
  send i (lit "MGET a missing c\r\n");;
  reads i "*3\r\n";; reads i "$1\r\n";; reads i "1\r\n";; reads i "$-1\r\n";;
  reads i "$1\r\n";; reads i "3\r\n").
Definition test_resp_mget_mset : bool := with_server (λ i,
  resp_says i ["MSET"; "k1"; "v1"; "k2"; "v2"] "+OK\r\n";;
  send i (lit "*4\r\n$4\r\nMGET\r\n$2\r\nk1\r\n$5\r\nnokey\r\n$2\r\nk2\r\n");;
  reads i "*3\r\n";; reads i "$2\r\n";; reads i "v1\r\n";; reads i "$-1\r\n";;
  reads i "$2\r\n";; reads i "v2\r\n").
Definition test_resp_mset_overwrite : bool := with_server (λ i,
  resp_says i ["SET"; "k"; "old"] "+OK\r\n";; resp_says i ["MSET"; "k"; "new"] "+OK\r\n";;
  resp_says i ["GET"; "k"] "$3\r\nnew\r\n").

Definition server_tests : list bool :=
  [test_ping; test_set_get_del; test_incr; test_unknown_command; test_syntax_error;
   test_multiple_clients; test_incr_not_integer; test_read_timeout_disconnects_idle_client;
   test_resp_ping; test_resp_set_get_del; test_resp_incr; test_resp_case_insensitive;
   test_resp_unknown_command; test_resp_wrong_arg_count; test_resp_pipeline;
   test_max_connections_limit; test_exists_ttl_expire; test_flushdb; test_keys_command;
   test_e2e_snapshot_persistence; test_e2e_aof_persistence; test_mget_mset_inline;
   test_resp_mget_mset; test_resp_mset_overwrite].

(** * The whole suite *)

(** [test_num_cpus], whatever the platform says of its parallelism (a non-zero count or none). *)
Definition test_num_cpus (parallelism : option positive) : bool :=
  1 <=? num_cpus (Z.pos <$> parallelism).

Definition repository_tests : list bool :=
  parser_tests ++ response_tests ++ engine_tests ++ dispatcher_tests ++ metrics_tests ++
  aof_tests ++ snapshot_tests ++ server_tests.

(** A validation of the model: of the repository's 169 tests all but [test_pin_thread], which only
    calls the operating system, hold of the model, each with its inputs and its assertions: 167 by
    evaluation, and the processor count is at least one whatever the platform reports. *)
Lemma repository_tests_pass :
  length repository_tests = 167%nat ∧ Forall (λ passed, passed = true) repository_tests ∧
  ∀ parallelism, test_num_cpus parallelism = true.
Proof.
  split_and!; [by vm_compute | | by intros [[]|]].
  apply Forall_forall. intros b Hb. apply (proj1 (forallb_forall id repository_tests));
    [by vm_compute | by apply list_elem_of_In].
Qed.
