(* ===== verification/BenchNet.v ===== *)
(** What the load generators under [src/bin/] share: a connection seen from the client, tasks that add
    to a shared counter, and the floating-point arithmetic of the figures they report.

    A client's connection is a script: the bytes that arrive, in the pieces of the network, and
    whether each write works.  A task that waits for bytes that never come is [Stuck]; [unwrap] on an
    error panics.  Numbers are IEEE doubles as in the Standard Library's SpecFloat. *)

From Stdlib Require Import SpecFloat.
From stdpp Require Import sorting.
From S2P Require Import Prelude RustStd World.

(** * A connection *)

Inductive Arrival : Type := Data (d : bytes) | Eof | ReadErr.

(** What is to arrive, what the [BufReader] holds, how the coming writes and flushes end ([true]:
    they work; so do those after the list), what was sent, what was added to the shared counter and
    how often the clock was read. *)
Record Sock : Type := mkSock {
  arrivals : list Arrival;
  unread : bytes;
  write_results : list bool;
  sent_bytes : bytes;
  adds : list Z;
  clock_reads : nat
}.

Abbreviation Task := (ST Sock).

Definition set_input (l : list Arrival) (u : bytes) (s : Sock) : Sock :=
  mkSock l u (write_results s) (sent_bytes s) (adds s) (clock_reads s).

(** [write_all(..).await], and whether it worked *)
Definition sock_write_all (buf : bytes) : Task bool := λ s,
  let ok := default true (head (write_results s)) in
  (Val ok, mkSock (arrivals s) (unread s) (tail (write_results s))
             (if ok then sent_bytes s ++ buf else sent_bytes s) (adds s) (clock_reads s)).

Definition sock_flush : Task bool := λ s,
  (Val (default true (head (write_results s))),
   mkSock (arrivals s) (unread s) (tail (write_results s)) (sent_bytes s) (adds s) (clock_reads s)).

(** [.unwrap()] on the result of one of them *)
Definition unwrapped (m : Task bool) : Task () := ok ← m; if ok : bool then mret tt else λ s, (Panic, s).

(** [total_ops.fetch_add(n, Relaxed)] *)
Definition fetch_add (n : Z) : Task () := λ s,
  (Val tt, mkSock (arrivals s) (unread s) (write_results s) (sent_bytes s) (adds s ++ [n]) (clock_reads s)).

(** [Instant::now()] *)
Definition sock_now `{Clock} : Task Instant := λ s,
  (Val (clk (clock_reads s)),
   mkSock (arrivals s) (unread s) (write_results s) (sent_bytes s) (adds s) (S (clock_reads s))).

(** ** Reading *)

Definition after_lf (l : bytes) : option nat := S <$> position (Byte.eqb LF) l.

(** [BufReader::read_line] ([None]: an I/O error, or a line that is not UTF-8): at the end of the
    stream it gives what there is, also nothing, and is no error. *)
Fixpoint read_line_from (l : list Arrival) (u : bytes) : outcome (option bytes * list Arrival * bytes) :=
  match after_lf u with
  | Some n => Val (if utf8_valid (take n u) then Some (take n u) else None, l, drop n u)
  | None =>
      match l with
      | [] => Stuck
      | Data d :: l => read_line_from l (u ++ d)
      | Eof :: _ => Val (if utf8_valid u then Some u else None, l, [])
      | ReadErr :: l => Val (None, l, [])
      end
  end.

Definition read_line : Task (option bytes) := λ s,
  match read_line_from (arrivals s) (unread s) with
  | Val (r, l, u) => (Val r, set_input l u s)
  | Panic => (Panic, s)
  | Stuck => (Stuck, s)
  end.

(** [read_exact] of [n] bytes through the [BufReader], and whether it worked *)
Fixpoint read_exact_from (n : nat) (l : list Arrival) (u : bytes) : outcome (bool * list Arrival * bytes) :=
  if (n <=? length u)%nat then Val (true, l, drop n u)
  else
    match l with
    | [] => Stuck
    | Data d :: l => read_exact_from n l (u ++ d)
    | Eof :: _ => Val (false, l, [])
    | ReadErr :: l => Val (false, l, [])
    end.

Definition read_exact (n : nat) : Task bool := λ s,
  match read_exact_from n (arrivals s) (unread s) with
  | Val (r, l, u) => (Val r, set_input l u s)
  | Panic => (Panic, s)
  | Stuck => (Stuck, s)
  end.

(** [stream.read(&mut buf)] into [n] bytes, without a [BufReader] ([None]: an error) *)
Definition sock_read (n : nat) : Task (option bytes) := λ s,
  match arrivals s with
  | [] => (Stuck, s)
  | Data d :: l =>
      (Val (Some (take n d)),
       set_input (if (length d <=? n)%nat then l else Data (drop n d) :: l) (unread s) s)
  | Eof :: _ => (Val (Some []), s)
  | ReadErr :: l => (Val None, set_input l (unread s) s)
  end.

(** * Tasks *)

(** A spawned client: the connection, or [None] when connecting fails, which panics. *)
Definition run_task (client : Task ()) (o : option Sock) : outcome () * list Z :=
  match o with
  | Some s => let '(r, s) := client s in (r, adds s)
  | None => (Panic, [])
  end.

(** [for handle in handles { let _ = handle.await; }], then the counter: a client that
    panicked has no more to add, one that waits holds up the program. *)
Definition waits (r : outcome () * list Z) : bool := match r.1 with Stuck => true | _ => false end.
Definition counter (ns : list Z) : Z := foldl (λ t n, u64 (t + n)) 0 ns.
Definition joined (rs : list (outcome () * list Z)) : outcome Z :=
  if existsb waits rs then Stuck else Val (counter (rs ≫= snd)).

(** [n] clients, each with its number. *)
Definition spawned (n : nat) (client : nat → Task ()) (socks : nat → option Sock) :
    list (outcome () * list Z) :=
  (λ i, run_task (client i) (socks i)) <$> seq 0 n.

(** A counter that is passed on every [unit] operations. *)
Definition count_step (unit local_count : Z) : Task () :=
  if local_count mod unit =? 0 then fetch_add unit else mret tt.

(** * Doubles *)

Definition f64 : Type := spec_float.
Definition f64_of (z : Z) : f64 := binary_normalize 53 1024 z 0 false.
Definition f64_div : f64 → f64 → f64 := SFdiv 53 1024.
Definition f64_mul : f64 → f64 → f64 := SFmul 53 1024.
Definition f64_add : f64 → f64 → f64 := SFadd 53 1024.

(** [x.floor() as usize]: saturating, [0] for NaN *)
Definition floor_usize (x : f64) : Z :=
  match x with
  | S754_finite false m e =>
      Z.min (2 ^ 64 - 1) (if 0 <=? e then Z.shiftl (Zpos m) e else Z.shiftr (Zpos m) (- e))
  | S754_infinity false => 2 ^ 64 - 1
  | _ => 0
  end.

(** [Duration::as_secs_f64] *)
Definition as_secs_f64 (d : Duration) : f64 :=
  f64_add (f64_of (d / 10 ^ 9)) (f64_div (f64_of (d mod 10 ^ 9)) (f64_of (10 ^ 9))).

(** [ops as f64 / elapsed.as_secs_f64()] *)
Definition per_second (ops : Z) (elapsed : Duration) : f64 := f64_div (f64_of ops) (as_secs_f64 elapsed).
