(* ===== verification/BenchClients.v ===== *)
(** [src/bin/bench.rs], [src/bin/saturation.rs] and [src/bin/maxthroughput.rs]: clients that wait for
    the reply to every command.

    Each program starts a server, runs the scenarios of its [main] against it and prints a line
    for each; the printing is left out.  A client's loop runs until it reads [running] as false: it
    is given how often it reads true. *)

From stdpp Require Import sorting.
From S2P Require Import Prelude RustStd World Config BenchNet.

Definition lift_t {A} (o : outcome A) : Task A := λ s, (o, s).

(** * [src/bin/bench.rs] *)

Section bench.
Context `{Clock}.

(** [BenchClient::command] *)
Definition bench_command (cmd : bytes) : Task Duration :=
  start ← sock_now;
  unwrapped (sock_write_all (cmd ++ crlf));;
  unwrapped sock_flush;;
  line ← read_line;
  match line with
  | Some _ => t ← sock_now; mret (instant_sub t start)
  | None => lift_t Panic
  end.

Definition percentile (latencies : list Duration) (p : f64) : outcome Duration :=
  let latencies := merge_sort Z.le latencies in
  let idx := floor_usize (f64_mul (f64_div p (f64_of 100)) (f64_of (Z.of_nat (length latencies)))) in
  let idx := Z.min idx (usize (Z.of_nat (length latencies) - 1)) in
  match latencies !! Z.to_nat idx with Some d => Val d | None => Panic end.

Definition bench_cmd (operation : bytes) (i : nat) : outcome bytes :=
  let i := display_u (Z.of_nat i) in
  if bool_decide (operation = str "SET") then Val (str "SET benchkey:" ++ i ++ str " value:" ++ i)
  else if bool_decide (operation = str "GET") then Val (str "GET benchkey:" ++ i)
  else Panic.

Fixpoint bench_warmup (n : nat) : Task () :=
  match n with O => mret tt | S n => bench_command (str "PING");; bench_warmup n end.

Fixpoint bench_loop (operation : bytes) (range : list nat) : Task (list Duration) :=
  match range with
  | [] => mret []
  | i :: range =>
      cmd ← lift_t (bench_cmd operation i);
      latency ← bench_command cmd;
      latencies ← bench_loop operation range;
      mret (latency :: latencies)
  end.

Record BenchReport : Type := mkBenchReport {
  throughput : f64; p50 : Duration; p95 : Duration; p99 : Duration
}.

Definition run_bench (n : nat) (operation : bytes) : Task BenchReport :=
  bench_warmup 10;;
  start ← sock_now;
  latencies ← bench_loop operation (seq 0 n);
  t ← sock_now;
  p50 ← lift_t (percentile latencies (f64_of 50));
  p95 ← lift_t (percentile latencies (f64_of 95));
  p99 ← lift_t (percentile latencies (f64_of 99));
  mret (mkBenchReport (per_second (Z.of_nat n) (instant_sub t start)) p50 p95 p99).
End bench.

(** The scenarios of [main] and its server. *)
Definition bench_plan : list (nat * bytes) :=
  ((λ n, (n, str "SET")) <$> [100; 1000; 10000]%nat) ++ ((λ n, (n, str "GET")) <$> [100; 1000; 10000]%nat).
Definition bench_config (port : Z) : Config :=
  mkConfig (str "127.0.0.1") port (read_timeout_secs config_default) (sweep_interval_secs config_default)
    (max_connections config_default) (write_timeout_secs config_default) (cfg_max_keys config_default)
    (cfg_snapshot config_default) (cfg_aof config_default) (metrics_enabled config_default).

(** * Loops that wait for every reply *)

(** The client loop of [saturation_bench] and of both clients of [mixed_workload]: [cmd] gives the next
    command from the key counter, and [unit] is how many operations are passed on at once. *)
Fixpoint request_loop (cmd : Z → outcome (bytes * Z)) (unit : Z) (turns : nat) (count key : Z) : Task () :=
  match turns with
  | O => fetch_add (count mod unit)
  | S turns =>
      r ← lift_t (cmd key);
      let '(text, key) := r in
      ok ← sock_write_all text;
      if negb ok then fetch_add (count mod unit)
      else
        ok ← sock_flush;
        if negb ok then fetch_add (count mod unit)
        else
          line ← read_line;
          match line with
          | None => fetch_add (count mod unit)
          | Some _ =>
              let count := u64 (count + 1) in
              count_step unit count;;
              request_loop cmd unit turns count key
          end
  end.

(** ** [src/bin/saturation.rs] *)

Definition saturation_cmd (op : bytes) (key_counter : Z) : outcome (bytes * Z) :=
  if bool_decide (op = str "SET") then
    let k := display_u key_counter in
    Val (str "SET sat:" ++ k ++ str " val:" ++ k ++ crlf, u64 (key_counter + 1))
  else if bool_decide (op = str "GET") then
    let k := display_u (key_counter mod 1000) in
    Val (str "GET sat:" ++ k ++ crlf, u64 (key_counter + 1))
  else Panic.

Definition saturation_client (op : bytes) (turns : nat → nat) (client_id : nat) : Task () :=
  request_loop (saturation_cmd op) 1000 (turns client_id) 0 (u64 (Z.of_nat client_id * 1000000)).

(** The operations and the rate that are printed. *)
Definition saturation_bench (clients : nat) (op : bytes) (turns : nat → nat) (socks : nat → option Sock)
    (elapsed : Duration) : outcome (Z * f64) :=
  ops ← joined (spawned clients (saturation_client op turns) socks);
  mret (ops, per_second ops elapsed).

Fixpoint write_each (cmds : list bytes) : Task () :=
  match cmds with [] => mret tt | cmd :: cmds => unwrapped (sock_write_all cmd);; write_each cmds end.
Fixpoint read_ignoring (n : nat) : Task () :=
  match n with O => mret tt | S n => read_line;; read_ignoring n end.

Definition sat_set (k : nat) : bytes :=
  let k := display_u (Z.of_nat k) in str "SET sat:" ++ k ++ str " val:" ++ k ++ crlf.
Definition presaturate (n_keys : nat) : Task () :=
  write_each (sat_set <$> seq 0 n_keys);; unwrapped sock_flush;; read_ignoring n_keys.

Definition saturation_config (port : Z) : Config :=
  mkConfig (str "127.0.0.1") port 300 (sweep_interval_secs config_default) (max_connections config_default)
    (write_timeout_secs config_default) (cfg_max_keys config_default) (cfg_snapshot config_default)
    (cfg_aof config_default) (metrics_enabled config_default).

Definition saturation_clients : list nat := [1; 2; 4; 8; 16; 32; 64]%nat.

(** ** [src/bin/maxthroughput.rs] *)

(** [chunks(n)] *)
Fixpoint chunks_fuel {A} (fuel n : nat) (l : list A) : list (list A) :=
  match fuel, l with
  | S fuel, _ :: _ => take n l :: chunks_fuel fuel n (drop n l)
  | _, _ => []
  end.
Definition chunks {A} (n : nat) (l : list A) : list (list A) := chunks_fuel (length l) n l.

(** The body of [populate] and of [pipeline.rs]'s [prepopulate], for one chunk. *)
Definition populate_chunk (cmds : list bytes) : Task () :=
  write_each cmds;; unwrapped sock_flush;; read_ignoring (length cmds).
Fixpoint populate_chunks (l : list (list bytes)) : Task () :=
  match l with [] => mret tt | cmds :: l => populate_chunk cmds;; populate_chunks l end.

Definition p_set (k : nat) : bytes :=
  let k := display_u (Z.of_nat k) in str "SET p:" ++ k ++ str " payload:" ++ k ++ crlf.
Definition populate (n_keys : nat) : Task () := populate_chunks (chunks 500 (p_set <$> seq 0 n_keys)).

Definition writer_cmd (key : Z) : outcome (bytes * Z) :=
  let k := display_u key in Val (str "SET w:" ++ k ++ str " v:" ++ k ++ crlf, u64 (key + 1)).
(** [key % n_keys] panics when there are none. *)
Definition reader_cmd (n_keys : Z) (key : Z) : outcome (bytes * Z) :=
  if n_keys =? 0 then Panic
  else Val (str "GET p:" ++ display_u (key mod n_keys) ++ crlf, u64 (key + 1)).

Definition mixed_writer (turns : nat → nat) (wid : nat) : Task () :=
  request_loop writer_cmd 500 (turns wid) 0 (u64 (Z.of_nat wid * 10000000)).
Definition mixed_reader (n_keys : Z) (turns : nat → nat) (rid : nat) : Task () :=
  request_loop (reader_cmd n_keys) 500 (turns rid) 0 0.

Definition mixed_workload (writers readers : nat) (n_keys : Z) (wturns rturns : nat → nat)
    (wsocks rsocks : nat → option Sock) : outcome (Z * Z) :=
  writes ← joined (spawned writers (mixed_writer wturns) wsocks);
  reads ← joined (spawned readers (mixed_reader n_keys rturns) rsocks);
  mret (writes, reads).

(** The scenarios, their labels, and the best of them so far. *)
Definition mixed_configs : list (nat * nat) :=
  [(128, 0); (0, 128); (64, 64); (96, 32); (32, 96); (80, 80); (100, 100); (64, 128); (128, 64)]%nat.

Definition mixed_label (w r : nat) : bytes :=
  let dw := display_u (Z.of_nat w) in
  let dr := display_u (Z.of_nat r) in
  if (r =? 0)%nat then str "WRITE ONLY (" ++ dw ++ str "w)"
  else if (w =? 0)%nat then str "READ ONLY (" ++ dr ++ str "r)"
  else str "MIXED " ++ dw ++ str "w / " ++ dr ++ str "r".

Definition peak_step (peak : Z * bytes) (row : bytes * (Z * Z)) : Z * bytes :=
  let total := u64 (row.2.1 + row.2.2) in
  if peak.1 <? total then (total, row.1) else peak.

(** The line [main] ends with, from the counts of the scenarios. *)
Definition peak_line (counts : list (Z * Z)) : bytes * f64 :=
  let rows := zip ((λ c, mixed_label c.1 c.2) <$> mixed_configs) counts in
  let peak := foldl peak_step (0, []) rows in
  (peak.2, per_second peak.1 (from_secs 5)).
