(* ===== verification/BenchPipeline.v ===== *)
(** [src/bin/pipeline.rs] and [src/bin/pipeline_quick.rs]: clients that send many commands before they
    read the replies.  As in file BenchClients, [turns] is how often a client reads [running] as true. *)

From S2P Require Import Prelude RustStd Crates World Config BenchNet BenchClients.

(** * [src/bin/pipeline.rs] *)

(** The write phase: [None] for the early return. *)
Fixpoint write_phase (cmd : Z → outcome (bytes * Z)) (n : nat) (key : Z) : Task (option Z) :=
  match n with
  | O => mret (Some key)
  | S n =>
      r ← lift_t (cmd key);
      let '(text, key) := r in
      ok ← sock_write_all text;
      if negb ok then mret None else write_phase cmd n key
  end.

(** The read phase, and whether it came to its end. *)
Fixpoint read_phase (n : nat) : Task bool :=
  match n with
  | O => mret true
  | S n => line ← read_line; match line with None => mret false | Some _ => read_phase n end
  end.

(** The client loop of [pipeline_bench] and of both clients of [pipeline_mixed]. *)
Fixpoint pipeline_loop (cmd : Z → outcome (bytes * Z)) (pipeline_size turns : nat) (count key : Z) : Task () :=
  match turns with
  | O => fetch_add (count mod 10000)
  | S turns =>
      k ← write_phase cmd pipeline_size key;
      match k with
      | None => mret tt
      | Some key =>
          ok ← sock_flush;
          if negb ok then mret tt
          else
            ok ← read_phase pipeline_size;
            if negb ok then mret tt
            else
              let count := u64 (count + Z.of_nat pipeline_size) in
              count_step 10000 count;;
              pipeline_loop cmd pipeline_size turns count key
      end
  end.

Definition pipe_cmd (op : bytes) (key_counter : Z) : outcome (bytes * Z) :=
  if bool_decide (op = str "SET") then
    let k := display_u key_counter in
    Val (str "SET pipe:" ++ k ++ str " val:" ++ k ++ crlf, u64 (key_counter + 1))
  else if bool_decide (op = str "GET") then
    let k := display_u (key_counter mod 1000) in
    Val (str "GET pipe:" ++ k ++ crlf, u64 (key_counter + 1))
  else Panic.

Definition pipeline_client (op : bytes) (pipeline_size : nat) (turns : nat → nat) (client_id : nat) : Task () :=
  pipeline_loop (pipe_cmd op) pipeline_size (turns client_id) 0 (u64 (Z.of_nat client_id * 1000000)).

Definition pipeline_bench (clients pipeline_size : nat) (op : bytes) (turns : nat → nat)
    (socks : nat → option Sock) (elapsed : Duration) : outcome (Z * f64) :=
  ops ← joined (spawned clients (pipeline_client op pipeline_size turns) socks);
  mret (ops, per_second ops elapsed).

Definition pw_cmd (key : Z) : outcome (bytes * Z) :=
  let k := display_u key in Val (str "SET pw:" ++ k ++ str " v:" ++ k ++ crlf, u64 (key + 1)).
Definition pp_cmd (n_keys : Z) (key : Z) : outcome (bytes * Z) :=
  if n_keys =? 0 then Panic
  else Val (str "GET pp:" ++ display_u (key mod n_keys) ++ crlf, u64 (key + 1)).

Definition pipeline_writer (pipeline_size : nat) (turns : nat → nat) (wid : nat) : Task () :=
  pipeline_loop pw_cmd pipeline_size (turns wid) 0 (u64 (Z.of_nat wid * 10000000)).
Definition pipeline_reader (pipeline_size : nat) (n_keys : Z) (turns : nat → nat) (rid : nat) : Task () :=
  pipeline_loop (pp_cmd n_keys) pipeline_size (turns rid) 0 0.

Definition pipeline_mixed (writers readers pipeline_size : nat) (n_keys : Z) (wturns rturns : nat → nat)
    (wsocks rsocks : nat → option Sock) (elapsed : Duration) : outcome (f64 * f64 * f64) :=
  w ← joined (spawned writers (pipeline_writer pipeline_size wturns) wsocks);
  r ← joined (spawned readers (pipeline_reader pipeline_size n_keys rturns) rsocks);
  mret (per_second w elapsed, per_second r elapsed, per_second (u64 (w + r)) elapsed).

Definition pp_set (k : nat) : bytes :=
  let k := display_u (Z.of_nat k) in str "SET pp:" ++ k ++ str " val:" ++ k ++ crlf.
Definition prepopulate (n_keys : nat) : Task () := populate_chunks (chunks 500 (pp_set <$> seq 0 n_keys)).

Definition pipeline_config (port : Z) : Config :=
  mkConfig (str "127.0.0.1") port 300 (sweep_interval_secs config_default) (max_connections config_default)
    0 (cfg_max_keys config_default) (cfg_snapshot config_default) (cfg_aof config_default)
    (metrics_enabled config_default).

(** The scenarios: pipeline size and clients, or writers and readers. *)
Definition pipeline_plan : list (nat * nat) :=
  pipe ← [1; 10; 50; 100; 200; 500]%nat; clients ← [1; 4; 16; 32]%nat; mret (pipe, clients).
Definition pipeline_mixed_plan : list (nat * (nat * nat)) :=
  pipe ← [50; 100; 200]%nat; wr ← [(16, 16); (32, 16); (16, 32); (32, 32)]%nat; mret (pipe, wr).

(** * [src/bin/pipeline_quick.rs] *)

Section quick.
Context {IT : Itoa}.

Fixpoint build_batch (op : bytes) (pipeline_size : nat) (key_counter : Z) (batch : bytes) : outcome (bytes * Z) :=
  match pipeline_size with
  | O => Val (batch, key_counter)
  | S pipeline_size =>
      if bool_decide (op = str "SET") then
        let k_str := itoa_format key_counter in
        build_batch op pipeline_size (u64 (key_counter + 1))
          (batch ++ str "SET pipe:" ++ k_str ++ str " val:" ++ k_str ++ crlf)
      else if bool_decide (op = str "GET") then
        let k_str := itoa_format (key_counter mod 1000) in
        build_batch op pipeline_size (u64 (key_counter + 1)) (batch ++ str "GET pipe:" ++ k_str ++ crlf)
      else Panic
  end.

(** The four batches of a round. *)
Fixpoint build_batches (n : nat) (op : bytes) (pipeline_size : nat) (key_counter : Z) (batch : bytes) :
    outcome (bytes * Z) :=
  match n with
  | O => Val (batch, key_counter)
  | S n =>
      r ← build_batch op pipeline_size key_counter [];
      let '(single_batch, key_counter) := r in
      build_batches n op pipeline_size key_counter (batch ++ single_batch)
  end.

Definition newlines (l : bytes) : nat := length (filter (λ b, b = LF) l).

(** What is still to arrive, for the fuel of the loops that read: every turn but the last takes a
    byte of it. *)
Definition arriving_bytes (l : list Arrival) : nat :=
  foldr (λ a n, (match a with Data d => S (length d) | _ => 1 end + n)%nat) 0%nat l.

(** The loop that counts replies; [false] for the early return.  [read_pos] selects between two reads
    into the buffer of [buf_len] bytes. *)
Fixpoint count_responses (fuel buf_len total received read_pos : nat) : Task (bool * nat) :=
  if (total <=? received)%nat then mret (true, read_pos)
  else
    match fuel with
    | O => lift_t Stuck
    | S fuel =>
        if (read_pos =? 0)%nat then
          r ← sock_read buf_len;
          match r with
          | None | Some [] => mret (false, read_pos)
          | Some d => count_responses fuel buf_len total (received + newlines d) read_pos
          end
        else if (buf_len <? read_pos)%nat then lift_t Panic
        else
          r ← sock_read (buf_len - read_pos);
          match r with
          | None | Some [] => mret (false, read_pos)
          | Some d => count_responses fuel buf_len total (received + newlines d) (read_pos + length d)
          end
    end.

Definition read_responses (buf_len total read_pos : nat) : Task (bool * nat) := λ s,
  count_responses (S (arriving_bytes (arrivals s))) buf_len total 0 read_pos s.

Fixpoint quick_loop (op : bytes) (pipeline_size turns : nat) (local_count key_counter : Z) (read_pos : nat) :
    Task () :=
  match turns with
  | O => fetch_add (local_count mod 10000)
  | S turns =>
      r ← lift_t (build_batches 4 op pipeline_size key_counter []);
      let '(batch, key_counter) := r in
      ok ← sock_write_all batch;
      if negb ok then mret tt
      else
        ok ← sock_flush;
        if negb ok then mret tt
        else
          r ← read_responses (pipeline_size * 32) (pipeline_size * 4) read_pos;
          let '(ok, read_pos) := r in
          if negb ok then mret tt
          else
            let local_count := u64 (local_count + Z.of_nat (pipeline_size * 4)) in
            count_step 10000 local_count;;
            quick_loop op pipeline_size turns local_count key_counter read_pos
  end.

Definition quick_client (op : bytes) (pipeline_size : nat) (turns : nat → nat) (client_id : nat) : Task () :=
  quick_loop op pipeline_size (turns client_id) 0 (u64 (Z.of_nat client_id * 1000000)) 0.

Definition quick_pipeline_bench (clients pipeline_size : nat) (op : bytes) (turns : nat → nat)
    (socks : nat → option Sock) (elapsed : Duration) : outcome (Z * f64) :=
  ops ← joined (spawned clients (quick_client op pipeline_size turns) socks);
  mret (ops, per_second ops elapsed).

(** The clients of [pipeline_mixed]: one batch a round, and one way to read. *)
Fixpoint quick_mixed_loop (op : bytes) (pipeline_size turns : nat) (local_count key_counter : Z) : Task () :=
  match turns with
  | O => fetch_add (local_count mod 10000)
  | S turns =>
      r ← lift_t (build_batch op pipeline_size key_counter []);
      let '(batch, key_counter) := r in
      ok ← sock_write_all batch;
      if negb ok then mret tt
      else
        ok ← sock_flush;
        if negb ok then mret tt
        else
          r ← read_responses (pipeline_size * 32) pipeline_size 0;
          if negb r.1 then mret tt
          else
            let local_count := u64 (local_count + Z.of_nat pipeline_size) in
            count_step 10000 local_count;;
            quick_mixed_loop op pipeline_size turns local_count key_counter
  end.

Definition quick_mixed_client (op : bytes) (pipeline_size : nat) (turns : nat → nat) (client_id : nat) : Task () :=
  quick_mixed_loop op pipeline_size (turns client_id) 0 (u64 (Z.of_nat client_id * 1000000)).

Definition quick_pipeline_mixed (writers readers pipeline_size : nat) (wturns rturns : nat → nat)
    (wsocks rsocks : nat → option Sock) (elapsed : Duration) : outcome (f64 * f64 * f64) :=
  w ← joined (spawned writers (quick_mixed_client (str "SET") pipeline_size wturns) wsocks);
  r ← joined (spawned readers (quick_mixed_client (str "GET") pipeline_size rturns) rsocks);
  mret (per_second w elapsed, per_second r elapsed, per_second (u64 (w + r)) elapsed).
End quick.

(** The keys [main] writes before the reads: batches of little more than 4096 bytes. *)
Definition pipe_set (k : nat) : bytes :=
  let k := display_u (Z.of_nat k) in str "SET pipe:" ++ k ++ str " val:" ++ k ++ crlf.

Fixpoint quick_write (ks : list nat) (batch : bytes) : Task () :=
  match ks with
  | [] => match batch with [] => mret tt | _ => unwrapped (sock_write_all batch) end
  | k :: ks =>
      let batch := batch ++ pipe_set k in
      if (4096 <? length batch)%nat then unwrapped (sock_write_all batch);; quick_write ks []
      else quick_write ks batch
  end.

(** The loop of [main] that reads the replies: the end of the stream and errors leave it. *)
Definition quick_populate (n_keys : nat) : Task () :=
  quick_write (seq 0 n_keys) [];;
  unwrapped sock_flush;;
  read_responses 8192 n_keys 0;;
  mret tt.

Definition quick_config (port : Z) : Config :=
  mkConfig (str "127.0.0.1") port 300 1 0 0 0 snapshot_default aof_default false.

Definition quick_plan : list (nat * nat) :=
  pipe ← [50; 100; 200; 500]%nat; clients ← [16; 32]%nat; mret (pipe, clients).
Definition quick_mixed_plan : list (nat * (nat * nat)) :=
  pipe ← [50; 100; 200]%nat; wr ← [(8, 8); (16, 16)]%nat; mret (pipe, wr).
