(* ===== verification/BenchRedis.v ===== *)
(** [src/bin/redis_compare.rs]: the pipelined load generator that speaks RESP, for this server or Redis,
    and its command line. *)

From S2P Require Import Prelude RustStd World BenchNet BenchClients.

(** * RESP *)

Definition bench_resp_frame (args : list bytes) : bytes :=
  foldl (λ buf arg, buf ++ str "$" ++ display_u (Z.of_nat (length arg)) ++ crlf ++ arg ++ crlf)
    (str "*" ++ display_u (Z.of_nat (length args)) ++ crlf) args.

Definition resp_set (key val : bytes) : bytes := bench_resp_frame [str "SET"; key; val].
Definition resp_get (key : bytes) : bytes := bench_resp_frame [str "GET"; key].

(** [trim_end_matches(['\r', '\n'])] *)
Fixpoint trim_eol (l : bytes) : bytes :=
  match l with
  | [] => []
  | b :: l =>
      match trim_eol l with
      | [] => if Byte.eqb b CR || Byte.eqb b LF then [] else [b]
      | t => b :: t
      end
  end.

(** One reply, and whether it was read without an error: the line, and for a bulk string its bytes
    and the CRLF after them. *)
Definition read_resp_response : Task bool :=
  line ← read_line;
  match line with
  | None => mret false
  | Some (b :: len_text) =>
      if Byte.eqb b Byte.x24 then
        match parse_i64 (trim_eol len_text) with
        | None => mret false
        | Some len => if 0 <=? len then read_exact (Z.to_nat len + 2) else mret true
        end
      else mret true
  | Some [] => mret true
  end.

(** * The benchmark *)

(** [write_key]: the buffer after the write and the length of the key. *)
Definition write_key (buf : bytes) (counter : Z) : bytes * nat :=
  let bytes := str "k:" ++ display_u counter in
  let len := Nat.min (length bytes) (length buf) in
  (take len bytes ++ drop len buf, len).

(** The batch of one round, with the buffers it leaves; [n % 1000] is what the source takes of the
    key's [n] bytes for a [GET]. *)
Fixpoint redis_batch (op : bytes) (pipeline_size : nat) (key_counter : Z) (key_buf val_buf batch : bytes) :
    outcome (bytes * Z * (bytes * bytes)) :=
  match pipeline_size with
  | O => Val (batch, key_counter, (key_buf, val_buf))
  | S pipeline_size =>
      let '(key_buf, n) := write_key key_buf key_counter in
      if bool_decide (op = str "SET") then
        let '(val_buf, v) := write_key val_buf key_counter in
        redis_batch op pipeline_size (u64 (key_counter + 1)) key_buf val_buf
          (batch ++ resp_set (take n key_buf) (take v val_buf))
      else if bool_decide (op = str "GET") then
        redis_batch op pipeline_size (u64 (key_counter + 1)) key_buf val_buf
          (batch ++ resp_get (take (n mod 1000) key_buf))
      else Panic
  end.

(** [for _ in 0..n { read_resp_response(..).await.unwrap(); }] *)
Fixpoint read_replies (n : nat) : Task () :=
  match n with O => mret tt | S n => unwrapped read_resp_response;; read_replies n end.

Definition zeros : bytes := repeat Byte.x00 32.

Fixpoint redis_loop (op : bytes) (pipeline_size turns : nat) (local_count key_counter : Z)
    (key_buf val_buf : bytes) : Task () :=
  match turns with
  | O => fetch_add (local_count mod 10000)
  | S turns =>
      r ← lift_t (redis_batch op pipeline_size key_counter key_buf val_buf []);
      let '(batch, key_counter, (key_buf, val_buf)) := r in
      unwrapped (sock_write_all batch);;
      unwrapped sock_flush;;
      read_replies pipeline_size;;
      let local_count := u64 (local_count + Z.of_nat pipeline_size) in
      count_step 10000 local_count;;
      redis_loop op pipeline_size turns local_count key_counter key_buf val_buf
  end.

Definition redis_client (op : bytes) (pipeline_size : nat) (turns : nat → nat) (client_id : nat) : Task () :=
  redis_loop op pipeline_size (turns client_id) 0 (u64 (Z.of_nat client_id * 1000000)) zeros zeros.

(** [for h in handles { h.await.unwrap(); }]: a client's panic is passed on. *)
Definition joined_unwrap (rs : list (outcome () * list Z)) : outcome Z :=
  foldr (λ r rest, match r.1 with Val _ => rest | Panic => Panic | Stuck => Stuck end)
    (Val (counter (rs ≫= snd))) rs.

Definition resp_pipeline_bench (num_clients pipeline_size : nat) (op : bytes) (turns : nat → nat)
    (socks : nat → option Sock) : outcome Z :=
  joined_unwrap (spawned num_clients (redis_client op pipeline_size turns) socks).

(** The keys written before the reads, in batches of 500. *)
Definition redis_entry (idx : nat) : bytes :=
  let i := display_u (Z.of_nat idx) in resp_set (str "k:" ++ i) (str "v:" ++ i).

Definition redis_chunk (idxs : list nat) : Task () :=
  unwrapped (sock_write_all (mjoin (redis_entry <$> idxs)));;
  unwrapped sock_flush;;
  read_replies (length idxs).

Fixpoint redis_chunks (fuel remaining idx : nat) : Task () :=
  match fuel, remaining with
  | S fuel, S _ =>
      let chunk := Nat.min remaining 500 in
      redis_chunk (seq idx chunk);; redis_chunks fuel (remaining - chunk) (idx + chunk)
  | _, _ => mret tt
  end.
Definition redis_prepopulate (n_keys : nat) : Task () := redis_chunks n_keys n_keys 0.

(** * The command line *)

Record Options : Type := mkOptions {
  target : bytes; host : bytes; redis_port : Z; format : bytes; bench_duration : Z
}.

Definition options_default : Options :=
  mkOptions (str "zetdb") (str "127.0.0.1") 6379 (str "text") 5.

(** [str::parse::<u16>] *)
Definition parse_u16 (s : bytes) : option Z := n ← parse_u64 s; if n <? 2 ^ 16 then Some n else None.

(** The loop over the arguments after the program's name: [None] for the usage text.  A missing or
    malformed value panics. *)
Fixpoint parse_args (args : list bytes) (o : Options) : outcome (option Options) :=
  match args with
  | [] => Val (Some o)
  | arg :: args =>
      if bool_decide (arg = str "--target") then
        match args with
        | [] => Panic
        | v :: args => parse_args args (mkOptions v (host o) (redis_port o) (format o) (bench_duration o))
        end
      else if bool_decide (arg = str "--host") then
        match args with
        | [] => Panic
        | v :: args => parse_args args (mkOptions (target o) v (redis_port o) (format o) (bench_duration o))
        end
      else if bool_decide (arg = str "--port") then
        match args with
        | [] => Panic
        | v :: args =>
            match parse_u16 v with
            | None => Panic
            | Some p => parse_args args (mkOptions (target o) (host o) p (format o) (bench_duration o))
            end
        end
      else if bool_decide (arg = str "--format") then
        match args with
        | [] => Panic
        | v :: args => parse_args args (mkOptions (target o) (host o) (redis_port o) v (bench_duration o))
        end
      else if bool_decide (arg = str "--duration") then
        match args with
        | [] => Panic
        | v :: args =>
            match parse_u64 v with
            | None => Panic
            | Some d => parse_args args (mkOptions (target o) (host o) (redis_port o) (format o) d)
            end
        end
      else Val None
  end.

(** The results, in the order they are printed. *)
Record BenchResult : Type := mkBenchResult {
  result_target : bytes; platform : bytes; operation : bytes; pipeline_size : nat; result_clients : nat;
  total_ops : Z; duration_secs : f64; ops_per_sec : f64
}.

Inductive Os : Type := Windows | Linux | OtherOs.
Definition detect_platform (os : Os) : bytes :=
  match os with Windows => str "windows" | Linux => str "linux" | OtherOs => str "unknown" end.

Definition redis_plan : list (nat * nat) :=
  pipe ← [1; 10; 50; 100; 200; 500]%nat; clients ← [1; 4; 16; 32]%nat; mret (pipe, clients).

Definition redis_result (o : Options) (os : Os) (op : bytes) (scenario : nat * nat) (total : Z) : BenchResult :=
  let duration := from_secs (bench_duration o) in
  mkBenchResult (target o) (detect_platform os) op scenario.1 scenario.2 total (as_secs_f64 duration)
    (per_second total duration).

(** The rows of one operation, from the totals of its scenarios. *)
Definition redis_rows (o : Options) (os : Os) (op : bytes) (totals : list Z) : list BenchResult :=
  zip_with (redis_result o os op) redis_plan totals.
Definition redis_results (o : Options) (os : Os) (sets gets : list Z) : list BenchResult :=
  redis_rows o os (str "SET") sets ++ redis_rows o os (str "GET") gets.
