(* ===== verification/BenchFacts.v ===== *)
(** The load generators' clients on a connection that works: what they read, and what they report. *)

From S2P Require Import Prelude RustStd Crates World Config BenchNet BenchClients BenchPipeline.

(** * Reading *)

(** The reader's buffer [u] and the arrivals [l] hold [p] together, with nothing else to come. *)
Definition streams (l : list Arrival) (u p : bytes) : Prop := ∃ ds, l = Data <$> ds ∧ u ++ mjoin ds = p.

(** One line of ASCII. *)
Definition reply_line (r : bytes) : Prop :=
  ∃ l, r = l ++ [LF] ∧ (LF ∉ l) ∧ Forall (λ b, bval b < 128) l.

Lemma after_lf_line l rest : LF ∉ l → after_lf (l ++ LF :: rest) = Some (S (length l)).
Proof.
  intros Hl. unfold after_lf. rewrite position_app_None.
  - cbn. by rewrite Nat.add_0_r.
  - apply position_None, Forall_forall. intros b Hb. apply byte_eqb_neq. by intros <-.
Qed.

Lemma after_lf_none u : LF ∉ u → after_lf u = None.
Proof.
  intros Hu. unfold after_lf. rewrite (proj2 (position_None _ u)); [done|].
  apply Forall_forall. intros b Hb. apply byte_eqb_neq. by intros <-.
Qed.

Lemma reply_line_utf8 r : reply_line r → utf8_valid r = true.
Proof.
  intros (l & -> & _ & Hl). apply utf8_valid_ascii, Forall_app. split; [done|]. by repeat constructor.
Qed.

Lemma read_line_streams l u r rest :
  reply_line r → streams l u (r ++ rest) →
  ∃ l' u', read_line_from l u = Val (Some r, l', u') ∧ streams l' u' rest.
Proof.
  intros Hr (ds & -> & E). pose proof (reply_line_utf8 r Hr) as Hutf. destruct Hr as (x & -> & Hx & _).
  rewrite <- app_assoc in E. cbn in E.
  assert (∀ v l', take (S (length x)) (x ++ LF :: v) = x ++ [LF] ∧ drop (S (length x)) (x ++ LF :: v) = v ∧
    read_line_from l' (x ++ LF :: v) = Val (Some (x ++ [LF]), l', v)) as Hline.
  { intros v l'. assert (x ++ LF :: v = (x ++ [LF]) ++ v) as Ev by (by rewrite <- app_assoc).
    assert (take (S (length x)) (x ++ LF :: v) = x ++ [LF]) as Et.
    { rewrite Ev. apply take_app_length'. rewrite length_app. cbn. lia. }
    assert (drop (S (length x)) (x ++ LF :: v) = v) as Ed.
    { rewrite Ev. apply drop_app_length'. rewrite length_app. cbn. lia. }
    split_and!; [done..|]. destruct l' as [|a l']; cbn [read_line_from];
      rewrite after_lf_line by done; by rewrite Et, Ed, Hutf. }
  revert u E. induction ds as [|d ds IH]; intros u E; cbn [fmap list_fmap].
  - rewrite app_nil_r in E. subst u. do 2 eexists. split; [apply Hline|]. exists []. by rewrite app_nil_r.
  - change (mjoin (d :: ds)) with (d ++ mjoin ds) in E. apply app_eq_app in E as (k & [[-> E]|[-> E]]).
    + destruct k as [|b k].
      * rewrite app_nil_r in *. cbn [read_line_from]. rewrite after_lf_none by done.
        apply IH. by rewrite <- app_assoc, E.
      * injection E as <- ->. do 2 eexists. split; [apply Hline|]. by exists (d :: ds).
    + cbn [read_line_from]. rewrite after_lf_none by (intros ?; apply Hx, elem_of_app; by left).
      apply IH. rewrite <- !app_assoc. by rewrite E.
Qed.

(** A connection on which every write works, and [p] is what is still to be read. *)
Definition good (p : bytes) (s : Sock) : Prop := write_results s = [] ∧ streams (arrivals s) (unread s) p.

Lemma good_read_line p r s :
  good (r ++ p) s → reply_line r →
  ∃ l u, read_line s = (Val (Some r), set_input l u s) ∧ good p (set_input l u s).
Proof.
  intros [Hw Hs] Hr. destruct (read_line_streams _ _ r p Hr Hs) as (l & u & E & Hs').
  exists l, u. unfold read_line. by rewrite E.
Qed.

Lemma good_write p buf s :
  good p s → ∃ s', sock_write_all buf s = (Val true, s') ∧ good p s' ∧
    sent_bytes s' = sent_bytes s ++ buf ∧ adds s' = adds s.
Proof. intros [Hw Hs]. unfold sock_write_all. rewrite Hw. eexists. by split_and!. Qed.

Lemma good_flush p s : good p s → ∃ s', sock_flush s = (Val true, s') ∧ good p s' ∧
  sent_bytes s' = sent_bytes s ∧ adds s' = adds s.
Proof. intros [Hw Hs]. unfold sock_flush. rewrite Hw. eexists. by split_and!. Qed.

(** * Counting *)

(** What a client that has counted [count] adds in [n] more rounds of [step] operations. *)
Fixpoint round_adds (unit step : Z) (n : nat) (count : Z) : list Z :=
  match n with
  | O => [count mod unit]
  | S n =>
      let count := u64 (count + step) in
      (if count mod unit =? 0 then [unit] else []) ++ round_adds unit step n count
  end.

Definition total (ns : list Z) : Z := foldr Z.add 0 ns.

(** Counts that are passed on whenever the unit is reached: exact, if the rounds divide the unit. *)
Lemma round_adds_total unit step n count :
  0 < step → (step | unit) → 0 < unit → 0 ≤ count → (step | count) → count + Z.of_nat n * step < 2 ^ 64 →
  total (round_adds unit step n count) = count mod unit + Z.of_nat n * step.
Proof.
  intros Hs Hd Hu. revert count. induction n as [|n IH]; intros count H0 Hc Hlt; [cbn; lia|].
  cbn [round_adds]. rewrite Nat2Z.inj_succ in *. unfold u64. rewrite (Z.mod_small (count + step)) by lia.
  assert (total ((if (count + step) mod unit =? 0 then [unit] else []) ++
    round_adds unit step n (count + step)) =
    (if (count + step) mod unit =? 0 then unit else 0) + total (round_adds unit step n (count + step))) as ->
    by (by case_match).
  rewrite IH by (try lia; by apply Z.divide_add_r; [|apply Z.divide_refl]).
  pose proof (Z.mod_pos_bound count unit Hu) as Hm.
  assert (count mod unit + step ≤ unit) as Hle.
  { destruct Hd as [q Hq], Hc as [c Hc']. subst count. rewrite Hq, Z.mul_mod_distr_r in * by lia.
    assert (c mod q < q); [|nia]. apply Z.mod_pos_bound. nia. }
  rewrite <- (Z.add_mod_idemp_l count step unit) by lia.
  destruct (Z.eq_dec (count mod unit + step) unit) as [E|E].
  - rewrite E, Z.mod_same by lia. cbn. lia.
  - rewrite (Z.mod_small (_ + step)) by lia. destruct (Z.eqb_spec (count mod unit + step) 0); lia.
Qed.

(** ** Loops *)

(** The key counter of [n] commands in a row. *)
Fixpoint key_seq (n : nat) (key : Z) : list Z :=
  match n with O => [] | S n => key :: key_seq n (u64 (key + 1)) end.
Fixpoint key_after (n : nat) (key : Z) : Z := match n with O => key | S n => key_after n (u64 (key + 1)) end.

Lemma key_seq_add n m key : key_seq (n + m) key = key_seq n key ++ key_seq m (key_after n key).
Proof. revert key. induction n as [|n IH]; intros key; cbn; [done|]. by rewrite IH. Qed.

Lemma key_after_add n m key : key_after (n + m) key = key_after m (key_after n key).
Proof. revert key. induction n as [|n IH]; intros key; cbn; [done|]. by rewrite IH. Qed.

Definition request_bytes (text : Z → bytes) (n : nat) (key : Z) : bytes := mjoin (text <$> key_seq n key).

Lemma request_bytes_S text n key :
  request_bytes text (S n) key = text key ++ request_bytes text n (u64 (key + 1)).
Proof. done. Qed.

Lemma request_bytes_add text n m key :
  request_bytes text (n + m) key = request_bytes text n key ++ request_bytes text m (key_after n key).
Proof. unfold request_bytes. by rewrite key_seq_add, fmap_app, join_app. Qed.

Lemma count_step_run unit count s :
  count_step unit count s =
  (Val tt, mkSock (arrivals s) (unread s) (write_results s) (sent_bytes s)
             (adds s ++ (if count mod unit =? 0 then [unit] else [])) (clock_reads s)).
Proof. unfold count_step. destruct (_ =? _); [done|]. destruct s. cbn. by rewrite app_nil_r. Qed.

Section loops.
Variables (cmd : Z → outcome (bytes * Z)) (text : Z → bytes).
Hypothesis cmd_text : ∀ key, cmd key = Val (text key, u64 (key + 1)).

(** What a loop leaves: the replies read, the requests sent, the counts passed on. *)
Definition served (p : bytes) (s s' : Sock) (requests : bytes) (ns : list Z) : Prop :=
  good p s' ∧ sent_bytes s' = sent_bytes s ++ requests ∧ adds s' = adds s ++ ns.

Lemma request_loop_good unit rs count key p s :
  Forall reply_line rs → good (mjoin rs ++ p) s →
  ∃ s', request_loop cmd unit (length rs) count key s = (Val tt, s') ∧
    served p s s' (request_bytes text (length rs) key) (round_adds unit 1 (length rs) count).
Proof.
  intros Hrs. revert count key s. induction Hrs as [|r rs Hr Hrs IH]; intros count key s Hs.
  - cbn. eexists. split; [done|]. by split_and!; rewrite ?app_nil_r.
  - cbn [length request_loop]. change (mjoin (r :: rs)) with (r ++ mjoin rs) in Hs. rewrite <- app_assoc in Hs.
    rewrite (st_bind_val (lift_t (cmd key)) _ s _ s) by (unfold lift_t; by rewrite cmd_text).
    destruct (good_write _ (text key) s Hs) as (s1 & E1 & H1 & Hs1 & Ha1). rewrite (st_bind_val _ _ _ _ _ E1). cbn [negb].
    destruct (good_flush _ s1 H1) as (s2 & E2 & H2 & Hs2 & Ha2). rewrite (st_bind_val _ _ _ _ _ E2). cbn [negb].
    destruct (good_read_line _ r s2 H2 Hr) as (l & u & E3 & H3). rewrite (st_bind_val _ _ _ _ _ E3).
    rewrite (st_bind_val _ _ _ _ _ (count_step_run unit (u64 (count + 1)) _)).
    destruct (IH (u64 (count + 1)) (u64 (key + 1)) (mkSock l u (write_results s2) (sent_bytes s2)
      (adds s2 ++ (if u64 (count + 1) mod unit =? 0 then [unit] else [])) (clock_reads s2))) as (s' & E' & Hg & Hse & Had).
    { destruct H3. by split. }
    exists s'. split; [exact E'|]. split_and!; [done| |].
    + rewrite Hse, request_bytes_S. cbn [sent_bytes]. by rewrite Hs2, Hs1, <- app_assoc.
    + rewrite Had. cbn [adds round_adds]. by rewrite Ha2, Ha1, <- app_assoc.
Qed.

Lemma write_phase_good n key p s :
  good p s →
  ∃ s', write_phase cmd n key s = (Val (Some (key_after n key)), s') ∧
    served p s s' (request_bytes text n key) [].
Proof.
  revert key s. induction n as [|n IH]; intros key s Hs.
  { exists s. split; [done|]. by split_and!; rewrite ?app_nil_r. }
  cbn [write_phase]. rewrite (st_bind_val (lift_t (cmd key)) _ s _ s) by (unfold lift_t; by rewrite cmd_text).
  destruct (good_write _ (text key) s Hs) as (s1 & E1 & H1 & Hs1 & Ha1). rewrite (st_bind_val _ _ _ _ _ E1). cbn [negb].
  destruct (IH (u64 (key + 1)) s1 H1) as (s' & E' & Hg & Hse & Had). exists s'. split; [exact E'|].
  split_and!; [done | by rewrite Hse, Hs1, request_bytes_S, <- app_assoc | by rewrite Had, Ha1].
Qed.

Lemma read_phase_good rs p s :
  Forall reply_line rs → good (mjoin rs ++ p) s →
  ∃ l u, read_phase (length rs) s = (Val true, set_input l u s) ∧ good p (set_input l u s).
Proof.
  intros Hrs. revert s. induction Hrs as [|r rs Hr Hrs IH]; intros s Hs.
  { exists (arrivals s), (unread s). by destruct s. }
  cbn [length read_phase]. change (mjoin (r :: rs)) with (r ++ mjoin rs) in Hs. rewrite <- app_assoc in Hs.
  destruct (good_read_line _ r s Hs Hr) as (l & u & E & H). rewrite (st_bind_val _ _ _ _ _ E).
  destruct (IH _ H) as (l' & u' & E' & H'). exists l', u'. rewrite E'. by destruct s.
Qed.

(** The replies of the rounds, [pipe] lines each. *)
Lemma pipeline_loop_good pipe rss count key p s :
  Forall (λ rs, length rs = pipe ∧ Forall reply_line rs) rss → good (mjoin (mjoin rss) ++ p) s →
  ∃ s', pipeline_loop cmd pipe (length rss) count key s = (Val tt, s') ∧
    served p s s' (request_bytes text (length rss * pipe) key)
      (round_adds 10000 (Z.of_nat pipe) (length rss) count).
Proof.
  intros Hrss. revert count key s. induction Hrss as [|rs rss [Hlen Hrs] Hrss IH]; intros count key s Hs.
  - cbn. eexists. split; [done|]. by split_and!; rewrite ?app_nil_r.
  - cbn [length pipeline_loop]. change (mjoin (rs :: rss)) with (rs ++ mjoin rss) in Hs.
    rewrite join_app, <- app_assoc in Hs.
    destruct (write_phase_good pipe key _ s Hs) as (s1 & E1 & H1 & Hs1 & Ha1). rewrite (st_bind_val _ _ _ _ _ E1).
    destruct (good_flush _ s1 H1) as (s2 & E2 & H2 & Hs2 & Ha2). rewrite (st_bind_val _ _ _ _ _ E2). cbn [negb].
    destruct (read_phase_good rs _ s2 Hrs H2) as (l & u & E3 & H3). rewrite Hlen in E3.
    rewrite (st_bind_val _ _ _ _ _ E3). cbn [negb].
    rewrite (st_bind_val _ _ _ _ _ (count_step_run 10000 (u64 (count + Z.of_nat pipe)) _)).
    destruct (IH (u64 (count + Z.of_nat pipe)) (key_after pipe key) (mkSock l u (write_results s2) (sent_bytes s2)
      (adds s2 ++ (if u64 (count + Z.of_nat pipe) mod 10000 =? 0 then [10000] else [])) (clock_reads s2)))
      as (s' & E' & Hg & Hse & Had).
    { destruct H3. by split. }
    exists s'. split; [exact E'|]. split_and!; [done| |].
    + rewrite Hse. cbn [sent_bytes Nat.mul]. by rewrite request_bytes_add, Hs2, Hs1, <- app_assoc.
    + rewrite Had. cbn [adds round_adds]. rewrite Ha2, Ha1, app_nil_r, <- app_assoc. done.
Qed.
End loops.

(** ** The quick clients *)

Lemma newlines_app l k : newlines (l ++ k) = (newlines l + newlines k)%nat.
Proof. unfold newlines. by rewrite filter_app, length_app. Qed.

Lemma newlines_none l : LF ∉ l → newlines l = 0%nat.
Proof.
  unfold newlines. induction l as [|b l IH]; [done|]. intros [Hb Hl]%not_elem_of_cons.
  rewrite filter_cons, decide_False by congruence. by apply IH.
Qed.

Lemma newlines_line r : reply_line r → newlines r = 1%nat.
Proof.
  intros (l & -> & Hl & _). by rewrite newlines_app, newlines_none.
Qed.

Lemma newlines_lines rs : Forall reply_line rs → newlines (mjoin rs) = length rs.
Proof.
  induction 1 as [|r rs Hr _ IH]; [done|]. change (mjoin (r :: rs)) with (r ++ mjoin rs).
  rewrite newlines_app, (newlines_line r) by done. cbn. lia.
Qed.

(** Text that ends with a newline, or nothing. *)
Definition whole_lines (p : bytes) : Prop := p = [] ∨ last p = Some LF.

Lemma lines_whole rs : Forall reply_line rs → whole_lines (mjoin rs).
Proof.
  destruct rs as [|r rs _] using rev_ind; [by left|]. intros [_ [Hr _]%Forall_cons]%Forall_app. right.
  destruct Hr as (l & -> & _). rewrite join_app. change (mjoin [l ++ [LF]]) with ((l ++ [LF]) ++ []).
  by rewrite app_nil_r, app_assoc, last_snoc.
Qed.

Lemma whole_lines_app p q : whole_lines (p ++ q) → whole_lines q.
Proof.
  intros [[_ ->]%app_eq_nil|H]; [by left|]. destruct q as [|x q _] using rev_ind; [by left|].
  right. rewrite app_assoc, last_snoc in H. by rewrite last_snoc.
Qed.

Lemma whole_lines_none p : whole_lines p → newlines p = 0%nat → p = [].
Proof.
  intros [->|H] Hn; [done|]. destruct p as [|x p _] using rev_ind; [done|]. rewrite last_snoc in H.
  injection H as ->. rewrite newlines_app in Hn. change (newlines [LF]) with 1%nat in Hn. lia.
Qed.

(** The loop reads the pieces [ds] of a reply text and nothing after them. *)
Lemma count_responses_good fuel cap total received ds rest s :
  (0 < cap)%nat → ([] ∉ ds) → whole_lines (mjoin ds) → (received + newlines (mjoin ds) = total)%nat →
  arrivals s = (Data <$> ds) ++ rest → (arriving_bytes (Data <$> ds) < fuel)%nat →
  count_responses fuel cap total received 0 s = (Val (true, 0%nat), set_input rest (unread s) s).
Proof.
  intros Hcap. revert received ds s. induction fuel as [|fuel IH]; intros received ds s Hne Hw Hn Hs Hf; [lia|].
  cbn [count_responses]. destruct (Nat.leb_spec total received) as [Hle|Hlt].
  - destruct ds as [|d ds].
    + destruct s. cbn in *. by subst.
    + assert (mjoin (d :: ds) = []) as E by (apply whole_lines_none; [done|lia]).
      apply app_eq_nil in E as [-> _]. set_solver.
  - destruct ds as [|d ds]; [change (newlines (mjoin [])) with 0%nat in Hn; lia|]. cbn [Nat.eqb].
    assert (d ≠ [] ∧ ([] ∉ ds)) as [Hd Hds] by set_solver.
    change (mjoin (d :: ds)) with (d ++ mjoin ds) in *.
    assert (∃ l, sock_read cap s = (Val (Some (take cap d)), set_input l (unread s) s) ∧
      ∃ ds', l = (Data <$> ds') ++ rest ∧ ([] ∉ ds') ∧ mjoin ds' = drop cap d ++ mjoin ds ∧
        (arriving_bytes (Data <$> ds') < fuel)%nat) as (l & E & ds' & -> & Hne' & Hj & Hf').
    { unfold sock_read. rewrite Hs. cbn [fmap list_fmap app]. eexists. split; [done|].
      unfold arriving_bytes in *. cbn [fmap list_fmap foldr length] in Hf.
      destruct (Nat.leb_spec (length d) cap).
      - exists ds. split_and!; [done | done | by rewrite drop_ge |]. lia.
      - exists (drop cap d :: ds). split_and!; [done | | done |].
        + apply not_elem_of_cons. split; [|done]. intros E. apply (f_equal length) in E. rewrite length_drop in E. cbn in E. lia.
        + cbn [fmap list_fmap foldr length]. rewrite length_drop. lia. }
    rewrite (st_bind_val _ _ _ _ _ E). destruct (take cap d) as [|b t] eqn:Et.
    { destruct cap, d; try done; lia. }
    rewrite <- Et. rewrite (IH _ ds' (set_input ((Data <$> ds') ++ rest) (unread s) s)); [by destruct s | done | | | done | done].
    + rewrite Hj. rewrite <- (take_drop cap d), <- app_assoc in Hw. by apply whole_lines_app in Hw.
    + rewrite Hj, newlines_app. rewrite <- (take_drop cap d), !newlines_app in Hn. lia.
Qed.

Lemma arriving_bytes_app l k : arriving_bytes (l ++ k) = (arriving_bytes l + arriving_bytes k)%nat.
Proof. unfold arriving_bytes. induction l as [|a l IH]; cbn; [done|]. rewrite IH. lia. Qed.

(** The pieces of a reply text of [n] lines, as one round receives them. *)
Definition round_pieces (n : nat) (ds : list bytes) : Prop :=
  ([] ∉ ds) ∧ whole_lines (mjoin ds) ∧ newlines (mjoin ds) = n.

Lemma read_responses_good cap total ds rest s :
  (0 < cap)%nat → round_pieces total ds → arrivals s = (Data <$> ds) ++ rest →
  read_responses cap total 0 s = (Val (true, 0%nat), set_input rest (unread s) s).
Proof.
  intros Hcap (Hne & Hw & Hn) Hs. unfold read_responses.
  apply (count_responses_good _ cap total 0 ds rest); try done. rewrite Hs, arriving_bytes_app. lia.
Qed.

Section quick.
Context {IT : Itoa}.

Definition pipe_text (op : bytes) (key : Z) : bytes :=
  if bool_decide (op = str "SET")
  then str "SET pipe:" ++ display_u key ++ str " val:" ++ display_u key ++ crlf
  else str "GET pipe:" ++ display_u (key mod 1000) ++ crlf.

Definition known_op (op : bytes) : Prop := op = str "SET" ∨ op = str "GET".

Lemma pipe_cmd_text op key : known_op op → pipe_cmd op key = Val (pipe_text op key, u64 (key + 1)).
Proof. by intros [-> | ->]. Qed.

Lemma key_after_nonneg n key : 0 ≤ key → 0 ≤ key_after n key.
Proof.
  revert key. induction n as [|n IH]; intros key Hk; cbn; [done|]. apply IH. apply Z.mod_pos_bound. lia.
Qed.

Lemma build_batch_text op n key batch :
  known_op op → 0 ≤ key →
  build_batch op n key batch = Val (batch ++ request_bytes (pipe_text op) n key, key_after n key).
Proof.
  intros Hop. revert key batch. induction n as [|n IH]; intros key batch Hk.
  { cbn. by rewrite app_nil_r. }
  cbn [build_batch key_after]. rewrite request_bytes_S.
  assert (0 ≤ u64 (key + 1)) as Hk' by (apply Z.mod_pos_bound; lia).
  assert (0 ≤ key mod 1000) by (apply Z.mod_pos_bound; lia).
  destruct Hop as [-> | ->].
  - rewrite bool_decide_eq_true_2, itoa_format_display, display_i_nonneg, IH by done.
    unfold pipe_text at 2. rewrite bool_decide_eq_true_2 by done. by rewrite <- !app_assoc.
  - rewrite bool_decide_eq_false_2, bool_decide_eq_true_2, itoa_format_display, display_i_nonneg, IH by done.
    unfold pipe_text at 2. rewrite bool_decide_eq_false_2 by done. by rewrite <- !app_assoc.
Qed.

Lemma build_batches_text n op size key batch :
  known_op op → 0 ≤ key →
  build_batches n op size key batch =
  Val (batch ++ request_bytes (pipe_text op) (n * size) key, key_after (n * size) key).
Proof.
  intros Hop. revert key batch. induction n as [|n IH]; intros key batch Hk.
  { cbn. by rewrite app_nil_r. }
  cbn [build_batches Nat.mul]. rewrite build_batch_text by done. cbn [mbind outcome_bind].
  rewrite IH by (by apply key_after_nonneg). by rewrite request_bytes_add, key_after_add, <- app_assoc.
Qed.

(** The replies of the rounds come in pieces that end with the round. *)
Definition quick_good (dss : list (list bytes)) (s : Sock) : Prop :=
  write_results s = [] ∧ arrivals s = Data <$> mjoin dss.

Lemma quick_read cap total ds dss s :
  (0 < cap)%nat → round_pieces total ds → quick_good (ds :: dss) s →
  ∃ s', read_responses cap total 0 s = (Val (true, 0%nat), s') ∧ quick_good dss s' ∧
    sent_bytes s' = sent_bytes s ∧ adds s' = adds s.
Proof.
  intros Hcap Hp [Hw Ha]. change (mjoin (ds :: dss)) with (ds ++ mjoin dss) in Ha. rewrite fmap_app in Ha.
  rewrite (read_responses_good cap total ds _ s Hcap Hp Ha). eexists. by split_and!.
Qed.

Lemma quick_send dss buf s :
  quick_good dss s →
  ∃ s1 s2, sock_write_all buf s = (Val true, s1) ∧ sock_flush s1 = (Val true, s2) ∧ quick_good dss s2 ∧
    sent_bytes s2 = sent_bytes s ++ buf ∧ adds s2 = adds s.
Proof.
  intros [Hw Ha]. unfold sock_write_all. rewrite Hw. do 2 eexists. split; [done|]. split; [done|]. by split_and!.
Qed.

Lemma quick_count dss unit count s :
  quick_good dss s →
  ∃ s', count_step unit count s = (Val tt, s') ∧ quick_good dss s' ∧ sent_bytes s' = sent_bytes s ∧
    adds s' = adds s ++ (if count mod unit =? 0 then [unit] else []).
Proof. intros [Hw Ha]. rewrite count_step_run. eexists. by split_and!. Qed.

Definition quick_served (s s' : Sock) (requests : bytes) (ns : list Z) : Prop :=
  quick_good [] s' ∧ sent_bytes s' = sent_bytes s ++ requests ∧ adds s' = adds s ++ ns.

Lemma quick_loop_good op size dss count key s :
  known_op op → (0 < size)%nat → 0 ≤ key → Forall (round_pieces (size * 4)) dss → quick_good dss s →
  ∃ s', quick_loop op size (length dss) count key 0 s = (Val tt, s') ∧
    quick_served s s' (request_bytes (pipe_text op) (length dss * (4 * size)) key)
      (round_adds 10000 (Z.of_nat (size * 4)) (length dss) count).
Proof.
  intros Hop Hsz Hk Hdss. revert count key s Hk. induction Hdss as [|ds dss Hds _ IH]; intros count key s Hk Hs.
  - cbn. eexists. split; [done|]. by split_and!; rewrite ?app_nil_r; try apply Hs.
  - cbn [length quick_loop]. rewrite (st_bind_val (lift_t _) _ s _ s) by (unfold lift_t; by rewrite build_batches_text).
    rewrite app_nil_l. destruct (quick_send _ (request_bytes (pipe_text op) (4 * size) key) s Hs)
      as (s1 & s2 & E1 & E2 & H2 & Hs2 & Ha2).
    rewrite (st_bind_val _ _ _ _ _ E1). cbn [negb]. rewrite (st_bind_val _ _ _ _ _ E2). cbn [negb].
    destruct (quick_read (size * 32) (size * 4) ds dss s2) as (s3 & E3 & H3 & Hs3 & Ha3); [lia | done | done |].
    rewrite (st_bind_val _ _ _ _ _ E3). cbn [negb].
    destruct (quick_count dss 10000 (u64 (count + Z.of_nat (size * 4))) s3 H3) as (s4 & E4 & H4 & Hs4 & Ha4).
    rewrite (st_bind_val _ _ _ _ _ E4).
    destruct (IH (u64 (count + Z.of_nat (size * 4))) (key_after (4 * size) key) s4) as (s' & E' & Hg & Hse & Had);
      [by apply key_after_nonneg | done |].
    exists s'. split; [exact E'|]. split_and!; [done| |].
    + rewrite Hse, Hs4, Hs3, Hs2, <- app_assoc. f_equal. cbn [Nat.mul]. by rewrite <- request_bytes_add.
    + rewrite Had, Ha4, Ha3, Ha2, <- app_assoc. done.
Qed.

Lemma quick_mixed_loop_good op size dss count key s :
  known_op op → (0 < size)%nat → 0 ≤ key → Forall (round_pieces size) dss → quick_good dss s →
  ∃ s', quick_mixed_loop op size (length dss) count key s = (Val tt, s') ∧
    quick_served s s' (request_bytes (pipe_text op) (length dss * size) key)
      (round_adds 10000 (Z.of_nat size) (length dss) count).
Proof.
  intros Hop Hsz Hk Hdss. revert count key s Hk. induction Hdss as [|ds dss Hds _ IH]; intros count key s Hk Hs.
  - cbn. eexists. split; [done|]. by split_and!; rewrite ?app_nil_r; try apply Hs.
  - cbn [length quick_mixed_loop].
    rewrite (st_bind_val (lift_t _) _ s _ s) by (unfold lift_t; by rewrite build_batch_text).
    rewrite app_nil_l. destruct (quick_send _ (request_bytes (pipe_text op) size key) s Hs)
      as (s1 & s2 & E1 & E2 & H2 & Hs2 & Ha2).
    rewrite (st_bind_val _ _ _ _ _ E1). cbn [negb]. rewrite (st_bind_val _ _ _ _ _ E2). cbn [negb].
    destruct (quick_read (size * 32) size ds dss s2) as (s3 & E3 & H3 & Hs3 & Ha3); [lia | done | done |].
    rewrite (st_bind_val _ _ _ _ _ E3). cbn [negb fst].
    destruct (quick_count dss 10000 (u64 (count + Z.of_nat size)) s3 H3) as (s4 & E4 & H4 & Hs4 & Ha4).
    rewrite (st_bind_val _ _ _ _ _ E4).
    destruct (IH (u64 (count + Z.of_nat size)) (key_after size key) s4) as (s' & E' & Hg & Hse & Had);
      [by apply key_after_nonneg | done |].
    exists s'. split; [exact E'|]. split_and!; [done| |].
    + rewrite Hse, Hs4, Hs3, Hs2, <- app_assoc. f_equal. cbn [Nat.mul]. by rewrite <- request_bytes_add.
    + rewrite Had, Ha4, Ha3, Ha2, <- app_assoc. done.
Qed.
End quick.
