(* ===== verification/BenchProps.v ===== *)
(** The load generators against the server: every request is answered with one line, so the clients
    read exactly the replies to what they sent, and what they report is what was done. *)

From stdpp Require Import sorting.
From S2P Require Import Prelude RustStd Crates Domain Parser InlineFacts RespFacts ParserProps.
From S2P Require Import ParserBorrowed BorrowedProps Metrics World Engine EngineFacts EvictFacts.
From S2P Require Import StoreSpec EngineProps Response Dispatcher DispatcherProps Aof AofFacts.
From S2P Require Import RestoreFacts AofProps CommandSpec Session SessionProps InlineSession FastInline.
From S2P Require Import Config BenchNet BenchClients BenchPipeline BenchRedis BenchFacts.

(** * Requests *)

Inductive Request : Type := ReqSet (k v : bytes) | ReqGet (k : bytes).

Definition request_line (r : Request) : bytes :=
  match r with
  | ReqSet k v => unwords [str "SET"; k; v]
  | ReqGet k => unwords [str "GET"; k]
  end.

Definition parsed (r : Request) : ParsedCommand :=
  match r with ReqSet k v => PSet k v None | ReqGet k => PGet k end.

(** A value that fits a reply line: short, ASCII and without newline. *)
Definition clean (v : bytes) : Prop := (length v ≤ 64)%nat ∧ (LF ∉ v) ∧ Forall (λ b, bval b < 128) v.

Definition word (w : bytes) : Prop := w ≠ [] ∧ no_ws w.
Definition request_ok (r : Request) : Prop :=
  match r with ReqSet k v => word k ∧ word v ∧ clean v | ReqGet k => word k end.

(** The words of a request, and that it is parsed as meant. *)
Lemma request_parses {MC : Memchr} r :
  request_ok r →
  line_ok (request_line r) ∧
  parse_inline_borrowed (ended (request_line r)) = Ok (BComplete (length (ended (request_line r))) (parsed r)).
Proof.
  intros Hr.
  set (ws := match r with ReqSet k v => [str "SET"; k; v] | ReqGet k => [str "GET"; k] end).
  assert (request_line r = unwords ws) as -> by (by destruct r).
  assert (Forall word ws) as Hws.
  { assert (word (str "SET") ∧ word (str "GET")) as [Hset Hget] by (by repeat split; repeat constructor).
    destruct r as [k v|k]; [destruct Hr as (Hk & Hv & _)|]; by repeat (apply Forall_cons_2; [assumption|]). }
  assert (CR ∉ unwords ws) as Hcr by (by apply unwords_no_cr).
  assert (LF ∉ unwords ws) as Hlf by (by apply unwords_no_lf).
  split; [split_and!; [done..|]; by destruct r|].
  pose proof (inline_borrowed_line (unwords ws) [] Hcr Hlf) as E. rewrite app_nil_r in E. unfold ended.
  rewrite E. clear E. rewrite length_app.
  assert (words (unwords ws) = ws) as Hw by (by apply words_unwords).
  destruct r as [k v|k].
  - destruct (split_trimmed _ _ _ Hw) as (rest & -> & -> & Hrest & _). cbn.
    by rewrite parse_set_borrowed_words, Hrest.
  - destruct (split_trimmed _ _ _ Hw) as (rest & -> & -> & Hrest & _). cbn.
    by rewrite parse_get_borrowed_words, Hrest.
Qed.

(** * Replies *)

Section answers.
Context {M : Type} {DM : DashMap bytes ValueEntry M} {CL : Clock} {IT : Itoa} {MC : Memchr}.
Abbreviation SW := (SWorld (M := M)).
Implicit Types (s : SW) (a : gmap bytes bytes).

Definition request_effect (r : Request) (a : gmap bytes bytes) : gmap bytes bytes :=
  match r with ReqSet k v => <[k := v]> a | ReqGet _ => a end.

(** The reply to a request, from the data. *)
Definition reply_to (r : Request) (a : gmap bytes bytes) : bytes :=
  match r with
  | ReqSet _ _ => str "+OK" ++ crlf
  | ReqGet k => match a !! k with Some d => simple_text d | None => nil_text end
  end.

Definition clean_data (a : gmap bytes bytes) : Prop := ∀ k v, a !! k = Some v → clean v.

Lemma clean_effect r a : request_ok r → clean_data a → clean_data (request_effect r a).
Proof.
  destruct r as [k v|k]; [|done]. intros (_ & _ & Hv) Ha j u. cbn. rewrite lookup_insert_Some.
  intros [[<- <-]|[_ ?]]; [done | by eapply Ha].
Qed.

Lemma reply_to_line r a : clean_data a → reply_line (reply_to r a) ∧ (length (reply_to r a) ≤ 67)%nat.
Proof.
  intros Ha.
  assert (∀ l, (LF ∉ l) → Forall (λ b, bval b < 128) l → reply_line (l ++ crlf)) as Hend.
  { intros l Hl Hb. exists (l ++ [CR]). split_and!; [by rewrite <- app_assoc | | ].
    - rewrite not_elem_of_app. split; [done|]. by apply not_elem_of_cons; split; [|apply not_elem_of_nil].
    - apply Forall_app. split; [done|]. by repeat constructor. }
  destruct r as [k v|k]; cbn [reply_to].
  - split; [|cbn; lia]. apply (Hend (str "+OK")); [|by repeat constructor].
    by repeat (apply not_elem_of_cons; split; [done|]); apply not_elem_of_nil.
  - destruct (a !! k) as [d|] eqn:Hk.
    + destruct (Ha k d Hk) as (Hl & Hlf & Hb). unfold simple_text. rewrite app_assoc. split.
      * apply Hend; [|apply Forall_app; split; [by repeat constructor | done]].
        rewrite not_elem_of_app. split; [|done]. by apply not_elem_of_cons; split; [|apply not_elem_of_nil].
      * rewrite !length_app. cbn. lia.
    + split; [|cbn; lia]. apply (Hend (str "$-1")); [|by repeat constructor].
      by repeat (apply not_elem_of_cons; split; [done|]); apply not_elem_of_nil.
Qed.

(** A way of running lines that answers requests from the data. *)
Definition answers_requests (exec : bytes → bytes → ST SW bytes) (ok : SW → Prop) : Prop :=
  ∀ r wb s a, request_ok r → ok s → holds (sw s) a →
    ∃ s', exec (request_line r) wb s = (Val (wb ++ reply_to r a), s') ∧ ok s' ∧
      holds (sw s') (request_effect r a).

Lemma fast_answers : answers_requests exec_fast_line (λ _, True).
Proof.
  intros r wb s a Hr _ Hh. unfold exec_fast_line. destruct (request_parses r Hr) as [_ ->].
  unfold lift_w. destruct r as [k v|k]; cbn [parsed].
  - destruct (fast_set k v None wb (sw s) a Hh) as (w' & -> & Hh'). by eexists.
  - rewrite (fast_get k wb (sw s) a Hh). by eexists.
Qed.

Lemma full_answers : answers_requests (exec_line false) (λ s, aof s = None).
Proof.
  intros r wb s a Hr Ha Hh. rewrite exec_line_eq. destruct (request_parses r Hr) as [_ ->].
  set (c := to_owned (parsed r)).
  assert (timeless c) as Ht by (by destruct r).
  destruct (dispatch_answers c (sw s) a Ht Hh) as (resp & w' & E & Hh' & Hans & _).
  unfold exec_inline, aof_entry_for, aof_open. unfold mbind at 1, st_bind at 1. unfold mbind at 1, st_bind at 1.
  unfold mret at 1, st_ret at 1. rewrite bool_decide_eq_false_2 by (rewrite Ha; by intros [? ?]). cbn [andb].
  fold c. rewrite (st_bind_val _ _ s (wb ++ direct_text c resp false) (mkSWorld w' (aof s))).
  2: { unfold lift_w. rewrite to_buffer_text. unfold mbind, st_bind. by rewrite E. }
  exists (mkSWorld w' (aof s)). split; [|by split; [|destruct r]].
  destruct r as [k v|k]; cbn in Hans; subst resp; [done|]. by destruct (a !! k).
Qed.

(** A batch of requests: one line each. *)
Fixpoint replies_to (rs : list Request) (a : gmap bytes bytes) : list bytes :=
  match rs with [] => [] | r :: rs => reply_to r a :: replies_to rs (request_effect r a) end.

Lemma length_replies_to rs a : length (replies_to rs a) = length rs.
Proof. revert a. induction rs as [|r rs IH]; intros a; cbn; [done|]. by rewrite IH. Qed.

Lemma replies_to_lines rs a :
  Forall request_ok rs → clean_data a →
  Forall reply_line (replies_to rs a) ∧ (length (mjoin (replies_to rs a)) ≤ 67 * length rs)%nat.
Proof.
  intros Hrs. revert a. induction Hrs as [|r rs Hr _ IH]; intros a Ha; [split; [constructor|cbn; lia]|].
  destruct (reply_to_line r a Ha) as [Hl Hb]. destruct (IH _ (clean_effect r a Hr Ha)) as [Hls Hbs].
  cbn [replies_to length]. split; [by constructor|]. change (mjoin (?x :: ?l)) with (x ++ mjoin l).
  rewrite length_app. lia.
Qed.

Lemma run_requests exec ok rs wb s a :
  answers_requests exec ok → Forall request_ok rs → ok s → holds (sw s) a →
  ∃ s', run_cmds exec (request_line <$> rs) wb s = (Val (wb ++ mjoin (replies_to rs a)), s') ∧ ok s' ∧
    holds (sw s') (foldl (λ a r, request_effect r a) a rs).
Proof.
  intros Hexec Hrs. revert wb s a. induction Hrs as [|r rs Hr _ IH]; intros wb s a Hok Hh.
  { exists s. cbn. by rewrite app_nil_r. }
  destruct (Hexec r wb s a Hr Hok Hh) as (s1 & E1 & Hok1 & Hh1).
  destruct (IH (wb ++ reply_to r a) s1 _ Hok1 Hh1) as (s' & E' & Hok' & Hh').
  exists s'. cbn [fmap list_fmap run_cmds]. rewrite (st_bind_val _ _ _ _ _ E1). split_and!; [|done..].
  rewrite <- app_assoc in E'. exact E'.
Qed.

Abbreviation request_text rs := (mjoin (ended <$> (request_line <$> rs))).

(** The two paths of the server on a batch of requests, however it is cut. *)
Definition path_of (full : bool) : bool * (bytes → bytes → ST SW (bytes * bytes)) :=
  if full then (true, full_batch false) else (false, fast_batch).

Lemma session_answers (full : bool) rs chunks s a :
  Forall request_ok rs → mjoin chunks = request_text rs → ([] ∉ chunks) →
  Z.of_nat (length (request_text rs)) ≤ MAX_READ_BUF → 67 * Z.of_nat (length rs) ≤ MAX_WRITE_BUF →
  holds (sw s) a → clean_data a → aof s = None →
  ∃ s', session_loop (path_of full).1 (path_of full).2 (arriving chunks) [] [] [] s =
      (Val (mjoin (replies_to rs a)), s') ∧
    holds (sw s') (foldl (λ a r, request_effect r a) a rs).
Proof.
  intros Hrs Hch Hne Hlen Hn Hh Ha Haof.
  destruct (replies_to_lines rs a Hrs Ha) as [_ Hout].
  assert (Z.of_nat (length (mjoin (replies_to rs a))) ≤ MAX_WRITE_BUF) as Hout'.
  { lia. }
  assert (Forall line_parses (request_line <$> rs)) as Hlp.
  { apply Forall_fmap. eapply Forall_impl; [exact Hrs|]. intros r Hr.
    destruct (request_parses r Hr) as [H1 H2]. split; [done | by eexists]. }
  destruct full; cbn [path_of fst snd].
  - destruct (run_requests _ _ rs [] s a full_answers Hrs Haof Hh) as (s' & E & _ & Hh').
    exists s'. split; [|done]. apply (full_chunking false chunks (request_line <$> rs)); try done.
    eapply Forall_impl; [exact Hlp|]. by intros ? [? _].
  - destruct (run_requests _ _ rs [] s a fast_answers Hrs I Hh) as (s' & E & _ & Hh').
    exists s'. split; [|done]. by apply (fast_chunking chunks (request_line <$> rs)).
Qed.
End answers.

(** * The programs' requests *)

Lemma dec_digits_length fuel n k : n < 10 ^ Z.of_nat (S k) → (length (dec_digits fuel n) ≤ S k)%nat.
Proof.
  revert n k. induction fuel as [|fuel IH]; intros n k Hn; cbn [dec_digits]; [cbn; lia|].
  destruct (Z.ltb_spec n 10); [cbn; lia|]. destruct k as [|k]; [cbn in Hn; lia|].
  rewrite length_app. cbn [length]. assert (length (dec_digits fuel (n / 10)) ≤ S k)%nat; [|lia].
  apply IH. apply Z.div_lt_upper_bound; [lia|]. rewrite <- Z.pow_succ_r, <- Nat2Z.inj_succ by lia. done.
Qed.

(** A counter: digits, at most twenty of them. *)
Definition counter_ok (key : Z) : Prop := 0 ≤ key < 2 ^ 64.

Lemma display_counter key :
  counter_ok key → (length (display_u key) ≤ 20)%nat ∧ display_u key ≠ [] ∧ no_ws (display_u key) ∧
    Forall (λ b, bval b < 128) (display_u key) ∧ (LF ∉ display_u key).
Proof.
  intros [H0 H1]. pose proof (display_u_digits key H0) as Hd. split_and!.
  - apply dec_digits_length. change (10 ^ Z.of_nat 20) with 100000000000000000000. lia.
  - destruct (display_u_cons key) as (b & l & ->). done.
  - eapply Forall_impl; [exact Hd|]. intros b Hb. unfold is_ascii_digit in Hb. apply andb_true_iff in Hb as [Hb1 Hb2].
    apply Z.leb_le in Hb1, Hb2. apply not_true_iff_false. intros Hw. unfold is_whitespace in Hw.
    rewrite !orb_true_iff, !byte_eqb_eq in Hw. destruct Hw as [[[->| ->]| ->]| ->]; vm_compute in Hb1, Hb2; done.
  - eapply Forall_impl; [exact Hd|]. intros b Hb. unfold is_ascii_digit in Hb. apply andb_true_iff in Hb as [_ Hb].
    apply Z.leb_le in Hb. cbn beta. lia.
  - by apply digits_no_lf.
Qed.

(** What precedes the counter in a key or a value. *)
Definition prefix_ok (p : bytes) : bool :=
  negb (is_empty p) && (length p <=? 44)%nat &&
  forallb (λ b, negb (is_whitespace b) && (bval b <? 128)) p.

Lemma prefix_counter p key : prefix_ok p = true → counter_ok key → word (p ++ display_u key) ∧ clean (p ++ display_u key).
Proof.
  unfold prefix_ok. rewrite !andb_true_iff, forallb_forall. intros [[Hne Hlen%Nat.leb_le] Hp] Hk.
  destruct (display_counter key Hk) as (Hl & Hne' & Hws & Hb & Hlf).
  assert (∀ b, b ∈ p → is_whitespace b = false ∧ bval b < 128) as Hp'.
  { intros b Hb'%list_elem_of_In%Hp. apply andb_true_iff in Hb' as [H1 H2]. split; [by apply negb_true_iff | by apply Z.ltb_lt]. }
  split; [split|split_and!].
  - destruct p; [by cbn in Hne | done].
  - apply Forall_app. split; [|done]. apply Forall_forall. intros b Hb'. by apply Hp'.
  - rewrite length_app. lia.
  - rewrite not_elem_of_app. split; [|done]. intros Hin. by apply Hp' in Hin as [Hin _].
  - apply Forall_app. split; [|done]. apply Forall_forall. intros b Hb'. by apply Hp'.
Qed.

Definition set_request (p q : bytes) (key : Z) : Request := ReqSet (p ++ display_u key) (q ++ display_u key).
Definition get_request (p : bytes) (key : Z) : Request := ReqGet (p ++ display_u key).

Lemma set_request_ok p q key :
  prefix_ok p = true → prefix_ok q = true → counter_ok key → request_ok (set_request p q key).
Proof.
  intros Hp Hq Hk. destruct (prefix_counter p key Hp Hk) as [? _]. by destruct (prefix_counter q key Hq Hk).
Qed.

Lemma get_request_ok p key : prefix_ok p = true → counter_ok key → request_ok (get_request p key).
Proof. intros Hp Hk. by destruct (prefix_counter p key Hp Hk) as [? _]. Qed.

(** The clients of the programs that wait for lines: their commands and the requests meant. *)
Inductive Workload : Type :=
| Saturation (op : bytes)
| MixedWrite
| MixedRead (n_keys : Z)
| Pipe (op : bytes)
| PipeWrite
| PipeRead (n_keys : Z).

Definition workload_ok (w : Workload) : Prop :=
  match w with
  | Saturation op | Pipe op => known_op op
  | MixedRead n | PipeRead n => 0 < n < 2 ^ 64
  | _ => True
  end.

Definition workload_cmd (w : Workload) : Z → outcome (bytes * Z) :=
  match w with
  | Saturation op => saturation_cmd op
  | MixedWrite => writer_cmd
  | MixedRead n => reader_cmd n
  | Pipe op => pipe_cmd op
  | PipeWrite => pw_cmd
  | PipeRead n => pp_cmd n
  end.

Definition workload_request (w : Workload) (key : Z) : Request :=
  match w with
  | Saturation op =>
      if bool_decide (op = str "SET") then set_request (str "sat:") (str "val:") key
      else get_request (str "sat:") (key mod 1000)
  | MixedWrite => set_request (str "w:") (str "v:") key
  | MixedRead n => get_request (str "p:") (key mod n)
  | Pipe op =>
      if bool_decide (op = str "SET") then set_request (str "pipe:") (str "val:") key
      else get_request (str "pipe:") (key mod 1000)
  | PipeWrite => set_request (str "pw:") (str "v:") key
  | PipeRead n => get_request (str "pp:") (key mod n)
  end.

Definition workload_text (w : Workload) (key : Z) : bytes := ended (request_line (workload_request w key)).

(** Every command a program sends is a request it means. *)
Lemma workload_cmd_text w key :
  workload_ok w → workload_cmd w key = Val (workload_text w key, u64 (key + 1)).
Proof.
  intros Hw. destruct w as [op| |n|op| |n]; unfold workload_text; cbn in Hw;
    try (destruct Hw as [-> | ->]); cbn [workload_cmd workload_request];
    unfold saturation_cmd, pipe_cmd, writer_cmd, pw_cmd, reader_cmd, pp_cmd;
    rewrite ?bool_decide_eq_true_2, ?(bool_decide_eq_false_2 (str "GET" = str "SET")), ?bool_decide_eq_true_2,
      ?(proj2 (Z.eqb_neq n 0)) by (done || lia);
    f_equal; f_equal; unfold ended; cbn; by rewrite <- ?app_assoc.
Qed.

Lemma workload_request_ok w key : workload_ok w → counter_ok key → request_ok (workload_request w key).
Proof.
  intros Hw Hk.
  assert (∀ n, 0 < n < 2 ^ 64 → counter_ok (key mod n)) as Hmod.
  { intros n Hn. pose proof (Z.mod_pos_bound key n). split; lia. }
  assert (counter_ok (key mod 1000)) as H1000 by (apply Hmod; lia).
  destruct w as [op| |n|op| |n]; cbn in Hw; try (destruct Hw as [-> | ->]); cbn [workload_request];
    rewrite ?bool_decide_eq_true_2, ?bool_decide_eq_false_2 by done;
    by first [apply set_request_ok | apply get_request_ok]; try done; apply Hmod.
Qed.

Lemma key_seq_ok n key : counter_ok key → Forall counter_ok (key_seq n key) ∧ length (key_seq n key) = n.
Proof.
  revert key. induction n as [|n IH]; intros key Hk; [done|]. cbn [key_seq length].
  destruct (IH (u64 (key + 1))) as [H1 H2]; [apply Z.mod_pos_bound; lia|]. split; [by constructor | by rewrite H2].
Qed.

Lemma request_length r :
  length (ended (request_line r)) =
  match r with ReqSet k v => 7 + length k + length v | ReqGet k => 6 + length k end%nat.
Proof.
  destruct r as [k v|k]; unfold ended; cbn [request_line unwords]; rewrite !length_app; cbn;
    rewrite ?length_app; cbn; lia.
Qed.

Lemma workload_length w key : workload_ok w → counter_ok key → (length (workload_text w key) ≤ 60)%nat.
Proof.
  intros Hw Hk. unfold workload_text.
  assert (∀ n, 0 < n < 2 ^ 64 → (length (display_u (key mod n)) ≤ 20)%nat) as Hmod.
  { intros n Hn. apply display_counter. pose proof (Z.mod_pos_bound key n). split; lia. }
  assert (length (display_u key) ≤ 20)%nat by (by apply display_counter).
  assert (length (display_u (key mod 1000)) ≤ 20)%nat by (apply Hmod; lia).
  destruct w as [op| |n|op| |n]; cbn in Hw; cbn [workload_request];
    try (destruct Hw as [-> | ->]; rewrite ?bool_decide_eq_true_2, ?bool_decide_eq_false_2 by done);
    try (pose proof (Hmod n Hw)); unfold set_request, get_request; rewrite request_length, !length_app;
    repeat match goal with |- context [length (str ?x)] =>
      let n := eval vm_compute in (length (str x)) in change (length (str x)) with n end; lia.
Qed.

(** The data after a round. *)
Definition workload_data (w : Workload) (n : nat) (key : Z) (a : gmap bytes bytes) : gmap bytes bytes :=
  foldl (λ a r, request_effect r a) a (workload_request w <$> key_seq n key).

Section rounds.
Context {M : Type} {DM : DashMap bytes ValueEntry M} {CL : Clock} {IT : Itoa} {MC : Memchr}.

(** C29: a round of a load generator and the server fit together.  Each client that reads lines writes
    the text of its next request; [n] of these in a row, cut by the network in any way, are all
    parsed as the requests meant and run in order, on the fast path and on the full one; the
    answer is [n] lines, so the client's next [n] [read_line]s, and the loop of [pipeline_quick] that counts newlines, read all of it and
    nothing after it, however it is cut; and the stored values stay such that the next round goes
    the same way. *)
Theorem bench_round (full : bool) w n key chunks (s : SWorld (M := M)) a :
  workload_ok w → counter_ok key → Z.of_nat n ≤ 15000 → aof s = None → holds (sw s) a → clean_data a →
  mjoin chunks = request_bytes (workload_text w) n key → ([] ∉ chunks) →
  (∀ j, workload_cmd w j = Val (workload_text w j, u64 (j + 1))) ∧
  ∃ out s', session_loop (path_of full).1 (path_of full).2 (arriving chunks) [] [] [] s = (Val out, s') ∧
    holds (sw s') (workload_data w n key a) ∧ clean_data (workload_data w n key a) ∧
    (∀ p c, good (out ++ p) c →
       ∃ l u, read_phase n c = (Val true, set_input l u c) ∧ good p (set_input l u c)) ∧
    ∀ cap ds rest c, (0 < cap)%nat → mjoin ds = out → ([] ∉ ds) → arrivals c = (Data <$> ds) ++ rest →
      read_responses cap n 0 c = (Val (true, 0%nat), set_input rest (unread c) c).
Proof.
  intros Hw Hk Hn Haof Hh Ha Hch Hne. split; [intros j; by apply workload_cmd_text|]. destruct (key_seq_ok n key Hk) as [Hks Hlen].
  set (rs := workload_request w <$> key_seq n key).
  assert (length rs = n) as Hrs by (unfold rs; by rewrite length_fmap).
  assert (Forall request_ok rs) as Hok.
  { apply Forall_fmap. eapply Forall_impl; [exact Hks|]. intros k Hk'. by apply workload_request_ok. }
  assert (request_bytes (workload_text w) n key = mjoin (ended <$> (request_line <$> rs))) as Etext.
  { unfold request_bytes, rs, workload_text. f_equal. rewrite <- !list_fmap_compose. done. }
  assert (length (request_bytes (workload_text w) n key) ≤ 60 * n)%nat as Hsize.
  { unfold request_bytes. rewrite <- Hlen at 2. clear -Hks Hw. induction Hks as [|k ks Hk _ IH]; [cbn; lia|].
    cbn [fmap list_fmap length]. change (mjoin (?x :: ?l)) with (x ++ mjoin l). rewrite length_app.
    pose proof (workload_length w k Hw Hk). lia. }
  destruct (session_answers full rs chunks s a) as (s' & E & Hh'); try done.
  { by rewrite Hch. }
  { rewrite <- Etext. unfold MAX_READ_BUF. lia. }
  { rewrite Hrs. unfold MAX_WRITE_BUF. lia. }
  destruct (replies_to_lines rs a Hok Ha) as [Hlines _].
  pose proof (length_replies_to rs a) as Hl. rewrite Hrs in Hl.
  exists (mjoin (replies_to rs a)), s'. split_and!; [done | done | | |].
  - unfold workload_data. fold rs. clear -Hok Ha. revert a Ha. induction Hok as [|r rs Hr _ IH]; intros a Ha; [done|].
    apply IH. by apply clean_effect.
  - intros p c Hc. rewrite <- Hl. by apply read_phase_good.
  - intros cap ds rest c Hcap Eds Hds Hc. apply read_responses_good with (ds := ds); try done. split_and!; [done|..]; rewrite Eds.
    + by apply lines_whole.
    + by rewrite newlines_lines.
Qed.
End rounds.

(** * What is reported *)

Definition sum_to (n : nat) (f : nat → Z) : Z := total (f <$> seq 0 n).

Lemma total_nonneg ns : Forall (λ n, 0 ≤ n) ns → 0 ≤ total ns.
Proof. unfold total. induction 1; cbn; lia. Qed.

Lemma sum_to_ge n f i : (∀ j, 0 ≤ f j) → (i < n)%nat → f i ≤ sum_to n f.
Proof.
  intros Hf Hi. unfold sum_to. assert (i ∈ seq 0 n) as Hin by (apply elem_of_seq; lia). revert Hin.
  generalize (seq 0 n) as l. intros l. induction l as [|j l IH]; [by intros ?%elem_of_nil|].
  pose proof (total_nonneg (f <$> l)) as Hl. rewrite Forall_fmap in Hl.
  assert (0 ≤ total (f <$> l)) by (apply Hl, Forall_forall; intros; apply Hf).
  change (total (f <$> j :: l)) with (f j + total (f <$> l)). intros [->|Hin%IH]%elem_of_cons; [lia|].
  specialize (Hf j). lia.
Qed.

Lemma counter_total ns : Forall (λ n, 0 ≤ n) ns → total ns < 2 ^ 64 → counter ns = total ns.
Proof.
  intros Hns. unfold counter.
  assert (∀ t, 0 ≤ t → t + total ns < 2 ^ 64 → foldl (λ t n, u64 (t + n)) t ns = t + total ns) as H.
  { induction Hns as [|n ns Hn Hns IH]; intros t Ht Hlt; cbn in *; [lia|].
    pose proof (total_nonneg ns Hns). fold (total ns) in *.
    unfold u64 at 2. rewrite (Z.mod_small (t + n)) by lia. rewrite IH by lia. lia. }
  intros Hlt. rewrite H; lia.
Qed.

Lemma total_app l k : total (l ++ k) = total l + total k.
Proof. unfold total. induction l as [|x l IH]; cbn; [done|]. rewrite IH. lia. Qed.

(** Clients that all end, with what each adds. *)
Lemma joined_counts n client socks (t : nat → Z) :
  (∀ i, (i < n)%nat → ∃ ns, run_task (client i) (socks i) = (Val tt, ns) ∧ Forall (λ n, 0 ≤ n) ns ∧ total ns = t i) →
  sum_to n t < 2 ^ 64 → joined (spawned n client socks) = Val (sum_to n t).
Proof.
  intros Hrun Hlt.
  assert (∀ l, Forall (λ i, (i < n)%nat) l →
    let rs := (λ i, run_task (client i) (socks i)) <$> l in
    existsb waits rs = false ∧ Forall (λ n, 0 ≤ n) (rs ≫= snd) ∧ total (rs ≫= snd) = total (t <$> l)) as H.
  { induction 1 as [|i l Hi _ IH]; [done|]. cbn [fmap list_fmap]. destruct IH as (H1 & H2 & H3).
    destruct (Hrun i Hi) as (ns & E & Hns & Ht). rewrite E. cbn [existsb waits fst]. split_and!; [done| |].
    - cbn. apply Forall_app. split; done.
    - cbn. change (?x :: ?l) with ([x] ++ l). rewrite total_app. cbn. rewrite <- Ht. f_equal. exact H3. }
  destruct (H (seq 0 n)) as (H1 & H2 & H3).
  { apply Forall_forall. intros i Hi%elem_of_seq. lia. }
  unfold joined, spawned. rewrite H1, counter_total by (done || by rewrite H3). f_equal. exact H3.
Qed.

Lemma round_adds_nonneg unit step n count : 0 < unit → Forall (λ n, 0 ≤ n) (round_adds unit step n count).
Proof.
  intros Hu. revert count. induction n as [|n IH]; intros count; cbn [round_adds].
  - constructor; [|done]. by apply Z.mod_pos_bound.
  - apply Forall_app. split; [|apply IH]. case_match; repeat constructor. lia.
Qed.

(** A new connection on which [turns] rounds of [pipe] reply lines are to arrive. *)
Definition lines_ready (pipe turns : nat) (o : option Sock) : Prop :=
  ∃ s rss, o = Some s ∧ adds s = [] ∧ length rss = turns ∧
    Forall (λ rs, length rs = pipe ∧ Forall reply_line rs) rss ∧ good (mjoin (mjoin rss)) s.

Lemma lines_ready_one turns o :
  lines_ready 1 turns o →
  ∃ s rs, o = Some s ∧ adds s = [] ∧ length rs = turns ∧ Forall reply_line rs ∧ good (mjoin rs ++ []) s.
Proof.
  intros (s & rss & -> & Ha & Hl & Hrss & Hg). exists s, (mjoin rss). rewrite app_nil_r. split_and!; try done.
  - rewrite <- Hl. clear -Hrss. induction Hrss as [|rs rss [Hr _] _ IH]; [done|].
    change (mjoin (rs :: rss)) with (rs ++ mjoin rss). rewrite length_app, Hr, IH. done.
  - clear -Hrss. induction Hrss as [|rs rss [_ Hr] _ IH]; [done|]. by apply Forall_app.
Qed.

(** A new connection on which the replies of [turns] rounds of [n] lines are to arrive in pieces. *)
Definition pieces_ready (n turns : nat) (o : option Sock) : Prop :=
  ∃ s dss, o = Some s ∧ adds s = [] ∧ length dss = turns ∧ Forall (round_pieces n) dss ∧ quick_good dss s.

(** A client that came to its end reports its rounds, if they divide the unit. *)
Lemma task_reports unit step n client c c' :
  client c = (Val tt, c') → adds c = [] → adds c' = adds c ++ round_adds unit step n 0 →
  0 < step → 0 < unit → (step | unit) → Z.of_nat n * step < 2 ^ 64 →
  ∃ ns, run_task client (Some c) = (Val tt, ns) ∧ Forall (λ n, 0 ≤ n) ns ∧ total ns = Z.of_nat n * step.
Proof.
  intros E Ha Ha' Hs Hu Hd Hlt. exists (round_adds unit step n 0). split_and!.
  - unfold run_task. by rewrite E, Ha', Ha.
  - by apply round_adds_nonneg.
  - rewrite round_adds_total by (done || lia || by exists 0). rewrite Z.mod_0_l; lia.
Qed.

Lemma pipeline_sizes pipe : pipe ∈ pipeline_plan.*1 → 0 < Z.of_nat pipe ∧ (Z.of_nat pipe | 10000).
Proof.
  intros Hin%list_elem_of_In.
  assert (forallb (λ p, (0 <? Z.of_nat p) && (10000 mod Z.of_nat p =? 0)) pipeline_plan.*1 = true) as H
    by (by vm_compute).
  rewrite forallb_forall in H. apply H, andb_true_iff in Hin as [H1%Z.ltb_lt H2%Z.eqb_eq].
  split; [done|]. apply Z.mod_divide; lia.
Qed.

(** C31: the load generators report what was done.  When every client is answered, the operations
    printed are the sum of what the clients ran: for [saturation], for [pipeline] with each of its
    pipeline sizes, and for [pipeline_quick] as long as four times the size divides 10000. *)
Theorem bench_reports {IT : Itoa} clients op turns socks elapsed :
  known_op op →
  ((∀ i, (i < clients)%nat → lines_ready 1 (turns i) (socks i)) →
   sum_to clients (λ i, Z.of_nat (turns i)) < 2 ^ 64 →
   saturation_bench clients op turns socks elapsed =
   let ops := sum_to clients (λ i, Z.of_nat (turns i)) in Val (ops, per_second ops elapsed)) ∧
  (∀ pipe, pipe ∈ pipeline_plan.*1 → (∀ i, (i < clients)%nat → lines_ready pipe (turns i) (socks i)) →
   sum_to clients (λ i, Z.of_nat (turns i) * Z.of_nat pipe) < 2 ^ 64 →
   pipeline_bench clients pipe op turns socks elapsed =
   let ops := sum_to clients (λ i, Z.of_nat (turns i) * Z.of_nat pipe) in Val (ops, per_second ops elapsed)) ∧
  ∀ size, (0 < size)%nat → (Z.of_nat (size * 4) | 10000) →
   (∀ i, (i < clients)%nat → pieces_ready (size * 4) (turns i) (socks i)) →
   sum_to clients (λ i, Z.of_nat (turns i) * Z.of_nat (size * 4)) < 2 ^ 64 →
   quick_pipeline_bench clients size op turns socks elapsed =
   let ops := sum_to clients (λ i, Z.of_nat (turns i) * Z.of_nat (size * 4)) in Val (ops, per_second ops elapsed).
Proof.
  intros Hop. split_and!.
  - intros Hs Hlt. unfold saturation_bench. rewrite (joined_counts _ _ _ (λ i, Z.of_nat (turns i))); [done| |done].
    intros i Hi. destruct (lines_ready_one _ _ (Hs i Hi)) as (c & rs & -> & Ha & Hl & Hrs & Hg).
    destruct (request_loop_good _ _ (λ k, workload_cmd_text (Saturation op) k Hop) 1000 rs 0
      (u64 (Z.of_nat i * 1000000)) [] c Hrs Hg) as (c' & E & _ & _ & Had).
    rewrite Hl in *. rewrite <- (Z.mul_1_r (Z.of_nat (turns i))). eapply task_reports; try done; [by exists 1000|].
    pose proof (sum_to_ge clients (λ i, Z.of_nat (turns i)) i ltac:(intros; cbn beta; lia) Hi) as Hge. cbn beta in Hge. lia.
  - intros pipe Hpipe Hs Hlt. destruct (pipeline_sizes pipe Hpipe) as [Hpos Hdiv]. unfold pipeline_bench.
    rewrite (joined_counts _ _ _ (λ i, Z.of_nat (turns i) * Z.of_nat pipe)); [done| |done].
    intros i Hi. destruct (Hs i Hi) as (c & rss & -> & Ha & Hl & Hrss & Hg). rewrite <- (app_nil_r (mjoin _)) in Hg.
    destruct (pipeline_loop_good _ _ (λ k, workload_cmd_text (Pipe op) k Hop) pipe rss 0
      (u64 (Z.of_nat i * 1000000)) [] c Hrss Hg) as (c' & E & _ & _ & Had).
    rewrite Hl in *. eapply task_reports; try done.
    pose proof (sum_to_ge clients (λ i, Z.of_nat (turns i) * Z.of_nat pipe) i ltac:(intros; cbn beta; nia) Hi) as Hge. cbn beta in Hge. lia.
  - intros size Hsz Hdiv Hs Hlt. unfold quick_pipeline_bench.
    rewrite (joined_counts _ _ _ (λ i, Z.of_nat (turns i) * Z.of_nat (size * 4))); [done| |done].
    intros i Hi. destruct (Hs i Hi) as (c & dss & -> & Ha & Hl & Hdss & Hg).
    destruct (quick_loop_good op size dss 0 (u64 (Z.of_nat i * 1000000)) c) as (c' & E & _ & _ & Had); try done.
    { apply Z.mod_pos_bound. lia. }
    rewrite Hl in *. eapply task_reports; try done; [lia|].
    pose proof (sum_to_ge clients (λ i, Z.of_nat (turns i) * Z.of_nat (size * 4)) i ltac:(intros; cbn beta; nia) Hi) as Hge. cbn beta in Hge. lia.
Qed.

(** ** Where they do not *)

Lemma no_unit j k : 1 ≤ k ≤ 24 → (20000 * j + 800 * k) mod 10000 ≠ 0.
Proof.
  intros Hk E. apply Z.mod_divide in E as [q Hq]; [|lia]. assert (2 * k = 25 * (q - 2 * j)) by lia. lia.
Qed.

(** Rounds of 800 operations meet a multiple of 10000 only at every 20000. *)
Lemma round_adds_800 j i n :
  0 ≤ j → (i ≤ 24)%nat → 20000 * j + 20000 < 2 ^ 64 →
  round_adds 10000 800 (i + n) (20000 * j + 800 * (24 - Z.of_nat i)) =
  round_adds 10000 800 n (20000 * j + 800 * 24).
Proof.
  intros Hj. induction i as [|i IH]; intros Hi Hlt.
  { by rewrite Nat.add_0_l, Z.sub_0_r. }
  cbn [Nat.add round_adds]. rewrite Nat2Z.inj_succ. unfold u64. rewrite (Z.mod_small _ (2 ^ 64)) by lia.
  replace (20000 * j + 800 * (24 - Z.succ (Z.of_nat i)) + 800) with (20000 * j + 800 * (24 - Z.of_nat i)) by lia.
  rewrite (proj2 (Z.eqb_neq _ 0)) by (apply no_unit; lia). cbn [app]. apply IH; lia.
Qed.

Lemma round_adds_half m j :
  0 ≤ j → 20000 * (j + Z.of_nat m) + 20000 < 2 ^ 64 →
  total (round_adds 10000 800 (25 * m) (20000 * j)) = 10000 * Z.of_nat m.
Proof.
  revert j. induction m as [|m IH]; intros j Hj Hlt.
  { change (20000 * j mod 10000 + 0 = 0). rewrite Z.add_0_r. apply Z.mod_divide; [lia|]. exists (2 * j). lia. }
  replace (25 * S m)%nat with (24 + S (25 * m))%nat by lia.
  pose proof (round_adds_800 j 24 (S (25 * m)) Hj ltac:(lia) ltac:(lia)) as E.
  replace (20000 * j + 800 * (24 - Z.of_nat 24)) with (20000 * j) in E by lia. rewrite E.
  cbn [round_adds]. unfold u64. rewrite (Z.mod_small _ (2 ^ 64)) by lia.
  replace (20000 * j + 800 * 24 + 800) with (20000 * (j + 1)) by lia.
  assert (20000 * (j + 1) mod 10000 = 0) as -> by (apply Z.mod_divide; [lia|]; exists (2 * (j + 1)); lia).
  cbn [Z.eqb]. rewrite total_app, IH by lia. cbn. lia.
Qed.

(** [pipeline_quick] reports half of what it did with pipelines of 200, one of its scenarios: a
    round is then 800 operations, the count meets a multiple of 10000 only at every 20000, and
    only 10000 are passed on there. *)
Theorem quick_underreports {IT : Itoa} op m s dss :
  known_op op → 20000 * Z.of_nat m + 20000 < 2 ^ 64 → length dss = (25 * m)%nat → adds s = [] →
  Forall (round_pieces 800) dss → quick_good dss s →
  (200%nat ∈ quick_plan.*1) ∧
  ∃ s', quick_client op 200 (λ _, (25 * m)%nat) 0 s = (Val tt, s') ∧
    sent_bytes s' = sent_bytes s ++ request_bytes (pipe_text op) (25 * m * 800) 0 ∧
    counter (adds s') = 10000 * Z.of_nat m.
Proof.
  intros Hop Hlt Hl Ha Hdss Hg. split; [apply (bool_decide_unpack _); by vm_compute|].
  destruct (quick_loop_good op 200 dss 0 0 s) as (s' & E & _ & Hs & Had); try done; [lia|].
  exists s'. unfold quick_client. rewrite Hl in *. change (u64 (Z.of_nat 0 * 1000000)) with 0. split_and!; [done| |].
  - exact Hs.
  - pose proof (round_adds_half m 0 ltac:(lia) ltac:(lia)) as Ht.
    change (20000 * 0) with 0 in Ht. change (Z.of_nat (200 * 4)) with 800 in Had. rewrite Had, Ha. cbn [app].
    rewrite counter_total; [exact Ht | by apply round_adds_nonneg|]. rewrite Ht. lia.
Qed.

(** The end of the stream is not an error to [read_line]: a client whose connection was closed counts
    an operation for every command it still manages to write. *)
Theorem eof_counted cmd text turns count key s :
  (∀ key, cmd key = Val (text key, u64 (key + 1))) → arrivals s = [Eof] → unread s = [] →
  write_results s = [] →
  ∃ s', request_loop cmd 1000 turns count key s = (Val tt, s') ∧
    adds s' = adds s ++ round_adds 1000 1 turns count.
Proof.
  intros Hcmd. revert count key s. induction turns as [|turns IH]; intros count key s Ha Hu Hw; [by eexists|].
  destruct s as [a u w o ad t]. cbn in Ha, Hu, Hw. subst. cbn [request_loop].
  rewrite (st_bind_val (lift_t (cmd key)) _ _ _ _) by (unfold lift_t; by rewrite Hcmd). cbv beta iota.
  rewrite (st_bind_val (sock_write_all _) _ _ true (mkSock [Eof] [] [] (o ++ text key) ad t)) by done. cbn [negb].
  rewrite (st_bind_val sock_flush _ _ true (mkSock [Eof] [] [] (o ++ text key) ad t)) by done. cbn [negb].
  rewrite (st_bind_val read_line _ _ (Some []) (mkSock [Eof] [] [] (o ++ text key) ad t)) by done.
  rewrite (st_bind_val _ _ _ _ _ (count_step_run _ _ _)).
  edestruct (IH (u64 (count + 1)) (u64 (key + 1))) as (s' & E & Had); [..|exists s'; split; [exact E|]]; try done.
  rewrite Had. cbn [adds round_adds]. by rewrite <- app_assoc.
Qed.

(** An I/O error makes a pipelined client return without passing on what it counted since the last
    multiple of 10000. *)
Theorem pipeline_error_loses :
  ∃ s s', pipeline_client (str "SET") 1 (λ _, 2%nat) 0 s = (Val tt, s') ∧
    sent_bytes s' = request_bytes (pipe_text (str "SET")) 2 0 ∧
    arrivals s = [Data (str "+OK" ++ crlf); ReadErr] ∧ adds s' = [].
Proof.
  exists (mkSock [Data (str "+OK" ++ crlf); ReadErr] [] [] [] [] 0). eexists.
  split; [by vm_compute | split_and!; by vm_compute].
Qed.

(** [pipeline]'s reads use other keys than those written for them. *)
Theorem pipeline_reads_elsewhere key j k v :
  workload_request (Pipe (str "GET")) key = ReqGet k → set_request (str "pp:") (str "val:") j ≠ ReqSet k v.
Proof. cbn. by intros [= <-] [= ]. Qed.

(** * Percentiles *)

Section percentiles.
Implicit Types (l : list Duration).

(** The position the program takes, for its numbers of operations. *)
Lemma percentile_index n p :
  n ∈ [100; 1000; 10000] → p ∈ [50; 95; 99] →
  floor_usize (f64_mul (f64_div (f64_of p) (f64_of 100)) (f64_of n)) = n * p / 100 ∧
  0 ≤ n * p / 100 < n ∧ n < 2 ^ 64.
Proof.
  intros Hn Hp. set_unfold. destruct_or!; subst; (split; [by vm_compute | split_and!; by vm_compute]).
Qed.

Definition at_most (x : Duration) l : nat := length (filter (λ y, y ≤ x) l).
Definition at_least (x : Duration) l : nat := length (filter (λ y, x ≤ y) l).

Lemma sorted_lookup l k x :
  StronglySorted Z.le l → l !! k = Some x → (k < at_most x l)%nat ∧ (length l - k ≤ at_least x l)%nat.
Proof.
  intros Hs Hk. unfold at_most, at_least. revert k Hk. induction Hs as [|y l Hs IH Hy]; [done|]. intros [|k] Hk.
  - injection Hk as ->. rewrite !filter_cons_True by lia. cbn [length].
    assert (filter (λ z, x ≤ z) l = l) as -> by (by apply filter_Forall_id). lia.
  - cbn in Hk. destruct (IH k Hk) as [H1 H2].
    assert (y ≤ x) by (eapply Forall_forall; [done|]; by eapply list_elem_of_lookup_2).
    rewrite filter_cons_True by lia. cbn [length]. split; [lia|].
    rewrite filter_cons. case_decide; cbn [length]; lia.
Qed.

(** Only the empty list makes it panic, whatever the percentile. *)
Theorem percentile_total l q : Z.of_nat (length l) < 2 ^ 64 → percentile l q = Panic ↔ l = [].
Proof.
  intros Hl. pose proof (merge_sort_Permutation Z.le l) as Hperm. unfold percentile.
  rewrite (Permutation_length Hperm). set (idx := floor_usize _).
  destruct l as [|y l]; [by vm_compute (merge_sort _ _)|]. split; [|done].
  unfold usize. rewrite Z.mod_small by (cbn [length] in *; lia).
  destruct (lookup_lt_is_Some_2 (merge_sort Z.le (y :: l)) (Z.to_nat (Z.min idx (Z.of_nat (length (y :: l)) - 1))))
    as [x ->]; [rewrite (Permutation_length Hperm); cbn [length]; lia | done].
Qed.

(** [percentile] gives the latency [bench] means, at the numbers of operations it is run with: of
    [n] latencies, more than [n * p / 100] are at most the result and the rest of them at least, so it
    is the nearest rank above the [p]th percentile; the index computed in floating point is exact. *)
Theorem percentile_rank l p :
  Z.of_nat (length l) ∈ [100; 1000; 10000] → p ∈ [50; 95; 99] →
  let k := Z.to_nat (Z.of_nat (length l) * p / 100) in
  ∃ x, percentile l (f64_of p) = Val x ∧ x ∈ l ∧ (k < at_most x l)%nat ∧ (length l - k ≤ at_least x l)%nat.
Proof.
  intros Hn Hp. destruct (percentile_index _ _ Hn Hp) as (Hi & Hlt & Hmax). set (k := Z.to_nat _). cbn zeta.
  pose proof (merge_sort_Permutation Z.le l) as Hperm. pose proof (StronglySorted_merge_sort Z.le l) as Hsort.
  assert (k < length l)%nat as Hk by lia.
  rewrite <- (Permutation_length Hperm) in Hk. destruct (lookup_lt_is_Some_2 _ _ Hk) as [x Hx].
  exists x. destruct (sorted_lookup _ _ _ Hsort Hx) as [H1 H2]. split_and!.
  - unfold percentile. rewrite (Permutation_length Hperm) in *. rewrite Hi.
    unfold usize. rewrite Z.mod_small, Z.min_l by lia.
    fold k. by rewrite Hx.
  - rewrite <- Hperm. by eapply list_elem_of_lookup_2.
  - unfold at_most in *. by rewrite <- Hperm.
  - unfold at_least in *. rewrite (Permutation_length Hperm) in H2. by rewrite Hperm in H2.
Qed.
End percentiles.

(** * Witnesses *)

Section witnesses.
#[local] Existing Instances gmap_dashmap ms_clock itoa_display memchr_scan.

Lemma bench_round_witness :
  ∃ out s', session_loop false fast_batch (arriving [str "SET pipe:7 val:"; str "7" ++ crlf]) [] [] [] wit_conn =
    (Val out, s') ∧ holds (sw s') {[str "pipe:7" := str "val:7"]}.
Proof.
  destruct (bench_round false (Pipe (str "SET")) 1 7 [str "SET pipe:7 val:"; str "7" ++ crlf] wit_conn ∅)
    as (_ & out & s' & E & Hh & _).
  - by left.
  - by split.
  - by vm_compute.
  - done.
  - done.
  - done.
  - by vm_compute.
  - apply (bool_decide_unpack _). by vm_compute.
  - exists out, s'. split; [exact E | exact Hh].
Defined.

Lemma ok_line : reply_line (str "+OK" ++ crlf).
Proof.
  exists (str "+OK" ++ [CR]). split_and!; [reflexivity | apply (bool_decide_unpack _); by vm_compute..].
Qed.

(** One client, answered twice. *)
Definition wit_sock : Sock := mkSock [Data (str "+OK"); Data (crlf ++ str "+OK" ++ crlf)] [] [] [] [] 0.

Lemma bench_reports_witness :
  saturation_bench 1 (str "SET") (λ _, 2%nat) (λ _, Some wit_sock) (10 ^ 9) = Val (2, f64_of 2) ∧
  pipeline_bench 1 1 (str "SET") (λ _, 2%nat) (λ _, Some wit_sock) (10 ^ 9) = Val (2, f64_of 2).
Proof.
  destruct (bench_reports 1 (str "SET") (λ _, 2%nat) (λ _, Some wit_sock) (10 ^ 9) ltac:(by left)) as (H1 & H2 & _).
  assert (∀ i, (i < 1)%nat → lines_ready 1 2 (Some wit_sock)) as Hr.
  { intros _ _. exists wit_sock, [[str "+OK" ++ crlf]; [str "+OK" ++ crlf]].
    split_and!; [reflexivity.. | repeat constructor; apply ok_line |].
    split; [reflexivity|]. exists [str "+OK"; crlf ++ str "+OK" ++ crlf]. split; reflexivity. }
  split.
  - rewrite (H1 Hr) by reflexivity. by vm_compute.
  - rewrite (H2 1%nat); [by vm_compute | apply (bool_decide_unpack _); by vm_compute | exact Hr | reflexivity].
Defined.

(** The rounds of 800 replies, 25 of them, and what the client reports of its 20000 operations. *)
Definition wit_rounds : list (list bytes) := replicate 25 [mjoin (replicate 800 (str "+OK" ++ crlf))].

Lemma quick_underreports_witness :
  ∃ s', quick_client (str "SET") 200 (λ _, 25%nat) 0 (mkSock (Data <$> mjoin wit_rounds) [] [] [] [] 0) = (Val tt, s') ∧
    counter (adds s') = 10000.
Proof.
  destruct (quick_underreports (str "SET") 1 (mkSock (Data <$> mjoin wit_rounds) [] [] [] [] 0) wit_rounds)
    as (_ & s' & E & _ & Hc); [by left | lia | reflexivity | reflexivity | | split; reflexivity |].
  - apply Forall_replicate. assert (Forall reply_line (replicate 800 (str "+OK" ++ crlf))) as Hl
      by (apply Forall_replicate, ok_line).
    split_and!.
    + apply (bool_decide_unpack _). by vm_compute.
    + cbn [mjoin list_join]. rewrite app_nil_r. by apply lines_whole.
    + cbn [mjoin list_join]. rewrite app_nil_r. by rewrite (newlines_lines _ Hl).
  - exists s'. split; [exact E | exact Hc].
Defined.

Lemma percentile_rank_witness :
  let l := (λ i, Z.of_nat i * 10) <$> seq 0 100 in
  ∃ x, percentile l (f64_of 95) = Val x ∧ (95 < at_most x l)%nat ∧ (5 ≤ at_least x l)%nat.
Proof.
  set (l := (λ i, Z.of_nat i * 10) <$> seq 0 100).
  destruct (percentile_rank l 95) as (x & E & _ & H1 & H2);
    [apply (bool_decide_unpack _); by vm_compute..|].
  exists x. split; [exact E|]. split; [exact H1 | exact H2].
Defined.
End witnesses.
