(* ===== verification/BenchRedisProps.v ===== *)
(** [redis_compare] against the server: its frames are the encodings of [SET] and [GET] with the
    keys meant, and it reads the replies one by one whatever bytes the values have. *)

From S2P Require Import Prelude RustStd Crates Domain Parser InlineFacts RespFacts ParserProps.
From S2P Require Import ParserBorrowed BorrowedProps Metrics World Engine EngineFacts EvictFacts.
From S2P Require Import StoreSpec EngineProps Response Dispatcher DispatcherProps Aof AofFacts.
From S2P Require Import RestoreFacts AofProps CommandSpec Session SessionProps InlineSession FastInline.
From S2P Require Import Config BenchNet BenchClients BenchPipeline BenchRedis BenchFacts BenchProps.

(** * Replies *)

(** [r] is one reply to the reader: it takes [r] off the stream and nothing else. *)
Definition one_reply (r : bytes) : Prop := ∀ p s,
  good (r ++ p) s → ∃ l u, read_resp_response s = (Val true, set_input l u s) ∧ good p (set_input l u s).

Lemma read_exact_streams x rest l u :
  streams l u (x ++ rest) →
  ∃ l' u', read_exact_from (length x) l u = Val (true, l', u') ∧ streams l' u' rest.
Proof.
  intros (ds & -> & E). revert u E. induction ds as [|d ds IH]; intros u E; cbn [fmap list_fmap read_exact_from].
  - rewrite app_nil_r in E. subst u. rewrite length_app, (proj2 (Nat.leb_le _ _)), drop_app_length by lia.
    do 2 eexists. split; [done|]. exists []. by rewrite app_nil_r.
  - change (mjoin (d :: ds)) with (d ++ mjoin ds) in E. destruct (Nat.leb_spec (length x) (length u)) as [Hle|Hlt].
    + do 2 eexists. split; [done|]. exists (d :: ds). split; [done|].
      rewrite <- drop_app_le by done. change (mjoin (d :: ds)) with (d ++ mjoin ds).
      by rewrite E, drop_app_length.
    + apply IH. by rewrite <- app_assoc.
Qed.

Lemma good_read_exact x p s :
  good (x ++ p) s →
  ∃ l u, read_exact (length x) s = (Val true, set_input l u s) ∧ good p (set_input l u s).
Proof.
  intros [Hw Hs]. destruct (read_exact_streams _ _ _ _ Hs) as (l & u & E & Hs').
  exists l, u. unfold read_exact. by rewrite E.
Qed.

Lemma trim_eol_crlf l : (CR ∉ l) → (LF ∉ l) → trim_eol (l ++ crlf) = l.
Proof.
  induction l as [|b l IH]; intros Hcr Hlf; [done|]. apply not_elem_of_cons in Hcr as [Hb1 Hcr], Hlf as [Hb2 Hlf].
  cbn [app trim_eol]. rewrite IH by done. destruct l; [|done].
  by rewrite !(proj2 (byte_eqb_neq _ _)) by congruence.
Qed.

(** A line that does not start with a dollar sign *)
Lemma line_reply b l : Byte.eqb b Byte.x24 = false → reply_line (b :: l) → one_reply (b :: l).
Proof.
  intros Hb Hl p s Hs. destruct (good_read_line p (b :: l) s Hs Hl) as (l' & u & E & Hg).
  exists l', u. split; [|done]. unfold read_resp_response. rewrite (st_bind_val _ _ _ _ _ E). by rewrite Hb.
Qed.

(** The length line of a bulk string *)
Lemma length_line n :
  in_i64 n → reply_line (str "$" ++ display_i n ++ crlf) ∧ trim_eol (display_i n ++ crlf) = display_i n.
Proof.
  intros Hn.
  assert (∃ ds, (display_i n = ds ∨ display_i n = Byte.x2d :: ds) ∧ Forall (λ b, is_ascii_digit b = true) ds)
    as (ds & Hds & Hd).
  { unfold display_i. destruct (Z.ltb_spec n 0).
    - exists (display_u (- n)). split; [by right | apply display_u_digits; lia].
    - exists (display_u n). split; [by left | by apply display_u_digits]. }
  destruct (digits_no_lf ds Hd) as [Hlf Hcr].
  assert (Forall (λ b, bval b < 128) ds) as Hb.
  { eapply Forall_impl; [exact Hd|]. intros b Hb. unfold is_ascii_digit in Hb.
    apply andb_true_iff in Hb as [_ Hb%Z.leb_le]. cbn beta. lia. }
  assert ((LF ∉ display_i n) ∧ (CR ∉ display_i n) ∧ Forall (λ b, bval b < 128) (display_i n)) as (H1 & H2 & H3).
  { destruct Hds as [-> | ->]; [done|]. rewrite !not_elem_of_cons. split_and!; try done. by constructor. }
  split; [|by apply trim_eol_crlf].
  exists (str "$" ++ display_i n ++ [CR]). split_and!.
  - by rewrite <- !app_assoc.
  - rewrite !not_elem_of_app. split_and!; [apply (bool_decide_unpack _); by vm_compute | done |].
    apply (bool_decide_unpack _); by vm_compute.
  - repeat (apply Forall_app; split); [by repeat constructor | done | by repeat constructor].
Qed.

Lemma bulk_reply {IT : Itoa} d : Z.of_nat (length d) < 2 ^ 63 → one_reply (bulk_text d).
Proof.
  intros Hd p s Hs. unfold bulk_text, len_text in Hs. rewrite itoa_format_display in Hs.
  destruct (length_line (Z.of_nat (length d))) as [Hl Ht]; [split; lia|].
  rewrite (app_assoc _ crlf (d ++ crlf)), (app_assoc (str "$") _ (d ++ crlf)) in Hs. rewrite <- (app_assoc _ (d ++ crlf)) in Hs.
  destruct (good_read_line _ _ s Hs Hl) as (l1 & u1 & E1 & Hg1).
  destruct (good_read_exact (d ++ crlf) p _ Hg1) as (l2 & u2 & E2 & Hg2).
  exists l2, u2. split; [|done]. unfold read_resp_response. rewrite (st_bind_val _ _ _ _ _ E1).
  change (str "$") with [Byte.x24]. cbn [app]. rewrite byte_eqb_refl, Ht, parse_i64_display by (split; lia).
  rewrite (proj2 (Z.leb_le 0 _)), Nat2Z.id by lia. rewrite length_app in E2. exact E2.
Qed.

Lemma nil_reply : one_reply nil_text.
Proof.
  intros p s Hs. destruct (length_line (-1)) as [Hl Ht]; [done|].
  destruct (good_read_line p (str "$" ++ display_i (-1) ++ crlf) s Hs Hl) as (l & u & E & Hg). exists l, u. split; [|done].
  unfold read_resp_response. rewrite (st_bind_val _ _ _ _ _ E).
  change (str "$") with [Byte.x24]. cbn [app]. by rewrite byte_eqb_refl, Ht, parse_i64_display.
Qed.

Lemma ok_reply : one_reply (str "+OK" ++ crlf).
Proof. apply line_reply; [done | apply ok_line]. Qed.

Lemma read_replies_good rs p s :
  Forall one_reply rs → good (mjoin rs ++ p) s →
  ∃ l u, read_replies (length rs) s = (Val tt, set_input l u s) ∧ good p (set_input l u s).
Proof.
  intros Hrs. revert s. induction Hrs as [|r rs Hr Hrs IH]; intros s Hs.
  { exists (arrivals s), (unread s). by destruct s. }
  change (mjoin (r :: rs)) with (r ++ mjoin rs) in Hs. rewrite <- app_assoc in Hs.
  destruct (Hr _ s Hs) as (l1 & u1 & E1 & Hg1). destruct (IH _ Hg1) as (l2 & u2 & E2 & Hg2).
  exists l2, u2. split; [|done]. cbn [length read_replies].
  rewrite (st_bind_val (unwrapped read_resp_response) _ s tt (set_input l1 u1 s)); [exact E2|].
  unfold unwrapped. by rewrite (st_bind_val _ _ _ _ _ E1).
Qed.

(** * Frames *)

Lemma bench_frame args : bench_resp_frame args = resp_frame args.
Proof.
  unfold bench_resp_frame, resp_frame.
  assert (∀ l buf, foldl (λ buf arg, buf ++ str "$" ++ display_u (Z.of_nat (length arg)) ++ crlf ++ arg ++ crlf) buf l =
    buf ++ mjoin (resp_bulk <$> l)) as Hf.
  { induction l as [|x l IH]; intros buf; [by rewrite app_nil_r|]. cbn [foldl]. rewrite IH.
    change (mjoin (resp_bulk <$> x :: l)) with (resp_bulk x ++ mjoin (resp_bulk <$> l)).
    unfold resp_bulk at 2. by rewrite <- !app_assoc. }
  by rewrite Hf, <- !app_assoc.
Qed.

Definition request_cmd (r : Request) : Command :=
  match r with ReqSet k v => CSet k v None | ReqGet k => CGet k end.

Lemma set_frame k v : resp_set k v = resp_frame (command_args (request_cmd (ReqSet k v))).
Proof. apply bench_frame. Qed.
Lemma get_frame k : resp_get k = resp_frame (command_args (request_cmd (ReqGet k))).
Proof. apply bench_frame. Qed.

Lemma write_key_takes buf key :
  counter_ok key → length buf = 32%nat →
  let k := str "k:" ++ display_u key in
  ∃ buf', write_key buf key = (buf', length k) ∧ length buf' = 32%nat ∧ take (length k) buf' = k ∧
    (length k ≤ 22)%nat.
Proof.
  intros Hk Hb. destruct (display_counter key Hk) as (Hl & _). cbn zeta. unfold write_key.
  set (k := str "k:" ++ display_u key). assert (length k ≤ 22)%nat as Hlen 
    by (subst k; rewrite length_app; change (length (str "k:")) with 2%nat; lia).
  rewrite Hb, Nat.min_l, firstn_all by lia. eexists. split_and!; [done | | by rewrite take_app_length | done].
  rewrite length_app, length_drop. lia.
Qed.

(** The request of a counter. *)
Definition redis_request (op : bytes) (key : Z) : Request :=
  if bool_decide (op = str "SET") then set_request (str "k:") (str "k:") key else get_request (str "k:") key.

Definition redis_text (op : bytes) (key : Z) : bytes := resp_frame (command_args (request_cmd (redis_request op key))).

Lemma next_counter key : counter_ok (u64 (key + 1)).
Proof. apply Z.mod_pos_bound. lia. Qed.

Lemma key_after_ok n key : counter_ok key → counter_ok (key_after n key).
Proof. revert key. induction n as [|n IH]; intros key Hk; [done|]. apply IH, next_counter. Qed.

Lemma redis_batch_text op n key kb vb batch :
  known_op op → counter_ok key → length kb = 32%nat → length vb = 32%nat →
  ∃ kb' vb', redis_batch op n key kb vb batch =
      Val (batch ++ request_bytes (redis_text op) n key, key_after n key, (kb', vb')) ∧
    length kb' = 32%nat ∧ length vb' = 32%nat.
Proof.
  intros Hop. revert key kb vb batch. induction n as [|n IH]; intros key kb vb batch Hk Hkb Hvb.
  { exists kb, vb. cbn. by rewrite app_nil_r. }
  destruct (write_key_takes kb key Hk Hkb) as (kb1 & E1 & Hl1 & Ht1 & Hs1).
  destruct (write_key_takes vb key Hk Hvb) as (vb1 & E2 & Hl2 & Ht2 & _).
  rewrite request_bytes_S, app_assoc. cbn [redis_batch key_after]. rewrite E1.
  destruct Hop as [-> | ->].
  - rewrite bool_decide_eq_true_2 by done. rewrite E2, Ht1, Ht2, set_frame. apply IH; auto using next_counter.
  - rewrite bool_decide_eq_false_2, bool_decide_eq_true_2 by done.
    rewrite Nat.mod_small, Ht1, get_frame by lia. apply IH; auto using next_counter.
Qed.

(** * The client *)

Lemma redis_loop_good op pipe rss count key kb vb p s :
  known_op op → counter_ok key → length kb = 32%nat → length vb = 32%nat →
  Forall (λ rs, length rs = pipe ∧ Forall one_reply rs) rss → good (mjoin (mjoin rss) ++ p) s →
  ∃ s', redis_loop op pipe (length rss) count key kb vb s = (Val tt, s') ∧
    served p s s' (request_bytes (redis_text op) (length rss * pipe) key)
      (round_adds 10000 (Z.of_nat pipe) (length rss) count).
Proof.
  intros Hop Hk Hkb Hvb Hrss. revert count key kb vb s Hk Hkb Hvb.
  induction Hrss as [|rs rss [Hl Hrs] Hrss IH]; intros count key kb vb s Hk Hkb Hvb Hs.
  { cbn. eexists. split; [done|]. by split_and!; rewrite ?app_nil_r. }
  change (mjoin (mjoin (rs :: rss))) with (mjoin (rs ++ mjoin rss)) in Hs. rewrite join_app, <- app_assoc in Hs.
  destruct (redis_batch_text op pipe key kb vb [] Hop Hk Hkb Hvb) as (kb' & vb' & Eb & Hkb' & Hvb').
  cbn [length redis_loop]. rewrite (st_bind_val (lift_t _) _ s _ s) by (unfold lift_t; by rewrite Eb). cbn [app].
  destruct (good_write _ (request_bytes (redis_text op) pipe key) s Hs) as (s1 & E1 & H1 & Hs1 & Ha1).
  rewrite (st_bind_val (unwrapped _) _ _ tt s1) by (unfold unwrapped; by rewrite (st_bind_val _ _ _ _ _ E1)).
  destruct (good_flush _ s1 H1) as (s2 & E2 & H2 & Hs2 & Ha2).
  rewrite (st_bind_val (unwrapped _) _ _ tt s2) by (unfold unwrapped; by rewrite (st_bind_val _ _ _ _ _ E2)).
  destruct (read_replies_good rs _ s2 Hrs H2) as (l & u & E3 & H3). rewrite Hl in E3.
  rewrite (st_bind_val _ _ _ _ _ E3), (st_bind_val _ _ _ _ _ (count_step_run _ _ _)).
  destruct (IH (u64 (count + Z.of_nat pipe)) (key_after pipe key) kb' vb' (mkSock l u (write_results s2) (sent_bytes s2)
      (adds s2 ++ (if u64 (count + Z.of_nat pipe) mod 10000 =? 0 then [10000] else [])) (clock_reads s2)))
    as (s' & E' & Hg & Hse & Had); [ | done.. | |].
  { by apply key_after_ok. }
  { destruct H3. by split. }
  exists s'. split; [exact E'|]. split_and!; [done| |].
  - rewrite Hse. cbn [Nat.mul]. rewrite request_bytes_add. cbn [sent_bytes]. by rewrite Hs2, Hs1, <- app_assoc.
  - rewrite Had. cbn [adds round_adds]. by rewrite Ha2, Ha1, <- app_assoc.
Qed.

(** ** The keys written before the reads *)

Lemma redis_entries l :
  mjoin (redis_entry <$> l) =
  mjoin ((λ i, resp_frame (command_args (CSet (str "k:" ++ display_u (Z.of_nat i)) (str "v:" ++ display_u (Z.of_nat i)) None)))
    <$> l).
Proof. f_equal. apply list_fmap_ext. intros _ i _. unfold redis_entry. by rewrite set_frame. Qed.

Lemma redis_chunk_good idxs rs p s :
  Forall one_reply rs → length rs = length idxs → good (mjoin rs ++ p) s →
  ∃ s', redis_chunk idxs s = (Val tt, s') ∧ served p s s' (mjoin (redis_entry <$> idxs)) [].
Proof.
  intros Hrs Hl Hs. unfold redis_chunk.
  destruct (good_write _ (mjoin (redis_entry <$> idxs)) s Hs) as (s1 & E1 & H1 & Hs1 & Ha1).
  rewrite (st_bind_val (unwrapped _) _ _ tt s1) by (unfold unwrapped; by rewrite (st_bind_val _ _ _ _ _ E1)).
  destruct (good_flush _ s1 H1) as (s2 & E2 & H2 & Hs2 & Ha2).
  rewrite (st_bind_val (unwrapped _) _ _ tt s2) by (unfold unwrapped; by rewrite (st_bind_val _ _ _ _ _ E2)).
  rewrite <- Hl. destruct (read_replies_good rs _ s2 Hrs H2) as (l & u & -> & H3).
  eexists. split; [done|]. split_and!; [done | by cbn; rewrite Hs2, Hs1 | by cbn; rewrite app_nil_r, Ha2, Ha1].
Qed.

(** [prepopulate] ends, having written each of the keys [k:0] to [k:(n-1)] once, in order, and read
    a reply for each. *)
Theorem redis_prepopulates n rs p s :
  Forall one_reply rs → length rs = n → good (mjoin rs ++ p) s →
  ∃ s', redis_prepopulate n s = (Val tt, s') ∧
    served p s s'
      (mjoin ((λ i, resp_frame (command_args
         (CSet (str "k:" ++ display_u (Z.of_nat i)) (str "v:" ++ display_u (Z.of_nat i)) None))) <$> seq 0 n)) [].
Proof.
  unfold redis_prepopulate. rewrite <- redis_entries.
  assert (∀ fuel m idx rs s, (m ≤ fuel)%nat → Forall one_reply rs → length rs = m → good (mjoin rs ++ p) s →
    ∃ s', redis_chunks fuel m idx s = (Val tt, s') ∧ served p s s' (mjoin (redis_entry <$> seq idx m)) []) as H;
    [|intros Hrs Hl Hs; by apply (H n n 0%nat rs s)].
  clear. induction fuel as [|fuel IH]; intros m idx rs s Hm Hrs Hl Hs;
    (destruct m as [|m]; [destruct rs; [|done]; exists s; split; [done|]; by split_and!; rewrite ?app_nil_r|]); [lia|].
  cbn [redis_chunks]. set (chunk := Nat.min (S m) 500).
  rewrite <- (take_drop chunk rs) in Hs, Hrs. apply Forall_app in Hrs as [Hr1 Hr2].
  rewrite join_app, <- app_assoc in Hs.
  destruct (redis_chunk_good (seq idx chunk) _ (mjoin (drop chunk rs) ++ p) s Hr1) as (s1 & E1 & Hg1 & Hs1 & Ha1);
    [rewrite length_take, length_seq; lia | done |].
  rewrite (st_bind_val _ _ _ _ _ E1).
  destruct (IH (S m - chunk)%nat (idx + chunk)%nat (drop chunk rs) s1) as (s' & E' & Hg' & Hs' & Ha'); try done;
    [lia | rewrite length_drop; lia |].
  exists s'. split; [exact E'|]. split_and!; [done | | by rewrite Ha', Ha1, <- app_assoc].
  rewrite Hs', Hs1, <- app_assoc, <- join_app, <- fmap_app, <- seq_app. by replace (chunk + (S m - chunk))%nat with (S m) by lia.
Qed.

Lemma joined_unwrap_joined rs : Forall (λ r, r.1 ≠ Panic) rs → joined_unwrap rs = joined rs.
Proof.
  intros Hrs. unfold joined_unwrap, joined. generalize (Val (counter (rs ≫= snd))) as o. intros o.
  induction Hrs as [|[[u| |] ns] rs Hr _ IH]; try done.
Qed.

Lemma redis_sizes pipe : pipe ∈ redis_plan.*1 → 0 < Z.of_nat pipe ∧ (Z.of_nat pipe | 10000).
Proof.
  intros Hin%list_elem_of_In.
  assert (forallb (λ p, (0 <? Z.of_nat p) && (10000 mod Z.of_nat p =? 0)) redis_plan.*1 = true) as H
    by (by vm_compute).
  rewrite forallb_forall in H. apply H, andb_true_iff in Hin as [H1%Z.ltb_lt H2%Z.eqb_eq].
  split; [done|]. apply Z.mod_divide; lia.
Qed.

(** A new connection on which [turns] rounds of [pipe] replies are to arrive. *)
Definition replies_ready (pipe turns : nat) (o : option Sock) : Prop :=
  ∃ s rss, o = Some s ∧ adds s = [] ∧ length rss = turns ∧
    Forall (λ rs, length rs = pipe ∧ Forall one_reply rs) rss ∧ good (mjoin (mjoin rss)) s.

(** What [redis_compare] reports when its clients are answered. *)
Theorem redis_reports clients pipe op turns socks :
  known_op op → pipe ∈ redis_plan.*1 → (∀ i, (i < clients)%nat → replies_ready pipe (turns i) (socks i)) →
  sum_to clients (λ i, Z.of_nat (turns i) * Z.of_nat pipe) < 2 ^ 64 →
  resp_pipeline_bench clients pipe op turns socks = Val (sum_to clients (λ i, Z.of_nat (turns i) * Z.of_nat pipe)).
Proof.
  intros Hop Hpipe Hs Hlt. destruct (redis_sizes pipe Hpipe) as [Hpos Hdiv].
  assert (∀ i, (i < clients)%nat → ∃ ns, run_task (redis_client op pipe turns i) (socks i) = (Val tt, ns) ∧
    Forall (λ n, 0 ≤ n) ns ∧ total ns = Z.of_nat (turns i) * Z.of_nat pipe) as Hrun.
  { intros i Hi. destruct (Hs i Hi) as (c & rss & -> & Ha & Hl & Hrss & Hg). rewrite <- (app_nil_r (mjoin _)) in Hg.
    destruct (redis_loop_good op pipe rss 0 (u64 (Z.of_nat i * 1000000)) zeros zeros [] c Hop) as (c' & E & _ & _ & Had);
      try done; [apply Z.mod_pos_bound; lia|].
    rewrite Hl in *. eapply task_reports; try done.
    pose proof (sum_to_ge clients (λ i, Z.of_nat (turns i) * Z.of_nat pipe) i ltac:(intros; cbn beta; nia) Hi) as Hge.
    cbn beta in Hge. lia. }
  unfold resp_pipeline_bench. rewrite joined_unwrap_joined.
  - by apply joined_counts.
  - unfold spawned. apply Forall_fmap, Forall_forall. intros i Hi%elem_of_seq. cbn.
    destruct (Hrun i) as (ns & -> & _); [lia | done].
Qed.

(** * The server *)

Section rounds.
Context {M : Type} {DM : DashMap bytes ValueEntry M} {CL : Clock} {IT : Itoa} {MC : Memchr}.
Abbreviation SW := (SWorld (M := M)).
Implicit Types (s : SW) (a : gmap bytes bytes).

Definition resp_reply_to (r : Request) a : bytes :=
  match r with ReqSet _ _ => str "+OK" ++ crlf | ReqGet k => item_text (a !! k) end.
Fixpoint resp_replies_to (rs : list Request) a : list bytes :=
  match rs with [] => [] | r :: rs => resp_reply_to r a :: resp_replies_to rs (request_effect r a) end.

(** Values, and keys, of at most 64 bytes, whatever bytes these are. *)
Definition small_data a : Prop := ∀ k v, a !! k = Some v → (length v ≤ 64)%nat.
Definition small (r : Request) : Prop :=
  match r with ReqSet k v => (length k ≤ 64 ∧ length v ≤ 64)%nat | ReqGet k => (length k ≤ 64)%nat end.

Lemma small_effect r a : small r → small_data a → small_data (request_effect r a).
Proof.
  destruct r as [k v|k]; [|done]. intros [_ Hv] Ha j u. cbn. rewrite lookup_insert_Some.
  intros [[<- <-]|[_ ?]]; [done | by eapply Ha].
Qed.

Lemma resp_reply_one r a : small_data a → one_reply (resp_reply_to r a) ∧ (length (resp_reply_to r a) ≤ 89)%nat.
Proof.
  intros Ha. destruct r as [k v|k]; cbn [resp_reply_to]; [split; [apply ok_reply | cbn; lia]|].
  destruct (a !! k) as [d|] eqn:Hk; cbn [item_text]; [|split; [apply nil_reply | cbn; lia]].
  pose proof (Ha k d Hk) as Hd. split; [apply bulk_reply; lia|].
  unfold bulk_text, len_text. rewrite itoa_format_display, display_i_nonneg by lia.
  destruct (display_counter (Z.of_nat (length d))) as (Hl & _); [split; lia|].
  rewrite !length_app. change (length (str "$")) with 1%nat. change (length crlf) with 2%nat. lia.
Qed.

Lemma length_resp_replies rs a : length (resp_replies_to rs a) = length rs.
Proof. revert a. induction rs as [|r rs IH]; intros a; cbn; [done|]. by rewrite IH. Qed.

Lemma resp_replies_one rs a :
  Forall small rs → small_data a →
  Forall one_reply (resp_replies_to rs a) ∧ (length (mjoin (resp_replies_to rs a)) ≤ 89 * length rs)%nat ∧
  small_data (foldl (λ a r, request_effect r a) a rs).
Proof.
  intros Hrs. revert a. induction Hrs as [|r rs Hr _ IH]; intros a Ha; [split; [constructor|split; [cbn; lia|done]]|].
  destruct (resp_reply_one r a Ha) as [Hl Hb]. destruct (IH _ (small_effect r a Hr Ha)) as (Hls & Hbs & Hd).
  cbn [resp_replies_to length foldl]. split_and!; [by constructor | | done]. change (mjoin (?x :: ?l)) with (x ++ mjoin l).
  rewrite length_app. lia.
Qed.

Lemma full_replies r wb s a :
  aof s = None → holds (sw s) a →
  ∃ s', exec_resp false (request_cmd r) wb s = (Val (wb ++ resp_reply_to r a), s') ∧ aof s' = None ∧
    holds (sw s') (request_effect r a).
Proof.
  intros Ha Hh. set (c := request_cmd r). assert (timeless c) as Ht by (by destruct r).
  destruct (dispatch_answers c (sw s) a Ht Hh) as (resp & w' & E & Hh' & Hans & _).
  exists (mkSWorld w' None). split; [|by split; [|destruct r]].
  rewrite <- (proj1 (exec_fast_full c wb s Ha)). unfold exec_fast, lift_w, mbind, st_bind. rewrite E, Ha.
  destruct r as [k v|k]; cbn in Hans; subst resp; [done|]. by cbn; destruct (a !! k).
Qed.

(** How the two paths run a command. *)
Definition exec_of (full : bool) : Command → bytes → ST SW bytes := if full then exec_resp false else exec_fast.

Lemma exec_of_appends full : appends (exec_of full).
Proof.
  destruct full; [apply exec_resp_appends|]. intros c wb s. cbn. unfold exec_fast, mbind, st_bind, mret, st_ret.
  repeat case_match; simplify_eq/=; done.
Qed.

Lemma path_serves full : serves (path_of full).2 (exec_of full).
Proof. destruct full; [apply full_serves | apply fast_serves]. Qed.

Lemma run_resp_requests full rs wb s a :
  aof s = None → holds (sw s) a →
  ∃ s', run_cmds (exec_of full) (request_cmd <$> rs) wb s = (Val (wb ++ mjoin (resp_replies_to rs a)), s') ∧
    holds (sw s') (foldl (λ a r, request_effect r a) a rs).
Proof.
  revert wb s a. induction rs as [|r rs IH]; intros wb s a Ha Hh.
  { exists s. cbn. by rewrite app_nil_r. }
  destruct (full_replies r wb s a Ha Hh) as (s1 & E1 & Ha1 & Hh1).
  destruct (IH (wb ++ resp_reply_to r a) s1 _ Ha1 Hh1) as (s' & E' & Hh').
  exists s'. cbn [fmap list_fmap run_cmds]. rewrite (st_bind_val _ _ s (wb ++ resp_reply_to r a) s1).
  - split; [|done]. rewrite <- app_assoc in E'. exact E'.
  - destruct full; [done|]. cbn [exec_of]. by rewrite (proj1 (exec_fast_full _ _ _ Ha)).
Qed.

Lemma small_frame r : small r → (length (resp_frame (command_args (request_cmd r))) ≤ 210)%nat.
Proof.
  assert (∀ x, (length x ≤ 64)%nat → (length (resp_bulk x) ≤ 25 + length x)%nat) as Hb.
  { intros x Hx. unfold resp_bulk. rewrite !length_app. change (length (str "$")) with 1%nat. change (length crlf) with 2%nat.
    destruct (display_counter (Z.of_nat (length x))) as (Hl & _); [split; lia|]. lia. }
  unfold resp_frame. rewrite !length_app.
  destruct r as [k v|k]; cbn [small request_cmd command_args fmap list_fmap];
    repeat change (mjoin (?x :: ?l)) with (x ++ mjoin l); rewrite !length_app; change (length (str "*")) with 1%nat;
    change (length (display_u _)) with 1%nat; change (length crlf) with 2%nat; change (length (mjoin [])) with 0%nat.
  - intros [Hk Hv]. pose proof (Hb k Hk). pose proof (Hb v Hv). change (length (resp_bulk (str "SET"))) with 9%nat. lia.
  - intros Hk. pose proof (Hb k Hk). change (length (resp_bulk (str "GET"))) with 9%nat. lia.
Qed.

(** A batch of requests, however the network cuts it. *)
Lemma resp_round full rs chunks s a :
  Forall small rs → Z.of_nat (length rs) ≤ 4000 → aof s = None → holds (sw s) a → small_data a →
  mjoin chunks = stream (request_cmd <$> rs) → ([] ∉ chunks) →
  ∃ out s', session_loop (path_of full).1 (path_of full).2 (arriving chunks) [] [] [] s = (Val out, s') ∧
    holds (sw s') (foldl (λ a r, request_effect r a) a rs) ∧
    small_data (foldl (λ a r, request_effect r a) a rs) ∧
    ∀ p c, good (out ++ p) c →
      ∃ l u, read_replies (length rs) c = (Val tt, set_input l u c) ∧ good p (set_input l u c).
Proof.
  intros Hrs Hn Ha Hh Hd Hch Hne. destruct (resp_replies_one rs a Hrs Hd) as (Hone & Hlen & Hd').
  destruct (run_resp_requests full rs [] s a Ha Hh) as (s' & E & Hh').
  exists (mjoin (resp_replies_to rs a)), s'. split_and!; [|done|done|].
  - apply (session_stream _ _ (exec_of full) chunks (request_cmd <$> rs) [] []);
      auto using path_serves, exec_of_appends.
    + apply Forall_fmap. eapply Forall_true. by intros [].
    + destruct rs as [|r rs]; [done|]. cbn. lia.
    + assert (length (stream (request_cmd <$> rs)) ≤ 210 * length rs)%nat as Hle; [|unfold MAX_READ_BUF; lia].
      clear -Hrs. induction Hrs as [|r rs Hr _ IH]; [done|]. cbn [fmap list_fmap length]. rewrite stream_cons, length_app.
      pose proof (small_frame r Hr). lia.
    + unfold MAX_WRITE_BUF. etrans; [exact (inj_le _ _ Hlen)|]. lia.
  - intros p c Hc. rewrite <- (length_resp_replies rs a). by apply read_replies_good.
Qed.

Lemma stream_request_bytes op n key :
  request_bytes (redis_text op) n key = stream (request_cmd <$> (redis_request op <$> key_seq n key)).
Proof. unfold request_bytes, stream, redis_text. f_equal. by rewrite <- !list_fmap_compose. Qed.

Lemma redis_request_small op key : counter_ok key → small (redis_request op key).
Proof.
  intros Hk. destruct (display_counter key Hk) as (Hl & _). unfold redis_request.
  case_bool_decide; cbn [small set_request get_request]; rewrite !length_app;
    change (length (str "k:")) with 2%nat; lia.
Qed.

(** C30: a round of [redis_compare] and the server fit together.  The batch it builds in its two
    buffers is the RESP encoding of [SET k:c k:c] or [GET k:c] for the next counters [c] (the
    [% 1000] in it changes nothing); cut in any way it is run in order on both paths, and the reader
    takes exactly the replies off the connection, whatever bytes the values read hold, however the
    answer is cut, so that the next round starts the same way. *)
Theorem redis_round (full : bool) op n key kb vb s a :
  known_op op → counter_ok key → length kb = 32%nat → length vb = 32%nat → Z.of_nat n ≤ 4000 →
  aof s = None → holds (sw s) a → small_data a →
  let rs := redis_request op <$> key_seq n key in
  ∃ batch kb' vb', redis_batch op n key kb vb [] = Val (batch, key_after n key, (kb', vb')) ∧
    length kb' = 32%nat ∧ length vb' = 32%nat ∧
    batch = stream (request_cmd <$> rs) ∧
    ∀ chunks, mjoin chunks = batch → ([] ∉ chunks) →
    ∃ out s', session_loop (path_of full).1 (path_of full).2 (arriving chunks) [] [] [] s = (Val out, s') ∧
      holds (sw s') (foldl (λ a r, request_effect r a) a rs) ∧
      small_data (foldl (λ a r, request_effect r a) a rs) ∧
      ∀ p c, good (out ++ p) c →
        ∃ l u, read_replies n c = (Val tt, set_input l u c) ∧ good p (set_input l u c).
Proof.
  intros Hop Hk Hkb Hvb Hn Ha Hh Hd. set (rs := redis_request op <$> key_seq n key). cbn zeta.
  destruct (redis_batch_text op n key kb vb [] Hop Hk Hkb Hvb) as (kb' & vb' & E & Hkb' & Hvb').
  destruct (key_seq_ok n key Hk) as [Hks Hlen].
  assert (length rs = n) as Hl by (unfold rs; by rewrite length_fmap).
  exists (stream (request_cmd <$> rs)), kb', vb'. split_and!; [by rewrite E; unfold rs; rewrite stream_request_bytes | done..|].
  intros chunks Hch Hne. rewrite <- Hl. apply resp_round; try done; [|by rewrite Hl].
  apply Forall_fmap. eapply Forall_impl; [exact Hks|]. intros c Hc. by apply redis_request_small.
Qed.
End rounds.

(** An option without its value makes the program panic instead of printing the usage. *)
Theorem missing_value_panics o arg :
  arg ∈ [str "--target"; str "--host"; str "--port"; str "--format"; str "--duration"] → parse_args [arg] o = Panic.
Proof. intros H. set_unfold. by destruct_or!; subst. Qed.

(** * Witness *)

Section witnesses.
#[local] Existing Instances gmap_dashmap ms_clock itoa_display memchr_scan.

Lemma redis_round_witness :
  let frame := str "*3" ++ crlf ++ str "$3" ++ crlf ++ str "SET" ++ crlf ++ str "$3" ++ crlf ++ str "k:7" ++ crlf ++
    str "$3" ++ crlf ++ str "k:7" ++ crlf in
  ∃ out s', session_loop true (full_batch false) (arriving [take 9 frame; drop 9 frame]) [] [] [] wit_conn =
    (Val out, s') ∧ holds (sw s') {[str "k:7" := str "k:7"]}.
Proof.
  destruct (redis_round true (str "SET") 1 7 zeros zeros wit_conn ∅) as (batch & kb & vb & _ & _ & _ & Eb & H);
    [by left | by split | done | done | by vm_compute | done | done | done |].
  set (frame := str "*3" ++ _). cbn zeta.
  destruct (H [take 9 frame; drop 9 frame]) as (out & s' & E & Hh & _).
  - rewrite Eb. by vm_compute.
  - apply (bool_decide_unpack _). by vm_compute.
  - exists out, s'. split; [exact E | exact Hh].
Defined.
End witnesses.
