(* ===== verification/Main.v ===== *)
(** [src/main.rs]: the life of the process.  Start-up builds the engine, restores it from the
    configured files and opens the log; the configuration decides which background tasks run;
    shutdown flushes the log and takes a final snapshot.  Logging, signals and the spawning
    itself belong to the runtime. *)

From S2P Require Import Prelude RustStd Crates Domain Parser ParserBorrowed Metrics World Engine.
From S2P Require Import EngineFacts EvictFacts StoreSpec EngineProps Response Dispatcher.
From S2P Require Import DispatcherProps Aof AofFacts RestoreFacts AofProps Config Snapshot.
From S2P Require Import SnapshotProps Boot Session SessionProps Server ServerProps.

(** What reading the two files gives. *)
Record Disk : Type := mkDisk {
  snap_file : result bytes IoError;
  log_file : result bytes IoError
}.

(** The background tasks of [main], with their periods; the rewriter's threshold in bytes. *)
Inductive Task : Type :=
| TaskSweeper (interval : Duration)
| TaskSnapshotter (interval : Duration)
| TaskFsync
| TaskRewriter (threshold_bytes : Z) (check_interval : Duration).

(** The number of worker threads that is logged: [TOKIO_WORKER_THREADS] if it is a number. *)
Definition num_workers (tokio_worker_threads : option bytes) (parallelism : option Z) : Z :=
  default (num_cpus parallelism) (tokio_worker_threads ≫= parse_u64).

(** [config.aof.rewrite_threshold_mb() * 1024 * 1024], a [u64] product. *)
Definition rewrite_threshold (config : Config) : Z :=
  u64 (u64 (rewrite_threshold_mb (cfg_aof config) * 1024) * 1024).

(** Which tasks are spawned, given whether the log could be opened. *)
Definition background_tasks (config : Config) (has_log : bool) : list Task :=
  [TaskSweeper (sweep_interval config)] ++
  (if snapshot_on (cfg_snapshot config) && (0 <? as_millis (snapshot_interval (cfg_snapshot config)))
   then [TaskSnapshotter (snapshot_interval (cfg_snapshot config))] else []) ++
  (if aof_on (cfg_aof config) && has_log then
     (if is_every_second (aof_fsync (cfg_aof config)) then [TaskFsync] else []) ++
     [TaskRewriter (rewrite_threshold config) (from_secs 60)]
   else []).

(** [AofWriter::new] on the configured path: created when absent. *)
Definition open_log (config : Config) (d : Disk) (t : Instant) : option AofWriter :=
  match log_file d with
  | Ok content => Some (aof_new content (aof_fsync (cfg_aof config)) t)
  | Err IoNotFound => Some (aof_new [] (aof_fsync (cfg_aof config)) t)
  | Err _ => None
  end.

Section main.
Context {M : Type} {DM : DashMap bytes ValueEntry M} {CL : Clock} {IT : Itoa} {MC : Memchr}
  {C32 : Crc32} {TK : TokioTime}.
Abbreviation EW := (World (DashMapEngine M)).
Abbreviation SW := (SWorld (M := M)).

(** The world before start-up: [DashMapEngine::new()]. *)
Definition fresh_world (t : nat) (m : Metrics) (l : LocalCounters) : EW :=
  mkWorld engine_new t m l.

(** Start-up until the server accepts: the shared state. *)
Definition start (config : Config) (d : Disk) : ST EW (option AofWriter) :=
  restore_at_boot
    (if snapshot_on (cfg_snapshot config) then Some (snap_file d) else None)
    (if aof_on (cfg_aof config) then Some (log_file d) else None);;
  if aof_on (cfg_aof config) then t ← now; mret (open_log config d t) else mret None.

(** The sweeper's task: the interval, then [n] ticks. *)
Definition sweeper_task (interval : Duration) (n : nat) : ST EW () :=
  lift_outcome (interval_new interval);; run_sweeper n.

(** What the log file holds once the process has ended. *)
Definition log_at_exit (d : Disk) : ST SW (result bytes IoError) :=
  λ s, (Val (match aof s with Some a => Ok (file a) | None => log_file d end), s).

(** After the signal: the server flushes the log, [main] takes the final snapshot, and the
    files are what the next start reads. *)
Definition stop (config : Config) (timestamp : Z) (d : Disk) : ST SW Disk :=
  shutdown_flush;;
  snap ← (if snapshot_on (cfg_snapshot config)
          then f ← snapshotter_tick timestamp; mret (Ok f) else mret (snap_file d));
  log ← log_at_exit d;
  mret (mkDisk snap log).

(** * Properties *)

(** C25: a clean restart with the default persistence (snapshots on, log off): for whatever
    state the server was in when it stopped, with fewer than 2^32 visible entries, UTF-8 keys of up to
    65535 bytes and values below 4 GiB, the next start finds every visible entry
    that had no deadline, with its value and without one, or at least a millisecond left, with its
    value and the same number of whole milliseconds left, no key that was not visible, and opens
    no log. *)
Theorem clean_restart config timestamp d s t m l :
  snapshot_on (cfg_snapshot config) = true → aof_on (cfg_aof config) = false →
  let w2 := fresh_world t m l in
  clock_ok w2 (length (dumped_of (sw s))) →
  Forall (λ d, key_ok d.1.1 ∧ value_ok d.1.2) (dumped_of (sw s)) →
  Z.of_nat (length (dumped_of (sw s))) < 2 ^ 32 →
  ∃ d' s' w3, stop config timestamp d s = (Val d', s') ∧
    start config d' w2 = (Val None, w3) ∧
    recovered (sw s) w3 (clk (tick w2)) (clk (tick w3)).
Proof.
  intros Hs Ha w2 Hc Hok Hlen.
  destruct (load_dump timestamp (sw s) w2) as (f & n & w1 & w3 & E1 & E2 & _ & Hrec);
    [done | apply dm_get_new | done..|].
  eexists (mkDisk (Ok f) _), _, w3. split_and!; [| |by apply dump_recovered].
  - unfold stop, snapshotter_tick. rewrite Hs.
    unfold mbind, st_bind, mret, st_ret, shutdown_flush, update_aof, lift_w. cbn. by rewrite E1.
  - unfold start. rewrite Hs, Ha. cbn [snap_file]. unfold restore_at_boot.
    rewrite (st_bind_val _ _ w2 tt w3); [done|].
    rewrite (st_bind_val _ _ w2 tt w3); [done|]. by rewrite (st_bind_val _ _ _ _ _ E2).
Qed.

Lemma rewrite_threshold_exact config :
  0 ≤ rewrite_threshold_mb (cfg_aof config) < 2 ^ 44 →
  rewrite_threshold config = rewrite_threshold_mb (cfg_aof config) * 2 ^ 20.
Proof. intros. unfold rewrite_threshold, u64. rewrite !Z.mod_small by (rewrite ?Z.mod_small; lia). lia. Qed.

(** The threshold of the rewriter is the configured number of MiB below 2^44 of them, and
    a tick then leaves the log alone exactly while the file is smaller; from 2^44 on the product
    wraps, at 2^44 to a threshold of zero that no file is below. *)
Theorem rewrite_threshold_bounds config s a :
  config_wf config → aof s = Some a →
  let mb := rewrite_threshold_mb (cfg_aof config) in
  in_u64 (rewrite_threshold config) ∧
  (mb < 2 ^ 44 → file_size a < mb * 2 ^ 20 →
   aof_rewriter_tick (rewrite_threshold config) (mret tt) s = (Val tt, s)) ∧
  (mb < 2 ^ 44 → mb * 2 ^ 20 ≤ file_size a →
   ∃ tmp n s', rewrite_aof (sw s) = (Val (tmp, n), sw s') ∧
     aof_rewriter_tick (rewrite_threshold config) (mret tt) s = (Val tt, s') ∧
     aof s' = Some (finalize_rewrite tmp a)) ∧
  (mb = 2 ^ 44 → ¬ file_size a < rewrite_threshold config).
Proof.
  intros Hwf Ha mb. assert (in_u64 mb) as Hmb by apply Hwf. unfold in_u64 in Hmb.
  split_and!.
  - apply Z.mod_pos_bound. lia.
  - intros H1 H2. rewrite rewrite_threshold_exact by lia. fold mb.
    unfold aof_rewriter_tick, mbind, st_bind. rewrite Ha. cbn [fmap option_fmap option_map].
    by rewrite (proj2 (Z.ltb_lt _ _)).
  - intros H1 H2. rewrite rewrite_threshold_exact by lia. fold mb.
    eexists _, _, (mkSWorld _ _). split_and!; [reflexivity | | reflexivity].
    by rewrite (rewriter_tick_run _ _ s a _ _ _ _ Ha H2 eq_refl eq_refl).
  - intros H1. unfold rewrite_threshold, file_size. fold mb. rewrite H1. vm_compute (u64 _). lia.
Qed.

(** A sweep interval of zero, which the options allow, kills the sweeper at its start: no
    expired entry is ever removed by it. *)
Theorem zero_sweep_interval config n (w : EW) :
  sweep_interval_secs config = 0 → sweeper_task (sweep_interval config) n w = (Panic, w).
Proof.
  intros H. unfold sweeper_task, sweep_interval, lift_outcome, mbind, st_bind. rewrite H.
  change (from_secs 0) with 0. by rewrite interval_new_zero.
Qed.
End main.

(** * Witnesses *)

Section witnesses.
#[local] Existing Instances gmap_dashmap ms_clock itoa_display memchr_scan crc32_sum tokio_intervals.

Lemma clean_restart_witness :
  let w2 := fresh_world (M := gmap bytes ValueEntry) 5 (metrics_init 0) local_default in
  ∃ d' s' w3, stop config_default 1700000000000 (mkDisk (Err IoNotFound) (Err IoNotFound))
      (mkSWorld wit_mixed None) = (Val d', s') ∧
    start config_default d' w2 = (Val None, w3) ∧
    recovered wit_mixed w3 (clk (tick w2)) (clk (tick w3)).
Proof.
  apply (clean_restart config_default 1700000000000 _ (mkSWorld wit_mixed None));
    [reflexivity | reflexivity | by vm_compute | apply wit_mixed_ok | by vm_compute].
Defined.

Lemma rewrite_threshold_bounds_witness :
  in_u64 (rewrite_threshold config_default) ∧
  aof_rewriter_tick (rewrite_threshold config_default) (mret tt) wit_logged = (Val tt, wit_logged).
Proof.
  destruct (rewrite_threshold_bounds config_default wit_logged (aof_new (str "old") Always 0))
    as (H1 & H2 & _); [apply config_default_wf | reflexivity |].
  split; [exact H1 | apply H2; by vm_compute].
Defined.
End witnesses.
